(* ===== verification/_CoqProject ===== *)
-Q . S2P
Prelude.v
Pmem.v
Savitar.v
NvLog.v
Recover.v
Containers.v
Tx.v
TxProofs.v
Cores.v
Catalog.v
Manager.v
Bitmap.v
Heap.v
GlobalAlloc.v
GlobalAllocProofs.v
FreeList.v
FreeListTiling.v
FreeListProofs.v
FreeListDealloc.v
ObjectAlloc.v
ObjectAllocProofs.v
Snapshot.v
SnapshotProofs.v
SnapshotLoad.v
Freeze.v
SyncLog.v
Create.v
Runtime.v
Tools.v
Startup.v
Report.v
Lifetime.v
NestedRecovery.v
NestedProofs.v
Factories.v
KvTree.v
KvOrder.v
KvShape.v
KvLeaf.v
KvRefine.v
KvOps.v
KvRecover.v
KvEngine.v
