(* ===== verification/Prelude.v ===== *)
(** * Pronto: a verification library

    Pronto gives C++ objects persistence in byte-addressable memory.  A class
    derives from [PersistentObject]; every call of a method that changes an
    object is announced to the run-time system, which appends a description
    of the call to the semantic log of the object while the call runs, and
    commits the entry when it returns.  After a crash the objects are made
    again and their committed calls are played again.  Snapshots of the heap
    bound the length of the logs.

    ** Parts of the program and of this library

    - Prelude.v: outcomes of C++ code ([res]: a value, a failed [assert], an
      access outside a mapping, or fuel used up), machine words, little-endian
      bytes, tactics and the hint database [pronto].
    - Pmem.v: the interface to libpmem (class [PmemOps], with its laws in
      [PmemLaws]: loads and stores, copies with [nodrain], [drain], [persist],
      what a power failure may keep), and the interface to libuuid ([Uuid],
      [UuidLaws]).  [CacheMem] is a machine with a write-back cache that
      satisfies the laws, [HexUuid] an instance for identifiers.
    - Savitar.v: the constants of savitar.hpp and the tags of nested calls.
    - NvLog.v: the semantic log (nv_log.cpp), byte by byte.  Its abstract
      view is a list of entries with commit numbers ([log_repr]).
    - Recover.v: [PersistentObject::Recover], [RecoveryContext] (nv_object.cpp,
      recovery_context.hpp), over any class with [Log] and [Play]
      ([PersistentClass]); what happens to the object while its thread waits
      for the parent of a nested call is a parameter ([NestedWait]).
      Containers.v: [Log] and [Play] of the five classes
      of benchmark/persistent.
    - NestedRecovery.v, NestedProofs.v: the recovery threads of all objects at
      once, with the waiting for parents of nested calls (nv_object.cpp,
      thread.cpp, recovery_context.hpp), every access to the fields they share
      a step.
    - Tx.v, TxProofs.v: asynchronous logging, the protocol between a worker
      and its persister (thread.cpp, persister.cpp), every access to a shared
      buffer a step, threads interleaved freely.  SyncLog.v: the build with
      SYNC_SL.
    - Cores.v: /proc/cpuinfo, the hyper-thread map and the assignment of cores
      (cpu_info.cpp, thread.cpp).  Runtime.v: creation and end of threads, the
      signal handler and the end of the program (thread.cpp, context.cpp).
    - Catalog.v: the catalog of objects (nv_catalog.cpp), byte by byte.
      Manager.v: factories, ownership of objects, the search for aborted
      nested transactions (nv_factory.cpp, nvm_manager.cpp).  Startup.v: the
      constructor and destructor of [NVManager].
    - Bitmap.v, Heap.v, GlobalAlloc.v, FreeList.v, ObjectAlloc.v: the
      allocators (ckpt_alloc.cpp); the heap is a map of cache lines whose
      first bytes are the headers, at the width of their bit fields.
      GlobalAllocProofs.v, FreeListTiling.v, FreeListProofs.v,
      FreeListDealloc.v and ObjectAllocProofs.v prove them; Report.v has their
      reports.
    - Snapshot.v, SnapshotProofs.v, SnapshotLoad.v: the tables, the copying
      threads with the page-fault handlers, and loading (snapshot.cpp).
      Freeze.v: stopping the transactions.  Create.v: the stages of [create].
    - Lifetime.v: [STLAlloc], deletion of objects, destructors, opening of
      snapshot files, the start of [Savitar_main].
    - Factories.v: constructors and factories of the classes of
      benchmark/persistent with the memory they take.
    - Tools.v: tools/dump_log.cpp and tools/dump_snapshot.cpp.
    - KvTree.v: the key-value store of the experiments, PMemKV changed to run
      without logging (motivation/pmemkv-0.3x-volatile: kvtree2.cc,
      vpmem.hpp).  The tree is a value of [node]; pointers into it are paths
      with the addresses checked; a slot owns its buffer of bytes.
      KvOrder.v (keys, hashes, buffers), KvShape.v (the tree as a sorted list
      of leaves), KvLeaf.v (a leaf as an array of cells), KvRefine.v, KvOps.v
      and KvRecover.v prove it.  KvEngine.v: the interface (pmemkv.cc) and the
      experiment (pmemkv_throughput.cc).

    Structures are records with the fields of the source, operations are
    executable functions with the names of the source; [this] and the global
    state are passed explicitly.  Threads are programs of steps: an
    [Inductive] program counter, a step function and a relation on systems of
    threads.

    ** What is proved

    Conditions are part of the statements and are named in the comments of
    the theorems; the most important ones are given here.

    - The log (NvLog): every history of appends and commits is carried out on
      the bytes; a power failure between two operations or inside a commit
      loses no completed operation and no commit is half done; an append fails
      exactly if the entry does not fit.
    - Recovery (Recover, Containers, Startup): the committed calls are played
      exactly once each in commit order after such a failure, if every entry
      but the last of a log is followed by padding.  An entry that ends
      exactly on a cache line hides the entry after it
      ([exact_line_hides_commit]); a failure inside an append leaves the old
      log, or one that cannot be recovered ([append_crash]).  The loops of
      recovery end on every log image.  A restart without snapshot brings
      every object of the catalog back, if no entry is nested.
    - NestedProofs: with nested calls, every object goes through its calls in
      commit order and one at a time, and recovery does not block, for
      histories in which each call runs through a chain of different objects
      and no announcement can be taken for another ([unambiguous]).
    - Logging (TxProofs, SyncLog, Runtime): every interleaving of workers and
      persisters is a legal history of the logs; a commit always hits the
      entry of its call; what becomes of a waiting worker and of a persister
      whose worker has ended, in all cases; all failures of a worker; the
      synchronous build is an execution of the asynchronous one; the loggers
      are waited for, if no thread is created at the end.
    - Cores: the parser of /proc/cpuinfo and the pairs of hyper-threads.
    - Catalog, Manager, Lifetime: additions are failure-atomic at every access;
      an object has one owner; partially committed nested calls are found, and
      nothing else is.
    - Allocators: live regions and chunks never overlap, free memory is all
      the rest, freeing succeeds and merges, all other data is kept, and every
      page of a live chunk is set in the bitmap that snapshots use; for calls
      one at a time, below the sizes that overflow a header, and if the bytes
      at a cut do not mislead findBestMatch.
    - Snapshots: which threads can still write a log while the tables are
      saved; the copied blocks hold the heap at one moment whatever the
      program does meanwhile; the copying ends; tables (of up to 16 free
      regions) and the data of all pages in the bitmap come back on loading;
      the reserved parts of the file do not overlap.
    - The key-value store: any sequence of operations and reopenings with
      ASCII keys answers as a finite map does; the buffers of the C interface
      are respected from a size on; a worker of the experiment stores its
      whole trace.
    - Where the code does not do what it means to, the theorem about the
      failure is stated next to the theorem with the condition under which it
      works ([stale_size_segfault], [persister_overrun], [late_fault_exits],
      [freeze_misses_commit], [torn_test_breaks_order],
      [finalize_misses_logger], [stale_head_overlaps], ...).

    ** Fuel and bounds

    Loops over logs get one unit of fuel per cache line of the file plus two
    ([scan_fuel]); [recover_terminates] shows that this is enough for every
    image.  Walks over lists in the heap get one unit per written line
    ([list_fuel]), enough because a list has no repetitions
    ([list_fuel_bound]); the walk over the leaves of a key-value store gets
    one unit per leaf of the pool ([chain_bound]).  The search for parents
    gets one unit per cache line of all logs, the reader of /proc/cpuinfo one
    per character ([read_lines_fuel]).  All other recursion is structural.  Integers are [Z] with
    their wrap-around written out ([u64], [u32], [u16], [u29]).

    ** Assumptions

    libpmem, libuuid, the kernel's [mmap], the method bodies of persistent
    classes, the success of libpmemobj calls and the value of [top()] of an
    empty queue are parameters.  The laws of the classes state what their
    documentation promises, each class has an instance, and every theorem
    that uses them is applied to one.  Memory is sequentially consistent.

    ** Not modelled

    The DEBUG build (cycle counters, messages); destruction of mutexes; the
    layout of C++ objects in the heap (a parameter of Startup.v).  System
    calls other than [mmap] of the heap are taken to succeed.  The benchmark
    drivers, the unit tests, the profiling loop, the unmodified PMemKV with its
    benchmark, and the vendored libraries (RocksDB, LevelDB, gflags,
    googletest) are not part of the run-time system.  The key-value store
    runs without persistence, so that no power failure is considered for it. *)

From Stdlib Require Import ZArith Lia.
From stdpp Require Import base tactics numbers list gmap strings sorting.
#[global] Open Scope Z_scope.

(** ** Outcomes of C++ code

    A call either returns, trips an [assert], touches memory outside a
    mapping, or (only in the model) runs out of the fuel given to a loop. *)
Inductive res (A : Type) : Type :=
| Ok (a : A)
| AssertFail
| Segfault
| NoFuel.
Arguments Ok {A} a.
Arguments AssertFail {A}.
Arguments Segfault {A}.
Arguments NoFuel {A}.

Definition res_bind {A B} (c : res A) (k : A -> res B) : res B :=
  match c with
  | Ok a => k a
  | AssertFail => AssertFail
  | Segfault => Segfault
  | NoFuel => NoFuel
  end.

Declare Scope pronto_scope.
Delimit Scope pronto_scope with pronto.
Notation "'let*' x ':=' c 'in' k" := (res_bind c (fun x => k))
  (at level 10, x pattern, c at level 100, k at level 200) : pronto_scope.
Notation "'assert!' b 'in' k" := (if b then k else AssertFail)
  (at level 10, b at level 100, k at level 200) : pronto_scope.
#[global] Open Scope pronto_scope.

Definition is_Ok {A} (r : res A) : bool :=
  match r with Ok _ => true | _ => false end.

(** The value of an outcome, [d] when there is none. *)
Definition res_get {A} (d : A) (r : res A) : A :=
  match r with Ok a => a | _ => d end.

(** ** Machine words *)

Definition UINT64_MAX : Z := 18446744073709551615.
Definition u64 (z : Z) : Z := z mod 2 ^ 64.
Definition u32 (z : Z) : Z := z mod 2 ^ 32.
Definition u16 (z : Z) : Z := z mod 2 ^ 16.
Definition u8 (z : Z) : Z := z mod 2 ^ 8.

Definition is_u64 (z : Z) : Prop := 0 <= z < 2 ^ 64.

(** Little-endian images of integers, a byte is a [Z] in [0, 256). *)
Fixpoint le_bytes (n : nat) (z : Z) : list Z :=
  match n with
  | O => []
  | S n => z mod 256 :: le_bytes n (z / 256)
  end.

Fixpoint le_value (bs : list Z) : Z :=
  match bs with
  | [] => 0
  | b :: bs => b + 256 * le_value bs
  end.

Definition is_byte (b : Z) : Prop := 0 <= b < 256.

(** [rd] is a byte-addressed memory: [rd_bytes rd a n] reads [n] bytes. *)
Fixpoint rd_bytes (rd : Z -> Z) (a : Z) (n : nat) : list Z :=
  match n with
  | O => []
  | S n => rd a :: rd_bytes rd (a + 1) n
  end.

Definition rd64 (rd : Z -> Z) (a : Z) : Z := le_value (rd_bytes rd a 8).

(** [bytes_at rd a bs]: the bytes [bs] are stored from address [a] on. *)
Fixpoint bytes_at (rd : Z -> Z) (a : Z) (bs : list Z) : Prop :=
  match bs with
  | [] => True
  | b :: bs => rd a = b /\ bytes_at rd (a + 1) bs
  end.

Definition Zlength {A} (l : list A) : Z := Z.of_nat (length l).

(** Rounding up to the next multiple, as the sources write it. *)
Definition align_up (n a : Z) : Z :=
  if negb (n mod a =? 0) then n + (a - n mod a) else n.

(** ** Lemmas on outcomes *)

Lemma res_bind_Ok {A B} (c : res A) (k : A -> res B) b :
  res_bind c k = Ok b -> exists a, c = Ok a /\ k a = Ok b.
Proof. destruct c; simpl; naive_solver. Qed.

Lemma Ok_inj {A} (a b : A) : Ok a = Ok b -> a = b.
Proof. congruence. Qed.

Lemma res_get_Ok {A} (d : A) r (Q : A -> Prop) :
  (exists a, r = Ok a /\ Q a) -> Q (res_get d r).
Proof. by intros (a & -> & HQ). Qed.

Lemma res_bind_assoc {A B C} (c : res A) (f : A -> res B) (g : B -> res C) :
  res_bind (res_bind c f) g = res_bind c (fun a => res_bind (f a) g).
Proof. by destruct c. Qed.

(** Linear arithmetic with division and modulo by constants. *)
Ltac dlia := Z.to_euclidean_division_equations; lia.

Ltac res_inv H :=
  lazymatch type of H with
  | res_bind _ _ = Ok _ =>
      let a := fresh "r" in let H1 := fresh "Hr" in
      apply res_bind_Ok in H as (a & H1 & H)
  | (if ?b then _ else _) = Ok _ =>
      let E := fresh "Hb" in destruct b eqn:E; [|discriminate H]
  end.

(** ** Lemmas on words *)

Lemma u64_range z : is_u64 (u64 z).
Proof. unfold u64, is_u64. apply Z.mod_pos_bound. lia. Qed.

Lemma u64_id z : is_u64 z -> u64 z = z.
Proof. intros. unfold u64. by apply Z.mod_small. Qed.

Lemma u64_small z : 0 <= z < 2 ^ 64 -> u64 z = z.
Proof. apply u64_id. Qed.

Lemma length_le_bytes n z : length (le_bytes n z) = n.
Proof. revert z. induction n; intros; simpl; auto. Qed.

Lemma le_value_le_bytes n z : le_value (le_bytes n z) = z mod 2 ^ (8 * Z.of_nat n).
Proof.
  revert z. induction n as [|n IH]; intros z; cbn [le_bytes le_value].
  - change (8 * Z.of_nat 0) with 0. by rewrite Z.mod_1_r.
  - rewrite IH. replace (8 * Z.of_nat (S n)) with (8 + 8 * Z.of_nat n) by lia.
    rewrite Z.pow_add_r by lia. change (2 ^ 8) with 256.
    rewrite Z.rem_mul_r by lia. lia.
Qed.

Lemma le_value_le_bytes_8 z : is_u64 z -> le_value (le_bytes 8 z) = z.
Proof.
  intros. rewrite le_value_le_bytes. change (8 * Z.of_nat 8) with 64.
  by apply Z.mod_small.
Qed.

Lemma le_bytes_le_value bs :
  Forall is_byte bs -> le_bytes (length bs) (le_value bs) = bs.
Proof.
  induction 1 as [|b bs Hb _ IH]; [done|]. cbn [length le_bytes le_value].
  unfold is_byte in Hb. f_equal.
  - rewrite Z.mul_comm, Z.mod_add by lia. by apply Z.mod_small.
  - rewrite Z.mul_comm, Z.div_add, Z.div_small, Z.add_0_l by lia. done.
Qed.

Lemma le_value_range bs :
  Forall is_byte bs -> 0 <= le_value bs < 2 ^ (8 * Zlength bs).
Proof.
  unfold Zlength.
  induction 1 as [|b bs Hb _ IH]; cbn [length le_value]; [simpl; lia|].
  replace (8 * Z.of_nat (S (length bs))) with (8 + 8 * Z.of_nat (length bs)) by lia.
  rewrite Z.pow_add_r by lia. change (2 ^ 8) with 256.
  unfold is_byte in Hb. lia.
Qed.

Lemma le_bytes_is_byte n z : Forall is_byte (le_bytes n z).
Proof.
  revert z. induction n as [|n IH]; intros z; simpl; constructor; auto.
  apply Z.mod_pos_bound. lia.
Qed.

(** ** Lemmas on byte ranges *)

Lemma rd_bytes_lookup rd n a k : (k < n)%nat -> rd_bytes rd a n !! k = Some (rd (a + Z.of_nat k)).
Proof.
  revert a k. induction n as [|n IH]; intros a k Hk; [lia|]. destruct k as [|k]; simpl.
  - by rewrite Z.add_0_r.
  - rewrite IH by lia. do 2 f_equal. lia.
Qed.

Lemma length_rd_bytes rd a n : length (rd_bytes rd a n) = n.
Proof. revert a. induction n; intros; simpl; auto. Qed.

Lemma bytes_at_rd rd a bs :
  bytes_at rd a bs <-> rd_bytes rd a (length bs) = bs.
Proof.
  revert a. induction bs as [|b bs IH]; intros a; simpl; [done|].
  rewrite IH. split; [intros [-> ->]; done | by injection 1].
Qed.

Lemma bytes_at_rd64 rd a z :
  bytes_at rd a (le_bytes 8 z) -> is_u64 z -> rd64 rd a = z.
Proof.
  intros H Hz. apply bytes_at_rd in H. rewrite length_le_bytes in H.
  unfold rd64. rewrite H. by apply le_value_le_bytes_8.
Qed.

Lemma bytes_at_app rd a bs1 bs2 :
  bytes_at rd a (bs1 ++ bs2) <->
  bytes_at rd a bs1 /\ bytes_at rd (a + Zlength bs1) bs2.
Proof.
  unfold Zlength. revert a. induction bs1 as [|b bs1 IH]; intros a; cbn [app bytes_at length].
  - rewrite Z.add_0_r. tauto.
  - rewrite IH. replace (a + 1 + Z.of_nat (length bs1)) with (a + Z.of_nat (S (length bs1))) by lia.
    tauto.
Qed.

Lemma bytes_at_ext rd rd' a bs :
  (forall i, a <= i < a + Zlength bs -> rd' i = rd i) ->
  bytes_at rd a bs -> bytes_at rd' a bs.
Proof.
  unfold Zlength. revert a. induction bs as [|b bs IH]; intros a Hext; [done|].
  cbn [bytes_at length] in *. intros [Hb Hbs]. split.
  - rewrite Hext by lia. done.
  - apply IH; [|done]. intros. apply Hext. lia.
Qed.

Lemma rd_bytes_ext rd rd' a n :
  (forall i, a <= i < a + Z.of_nat n -> rd' i = rd i) ->
  rd_bytes rd' a n = rd_bytes rd a n.
Proof.
  revert a. induction n as [|n IH]; intros a Hext; [done|]. simpl.
  f_equal; [apply Hext; lia | apply IH; intros; apply Hext; lia].
Qed.

Lemma rd64_ext rd rd' a :
  (forall i, a <= i < a + 8 -> rd' i = rd i) -> rd64 rd' a = rd64 rd a.
Proof. intros. unfold rd64. by rewrite (rd_bytes_ext rd rd' a 8). Qed.

Lemma Zlength_app {A} (l1 l2 : list A) : Zlength (l1 ++ l2) = Zlength l1 + Zlength l2.
Proof. unfold Zlength. rewrite length_app. lia. Qed.

Lemma Zlength_nonneg {A} (l : list A) : 0 <= Zlength l.
Proof. unfold Zlength. lia. Qed.

Lemma Zlength_cons {A} (x : A) l : Zlength (x :: l) = 1 + Zlength l.
Proof. unfold Zlength. simpl length. lia. Qed.

Lemma Zlength_le_bytes n z : Zlength (le_bytes n z) = Z.of_nat n.
Proof. unfold Zlength. by rewrite length_le_bytes. Qed.

(** ** Alignment *)

Lemma align_up_spec n a :
  0 < a -> 0 <= n ->
  align_up n a mod a = 0 /\ n <= align_up n a < n + a.
Proof.
  intros Ha Hn. unfold align_up.
  pose proof (Z.mod_pos_bound n a Ha).
  destruct (Z.eqb_spec (n mod a) 0) as [E|E]; simpl; [lia|].
  split; [|lia].
  replace (n + (a - n mod a)) with ((n / a + 1) * a).
  - apply Z.mod_mul. lia.
  - pose proof (Z.div_mod n a). lia.
Qed.

Create HintDb pronto.
Create Rewrite HintDb pronto.
#[export] Hint Resolve u64_range u64_id Zlength_nonneg le_bytes_is_byte : pronto.
#[export] Hint Rewrite @length_app @length_le_bytes @length_rd_bytes @Zlength_app
  @Zlength_le_bytes @Zlength_cons @res_bind_assoc : pronto.
