(* ===== verification/Pmem.v ===== *)
(** * Persistent memory and identifiers: the interfaces Pronto is built on

    libpmem and libuuid are not part of the repository.  [PmemOps] lists the
    calls the sources make on a mapped persistent file and [PmemLaws] the
    documented behaviour they rely on: loads see the latest store, a range
    passed to [pmem_persist] survives a crash, a range written with
    [pmem_memcpy_nodrain] survives after [pmem_drain], and an aligned 8-byte
    store is failure-atomic.  [CacheMem] is a machine with a write-back cache
    that satisfies the laws; the witnesses run on it. *)

From stdpp Require Import base numbers list gmap strings.
From S2P Require Import Prelude.

Class PmemOps (P : Type) := {
  pm_fresh : Z -> P;                          (* pmem_map_file with PMEM_FILE_CREATE *)
  pm_len : P -> Z;                            (* mapped length *)
  pm_load : P -> Z -> Z;                      (* byte read by the CPU *)
  pm_store : P -> Z -> list Z -> P;           (* ordinary store *)
  pm_memcpy_nodrain : P -> Z -> list Z -> P;  (* pmem_memcpy_nodrain *)
  pm_drain : P -> P;                          (* pmem_drain *)
  pm_persist : P -> Z -> Z -> P;              (* pmem_persist addr len *)
  pm_durable : P -> Z -> Prop;                (* the byte survives a crash *)
  pm_flushed : P -> Z -> Prop;                (* durable after the next drain *)
  pm_crash : P -> P -> Prop                   (* images after a power failure *)
}.

Definition in_range (a : Z) (d n : Z) : Prop := d <= a < d + n.

Class PmemLaws (P : Type) `{PmemOps P} := {
  pm_fresh_load n a : pm_load (pm_fresh n) a = 0;
  pm_fresh_durable n a : pm_durable (pm_fresh n) a;
  pm_fresh_len n : pm_len (pm_fresh n) = n;
  pm_store_at p d bs : bytes_at (pm_load (pm_store p d bs)) d bs;
  pm_store_other p d bs a :
    ~ in_range a d (Zlength bs) -> pm_load (pm_store p d bs) a = pm_load p a;
  pm_memcpy_at p d bs : bytes_at (pm_load (pm_memcpy_nodrain p d bs)) d bs;
  pm_memcpy_other p d bs a :
    ~ in_range a d (Zlength bs) -> pm_load (pm_memcpy_nodrain p d bs) a = pm_load p a;
  pm_drain_load p a : pm_load (pm_drain p) a = pm_load p a;
  pm_persist_load p d n a : pm_load (pm_persist p d n) a = pm_load p a;
  pm_store_len p d bs : pm_len (pm_store p d bs) = pm_len p;
  pm_memcpy_len p d bs : pm_len (pm_memcpy_nodrain p d bs) = pm_len p;
  pm_drain_len p : pm_len (pm_drain p) = pm_len p;
  pm_persist_len p d n : pm_len (pm_persist p d n) = pm_len p;
  (* durability *)
  pm_store_durable p d bs a :
    ~ in_range a d (Zlength bs) -> pm_durable p a -> pm_durable (pm_store p d bs) a;
  pm_memcpy_durable p d bs a :
    ~ in_range a d (Zlength bs) -> pm_durable p a -> pm_durable (pm_memcpy_nodrain p d bs) a;
  pm_drain_durable p a : pm_durable p a -> pm_durable (pm_drain p) a;
  pm_persist_durable p d n a : pm_durable p a -> pm_durable (pm_persist p d n) a;
  pm_persist_range p d n a : in_range a d n -> pm_durable (pm_persist p d n) a;
  pm_memcpy_flushed p d bs a :
    in_range a d (Zlength bs) -> pm_flushed (pm_memcpy_nodrain p d bs) a;
  pm_memcpy_flushed_mono p d bs a :
    pm_flushed p a -> pm_flushed (pm_memcpy_nodrain p d bs) a;
  pm_drain_flushed p a : pm_flushed p a -> pm_durable (pm_drain p) a;
  (* power failure *)
  pm_crash_len p p' : pm_crash p p' -> pm_len p' = pm_len p;
  pm_crash_durable p p' a : pm_crash p p' -> pm_durable p a -> pm_load p' a = pm_load p a;
  pm_crash_all_durable p p' a : pm_crash p p' -> pm_durable p' a;
  pm_crash_word p p' d bs :
    d mod 8 = 0 -> length bs = 8%nat ->
    (forall a, in_range a d 8 -> pm_durable p a) ->
    pm_crash (pm_store p d bs) p' ->
    bytes_at (pm_load p') d bs \/ (forall a, in_range a d 8 -> pm_load p' a = pm_load p a)
}.

(** libuuid: textual form, null test; different uuids print differently. *)
Class Uuid := {
  uuid_unparse : list Z -> string;
  uuid_is_null : list Z -> bool
}.

Class UuidLaws `{Uuid} := {
  uuid_unparse_inj u v :
    length u = 16%nat -> length v = 16%nat -> Forall is_byte u -> Forall is_byte v ->
    uuid_unparse u = uuid_unparse v -> u = v
}.

(** ** A cache-line machine *)

Definition CACHE_LINE : Z := 64.

Module CacheMem.

Record t := Mem {
  len : Z;
  cur : gmap Z Z;          (* what the CPU sees *)
  nvm : gmap Z Z;          (* what the medium holds *)
  wc : list (Z * nat)      (* ranges written with non-temporal stores *)
}.

Definition get (m : gmap Z Z) (a : Z) : Z := default 0 (m !! a).

Fixpoint write (m : gmap Z Z) (a : Z) (bs : list Z) : gmap Z Z :=
  match bs with
  | [] => m
  | b :: bs => write (<[a := b]> m) (a + 1) bs
  end.

(** Copies bytes [a, a+n) of [src] into [dst]. *)
Definition copy (src dst : gmap Z Z) (a : Z) (n : nat) : gmap Z Z :=
  write dst a (rd_bytes (get src) a n).

(** The cache lines that overlap [d, d+n). *)
Definition line_base (d : Z) : Z := d / CACHE_LINE * CACHE_LINE.
Definition line_span (d n : Z) : nat :=
  Z.to_nat ((d + n + (CACHE_LINE - 1)) / CACHE_LINE * CACHE_LINE - line_base d).

Definition fresh (n : Z) : t := Mem n ∅ ∅ [].
Definition store (p : t) (d : Z) (bs : list Z) : t :=
  Mem (len p) (write (cur p) d bs) (nvm p) (wc p).
Definition memcpy_nodrain (p : t) (d : Z) (bs : list Z) : t :=
  Mem (len p) (write (cur p) d bs) (nvm p) ((d, length bs) :: wc p).
Definition drain (p : t) : t :=
  Mem (len p) (cur p) (foldr (fun '(d, n) m => copy (cur p) m d n) (nvm p) (wc p)) [].
Definition persist (p : t) (d n : Z) : t :=
  Mem (len p) (cur p) (copy (cur p) (nvm p) (line_base d) (line_span d n)) (wc p).

Definition durable (p : t) (a : Z) : Prop := get (nvm p) a = get (cur p) a.
Definition flushed (p : t) (a : Z) : Prop :=
  Exists (fun '(d, n) => in_range a d (Z.of_nat n)) (wc p).

(** After a power failure every aligned 8-byte word holds either what the
    medium had or what the cache had (the line was evicted in time). *)
Definition crash (p p' : t) : Prop :=
  len p' = len p /\ nvm p' = cur p' /\
  forall w, (forall a, in_range a (8 * w) 8 -> get (cur p') a = get (nvm p) a) \/
            (forall a, in_range a (8 * w) 8 -> get (cur p') a = get (cur p) a).

#[global] Instance ops : PmemOps t := {
  pm_fresh := fresh; pm_len := len; pm_load := fun p => get (cur p);
  pm_store := store; pm_memcpy_nodrain := memcpy_nodrain;
  pm_drain := drain; pm_persist := persist;
  pm_durable := durable; pm_flushed := flushed; pm_crash := crash
}.

Lemma get_write_other m d bs a :
  ~ in_range a d (Zlength bs) -> get (write m d bs) a = get m a.
Proof.
  unfold in_range, Zlength. revert m d.
  induction bs as [|b bs IH]; intros m d Ha; [done|]. cbn [write length] in *.
  rewrite IH by lia. unfold get. rewrite lookup_insert_ne by lia. done.
Qed.

Lemma write_at m d bs : bytes_at (get (write m d bs)) d bs.
Proof.
  revert m d. induction bs as [|b bs IH]; intros m d; [done|]. cbn [write bytes_at]. split.
  - rewrite get_write_other by (unfold in_range; lia).
    unfold get. by rewrite lookup_insert_eq.
  - apply IH.
Qed.

Lemma get_write_rd m d rd n a :
  in_range a d (Z.of_nat n) -> get (write m d (rd_bytes rd d n)) a = rd a.
Proof.
  unfold in_range. revert m d. induction n as [|n IH]; intros m d Ha; [lia|].
  cbn [rd_bytes write]. destruct (decide (a = d)) as [->|].
  - rewrite get_write_other by (unfold in_range; lia).
    unfold get. by rewrite lookup_insert_eq.
  - apply IH. lia.
Qed.

Lemma get_copy src dst d n a :
  get (copy src dst d n) a = get src a \/
  (get (copy src dst d n) a = get dst a /\ ~ in_range a d (Z.of_nat n)).
Proof.
  unfold copy. destruct (decide (d <= a < d + Z.of_nat n)).
  - left. by apply get_write_rd.
  - right. rewrite get_write_other; [done|].
    unfold Zlength. by rewrite length_rd_bytes.
Qed.

Lemma get_copy_in src dst d n a :
  in_range a d (Z.of_nat n) -> get (copy src dst d n) a = get src a.
Proof. intros. destruct (get_copy src dst d n a) as [|[_ ?]]; done. Qed.

Lemma get_copies src m l a :
  get (foldr (fun '(d, n) m => copy src m d n) m l) a = get src a \/
  (get (foldr (fun '(d, n) m => copy src m d n) m l) a = get m a /\
   ~ Exists (fun '(d, n) => in_range a d (Z.of_nat n)) l).
Proof.
  induction l as [|[d n] l IH]; cbn [foldr].
  - right. split; [done|]. by inversion 1.
  - destruct (get_copy src (foldr (fun '(d, n) m => copy src m d n) m l) d n a)
      as [E|[E Hn]]; [by left|]. rewrite E.
    destruct IH as [->|[-> Hl]]; [by left|]. right. split; [done|].
    inversion 1; subst; auto.
Qed.

Lemma line_span_in d n a : in_range a d n -> in_range a (line_base d) (Z.of_nat (line_span d n)).
Proof.
  unfold in_range, line_span, line_base, CACHE_LINE. intros Ha.
  assert (d / 64 * 64 <= d < d / 64 * 64 + 64) by dlia.
  assert (d + n <= (d + n + (64 - 1)) / 64 * 64) by dlia.
  lia.
Qed.

Lemma crash_pick p p' a :
  crash p p' -> get (cur p') a = get (nvm p) a \/ get (cur p') a = get (cur p) a.
Proof.
  intros (_ & _ & Hw). destruct (Hw (a / 8)) as [H|H]; [left|right]; apply H;
    unfold in_range; dlia.
Qed.

#[global] Instance laws : PmemLaws t.
Proof.
  split; cbn; unfold durable, flushed; intros.
  - done.
  - done.
  - done.
  - apply write_at.
  - by apply get_write_other.
  - apply write_at.
  - by apply get_write_other.
  - done.
  - done.
  - done.
  - done.
  - done.
  - done.
  - cbn. by rewrite get_write_other.
  - cbn. by rewrite get_write_other.
  - cbn. destruct (get_copies (cur p) (nvm p) (wc p) a) as [->|[-> _]]; done.
  - cbn. edestruct (get_copy (cur p) (nvm p)) as [->|[-> _]]; done.
  - cbn. apply get_copy_in. by apply line_span_in.
  - cbn. by constructor.
  - cbn. by constructor.
  - cbn. destruct (get_copies (cur p) (nvm p) (wc p) a) as [->|[_ ?]]; done.
  - by destruct H.
  - edestruct crash_pick as [-> | ->]; [done|done|done].
  - destruct H as (_ & -> & _). done.
  - destruct H2 as (_ & _ & Hw). cbn in Hw. specialize (Hw (d / 8)).
    replace (8 * (d / 8)) with d in Hw by dlia. destruct Hw as [Hw|Hw].
    + right. intros a Ha. rewrite Hw by done. by apply H1.
    + left. apply (bytes_at_ext (get (write (cur p) d bs))); [|apply write_at].
      intros i Hi. apply Hw. unfold in_range, Zlength in *. lia.
Qed.

(** Power fails and nothing that was only in the cache survives. *)
Definition lose_cache (p : t) : t := Mem (len p) (nvm p) (nvm p) [].

Lemma lose_cache_crash p : crash p (lose_cache p).
Proof. split; [done|]. split; [done|]. intros w. by left. Qed.

End CacheMem.

(** A concrete libuuid for the witnesses: two hexadecimal digits per byte. *)
Module HexUuid.

Definition hex (d : Z) : Ascii.ascii :=
  Ascii.ascii_of_nat (Z.to_nat (if d <? 10 then 48 + d else 87 + d)).

Fixpoint unparse (u : list Z) : string :=
  match u with
  | [] => EmptyString
  | b :: u => String (hex (b / 16)) (String (hex (b mod 16)) (unparse u))
  end.

Definition is_null (u : list Z) : bool := forallb (fun b => b =? 0) u.

#[global] Instance uuid : Uuid := {| uuid_unparse := unparse; uuid_is_null := is_null |}.

Lemma hex_inj d d' : 0 <= d < 16 -> 0 <= d' < 16 -> hex d = hex d' -> d = d'.
Proof.
  intros Hd Hd' E.
  assert (Hall : Forall (fun d => Forall (fun d' => hex d = hex d' -> d = d') (seqZ 0 16)) (seqZ 0 16)).
  { vm_compute. repeat (apply Forall_cons; split; [repeat (apply Forall_cons; split; [done|]);
      apply Forall_nil; exact I|]). apply Forall_nil; exact I. }
  rewrite Forall_forall in Hall. specialize (Hall d). rewrite elem_of_seqZ, Forall_forall in Hall.
  apply (Hall ltac:(lia) d'); [apply elem_of_seqZ; lia|done].
Qed.

Lemma unparse_inj u v :
  Forall is_byte u -> Forall is_byte v -> unparse u = unparse v -> u = v.
Proof.
  intros Hu. revert v. induction Hu as [|b u Hb Hu IH]; intros v Hv E.
  - destruct Hv; [done|discriminate E].
  - destruct Hv as [|b' v Hb' Hv]; [discriminate E|]. cbn [unparse] in E. unfold is_byte in *.
    injection E as E1 E2 E3. apply hex_inj in E1, E2; [|dlia..].
    f_equal; [|by apply IH]. dlia.
Qed.

#[global] Instance uuid_laws : UuidLaws.
Proof. split. intros u v _ _. apply unparse_inj. Qed.

End HexUuid.

(** ** Derived facts about any persistent memory *)

Section pmem_facts.
Context {P : Type} `{PmemLaws P}.

Lemma pm_store_load64 p d z a :
  is_u64 z -> a = d -> rd64 (pm_load (pm_store p d (le_bytes 8 z))) a = z.
Proof. intros Hz ->. apply bytes_at_rd64; [|done]. apply pm_store_at. Qed.

Lemma pm_store_rd64_other p d bs a :
  a + 8 <= d \/ d + Zlength bs <= a ->
  rd64 (pm_load (pm_store p d bs)) a = rd64 (pm_load p) a.
Proof.
  intros. apply rd64_ext. intros i Hi. apply pm_store_other. unfold in_range. lia.
Qed.

Lemma pm_memcpy_rd64_other p d bs a :
  a + 8 <= d \/ d + Zlength bs <= a ->
  rd64 (pm_load (pm_memcpy_nodrain p d bs)) a = rd64 (pm_load p) a.
Proof.
  intros. apply rd64_ext. intros i Hi. apply pm_memcpy_other. unfold in_range. lia.
Qed.

Lemma pm_drain_rd64 p a : rd64 (pm_load (pm_drain p)) a = rd64 (pm_load p) a.
Proof. apply rd64_ext. intros. apply pm_drain_load. Qed.

Lemma pm_persist_rd64 p d n a : rd64 (pm_load (pm_persist p d n)) a = rd64 (pm_load p) a.
Proof. apply rd64_ext. intros. apply pm_persist_load. Qed.

End pmem_facts.

#[export] Hint Rewrite @pm_drain_rd64 @pm_persist_rd64 using typeclasses eauto : pronto.
