(* ===== verification/Savitar.v ===== *)
(** * Constants of savitar.hpp shared by every component *)

From stdpp Require Import base numbers strings.
From S2P Require Import Prelude.

Definition CACHE_LINE_WIDTH : Z := 64.
Definition BUFFER_SIZE : Z := 8.
Definition MAX_CORES : Z := 40.
Definition MAX_ACTIVE_TXS : Z := 15.
Definition CATALOG_FILE_NAME : string := "savitar.cat".
Definition CATALOG_FILE_SIZE : Z := Z.shiftl 8 20.
Definition CATALOG_HEADER_SIZE : Z := Z.shiftl 2 20.
Definition PMEM_PATH : string := "/mnt/ram/".
Definition LOG_SIZE : Z := Z.shiftl 1 30.
Definition NESTED_TX_TAG : Z := 0x8000000000000000.
Definition REDO_LOG_MAGIC : Z := 0x5265646F4C6F6745.

(** [method_tag & NESTED_TX_TAG] and [method_tag & ~NESTED_TX_TAG]. *)
Definition is_nested (method_tag : Z) : bool :=
  negb (Z.land method_tag NESTED_TX_TAG =? 0).
Definition nested_offset (method_tag : Z) : Z :=
  Z.land method_tag (UINT64_MAX - NESTED_TX_TAG).
Definition nested_tag (parent_offset : Z) : Z :=
  Z.lor parent_offset NESTED_TX_TAG.

Lemma is_nested_nested_tag off : 0 <= off -> is_nested (nested_tag off) = true.
Proof.
  intros. unfold is_nested, nested_tag.
  destruct (Z.eqb_spec (Z.land (Z.lor off NESTED_TX_TAG) NESTED_TX_TAG) 0) as [E|]; [|done].
  exfalso. apply (f_equal (fun z => Z.testbit z 63)) in E.
  rewrite Z.land_spec, Z.lor_spec, Z.bits_0 in E.
  change (Z.testbit NESTED_TX_TAG 63) with true in E. rewrite orb_true_r in E. done.
Qed.

Lemma nested_offset_nested_tag off :
  0 <= off < 2 ^ 63 -> nested_offset (nested_tag off) = off.
Proof.
  intros Hoff. unfold nested_offset, nested_tag.
  change (UINT64_MAX - NESTED_TX_TAG) with (Z.ones 63).
  rewrite Z.land_ones by lia. change NESTED_TX_TAG with (Z.shiftl 1 63).
  rewrite <- Z.land_ones by lia. rewrite Z.land_lor_distr_l.
  rewrite !Z.land_ones by lia. rewrite (Z.mod_small off) by lia.
  change (Z.shiftl 1 63 mod 2 ^ 63) with 0. apply Z.lor_0_r.
Qed.

Lemma nested_tag_u64 off : 0 <= off < 2 ^ 63 -> is_u64 (nested_tag off).
Proof.
  intros Hoff. unfold is_u64, nested_tag. split.
  - apply Z.lor_nonneg. unfold NESTED_TX_TAG. lia.
  - destruct (decide (off = 0)) as [->|]; [done|].
    apply Z.log2_lt_pow2.
    + assert (0 <= Z.lor off NESTED_TX_TAG) by (apply Z.lor_nonneg; unfold NESTED_TX_TAG; lia).
      destruct (Z.eq_dec (Z.lor off NESTED_TX_TAG) 0) as [E|]; [|lia].
      apply Z.lor_eq_0_iff in E. lia.
    + rewrite Z.log2_lor by (unfold NESTED_TX_TAG; lia).
      change (Z.log2 NESTED_TX_TAG) with 63.
      assert (Z.log2 off < 63) by (apply Z.log2_lt_pow2; lia). lia.
Qed.

Lemma is_nested_plain tag : 0 <= tag < 2 ^ 63 -> is_nested tag = false.
Proof.
  intros Ht. unfold is_nested. replace (Z.land tag NESTED_TX_TAG) with 0; [done|].
  symmetry. apply Z.bits_inj'. intros n Hn. rewrite Z.land_spec, Z.bits_0.
  change NESTED_TX_TAG with (Z.shiftl 1 63). rewrite Z.shiftl_spec by done.
  destruct (decide (n = 63)) as [->|].
  - rewrite (Z.bits_above_log2 tag); [done|lia|].
    destruct (decide (tag = 0)) as [->|]; [done|]. apply Z.log2_lt_pow2; lia.
  - destruct (decide (n < 63)).
    + rewrite (Z.testbit_neg_r 1) by lia. apply andb_false_r.
    + rewrite (Z.bits_above_log2 1); [apply andb_false_r|lia|change (Z.log2 1) with 0; lia].
Qed.
