(* ===== verification/NvLog.v ===== *)
(** * The semantic redo log (nv_log.hpp, nv_log.cpp)

    A log is a persistent file.  Its first cache line is the header
    [RedoLog]; entries follow, each padded to a cache line:
    [commit_id | magic | argument vectors ...].  [Savitar_log_append] reserves
    and fills an entry with a zero commit id; [Savitar_log_commit] numbers it. *)

From stdpp Require Import base numbers list gmap strings.
From S2P Require Import Prelude Pmem Savitar.

(** Offsets of the fields of [RedoLog]. *)
Definition off_checksum : Z := 0.
Definition off_object_id : Z := 8.
Definition off_size : Z := 24.
Definition off_head : Z := 32.
Definition off_tail : Z := 40.
Definition off_last_commit : Z := 48.
Definition off_snapshot_lock : Z := 56.
Definition sizeof_RedoLog : Z := 64.

Section NvLog.
Context {P : Type} `{PmemOps P} `{Uuid}.

Definition get_field (log : P) (f : Z) : Z := rd64 (pm_load log) f.
Definition set_field (log : P) (f v : Z) : P := pm_store log f (le_bytes 8 v).

(** The [CHECKSUM] macro: words 1, 2 and 3 of the header xor-ed. *)
Definition CHECKSUM (log : P) : Z :=
  Z.lxor (Z.lxor (get_field log 8) (get_field log 16)) (get_field log 24).

Definition Savitar_log_path (uuid : list Z) : res string :=
  assert! negb (uuid_is_null uuid) in
  Ok (String.append PMEM_PATH (String.append (uuid_unparse uuid) ".log")).

Definition Savitar_log_exists (files : gmap string P) (uuid : list Z) : res bool :=
  let* path := Savitar_log_path uuid in
  Ok (bool_decide (is_Some (files !! path))).

(** The files are the persistent store; a log pointer is the path of its
    mapping.  [None] is the NULL pointer. *)
Definition Savitar_log_open (files : gmap string P) (id : list Z)
  : res (gmap string P * option string) :=
  let* path := Savitar_log_path id in
  match files !! path with
  | None => Ok (files, None)
  | Some log =>
      assert! get_field log off_size =? pm_len log in
      assert! get_field log off_checksum =? CHECKSUM log in
      let log := set_field log off_snapshot_lock 0 in
      Ok (<[path := log]> files, Some path)
  end.

Definition log_init (id : list Z) (size : Z) (log : P) : P :=
  let log := set_field log off_size size in
  let log := pm_store log off_object_id id in
  let log := set_field log off_tail sizeof_RedoLog in
  let log := set_field log off_head (get_field log off_tail) in
  let log := set_field log off_last_commit 0 in
  let log := set_field log off_snapshot_lock 0 in
  let log := set_field log off_checksum (CHECKSUM log) in
  pm_persist log 0 sizeof_RedoLog.

Definition Savitar_log_create (files : gmap string P) (id : list Z) (size : Z)
  : res (gmap string P * option string) :=
  let* path := Savitar_log_path id in
  match files !! path with
  | Some _ => Ok (files, None)   (* PMEM_FILE_EXCL *)
  | None =>
      let log := pm_fresh size in
      assert! pm_len log =? size in
      assert! sizeof_RedoLog =? CACHE_LINE_WIDTH in
      Ok (<[path := log_init id size log]> files, Some path)
  end.

(** The size loop of [Savitar_log_append]: two words (commit id and magic)
    plus every vector, rounded up to a cache line, in [size_t] arithmetic. *)
Definition append_entry_size (v : list (list Z)) : Z :=
  let entry_size := fold_left (fun s x => u64 (s + Zlength x)) v (2 * 8) in
  if negb (entry_size mod CACHE_LINE_WIDTH =? 0)
  then u64 (entry_size + (CACHE_LINE_WIDTH - entry_size mod CACHE_LINE_WIDTH))
  else entry_size.

(** The copy loop: each vector goes right after the previous one. *)
Fixpoint append_vectors (log : P) (dst : Z) (v : list (list Z)) : P :=
  match v with
  | [] => log
  | x :: v => append_vectors (pm_memcpy_nodrain log dst x) (dst + Zlength x) v
  end.

Definition Savitar_log_append (log : P) (v : list (list Z)) : res (P * Z) :=
  assert! (0 <? Zlength v) in
  let entry_size := append_entry_size v in
  let offset := get_field log off_tail in
  let log := set_field log off_tail (u64 (offset + entry_size)) in
  assert! u64 (offset + entry_size) <=? get_field log off_size in
  let dst := offset + 8 in
  let log := pm_memcpy_nodrain log dst (le_bytes 8 REDO_LOG_MAGIC) in
  let log := append_vectors log (dst + 8) v in
  let log := pm_drain log in
  let log := pm_persist log off_tail 8 in
  Ok (log, offset).

(** The store of the commit id, before it is persisted. *)
Definition log_commit_store (log : P) (entry_offset : Z) : res P :=
  let commit_id := u64 (get_field log off_last_commit + 1) in
  let log := set_field log off_last_commit commit_id in
  assert! commit_id <? UINT64_MAX in
  Ok (pm_store log entry_offset (le_bytes 8 commit_id)).

Definition Savitar_log_commit (log : P) (entry_offset : Z) : res P :=
  let* log := log_commit_store log entry_offset in
  Ok (pm_persist log entry_offset 8).

(** The stores of [Savitar_log_append] before its fences (nv_log.cpp:76-95),
    the images in which a power failure can catch it. *)
Definition append_stores (log : P) (v : list (list Z)) : res (P * Z) :=
  assert! (0 <? Zlength v) in
  let entry_size := append_entry_size v in
  let offset := get_field log off_tail in
  let log := set_field log off_tail (u64 (offset + entry_size)) in
  assert! u64 (offset + entry_size) <=? get_field log off_size in
  let dst := offset + 8 in
  let log := pm_memcpy_nodrain log dst (le_bytes 8 REDO_LOG_MAGIC) in
  Ok (append_vectors log (dst + 8) v, offset).

Lemma append_split log v :
  Savitar_log_append log v =
    let* r := append_stores log v in Ok (pm_persist (pm_drain (fst r)) off_tail 8, snd r).
Proof.
  unfold Savitar_log_append, append_stores. destruct (_ <? _); [|done]. by destruct (_ <=? _).
Qed.

(** ** Abstract view: a list of entries *)

Record entry := Entry { e_commit : Z; e_body : list Z }.

Definition esize (e : entry) : Z := align_up (16 + Zlength (e_body e)) CACHE_LINE_WIDTH.
Definition total (es : list entry) : Z := foldr (fun e n => esize e + n) 0 es.
Definition entry_off (es : list entry) (i : nat) : Z := sizeof_RedoLog + total (take i es).

Fixpoint entries_at (rd : Z -> Z) (off : Z) (es : list entry) : Prop :=
  match es with
  | [] => True
  | e :: es =>
      bytes_at rd off (le_bytes 8 (e_commit e)) /\
      bytes_at rd (off + 8) (le_bytes 8 REDO_LOG_MAGIC) /\
      bytes_at rd (off + 16) (e_body e) /\
      entries_at rd (off + esize e) es
  end.

(** [log_repr p es n]: the file [p] holds the entries [es], [n] of them
    committed so far, and is still blank past its tail. *)
Record log_repr (p : P) (es : list entry) (n : Z) : Prop := {
  lr_len : is_u64 (pm_len p);
  lr_size : get_field p off_size = pm_len p;
  lr_head : get_field p off_head = sizeof_RedoLog;
  lr_tail : get_field p off_tail = sizeof_RedoLog + total es;
  lr_fits : sizeof_RedoLog + total es <= pm_len p;
  lr_commits : get_field p off_last_commit = n;
  lr_count : is_u64 n;
  lr_entries : entries_at (pm_load p) sizeof_RedoLog es;
  lr_blank : forall a, sizeof_RedoLog + total es <= a -> pm_load p a = 0
}.

(** Between two calls everything but [last_commit] and [snapshot_lock] is
    on the medium. *)
Definition log_durable (p : P) : Prop :=
  forall a, a < off_last_commit \/ sizeof_RedoLog <= a -> pm_durable p a.

(** The operations of a log as the transactions issue them, and their
    meaning on the abstract view. *)
Inductive log_op :=
| OpAppend (v : list (list Z))
| OpCommit (entry_offset : Z).

Definition run_op (log : P) (op : log_op) : res P :=
  match op with
  | OpAppend v => let* r := Savitar_log_append log v in Ok (fst r)
  | OpCommit off => Savitar_log_commit log off
  end.

Fixpoint run_ops (log : P) (ops : list log_op) : res P :=
  match ops with
  | [] => Ok log
  | op :: ops => let* log := run_op log op in run_ops log ops
  end.

Inductive spec_op (len : Z) : list entry * Z -> log_op -> list entry * Z -> Prop :=
| spec_append es n v :
    v <> [] ->
    sizeof_RedoLog + total es + esize (Entry 0 (concat v)) <= len ->
    spec_op len (es, n) (OpAppend v) (es ++ [Entry 0 (concat v)], n)
| spec_commit es n i body :
    es !! i = Some (Entry 0 body) ->
    n + 1 < UINT64_MAX ->
    spec_op len (es, n) (OpCommit (entry_off es i)) (<[i := Entry (n + 1) body]> es, n + 1).

Inductive spec_ops (len : Z) : list entry * Z -> list log_op -> list entry * Z -> Prop :=
| spec_nil s : spec_ops len s [] s
| spec_cons s1 op s2 ops s3 :
    spec_op len s1 op s2 -> spec_ops len s2 ops s3 -> spec_ops len s1 (op :: ops) s3.

End NvLog.

(** ** Layout lemmas *)

Lemma esize_spec e :
  esize e mod 64 = 0 /\ 16 + Zlength (e_body e) <= esize e < 16 + Zlength (e_body e) + 64.
Proof. apply align_up_spec; [done|]. pose proof (Zlength_nonneg (e_body e)). lia. Qed.

Lemma esize_ge e : 64 <= esize e.
Proof. pose proof (esize_spec e). pose proof (Zlength_nonneg (e_body e)). dlia. Qed.

Lemma esize_body c c' b : esize (Entry c b) = esize (Entry c' b).
Proof. done. Qed.

Lemma total_nonneg es : 0 <= total es.
Proof. induction es as [|e es IH]; simpl; [lia|]. pose proof (esize_ge e). lia. Qed.

Lemma total_app es1 es2 : total (es1 ++ es2) = total es1 + total es2.
Proof. induction es1 as [|e es1 IH]; simpl; [done|]. rewrite IH. lia. Qed.

Lemma total_aligned es : total es mod 64 = 0.
Proof.
  induction es as [|e es IH]; [done|]. cbn [total foldr]. fold (total es).
  pose proof (esize_spec e). dlia.
Qed.

Lemma total_insert es i c b b' :
  es !! i = Some (Entry c b) -> b' = b -> forall c', total (<[i := Entry c' b']> es) = total es.
Proof.
  intros Hi -> c'. revert i Hi. induction es as [|e es IH]; intros [|i] Hi; simpl in *.
  - done.
  - done.
  - simplify_eq. done.
  - fold (total es). fold (total (<[i:=Entry c' b]> es)). by rewrite IH.
Qed.

Lemma total_take_lookup es i e :
  es !! i = Some e -> total (take i es) + esize e + total (drop (S i) es) = total es.
Proof.
  intros Hi. rewrite <- (take_drop_middle es i e Hi) at 3.
  rewrite total_app. simpl. fold (total (drop (S i) es)). lia.
Qed.

Lemma entry_off_bounds es i e :
  es !! i = Some e ->
  sizeof_RedoLog <= entry_off es i /\
  entry_off es i + esize e <= sizeof_RedoLog + total es /\ entry_off es i mod 64 = 0.
Proof.
  intros Hi. unfold entry_off. pose proof (total_take_lookup es i e Hi).
  pose proof (total_nonneg (take i es)). pose proof (total_nonneg (drop (S i) es)).
  pose proof (total_aligned (take i es)). unfold sizeof_RedoLog. dlia.
Qed.

Lemma entry_off_length es e : entry_off (es ++ [e]) (length es) = sizeof_RedoLog + total es.
Proof. unfold entry_off. by rewrite take_app_length. Qed.

Lemma entries_at_ext rd rd' off es :
  (forall a, off <= a < off + total es -> rd' a = rd a) ->
  entries_at rd off es -> entries_at rd' off es.
Proof.
  revert off. induction es as [|e es IH]; intros off Hext; [done|].
  cbn [entries_at]. intros (Hc & Hm & Hb & Hes).
  change (total (e :: es)) with (esize e + total es) in Hext.
  pose proof (esize_ge e). pose proof (esize_spec e) as [_ Hsz].
  pose proof (total_nonneg es). pose proof (Zlength_nonneg (e_body e)).
  split; [|split; [|split]].
  - eapply bytes_at_ext; [|exact Hc]. rewrite Zlength_le_bytes. intros. apply Hext. lia.
  - eapply bytes_at_ext; [|exact Hm]. rewrite Zlength_le_bytes. intros. apply Hext. lia.
  - eapply bytes_at_ext; [|exact Hb]. intros. apply Hext. lia.
  - apply IH; [|done]. intros. apply Hext. lia.
Qed.

Lemma entries_at_app rd off es1 es2 :
  entries_at rd off (es1 ++ es2) <->
  entries_at rd off es1 /\ entries_at rd (off + total es1) es2.
Proof.
  revert off. induction es1 as [|e es1 IH]; intros off; cbn [entries_at app].
  - change (total []) with 0. rewrite Z.add_0_r. tauto.
  - rewrite IH. change (total (e :: es1)) with (esize e + total es1).
    rewrite Z.add_assoc. tauto.
Qed.

(** Overwriting the commit word of entry [i] and nothing else. *)
Lemma entries_at_commit rd rd' es i c b c' :
  es !! i = Some (Entry c b) ->
  bytes_at rd' (entry_off es i) (le_bytes 8 c') ->
  (forall a, sizeof_RedoLog <= a < sizeof_RedoLog + total es ->
     ~ in_range a (entry_off es i) 8 -> rd' a = rd a) ->
  entries_at rd sizeof_RedoLog es ->
  entries_at rd' sizeof_RedoLog (<[i := Entry c' b]> es).
Proof.
  intros Hi Hc' Hother He. pose proof (total_take_lookup _ _ _ Hi) as Htot.
  pose proof (esize_spec (Entry c b)) as [_ Hsz]. cbn [e_body] in Hsz.
  pose proof (total_nonneg (take i es)). pose proof (total_nonneg (drop (S i) es)).
  pose proof (Zlength_nonneg b). pose proof (esize_ge (Entry c b)).
  unfold entry_off, in_range in *.
  assert (i < length es)%nat by (by eapply lookup_lt_Some).
  rewrite insert_take_drop by done.
  rewrite <- (take_drop_middle es i _ Hi) in He.
  apply entries_at_app in He as [He1 He2]. apply entries_at_app.
  cbn [entries_at e_commit e_body] in He2 |- *. destruct He2 as (_ & Hm & Hb & He3).
  rewrite (esize_body c' c). split; [|split; [|split; [|split]]].
  - eapply entries_at_ext; [|exact He1]. intros. apply Hother; lia.
  - done.
  - eapply bytes_at_ext; [|exact Hm]. rewrite Zlength_le_bytes. intros. apply Hother; lia.
  - eapply bytes_at_ext; [|exact Hb]. intros. apply Hother; lia.
  - eapply entries_at_ext; [|exact He3]. intros. apply Hother; lia.
Qed.

(** ** The operations refine the abstract view *)

Section NvLog_proofs.
Context {P : Type} `{PmemLaws P} `{Uuid}.
Implicit Types (p : P) (es : list entry).

Lemma append_vectors_other p dst v a :
  ~ in_range a dst (Zlength (concat v)) ->
  pm_load (append_vectors p dst v) a = pm_load p a.
Proof.
  revert p dst. induction v as [|x v IH]; intros p dst Ha; [done|].
  cbn [append_vectors concat] in *. rewrite Zlength_app in Ha. unfold in_range in Ha.
  pose proof (Zlength_nonneg x). pose proof (Zlength_nonneg (concat v)).
  rewrite IH by (unfold in_range; lia). apply pm_memcpy_other. unfold in_range. lia.
Qed.

Lemma append_vectors_at p dst v : bytes_at (pm_load (append_vectors p dst v)) dst (concat v).
Proof.
  revert p dst. induction v as [|x v IH]; intros p dst; [done|]. simpl.
  apply bytes_at_app. split; [|apply IH].
  eapply bytes_at_ext; [|apply (pm_memcpy_at p)]. intros i Hi.
  apply append_vectors_other. unfold in_range. lia.
Qed.

Lemma append_vectors_len p dst v : pm_len (append_vectors p dst v) = pm_len p.
Proof. revert p dst. induction v; intros; simpl; [done|]. by rewrite IHv, pm_memcpy_len. Qed.

Lemma append_vectors_flushed p dst v a :
  in_range a dst (Zlength (concat v)) \/ pm_flushed p a ->
  pm_flushed (append_vectors p dst v) a.
Proof.
  unfold in_range. revert p dst. induction v as [|x v IH]; intros p dst Ha.
  - cbn in *. destruct Ha; [unfold Zlength in *; simpl in *; lia|done].
  - cbn [append_vectors concat] in *. rewrite Zlength_app in Ha. apply IH.
    destruct Ha as [Ha|Ha]; [|right; by apply pm_memcpy_flushed_mono].
    destruct (decide (dst <= a < dst + Zlength x)).
    + right. by apply pm_memcpy_flushed.
    + left. lia.
Qed.

Lemma append_vectors_durable p dst v a :
  ~ in_range a dst (Zlength (concat v)) -> pm_durable p a ->
  pm_durable (append_vectors p dst v) a.
Proof.
  unfold in_range. revert p dst. induction v as [|x v IH]; intros p dst Ha Hd; [done|].
  cbn [append_vectors concat] in *. rewrite Zlength_app in Ha.
  pose proof (Zlength_nonneg x). pose proof (Zlength_nonneg (concat v)).
  apply IH; [lia|]. apply pm_memcpy_durable; [unfold in_range; lia|done].
Qed.

Lemma append_size_fold (v : list (list Z)) s :
  0 <= s -> s + Zlength (concat v) < 2 ^ 64 ->
  fold_left (fun s x => u64 (s + Zlength x)) v s = s + Zlength (concat v).
Proof.
  revert s. induction v as [|x v IH]; intros s Hs Hb.
  - unfold Zlength. simpl. lia.
  - cbn [fold_left concat] in *. rewrite Zlength_app in *.
    pose proof (Zlength_nonneg x). pose proof (Zlength_nonneg (concat v)).
    rewrite u64_small by lia. rewrite IH by lia. lia.
Qed.

Lemma append_entry_size_spec (v : list (list Z)) c :
  16 + Zlength (concat v) + 64 < 2 ^ 64 ->
  append_entry_size v = esize (Entry c (concat v)).
Proof.
  intros Hb. pose proof (Zlength_nonneg (concat v)).
  unfold append_entry_size. rewrite append_size_fold by lia.
  unfold esize, align_up. cbn [e_body]. change (2 * 8) with 16.
  destruct (negb _); [|done]. apply u64_small. unfold CACHE_LINE_WIDTH. dlia.
Qed.

Lemma get_set_field p f v : is_u64 v -> get_field (set_field p f v) f = v.
Proof. intros. by apply pm_store_load64. Qed.

Lemma get_set_field_ne p f g v : g + 8 <= f \/ f + 8 <= g ->
  get_field (set_field p f v) g = get_field p g.
Proof. intros. apply pm_store_rd64_other. rewrite Zlength_le_bytes. lia. Qed.

Lemma get_field_ext p p' f :
  (forall a, f <= a < f + 8 -> pm_load p' a = pm_load p a) ->
  get_field p' f = get_field p f.
Proof. apply rd64_ext. Qed.

(** The image an append leaves behind. *)
Definition appended (p : P) (offset entry_size : Z) (v : list (list Z)) : P :=
  let log := set_field p off_tail (offset + entry_size) in
  let log := pm_memcpy_nodrain log (offset + 8) (le_bytes 8 REDO_LOG_MAGIC) in
  let log := append_vectors log (offset + 8 + 8) v in
  pm_persist (pm_drain log) off_tail 8.

Lemma appended_load_other p off sz v a :
  sizeof_RedoLog <= off ->
  ~ in_range a off_tail 8 -> ~ in_range a (off + 8) (8 + Zlength (concat v)) ->
  pm_load (appended p off sz v) a = pm_load p a.
Proof.
  intros Hoff Ht Hb. unfold appended. pose proof (Zlength_nonneg (concat v)).
  unfold in_range, off_tail, sizeof_RedoLog in *.
  rewrite pm_persist_load, pm_drain_load, append_vectors_other by (unfold in_range; lia).
  rewrite pm_memcpy_other by (unfold in_range; rewrite Zlength_le_bytes; lia).
  apply pm_store_other. unfold in_range. rewrite Zlength_le_bytes. lia.
Qed.

Lemma appended_tail p off sz v :
  sizeof_RedoLog <= off -> is_u64 (off + sz) ->
  get_field (appended p off sz v) off_tail = off + sz.
Proof.
  intros Hoff Hsz. unfold appended, get_field, sizeof_RedoLog, off_tail in *.
  rewrite pm_persist_rd64, pm_drain_rd64.
  rewrite (rd64_ext (pm_load (set_field p 40 (off + sz)))).
  - by apply get_set_field.
  - intros i Hi. rewrite append_vectors_other by (unfold in_range; lia).
    apply pm_memcpy_other. unfold in_range. lia.
Qed.

Lemma appended_magic p off sz v :
  bytes_at (pm_load (appended p off sz v)) (off + 8) (le_bytes 8 REDO_LOG_MAGIC).
Proof.
  unfold appended. eapply bytes_at_ext; [|apply pm_memcpy_at].
  rewrite Zlength_le_bytes. intros i Hi. rewrite pm_persist_load, pm_drain_load.
  apply append_vectors_other. unfold in_range. lia.
Qed.

Lemma appended_body p off sz v :
  bytes_at (pm_load (appended p off sz v)) (off + 16) (concat v).
Proof.
  unfold appended. eapply bytes_at_ext; [|apply append_vectors_at].
  replace (off + 8 + 8) with (off + 16) by lia. intros i Hi.
  by rewrite pm_persist_load, pm_drain_load.
Qed.

Lemma appended_len p off sz v : pm_len (appended p off sz v) = pm_len p.
Proof.
  unfold appended, set_field.
  by rewrite pm_persist_len, pm_drain_len, append_vectors_len, pm_memcpy_len, pm_store_len.
Qed.

Lemma appended_durable p off sz v :
  sizeof_RedoLog <= off -> log_durable p -> log_durable (appended p off sz v).
Proof.
  intros Hoff Hd a Ha. unfold appended, log_durable, off_last_commit, sizeof_RedoLog in *.
  destruct (decide (40 <= a < 48)); [by apply pm_persist_range|]. apply pm_persist_durable.
  destruct (decide (off + 8 <= a < off + 16 + Zlength (concat v))).
  - apply pm_drain_flushed, append_vectors_flushed. unfold in_range.
    destruct (decide (a < off + 16)).
    + right. apply pm_memcpy_flushed. unfold in_range. rewrite Zlength_le_bytes. lia.
    + left. lia.
  - pose proof (Zlength_nonneg (concat v)).
    apply pm_drain_durable, append_vectors_durable; [unfold in_range; lia|].
    apply pm_memcpy_durable; [unfold in_range; rewrite Zlength_le_bytes; lia|].
    apply pm_store_durable; [unfold in_range, off_tail; rewrite Zlength_le_bytes; lia|]. by apply Hd.
Qed.

Lemma append_unfold p v es n :
  log_repr p es n -> v <> [] ->
  sizeof_RedoLog + total es + esize (Entry 0 (concat v)) <= pm_len p ->
  Savitar_log_append p v =
    Ok (appended p (sizeof_RedoLog + total es) (esize (Entry 0 (concat v))) v,
        sizeof_RedoLog + total es).
Proof.
  intros Hr Hv Hfit. destruct Hr as [[_ Hlen] Hsize Hhead Htail Hfits _ _ _ _].
  pose proof (total_nonneg es). pose proof (esize_spec (Entry 0 (concat v))) as [_ Hsz].
  cbn [e_body] in Hsz. pose proof (Zlength_nonneg (concat v)).
  unfold Savitar_log_append, sizeof_RedoLog in *.
  destruct v as [|x v']; [done|]. rewrite Zlength_cons.
  pose proof (Zlength_nonneg v'). rewrite (proj2 (Z.ltb_lt 0 (1 + Zlength v'))) by lia.
  rewrite Htail, (append_entry_size_spec _ 0) by lia. rewrite u64_small by lia.
  rewrite get_set_field_ne by (unfold off_size, off_tail; lia). rewrite Hsize.
  rewrite (proj2 (Z.leb_le _ _)) by lia. done.
Qed.

Lemma append_repr p v es n :
  log_repr p es n -> v <> [] ->
  sizeof_RedoLog + total es + esize (Entry 0 (concat v)) <= pm_len p ->
  log_repr (appended p (sizeof_RedoLog + total es) (esize (Entry 0 (concat v))) v)
           (es ++ [Entry 0 (concat v)]) n.
Proof.
  intros Hr Hv Hfit. destruct Hr as [Hlen Hsize Hhead Htail Hfits Hcommits Hcount Hent Hblank].
  pose proof (total_nonneg es). pose proof (esize_spec (Entry 0 (concat v))) as [_ Hsz].
  cbn [e_body] in Hsz. pose proof (Zlength_nonneg (concat v)).
  assert (Htot : total (es ++ [Entry 0 (concat v)]) = total es + esize (Entry 0 (concat v)))
    by (rewrite total_app; simpl; lia).
  unfold is_u64 in *.
  assert (Hfld : forall f, f = off_size \/ f = off_head \/ f = off_last_commit ->
    get_field (appended p (sizeof_RedoLog + total es) (esize (Entry 0 (concat v))) v) f
    = get_field p f).
  { intros f Hf. apply get_field_ext. intros a Ha.
    unfold off_size, off_head, off_last_commit, sizeof_RedoLog in *.
    apply appended_load_other; unfold in_range, sizeof_RedoLog, off_tail; lia. }
  unfold sizeof_RedoLog in *.
  split; rewrite ?appended_len, ?Htot; try rewrite Hfld by tauto; unfold sizeof_RedoLog, is_u64; try lia.
  - rewrite appended_tail by (unfold sizeof_RedoLog, is_u64; lia). lia.
  - apply entries_at_app. cbn [entries_at e_commit e_body]. split; [|split; [|split; [|split; [|done]]]].
    + eapply entries_at_ext; [|exact Hent]. intros a Ha.
      apply appended_load_other; unfold in_range, sizeof_RedoLog, off_tail; lia.
    + assert (bytes_at (pm_load p) (64 + total es) (le_bytes 8 0)).
      { cbn [le_bytes bytes_at]. repeat split; apply Hblank; lia. }
      eapply bytes_at_ext; [|eassumption]. rewrite Zlength_le_bytes. intros a Ha.
      apply appended_load_other; unfold in_range, sizeof_RedoLog, off_tail; lia.
    + apply appended_magic.
    + apply appended_body.
  - intros a Ha. rewrite appended_load_other; unfold in_range, sizeof_RedoLog, off_tail; try lia.
    apply Hblank. lia.
Qed.

Lemma commit_unfold p off n :
  get_field p off_last_commit = n -> 0 <= n -> n + 1 < UINT64_MAX ->
  Savitar_log_commit p off =
    Ok (pm_persist (pm_store (set_field p off_last_commit (n + 1)) off (le_bytes 8 (n + 1))) off 8).
Proof.
  intros Hn Hpos Hb. unfold Savitar_log_commit, log_commit_store. rewrite Hn.
  unfold UINT64_MAX in *.
  rewrite u64_small by lia. rewrite (proj2 (Z.ltb_lt _ _)) by lia. done.
Qed.

Lemma commit_repr p es n i b :
  log_repr p es n -> es !! i = Some (Entry 0 b) -> n + 1 < UINT64_MAX ->
  log_repr (pm_store (set_field p off_last_commit (n + 1)) (entry_off es i) (le_bytes 8 (n + 1)))
           (<[i := Entry (n + 1) b]> es) (n + 1).
Proof.
  intros Hr Hi Hb. destruct Hr as [Hlen Hsize Hhead Htail Hfits Hcommits Hcount Hent Hblank].
  pose proof (entry_off_bounds _ _ _ Hi) as (Hlo & Hhi & _). pose proof (esize_ge (Entry 0 b)).
  assert (Hn : is_u64 (n + 1)) by (unfold is_u64, UINT64_MAX in *; lia).
  unfold sizeof_RedoLog in *.
  assert (Hother : forall a, ~ in_range a (entry_off es i) 8 -> ~ in_range a off_last_commit 8 ->
    pm_load (pm_store (set_field p off_last_commit (n + 1)) (entry_off es i) (le_bytes 8 (n + 1))) a
    = pm_load p a).
  { intros a Ho1 Ho2. rewrite pm_store_other by (by rewrite Zlength_le_bytes).
    apply pm_store_other. by rewrite Zlength_le_bytes. }
  unfold in_range, off_last_commit in Hother.
  assert (Hfld : forall f, f = off_size \/ f = off_head \/ f = off_tail ->
    get_field (pm_store (set_field p off_last_commit (n + 1)) (entry_off es i) (le_bytes 8 (n + 1))) f
    = get_field p f).
  { intros f Hf. apply get_field_ext. intros a Ha. unfold off_size, off_head, off_tail in *.
    apply Hother; lia. }
  split; rewrite ?(total_insert _ _ _ _ b Hi) by done; try rewrite Hfld by tauto;
    unfold set_field; rewrite ?pm_store_len; try done.
  - unfold get_field. rewrite pm_store_rd64_other by (unfold off_last_commit; lia).
    by apply pm_store_load64.
  - apply (entries_at_commit (pm_load p) _ _ _ 0); try done.
    + apply pm_store_at.
    + unfold in_range, sizeof_RedoLog. intros a Ha Hn'. apply Hother; lia.
  - intros a Ha. unfold sizeof_RedoLog in *. rewrite Hother by lia. apply Hblank. lia.
Qed.

Lemma log_repr_ext p p' es n :
  pm_len p' = pm_len p -> (forall a, pm_load p' a = pm_load p a) ->
  log_repr p es n -> log_repr p' es n.
Proof.
  intros Hl Hload [? ? ? ? ? ? ? Hent Hblank].
  assert (Hf : forall f, get_field p' f = get_field p f)
    by (intros; apply get_field_ext; intros; apply Hload).
  split; rewrite ?Hl, ?Hf; try done.
  - eapply entries_at_ext; [|exact Hent]. intros; apply Hload.
  - intros. rewrite Hload. by apply Hblank.
Qed.

Lemma commit_durable p es n i b :
  log_repr p es n -> es !! i = Some (Entry 0 b) -> log_durable p ->
  log_durable (pm_persist (pm_store (set_field p off_last_commit (n + 1))
                 (entry_off es i) (le_bytes 8 (n + 1))) (entry_off es i) 8).
Proof.
  intros Hr Hi Hd a Ha. pose proof (entry_off_bounds _ _ _ Hi) as (Hlo & _ & _).
  unfold sizeof_RedoLog, off_last_commit in *.
  destruct (decide (entry_off es i <= a < entry_off es i + 8)); [by apply pm_persist_range|].
  apply pm_persist_durable.
  apply pm_store_durable; [unfold in_range; rewrite Zlength_le_bytes; lia|].
  apply pm_store_durable; [unfold in_range; rewrite Zlength_le_bytes; lia|]. by apply Hd.
Qed.

End NvLog_proofs.

(** ** Creation, opening, histories and crashes *)

Section NvLog_theorems.
Context {P : Type} `{PmemLaws P} `{Uuid}.
Implicit Types (p : P) (es : list entry) (files : gmap string P).

Lemma lxor_u64 a b : is_u64 a -> is_u64 b -> is_u64 (Z.lxor a b).
Proof.
  unfold is_u64. intros Ha Hb. split; [apply Z.lxor_nonneg; lia|].
  destruct (Z.eq_dec (Z.lxor a b) 0) as [->|]; [lia|].
  assert (0 <= Z.lxor a b) by (apply Z.lxor_nonneg; lia).
  apply Z.log2_lt_pow2; [lia|].
  eapply Z.le_lt_trans; [apply Z.log2_lxor; lia|].
  apply Z.max_lub_lt; (destruct (decide (a = 0)) as [->|], (decide (b = 0)) as [->|];
    try (simpl; lia); apply Z.log2_lt_pow2; lia).
Qed.

Lemma rd64_bytes_u64 rd a bs :
  bytes_at rd a bs -> length bs = 8%nat -> Forall is_byte bs -> is_u64 (rd64 rd a).
Proof.
  intros Hat Hl Hb. apply bytes_at_rd in Hat. rewrite Hl in Hat. unfold rd64. rewrite Hat.
  apply le_value_range in Hb. unfold Zlength in Hb. rewrite Hl in Hb. done.
Qed.

(** The header of a new log before its checksum is written. *)
Section LogInit.
Context (id : list Z) (size : Z) (p : P).
Hypothesis Hid : length id = 16%nat.
Hypothesis Hbytes : Forall is_byte id.
Hypothesis Hsize : is_u64 size.

Definition log_header : P :=
  set_field (set_field
    (set_field (set_field (pm_store (set_field p off_size size) off_object_id id)
      off_tail sizeof_RedoLog) off_head sizeof_RedoLog) off_last_commit 0) off_snapshot_lock 0.

Lemma log_header_size : get_field log_header off_size = size.
Proof.
  assert (Hl : Zlength id = 16) by (unfold Zlength; lia). unfold log_header.
  rewrite !get_set_field_ne by (unfold off_size, off_snapshot_lock, off_last_commit, off_head, off_tail; lia).
  unfold get_field. rewrite pm_store_rd64_other by (unfold off_size, off_object_id; lia). by apply get_set_field.
Qed.

Lemma log_header_id : bytes_at (pm_load log_header) 8 (take 8 id) /\ bytes_at (pm_load log_header) 16 (drop 8 id).
Proof.
  assert (Hid8 : bytes_at (pm_load log_header) 8 id).
  { eapply bytes_at_ext; [|apply (pm_store_at (set_field p off_size size) off_object_id)].
    assert (Hl : Zlength id = 16) by (unfold Zlength; lia).
    intros i Hi. unfold log_header, set_field, off_object_id, off_snapshot_lock, off_last_commit, off_head, off_tail in *.
    rewrite !pm_store_other by (unfold in_range; rewrite ?Zlength_le_bytes; lia). done. }
  rewrite <- (take_drop 8 id) in Hid8. apply bytes_at_app in Hid8 as [Hid1 Hid2]. split; [done|].
  by replace (8 + Zlength (take 8 id)) with 16 in Hid2 by (unfold Zlength; rewrite length_take; lia).
Qed.

Lemma log_header_checksum : is_u64 (CHECKSUM log_header).
Proof.
  destruct log_header_id as [Hid1 Hid2]. unfold CHECKSUM. change 24 with off_size. rewrite log_header_size.
  apply lxor_u64; [apply lxor_u64|done].
  - eapply rd64_bytes_u64; [exact Hid1|rewrite length_take; lia|by apply Forall_take].
  - eapply rd64_bytes_u64; [exact Hid2|rewrite length_drop; lia|by apply Forall_drop].
Qed.

Lemma log_init_header f :
  f + 8 <= off_checksum \/ off_checksum + 8 <= f ->
  get_field (log_init id size p) f = get_field log_header f.
Proof.
  intros Hf. unfold log_init. rewrite get_set_field by done. fold log_header.
  unfold get_field at 1. rewrite pm_persist_rd64. by apply get_set_field_ne.
Qed.

Lemma log_init_fields :
  pm_len p = size ->
  get_field (log_init id size p) off_size = size /\
  get_field (log_init id size p) off_head = sizeof_RedoLog /\
  get_field (log_init id size p) off_tail = sizeof_RedoLog /\
  get_field (log_init id size p) off_last_commit = 0 /\
  get_field (log_init id size p) off_checksum = CHECKSUM (log_init id size p) /\
  pm_len (log_init id size p) = size.
Proof.
  intros Hlen. assert (Hk : is_u64 sizeof_RedoLog) by (unfold is_u64, sizeof_RedoLog; lia).
  assert (Hcs : CHECKSUM (log_init id size p) = CHECKSUM log_header).
  { unfold CHECKSUM. rewrite !log_init_header by (unfold off_checksum; lia). done. }
  rewrite Hcs, !log_init_header by (unfold off_size, off_head, off_tail, off_last_commit, off_checksum; lia).
  split; [apply log_header_size|].
  do 3 (split; [unfold log_header;
    rewrite ?get_set_field_ne by (unfold off_head, off_tail, off_last_commit, off_snapshot_lock; lia);
    apply get_set_field; (done || unfold is_u64; lia)|]). split.
  - unfold log_init. rewrite get_set_field by done. fold log_header. unfold get_field at 1. rewrite pm_persist_rd64.
    apply get_set_field, log_header_checksum.
  - unfold log_init, set_field. by rewrite pm_persist_len, !pm_store_len.
Qed.

End LogInit.

Lemma log_init_blank id size p a :
  length id = 16%nat -> sizeof_RedoLog <= a -> pm_load (log_init id size p) a = pm_load p a.
Proof.
  intros Hid Ha. assert (Zlength id = 16) by (unfold Zlength; lia).
  unfold log_init, set_field, off_size, off_object_id, off_tail, off_head, off_last_commit,
    off_snapshot_lock, off_checksum, sizeof_RedoLog in *. rewrite pm_persist_load.
  rewrite !pm_store_other by (unfold in_range; rewrite ?Zlength_le_bytes; lia). done.
Qed.

Lemma log_init_id id size p :
  length id = 16%nat -> bytes_at (pm_load (log_init id size p)) off_object_id id.
Proof.
  intros Hid. assert (Hl : Zlength id = 16) by (unfold Zlength; lia).
  eapply bytes_at_ext; [|apply (pm_store_at (set_field p off_size size) off_object_id)].
  intros i Hi. unfold log_init, set_field, off_object_id, off_snapshot_lock, off_last_commit, off_head,
    off_tail, off_checksum in *. rewrite pm_persist_load.
  rewrite !pm_store_other by (unfold in_range; rewrite ?Zlength_le_bytes; lia). done.
Qed.

Lemma log_init_durable id size p :
  length id = 16%nat -> (forall a, pm_durable p a) -> log_durable (log_init id size p).
Proof.
  intros Hid Hd a _. assert (Zlength id = 16) by (unfold Zlength; lia).
  unfold log_init, set_field, off_size, off_object_id, off_tail, off_head, off_last_commit,
    off_snapshot_lock, off_checksum, sizeof_RedoLog in *.
  destruct (decide (0 <= a < 64)); [by apply pm_persist_range|]. apply pm_persist_durable.
  repeat (apply pm_store_durable; [unfold in_range; rewrite ?Zlength_le_bytes; lia|]). apply Hd.
Qed.

Lemma log_init_repr id size :
  length id = 16%nat -> Forall is_byte id -> is_u64 size -> sizeof_RedoLog <= size ->
  log_repr (log_init id size (pm_fresh size)) [] 0.
Proof.
  intros Hid Hb Hs Hge.
  destruct (log_init_fields id size (pm_fresh size) Hid Hb Hs (pm_fresh_len size))
    as (F1 & F2 & F3 & F4 & _ & F6).
  split; rewrite ?F6; try done; simpl; try lia.
  - intros a Ha. rewrite log_init_blank by (done || lia). apply pm_fresh_load.
Qed.

Lemma run_op_refines p es n op es' n' :
  log_repr p es n -> log_durable p -> spec_op (pm_len p) (es, n) op (es', n') ->
  exists p', run_op p op = Ok p' /\ log_repr p' es' n' /\ log_durable p' /\ pm_len p' = pm_len p.
Proof.
  intros Hr Hd Hs. inversion Hs; subst; simpl.
  - rewrite (append_unfold p v es n') by done. simpl. eexists. split; [done|].
    split; [by apply append_repr|]. split; [|apply appended_len].
    apply appended_durable; [|done]. pose proof (total_nonneg es). lia.
  - pose proof (lr_count _ _ _ Hr) as [Hn _].
    rewrite (commit_unfold p _ n) by (by destruct Hr). eexists. split; [done|]. split; [|split].
    + eapply log_repr_ext; [apply pm_persist_len| |by apply commit_repr].
      intros; apply pm_persist_load.
    + by eapply commit_durable.
    + unfold set_field. by rewrite pm_persist_len, !pm_store_len.
Qed.

(** Commit numbers of an abstract log: every committed entry has its own
    number and the numbers are exactly [1..n]. *)
Definition commit_ids es : list Z := filter (fun c => c <> 0) (e_commit <$> es).

Lemma commit_ids_append es e : e_commit e = 0 -> commit_ids (es ++ [e]) = commit_ids es.
Proof.
  intros E. unfold commit_ids. rewrite fmap_app, filter_app.
  change (e_commit <$> [e]) with [e_commit e].
  rewrite E, filter_cons_False by (intros []; done). by rewrite filter_nil, app_nil_r.
Qed.

Lemma commit_ids_commit es i b c :
  c <> 0 -> es !! i = Some (Entry 0 b) ->
  commit_ids (<[i := Entry c b]> es) ≡ₚ c :: commit_ids es.
Proof.
  intros Hc Hi. unfold commit_ids.
  assert (i < length es)%nat by (by eapply lookup_lt_Some).
  rewrite insert_take_drop by done. rewrite <- (take_drop_middle es i _ Hi) at 3.
  rewrite !fmap_app, !filter_app, !fmap_cons. cbn [e_commit].
  rewrite filter_cons_True by done. rewrite filter_cons_False by (intros []; done).
  by rewrite Permutation_middle.
Qed.

Lemma spec_op_commit_ids len es n op es' n' :
  0 <= n -> spec_op len (es, n) op (es', n') ->
  commit_ids es ≡ₚ seqZ 1 n -> commit_ids es' ≡ₚ seqZ 1 n' /\ 0 <= n'.
Proof.
  intros Hn Hs Hp. inversion Hs; subst.
  - by rewrite commit_ids_append.
  - split; [|lia]. rewrite commit_ids_commit by (done || lia). rewrite Hp.
    rewrite seqZ_app by lia. rewrite (Z.add_comm 1 n). cbn.
    rewrite Permutation_app_comm. done.
Qed.

Lemma spec_ops_commit_ids len s ops s' :
  spec_ops len s ops s' ->
  0 <= s.2 -> commit_ids s.1 ≡ₚ seqZ 1 s.2 ->
  commit_ids s'.1 ≡ₚ seqZ 1 s'.2 /\ 0 <= s'.2.
Proof.
  induction 1 as [|[es1 n1] op [es2 n2] ops s3 Hop _ IH]; intros Hn Hp; [done|].
  eapply spec_op_commit_ids in Hop as [? ?]; [|done|done]. by apply IH.
Qed.

Lemma run_ops_refines p es n ops es' n' :
  log_repr p es n -> log_durable p ->
  spec_ops (pm_len p) (es, n) ops (es', n') ->
  exists p', run_ops p ops = Ok p' /\ log_repr p' es' n' /\ log_durable p' /\ pm_len p' = pm_len p.
Proof.
  assert (Hind : forall len s ops s', spec_ops len s ops s' ->
    forall p, pm_len p = len -> log_repr p s.1 s.2 -> log_durable p ->
    exists p', run_ops p ops = Ok p' /\ log_repr p' s'.1 s'.2 /\ log_durable p' /\ pm_len p' = pm_len p).
  { induction 1 as [|[es1 n1] op [es2 n2] ops' s3 Hop _ IH]; intros q Hl Hr Hd; simpl in *; [eauto|].
    subst len. destruct (run_op_refines _ _ _ _ _ _ Hr Hd Hop) as (p1 & -> & Hr1 & Hd1 & Hl1).
    simpl. rewrite <- Hl1. by apply IH. }
  intros Hr Hd Hs. by apply (Hind _ _ _ _ Hs).
Qed.

(** [C1] Refinement of histories: every history of appends and commits that
    the abstract log allows is executed by the code without failing, and the
    file then represents the abstract result, with all its entries durable. *)
Theorem log_history_refines p es n ops es' n' :
  log_repr p es n -> log_durable p ->
  spec_ops (pm_len p) (es, n) ops (es', n') ->
  exists p', run_ops p ops = Ok p' /\ log_repr p' es' n' /\ log_durable p' /\ pm_len p' = pm_len p.
Proof. apply run_ops_refines. Qed.

(** [C2] A fresh log created for an object is empty, durable, passes the
    checks of [Savitar_log_open], and a second creation is refused. *)
Theorem log_create_open files id size path :
  length id = 16%nat -> Forall is_byte id -> is_u64 size -> sizeof_RedoLog <= size ->
  Savitar_log_path id = Ok path -> files !! path = None ->
  exists files' p,
    Savitar_log_create files id size = Ok (files', Some path) /\
    files' !! path = Some p /\ log_repr p [] 0 /\ log_durable p /\
    (exists files'', Savitar_log_open files' id = Ok (files'', Some path)) /\
    Savitar_log_create files' id size = Ok (files', None).
Proof.
  intros Hid Hb Hs Hge Hpath Hnone.
  exists (<[path := log_init id size (pm_fresh size)]> files), (log_init id size (pm_fresh size)).
  unfold Savitar_log_create, Savitar_log_open. rewrite Hpath. cbn [res_bind].
  rewrite Hnone, pm_fresh_len, Z.eqb_refl.
  change (sizeof_RedoLog =? CACHE_LINE_WIDTH) with true. cbn match.
  rewrite lookup_insert_eq.
  destruct (log_init_fields id size (pm_fresh size) Hid Hb Hs (pm_fresh_len size))
    as (F1 & F2 & F3 & F4 & F5 & F6).
  split; [done|]. split; [done|]. split; [by apply log_init_repr|].
  split; [apply log_init_durable; [done|apply pm_fresh_durable]|]. split; [|done].
  rewrite F1, F6, Z.eqb_refl, F5, Z.eqb_refl. eauto.
Qed.

Lemma log_crash_facts p es n p' :
  log_repr p es n -> log_durable p -> pm_crash p p' ->
  pm_len p' = pm_len p /\
  get_field p' off_size = pm_len p' /\ get_field p' off_head = sizeof_RedoLog /\
  get_field p' off_tail = sizeof_RedoLog + total es /\
  entries_at (pm_load p') sizeof_RedoLog es /\
  (forall a, sizeof_RedoLog + total es <= a -> pm_load p' a = 0).
Proof.
  intros [Hlen Hsize Hhead Htail Hfits _ _ Hent Hblank] Hd Hc.
  assert (Hload : forall a, a < off_last_commit \/ sizeof_RedoLog <= a -> pm_load p' a = pm_load p a)
    by (intros; eapply pm_crash_durable; eauto).
  rewrite (pm_crash_len _ _ Hc). pose proof (total_nonneg es).
  unfold off_last_commit, sizeof_RedoLog in *.
  assert (Hf : forall f, f + 8 <= 48 -> get_field p' f = get_field p f)
    by (intros; apply get_field_ext; intros; apply Hload; lia).
  split; [done|]. rewrite !Hf by (unfold off_size, off_head, off_tail; lia).
  repeat (split; [done|]). split.
  - eapply entries_at_ext; [|exact Hent]. intros; apply Hload; lia.
  - intros. rewrite Hload by lia. apply Hblank; lia.
Qed.

Lemma commit_crash_cases p es n i body p1 p' :
  log_repr p es n -> log_durable p -> es !! i = Some (Entry 0 body) -> n + 1 < UINT64_MAX ->
  log_commit_store p (entry_off es i) = Ok p1 -> pm_crash p1 p' ->
  entries_at (pm_load p') sizeof_RedoLog es \/
  entries_at (pm_load p') sizeof_RedoLog (<[i := Entry (n + 1) body]> es).
Proof.
  intros Hr Hd Hi Hn Hst Hc. pose proof (entry_off_bounds _ _ _ Hi) as (Hlo & Hhi & Hal).
  pose proof (esize_ge (Entry 0 body)).
  unfold log_commit_store in Hst. rewrite (lr_commits _ _ _ Hr) in Hst.
  pose proof (lr_count _ _ _ Hr) as [Hn0 _].
  rewrite u64_small in Hst by (unfold UINT64_MAX in *; lia).
  rewrite (proj2 (Z.ltb_lt _ _)) in Hst by done.
  assert (p1 = pm_store (set_field p off_last_commit (n + 1)) (entry_off es i) (le_bytes 8 (n + 1)))
    as -> by congruence. clear Hst.
  set (q := set_field p off_last_commit (n + 1)) in *.
  unfold sizeof_RedoLog, off_last_commit in *.
  assert (Hq : forall a, ~ in_range a 48 8 -> pm_load q a = pm_load p a).
  { intros a Ha. unfold q, set_field. apply pm_store_other. by rewrite Zlength_le_bytes. }
  assert (Hqd : forall a, a < 48 \/ 64 <= a -> pm_durable q a).
  { intros a Ha. apply pm_store_durable; [unfold in_range, off_last_commit; rewrite Zlength_le_bytes; lia|].
    by apply Hd. }
  assert (Hkeep : forall a, 64 <= a -> ~ in_range a (entry_off es i) 8 -> pm_load p' a = pm_load p a).
  { intros a Ha Hna. rewrite (pm_crash_durable _ _ _ Hc).
    - rewrite (pm_store_other q) by (by rewrite Zlength_le_bytes). apply Hq. unfold in_range. lia.
    - apply pm_store_durable; [by rewrite Zlength_le_bytes|]. apply Hqd. lia. }
  assert (Hdur : forall a, in_range a (entry_off es i) 8 -> pm_durable q a)
    by (unfold in_range; intros; apply Hqd; lia).
  assert (Hent := lr_entries _ _ _ Hr).
  destruct (pm_crash_word q p' (entry_off es i) (le_bytes 8 (n + 1))) as [Hw|Hw]; try done; [dlia| |].
  - right. eapply (entries_at_commit (pm_load p) (pm_load p') es i 0); try done.
    unfold sizeof_RedoLog. intros. apply Hkeep; [lia|done].
  - left. eapply entries_at_ext; [|exact Hent]. unfold sizeof_RedoLog. intros a Ha.
    destruct (decide (entry_off es i <= a < entry_off es i + 8)).
    + rewrite Hw by done. apply Hq. unfold in_range. lia.
    + apply Hkeep; [lia|done].
Qed.

(** The images [p2] in which the power can fail after a history that left the
    log [p1]: between two operations, or inside a commit whose number is
    stored but not yet persisted; and the entries that may then be found. *)
Inductive stopped (p1 : P) (es : list entry) (n : Z) : P -> Prop :=
| stopped_idle : stopped p1 es n p1
| stopped_commit i body p2 :
    es !! i = Some (Entry 0 body) -> n + 1 < UINT64_MAX ->
    log_commit_store p1 (entry_off es i) = Ok p2 -> stopped p1 es n p2.

Inductive survives (p1 : P) (es : list entry) (n : Z) : P -> list entry -> Z -> Prop :=
| survives_same p2 : survives p1 es n p2 es n
| survives_commit i body p2 :
    es !! i = Some (Entry 0 body) -> log_commit_store p1 (entry_off es i) = Ok p2 ->
    survives p1 es n p2 (<[i := Entry (n + 1) body]> es) (n + 1).

Lemma survives_total p1 es n p2 es' n' : survives p1 es n p2 es' n' -> total es' = total es.
Proof. destruct 1; [done|]. by eapply total_insert. Qed.

Lemma commit_store_crash p es n i body p1 p' a :
  log_repr p es n -> log_durable p -> es !! i = Some (Entry 0 body) ->
  log_commit_store p (entry_off es i) = Ok p1 -> pm_crash p1 p' ->
  a < off_last_commit \/ sizeof_RedoLog <= a -> ~ in_range a (entry_off es i) 8 ->
  pm_len p' = pm_len p /\ pm_load p' a = pm_load p a.
Proof.
  intros Hr Hd Hi Hst Hc Ha Hna. unfold log_commit_store in Hst. destruct (_ <? _); [|done].
  set (c := u64 _) in Hst.
  assert (p1 = pm_store (pm_store p off_last_commit (le_bytes 8 c)) (entry_off es i) (le_bytes 8 c)) as ->
    by (unfold set_field in Hst; congruence). rewrite (pm_crash_len _ _ Hc), !pm_store_len.
  split; [done|]. unfold off_last_commit, sizeof_RedoLog in *. rewrite (pm_crash_durable _ _ _ Hc).
  - rewrite pm_store_other by (by rewrite Zlength_le_bytes).
    apply pm_store_other. unfold in_range. rewrite Zlength_le_bytes. lia.
  - apply pm_store_durable; [by rewrite Zlength_le_bytes|].
    apply pm_store_durable; [unfold in_range; rewrite Zlength_le_bytes; lia|]. by apply Hd.
Qed.

Lemma stopped_crash p es n p2 p' :
  log_repr p es n -> log_durable p -> stopped p es n p2 -> pm_crash p2 p' ->
  pm_len p' = pm_len p /\ (forall a, a < off_last_commit -> pm_load p' a = pm_load p a) /\
  (forall a, sizeof_RedoLog + total es <= a -> pm_load p' a = 0) /\
  exists es' n', survives p es n p2 es' n' /\ entries_at (pm_load p') sizeof_RedoLog es'.
Proof.
  intros Hr Hd [|i body p3 Hi Hn Hst] Hc.
  - destruct (log_crash_facts _ _ _ _ Hr Hd Hc) as (Hl & _ & _ & _ & He & Hb).
    split; [done|]. split; [intros a Ha; eapply pm_crash_durable; [done|]; apply Hd; by left|].
    split; [done|]. exists es, n. split; [constructor|done].
  - pose proof (commit_store_crash p es n i body p3 p') as Hk.
    pose proof (entry_off_bounds _ _ _ Hi) as (Hlo & Hhi & _). pose proof (esize_ge (Entry 0 body)).
    unfold off_last_commit, sizeof_RedoLog, in_range in *.
    split; [apply (Hk 0); try done; lia|]. split; [intros a Ha; apply (Hk a); try done; lia|].
    split; [intros a Ha; destruct (Hk a) as [_ ->]; try done; try lia; apply (lr_blank _ _ _ Hr); exact Ha|].
    destruct (commit_crash_cases p es n i body p3 p' Hr Hd Hi Hn Hst Hc) as [He|He].
    + exists es, n. split; [constructor|done].
    + exists (<[i := Entry (n + 1) body]> es), (n + 1). split; [by apply survives_commit|done].
Qed.

(** Appends and commits leave the identity of the log (checksum, object id,
    size and head) alone. *)
Lemma run_ops_identity p es n ops es' n' p1 a :
  log_repr p es n -> log_durable p -> spec_ops (pm_len p) (es, n) ops (es', n') ->
  run_ops p ops = Ok p1 -> a < off_tail -> pm_load p1 a = pm_load p a.
Proof.
  intros Hr Hd Hs Hrun Ha. revert p es n Hr Hd Hs Hrun.
  induction ops as [|op ops IH]; intros p es n Hr Hd Hs Hrun.
  - by injection Hrun as <-.
  - inversion Hs as [|? ? [es2 n2] ? ? Hop Hops]; subst.
    destruct (run_op_refines _ _ _ _ _ _ Hr Hd Hop) as (p2 & E2 & Hr2 & Hd2 & Hl2).
    cbn [run_ops] in Hrun. rewrite E2 in Hrun. cbn [res_bind] in Hrun.
    rewrite (IH p2 es2 n2); [|done|done|by rewrite Hl2|done]. clear IH Hrun Hr2 Hd2.
    pose proof (total_nonneg es). unfold off_tail, sizeof_RedoLog in *. inversion Hop; subst; cbn [run_op] in E2.
    + rewrite (append_unfold p v es n2) in E2 by done. injection E2 as <-.
      apply appended_load_other; unfold sizeof_RedoLog, in_range, off_tail; try lia.
    + pose proof (lr_count _ _ _ Hr) as [Hn _].
      rewrite (commit_unfold p _ n) in E2 by (by destruct Hr).
      match type of E2 with Ok ?x = _ => assert (p2 = x) as -> by congruence end.
      match goal with Hi : es !! i = Some _ |- _ => pose proof (entry_off_bounds _ _ _ Hi) as (Hlo & _ & _) end.
      unfold set_field, off_last_commit, sizeof_RedoLog in *.
      rewrite pm_persist_load, !pm_store_other by (unfold in_range; rewrite Zlength_le_bytes; lia). done.
Qed.

(** [C3] Durability.  Create a log, run a history of appends and commits that
    the abstract log allows, let the power fail between two operations or
    inside a commit, and open the file again, whatever the failure kept of
    the bytes that were not durable: the file passes the checks of
    [Savitar_log_open], still carries the object's identifier, its size, its
    head and its tail, holds all entries of the history with their commit
    numbers (with or without the number that was being written), and nothing
    after them.  ([last_commit] is not durable and not claimed.) *)
Theorem log_survives_crash files id size path ops es n files1 p p1 p2 p' :
  length id = 16%nat -> Forall is_byte id -> is_u64 size -> sizeof_RedoLog <= size ->
  Savitar_log_path id = Ok path ->
  Savitar_log_create files id size = Ok (files1, Some path) -> files1 !! path = Some p ->
  spec_ops size ([], 0) ops (es, n) -> run_ops p ops = Ok p1 ->
  stopped p1 es n p2 -> pm_crash p2 p' ->
  exists p3 es' n',
    Savitar_log_open (<[path := p']> files1) id = Ok (<[path := p3]> files1, Some path) /\
    survives p1 es n p2 es' n' /\
    bytes_at (pm_load p3) off_object_id id /\ pm_len p3 = size /\ get_field p3 off_size = size /\
    get_field p3 off_head = sizeof_RedoLog /\ get_field p3 off_tail = sizeof_RedoLog + total es' /\
    entries_at (pm_load p3) sizeof_RedoLog es' /\
    (forall a, sizeof_RedoLog + total es' <= a -> pm_load p3 a = 0).
Proof.
  intros Hid Hb Hsz Hge Hpath Hcreate Hp Hs Hrun Hstop Hc.
  assert (Ep : p = log_init id size (pm_fresh size)).
  { unfold Savitar_log_create in Hcreate. rewrite Hpath in Hcreate. cbn [res_bind] in Hcreate.
    destruct (files !! path); [done|]. destruct (_ =? _); [|done]. destruct (_ =? _); [|done].
    injection Hcreate as <-. rewrite lookup_insert_eq in Hp. by injection Hp. }
  pose proof (log_init_repr id size Hid Hb Hsz Hge) as Hr0. rewrite <- Ep in Hr0.
  assert (Hd0 : log_durable p) by (subst p; apply log_init_durable; [done|apply pm_fresh_durable]).
  destruct (log_init_fields id size (pm_fresh size) Hid Hb Hsz (pm_fresh_len size)) as (F1 & _ & _ & _ & F5 & F6).
  pose proof (log_init_id id size (pm_fresh size) Hid) as Fid. rewrite <- Ep in F1, F5, F6, Fid.
  rewrite <- F6 in Hs.
  destruct (run_ops_refines _ _ _ _ _ _ Hr0 Hd0 Hs) as (p1' & Hrun' & Hr1 & Hd1 & Hl1).
  rewrite Hrun in Hrun'. injection Hrun' as <-.
  pose proof (fun a => run_ops_identity p [] 0 ops es n p1 a Hr0 Hd0 Hs Hrun) as Hident.
  destruct (stopped_crash p1 es n p2 p' Hr1 Hd1 Hstop Hc) as (Hl & Hload & Hblank & es' & n' & Hsv & Hent).
  pose proof (survives_total _ _ _ _ _ _ Hsv) as Htot.
  assert (Hlow : forall a, a < off_tail -> pm_load p' a = pm_load p a).
  { intros a Ha. rewrite Hload by (unfold off_tail, off_last_commit in *; lia). by apply Hident. }
  assert (Hf : forall f, f + 8 <= off_tail -> get_field p' f = get_field p f)
    by (intros f Hf; apply get_field_ext; intros; apply Hlow; lia).
  assert (Hopen : forall a, ~ in_range a off_snapshot_lock 8 ->
    pm_load (set_field p' off_snapshot_lock 0) a = pm_load p' a)
    by (intros a Ha; apply pm_store_other; by rewrite Zlength_le_bytes).
  exists (set_field p' off_snapshot_lock 0), es', n'.
  unfold Savitar_log_open. rewrite Hpath. cbn [res_bind]. rewrite lookup_insert_eq.
  unfold CHECKSUM, off_tail, off_size, off_checksum in *. rewrite !Hf by lia.
  change (get_field p 24) with (get_field p off_size) at 1. unfold off_size. rewrite F1, Hl, Hl1, F6, Z.eqb_refl.
  rewrite F5. unfold CHECKSUM. rewrite F1, Z.eqb_refl. rewrite insert_insert_eq.
  split; [done|]. split; [done|]. unfold off_snapshot_lock, sizeof_RedoLog, in_range in *.
  assert (Hget : forall f, f + 8 <= 56 -> get_field (set_field p' 56 0) f = get_field p' f)
    by (intros; apply get_set_field_ne; lia).
  split; [|split; [|split; [|split; [|split; [|split]]]]].
  - eapply bytes_at_ext; [|exact Fid]. unfold Zlength. rewrite Hid. unfold off_object_id. intros a Ha.
    rewrite Hopen by lia. apply Hlow. lia.
  - unfold set_field. rewrite pm_store_len. lia.
  - rewrite Hget, Hf by lia. done.
  - unfold off_head. rewrite Hget, Hf by lia. apply (lr_head _ _ _ Hr0).
  - rewrite Hget, Htot by lia. etransitivity; [|apply (lr_tail _ _ _ Hr1)]. apply get_field_ext. unfold off_tail.
    intros a Ha. apply Hload. unfold off_last_commit. lia.
  - eapply entries_at_ext; [|exact Hent]. intros a Ha. apply Hopen. unfold sizeof_RedoLog in Ha. lia.
  - intros a Ha. pose proof (total_nonneg es). rewrite Htot in Ha. rewrite Hopen by lia. by apply Hblank.
Qed.

(** [C4] A commit is failure-atomic: a power failure between the store of the
    commit number and its persist leaves either the log without the commit
    or the log with it. *)
Theorem log_commit_atomic p es n i body p1 p' :
  log_repr p es n -> log_durable p -> es !! i = Some (Entry 0 body) -> n + 1 < UINT64_MAX ->
  log_commit_store p (entry_off es i) = Ok p1 -> pm_crash p1 p' ->
  entries_at (pm_load p') sizeof_RedoLog es \/
  entries_at (pm_load p') sizeof_RedoLog (<[i := Entry (n + 1) body]> es).
Proof. apply commit_crash_cases. Qed.

(** [C33] The capacity check of [Savitar_log_append] is exact: on a well-formed
    log, an append whose padded entry does not fit trips the assertion, and one
    that fits returns the old tail as the offset of the new entry. *)
Theorem log_append_capacity p es n v :
  log_repr p es n -> v <> [] ->
  sizeof_RedoLog + total es + esize (Entry 0 (concat v)) < 2 ^ 64 ->
  (exists p', Savitar_log_append p v = Ok (p', sizeof_RedoLog + total es)) <->
  sizeof_RedoLog + total es + esize (Entry 0 (concat v)) <= pm_len p.
Proof.
  intros Hr Hv Hb. split; [|intros; eexists; by eapply append_unfold].
  intros (p' & Ha). pose proof (esize_spec (Entry 0 (concat v))) as [_ Hsz].
  pose proof (total_nonneg es). unfold sizeof_RedoLog in *. cbn [e_body] in Hsz.
  unfold Savitar_log_append in Ha. res_inv Ha.
  rewrite (lr_tail _ _ _ Hr) in Ha. unfold sizeof_RedoLog in Ha.
  unfold append_entry_size in Ha.
  rewrite append_size_fold in Ha by (pose proof (Zlength_nonneg (concat v)); lia).
  change (2 * 8) with 16 in Ha.
  assert (Hes : esize (Entry 0 (concat v)) =
    if negb ((16 + Zlength (concat v)) mod CACHE_LINE_WIDTH =? 0)
    then u64 (16 + Zlength (concat v) + (CACHE_LINE_WIDTH - (16 + Zlength (concat v)) mod CACHE_LINE_WIDTH))
    else 16 + Zlength (concat v)).
  { assert (E := eq_refl (esize (Entry 0 (concat v)))).
    unfold esize at 2, align_up in E. cbn [e_body] in E. revert E.
    destruct (negb _); intros E; [|done]. rewrite u64_small; [done|].
    pose proof (Zlength_nonneg (concat v)). lia. }
  rewrite <- Hes in Ha.
  rewrite u64_small in Ha by (pose proof (Zlength_nonneg (concat v)); lia).
  rewrite get_set_field_ne in Ha by (unfold off_size, off_tail; lia).
  rewrite (lr_size _ _ _ Hr) in Ha. res_inv Ha. by apply Z.leb_le.
Qed.

End NvLog_theorems.

(** ** Concrete instances *)

(** Decides a closed inequality or equality by evaluation. *)
Ltac by_eval := first [ by vm_compute | apply Z.leb_le; by vm_compute | apply Z.ltb_lt; by vm_compute ].

Definition demo_id : list Z := [222; 173; 190; 239; 1; 2; 3; 4; 5; 6; 7; 8; 9; 10; 11; 12].
Definition demo_log : CacheMem.t := log_init demo_id 1024 (pm_fresh 1024).
Definition demo_ops : list log_op := [OpAppend [le_bytes 8 1; [104; 105; 0]]; OpCommit 64].
Definition demo_entries : list entry := [Entry 1 (le_bytes 8 1 ++ [104; 105; 0])].
Definition demo_log1 : CacheMem.t := res_get demo_log (run_ops demo_log demo_ops).

Lemma demo_id_bytes : Forall is_byte demo_id.
Proof. repeat constructor; by_eval. Defined.

Lemma demo_log_repr : log_repr demo_log [] 0.
Proof. apply log_init_repr; [done|apply demo_id_bytes|split; by_eval|by_eval]. Defined.

Lemma demo_log_durable : log_durable demo_log.
Proof. apply log_init_durable; [done|]. intros a. apply pm_fresh_durable. Defined.

Lemma demo_history : spec_ops (pm_len demo_log) ([], 0) demo_ops (demo_entries, 1).
Proof.
  eapply spec_cons.
  - apply (spec_append _ [] 0 [le_bytes 8 1; [104; 105; 0]]); [done|by_eval].
  - eapply spec_cons; [|apply spec_nil].
    apply (spec_commit _ [Entry 0 (le_bytes 8 1 ++ [104; 105; 0])] 0 0); [done|by_eval].
Defined.

Lemma demo_log1_facts : log_repr demo_log1 demo_entries 1 /\ log_durable demo_log1.
Proof.
  destruct (run_ops_refines _ _ _ _ _ _ demo_log_repr demo_log_durable demo_history)
    as (p & Hp & Hr & Hd & _).
  apply (res_get_Ok demo_log _ (fun q => log_repr q demo_entries 1 /\ log_durable q)).
  exact (ex_intro _ p (conj Hp (conj Hr Hd))).
Defined.

Lemma log_history_refines_witness :
  exists p', run_ops demo_log demo_ops = Ok p' /\ log_repr p' demo_entries 1 /\
    log_durable p' /\ pm_len p' = pm_len demo_log.
Proof.
  apply (log_history_refines demo_log [] 0 demo_ops demo_entries 1);
    [apply demo_log_repr|apply demo_log_durable|apply demo_history].
Defined.

Lemma log_create_open_witness :
  exists path (files' : gmap string CacheMem.t) p,
    Savitar_log_create ∅ demo_id 1024 = Ok (files', Some path) /\
    files' !! path = Some p /\ log_repr p [] 0 /\ log_durable p /\
    (exists files'', Savitar_log_open files' demo_id = Ok (files'', Some path)) /\
    Savitar_log_create files' demo_id 1024 = Ok (files', None).
Proof.
  eexists. apply (log_create_open (P := CacheMem.t) ∅ demo_id 1024);
    [done|apply demo_id_bytes|split; by_eval|by_eval|reflexivity|apply lookup_empty].
Defined.

Definition demo_appended : CacheMem.t := res_get demo_log (run_ops demo_log (take 1 demo_ops)).
Definition demo_pending : list entry := [Entry 0 (le_bytes 8 1 ++ [104; 105; 0])].
Definition demo_stored : CacheMem.t := res_get demo_log (log_commit_store demo_appended 64).

Lemma demo_append_history : spec_ops 1024 ([], 0) (take 1 demo_ops) (demo_pending, 0).
Proof.
  eapply spec_cons; [|apply spec_nil].
  apply (spec_append _ [] 0 [le_bytes 8 1; [104; 105; 0]]); [done|by_eval].
Defined.

Lemma demo_append_run : run_ops demo_log (take 1 demo_ops) = Ok demo_appended.
Proof. by vm_compute. Defined.

Lemma demo_appended_facts : log_repr demo_appended demo_pending 0 /\ log_durable demo_appended.
Proof.
  pose proof demo_append_history as Hs. change 1024 with (pm_len demo_log) in Hs.
  destruct (run_ops_refines _ _ _ _ _ _ demo_log_repr demo_log_durable Hs) as (p & Hp & Hr & Hd & _).
  apply (res_get_Ok demo_log _ (fun q => log_repr q demo_pending 0 /\ log_durable q)).
  exact (ex_intro _ p (conj Hp (conj Hr Hd))).
Defined.

Lemma log_survives_crash_witness :
  exists path p3 es' n',
    Savitar_log_open (<[path := CacheMem.lose_cache demo_stored]> {[path := demo_log]}) demo_id
      = Ok (<[path := p3]> {[path := demo_log]}, Some path) /\
    survives demo_appended demo_pending 0 demo_stored es' n' /\
    entries_at (pm_load p3) sizeof_RedoLog es'.
Proof.
  eexists. edestruct (log_survives_crash (P := CacheMem.t) ∅ demo_id 1024) as (p3 & es' & n' & Ho & Hsv & Hr);
    [done|apply demo_id_bytes|split; by_eval|by_eval|reflexivity|reflexivity|apply lookup_insert_eq
    |apply demo_append_history|apply demo_append_run| |apply CacheMem.lose_cache_crash|].
  - apply (stopped_commit _ _ _ 0 (le_bytes 8 1 ++ [104; 105; 0])); [reflexivity|by_eval|by vm_compute].
  - exists p3, es', n'. split; [exact Ho|]. split; [exact Hsv|apply Hr].
Defined.

Lemma log_commit_atomic_witness :
  entries_at (pm_load (CacheMem.lose_cache demo_stored)) sizeof_RedoLog demo_pending \/
  entries_at (pm_load (CacheMem.lose_cache demo_stored)) sizeof_RedoLog demo_entries.
Proof.
  destruct demo_appended_facts as [Hr Hd].
  apply (log_commit_atomic demo_appended demo_pending 0 0 (le_bytes 8 1 ++ [104; 105; 0]) demo_stored
           (CacheMem.lose_cache demo_stored));
    [exact Hr|exact Hd|reflexivity|by_eval|by vm_compute|apply CacheMem.lose_cache_crash].
Defined.

Lemma log_append_capacity_witness :
  (exists p', Savitar_log_append demo_log [[7; 8; 9]] = Ok (p', sizeof_RedoLog + total [])) <->
  sizeof_RedoLog + total [] + esize (Entry 0 [7; 8; 9]) <= pm_len demo_log.
Proof.
  apply (log_append_capacity demo_log [] 0 [[7; 8; 9]]);
    [apply demo_log_repr|done|by_eval].
Defined.
