(* ===== verification/Recover.v ===== *)
(** * Persistent objects and log replay (nv_object.hpp, nv_object.cpp,
    recovery_context.hpp)

    [PersistentClass] is the interface of the virtual methods [Log] and
    [Play] a persistent class implements; [Recover] replays a redo log
    through it, in commit order, using a priority queue for entries that
    appear in the log before entries with a smaller commit number. *)

From stdpp Require Import base numbers list gmap strings sorting.
From S2P Require Import Prelude Pmem Savitar NvLog.

(** ** Interface of persistent classes

    [obj_Log tag args] is the list of argument vectors that [Log] hands to
    [AppendLog] (each argument given by the bytes it points to);
    [obj_Play tag ptr dry rd len st] is [Play] on the arguments stored at
    [ptr] of a mapping of [len] bytes, with the bytes it processed. *)
Class PersistentClass (St : Type) := {
  obj_Log : Z -> list (list Z) -> res (list (list Z));
  obj_Play : Z -> Z -> bool -> (Z -> Z) -> Z -> St -> res (St * Z)
}.

(** ** RecoveryContext: parents of the calls replayed by each thread, and the
    log offsets from which a snapshot lets recovery start. *)
Module RecoveryContext.

Record t := Context {
  parentObjects : gmap Z Z;          (* thread id -> object *)
  logHeadOffsets : gmap string Z
}.

Definition init : t := Context ∅ ∅.

Definition pushParentObject (c : t) (thread parent : Z) : res t :=
  assert! bool_decide (parentObjects c !! thread = None) in
  Ok (Context (<[thread := parent]> (parentObjects c)) (logHeadOffsets c)).

Definition popParentObject (c : t) (thread : Z) : t * option Z :=
  match parentObjects c !! thread with
  | Some parent => (Context (delete thread (parentObjects c)) (logHeadOffsets c), Some parent)
  | None => (c, None)
  end.

(** [std::map::insert] keeps an existing binding. *)
Definition pushLogHeadOffset (c : t) (id : string) (head : Z) : t :=
  match logHeadOffsets c !! id with
  | Some _ => c
  | None => Context (parentObjects c) (<[id := head]> (logHeadOffsets c))
  end.

Definition queryLogHeadOffset (c : t) (id : string) : Z :=
  default 0 (logHeadOffsets c !! id).

End RecoveryContext.

(** ** CommitRecord and the commit queue *)

Record CommitRecord := MkCommitRecord {
  _ptr : Z;
  _commit_id : Z;
  _method_tag : Z
}.

(** [std::priority_queue<CommitRecord>] with the reversed [operator<]: the
    top is the record with the smallest commit id. *)
Fixpoint queue_push (r : CommitRecord) (q : list CommitRecord) : list CommitRecord :=
  match q with
  | [] => [r]
  | x :: q => if _commit_id r <? _commit_id x then r :: x :: q else x :: queue_push r q
  end.

(** The other recovery threads, as the thread of one object meets them in the
    loop that waits for a parent (nv_object.cpp:190-193).  While the loop
    spins, the parent's thread plays the outer call and with it the nested
    call on the waiting object; [await parent commit st] is the state of the
    waiting object when [parent->last_played_commit_id] has reached [commit],
    [AssertFail] when the parent stops recovering before, and [NoFuel] when
    the loop is never left.  (NestedRecovery models the threads together.) *)
Class NestedWait (St : Type) := await : string -> Z -> St -> res St.

(** What a replay does to the outside: it plays an operation, or it waits
    until the parent object has played a given commit. *)
Inductive event :=
| EvPlay (tag ptr : Z)
| EvWait (parent : string) (expected_commit_id : Z).

Section Recover.
Context {P : Type} `{PmemOps P} `{Uuid} {St : Type} `{PersistentClass St} `{NestedWait St}.

(** 8-byte load from a mapping. *)
Definition ld64 (log : P) (a : Z) : res Z :=
  if (0 <=? a) && (a + 8 <=? pm_len log) then Ok (rd64 (pm_load log) a) else Segfault.

Definition ld_uuid (log : P) (a : Z) : res (list Z) :=
  if (0 <=? a) && (a + 16 <=? pm_len log) then Ok (rd_bytes (pm_load log) a 16) else Segfault.

(** [objects] is the manager's map from textual uuids to objects, here to
    the mapped logs of those objects. *)
Definition play_record (objects : gmap string P) (log : P) (record : CommitRecord) (st : St)
  : res (St * event) :=
  if is_nested (_method_tag record) then
    let parent_offset := nested_offset (_method_tag record) in
    let* parent_uuid := ld_uuid log (_ptr record) in
    match objects !! uuid_unparse parent_uuid with
    | None => AssertFail
    | Some parent_log =>
        let* expected_commit_id := ld64 parent_log parent_offset in
        let* st := await (uuid_unparse parent_uuid) expected_commit_id st in
        Ok (st, EvWait (uuid_unparse parent_uuid) expected_commit_id)
    end
  else
    let* r := obj_Play (_method_tag record) (_ptr record) false (pm_load log) (pm_len log) st in
    Ok (fst r, EvPlay (_method_tag record) (_ptr record)).

(** The inner loop: play while the top of the queue is the next commit. *)
Fixpoint play_ready (objects : gmap string P) (log : P) (q : list CommitRecord)
    (last_played_commit_id : Z) (st : St) : res (St * Z * list CommitRecord * list event) :=
  match q with
  | [] => Ok (st, last_played_commit_id, [], [])
  | record :: q' =>
      if _commit_id record =? u64 (last_played_commit_id + 1) then
        let* r := play_record objects log record st in
        let* s := play_ready objects log q' (_commit_id record) (fst r) in
        let '(st, last, q, evs) := s in
        Ok (st, last, q, snd r :: evs)
      else Ok (st, last_played_commit_id, q, [])
  end.

(** Skipping a partially persisted entry: [do ... while (magic != MAGIC)]. *)
Fixpoint skip_partial (fuel : nat) (log : P) (ptr : Z) : res Z :=
  match fuel with
  | O => NoFuel
  | S fuel =>
      let ptr := ptr + CACHE_LINE_WIDTH in
      let* magic := ld64 log ptr in
      if negb (magic =? REDO_LOG_MAGIC) then skip_partial fuel log ptr else Ok ptr
  end.

Definition scan_fuel (log : P) : nat := Z.to_nat (pm_len log / CACHE_LINE_WIDTH + 2).

(** Steps 1 to 3 of an iteration: read an entry at [ptr], returning the
    object state after the dry run, the record and the next [ptr]. *)
Definition read_entry (log : P) (ptr : Z) (st : St) : res (St * CommitRecord * Z) :=
  let* commit_id := ld64 log ptr in
  let ptr := ptr + 8 in
  let* magic := ld64 log ptr in
  let* ptr := (if (commit_id =? 0) && negb (magic =? REDO_LOG_MAGIC)
               then skip_partial (scan_fuel log) log ptr else Ok ptr) in
  let* magic := ld64 log ptr in
  let ptr := ptr + 8 in
  assert! magic =? REDO_LOG_MAGIC in
  let* method_tag := ld64 log ptr in
  let ptr := ptr + 8 in
  let* r := (if negb (is_nested method_tag)
             then obj_Play method_tag ptr true (pm_load log) (pm_len log) st
             else Ok (st, 16)) in
  let bytes_processed := snd r in
  let next := ptr + bytes_processed
              + (CACHE_LINE_WIDTH - (24 + bytes_processed) mod CACHE_LINE_WIDTH) in
  Ok (fst r, MkCommitRecord ptr commit_id method_tag, next).

Fixpoint recover_loop (fuel : nat) (objects : gmap string P) (log : P) (limit ptr : Z)
    (q : list CommitRecord) (last_played_commit_id : Z) (st : St)
  : res (St * Z * list CommitRecord * list event) :=
  if ptr <? limit then
    match fuel with
    | O => NoFuel
    | S fuel =>
        let* e := read_entry log ptr st in
        let '(st, record, next) := e in
        let q := if last_played_commit_id <? _commit_id record then queue_push record q else q in
        let* s := play_ready objects log q last_played_commit_id st in
        let '(st, last, q, evs) := s in
        let* s := recover_loop fuel objects log limit next q last st in
        let '(st, last, q, evs') := s in
        Ok (st, last, q, evs ++ evs')
    end
  else Ok (st, last_played_commit_id, q, []).

(** [PersistentObject::Recover] of the object with textual uuid [uuid_str]. *)
Definition Recover (ctx : RecoveryContext.t) (objects : gmap string P) (uuid_str : string)
    (log : P) (last_played_commit_id : Z) (st : St) : res (St * Z * list event) :=
  let logHead := RecoveryContext.queryLogHeadOffset ctx uuid_str in
  let logHead := if logHead =? 0 then get_field log off_head else logHead in
  let limit := get_field log off_tail in
  let* s := recover_loop (scan_fuel log) objects log limit logHead [] last_played_commit_id st in
  let '(st, last, q, evs) := s in
  assert! bool_decide (q = []) in
  Ok (st, last, evs).

End Recover.

(** ** The commit queue *)

Definition id_le (r1 r2 : CommitRecord) : Prop := _commit_id r1 <= _commit_id r2.

Lemma queue_push_perm r q : queue_push r q ≡ₚ r :: q.
Proof.
  induction q as [|x q IH]; simpl; [done|]. destruct (_ <? _); [done|].
  rewrite IH. apply Permutation_swap.
Qed.

Lemma queue_push_sorted r q : StronglySorted id_le q -> StronglySorted id_le (queue_push r q).
Proof.
  induction 1 as [|x q Hs IH Hx]; simpl; [by repeat constructor|].
  destruct (Z.ltb_spec (_commit_id r) (_commit_id x)).
  - constructor; [by constructor|]. constructor; [unfold id_le; lia|].
    eapply Forall_impl; [exact Hx|]. unfold id_le. lia.
  - constructor; [done|]. rewrite queue_push_perm. constructor; [unfold id_le; lia|done].
Qed.

(** ** Replay as a function of the records of a log *)

Section Recover_proofs.
Context {P : Type} `{PmemLaws P} `{Uuid} {St : Type} `{PersistentClass St} `{NestedWait St}.
Implicit Types (log : P) (objects : gmap string P) (st : St).

(** Reference definition: play a list of records in the given order. *)
Fixpoint play_all objects log (l : list CommitRecord) st : res (St * list event) :=
  match l with
  | [] => Ok (st, [])
  | record :: l =>
      let* r := play_record objects log record st in
      let* s := play_all objects log l (fst r) in
      Ok (fst s, snd r :: snd s)
  end.

Lemma play_all_app objects log l1 l2 st :
  play_all objects log (l1 ++ l2) st =
  let* r := play_all objects log l1 st in
  let* s := play_all objects log l2 (fst r) in
  Ok (fst s, snd r ++ snd s).
Proof.
  revert st. induction l1 as [|x l1 IH]; intros st; simpl.
  - by destruct (play_all objects log l2 st) as [[]| | |].
  - destruct (play_record objects log x st) as [r| | |]; simpl; [|done..].
    rewrite IH. destruct (play_all objects log l1 r.1) as [s| | |]; simpl; [|done..].
    by destruct (play_all objects log l2 s.1) as [t| | |].
Qed.

(** The loop of [Recover] once the entries have been parsed. *)
Fixpoint replay_records objects log (rs : list CommitRecord) (q : list CommitRecord)
    (last : Z) st : res (St * Z * list CommitRecord * list event) :=
  match rs with
  | [] => Ok (st, last, q, [])
  | record :: rs =>
      let q := if last <? _commit_id record then queue_push record q else q in
      let* s := play_ready objects log q last st in
      let '(st, last, q, evs) := s in
      let* s := replay_records objects log rs q last st in
      let '(st, last, q, evs') := s in
      Ok (st, last, q, evs ++ evs')
  end.

(** [l] lists, in order, the records numbered [last+1 .. last+k]. *)
Definition in_order (last k : Z) (l : list CommitRecord) : Prop :=
  _commit_id <$> l = seqZ (last + 1) k.

Lemma in_order_cons last k x l :
  in_order last k (x :: l) -> 0 < k /\ _commit_id x = last + 1 /\ in_order (last + 1) (k - 1) l.
Proof.
  unfold in_order. rewrite fmap_cons. intros E.
  assert (0 < k). { destruct (decide (0 < k)); [done|]. rewrite seqZ_nil in E by lia. done. }
  rewrite seqZ_cons in E by done. injection E as E1 E2.
  split; [done|]. split; [done|]. rewrite E2. f_equal; lia.
Qed.

Lemma in_order_ids last k l x :
  in_order last k l -> x ∈ l -> last < _commit_id x <= last + k.
Proof.
  intros E Hx. apply (list_elem_of_fmap_2 _commit_id) in Hx.
  unfold in_order in E. rewrite E in Hx. apply elem_of_seqZ in Hx. lia.
Qed.

Lemma in_order_nil last k : in_order last k [] -> k <= 0.
Proof.
  unfold in_order. intros E. destruct (decide (k <= 0)); [done|].
  rewrite seqZ_cons in E by lia. done.
Qed.

(** In a queue whose records all belong to [l], the first one has the next
    number only if it is the head of [l]. *)
Lemma queue_top last k x q y l rest :
  in_order last k (y :: l) -> y :: l ≡ₚ (x :: q) ++ rest ->
  _commit_id x = last + 1 -> x = y /\ l ≡ₚ q ++ rest.
Proof.
  intros Ho Hp Hx. assert (x = y) as ->.
  { assert (x ∈ y :: l) as Hin by (rewrite Hp; left).
    apply elem_of_cons in Hin as [->|Hin]; [done|].
    apply in_order_cons in Ho as (_ & _ & Ho). eapply in_order_ids in Ho; [|done]. lia. }
  split; [done|]. by apply Permutation_cons_inv in Hp.
Qed.

(** The records the inner loop plays, the number it stops at and the queue
    it leaves. *)
Fixpoint ready (q : list CommitRecord) (last : Z) : list CommitRecord * Z * list CommitRecord :=
  match q with
  | [] => ([], last, [])
  | x :: q' =>
      if _commit_id x =? u64 (last + 1) then
        let '(l, n, r) := ready q' (_commit_id x) in (x :: l, n, r)
      else ([], last, q)
  end.

Lemma play_ready_eq objects log q last st :
  play_ready objects log q last st =
  let '(l, n, q') := ready q last in
  let* r := play_all objects log l st in Ok (fst r, n, q', snd r).
Proof.
  revert last st. induction q as [|x q IH]; intros last st; simpl; [done|].
  destruct (_ =? _); [|done]. destruct (ready q (_commit_id x)) as [[l n] q'] eqn:E. simpl.
  destruct (play_record objects log x st) as [r| | |]; simpl; [|done..].
  rewrite IH, E. by destruct (play_all objects log l r.1).
Qed.

Lemma ready_spec q last k l rest :
  StronglySorted id_le q -> in_order last k l -> l ≡ₚ q ++ rest ->
  0 <= last -> last + k < 2 ^ 64 - 1 ->
  exists j l1 l2 q',
    ready q last = (l1, last + j, q') /\ l = l1 ++ l2 /\ 0 <= j <= Z.max 0 k /\
    in_order (last + j) (k - j) l2 /\ l2 ≡ₚ q' ++ rest /\ StronglySorted id_le q' /\
    match q' with [] => True | x :: _ => _commit_id x <> last + j + 1 end.
Proof.
  revert last k l. induction q as [|x q IH]; intros last k l Hs Ho Hp Hl Hk.
  - exists 0, [], l, []. rewrite Z.add_0_r, Z.sub_0_r. simpl. repeat (split; [done || lia|]). done.
  - simpl. destruct l as [|y l]; [by apply Permutation_nil_l in Hp|].
    pose proof (in_order_cons _ _ _ _ Ho) as (Hk0 & Hy & Ho').
    rewrite u64_small by lia.
    destruct (Z.eqb_spec (_commit_id x) (last + 1)) as [Hx|Hx].
    + destruct (queue_top _ _ _ _ _ _ _ Ho Hp Hx) as [-> Hp'].
      inversion Hs; subst.
      destruct (IH (last + 1) (k - 1) l) as (j & l1 & l2 & q' & Heq & -> & Hj & Ho2 & Hp2 & Hs' & Htop);
        [done|done|done|lia|lia|].
      exists (j + 1), (y :: l1), l2, q'. rewrite Hx, Heq.
      replace (last + (j + 1)) with (last + 1 + j) by lia.
      replace (k - (j + 1)) with (k - 1 - j) by lia.
      split; [done|]. split; [done|]. split; [lia|]. done.
    + exists 0, [], (y :: l), (x :: q). rewrite Z.add_0_r, Z.sub_0_r.
      split; [done|]. split; [done|]. split; [lia|]. done.
Qed.

Lemma filter_later (rs l : list CommitRecord) last last' :
  last <= last' -> (forall r, r ∈ l -> last' < _commit_id r) ->
  (forall r, r ∈ filter (fun r => last < _commit_id r) rs -> r ∈ l) ->
  filter (fun r => last < _commit_id r) rs = filter (fun r => last' < _commit_id r) rs.
Proof.
  intros Hl Hgt. induction rs as [|r rs IH]; intros Hin; [done|].
  rewrite !filter_cons in *. destruct (decide (last < _commit_id r)).
  - rewrite decide_True by (apply Hgt, Hin; left).
    f_equal. apply IH. intros r' Hr'. apply Hin. by right.
  - rewrite decide_False by lia. by apply IH.
Qed.

Lemma replay_records_spec objects log rs q last k l st :
  StronglySorted id_le q -> in_order last k l ->
  l ≡ₚ q ++ filter (fun r => last < _commit_id r) rs ->
  match q with [] => True | x :: _ => _commit_id x <> last + 1 end ->
  0 <= last -> 0 <= k -> last + k < 2 ^ 64 - 1 ->
  replay_records objects log rs q last st =
    let* r := play_all objects log l st in Ok (fst r, last + k, [], snd r).
Proof.
  revert q last k l st. induction rs as [|x rs IH]; intros q last k l st Hs Ho Hp Htop Hl Hk0 Hk.
  - rewrite filter_nil, app_nil_r in Hp. destruct l as [|y l].
    + apply Permutation_nil_l in Hp as <-. apply in_order_nil in Ho. simpl.
      assert (k = 0) as -> by lia. by rewrite Z.add_0_r.
    + exfalso. pose proof (in_order_cons _ _ _ _ Ho) as (_ & Hy & _).
      assert (Hyq : y ∈ q) by (rewrite <- Hp; left).
      destruct q as [|z q]; [by apply not_elem_of_nil in Hyq|].
      assert (Hz : z ∈ y :: l) by (rewrite Hp; left).
      apply (in_order_ids _ _ _ _ Ho) in Hz.
      apply elem_of_cons in Hyq as [->|Hyq]; [lia|].
      inversion Hs as [|? ? _ Hall]; subst. rewrite Forall_forall in Hall.
      apply Hall in Hyq. unfold id_le in Hyq. lia.
  - simpl. set (q1 := if last <? _commit_id x then queue_push x q else q).
    assert (Hs1 : StronglySorted id_le q1)
      by (unfold q1; destruct (_ <? _); [by apply queue_push_sorted|done]).
    assert (Hp1 : l ≡ₚ q1 ++ filter (fun r => last < _commit_id r) rs).
    { unfold q1. destruct (Z.ltb_spec last (_commit_id x)).
      - rewrite Hp, filter_cons_True by done. rewrite queue_push_perm. by rewrite <- Permutation_middle.
      - rewrite Hp, filter_cons_False by lia. done. }
    rewrite play_ready_eq.
    destruct (ready_spec q1 last k l _ Hs1 Ho Hp1) as (j & l1 & l2 & q' & -> & -> & Hj & Ho2 & Hp2 & Hs2 & Htop2);
      [lia|lia|].
    rewrite play_all_app.
    destruct (play_all objects log l1 st) as [r| | |]; simpl; [|done..].
    rewrite (IH q' (last + j) (k - j) l2); try done; try lia.
    + replace (last + j + (k - j)) with (last + k) by lia.
      by destruct (play_all objects log l2 r.1).
    + rewrite Hp2. f_equiv.
      rewrite (filter_later rs l2 last (last + j)); [done|lia| |].
      * intros y Hy. apply (in_order_ids _ _ _ _ Ho2) in Hy. lia.
      * intros y Hy. rewrite Hp2. apply elem_of_app. by right.
Qed.

(** ** Parsing the entries of a log *)

Definition entry_tag (e : entry) : Z := le_value (take 8 (e_body e)).
Definition entry_args (e : entry) : list Z := drop 8 (e_body e).

Fixpoint records (off : Z) (es : list entry) : list CommitRecord :=
  match es with
  | [] => []
  | e :: es => MkCommitRecord (off + 24) (e_commit e) (entry_tag e) :: records (off + esize e) es
  end.

(** An entry that [Recover] can read: it starts with a tag and its dry run
    reports the size of its arguments. *)
Record entry_ok log (off : Z) (e : entry) : Prop := {
  eo_tag : (8 <= length (e_body e))%nat;
  eo_bytes : Forall is_byte (take 8 (e_body e));
  eo_commit : is_u64 (e_commit e);
  eo_dry :
    if is_nested (entry_tag e) then Zlength (entry_args e) = 16
    else forall st, obj_Play (entry_tag e) (off + 24) true (pm_load log) (pm_len log) st
                    = Ok (st, Zlength (entry_args e))
}.

Fixpoint entries_ok log (off : Z) (es : list entry) : Prop :=
  match es with
  | [] => True
  | e :: es => entry_ok log off e /\ entries_ok log (off + esize e) es
  end.

Lemma ld64_ok log a : 0 <= a -> a + 8 <= pm_len log -> ld64 log a = Ok (rd64 (pm_load log) a).
Proof.
  intros. unfold ld64. rewrite (proj2 (Z.leb_le _ _)) by lia. by rewrite (proj2 (Z.leb_le _ _)) by lia.
Qed.

(** One iteration on a well-formed entry, before looking at the padding. *)
Lemma read_entry_next log off e es st :
  0 <= off -> off + 24 + Zlength (entry_args e) <= pm_len log ->
  entries_at (pm_load log) off (e :: es) ->
  (8 <= length (e_body e))%nat -> is_u64 (e_commit e) ->
  (if is_nested (entry_tag e) then Zlength (entry_args e) = 16
   else obj_Play (entry_tag e) (off + 24) true (pm_load log) (pm_len log) st
        = Ok (st, Zlength (entry_args e))) ->
  read_entry log off st =
    Ok (st, MkCommitRecord (off + 24) (e_commit e) (entry_tag e),
        off + 24 + Zlength (entry_args e) + (64 - (24 + Zlength (entry_args e)) mod 64)).
Proof.
  intros Hoff Hlen (Hc & Hm & Hb & _) Htag Hcommit Hdry.
  pose proof (Zlength_nonneg (entry_args e)).
  apply bytes_at_rd64 in Hc; [|done]. apply bytes_at_rd64 in Hm; [|done].
  assert (Ht : rd64 (pm_load log) (off + 16) = entry_tag e).
  { rewrite <- (take_drop 8 (e_body e)) in Hb. apply bytes_at_app in Hb as [Hb _].
    apply bytes_at_rd in Hb. rewrite length_take, Nat.min_l in Hb by lia.
    unfold rd64. by rewrite Hb. }
  unfold read_entry. rewrite ld64_ok by lia. rewrite Hc. cbn [res_bind].
  rewrite ld64_ok by lia. rewrite Hm. cbn [res_bind].
  rewrite Z.eqb_refl. cbn [negb]. rewrite andb_false_r. cbn [res_bind].
  rewrite ld64_ok by lia. rewrite Hm. cbn [res_bind]. rewrite Z.eqb_refl.
  replace (off + 8 + 8) with (off + 16) by lia. rewrite ld64_ok by lia. rewrite Ht. cbn [res_bind].
  replace (off + 16 + 8) with (off + 24) by lia.
  destruct (is_nested (entry_tag e)); cbn [negb] in *; rewrite Hdry; done.
Qed.

Lemma Zlength_body e :
  (8 <= length (e_body e))%nat -> 16 + Zlength (e_body e) = 24 + Zlength (entry_args e).
Proof. intros. unfold entry_args, Zlength. rewrite length_drop. lia. Qed.

(** The last byte of the entry is the last byte of a cache line: then
    [Savitar_log_append] adds no padding, but the scan of [Recover], which
    always steps over 1 to 64 bytes of padding, continues a line too far. *)
Definition ends_on_line (e : entry) : bool := (16 + Zlength (e_body e)) mod 64 =? 0.

(** Every entry but the last one is followed by padding. *)
Definition padded_but_last (es : list entry) : Prop :=
  Forall (fun e => ends_on_line e = false) (removelast es).

(** The records that the scan meets.  After an entry that ends on a line, a
    following entry of one line is stepped over unseen; [None]: the scan
    lands inside a longer entry, and what it reads there is argument data. *)
Fixpoint seen (off : Z) (es : list entry) : option (list CommitRecord) :=
  match es with
  | [] => Some []
  | e :: es =>
      let rest :=
        if ends_on_line e then
          match es with
          | [] => Some []
          | e' :: es' =>
              if esize e' =? CACHE_LINE_WIDTH then seen (off + esize e + CACHE_LINE_WIDTH) es' else None
          end
        else seen (off + esize e) es in
      (fun rs => MkCommitRecord (off + 24) (e_commit e) (entry_tag e) :: rs) <$> rest
  end.

Lemma seen_step off e es :
  ends_on_line e = false ->
  seen off (e :: es) =
    (fun rs => MkCommitRecord (off + 24) (e_commit e) (entry_tag e) :: rs) <$> seen (off + esize e) es.
Proof. intros E. cbn [seen]. by rewrite E. Qed.

Lemma seen_padded off es : padded_but_last es -> seen off es = Some (records off es).
Proof.
  unfold padded_but_last. revert off. induction es as [|e es IH]; intros off Hp; [done|].
  destruct es as [|e2 es]; [cbn; by destruct (ends_on_line e)|].
  change (removelast (e :: e2 :: es)) with (e :: removelast (e2 :: es)) in Hp.
  apply Forall_cons in Hp as [He Hp]. by rewrite seen_step, (IH _ Hp).
Qed.

(** Where an iteration leaves the scan. *)
Lemma read_entry_spec log off e es st :
  0 <= off -> off + esize e <= pm_len log ->
  entries_at (pm_load log) off (e :: es) -> entry_ok log off e ->
  read_entry log off st =
    Ok (st, MkCommitRecord (off + 24) (e_commit e) (entry_tag e),
        off + esize e + (if ends_on_line e then CACHE_LINE_WIDTH else 0)).
Proof.
  intros Hoff Hlen Hat [Htag Hbytes Hcommit Hdry].
  pose proof (esize_spec e) as [_ Hge]. pose proof (Zlength_body _ Htag) as Hb.
  rewrite (read_entry_next log off e es); try done; [|lia|].
  - do 2 f_equal. unfold ends_on_line, esize, align_up, CACHE_LINE_WIDTH. rewrite Hb.
    destruct (Z.eqb_spec ((24 + Zlength (entry_args e)) mod 64) 0) as [E|E]; cbn [negb]; lia.
  - destruct (is_nested _); [done|apply Hdry].
Qed.

Lemma recover_loop_seen fuel objects log es off rs q last st :
  (length es <= fuel)%nat -> 0 <= off -> off + total es <= pm_len log ->
  entries_at (pm_load log) off es -> entries_ok log off es -> seen off es = Some rs ->
  recover_loop fuel objects log (off + total es) off q last st =
  replay_records objects log rs q last st.
Proof.
  revert off es rs q last st.
  induction fuel as [fuel IH] using lt_wf_ind; intros off es rs q last st Hf Hoff Hlen Hat Hok Hs.
  destruct es as [|e es].
  { injection Hs as <-. destruct fuel; simpl; rewrite (proj2 (Z.ltb_ge _ _)) by (simpl; lia); done. }
  destruct fuel as [|fuel]; [simpl in Hf; lia|].
  pose proof (esize_ge e). pose proof (total_nonneg es).
  change (total (e :: es)) with (esize e + total es) in *. destruct Hok as [Hok Hoks].
  cbn [recover_loop]. rewrite (proj2 (Z.ltb_lt _ _)) by lia.
  rewrite (read_entry_spec _ _ e es) by (done || lia).
  destruct Hat as (_ & _ & _ & Hat). simpl in Hf.
  assert (Hnext : exists rs', rs = MkCommitRecord (off + 24) (e_commit e) (entry_tag e) :: rs' /\
    forall q last st, recover_loop fuel objects log (off + (esize e + total es))
      (off + esize e + (if ends_on_line e then CACHE_LINE_WIDTH else 0)) q last st =
      replay_records objects log rs' q last st).
  { cbn [seen] in Hs. destruct (ends_on_line e).
    - destruct es as [|e' es]; [injection Hs as <-; eexists; split; [done|]|].
      + intros q' last' st'. change (total []) with 0. unfold CACHE_LINE_WIDTH.
        destruct fuel; cbn [recover_loop]; rewrite (proj2 (Z.ltb_ge _ _)) by lia; done.
      + destruct (Z.eqb_spec (esize e') CACHE_LINE_WIDTH) as [E'|]; [|done].
        destruct (seen _ es) as [rs'|] eqn:Es; [|done]. injection Hs as <-.
        exists rs'. split; [done|]. intros q' last' st'.
        change (total (e' :: es)) with (esize e' + total es) in *. rewrite E' in *.
        pose proof (total_nonneg es). cbn [entries_at entries_ok] in Hat, Hoks.
        destruct Hat as (_ & _ & _ & Hat), Hoks as [_ Hoks]. rewrite E' in Hat, Hoks.
        unfold CACHE_LINE_WIDTH in *.
        replace (off + (esize e + (64 + total es))) with (off + esize e + 64 + total es) by lia.
        apply IH; try done; try lia. simpl in Hf. lia.
    - fold (seen (off + esize e) es) in Hs.
      destruct (seen (off + esize e) es) as [rs'|] eqn:Es; [|done]. injection Hs as <-.
      exists rs'. split; [done|]. intros q' last' st'. rewrite Z.add_0_r, Z.add_assoc.
      apply IH; try done; lia. }
  destruct Hnext as (rs' & -> & Hnext). cbn [res_bind replay_records].
  destruct (play_ready objects log _ last st) as [[[[st1 last1] q1] evs]| | |]; [|done..].
  cbn [res_bind]. by rewrite Hnext.
Qed.

Lemma length_total es : 64 * Z.of_nat (length es) <= total es.
Proof.
  induction es as [|e es IH]; [done|]. change (total (e :: es)) with (esize e + total es).
  pose proof (esize_ge e). simpl length. lia.
Qed.

(** What [Recover] needs of a log file: it survives a crash. *)
Record log_image log es : Prop := {
  li_head : get_field log off_head = sizeof_RedoLog;
  li_tail : get_field log off_tail = sizeof_RedoLog + total es;
  li_fits : sizeof_RedoLog + total es <= pm_len log;
  li_entries : entries_at (pm_load log) sizeof_RedoLog es
}.

(** Where replay starts: at the log head, or at the offset a snapshot left. *)
Definition replay_start (ctx : RecoveryContext.t) (uuid_str : string) (head : Z) : Z :=
  let h := RecoveryContext.queryLogHeadOffset ctx uuid_str in if h =? 0 then head else h.

Lemma replay_seen ctx objects uuid_str log es1 es2 rs last k l st :
  log_image log (es1 ++ es2) ->
  replay_start ctx uuid_str sizeof_RedoLog = sizeof_RedoLog + total es1 ->
  entries_ok log (sizeof_RedoLog + total es1) es2 ->
  seen (sizeof_RedoLog + total es1) es2 = Some rs ->
  l ≡ₚ filter (fun r => last < _commit_id r) rs ->
  in_order last k l -> 0 <= last -> 0 <= k -> last + k < 2 ^ 64 - 1 ->
  Recover ctx objects uuid_str log last st =
    let* r := play_all objects log l st in Ok (fst r, last + k, snd r).
Proof.
  intros [Hhead Htail Hfits Hent] Hstart Hok Hs Hl Ho Hlast Hk Hb.
  rewrite total_app in *. apply entries_at_app in Hent as [_ Hent].
  pose proof (total_nonneg es1). pose proof (length_total es2).
  unfold Recover, replay_start in *. rewrite Hhead, Hstart, Htail.
  rewrite Z.add_assoc, (recover_loop_seen _ _ _ _ _ rs); try done; unfold sizeof_RedoLog in *; try lia.
  - rewrite (replay_records_spec objects log _ [] last k l); try done; [|constructor].
    by destruct (play_all objects log l st).
  - unfold scan_fuel, CACHE_LINE_WIDTH. dlia.
Qed.

Lemma replay_commit_order ctx objects uuid_str log es1 es2 last k l st :
  log_image log (es1 ++ es2) ->
  replay_start ctx uuid_str sizeof_RedoLog = sizeof_RedoLog + total es1 ->
  entries_ok log (sizeof_RedoLog + total es1) es2 -> padded_but_last es2 ->
  l ≡ₚ filter (fun r => last < _commit_id r) (records (sizeof_RedoLog + total es1) es2) ->
  in_order last k l -> 0 <= last -> 0 <= k -> last + k < 2 ^ 64 - 1 ->
  Recover ctx objects uuid_str log last st =
    let* r := play_all objects log l st in Ok (fst r, last + k, snd r).
Proof. intros Hi Hst Hok Hp Hl. eapply replay_seen; try done. by apply seen_padded. Qed.


(** ** From histories of the log to replay *)

Lemma records_ids off es : _commit_id <$> records off es = e_commit <$> es.
Proof.
  revert off. induction es as [|e es IH]; intros off; simpl; [done|]. f_equal. apply IH.
Qed.

(** Commit numbers that fill an interval can be put in order. *)
Lemma in_order_exists (rs : list CommitRecord) last k :
  _commit_id <$> rs ≡ₚ seqZ (last + 1) k -> exists l, l ≡ₚ rs /\ in_order last k l.
Proof.
  intros Hp. symmetry in Hp. apply Permutation_map_inv in Hp as (l & El & Hl).
  exists l. split; [done|]. unfold in_order. by rewrite El.
Qed.

Lemma committed_records off es :
  Forall (fun e => 0 <= e_commit e) es ->
  _commit_id <$> filter (fun r => 0 < _commit_id r) (records off es) = commit_ids es.
Proof.
  intros Hall. revert off. unfold commit_ids.
  induction Hall as [|e es He Hes IH]; intros off; cbn [records fmap list_fmap]; [done|].
  rewrite !filter_cons. cbn [_commit_id]. destruct (decide (0 < e_commit e)).
  - rewrite decide_True by lia. rewrite fmap_cons. f_equal. apply IH.
  - rewrite decide_False by lia. apply IH.
Qed.

Lemma entries_ok_commits log off es :
  entries_ok log off es -> Forall (fun e => 0 <= e_commit e) es.
Proof.
  revert off. induction es as [|e es IH]; intros off; [constructor|]. intros [[] Hok].
  constructor; [unfold is_u64 in *; lia|eauto].
Qed.

Lemma image_repr log es n p' :
  log_repr log es n -> pm_len p' = pm_len log -> (forall a, a < off_last_commit -> pm_load p' a = pm_load log a) ->
  forall es', total es' = total es -> entries_at (pm_load p') sizeof_RedoLog es' -> log_image p' es'.
Proof.
  intros Hr Hl Hload es' Ht Hent. unfold off_last_commit in Hload.
  split; rewrite ?Ht, ?Hl; [ | | by apply (lr_fits _ _ _ Hr)|done].
  - rewrite <- (lr_head _ _ _ Hr). apply get_field_ext. unfold off_head. intros; apply Hload; lia.
  - rewrite <- (lr_tail _ _ _ Hr). apply get_field_ext. unfold off_tail. intros; apply Hload; lia.
Qed.

(** A commit changes neither what can be read nor the padding. *)
Lemma entries_ok_commit log off es i c b :
  is_u64 c -> es !! i = Some (Entry 0 b) -> entries_ok log off es -> entries_ok log off (<[i := Entry c b]> es).
Proof.
  intros Hc. revert off i. induction es as [|e es IH]; intros off i Hi Hok; [done|].
  destruct Hok as [He Hok]. destruct i as [|i]; cbn [entries_ok list_insert insert].
  - injection Hi as ->. split; [|done]. by destruct He.
  - split; [done|]. by apply IH.
Qed.

Lemma padded_bodies es es' : e_body <$> es' = e_body <$> es -> padded_but_last es -> padded_but_last es'.
Proof.
  unfold padded_but_last. revert es'. induction es as [|e es IH]; intros [|e' es'] E Hp; try done.
  injection E as E1 E2. destruct es as [|e2 es], es' as [|e2' es']; try done.
  change (removelast (e' :: e2' :: es')) with (e' :: removelast (e2' :: es')).
  change (removelast (e :: e2 :: es)) with (e :: removelast (e2 :: es)) in Hp.
  apply Forall_cons in Hp as [He Hp]. apply Forall_cons. split; [|by apply IH].
  unfold ends_on_line in *. by rewrite E1.
Qed.

Lemma survives_ok p1 es n p2 es' n' log off :
  survives p1 es n p2 es' n' -> is_u64 (n + 1) -> entries_ok log off es -> padded_but_last es ->
  entries_ok log off es' /\ padded_but_last es'.
Proof.
  intros [|i body p3 Hi _] Hn Hok Hp; [done|]. split; [by apply entries_ok_commit|].
  eapply padded_bodies; [|done]. rewrite list_fmap_insert. apply list_insert_id. by rewrite list_lookup_fmap, Hi.
Qed.

Lemma survives_commit_ids p1 es n p2 es' n' :
  survives p1 es n p2 es' n' -> 0 <= n -> commit_ids es ≡ₚ seqZ 1 n -> commit_ids es' ≡ₚ seqZ 1 n' /\ 0 <= n' <= n + 1.
Proof.
  intros [|i body p3 Hi _] Hn Hp; [split; [done|lia]|]. split; [|lia].
  rewrite commit_ids_commit by (done || lia). rewrite Hp, seqZ_app by lia. rewrite (Z.add_comm 1 n). cbn.
  by rewrite Permutation_app_comm.
Qed.

(** Recovery from the log's head of an image whose commits are [1..n]. *)
Lemma recovery_of_image objects uuid_str log es n st :
  log_image log es -> entries_ok log sizeof_RedoLog es -> padded_but_last es ->
  commit_ids es ≡ₚ seqZ 1 n -> 0 <= n < 2 ^ 64 - 1 ->
  exists l,
    l ≡ₚ filter (fun r => 0 < _commit_id r) (records sizeof_RedoLog es) /\
    _commit_id <$> l = seqZ 1 n /\
    Recover RecoveryContext.init objects uuid_str log 0 st =
      let* r := play_all objects log l st in Ok (fst r, n, snd r).
Proof.
  intros Hi Hok Hp Hids Hn.
  destruct (in_order_exists (filter (fun r => 0 < _commit_id r) (records sizeof_RedoLog es)) 0 n)
    as (l & Hl & Ho).
  { rewrite (committed_records _ _ (entries_ok_commits _ _ _ Hok)). done. }
  exists l. split; [done|]. split; [done|].
  rewrite (replay_commit_order RecoveryContext.init objects uuid_str log [] es 0 n l); try done; lia.
Qed.

(** The file after a history and a power failure outside of an append. *)
Lemma history_image p ops es n p1 p2 p' :
  log_repr p [] 0 -> log_durable p -> spec_ops (pm_len p) ([], 0) ops (es, n) ->
  run_ops p ops = Ok p1 -> stopped p1 es n p2 -> pm_crash p2 p' ->
  exists es' n', survives p1 es n p2 es' n' /\ log_image p' es' /\
    commit_ids es' ≡ₚ seqZ 1 n' /\ 0 <= n' <= n + 1 /\ 0 <= n.
Proof.
  intros Hr Hd Hs Hrun Hst Hc.
  destruct (run_ops_refines _ _ _ _ _ _ Hr Hd Hs) as (p1' & Hrun' & Hr1 & Hd1 & _).
  rewrite Hrun in Hrun'. injection Hrun' as <-.
  destruct (stopped_crash p1 es n p2 p' Hr1 Hd1 Hst Hc) as (Hl & Hload & _ & es' & n' & Hsv & Hent).
  destruct (spec_ops_commit_ids _ _ _ _ Hs) as [Hids Hn0]; [done|done|]. cbn [fst snd] in *.
  destruct (survives_commit_ids _ _ _ _ _ _ Hsv Hn0 Hids) as [Hids' Hn'].
  exists es', n'. split; [done|]. split; [|done].
  eapply image_repr; try done. by eapply survives_total.
Qed.

(** [C6] End to end: run any history of appends and commits on an empty log,
    lose power between two operations or inside a commit, and recover.  If
    the entries are readable ([entries_ok]) and every entry but the last one
    is followed by padding, recovery succeeds exactly when replaying
    succeeds, and replays the operations committed before the failure (with
    or without the commit that was being written), all of them, once each, in
    the order of their commits.  [exact_line_hides_commit] shows what happens
    to an entry that ends on a cache line, [append_crash] what a failure
    inside an append does. *)
Theorem recovery_after_crash objects uuid_str p ops es n p1 p2 p' st :
  log_repr p [] 0 -> log_durable p -> spec_ops (pm_len p) ([], 0) ops (es, n) ->
  run_ops p ops = Ok p1 -> stopped p1 es n p2 -> pm_crash p2 p' ->
  entries_ok p' sizeof_RedoLog es -> padded_but_last es -> n + 1 < 2 ^ 64 - 1 ->
  exists es' n' l,
    survives p1 es n p2 es' n' /\
    l ≡ₚ filter (fun r => 0 < _commit_id r) (records sizeof_RedoLog es') /\
    _commit_id <$> l = seqZ 1 n' /\
    Recover RecoveryContext.init objects uuid_str p' 0 st =
      let* r := play_all objects p' l st in Ok (fst r, n', snd r).
Proof.
  intros Hr Hd Hs Hrun Hst Hc Hok Hp Hn.
  destruct (history_image p ops es n p1 p2 p' Hr Hd Hs Hrun Hst Hc) as (es' & n' & Hsv & Hi & Hids & Hn' & Hn0).
  destruct (survives_ok _ _ _ _ _ _ p' sizeof_RedoLog Hsv) as [Hok' Hp']; [unfold is_u64; lia|done|done|].
  destruct (recovery_of_image objects uuid_str p' es' n' st Hi Hok' Hp' Hids) as (l & Hl & Ho & HR); [lia|].
  by exists es', n', l.
Qed.

(** *** Entries that end on a cache line *)

Lemma seen_app off es1 es2 :
  Forall (fun e => ends_on_line e = false) es1 ->
  seen off (es1 ++ es2) = (fun rs => records off es1 ++ rs) <$> seen (off + total es1) es2.
Proof.
  revert off. induction es1 as [|e es1 IH]; intros off Hp.
  - change (total []) with 0. rewrite Z.add_0_r. cbn [app records]. by destruct (seen off es2).
  - apply Forall_cons in Hp as [He Hp]. cbn [app]. rewrite (seen_step _ _ _ He), (IH _ Hp).
    change (total (e :: es1)) with (esize e + total es1). rewrite Z.add_assoc.
    by destruct (seen _ es2).
Qed.

Lemma records_app off es1 es2 : records off (es1 ++ es2) = records off es1 ++ records (off + total es1) es2.
Proof.
  revert off. induction es1 as [|e es1 IH]; intros off; cbn [app records].
  - change (total []) with 0. by rewrite Z.add_0_r.
  - rewrite IH. change (total (e :: es1)) with (esize e + total es1). by rewrite Z.add_assoc.
Qed.


(** *** A power failure inside an append *)

Lemma ld64_blank log a :
  (forall b, a <= b -> pm_load log b = 0) -> ld64 log a = Ok 0 \/ ld64 log a = Segfault.
Proof.
  intros Hz. unfold ld64. destruct (_ && _); [left|by right]. f_equal. unfold rd64. cbn [rd_bytes].
  rewrite !Hz by lia. done.
Qed.

(** On blank memory the search for the next magic word leaves the mapping. *)
Lemma skip_partial_blank fuel log ptr :
  (forall b, ptr <= b -> pm_load log b = 0) -> pm_len log < ptr + 64 * Z.of_nat fuel ->
  skip_partial (S fuel) log ptr = Segfault.
Proof.
  revert ptr. induction fuel as [|fuel IH]; intros ptr Hz Hf.
  - cbn [skip_partial]. unfold ld64, CACHE_LINE_WIDTH.
    rewrite andb_comm, (proj2 (Z.leb_gt _ _)) by lia. done.
  - remember (S fuel) as f. cbn [skip_partial]. unfold CACHE_LINE_WIDTH.
    destruct (ld64_blank log (ptr + 64)) as [-> | ->]; [intros; apply Hz; lia| |done].
    cbn [res_bind]. change (negb (0 =? REDO_LOG_MAGIC)) with true. subst f. apply IH; [intros; apply Hz|]; lia.
Qed.

Lemma read_entry_blank log off st :
  0 <= off -> 0 <= pm_len log -> (forall b, off <= b -> pm_load log b = 0) -> read_entry log off st = Segfault.
Proof.
  intros Hoff Hlen Hz. unfold read_entry.
  destruct (ld64_blank log off) as [-> | ->]; [done| |done]. cbn [res_bind].
  destruct (ld64_blank log (off + 8)) as [-> | ->]; [intros; apply Hz; lia| |done]. cbn [res_bind].
  change ((0 =? 0) && negb (0 =? REDO_LOG_MAGIC)) with true. cbv iota.
  replace (scan_fuel log) with (S (Z.to_nat (pm_len log / CACHE_LINE_WIDTH + 1))).
  - rewrite skip_partial_blank; [done|intros; apply Hz; lia|]. unfold CACHE_LINE_WIDTH. dlia.
  - unfold scan_fuel, CACHE_LINE_WIDTH. rewrite <- Z2Nat.inj_succ by dlia. f_equal. lia.
Qed.

(** A scan that meets a blank line before its limit fails. *)
Lemma recover_loop_blank fuel objects log es limit off q last st r :
  0 <= off -> off + total es < limit -> off + total es <= pm_len log ->
  entries_at (pm_load log) off es -> entries_ok log off es -> Forall (fun e => ends_on_line e = false) es ->
  (forall b, off + total es <= b -> pm_load log b = 0) ->
  recover_loop fuel objects log limit off q last st <> Ok r.
Proof.
  revert fuel off q last st r. induction es as [|e es IH]; intros fuel off q last st r Hoff Hlim Hlen Hat Hok Hp Hz E.
  - change (total []) with 0 in *.
    destruct fuel as [|fuel]; cbn [recover_loop] in E; rewrite (proj2 (Z.ltb_lt _ _)) in E by lia; [done|].
    rewrite read_entry_blank in E; [done|lia|lia|intros; apply Hz; lia].
  - pose proof (esize_ge e). pose proof (total_nonneg es).
    change (total (e :: es)) with (esize e + total es) in *. destruct Hok as [Hok Hoks].
    apply Forall_cons in Hp as [He Hp].
    destruct fuel as [|fuel]; cbn [recover_loop] in E; rewrite (proj2 (Z.ltb_lt _ _)) in E by lia; [done|].
    rewrite (read_entry_spec _ _ e es), He, Z.add_0_r in E by (done || lia). cbn [res_bind] in E.
    destruct (play_ready objects log _ last st) as [[[[st1 last1] q1] evs]| | |]; [|done..]. cbn [res_bind] in E.
    destruct Hat as (_ & _ & _ & Hat).
    destruct (recover_loop fuel objects log limit (off + esize e) q1 last1 st1) as [r'| | |] eqn:E'; [|done..].
    eapply IH in E'; try done; try lia. intros b Hb'. apply Hz. lia.
Qed.

(** [C8] A power failure inside an append, after its stores and before its
    fences.  If the new tail did not reach the medium, the log holds the
    entries of before and recovery replays them as if the append had not
    begun.  If the tail reached the medium and nothing of the entry did,
    recovery never succeeds, even for a log of committed calls: the search
    for the next entry runs off the end of the file.  (In both cases for
    readable entries that are followed by padding.) *)
Theorem append_crash objects uuid_str p es n v p1 offset p' st :
  log_repr p es n -> log_durable p -> v <> [] ->
  sizeof_RedoLog + total es + esize (Entry 0 (concat v)) <= pm_len p ->
  append_stores p v = Ok (p1, offset) -> pm_crash p1 p' ->
  entries_ok p' sizeof_RedoLog es -> Forall (fun e => ends_on_line e = false) es ->
  commit_ids es ≡ₚ seqZ 1 n -> n < 2 ^ 64 - 1 ->
  (get_field p' off_tail = sizeof_RedoLog + total es ->
   exists l, l ≡ₚ filter (fun r => 0 < _commit_id r) (records sizeof_RedoLog es) /\ _commit_id <$> l = seqZ 1 n /\
     Recover RecoveryContext.init objects uuid_str p' 0 st =
       let* r := play_all objects p' l st in Ok (fst r, n, snd r)) /\
  (get_field p' off_tail = sizeof_RedoLog + total es + esize (Entry 0 (concat v)) ->
   (forall a, sizeof_RedoLog + total es <= a -> pm_load p' a = 0) ->
   forall r, Recover RecoveryContext.init objects uuid_str p' 0 st <> Ok r).
Proof.
  intros Hr Hd Hv Hfit Hst Hc Hok Hp Hids Hn. pose proof (total_nonneg es). pose proof (esize_ge (Entry 0 (concat v))).
  pose proof (lr_count _ _ _ Hr) as [Hn0 _]. pose proof (lr_tail _ _ _ Hr) as Htail.
  assert (Hkeep : pm_len p' = pm_len p /\ forall a, a < off_tail \/ sizeof_RedoLog <= a < sizeof_RedoLog + total es ->
    pm_load p' a = pm_load p a).
  { unfold append_stores in Hst. destruct (_ <? _); [|done]. destruct (_ <=? _); [|done].
    match type of Hst with Ok (?x, _) = _ => assert (p1 = x) as -> by congruence end.
    rewrite (pm_crash_len _ _ Hc), append_vectors_len, pm_memcpy_len. unfold set_field. rewrite pm_store_len.
    split; [done|]. rewrite Htail in *. intros a Ha. unfold off_tail, sizeof_RedoLog in *.
    pose proof (Zlength_nonneg (concat v)).
    assert (Hother : ~ in_range a 40 8 /\ ~ in_range a (64 + total es + 8) 8 /\
      ~ in_range a (64 + total es + 8 + 8) (Zlength (concat v))) by (unfold in_range; lia).
    destruct Hother as (O1 & O2 & O3). rewrite (pm_crash_durable _ _ _ Hc).
    - rewrite append_vectors_other, pm_memcpy_other by done. unfold set_field. by rewrite pm_store_other.
    - apply append_vectors_durable; [done|]. apply pm_memcpy_durable; [done|]. apply pm_store_durable; [done|].
      apply Hd. unfold off_last_commit, sizeof_RedoLog. lia. }
  destruct Hkeep as [Hlen Hload].
  assert (Hhead : get_field p' off_head = sizeof_RedoLog).
  { rewrite <- (lr_head _ _ _ Hr). apply get_field_ext. unfold off_head, off_tail in *. intros; apply Hload; lia. }
  assert (Hent : entries_at (pm_load p') sizeof_RedoLog es).
  { eapply entries_at_ext; [|apply (lr_entries _ _ _ Hr)]. intros; apply Hload; lia. }
  split.
  - intros Ht. apply recovery_of_image; try done; try lia.
    + split; try done. rewrite Hlen. apply (lr_fits _ _ _ Hr).
    + clear -Hp. unfold padded_but_last. induction Hp as [|e es He Hp IH]; [constructor|].
      destruct es; [constructor|]. by constructor.
  - intros Ht Hz r E. unfold Recover in E. cbn [RecoveryContext.queryLogHeadOffset RecoveryContext.logHeadOffsets RecoveryContext.init] in E.
    change (RecoveryContext.queryLogHeadOffset RecoveryContext.init uuid_str) with 0 in E.
    change (0 =? 0) with true in E. cbv iota in E. rewrite Hhead, Ht in E.
    destruct (recover_loop _ _ _ _ _ _ _ _) as [r'| | |] eqn:E'; [|done..].
    eapply recover_loop_blank in E'; try done; unfold sizeof_RedoLog in *; try lia. 
Qed.

(** ** Termination *)

Lemma ld64_no_fuel log a : ld64 log a <> NoFuel.
Proof. unfold ld64. by destruct (_ && _). Qed.

Lemma ld64_inv log a v : ld64 log a = Ok v -> 0 <= a /\ a + 8 <= pm_len log.
Proof.
  unfold ld64. destruct (0 <=? a) eqn:E1, (a + 8 <=? pm_len log) eqn:E2; simpl; try done.
  intros _. split; by apply Z.leb_le.
Qed.

Lemma skip_partial_total fuel log ptr :
  ptr + 8 <= pm_len log -> pm_len log < ptr + 64 * Z.of_nat fuel ->
  match skip_partial fuel log ptr with
  | NoFuel => False | Ok ptr' => ptr <= ptr' | _ => True end.
Proof.
  revert ptr. induction fuel as [|fuel IH]; intros ptr Hp Hf; cbn [skip_partial]; [lia|].
  unfold CACHE_LINE_WIDTH.
  destruct (ld64 log (ptr + 64)) as [m| | |] eqn:E; simpl; try done.
  - apply ld64_inv in E as [_ E]. destruct (negb _); [|lia].
    specialize (IH (ptr + 64) ltac:(lia) ltac:(lia)).
    destruct (skip_partial fuel log (ptr + 64)); try done. lia.
  - by apply (ld64_no_fuel log (ptr + 64)).
Qed.

(** [Play] always returns, and reports a number of bytes for which the
    pointer arithmetic of the scan does not wrap around; and every wait for a
    parent ends (the parent plays the commit, or stops recovering). *)
Definition play_total : Prop :=
  forall tag ptr dry rd len st, 0 <= len < 2 ^ 61 ->
    match obj_Play tag ptr dry rd len st with
    | NoFuel => False | Ok r => 0 <= snd r < 2 ^ 63 | _ => True end.

Definition waits_end : Prop := forall parent commit_id st, await parent commit_id st <> NoFuel.

Lemma read_entry_total log ptr st :
  play_total -> 0 <= pm_len log < 2 ^ 61 -> 0 <= ptr ->
  match read_entry log ptr st with
  | NoFuel => False
  | Ok r => ptr + 64 <= snd r /\ ptr + 8 <= pm_len log
  | _ => True end.
Proof.
  intros Hplay Hlen Hp. unfold read_entry.
  destruct (ld64 log ptr) as [c| | |] eqn:E1; cbn [res_bind]; try done;
    [|by apply (ld64_no_fuel log ptr)].
  destruct (ld64 log (ptr + 8)) as [m| | |] eqn:E2; cbn [res_bind]; try done;
    [|by apply (ld64_no_fuel log (ptr + 8))].
  apply ld64_inv in E1 as [_ E1]. apply ld64_inv in E2 as [_ E2].
  assert (Hs : match (if (c =? 0) && negb (m =? REDO_LOG_MAGIC)
                      then skip_partial (scan_fuel log) log (ptr + 8) else Ok (ptr + 8)) with
    | NoFuel => False | Ok ptr' => ptr + 8 <= ptr' | _ => True end).
  { destruct (_ && _); [|lia]. apply skip_partial_total; [lia|].
    unfold scan_fuel, CACHE_LINE_WIDTH. dlia. }
  destruct (if _ && _ then _ else _) as [ptr'| | |]; cbn [res_bind]; try done.
  destruct (ld64 log ptr') as [m'| | |] eqn:E3; cbn [res_bind]; try done;
    [|by apply (ld64_no_fuel log ptr')].
  destruct (_ =? _); [|done].
  destruct (ld64 log (ptr' + 8)) as [t| | |] eqn:E4; cbn [res_bind]; try done;
    [|by apply (ld64_no_fuel log (ptr' + 8))].
  assert (Hb : match (if negb (is_nested t)
                      then obj_Play t (ptr' + 8 + 8) true (pm_load log) (pm_len log) st
                      else Ok (st, 16)) with
    | NoFuel => False | Ok r => 0 <= snd r | _ => True end).
  { destruct (negb _); [|simpl; lia]. pose proof (Hplay t (ptr' + 8 + 8) true (pm_load log) (pm_len log) st Hlen) as Hb.
    destruct (obj_Play _ _ _ _ _ _); try done. lia. }
  destruct (if negb _ then _ else _) as [[st' b]| | |]; cbn [res_bind]; try done.
  simpl in *. unfold CACHE_LINE_WIDTH. dlia.
Qed.

Lemma play_record_no_fuel objects log r st :
  play_total -> 0 <= pm_len log < 2 ^ 61 -> waits_end -> play_record objects log r st <> NoFuel.
Proof.
  intros Hplay Hlen Hwait. unfold play_record. destruct (is_nested _).
  - unfold ld_uuid. destruct (_ && _); simpl; [|done]. case_match; [|done].
    destruct (ld64 _ _) as [c| | |] eqn:E; simpl; try done; [|intros _; by apply ld64_no_fuel in E].
    match goal with |- context [await ?k c st] => pose proof (Hwait k c st) as Hw; by destruct (await k c st) end.
  - specialize (Hplay (_method_tag r) (_ptr r) false (pm_load log) (pm_len log) st Hlen).
    by destruct (obj_Play _ _ _ _ _ _).
Qed.

Lemma play_ready_no_fuel objects log q last st :
  play_total -> 0 <= pm_len log < 2 ^ 61 -> waits_end -> play_ready objects log q last st <> NoFuel.
Proof.
  intros Hplay Hlen Hwait. revert last st. induction q as [|x q IH]; intros last st; simpl; [done|].
  destruct (_ =? _); [|done].
  destruct (play_record objects log x st) as [r| | |] eqn:E; simpl; try done.
  - specialize (IH (_commit_id x) r.1).
    by destruct (play_ready objects log q (_commit_id x) r.1) as [[[[? ?] ?] ?]| | |].
  - intros _. by eapply play_record_no_fuel.
Qed.

Lemma recover_loop_no_fuel fuel objects log limit ptr q last st :
  play_total -> 0 <= pm_len log < 2 ^ 61 -> waits_end -> 0 <= ptr -> pm_len log < ptr + 64 * Z.of_nat fuel ->
  recover_loop (S fuel) objects log limit ptr q last st <> NoFuel.
Proof.
  intros Hplay Hlen Hwait. revert ptr q last st. induction fuel as [|fuel IH]; intros ptr q last st Hp Hf.
  - cbn [recover_loop]. destruct (_ <? _); [|done].
    pose proof (read_entry_total log ptr st Hplay Hlen Hp) as Hre.
    destruct (read_entry log ptr st) as [[[? ?] ?]| | |]; simpl in *; try done. lia.
  - remember (S fuel) as f. cbn [recover_loop]. destruct (_ <? _); [|done]. subst f.
    pose proof (read_entry_total log ptr st Hplay Hlen Hp) as Hre.
    destruct (read_entry log ptr st) as [[[st1 r] next]| | |]; cbn [res_bind]; try done.
    cbn [snd] in Hre.
    set (q1 := if last <? _commit_id r then queue_push r q else q).
    pose proof (play_ready_no_fuel objects log q1 last st1 Hplay Hlen Hwait) as Hpr.
    destruct (play_ready objects log q1 last st1) as [[[[st2 last2] q2] evs]| | |]; cbn [res_bind]; try done.
    specialize (IH next q2 last2 st2 ltac:(lia) ltac:(lia)).
    by destruct (recover_loop (S fuel) objects log limit next q2 last2 st2) as [[[[? ?] ?] ?]| | |].
Qed.

(** The loops of recovery terminate on every log image, however
    corrupted: if the file has less than 2^61 bytes, the class's [Play]
    returns, with a size below 2^63, and the waits for parent objects end,
    then with one iteration per cache line of the file, for the scan and for
    the search after a partial entry, recovery reaches a result (possibly a failed assertion or a fault).  Whether a wait
    ends depends on the other objects and is a hypothesis here; NestedProofs
    is about it. *)
Theorem recover_terminates ctx objects uuid_str log last st :
  play_total -> waits_end ->
  0 <= replay_start ctx uuid_str (get_field log off_head) -> 0 <= pm_len log < 2 ^ 61 ->
  Recover ctx objects uuid_str log last st <> NoFuel.
Proof.
  intros Hplay Hwait Hs Hlen. unfold Recover, replay_start in *.
  set (start := if _ =? 0 then _ else _) in *.
  assert (Hf : exists f, scan_fuel log = S f /\ pm_len log < start + 64 * Z.of_nat f).
  { exists (Z.to_nat (pm_len log / CACHE_LINE_WIDTH + 1)).
    unfold scan_fuel, CACHE_LINE_WIDTH. split; [|dlia].
    rewrite <- Z2Nat.inj_succ by dlia. f_equal. lia. }
  destruct Hf as (f & -> & Hf).
  pose proof (recover_loop_no_fuel f objects log (get_field log off_tail) start [] last st
                Hplay Hlen Hwait Hs Hf) as Hl.
  destruct (recover_loop _ _ _ _ _ _ _ _) as [[[[? ?] ?] ?]| | |]; cbn [res_bind]; try done.
  by destruct (bool_decide _).
Qed.

End Recover_proofs.
