(* ===== verification/Containers.v ===== *)
(** * Persistent containers (benchmark/persistent)

    The classes built on [PersistentObject]: vector, ordered map, map, hash
    map and priority queue of C strings.  Each container stores the [char *]
    it is given: its state holds addresses.  During replay the addresses point
    into the mapped log. *)

From stdpp Require Import base numbers list gmap strings.
From S2P Require Import Prelude Pmem Savitar NvLog Recover.

(** ** C strings *)

(** The C string a pointer designates, given the bytes from there on. *)
Fixpoint c_str (bs : list Z) : list Z :=
  match bs with
  | [] => []
  | b :: bs => if b =? 0 then [] else b :: c_str bs
  end.

(** The argument vector [{ptr, strlen(ptr) + 1}]. *)
Definition c_str_vector (bs : list Z) : list Z := c_str bs ++ [0].

(** [strlen] on a mapping of [len] bytes. *)
Fixpoint strlen_at (fuel : nat) (rd : Z -> Z) (len a : Z) : res Z :=
  match fuel with
  | O => Segfault
  | S fuel =>
      if (0 <=? a) && (a <? len) then
        if rd a =? 0 then Ok 0
        else let* n := strlen_at fuel rd len (a + 1) in Ok (n + 1)
      else Segfault
  end.

Definition strlen (rd : Z -> Z) (len a : Z) : res Z :=
  strlen_at (Z.to_nat (len - a) + 1) rd len a.

(** ** vector.hpp *)
Module PersistentVector.

Definition PushBackTag : Z := 1.
Definition classID : Z := 1.

Record t := Vector { v_vector : list Z }.

Definition push_back (v : t) (value : Z) : t := Vector (v_vector v ++ [value]).

Definition Log (tag : Z) (args : list (list Z)) : res (list (list Z)) :=
  if tag =? PushBackTag then
    match args with
    | a0 :: _ => Ok [le_bytes 8 tag; c_str_vector a0]
    | [] => Segfault
    end
  else AssertFail.

Definition Play (tag ptr : Z) (dry : bool) (rd : Z -> Z) (len : Z) (v : t) : res (t * Z) :=
  if tag =? PushBackTag then
    let value := ptr in
    let v := if negb dry then push_back v value else v in
    let* n := strlen rd len value in
    Ok (v, n + 1)
  else AssertFail.

#[global] Instance cls : PersistentClass t := {| obj_Log := Log; obj_Play := Play |}.

End PersistentVector.

(** ** map.hpp: [std::map<char *, char *, less<char *>>], keys compared by address *)
Module PersistentOrderedMap.

Definition InsertTag : Z := 1.
Definition classID : Z := 2.

Record t := OrderedMap { v_map : gmap Z Z }.

(** [std::map::insert] does not overwrite. *)
Definition insert (m : t) (key value : Z) : t :=
  match v_map m !! key with
  | Some _ => m
  | None => OrderedMap (<[key := value]> (v_map m))
  end.

Definition Log (tag : Z) (args : list (list Z)) : res (list (list Z)) :=
  if tag =? InsertTag then
    match args with
    | a0 :: a1 :: _ => Ok [le_bytes 8 tag; c_str_vector a0; c_str_vector a1]
    | _ => Segfault
    end
  else AssertFail.

Definition Play (tag ptr : Z) (dry : bool) (rd : Z -> Z) (len : Z) (m : t) : res (t * Z) :=
  if tag =? InsertTag then
    let key := ptr in
    let* k := strlen rd len key in
    let value := ptr + k + 1 in
    let m := if negb dry then insert m key value else m in
    let* n := strlen rd len value in
    Ok (m, k + n + 2)
  else AssertFail.

#[global] Instance cls : PersistentClass t := {| obj_Log := Log; obj_Play := Play |}.

End PersistentOrderedMap.

(** ** unordered_map.hpp: [std::unordered_map<char *, char *>], hashed by address *)
Module PersistentMap.

Definition InsertTag : Z := 1.
Definition classID : Z := 2.

Record t := Map { v_map : gmap Z Z }.

Definition insert (m : t) (key value : Z) : t :=
  match v_map m !! key with
  | Some _ => m
  | None => Map (<[key := value]> (v_map m))
  end.

Definition Log (tag : Z) (args : list (list Z)) : res (list (list Z)) :=
  if tag =? InsertTag then
    match args with
    | a0 :: a1 :: _ => Ok [le_bytes 8 tag; c_str_vector a0; c_str_vector a1]
    | _ => Segfault
    end
  else AssertFail.

Definition Play (tag ptr : Z) (dry : bool) (rd : Z -> Z) (len : Z) (m : t) : res (t * Z) :=
  if tag =? InsertTag then
    let key := ptr in
    let* k := strlen rd len key in
    let value := ptr + k + 1 in
    let m := if negb dry then insert m key value else m in
    let* n := strlen rd len value in
    Ok (m, k + n + 2)
  else AssertFail.

#[global] Instance cls : PersistentClass t := {| obj_Log := Log; obj_Play := Play |}.

End PersistentMap.

(** ** hash_map.hpp: 32 address-keyed maps, the bucket chosen by the contents of the key *)
Module PersistentHashMap.

Definition InsertTag : Z := 1.
Definition Buckets : Z := 32.

Record t := HashMap { vMaps : list (gmap Z Z) }.

Section hash.
(** [std::hash<std::string>] of the running C++ library. *)
Context (hash_string : list Z -> Z).

Definition bucket_of (key : list Z) : nat := Z.to_nat (hash_string key mod Buckets).

Definition insert (m : t) (key_chars : list Z) (key value : Z) : t :=
  let b := bucket_of key_chars in
  match vMaps m !! b with
  | Some mp =>
      match mp !! key with
      | Some _ => m
      | None => HashMap (<[b := <[key := value]> mp]> (vMaps m))
      end
  | None => m
  end.

Definition Log (tag : Z) (args : list (list Z)) : res (list (list Z)) :=
  if tag =? InsertTag then
    match args with
    | a0 :: a1 :: _ => Ok [le_bytes 8 tag; c_str_vector a0; c_str_vector a1]
    | _ => Segfault
    end
  else AssertFail.

Definition Play (tag ptr : Z) (dry : bool) (rd : Z -> Z) (len : Z) (m : t) : res (t * Z) :=
  if tag =? InsertTag then
    let key := ptr in
    let* k := strlen rd len key in
    let value := ptr + k + 1 in
    let m := if negb dry then insert m (rd_bytes rd key (Z.to_nat k)) key value else m in
    let* n := strlen rd len value in
    Ok (m, k + n + 2)
  else AssertFail.

Definition cls : PersistentClass t := {| obj_Log := Log; obj_Play := Play |}.

End hash.

End PersistentHashMap.

(** ** priority_queue.hpp: [std::priority_queue<char *, vector, less<char *>>] *)
Module PersistentPriorityQueue.

Definition PushTag : Z := 1.
Definition classID : Z := 3.

(** The largest address is on top: the queue is kept in decreasing order. *)
Record t := Queue { v_queue : list Z }.

Fixpoint insert_desc (x : Z) (l : list Z) : list Z :=
  match l with
  | [] => [x]
  | y :: l => if y <? x then x :: y :: l else y :: insert_desc x l
  end.

Definition push (q : t) (value : Z) : t := Queue (insert_desc value (v_queue q)).

Definition Log (tag : Z) (args : list (list Z)) : res (list (list Z)) :=
  if tag =? PushTag then
    match args with
    | a0 :: _ => Ok [le_bytes 8 tag; c_str_vector a0]
    | [] => Segfault
    end
  else AssertFail.

Definition Play (tag ptr : Z) (dry : bool) (rd : Z -> Z) (len : Z) (q : t) : res (t * Z) :=
  if tag =? PushTag then
    let value := ptr in
    let q := if negb dry then push q value else q in
    let* n := strlen rd len value in
    Ok (q, n + 1)
  else AssertFail.

#[global] Instance cls : PersistentClass t := {| obj_Log := Log; obj_Play := Play |}.

End PersistentPriorityQueue.

(** ** What replay needs of a class

    [Log] writes the tag first; [Play] on the bytes [Log] wrote reports their
    size, changes nothing in a dry run, and succeeds otherwise; and [Play]
    always returns. *)
Class PersistentClassLaws (St : Type) `{PersistentClass St} := {
  cl_tag tag args v : obj_Log tag args = Ok v -> exists rest, v = le_bytes 8 tag :: rest;
  cl_dry tag args rest rd ptr len st :
    obj_Log tag args = Ok (le_bytes 8 tag :: rest) ->
    bytes_at rd ptr (concat rest) -> 0 <= ptr -> ptr + Zlength (concat rest) <= len ->
    obj_Play tag ptr true rd len st = Ok (st, Zlength (concat rest));
  cl_play tag args rest rd ptr len st :
    obj_Log tag args = Ok (le_bytes 8 tag :: rest) ->
    bytes_at rd ptr (concat rest) -> 0 <= ptr -> ptr + Zlength (concat rest) <= len ->
    exists st', obj_Play tag ptr false rd len st = Ok (st', Zlength (concat rest));
  cl_total : play_total (St := St)
}.

(** ** C string lemmas *)

Lemma c_str_nonzero bs : Forall (fun b => b <> 0) (c_str bs).
Proof.
  induction bs as [|b bs IH]; simpl; [constructor|].
  destruct (Z.eqb_spec b 0); constructor; auto.
Qed.

Lemma strlen_at_spec s fuel rd len a rest :
  Forall (fun b => b <> 0) s -> (length s < fuel)%nat ->
  bytes_at rd a (s ++ 0 :: rest) -> 0 <= a -> a + Zlength s + 1 <= len ->
  strlen_at fuel rd len a = Ok (Zlength s).
Proof.
  intros Hs. revert fuel a. induction Hs as [|b s Hb Hs IH]; intros fuel a Hf Hat Ha Hlen;
    (destruct fuel as [|fuel]; [simpl in Hf; lia|]); cbn [strlen_at app bytes_at] in *.
  - unfold Zlength in *. simpl in *.
    rewrite (proj2 (Z.leb_le _ _)), (proj2 (Z.ltb_lt _ _)) by lia. simpl.
    destruct Hat as [-> _]. done.
  - rewrite Zlength_cons in *. pose proof (Zlength_nonneg s).
    rewrite (proj2 (Z.leb_le _ _)), (proj2 (Z.ltb_lt _ _)) by lia. simpl.
    destruct Hat as [-> Hat]. rewrite (proj2 (Z.eqb_neq _ _)) by done.
    simpl in Hf. rewrite IH; [|lia|done|lia|lia]. simpl. f_equal. lia.
Qed.

Lemma strlen_vector bs rd len a rest :
  bytes_at rd a (c_str_vector bs ++ rest) -> 0 <= a -> a + Zlength (c_str_vector bs) <= len ->
  strlen rd len a = Ok (Zlength (c_str bs)).
Proof.
  unfold c_str_vector. rewrite <- app_assoc. intros Hat Ha Hlen.
  rewrite Zlength_app in Hlen. change (Zlength [0]) with 1 in Hlen.
  unfold strlen. eapply strlen_at_spec; [apply c_str_nonzero| |exact Hat|done|lia].
  unfold Zlength in Hlen. lia.
Qed.

Lemma Zlength_c_str_vector bs : Zlength (c_str_vector bs) = Zlength (c_str bs) + 1.
Proof. unfold c_str_vector. rewrite Zlength_app. done. Qed.

Lemma strlen_at_total fuel rd len a :
  match strlen_at fuel rd len a with NoFuel => False | Ok n => 0 <= n < len - a /\ 0 <= a | _ => True end.
Proof.
  revert a. induction fuel as [|fuel IH]; intros a; simpl; [done|].
  destruct (Z.leb_spec 0 a), (Z.ltb_spec a len); simpl; try done. destruct (_ =? _); [lia|].
  specialize (IH (a + 1)). destruct (strlen_at fuel rd len (a + 1)); simpl; try done. lia.
Qed.

Lemma strlen_total rd len a :
  match strlen rd len a with NoFuel => False | Ok n => 0 <= n < len - a /\ 0 <= a | _ => True end.
Proof. apply strlen_at_total. Qed.

(** Case analysis on the call of [strlen] in a [Play]. *)
Ltac strlen_cases :=
  match goal with
  | |- context [strlen ?rd ?len ?a] =>
      let H := fresh "Hstrlen" in
      pose proof (strlen_total rd len a) as H;
      destruct (strlen rd len a); cbn [res_bind] in *; try done
  end.

(** ** One string: vector and priority queue *)

Lemma play_one_string bs rd ptr len :
  bytes_at rd ptr (concat [c_str_vector bs]) -> 0 <= ptr ->
  ptr + Zlength (concat [c_str_vector bs]) <= len ->
  strlen rd len ptr = Ok (Zlength (c_str bs)) /\
  Zlength (concat [c_str_vector bs]) = Zlength (c_str bs) + 1.
Proof.
  cbn [concat]. rewrite app_nil_r. intros Hat Hp Hl. split.
  - eapply (strlen_vector bs rd len ptr []); [by rewrite app_nil_r|done|done].
  - apply Zlength_c_str_vector.
Qed.

(** ** Two strings: the maps *)

Lemma play_two_strings b1 b2 rd ptr len :
  bytes_at rd ptr (concat [c_str_vector b1; c_str_vector b2]) -> 0 <= ptr ->
  ptr + Zlength (concat [c_str_vector b1; c_str_vector b2]) <= len ->
  strlen rd len ptr = Ok (Zlength (c_str b1)) /\
  strlen rd len (ptr + Zlength (c_str b1) + 1) = Ok (Zlength (c_str b2)) /\
  Zlength (concat [c_str_vector b1; c_str_vector b2])
    = Zlength (c_str b1) + Zlength (c_str b2) + 2.
Proof.
  cbn [concat]. rewrite app_nil_r, Zlength_app, !Zlength_c_str_vector. intros Hat Hp Hl.
  pose proof (Zlength_nonneg (c_str b1)). pose proof (Zlength_nonneg (c_str b2)).
  split; [|split; [|lia]].
  - eapply strlen_vector; [exact Hat|done|rewrite Zlength_c_str_vector; lia].
  - apply bytes_at_app in Hat as [_ Hat]. rewrite Zlength_c_str_vector in Hat.
    eapply (strlen_vector b2 rd len _ []); [|lia|rewrite Zlength_c_str_vector; lia].
    rewrite app_nil_r. by rewrite <- Z.add_assoc.
Qed.

#[export] Instance vector_laws : PersistentClassLaws PersistentVector.t.
Proof.
  split; cbn; unfold PersistentVector.Log, PersistentVector.Play.
  - intros tag args v. destruct (_ =? _); [|done]. destruct args; [done|]. intros [= <-]. eauto.
  - intros tag args rest rd ptr len st. destruct (_ =? _); [|done]. destruct args as [|a0 args]; [done|].
    intros [= <-] Hat Hp Hl. destruct (play_one_string _ _ _ _ Hat Hp Hl) as [-> ->]. done.
  - intros tag args rest rd ptr len st. destruct (_ =? _); [|done]. destruct args as [|a0 args]; [done|].
    intros [= <-] Hat Hp Hl. destruct (play_one_string _ _ _ _ Hat Hp Hl) as [-> ->]. simpl. eauto.
  - intros tag ptr dry rd len st Hlen. cbn. unfold PersistentVector.Play. destruct (_ =? _); [|done].
    strlen_cases. simpl. lia.
Qed.

#[export] Instance queue_laws : PersistentClassLaws PersistentPriorityQueue.t.
Proof.
  split; cbn; unfold PersistentPriorityQueue.Log, PersistentPriorityQueue.Play.
  - intros tag args v. destruct (_ =? _); [|done]. destruct args; [done|]. intros [= <-]. eauto.
  - intros tag args rest rd ptr len st. destruct (_ =? _); [|done]. destruct args as [|a0 args]; [done|].
    intros [= <-] Hat Hp Hl. destruct (play_one_string _ _ _ _ Hat Hp Hl) as [-> ->]. done.
  - intros tag args rest rd ptr len st. destruct (_ =? _); [|done]. destruct args as [|a0 args]; [done|].
    intros [= <-] Hat Hp Hl. destruct (play_one_string _ _ _ _ Hat Hp Hl) as [-> ->]. simpl. eauto.
  - intros tag ptr dry rd len st Hlen. cbn. unfold PersistentPriorityQueue.Play. destruct (_ =? _); [|done].
    strlen_cases. simpl. lia.
Qed.

Ltac map_laws :=
  split; cbn;
  [ intros tag args v; destruct (_ =? _); [|done]; destruct args as [|a0 [|a1 args]]; [done..|];
    intros [= <-]; eauto
  | intros tag args rest rd ptr len st; destruct (_ =? _); [|done];
    destruct args as [|a0 [|a1 args]]; [done..|];
    intros [= <-] Hat Hp Hl; destruct (play_two_strings _ _ _ _ _ Hat Hp Hl) as (-> & H2 & ->);
    cbn [res_bind]; rewrite H2; done
  | intros tag args rest rd ptr len st; destruct (_ =? _); [|done];
    destruct args as [|a0 [|a1 args]]; [done..|];
    intros [= <-] Hat Hp Hl; destruct (play_two_strings _ _ _ _ _ Hat Hp Hl) as (-> & H2 & ->);
    cbn [res_bind]; rewrite H2; simpl; eauto
  | intros tag ptr dry rd len st Hlen; cbn ].

#[export] Instance ordered_map_laws : PersistentClassLaws PersistentOrderedMap.t.
Proof.
  unfold PersistentOrderedMap.cls, PersistentOrderedMap.Log, PersistentOrderedMap.Play. map_laws.
  destruct (_ =? _); [|done]. strlen_cases. strlen_cases. simpl. lia.
Qed.

#[export] Instance map_laws_inst : PersistentClassLaws PersistentMap.t.
Proof.
  unfold PersistentMap.cls, PersistentMap.Log, PersistentMap.Play. map_laws.
  destruct (_ =? _); [|done]. strlen_cases. strlen_cases. simpl. lia.
Qed.

#[export] Instance hash_map_laws hash :
  @PersistentClassLaws PersistentHashMap.t (PersistentHashMap.cls hash).
Proof.
  unfold PersistentHashMap.cls, PersistentHashMap.Log, PersistentHashMap.Play. map_laws.
  destruct (_ =? _); [|done]. strlen_cases. strlen_cases. simpl. lia.
Qed.

(** ** Recovery of an object of any class *)

Section object_recovery.
Context {P : Type} `{PmemLaws P} `{Uuid} {St : Type} `{PersistentClassLaws St} `{NestedWait St}.
Implicit Types (log : P) (st : St).

(** The argument vectors of an outer-most call (its tag lacks the bit that
    marks nested calls). *)
Definition logged_call (v : list (list Z)) : Prop :=
  exists tag args, obj_Log tag args = Ok v /\ 0 <= tag < 2 ^ 63.

Definition call_history (ops : list log_op) : Prop :=
  Forall (fun op => match op with OpAppend v => logged_call v | OpCommit _ => True end) ops.

Definition logged_entry (e : entry) : Prop := exists v, logged_call v /\ e_body e = concat v.

Lemma spec_ops_logged len s ops s' :
  spec_ops len s ops s' -> call_history ops ->
  Forall logged_entry s.1 -> Forall logged_entry s'.1.
Proof.
  induction 1 as [|s1 op s2 ops s3 Hop _ IH]; intros Hc Hes; [done|].
  inversion Hc as [|? ? Hv Hc']; subst. apply IH; [done|]. destruct Hop; simpl in *.
  - apply Forall_app. split; [done|]. constructor; [|constructor]. by exists v.
  - apply Forall_insert; [done|]. match goal with Hi : _ !! i = Some _ |- _ => exact (Forall_lookup_1 _ _ _ _ Hes Hi) end.
Qed.

Lemma commit_ids_range es n :
  commit_ids es ≡ₚ seqZ 1 n -> n < 2 ^ 64 -> Forall (fun e => is_u64 (e_commit e)) es.
Proof.
  intros Hids Hn.
  apply Forall_forall. intros e He. destruct (decide (e_commit e = 0)) as [->|Hne]; [done|].
  assert (Hin : e_commit e ∈ commit_ids es).
  { apply list_elem_of_filter. split; [done|]. by apply list_elem_of_fmap_2. }
  rewrite Hids in Hin. apply elem_of_seqZ in Hin. unfold is_u64. lia.
Qed.

Lemma survives_logged (p1 p2 : P) es n es' n' :
  survives p1 es n p2 es' n' -> Forall logged_entry es -> Forall logged_entry es'.
Proof.
  intros [|i body p3 Hi _] Hes; [done|]. apply Forall_insert; [done|].
  exact (Forall_lookup_1 _ _ _ _ Hes Hi).
Qed.

Lemma logged_entry_tag e tag rest :
  is_u64 tag -> e_body e = concat (le_bytes 8 tag :: rest) ->
  entry_tag e = tag /\ entry_args e = concat rest /\
  (8 <= length (e_body e))%nat /\ Forall is_byte (take 8 (e_body e)).
Proof.
  intros Ht Hb. unfold entry_tag, entry_args. rewrite Hb. cbn [concat].
  assert (E : take 8 (le_bytes 8 tag ++ concat rest) = le_bytes 8 tag) by done.
  rewrite E. split; [by apply le_value_le_bytes_8|]. split; [done|]. split.
  - rewrite length_app, length_le_bytes. lia.
  - apply le_bytes_is_byte.
Qed.

(** Where the record of a logged entry lies in the file. *)
Lemma records_inv log off es r :
  r ∈ records off es -> entries_at (pm_load log) off es -> 0 <= off ->
  off + total es <= pm_len log ->
  exists e, e ∈ es /\ _method_tag r = entry_tag e /\ 0 <= _ptr r /\
    bytes_at (pm_load log) (_ptr r - 8) (e_body e) /\
    _ptr r - 8 + Zlength (e_body e) <= pm_len log.
Proof.
  revert off. induction es as [|e es IH]; intros off Hr Hat Hoff Hlen.
  - by apply not_elem_of_nil in Hr.
  - destruct Hat as (_ & _ & Hb & Hat). change (total (e :: es)) with (esize e + total es) in Hlen.
    pose proof (esize_spec e) as [_ Hsz]. pose proof (esize_ge e). pose proof (total_nonneg es).
    cbn [records] in Hr. apply elem_of_cons in Hr as [->|Hr].
    + exists e. simpl. replace (off + 24 - 8) with (off + 16) by lia.
      split; [left|]. repeat (split; [done || lia|]). lia.
    + destruct (IH (off + esize e)) as (e' & He' & Hrest); try done; [lia|lia|].
      exists e'. split; [by right|done].
Qed.

Lemma entries_ok_logged log off es :
  entries_at (pm_load log) off es -> Forall logged_entry es ->
  Forall (fun e => is_u64 (e_commit e)) es -> 0 <= off -> off + total es <= pm_len log ->
  entries_ok log off es.
Proof.
  revert off. induction es as [|e es IH]; intros off Hat Hlog Hcom Hoff Hlen; [done|].
  inversion Hlog as [|? ? He Hes]; inversion Hcom; subst. cbn [entries_ok].
  change (total (e :: es)) with (esize e + total es) in Hlen.
  pose proof (esize_ge e). pose proof (esize_spec e) as [_ Hsz]. pose proof (total_nonneg es).
  destruct Hat as (_ & _ & Hb & Hat). split; [|apply IH; try done; lia].
  destruct He as (v & (tag & args & HLog & Htag) & Hbody).
  destruct (cl_tag _ _ _ HLog) as (rest & ->).
  destruct (logged_entry_tag e tag rest) as (Et & Ea & Hl8 & Hby);
    [unfold is_u64; lia|done|].
  split; try done. rewrite Et, is_nested_plain by done. intros st. rewrite Ea.
  rewrite Hbody in Hb. cbn [concat] in Hb. apply bytes_at_app in Hb as [_ Hb].
  rewrite Zlength_le_bytes in Hb. replace (off + 16 + Z.of_nat 8) with (off + 24) in Hb by lia.
  eapply cl_dry; try done; [lia|]. rewrite <- Ea.
  rewrite (Zlength_body _ Hl8) in Hsz. lia.
Qed.

(** Playing the record of a logged entry succeeds. *)
Lemma play_record_logged objects log off es r st :
  r ∈ records off es -> entries_at (pm_load log) off es -> Forall logged_entry es ->
  0 <= off -> off + total es <= pm_len log ->
  exists st', play_record objects log r st = Ok (st', EvPlay (_method_tag r) (_ptr r)).
Proof.
  intros Hr Hat Hlog Hoff Hlen.
  destruct (records_inv log off es r Hr Hat Hoff Hlen) as (e & He & Ht & Hp & Hb & Hend).
  rewrite Forall_forall in Hlog. destruct (Hlog _ He) as (v & (tag & args & HLog & Htag) & Hbody).
  destruct (cl_tag _ _ _ HLog) as (rest & ->).
  destruct (logged_entry_tag e tag rest) as (Et & Ea & Hl8 & _); [unfold is_u64; lia|done|].
  unfold play_record. rewrite Ht, Et, is_nested_plain by done.
  rewrite Hbody in Hb. cbn [concat] in Hb. apply bytes_at_app in Hb as [_ Hb].
  rewrite Zlength_le_bytes in Hb. replace (_ptr r - 8 + Z.of_nat 8) with (_ptr r) in Hb by lia.
  destruct (cl_play tag args rest (pm_load log) (_ptr r) (pm_len log) st) as (st' & ->); try done.
  - rewrite <- Ea. pose proof (Zlength_body _ Hl8). lia.
  - simpl. eauto.
Qed.

Lemma play_all_logged objects log off es l st :
  (forall r, r ∈ l -> r ∈ records off es) -> entries_at (pm_load log) off es ->
  Forall logged_entry es -> 0 <= off -> off + total es <= pm_len log ->
  exists st', play_all objects log l st
    = Ok (st', (fun r => EvPlay (_method_tag r) (_ptr r)) <$> l).
Proof.
  intros Hl Hat Hlog Hoff Hlen. revert st. induction l as [|r l IH]; intros st; simpl; [eauto|].
  destruct (play_record_logged objects log off es r st) as (st1 & ->); try done; [apply Hl; left|].
  simpl. destruct (IH ltac:(intros; apply Hl; by right) st1) as (st2 & ->). simpl. eauto.
Qed.

(** [C12] Recovery of an object of any class whose [Log] and [Play] agree
    ([PersistentClassLaws]).  For every history of outer-most calls logged by
    the class and of commits, in which every entry but the last is followed
    by padding (in bytes: 16 plus the length of its argument vectors is not a
    multiple of 64), and every power failure between two operations or inside
    a commit, recovery returns without failing, in the state and with the
    events that playing exactly the committed calls (with or without the
    commit that was being written), once each and in commit order, leads to. *)
Theorem object_recovery_after_crash objects uuid_str p ops es n p1 p2 p' st :
  log_repr p [] 0 -> log_durable p -> call_history ops ->
  spec_ops (pm_len p) ([], 0) ops (es, n) -> padded_but_last es ->
  run_ops p ops = Ok p1 -> stopped p1 es n p2 -> pm_crash p2 p' ->
  n + 1 < 2 ^ 64 - 1 ->
  exists es' n' l st',
    survives p1 es n p2 es' n' /\
    l ≡ₚ filter (fun r => 0 < _commit_id r) (records sizeof_RedoLog es') /\
    _commit_id <$> l = seqZ 1 n' /\
    play_all objects p' l st = Ok (st', (fun r => EvPlay (_method_tag r) (_ptr r)) <$> l) /\
    Recover RecoveryContext.init objects uuid_str p' 0 st =
      Ok (st', n', (fun r => EvPlay (_method_tag r) (_ptr r)) <$> l).
Proof.
  intros Hr Hd Hcalls Hs Hpad Hrun Hst Hc Hn.
  destruct (history_image p ops es n p1 p2 p' Hr Hd Hs Hrun Hst Hc) as (es' & n' & Hsv & Hi & Hids & Hn' & Hn0).
  pose proof (spec_ops_logged _ _ _ _ Hs Hcalls ltac:(constructor)) as Hlog. cbn [fst] in Hlog.
  pose proof (survives_logged _ _ _ _ _ _ Hsv Hlog) as Hlog'.
  pose proof (commit_ids_range es' n' Hids ltac:(lia)) as Hcom.
  destruct Hi as [Hhead Htail Hfits Hent].
  assert (Hok : entries_ok p' sizeof_RedoLog es') by (apply entries_ok_logged; done).
  assert (Hp' : padded_but_last es').
  { destruct Hsv as [|i body p3 Hi _]; [done|]. eapply padded_bodies; [|done].
    rewrite list_fmap_insert. apply list_insert_id. by rewrite list_lookup_fmap, Hi. }
  destruct (recovery_of_image objects uuid_str p' es' n' st) as (l & Hl & Ho & HR); try done; [lia|].
  destruct (play_all_logged objects p' sizeof_RedoLog es' l st) as (st' & Hplay); try done.
  { intros r Hr'. rewrite Hl in Hr'. by apply list_elem_of_filter in Hr' as [_ ?]. }
  exists es', n', l, st'. rewrite Hplay in HR. done.
Qed.

End object_recovery.

(** ** A vector across a power failure *)

Section vector_recovery.
Context {P : Type} `{PmemLaws P} `{Uuid} `{NestedWait PersistentVector.t}.
Import PersistentVector.

(** The log side of one [push_back]: the persister runs [Log], the worker
    commits the entry at the offset it got. *)
Definition push_one (log : P) (s : list Z) : res P :=
  let* v := Log PushBackTag [s] in
  let* r := Savitar_log_append log v in
  Savitar_log_commit (fst r) (snd r).

Fixpoint push_all (log : P) (vals : list (list Z)) : res P :=
  match vals with
  | [] => Ok log
  | s :: vals => let* log := push_one log s in push_all log vals
  end.

Definition push_entry (c : Z) (s : list Z) : entry :=
  Entry c (le_bytes 8 PushBackTag ++ c_str_vector s).

Fixpoint push_entries (c : Z) (vals : list (list Z)) : list entry :=
  match vals with
  | [] => []
  | s :: vals => push_entry c s :: push_entries (c + 1) vals
  end.

(** The value at [ptr] of a mapping is the string [s]. *)
Definition points_to_string (log : P) (ptr : Z) (s : list Z) : Prop :=
  bytes_at (pm_load log) ptr (c_str_vector s).

Lemma push_one_refines (p : P) es n s :
  log_repr p es n -> log_durable p -> n + 1 < UINT64_MAX ->
  sizeof_RedoLog + total es + esize (push_entry 0 s) <= pm_len p ->
  exists p', push_one p s = Ok p' /\ log_repr p' (es ++ [push_entry (n + 1) s]) (n + 1) /\
    log_durable p' /\ pm_len p' = pm_len p.
Proof.
  intros Hr Hd Hn Hfit. unfold push_one. cbn [Log]. unfold Log. rewrite Z.eqb_refl. cbn [res_bind].
  set (v := [le_bytes 8 PushBackTag; c_str_vector s]).
  assert (Hcat : concat v = le_bytes 8 PushBackTag ++ c_str_vector s)
    by (unfold v; cbn [concat]; by rewrite app_nil_r).
  assert (Hs1 : spec_op (pm_len p) (es, n) (OpAppend v) (es ++ [push_entry 0 s], n)).
  { unfold push_entry. rewrite <- Hcat. constructor; [done|]. by rewrite Hcat. }
  destruct (run_op_refines _ _ _ _ _ _ Hr Hd Hs1) as (p1 & Hrun1 & Hr1 & Hd1 & Hl1).
  assert (Hoff : entry_off (es ++ [push_entry 0 s]) (length es) = sizeof_RedoLog + total es)
    by apply entry_off_length.
  assert (Hs2 : spec_op (pm_len p1) (es ++ [push_entry 0 s], n)
                  (OpCommit (sizeof_RedoLog + total es)) (es ++ [push_entry (n + 1) s], n + 1)).
  { rewrite <- Hoff.
    replace (es ++ [push_entry (n + 1) s])
      with (<[length es := push_entry (n + 1) s]> (es ++ [push_entry 0 s]))
      by (by rewrite insert_app_r_alt, Nat.sub_diag by lia).
    constructor; [|done]. apply list_lookup_middle. done. }
  destruct (run_op_refines _ _ _ _ _ _ Hr1 Hd1 Hs2) as (p2 & Hrun2 & Hr2 & Hd2 & Hl2).
  exists p2. cbn [run_op] in *.
  rewrite (append_unfold p v es n) in * by (done || by rewrite Hcat).
  cbn [res_bind fst snd] in *. apply Ok_inj in Hrun1. rewrite Hrun1, Hrun2.
  repeat (split; [done|]). congruence.
Qed.

Lemma total_push_cons es c s vals :
  total es + total (push_entries c (s :: vals))
  = total (es ++ [push_entry c s]) + total (push_entries (c + 1) vals).
Proof. rewrite total_app. cbn [push_entries]. simpl. lia. Qed.

Lemma push_all_refines vals (p : P) es n :
  log_repr p es n -> log_durable p -> n + Zlength vals < UINT64_MAX ->
  sizeof_RedoLog + total es + total (push_entries (n + 1) vals) <= pm_len p ->
  exists p', push_all p vals = Ok p' /\
    log_repr p' (es ++ push_entries (n + 1) vals) (n + Zlength vals) /\
    log_durable p' /\ pm_len p' = pm_len p.
Proof.
  revert p es n. induction vals as [|s vals IH]; intros p es n Hr Hd Hn Hfit.
  - exists p. simpl. rewrite app_nil_r. change (Zlength []) with 0. rewrite Z.add_0_r. done.
  - rewrite Zlength_cons in *. pose proof (Zlength_nonneg vals).
    pose proof (total_nonneg (push_entries (n + 1 + 1) vals)).
    rewrite <- Z.add_assoc, total_push_cons in Hfit. rewrite total_app in Hfit.
    destruct (push_one_refines p es n s Hr Hd) as (p1 & Hp1 & Hr1 & Hd1 & Hl1); [lia| |].
    { change (esize (push_entry 0 s)) with (esize (push_entry (n + 1) s)).
      change (total [push_entry (n + 1) s]) with (esize (push_entry (n + 1) s) + 0) in Hfit. lia. }
    cbn [push_all]. rewrite Hp1. cbn [res_bind].
    destruct (IH p1 (es ++ [push_entry (n + 1) s]) (n + 1) Hr1 Hd1) as (p2 & Hp2 & Hr2 & Hd2 & Hl2);
      [lia|rewrite Hl1, total_app; lia|].
    exists p2. rewrite Hp2. split; [done|].
    rewrite <- app_assoc in Hr2. replace (n + (1 + Zlength vals)) with (n + 1 + Zlength vals) by lia.
    split; [done|]. split; [done|congruence].
Qed.

(** The entry of a string ends on a cache line when its length is 39 modulo
    64 (commit word, magic, tag and the terminating zero make 25 bytes). *)
Lemma push_entry_line c s : ends_on_line (push_entry c s) = (Zlength (c_str s) mod 64 =? 39).
Proof.
  unfold ends_on_line, push_entry. cbn [e_body]. rewrite Zlength_app, Zlength_le_bytes, Zlength_c_str_vector.
  pose proof (Zlength_nonneg (c_str s)). destruct (Z.eqb_spec (Zlength (c_str s) mod 64) 39); [apply Z.eqb_eq|apply Z.eqb_neq]; dlia.
Qed.

Lemma push_entries_padded vals c :
  Forall (fun s => Zlength (c_str s) mod 64 <> 39) (removelast vals) -> padded_but_last (push_entries c vals).
Proof.
  unfold padded_but_last. revert c. induction vals as [|s vals IH]; intros c Hp; [constructor|].
  destruct vals as [|s2 vals]; [constructor|].
  change (removelast (s :: s2 :: vals)) with (s :: removelast (s2 :: vals)) in Hp.
  apply Forall_cons in Hp as [Hs Hp]. specialize (IH (c + 1) Hp). cbn [push_entries] in *.
  change (Forall (fun e => ends_on_line e = false)
    (push_entry c s :: removelast (push_entry (c + 1) s2 :: push_entries (c + 1 + 1) vals))).
  apply Forall_cons. split; [|exact IH]. rewrite push_entry_line. by apply Z.eqb_neq.
Qed.

Lemma push_entries_ok (log : P) vals off c :
  entries_at (pm_load log) off (push_entries c vals) ->
  0 <= off -> off + total (push_entries c vals) <= pm_len log ->
  0 < c -> c + Zlength vals < 2 ^ 64 ->
  entries_ok (St := t) log off (push_entries c vals).
Proof.
  intros Hat Hoff Hlen Hc Hb. apply entries_ok_logged; try done.
  - clear. revert c. induction vals as [|s vals IH]; intros c; [constructor|].
    constructor; [|apply IH]. exists [le_bytes 8 PushBackTag; c_str_vector s]. split.
    + exists PushBackTag, [s]. split; [done|]. unfold PushBackTag; lia.
    + cbn [concat]. by rewrite app_nil_r.
  - clear -Hc Hb. revert c Hc Hb. induction vals as [|s vals IH]; intros c Hc Hb; [constructor|].
    rewrite Zlength_cons in Hb. pose proof (Zlength_nonneg vals).
    constructor; [cbn; unfold is_u64; lia|]. apply IH; lia.
Qed.

Lemma push_records_order vals off c :
  _commit_id <$> records off (push_entries (c + 1) vals) = seqZ (c + 1) (Zlength vals).
Proof.
  rewrite records_ids. revert c. clear off. induction vals as [|s vals IH]; intros c; [done|].
  rewrite Zlength_cons. pose proof (Zlength_nonneg vals). rewrite seqZ_cons by lia.
  cbn [push_entries]. rewrite fmap_cons. f_equal.
  rewrite IH. f_equal; lia.
Qed.

Lemma records_filter_all last (rs : list CommitRecord) :
  (forall r, r ∈ rs -> last < _commit_id r) ->
  filter (fun r => last < _commit_id r) rs = rs.
Proof.
  induction rs as [|r rs IH]; intros Hall; [done|].
  rewrite filter_cons_True by (apply Hall; left). f_equal. apply IH. intros. apply Hall. by right.
Qed.

Lemma play_all_pushes objects (log : P) vals off c st :
  entries_at (pm_load log) off (push_entries c vals) -> 0 <= off ->
  off + total (push_entries c vals) <= pm_len log ->
  exists evs,
    play_all objects log (records off (push_entries c vals)) st
      = Ok (Vector (v_vector st ++ (_ptr <$> records off (push_entries c vals))), evs) /\
    Forall2 (points_to_string log) (_ptr <$> records off (push_entries c vals)) vals.
Proof.
  revert off c st. induction vals as [|s vals IH]; intros off c st Hat Hoff Hlen; cbn [push_entries records].
  - exists []. cbn. rewrite app_nil_r. destruct st. done.
  - destruct Hat as (_ & _ & Hb & Hat).
    change (total (push_entries c (s :: vals)))
      with (esize (push_entry c s) + total (push_entries (c + 1) vals)) in Hlen.
    pose proof (esize_ge (push_entry c s)). pose proof (esize_spec (push_entry c s)) as [_ Hsz].
    pose proof (total_nonneg (push_entries (c + 1) vals)).
    cbn [push_entry e_body] in Hb, Hsz. rewrite Zlength_app, Zlength_le_bytes in Hsz.
    apply bytes_at_app in Hb as [_ Hb]. rewrite Zlength_le_bytes in Hb.
    replace (off + 16 + Z.of_nat 8) with (off + 24) in Hb by lia.
    destruct (logged_entry_tag (push_entry c s) PushBackTag [c_str_vector s]) as (Et & _ & _ & _);
      [unfold is_u64, PushBackTag; lia|cbn; by rewrite app_nil_r|].
    destruct (IH (off + esize (push_entry c s)) (c + 1) (Vector (v_vector st ++ [off + 24])))
      as (evs & Hplay & Hpts); try done; [lia|lia|].
    eexists. cbn [play_all]. unfold play_record. cbn [_method_tag _ptr].
    rewrite Et, is_nested_plain by (unfold PushBackTag; lia). cbn [obj_Play cls]. unfold Play.
    rewrite Z.eqb_refl. cbn [negb]. rewrite (strlen_vector s _ _ _ []);
      [|by rewrite app_nil_r|lia|lia].
    cbn [res_bind fst snd]. unfold push_back. rewrite Hplay. cbn [res_bind fst snd v_vector].
    rewrite <- app_assoc, fmap_cons. split; [done|]. constructor; done.
Qed.

(** [C13] A persistent vector survives a power failure: push C strings onto
    an empty vector whose log has room for them, none of them but the last of
    a length that is 39 modulo 64 (their entries would end on a cache line,
    see [vector_loses_value]), lose power after the last push, recover; the
    recovered vector holds, in order, pointers to copies of exactly the
    pushed strings. *)
Theorem vector_survives_crash objects uuid_str (p : P) vals p1 p' :
  log_repr p [] 0 -> log_durable p -> Zlength vals < UINT64_MAX ->
  Forall (fun s => Zlength (c_str s) mod 64 <> 39) (removelast vals) ->
  sizeof_RedoLog + total (push_entries 1 vals) <= pm_len p ->
  push_all p vals = Ok p1 -> pm_crash p1 p' ->
  exists ptrs evs,
    Recover RecoveryContext.init objects uuid_str p' 0 (Vector []) =
      Ok (Vector ptrs, Zlength vals, evs) /\
    Forall2 (points_to_string p') ptrs vals.
Proof.
  intros Hr Hd Hn Hpad Hfit Hpush Hc. pose proof (Zlength_nonneg vals).
  destruct (push_all_refines vals p [] 0 Hr Hd) as (p1' & Hp1 & Hr1 & Hd1 & Hl1); [lia|done|].
  rewrite Hpush in Hp1. injection Hp1 as <-.
  destruct (log_crash_facts _ _ _ _ Hr1 Hd1 Hc) as (Hlen & _ & Hhead & Htail & Hent & _).
  cbn [app] in *. change (0 + 1) with 1 in *. pose proof (lr_fits _ _ _ Hr1) as Hfits.
  rewrite <- Hlen in Hfits. unfold UINT64_MAX in Hn.
  destruct (play_all_pushes objects p' vals sizeof_RedoLog 1 (Vector []) Hent) as (evs & Hplay & Hpts);
    [done|done|].
  exists (_ptr <$> records sizeof_RedoLog (push_entries 1 vals)), evs. split; [|done].
  rewrite (replay_commit_order RecoveryContext.init objects uuid_str p' [] (push_entries 1 vals) 0
             (Zlength vals) (records sizeof_RedoLog (push_entries 1 vals))); try done; try lia.
  - by rewrite Hplay.
  - apply push_entries_ok; try done; lia.
  - by apply push_entries_padded.
  - rewrite records_filter_all; [done|]. intros r Hr'.
    eapply (in_order_ids 0); [|exact Hr']. unfold in_order. apply (push_records_order vals _ 0).
  - unfold in_order. apply (push_records_order vals _ 0).
Qed.

(** What the condition excludes: push a string whose length is 39 modulo 64
    and then one of at most 38 bytes; after a power failure recovery reports
    success, with a vector that has lost the second value. *)
Lemma vector_loses_value objects uuid_str (p : P) s1 s2 p1 p' :
  log_repr p [] 0 -> log_durable p ->
  sizeof_RedoLog + total (push_entries 1 [s1; s2]) <= pm_len p ->
  Zlength (c_str s1) mod 64 = 39 -> Zlength (c_str s2) < 39 ->
  push_all p [s1; s2] = Ok p1 -> pm_crash p1 p' ->
  exists ptr evs,
    Recover RecoveryContext.init objects uuid_str p' 0 (Vector []) = Ok (Vector [ptr], 1, evs) /\
    points_to_string p' ptr s1.
Proof.
  intros Hr Hd Hfit H1' H2' Hpush Hc. pose proof (Zlength_nonneg (c_str s2)).
  destruct (push_all_refines [s1; s2] p [] 0 Hr Hd) as (p1' & Hp1 & Hr1 & Hd1 & Hl1); [done|done|].
  rewrite Hpush in Hp1. injection Hp1 as <-.
  destruct (log_crash_facts _ _ _ _ Hr1 Hd1 Hc) as (Hlen & _ & Hhead & Htail & Hent & _).
  cbn [app] in *. change (0 + 1) with 1 in *. pose proof (lr_fits _ _ _ Hr1) as Hfits. rewrite <- Hlen in Hfits.
  assert (Hent1 : entries_at (pm_load p') sizeof_RedoLog (push_entries 1 [s1])).
  { change (push_entries 1 [s1; s2]) with (push_entries 1 [s1] ++ push_entries 2 [s2]) in Hent.
    by apply entries_at_app in Hent as [? _]. }
  pose proof (esize_ge (push_entry 2 s2)) as Hge.
  change (total (push_entries 1 [s1; s2])) with (esize (push_entry 1 s1) + (esize (push_entry 2 s2) + 0)) in Hfits.
  destruct (play_all_pushes objects p' [s1] sizeof_RedoLog 1 (Vector []) Hent1) as (evs & Hplay & Hpts);
    [done|change (total (push_entries 1 [s1])) with (esize (push_entry 1 s1) + 0); lia|].
  assert (Hsz : esize (push_entry 2 s2) = CACHE_LINE_WIDTH).
  { pose proof (esize_spec (push_entry 2 s2)) as [Hm Hsz].
    assert (Hb : Zlength (e_body (push_entry 2 s2)) = 8 + (Zlength (c_str s2) + 1))
      by (cbn [push_entry e_body]; by rewrite Zlength_app, Zlength_le_bytes, Zlength_c_str_vector).
    rewrite Hb in Hsz. unfold CACHE_LINE_WIDTH. dlia. }
  exists (sizeof_RedoLog + 24), evs. split; [|by apply Forall2_cons in Hpts as [? _]].
  rewrite (replay_seen RecoveryContext.init objects uuid_str p' [] (push_entries 1 [s1; s2])
             (records sizeof_RedoLog (push_entries 1 [s1])) 0 1 (records sizeof_RedoLog (push_entries 1 [s1])));
    try done; try lia.
  - by rewrite Hplay.
  - apply push_entries_ok; try done.
  - cbn [push_entries seen]. rewrite push_entry_line, H1'. change (1 + 1) with 2. by rewrite Hsz.
Qed.

End vector_recovery.

(** ** Concrete instances *)

(** In the examples no object is a parent: a wait would meet an object that
    is not recovering. *)
#[export] Instance vector_wait : NestedWait PersistentVector.t := fun _ _ _ => AssertFail.

(** Two calls of [push_back], the second one committed first. *)
Definition demo_calls : list log_op :=
  [OpAppend [le_bytes 8 1; [104; 105; 0]]; OpAppend [le_bytes 8 1; [7; 0]]; OpCommit 128; OpCommit 64].
Definition demo_calls_entries : list entry :=
  [Entry 2 (le_bytes 8 1 ++ [104; 105; 0]); Entry 1 (le_bytes 8 1 ++ [7; 0])].
Definition demo_calls_log : CacheMem.t := res_get demo_log (run_ops demo_log demo_calls).
Definition demo_image : CacheMem.t := CacheMem.lose_cache demo_calls_log.

Lemma demo_calls_history : spec_ops (pm_len demo_log) ([], 0) demo_calls (demo_calls_entries, 2).
Proof.
  set (e1 := Entry 0 (le_bytes 8 1 ++ [104; 105; 0])). set (e2 := Entry 0 (le_bytes 8 1 ++ [7; 0])).
  eapply spec_cons; [apply (spec_append _ [] 0 [le_bytes 8 1; [104; 105; 0]]); [done|by_eval]|].
  eapply spec_cons; [apply (spec_append _ [e1] 0 [le_bytes 8 1; [7; 0]]); [done|by_eval]|].
  eapply spec_cons; [apply (spec_commit _ [e1; e2] 0 1 (e_body e2)); [done|by_eval]|].
  eapply spec_cons; [|apply spec_nil].
  apply (spec_commit _ [e1; Entry 1 (e_body e2)] 1 0 (e_body e1)); [done|by_eval].
Defined.

Lemma demo_calls_run : run_ops demo_log demo_calls = Ok demo_calls_log.
Proof. by vm_compute. Defined.

Lemma demo_calls_facts : log_repr demo_calls_log demo_calls_entries 2 /\ log_durable demo_calls_log.
Proof.
  destruct (run_ops_refines _ _ _ _ _ _ demo_log_repr demo_log_durable demo_calls_history)
    as (p & Hp & Hr & Hd & _).
  apply (res_get_Ok demo_log _ (fun q => log_repr q demo_calls_entries 2 /\ log_durable q)).
  exact (ex_intro _ p (conj Hp (conj Hr Hd))).
Defined.

Lemma demo_calls_logged : Forall (logged_entry (St := PersistentVector.t)) demo_calls_entries.
Proof.
  apply Forall_cons; split; [|apply Forall_cons; split; [|apply Forall_nil; exact I]].
  - exists [le_bytes 8 1; [104; 105; 0]]. split; [|reflexivity].
    exists 1, [[104; 105]]. split; [reflexivity|split; by_eval].
  - exists [le_bytes 8 1; [7; 0]]. split; [|reflexivity].
    exists 1, [[7]]. split; [reflexivity|split; by_eval].
Defined.

Lemma demo_image_facts :
  log_image demo_image demo_calls_entries /\
  entries_ok (St := PersistentVector.t) demo_image sizeof_RedoLog demo_calls_entries.
Proof.
  destruct demo_calls_facts as [Hr Hd].
  destruct (log_crash_facts _ _ _ _ Hr Hd (CacheMem.lose_cache_crash demo_calls_log))
    as (Hlen & _ & Hhead & Htail & Hent & _).
  assert (Hfit : sizeof_RedoLog + total demo_calls_entries <= pm_len demo_image)
    by (unfold demo_image; rewrite Hlen; exact (lr_fits _ _ _ Hr)).
  split; [constructor; [exact Hhead|exact Htail|exact Hfit|exact Hent]|].
  apply entries_ok_logged; [exact Hent|apply demo_calls_logged| |by_eval|exact Hfit].
  repeat (apply Forall_cons; split; [split; by_eval|]). apply Forall_nil; exact I.
Defined.


Lemma demo_padded : padded_but_last demo_calls_entries.
Proof. repeat constructor. Defined.

Lemma recovery_after_crash_witness :
  exists es' n' l,
    survives demo_calls_log demo_calls_entries 2 demo_calls_log es' n' /\
    l ≡ₚ filter (fun r => 0 < _commit_id r) (records sizeof_RedoLog es') /\
    _commit_id <$> l = seqZ 1 n' /\
    Recover RecoveryContext.init ∅ "v" demo_image 0 (PersistentVector.Vector []) =
      let* r := play_all ∅ demo_image l (PersistentVector.Vector []) in Ok (fst r, n', snd r).
Proof.
  apply (recovery_after_crash ∅ "v" demo_log demo_calls demo_calls_entries 2 demo_calls_log demo_calls_log demo_image);
    [apply demo_log_repr|apply demo_log_durable|apply demo_calls_history|apply demo_calls_run|apply stopped_idle
    |apply CacheMem.lose_cache_crash|apply demo_image_facts|apply demo_padded|by_eval].
Defined.

Lemma recover_terminates_witness :
  Recover RecoveryContext.init ∅ "v" (pm_store demo_image 64 [1; 2; 3]) 0 (PersistentVector.Vector [])
    <> NoFuel.
Proof.
  apply (recover_terminates (St := PersistentVector.t));
    [apply cl_total|intros parent c st; discriminate|by_eval|split; by_eval].
Defined.

(** A call whose entry ends on a cache line, and a short call after it. *)
Definition demo_line : list (list Z) := [le_bytes 8 1; replicate 39 65 ++ [0]].
Definition demo_line_calls : list log_op :=
  [OpAppend demo_line; OpCommit 64; OpAppend [le_bytes 8 1; [7; 0]]; OpCommit 128].
Definition demo_line_entry : entry := Entry 1 (le_bytes 8 1 ++ replicate 39 65 ++ [0]).
Definition demo_line_next : entry := Entry 2 (le_bytes 8 1 ++ [7; 0]).
Definition demo_line_log : CacheMem.t := res_get demo_log (run_ops demo_log demo_line_calls).
Definition demo_line_image : CacheMem.t := CacheMem.lose_cache demo_line_log.

Lemma demo_line_history : spec_ops (pm_len demo_log) ([], 0) demo_line_calls ([demo_line_entry; demo_line_next], 2).
Proof.
  set (e1 := Entry 0 (e_body demo_line_entry)). set (e2 := Entry 0 (e_body demo_line_next)).
  eapply spec_cons; [apply (spec_append _ [] 0 demo_line); [done|by_eval]|].
  eapply spec_cons; [apply (spec_commit _ [e1] 0 0 (e_body e1)); [done|by_eval]|].
  eapply spec_cons; [apply (spec_append _ [demo_line_entry] 1 [le_bytes 8 1; [7; 0]]); [done|by_eval]|].
  eapply spec_cons; [|apply spec_nil].
  apply (spec_commit _ [demo_line_entry; e2] 1 1 (e_body e2)); [done|by_eval].
Defined.

Lemma demo_line_run : run_ops demo_log demo_line_calls = Ok demo_line_log.
Proof. by vm_compute. Defined.

Lemma demo_line_facts :
  log_repr demo_line_log [demo_line_entry; demo_line_next] 2 /\ log_durable demo_line_log.
Proof.
  destruct (run_ops_refines _ _ _ _ _ _ demo_log_repr demo_log_durable demo_line_history) as (p & Hp & Hr & Hd & _).
  apply (res_get_Ok demo_log _ (fun q => log_repr q [demo_line_entry; demo_line_next] 2 /\ log_durable q)).
  exact (ex_intro _ p (conj Hp (conj Hr Hd))).
Defined.

Lemma demo_line_ok : entries_ok (St := PersistentVector.t) demo_line_image sizeof_RedoLog [demo_line_entry; demo_line_next].
Proof.
  destruct demo_line_facts as [Hr Hd].
  destruct (log_crash_facts _ _ _ _ Hr Hd (CacheMem.lose_cache_crash demo_line_log)) as (Hlen & _ & _ & _ & Hent & _).
  apply entries_ok_logged; [exact Hent| |repeat (apply Forall_cons; split; [split; by_eval|]); apply Forall_nil; exact I|by_eval|by_eval].
  apply Forall_cons; split; [|apply Forall_cons; split; [|apply Forall_nil; exact I]].
  - exists demo_line. split; [|reflexivity]. exists 1, [replicate 39 65]. split; [reflexivity|split; by_eval].
  - exists [le_bytes 8 1; [7; 0]]. split; [|reflexivity]. exists 1, [[7]]. split; [reflexivity|split; by_eval].
Defined.


(** An append interrupted when only the line of the header had left the
    cache. *)
Definition demo_torn_stores : CacheMem.t := res_get demo_log (let* r := append_stores demo_log1 [[7; 0]] in Ok (fst r)).
Definition demo_torn_image : CacheMem.t := CacheMem.lose_cache (CacheMem.persist demo_torn_stores 0 64).

Lemma evict_header_crash p : CacheMem.crash p (CacheMem.lose_cache (CacheMem.persist p 0 64)).
Proof.
  split; [reflexivity|]. split; [reflexivity|]. intros w.
  cbn [CacheMem.lose_cache CacheMem.persist CacheMem.cur CacheMem.nvm].
  change (CacheMem.line_base 0) with 0. change (CacheMem.line_span 0 64) with 64%nat.
  destruct (decide (0 <= w < 8)) as [Hw|Hw]; [right|left]; intros a Ha; unfold in_range in Ha.
  - apply CacheMem.get_copy_in. unfold in_range. lia.
  - unfold CacheMem.copy. rewrite CacheMem.get_write_other; [reflexivity|].
    unfold in_range, Zlength. rewrite length_rd_bytes. lia.
Qed.

Lemma append_crash_witness :
  get_field demo_torn_image off_tail = 192 /\
  forall r, Recover RecoveryContext.init ∅ "v" demo_torn_image 0 (PersistentVector.Vector []) <> Ok r.
Proof.
  split; [by_eval|]. destruct demo_log1_facts as [Hr Hd].
  apply (append_crash ∅ "v" demo_log1 demo_entries 1 [[7; 0]] demo_torn_stores 128 demo_torn_image);
    [exact Hr|exact Hd|done|by_eval|by vm_compute|apply evict_header_crash| |repeat constructor|reflexivity|by_eval|by_eval|].
  - split; [|exact I]. split; [apply Nat.leb_le; reflexivity|apply (le_bytes_is_byte 8 1)|split; by_eval|].
    intros st. by vm_compute.
  - intros a Ha.
    assert (Hz : map_Forall (fun k v => k < 128 \/ v = 0) (CacheMem.cur demo_torn_image)) by (apply map_Forall_to_list; vm_compute; repeat constructor; auto).
    change (pm_load demo_torn_image a) with (default 0 (CacheMem.cur demo_torn_image !! a)).
    destruct (CacheMem.cur demo_torn_image !! a) as [v|] eqn:E; [|reflexivity].
    destruct (Hz a v E) as [Hlt|Hv]; [|exact Hv]. unfold sizeof_RedoLog in Ha. exfalso. revert Ha Hlt.
    change (total demo_entries) with 64. lia.
Defined.

Lemma demo_calls_calls : call_history (St := PersistentVector.t) demo_calls.
Proof.
  apply Forall_cons; split; [exists 1, [[104; 105]]; split; [reflexivity|split; by_eval]|].
  apply Forall_cons; split; [exists 1, [[7]]; split; [reflexivity|split; by_eval]|].
  repeat (apply Forall_cons; split; [exact I|]). apply Forall_nil; exact I.
Defined.

Lemma object_recovery_after_crash_witness :
  exists es' n' l st',
    survives demo_calls_log demo_calls_entries 2 demo_calls_log es' n' /\
    l ≡ₚ filter (fun r => 0 < _commit_id r) (records sizeof_RedoLog es') /\
    _commit_id <$> l = seqZ 1 n' /\
    play_all ∅ demo_image l (PersistentVector.Vector [])
      = Ok (st', (fun r => EvPlay (_method_tag r) (_ptr r)) <$> l) /\
    Recover RecoveryContext.init ∅ "v" demo_image 0 (PersistentVector.Vector []) =
      Ok (st', n', (fun r => EvPlay (_method_tag r) (_ptr r)) <$> l).
Proof.
  apply (object_recovery_after_crash ∅ "v" demo_log demo_calls demo_calls_entries 2 demo_calls_log demo_calls_log
           demo_image);
    [apply demo_log_repr|apply demo_log_durable|apply demo_calls_calls|apply demo_calls_history|apply demo_padded
    |apply demo_calls_run|apply stopped_idle|apply CacheMem.lose_cache_crash|by_eval].
Defined.

Definition demo_vals : list (list Z) := [[104; 105]; [7]; []].
Definition demo_pushed : CacheMem.t := res_get demo_log (push_all demo_log demo_vals).

Lemma vector_survives_crash_witness :
  exists ptrs evs,
    Recover RecoveryContext.init ∅ "v" (CacheMem.lose_cache demo_pushed) 0 (PersistentVector.Vector []) =
      Ok (PersistentVector.Vector ptrs, 3, evs) /\
    Forall2 (points_to_string (CacheMem.lose_cache demo_pushed)) ptrs demo_vals.
Proof.
  apply (vector_survives_crash ∅ "v" demo_log demo_vals demo_pushed (CacheMem.lose_cache demo_pushed));
    [apply demo_log_repr|apply demo_log_durable|by_eval| |by_eval|by vm_compute
    |apply CacheMem.lose_cache_crash].
  repeat (apply Forall_cons; split; [by_eval|]). apply Forall_nil; exact I.
Defined.
