(* ===== verification/Tx.v ===== *)
(** * Transactions: worker threads and their persisters (thread.cpp,
    persister.cpp)

    Every worker thread shares two buffers with a persister (logger) thread:
    [sync_buffer], one slot per open call, and [tx_buffer], whose element 0
    counts the open calls and whose element [k+1] is the log offset of the
    [k]-th of them.  [Savitar_thread_notify] opens a call,
    [Savitar_thread_wait] waits for its log entry and commits it, the
    persister writes the entries.  A step of the model is one access to the
    shared buffers or to a log; threads interleave freely. *)

From stdpp Require Import base numbers list gmap strings.
From S2P Require Import Prelude Pmem Savitar NvLog.

(** ** Logs seen through their entries

    A log is the abstract view of NvLog.v: its entries and its
    last commit number; an entry is found by its offset. *)
Definition alog : Type := list entry * Z.

Fixpoint lookup_off (start : Z) (es : list entry) (off : Z) : option entry :=
  match es with
  | [] => None
  | e :: es => if start =? off then Some e else lookup_off (start + esize e) es off
  end.

Fixpoint set_commit (start : Z) (es : list entry) (off c : Z) : list entry :=
  match es with
  | [] => []
  | e :: es =>
      if start =? off then Entry c (e_body e) :: es
      else e :: set_commit (start + esize e) es off c
  end.

Definition alog_tail (l : alog) : Z := sizeof_RedoLog + total (fst l).

(** [Savitar_log_append] and [Savitar_log_commit] on that view, with their
    assertions. *)
Definition alog_append (len : Z) (l : alog) (v : list (list Z)) : res (alog * Z) :=
  assert! negb (bool_decide (v = [])) in
  assert! alog_tail l + esize (Entry 0 (concat v)) <=? len in
  Ok ((fst l ++ [Entry 0 (concat v)], snd l), alog_tail l).

Definition alog_commit (l : alog) (off : Z) : res alog :=
  assert! snd l + 1 <? UINT64_MAX in
  Ok (set_commit sizeof_RedoLog (fst l) off (snd l + 1), snd l + 1).

(** ** The shared buffers *)

Record NvMethodCall := MethodCall {
  obj_ptr : Z;
  method_tag : Z;
  arg_ptrs : list Z
}.
#[global] Instance NvMethodCall_inhabited : Inhabited NvMethodCall := populate (MethodCall 0 0 []).

(** The arguments of a call of [Savitar_thread_notify]. *)
Record call := Call { c_obj : Z; c_tag : Z; c_args : list Z }.

(** Where a worker is: in the program, at a line of [Savitar_thread_notify]
    or of [Savitar_thread_wait], or after its routine returned. *)
Inductive wpc :=
| WRun
| WInc (c : call)        (* tx_buffer[0]++ *)
| WZero (c : call)       (* tx_buffer[tx_buffer[0]] = 0 *)
| WCheck (c : call)      (* isWaitingForSnapshot, outer-most call only *)
| WBlock (c : call)      (* tx_buffer[0] = 0 *)
| WBlocked (c : call)    (* pthread_cond_wait *)
| WUnblock (c : call)    (* tx_buffer[0] = 1 *)
| WTag (c : call)        (* publish method_tag *)
| WSpin                  (* while (method_tag != 0) *)
| WPop                   (* tx_buffer[tx_buffer[0]--] *)
| WCommit (c : call) (off : Z)
| WTerm.

(** Where a persister is in [Savitar_persister_worker]. *)
Inductive ppc :=
| PHead                  (* while (buffer[active_tx_id].method_tag == 0) *)
| PZero                  (* if (tx_buffer[0] == 0) *)
| PGt                    (* if (active_tx_id > tx_buffer[0] - 1) *)
| PLt                    (* else if (active_tx_id < tx_buffer[0] - 1) *)
| PTerm                  (* if (method_tag == UINT64_MAX) *)
| PParent                (* if (tx_buffer[active_tx_id] == 0) *)
| PLog                   (* AppendLog or Log *)
| PStore (off : Z)       (* tx_buffer[active_tx_id + 1] = log_offset *)
| PClear                 (* method_tag = 0 *)
| PExit.

#[global] Instance call_eq_dec : EqDecision call.
Proof. solve_decision. Defined.
#[global] Instance ppc_eq_dec : EqDecision ppc.
Proof. solve_decision. Defined.

(** A worker with its persister; [stack] is the worker's stack of open calls,
    outer-most first, [active_tx_id] the persister's variable. *)
Record tstate := Thread {
  buffer : list NvMethodCall;
  tx_buffer : list Z;
  stack : list call;
  worker : wpc;
  persister : ppc;
  active_tx_id : nat
}.

(** The state all threads share: the logs of the objects, and the objects
    whose [snapshot_lock] is set. *)
Record shared := Shared { logs : gmap Z alog; snapshot_locks : gset Z }.

Definition get_log (sh : shared) (o : Z) : alog := default ([], 0) (logs sh !! o).
Definition set_log (sh : shared) (o : Z) (l : alog) : shared :=
  Shared (<[o := l]> (logs sh)) (snapshot_locks sh).

Definition tx0 (t : tstate) : Z := tx_buffer t !!! 0%nat.
Definition tag_at (t : tstate) (k : nat) : Z := method_tag (buffer t !!! k).

Definition set_tx (t : tstate) (k : nat) (v : Z) : tstate :=
  Thread (buffer t) (<[k := v]> (tx_buffer t)) (stack t) (worker t) (persister t) (active_tx_id t).
Definition set_slot (t : tstate) (k : nat) (c : NvMethodCall) : tstate :=
  Thread (<[k := c]> (buffer t)) (tx_buffer t) (stack t) (worker t) (persister t) (active_tx_id t).
Definition set_tag (t : tstate) (k : nat) (tag : Z) : tstate :=
  set_slot t k (MethodCall (obj_ptr (buffer t !!! k)) tag (arg_ptrs (buffer t !!! k))).
Definition set_worker (t : tstate) (w : wpc) : tstate :=
  Thread (buffer t) (tx_buffer t) (stack t) w (persister t) (active_tx_id t).
Definition set_stack (t : tstate) (s : list call) : tstate :=
  Thread (buffer t) (tx_buffer t) s (worker t) (persister t) (active_tx_id t).
Definition set_persister (t : tstate) (p : ppc) (a : nat) : tstate :=
  Thread (buffer t) (tx_buffer t) (stack t) (worker t) p a.

(** [Savitar_thread_create]: both buffers are zeroed. *)
Definition thread_create : tstate :=
  Thread (replicate (Z.to_nat MAX_ACTIVE_TXS) (MethodCall 0 0 (replicate (Z.to_nat (BUFFER_SIZE - 2)) 0)))
    (replicate (Z.to_nat (MAX_ACTIVE_TXS + 1)) 0) [] WRun PHead 0.

(** What a worker does next while in the program. *)
Inductive action :=
| ACall (c : call)
| AReturn
| AExit.

Definition output : Type := option (Z * log_op).

Section Tx.
(** [call_log o tag args] is what the virtual method [Log] of object [o]
    hands to [AppendLog]; [obj_uuid o] is the object's uuid; [log_len] the
    size of the mapped logs. *)
Variable call_log : Z -> Z -> list Z -> list (list Z).
Variable obj_uuid : Z -> list Z.
Variable log_len : Z.

(** [va_arg] stores into the argument slots, the others keep their values. *)
Definition store_args (args old : list Z) : list Z := args ++ drop (length args) old.

(** One step of the worker: lines 288-317 of [Savitar_thread_notify],
    348-351 of [Savitar_thread_wait], and the end of [routine_wrapper]. *)
Definition worker_step (act : action) (sh : shared) (t : tstate) : res (shared * tstate * output) :=
  match worker t with
  | WRun =>
      match act with
      | ACall c =>
          assert! tx0 t <? MAX_ACTIVE_TXS in
          let k := Z.to_nat (tx0 t) in
          let old := buffer t !!! k in
          let t := set_slot t k (MethodCall (c_obj c) (method_tag old) (store_args (c_args c) (arg_ptrs old))) in
          Ok (sh, set_worker t (WInc c), None)
      | AReturn =>
          if bool_decide (stack t = []) then Segfault else Ok (sh, set_worker t WSpin, None)
      | AExit =>
          assert! tx0 t =? 0 in
          Ok (sh, set_worker (set_tag t 0 UINT64_MAX) WTerm, None)
      end
  | WInc c => Ok (sh, set_worker (set_tx t 0 (u64 (tx0 t + 1))) (WZero c), None)
  | WZero c => Ok (sh, set_worker (set_tx t (Z.to_nat (tx0 t)) 0) (WCheck c), None)
  | WCheck c =>
      if (tx0 t =? 1) && bool_decide (c_obj c ∈ snapshot_locks sh)
      then Ok (sh, set_worker t (WBlock c), None)
      else Ok (sh, set_worker t (WTag c), None)
  | WBlock c => Ok (sh, set_worker (set_tx t 0 0) (WBlocked c), None)
  | WBlocked c =>
      if bool_decide (c_obj c ∈ snapshot_locks sh) then Ok (sh, t, None)
      else Ok (sh, set_worker t (WUnblock c), None)
  | WUnblock c => Ok (sh, set_worker (set_tx t 0 1) (WTag c), None)
  | WTag c =>
      Ok (sh, set_worker (set_stack (set_tag t (Z.to_nat (tx0 t - 1)) (c_tag c)) (stack t ++ [c])) WRun, None)
  | WSpin =>
      if negb (tag_at t (Z.to_nat (tx0 t - 1)) =? 0) then Ok (sh, t, None)
      else Ok (sh, set_worker t WPop, None)
  | WPop =>
      assert! 0 <? tx0 t in
      match last (stack t) with
      | None => Segfault
      | Some c =>
          let off := tx_buffer t !!! Z.to_nat (tx0 t) in
          Ok (sh, set_worker (set_stack (set_tx t 0 (tx0 t - 1)) (take (length (stack t) - 1) (stack t)))
                    (WCommit c off), None)
      end
  | WCommit c off =>
      let* l := alog_commit (get_log sh (c_obj c)) off in
      Ok (set_log sh (c_obj c) l, set_worker t WRun, Some (c_obj c, OpCommit off))
  | WTerm => Ok (sh, t, None)
  end.

(** What the persister logs for slot [a]: a nested call records the offset of
    its parent's entry and the parent's uuid. *)
Definition log_vectors (t : tstate) (a : nat) : list (list Z) :=
  if (0 <? a)%nat
  then [le_bytes 8 (nested_tag (tx_buffer t !!! a)); obj_uuid (obj_ptr (buffer t !!! (a - 1)%nat))]
  else call_log (obj_ptr (buffer t !!! a)) (method_tag (buffer t !!! a)) (arg_ptrs (buffer t !!! a)).

(** One step of [Savitar_persister_worker]; a read past the end of [buffer]
    is a fault. *)
Definition persister_step (sh : shared) (t : tstate) : res (shared * tstate * output) :=
  let a := active_tx_id t in
  match persister t with
  | PHead =>
      if (a <? length (buffer t))%nat then
        if tag_at t a =? 0 then Ok (sh, set_persister t PZero a, None)
        else Ok (sh, set_persister t PTerm a, None)
      else Segfault
  | PZero =>
      if tx0 t =? 0 then Ok (sh, set_persister t PHead 0, None)
      else Ok (sh, set_persister t PGt a, None)
  | PGt =>
      if u64 (tx0 t - 1) <? Z.of_nat a then Ok (sh, set_persister t PHead (a - 1), None)
      else Ok (sh, set_persister t PLt a, None)
  | PLt =>
      if Z.of_nat a <? u64 (tx0 t - 1) then Ok (sh, set_persister t PHead (a + 1), None)
      else Ok (sh, set_persister t PHead a, None)
  | PTerm =>
      if tag_at t a =? UINT64_MAX then Ok (sh, set_persister t PExit a, None)
      else Ok (sh, set_persister t PParent a, None)
  | PParent =>
      if (0 <? a)%nat && (tx_buffer t !!! a =? 0) then Ok (sh, set_persister t PHead (a - 1), None)
      else Ok (sh, set_persister t PLog a, None)
  | PLog =>
      let o := obj_ptr (buffer t !!! a) in
      let v := log_vectors t a in
      let* r := alog_append log_len (get_log sh o) v in
      Ok (set_log sh o (fst r), set_persister t (PStore (snd r)) a, Some (o, OpAppend v))
  | PStore off => Ok (sh, set_persister (set_tx t (a + 1) off) PClear a, None)
  | PClear => Ok (sh, set_persister (set_tag t a 0) PHead a, None)
  | PExit => Ok (sh, t, None)
  end.

(** *** The whole system

    Any thread may take a step of its worker or of its persister, a thread
    may be created, and a snapshot may lock or unlock objects. *)
Definition call_ok (c : call) : Prop :=
  0 < c_tag c < UINT64_MAX /\ (length (c_args c) <= Z.to_nat (BUFFER_SIZE - 2))%nat.

Definition action_ok (act : action) : Prop :=
  match act with ACall c => call_ok c | _ => True end.

Record system := System { sys : shared; threads : list tstate }.

Inductive step : system -> output -> system -> Prop :=
| step_worker sh ts i t act sh' t' out :
    ts !! i = Some t -> action_ok act -> (act = AExit -> stack t = []) ->
    worker_step act sh t = Ok (sh', t', out) ->
    step (System sh ts) out (System sh' (<[i := t']> ts))
| step_persister sh ts i t sh' t' out :
    ts !! i = Some t -> persister_step sh t = Ok (sh', t', out) ->
    step (System sh ts) out (System sh' (<[i := t']> ts))
| step_create sh ts :
    step (System sh ts) None (System sh (ts ++ [thread_create]))
| step_snapshot sh ts locks :
    step (System sh ts) None (System (Shared (logs sh) locks) ts).

Definition system_init : system := System (Shared ∅ ∅) [].

(** Executions, with the log operations they perform. *)
Inductive run : system -> list (Z * log_op) -> system -> Prop :=
| run_nil s : run s [] s
| run_cons s1 out s2 tr s3 :
    step s1 out s2 -> run s2 tr s3 ->
    run s1 (match out with Some e => e :: tr | None => tr end) s3.

Definition reachable (s : system) : Prop := exists tr, run system_init tr s.

End Tx.
