(* ===== verification/TxProofs.v ===== *)
(** * Correctness of the transaction protocol

    Invariants of the worker and persister threads of Tx.v, by induction on
    executions: entries are logged before they are committed, parents before
    children, and every execution is a legal history of each log. *)

From stdpp Require Import base numbers list gmap strings.
From S2P Require Import Prelude Pmem Savitar NvLog Tx.

(** Rewrites with lookups of updated arrays, side conditions by [lia]. *)
Ltac upd :=
  repeat first
    [ rewrite list_lookup_total_insert_eq by (rewrite ?length_insert; lia)
    | rewrite list_lookup_total_insert_ne by lia
    | rewrite length_insert ].

(** ** Entries by offset *)

Lemma lookup_off_index start es off e :
  lookup_off start es off = Some e ->
  exists i, es !! i = Some e /\ off = start + total (take i es) /\
    forall c, set_commit start es off c = <[i := Entry c (e_body e)]> es.
Proof.
  revert start. induction es as [|x es IH]; intros start; simpl; [done|].
  destruct (Z.eqb_spec start off) as [->|Hne].
  - intros [= ->]. exists 0%nat. simpl. split; [done|]. split; [lia|done].
  - intros H. destruct (IH _ H) as (i & Hi & -> & Hs). exists (S i). simpl. split; [done|].
    split; [lia|]. intros c. f_equal. apply Hs.
Qed.

Lemma lookup_off_bound start es off e :
  lookup_off start es off = Some e -> start <= off < start + total es.
Proof.
  revert start. induction es as [|x es IH]; intros start; [done|]. cbn [lookup_off].
  change (total (x :: es)) with (esize x + total es). pose proof (esize_ge x). pose proof (total_nonneg es).
  destruct (Z.eqb_spec start off); [lia|]. intros H1. apply IH in H1. lia.
Qed.

Lemma lookup_off_app start es e off x :
  lookup_off start es off = Some x -> lookup_off start (es ++ [e]) off = Some x.
Proof.
  revert start. induction es as [|y es IH]; intros start; simpl; [done|].
  destruct (_ =? _); [done|]. apply IH.
Qed.

Lemma lookup_off_new start es e :
  lookup_off start (es ++ [e]) (start + total es) = Some e.
Proof.
  revert start. induction es as [|y es IH]; intros start; cbn [app lookup_off].
  - change (total []) with 0. by rewrite Z.add_0_r, Z.eqb_refl.
  - change (total (y :: es)) with (esize y + total es). pose proof (esize_ge y). pose proof (total_nonneg es).
    rewrite (proj2 (Z.eqb_neq _ _)) by lia. rewrite Z.add_assoc. apply IH.
Qed.

Lemma lookup_off_commit_ne start es off c off' :
  off' <> off -> lookup_off start (set_commit start es off c) off' = lookup_off start es off'.
Proof.
  intros Hne. revert start. induction es as [|y es IH]; intros start; [done|]. cbn [set_commit].
  destruct (Z.eqb_spec start off) as [->|]; cbn [lookup_off].
  - rewrite (proj2 (Z.eqb_neq _ _)) by lia. by rewrite (esize_body c (e_commit y)); destruct y.
  - by rewrite IH.
Qed.

Lemma lookup_off_commit_eq start es off c e :
  lookup_off start es off = Some e ->
  lookup_off start (set_commit start es off c) off = Some (Entry c (e_body e)).
Proof.
  revert start. induction es as [|y es IH]; intros start; [done|]. cbn [set_commit lookup_off].
  destruct (Z.eqb_spec start off) as [->|]; cbn [lookup_off].
  - intros [= ->]. by rewrite Z.eqb_refl.
  - rewrite (proj2 (Z.eqb_neq _ _)) by lia. apply IH.
Qed.

Lemma get_set_log sh o l : get_log (set_log sh o l) o = l.
Proof. unfold get_log, set_log. simpl. by rewrite lookup_insert_eq. Qed.

Lemma get_set_log_ne sh o o' l : o <> o' -> get_log (set_log sh o l) o' = get_log sh o'.
Proof. intros. unfold get_log, set_log. simpl. by rewrite lookup_insert_ne. Qed.

(** The entry at [off] of the log of [o] is uncommitted and holds [v]. *)
Definition logged (sh : shared) (o off : Z) (v : list (list Z)) : Prop :=
  lookup_off sizeof_RedoLog (fst (get_log sh o)) off = Some (Entry 0 (concat v)).

Lemma logged_pos sh o off v : logged sh o off v -> 0 < off.
Proof. intros H. apply lookup_off_bound in H. unfold sizeof_RedoLog in H. lia. Qed.

Lemma alog_append_inv len l v l' off :
  alog_append len l v = Ok (l', off) ->
  v <> [] /\ alog_tail l + esize (Entry 0 (concat v)) <= len /\
  l' = (fst l ++ [Entry 0 (concat v)], snd l) /\ off = alog_tail l.
Proof.
  unfold alog_append. intros H. res_inv H. res_inv H. apply Ok_inj in H.
  apply negb_true_iff, bool_decide_eq_false in Hb. apply Z.leb_le in Hb0.
  injection H as <- <-. done.
Qed.

Lemma logged_append sh o len v l' off o' off' v' :
  alog_append len (get_log sh o) v = Ok (l', off) ->
  logged sh o' off' v' -> logged (set_log sh o l') o' off' v'.
Proof.
  intros (_ & _ & -> & _)%alog_append_inv Hl. unfold logged in *.
  destruct (decide (o = o')) as [<-|]; [|by rewrite get_set_log_ne].
  rewrite get_set_log. by apply lookup_off_app.
Qed.

Lemma logged_new sh o len v l' off :
  alog_append len (get_log sh o) v = Ok (l', off) -> logged (set_log sh o l') o off v.
Proof.
  intros (_ & _ & -> & ->)%alog_append_inv. unfold logged. rewrite get_set_log. apply lookup_off_new.
Qed.

Lemma logged_fresh sh o len v l' off v' :
  alog_append len (get_log sh o) v = Ok (l', off) -> ~ logged sh o off v'.
Proof.
  intros (_ & _ & _ & ->)%alog_append_inv Hl. apply lookup_off_bound in Hl.
  unfold alog_tail in Hl. lia.
Qed.

Lemma logged_commit sh o l' off o' off' v' :
  alog_commit (get_log sh o) off = Ok l' -> (o', off') <> (o, off) ->
  logged sh o' off' v' -> logged (set_log sh o l') o' off' v'.
Proof.
  unfold alog_commit. intros H Hne Hl. res_inv H. apply Ok_inj in H as <-. unfold logged in *.
  destruct (decide (o = o')) as [<-|]; [|by rewrite get_set_log_ne].
  rewrite get_set_log. simpl. rewrite lookup_off_commit_ne; [done|]. congruence.
Qed.

(** ** Invariant of a thread *)

Section inv.
Variable call_log : Z -> Z -> list Z -> list (list Z).
Variable obj_uuid : Z -> list Z.
Variable log_len : Z.

(** The call a worker is opening. *)
Definition opening (w : wpc) : option call :=
  match w with
  | WInc c | WZero c | WCheck c | WBlock c | WBlocked c | WUnblock c | WTag c => Some c
  | _ => None
  end.

(** Whether [tx_buffer[0]] counts the call being opened. *)
Definition counted (w : wpc) : Z :=
  match w with WZero _ | WCheck _ | WBlock _ | WTag _ => 1 | _ => 0 end.

Definition zeroed (w : wpc) : Prop :=
  match w with WCheck _ | WBlock _ | WBlocked _ | WUnblock _ | WTag _ => True | _ => False end.

Definition blocking (w : wpc) : Prop :=
  match w with WBlock _ | WBlocked _ | WUnblock _ => True | _ => False end.

Definition spinning (w : wpc) : Prop :=
  match w with WSpin | WPop => True | _ => False end.

(** What the entry of call [c] in slot [k] must hold. *)
Definition slot_vectors (t : tstate) (k : nat) (c : call) : list (list Z) :=
  if (0 <? k)%nat
  then [le_bytes 8 (nested_tag (tx_buffer t !!! k)); obj_uuid (obj_ptr (buffer t !!! (k - 1)%nat))]
  else call_log (obj_ptr (buffer t !!! k)) (c_tag c) (arg_ptrs (buffer t !!! k)).

Definition slot_holds (t : tstate) (k : nat) (c : call) : Prop :=
  obj_ptr (buffer t !!! k) = c_obj c /\
  take (length (c_args c)) (arg_ptrs (buffer t !!! k)) = c_args c.

(** The slot of an open call: still to be logged, or logged. *)
Definition slot_ok (sh : shared) (t : tstate) (k : nat) (c : call) : Prop :=
  call_ok c /\ slot_holds t k c /\
  ((tag_at t k = c_tag c /\ tx_buffer t !!! S k = 0) \/
   (tx_buffer t !!! S k <> 0 /\ (k = 0%nat \/ tx_buffer t !!! k <> 0) /\
    logged sh (c_obj c) (tx_buffer t !!! S k) (slot_vectors t k c) /\
    (tag_at t k = 0 \/
     (tag_at t k = c_tag c /\ persister t = PClear /\ active_tx_id t = k)))).

(** The entry a worker is about to commit is the one of its call. *)
Definition commit_ok (sh : shared) (t : tstate) (c : call) (off : Z) : Prop :=
  exists v, logged sh (c_obj c) off v /\
    match last (stack t) with
    | None => exists args, take (length (c_args c)) args = c_args c /\ v = call_log (c_obj c) (c_tag c) args
    | Some p =>
        tx_buffer t !!! length (stack t) <> 0 /\
        v = [le_bytes 8 (nested_tag (tx_buffer t !!! length (stack t))); obj_uuid (c_obj p)]
    end.

Definition persister_ok (sh : shared) (t : tstate) : Prop :=
  let a := active_tx_id t in
  (a <= 15)%nat /\
  match persister t with
  | PHead => True
  | PExit => worker t = WTerm
  | PZero | PGt | PLt => (a < 15)%nat
  | PTerm => (a < 15)%nat /\ tag_at t a <> 0
  | PParent => (a < length (stack t))%nat /\ tag_at t a <> 0
  | PLog => (a < length (stack t))%nat /\ tag_at t a <> 0 /\ (a = 0%nat \/ tx_buffer t !!! a <> 0)
  | PStore off =>
      (a < length (stack t))%nat /\ tag_at t a <> 0 /\ (a = 0%nat \/ tx_buffer t !!! a <> 0) /\
      exists c, stack t !! a = Some c /\ logged sh (c_obj c) off (slot_vectors t a c)
  | PClear => (a < length (stack t))%nat /\ tag_at t a <> 0 /\ tx_buffer t !!! S a <> 0
  end.

Record inv (sh : shared) (t : tstate) : Prop := {
  inv_buffer : length (buffer t) = 15%nat;
  inv_tx : length (tx_buffer t) = 16%nat;
  inv_tx0 : tx0 t = Z.of_nat (length (stack t)) + counted (worker t);
  inv_depth : Z.of_nat (length (stack t)) + (if opening (worker t) is Some _ then 1 else 0) <= 15;
  inv_slots : forall k c, stack t !! k = Some c -> slot_ok sh t k c;
  inv_free : forall k, (length (stack t) <= k < 15)%nat ->
    tag_at t k = 0 \/ (worker t = WTerm /\ tag_at t k = UINT64_MAX);
  inv_opening : forall c, opening (worker t) = Some c ->
    call_ok c /\ slot_holds t (length (stack t)) c /\
    (zeroed (worker t) -> tx_buffer t !!! S (length (stack t)) = 0);
  inv_blocking : blocking (worker t) -> stack t = [];
  inv_spinning : spinning (worker t) -> stack t <> [];
  inv_pop : worker t = WPop -> tag_at t (length (stack t) - 1) = 0;
  inv_commit : forall c off, worker t = WCommit c off -> commit_ok sh t c off;
  inv_persister : persister_ok sh t
}.

(** The log entries a thread is responsible for, and who holds them. *)
Inductive holder := HSlot (k : nat) | HStore | HCommit.

Definition holds (t : tstate) (h : holder) (o off : Z) : Prop :=
  match h with
  | HSlot k => off <> 0 /\ tx_buffer t !!! S k = off /\ exists c, stack t !! k = Some c /\ c_obj c = o
  | HStore => persister t = PStore off /\ exists c, stack t !! active_tx_id t = Some c /\ c_obj c = o
  | HCommit => exists c, worker t = WCommit c off /\ c_obj c = o
  end.

Lemma slot_vectors_ext t t' k c :
  buffer t' !!! k = buffer t !!! k ->
  ((0 < k)%nat -> obj_ptr (buffer t' !!! (k - 1)%nat) = obj_ptr (buffer t !!! (k - 1)%nat) /\
                  tx_buffer t' !!! k = tx_buffer t !!! k) ->
  slot_vectors t' k c = slot_vectors t k c.
Proof.
  intros Hb Hp. unfold slot_vectors. destruct (Nat.ltb_spec 0 k) as [Hk|]; [|by rewrite Hb].
  destruct (Hp Hk) as [-> ->]. done.
Qed.

(** A slot is untouched by steps that leave its array elements alone. *)
Lemma slot_ok_frame sh sh' t t' k c :
  slot_ok sh t k c -> stack t !! k = Some c ->
  buffer t' !!! k = buffer t !!! k -> tx_buffer t' !!! S k = tx_buffer t !!! S k ->
  ((0 < k)%nat -> obj_ptr (buffer t' !!! (k - 1)%nat) = obj_ptr (buffer t !!! (k - 1)%nat) /\
                  (tx_buffer t !!! k <> 0 -> tx_buffer t' !!! k = tx_buffer t !!! k)) ->
  (persister t = PClear -> active_tx_id t = k -> persister t' = PClear /\ active_tx_id t' = k) ->
  (forall o off v, holds t (HSlot k) o off -> logged sh o off v -> logged sh' o off v) ->
  slot_ok sh' t' k c.
Proof.
  intros (Hc & Hh & Hs) Hst Hb Htx Hp Hcl Hl. split; [done|]. split.
  { unfold slot_holds in *. by rewrite Hb. }
  unfold tag_at in *. rewrite Hb, Htx. destruct Hs as [Hs|(Hn & Hk & Hlog & Htag)]; [by left|right].
  assert (Hk' : (0 < k)%nat -> obj_ptr (buffer t' !!! (k - 1)%nat) = obj_ptr (buffer t !!! (k - 1)%nat) /\
                  tx_buffer t' !!! k = tx_buffer t !!! k /\ tx_buffer t !!! k <> 0).
  { intros Hpos. destruct Hk as [->|Hk]; [lia|]. destruct (Hp Hpos) as [Ho Ht]. auto. }
  clear Hp.
  split; [done|]. split.
  { destruct (decide (k = 0%nat)); [by left|right]. destruct Hk' as (_ & -> & ?); [lia|done]. }
  split.
  - rewrite (slot_vectors_ext t t'); [|done|intros Hpos; destruct (Hk' Hpos) as (? & ? & _); done]. apply Hl; [|done].
    split; [done|]. split; [done|]. by exists c.
  - destruct Htag as [?|(? & ? & ?)]; [by left|right]. split; [done|]. by apply Hcl.
Qed.

(** The invariant of a thread survives steps of other threads, which append
    entries and commit entries this thread does not hold. *)
Lemma inv_frame sh sh' t :
  inv sh t ->
  (forall h o off v, holds t h o off -> logged sh o off v -> logged sh' o off v) ->
  inv sh' t.
Proof.
  intros [? ? ? ? Hs ? ? ? ? ? Hc Hp] Hl. split; try done.
  - intros k c Hk. eapply slot_ok_frame; eauto.
  - intros c off Hw. destruct (Hc c off Hw) as (v & Hv & Hv'). exists v. split; [|done].
    apply (Hl HCommit); [by exists c|done].
  - destruct Hp as [Ha Hp]. split; [done|]. destruct (persister t) eqn:E; try done.
    destruct Hp as (? & ? & ? & c & ? & ?). split; [done|]. split; [done|]. split; [done|].
    exists c. split; [done|]. apply (Hl HStore); [|done]. split; [done|by exists c].
Qed.

Lemma thread_create_inv sh : inv sh thread_create.
Proof.
  split; try done; simpl; try lia.
  - intros k Hk. left. unfold tag_at, thread_create. cbn [buffer].
    rewrite lookup_total_replicate_2; [done|]. change (Z.to_nat MAX_ACTIVE_TXS) with 15%nat. lia.
  - split; simpl; [lia|done].
Qed.

(** *** Worker steps *)

(** Steps that only move the worker and change [tx_buffer[0]]. *)
Lemma inv_retarget sh t w v :
  inv sh t -> v = Z.of_nat (length (stack t)) + counted w ->
  Z.of_nat (length (stack t)) + (if opening w is Some _ then 1 else 0) <= 15 ->
  (forall c, opening w = Some c ->
     call_ok c /\ slot_holds t (length (stack t)) c /\
     (zeroed w -> tx_buffer t !!! S (length (stack t)) = 0)) ->
  (blocking w -> stack t = []) -> (spinning w -> stack t <> []) ->
  (w = WPop -> tag_at t (length (stack t) - 1) = 0) -> (forall c off, w <> WCommit c off) ->
  worker t <> WTerm ->
  inv sh (set_worker (set_tx t 0 v) w).
Proof.
  intros [Hb Ht H0 Hd Hs Hf Ho Hbl Hsp Hpop Hc Hp] Hv Hd' Ho' Hbl' Hsp' Hpop' Hnc Hterm.
  split; try done; simpl.
  - by rewrite length_insert.
  - unfold tx0. simpl. by upd.
  - intros k c Hk. eapply slot_ok_frame; eauto; simpl; [by upd|].
    intros. split; [done|]. intros. by upd.
  - intros k Hk. left. destruct (Hf k Hk) as [?|[? _]]; done.
  - intros c E. destruct (Ho' c E) as (? & ? & Hz). split; [done|]. split; [done|].
    intros. upd. auto.
  - intros c off ->. by edestruct Hnc.
  - destruct Hp as [Ha Hp]. split; [done|]. simpl in *.
    destruct (persister t); try done.
    + destruct Hp as (Hp1 & Hp2 & [?|Hp3]); (split; [done|]; split; [done|]); [by left|].
      destruct (active_tx_id t); [by left|right]. by upd.
    + destruct Hp as (Hp1 & Hp2 & Hp3 & c & Hc1 & Hc2). split; [done|]. split; [done|]. split.
      * destruct Hp3; [by left|]. destruct (active_tx_id t); [by left|right]. by upd.
      * exists c. split; [done|]. erewrite slot_vectors_ext; [done|done|]. intros. simpl. by upd.
    + destruct Hp as (Hp1 & Hp2 & Hp3). split; [done|]. split; [done|]. by upd.
Qed.

Lemma set_tx_id t : length (tx_buffer t) = 16%nat -> set_tx t 0 (tx0 t) = t.
Proof.
  intros Hl. destruct t as [b tx s w p a]. unfold set_tx, tx0. simpl in *. f_equal.
  destruct tx; [done|]. done.
Qed.

Lemma inv_move sh t w :
  inv sh t -> counted w = counted (worker t) ->
  Z.of_nat (length (stack t)) + (if opening w is Some _ then 1 else 0) <= 15 ->
  (forall c, opening w = Some c ->
     call_ok c /\ slot_holds t (length (stack t)) c /\
     (zeroed w -> tx_buffer t !!! S (length (stack t)) = 0)) ->
  (blocking w -> stack t = []) -> (spinning w -> stack t <> []) ->
  (w = WPop -> tag_at t (length (stack t) - 1) = 0) -> (forall c off, w <> WCommit c off) ->
  worker t <> WTerm ->
  inv sh (set_worker t w).
Proof.
  intros Hi Hcnt. intros. rewrite <- (set_tx_id t) by apply Hi. apply inv_retarget; try done.
  rewrite Hcnt. apply Hi.
Qed.

(** The persister's own state survives steps that leave the slot it works on
    and the offset of the slot's parent alone. *)
Lemma persister_ok_frame sh sh' t t' :
  persister_ok sh t -> (worker t = WTerm -> worker t' = WTerm) ->
  persister t' = persister t -> active_tx_id t' = active_tx_id t ->
  (forall c, stack t !! active_tx_id t = Some c -> tag_at t (active_tx_id t) <> 0 ->
     stack t' !! active_tx_id t = Some c /\
     tx_buffer t' !!! S (active_tx_id t) = tx_buffer t !!! S (active_tx_id t) /\
     ((0 < active_tx_id t)%nat ->
        obj_ptr (buffer t' !!! (active_tx_id t - 1)%nat) = obj_ptr (buffer t !!! (active_tx_id t - 1)%nat) /\
        tx_buffer t' !!! active_tx_id t = tx_buffer t !!! active_tx_id t) /\
     (forall off v, persister t = PStore off -> logged sh (c_obj c) off v -> logged sh' (c_obj c) off v)) ->
  (tag_at t (active_tx_id t) <> 0 -> buffer t' !!! active_tx_id t = buffer t !!! active_tx_id t) ->
  persister_ok sh' t'.
Proof.
  intros [Ha Hp] Hwt Ep Ea Hst Hb. unfold persister_ok. rewrite Ep, Ea. split; [done|].
  assert (Hcom : (active_tx_id t < length (stack t))%nat -> tag_at t (active_tx_id t) <> 0 ->
    (active_tx_id t < length (stack t'))%nat /\ tag_at t' (active_tx_id t) <> 0).
  { intros (c & Hc)%lookup_lt_is_Some Htag. destruct (Hst c Hc Htag) as (Hc' & _).
    split; [by eapply lookup_lt_Some|]. unfold tag_at in *. by rewrite Hb. }
  assert (Hpar : (active_tx_id t < length (stack t))%nat -> tag_at t (active_tx_id t) <> 0 ->
    active_tx_id t = 0%nat \/ tx_buffer t !!! active_tx_id t <> 0 ->
    active_tx_id t = 0%nat \/ tx_buffer t' !!! active_tx_id t <> 0).
  { intros (c & Hc)%lookup_lt_is_Some Htag Hor. destruct (Hst c Hc Htag) as (_ & _ & Hk & _).
    destruct (decide (active_tx_id t = 0%nat)); [by left|right].
    destruct Hor; [done|]. destruct Hk as [_ ->]; [lia|done]. }
  destruct (persister t) eqn:E; try done.
  - destruct Hp as [? Htag]. split; [done|]. unfold tag_at in *. by rewrite Hb.
  - destruct Hp as [? ?]. by apply Hcom.
  - destruct Hp as (? & ? & ?). destruct Hcom; try done. eauto.
  - destruct Hp as (? & ? & ? & c & Hc & Hl). destruct Hcom; try done.
    destruct (Hst c Hc) as (Hc' & _ & Hk & Hl'); [done|].
    split; [done|]. split; [done|]. split; [by auto|]. exists c. split; [done|].
    rewrite (slot_vectors_ext t t'); [|by apply Hb|done]. by apply (Hl' off).
  - destruct Hp as (Hp1 & Hp2 & Hp3). destruct Hcom; try done. split; [done|]. split; [done|].
    apply lookup_lt_is_Some in Hp1 as (c & Hc). by destruct (Hst c Hc) as (_ & -> & _).
  - by apply Hwt.
Qed.

Lemma WRun_tx0 sh t : inv sh t -> worker t = WRun -> tx0 t = Z.of_nat (length (stack t)).
Proof. intros Hi Hw. rewrite (inv_tx0 _ _ Hi), Hw. simpl. lia. Qed.

Lemma call_step_inv sh t c :
  inv sh t -> worker t = WRun -> call_ok c -> tx0 t < 15 ->
  inv sh (set_worker (set_slot t (length (stack t))
    (MethodCall (c_obj c) (tag_at t (length (stack t)))
       (store_args (c_args c) (arg_ptrs (buffer t !!! length (stack t)))))) (WInc c)).
Proof.
  intros Hi Hw Hc Hlt. pose proof (WRun_tx0 _ _ Hi Hw) as H0. rewrite H0 in Hlt.
  destruct Hi as [Hb Ht _ Hd Hs Hf Ho Hbl Hsp Hpop Hcm Hp].
  set (t' := set_worker _ _).
  assert (Hother : forall k, k <> length (stack t) -> buffer t' !!! k = buffer t !!! k).
  { intros k Hk. unfold t'. simpl. by upd. }
  assert (Htags : forall k, tag_at t' k = tag_at t k).
  { intros k. unfold tag_at. destruct (decide (k = length (stack t))) as [->|]; [|by rewrite Hother].
    unfold t'. simpl. by upd. }
  split; try done; change (stack t') with (stack t).
  - simpl. by rewrite length_insert.
  - simpl in *. unfold tx0 in *. simpl. lia.
  - simpl in *. lia.
  - intros k c' Hk. pose proof (lookup_lt_Some _ _ _ Hk).
    apply (slot_ok_frame sh sh t); try done; [by apply Hs|apply Hother; lia|].
    intros. rewrite Hother by lia. done.
  - intros k Hk. left. rewrite Htags. destruct (Hf k Hk) as [?|[? _]]; [done|congruence].
  - simpl. intros c' [= <-]. split; [done|]. split; [|done]. unfold slot_holds. simpl.
    upd. simpl. unfold store_args. by rewrite take_app_length.
  - apply (persister_ok_frame sh sh t); try done; try (intros; congruence).
    + intros c' Hc' _. pose proof (lookup_lt_Some _ _ _ Hc'). split; [done|]. split; [done|].
      split; [|done]. intros. rewrite Hother by lia. done.
    + intros Htag. apply Hother. intros E.
      destruct (Hf (active_tx_id t)) as [?|[? _]]; [lia|done|congruence].
Qed.

Lemma exit_step_inv sh t :
  inv sh t -> worker t = WRun -> stack t = [] -> inv sh (set_worker (set_tag t 0 UINT64_MAX) WTerm).
Proof.
  intros [Hb Ht H0 Hd Hs Hf Ho Hbl Hsp Hpop Hcm Hp] Hw Hst.
  split; try done; simpl; rewrite ?Hst in *; simpl in *.
  - by rewrite length_insert.
  - unfold tx0 in *. simpl. rewrite H0, Hw. done.
  - lia.
  - intros k c Hk. by rewrite ?lookup_nil in Hk.
  - intros k Hk. unfold tag_at. simpl. destruct (decide (k = 0%nat)) as [->|].
    + right. by upd.
    + upd. destruct (Hf k Hk) as [?|[? _]]; [by left|congruence].
  - destruct Hp as [Ha Hp]. split; [done|]. simpl.
    destruct (persister t); rewrite ?Hst in *; simpl in *; try done; try lia.
    destruct Hp as [? Htag]. split; [done|].
    destruct (Hf (active_tx_id t)) as [?|[? _]]; [lia|done|congruence].
Qed.

Lemma zero_step_inv sh t c :
  inv sh t -> worker t = WZero c -> inv sh (set_worker (set_tx t (Z.to_nat (tx0 t)) 0) (WCheck c)).
Proof.
  intros [Hb Ht H0 Hd Hs Hf Ho Hbl Hsp Hpop Hcm Hp] Hw. rewrite Hw in *. simpl in *.
  replace (Z.to_nat (tx0 t)) with (S (length (stack t))) by lia.
  split; try done; simpl.
  - by rewrite length_insert.
  - unfold tx0 in *. simpl. by upd.
  - intros k c' Hk. pose proof (lookup_lt_Some _ _ _ Hk).
    eapply slot_ok_frame; eauto; simpl; [by upd|]. intros. split; [done|]. intros. by upd.
  - intros k Hk. left. destruct (Hf k Hk) as [?|[? _]]; done.
  - intros c' [= <-]. destruct (Ho c eq_refl) as (? & ? & _). split; [done|]. split; [done|].
    intros _. by upd.
  - apply (persister_ok_frame sh sh t); try done; try (intros; congruence). simpl. intros c' Hc' _.
    pose proof (lookup_lt_Some _ _ _ Hc'). split; [done|]. split; [by upd|]. split; [|done].
    intros. split; [done|]. by upd.
Qed.

Lemma tag_step_inv sh t c :
  inv sh t -> worker t = WTag c ->
  inv sh (set_worker (set_stack (set_tag t (Z.to_nat (tx0 t - 1)) (c_tag c)) (stack t ++ [c])) WRun).
Proof.
  intros [Hb Ht H0 Hd Hs Hf Ho Hbl Hsp Hpop Hcm Hp] Hw. rewrite Hw in *. simpl in *.
  destruct (Ho c eq_refl) as (Hcok & Hh & Hz). specialize (Hz I).
  replace (Z.to_nat (tx0 t - 1)) with (length (stack t)) by lia.
  assert (Hold : forall k c', stack t !! k = Some c' -> (k < length (stack t))%nat)
    by (intros ? ? Hk; by eapply lookup_lt_Some).
  split; try done; simpl; rewrite ?length_app; simpl.
  - by rewrite length_insert.
  - unfold tx0 in *. simpl. lia.
  - lia.
  - intros k c' Hk. apply lookup_app_Some in Hk as [Hk|[Hge Hk]].
    + pose proof (Hold _ _ Hk). eapply slot_ok_frame; eauto; simpl; [by upd|]. intros. by upd.
    + apply list_lookup_singleton_Some in Hk as [Hk <-].
      assert (k = length (stack t)) as -> by lia. split; [done|]. split.
      * destruct Hh as [? ?]. split; simpl; upd; done.
      * left. unfold tag_at. simpl. by upd.
  - intros k Hk. unfold tag_at. simpl. upd. left. destruct (Hf k) as [?|[? _]]; [lia|done|done].
  - apply (persister_ok_frame sh sh t); try done; try (intros; congruence); simpl.
    + intros c' Hc' _. pose proof (Hold _ _ Hc'). split; [by rewrite lookup_app_l|].
      split; [done|]. split; [|done]. intros. by upd.
    + intros Htag. rewrite list_lookup_total_insert_ne; [done|]. intros E.
      destruct (Hf (active_tx_id t)) as [?|[? _]]; [lia|done|done].
Qed.

(** Popping the inner-most call hands its entry over to the commit. *)
Lemma pop_step_inv sh t c :
  inv sh t -> worker t = WPop -> last (stack t) = Some c ->
  inv sh (set_worker (set_stack (set_tx t 0 (tx0 t - 1)) (take (length (stack t) - 1) (stack t)))
            (WCommit c (tx_buffer t !!! Z.to_nat (tx0 t)))).
Proof.
  intros [Hb Ht H0 Hd Hs Hf Ho Hbl Hsp Hpop Hcm Hp] Hw Hlast. rewrite Hw in *. simpl in *.
  specialize (Hpop eq_refl).
  apply last_Some in Hlast as (l & Hl). rewrite Hl in *. rewrite length_app in *. simpl in *.
  replace (length l + 1 - 1)%nat with (length l) in * by lia. rewrite take_app_length.
  replace (Z.to_nat (tx0 t)) with (S (length l)) by lia.
  destruct (Hs (length l) c) as (Hcok & Hh & Hlog); [by rewrite lookup_app_r, Nat.sub_diag by lia|].
  destruct Hlog as [[Htag _]|(Hn & Hk & Hlog & _)]; [destruct Hcok as [? _]; lia|].
  assert (Hold : forall k c', l !! k = Some c' -> (k < length l)%nat)
    by (intros ? ? Hk'; by eapply lookup_lt_Some).
  split; try done; simpl.
  - by rewrite length_insert.
  - unfold tx0 in *. simpl. upd. lia.
  - lia.
  - intros k c' Hk'. pose proof (Hold _ _ Hk'). apply (slot_ok_frame sh sh t); simpl; try done.
    + apply Hs. by rewrite lookup_app_l.
    + rewrite Hl. by rewrite lookup_app_l.
    + by upd.
    + intros. split; [done|]. intros. by upd.
  - intros k Hk'. destruct (decide (k = length l)) as [->|]; [by left|].
    left. destruct (Hf k) as [?|[? _]]; [lia|done|done].
  - intros c' off [= <- <-]. exists (slot_vectors t (length l) c). split; [done|]. simpl.
    destruct Hh as [Hho Hha].
    destruct (last l) as [p|] eqn:Elast.
    + apply last_Some in Elast as (l' & ->). rewrite length_app in *. simpl in *.
      replace (length l' + 1)%nat with (S (length l')) in * by lia. destruct Hk as [?|Hk]; [lia|].
      split; [by upd|]. unfold slot_vectors. simpl. upd. rewrite Nat.sub_0_r.
      destruct (Hs (length l') p) as (_ & [-> _] & _); [|done].
      by rewrite <- app_assoc, lookup_app_r, Nat.sub_diag by lia.
    + apply last_None in Elast as ->. simpl in *. unfold slot_vectors. simpl.
      eexists. split; [exact Hha|]. by rewrite Hho.
  - apply (persister_ok_frame sh sh t); try done; try (intros; congruence); simpl. rewrite Hl. intros c' Hc' Htag.
    apply lookup_app_Some in Hc' as [Hc'|[Hge Hc']].
    + pose proof (Hold _ _ Hc'). split; [done|]. split; [by upd|]. split; [|done].
      intros. split; [done|]. by upd.
    + apply list_lookup_singleton_Some in Hc' as [? _].
      assert (active_tx_id t = length l) as E by lia. by rewrite E in Htag.
Qed.

(** A thread's entries are held once each. *)
Definition held_once (t : tstate) : Prop :=
  forall h1 h2 o off, holds t h1 o off -> holds t h2 o off -> h1 = h2.

Lemma commit_step_inv sh t c off l :
  inv sh t -> held_once t -> worker t = WCommit c off ->
  alog_commit (get_log sh (c_obj c)) off = Ok l ->
  inv (set_log sh (c_obj c) l) (set_worker t WRun).
Proof.
  intros Hi Ho Hw Hl.
  assert (Hk : forall h o off' v, h <> HCommit -> holds t h o off' -> logged sh o off' v ->
                 logged (set_log sh (c_obj c) l) o off' v).
  { intros h o off' v Hne Hh. apply (logged_commit _ _ _ _ _ _ _ Hl). intros [= -> ->].
    apply Hne, (Ho _ _ _ _ Hh). by exists c. }
  destruct Hi as [Hb Ht H0 Hd Hs Hf Hop Hbl Hsp Hpop Hcm Hp]. rewrite Hw in *.
  split; try done.
  - intros k c' Hk'. apply (slot_ok_frame sh _ t); try done; [by apply Hs|].
    intros. by apply (Hk (HSlot k)).
  - intros k Hk'. left. destruct (Hf k Hk') as [?|[? _]]; done.
  - apply (persister_ok_frame sh _ t); try done; try (intros; congruence). intros c' Hc' _. split; [done|]. split; [done|].
    split; [done|]. intros off' v Hst. apply (Hk HStore); [done|]. split; [done|by exists c'].
Qed.

Lemma worker_step_inv act sh t sh' t' out :
  inv sh t -> held_once t -> action_ok act -> (act = AExit -> stack t = []) ->
  worker_step act sh t = Ok (sh', t', out) -> inv sh' t'.
Proof.
  intros Hi Hh Hact Hex Hstep. unfold worker_step in Hstep. pose proof (inv_tx0 _ _ Hi) as H0.
  pose proof (inv_depth _ _ Hi) as Hd. pose proof (inv_opening _ _ Hi) as Hop.
  pose proof (inv_blocking _ _ Hi) as Hbl. pose proof (inv_spinning _ _ Hi) as Hsp.
  destruct (worker t) as [|c|c|c|c|c|c|c| | |c off|] eqn:Hw; simpl in *.
  - destruct act as [c| |]; simpl in *.
    + res_inv Hstep. apply Ok_inj in Hstep. injection Hstep as <- <- <-.
      apply Z.ltb_lt in Hb. replace (Z.to_nat (tx0 t)) with (length (stack t)) by lia.
      by apply call_step_inv.
    + destruct (bool_decide _) eqn:E; [done|]. apply bool_decide_eq_false in E.
      apply Ok_inj in Hstep. injection Hstep as <- <- <-.
      apply inv_move; rewrite ?Hw; try done.
    + res_inv Hstep. apply Ok_inj in Hstep. injection Hstep as <- <- <-. apply exit_step_inv; auto.
  - apply Ok_inj in Hstep. injection Hstep as <- <- <-. destruct (Hop c eq_refl) as (? & ? & _).
    apply inv_retarget; rewrite ?Hw; try done; simpl; try (intros ? [= <-]; done).
    rewrite u64_small; lia.
  - apply Ok_inj in Hstep. injection Hstep as <- <- <-. by apply zero_step_inv.
  - destruct (Hop c eq_refl) as (? & ? & ?).
    destruct (_ && _) eqn:E; apply Ok_inj in Hstep; injection Hstep as <- <- <-;
      (apply inv_move; rewrite ?Hw; try done; simpl; try (intros ? [= <-]; by auto)).
    intros _. apply andb_true_iff in E as [E _]. apply Z.eqb_eq in E.
    apply length_zero_iff_nil. lia.
  - apply Ok_inj in Hstep. injection Hstep as <- <- <-. destruct (Hop c eq_refl) as (? & ? & ?).
    specialize (Hbl I). apply inv_retarget; rewrite ?Hw, ?Hbl in *; try done; simpl;
      try (intros ? [= <-]; by auto).
  - destruct (Hop c eq_refl) as (? & ? & ?).
    destruct (bool_decide _); apply Ok_inj in Hstep; injection Hstep as <- <- <-; [done|].
    apply inv_move; rewrite ?Hw; try done; simpl; try (intros ? [= <-]; by auto).
  - apply Ok_inj in Hstep. injection Hstep as <- <- <-. destruct (Hop c eq_refl) as (? & ? & ?).
    specialize (Hbl I). apply inv_retarget; rewrite ?Hw, ?Hbl in *; try done; simpl;
      try (intros ? [= <-]; by auto).
  - apply Ok_inj in Hstep. injection Hstep as <- <- <-. by apply tag_step_inv.
  - destruct (negb _) eqn:E; apply Ok_inj in Hstep; injection Hstep as <- <- <-; [done|].
    apply inv_move; rewrite ?Hw; try done; simpl. intros _.
    apply negb_false_iff, Z.eqb_eq in E. rewrite <- E. f_equal. lia.
  - res_inv Hstep. destruct (last (stack t)) eqn:El; [|done].
    apply Ok_inj in Hstep. injection Hstep as <- <- <-. by apply pop_step_inv.
  - res_inv Hstep. apply Ok_inj in Hstep. injection Hstep as <- <- <-. by eapply commit_step_inv.
  - apply Ok_inj in Hstep. by injection Hstep as <- <- <-.
Qed.

(** *** Persister steps *)

Lemma persister_move_inv sh t p a :
  inv sh t -> persister t <> PClear -> persister_ok sh (set_persister t p a) ->
  inv sh (set_persister t p a).
Proof.
  intros [Hb Ht H0 Hd Hs Hf Ho Hbl Hsp Hpop Hcm Hp] Hne Hp'. split; try done.
  intros k c Hk. apply (slot_ok_frame sh sh t); auto. done.
Qed.

(** A slot with a tag that the persister may log. *)
Lemma pending_slot sh t a :
  inv sh t -> persister t <> PClear -> (a < length (stack t))%nat -> tag_at t a <> 0 ->
  exists c, stack t !! a = Some c /\ tag_at t a = c_tag c /\ tx_buffer t !!! S a = 0 /\
    obj_ptr (buffer t !!! a) = c_obj c.
Proof.
  intros Hi Hne (c & Hc)%lookup_lt_is_Some Htag. exists c. split; [done|].
  destruct (inv_slots _ _ Hi a c Hc) as (_ & [Ho _] & [[? ?]|(_ & _ & _ & [?|(_ & ? & _)])]); done.
Qed.

Lemma log_vectors_slot sh t a c :
  inv sh t -> persister t <> PClear -> tag_at t a <> 0 -> stack t !! a = Some c ->
  log_vectors call_log obj_uuid t a = slot_vectors t a c.
Proof.
  intros Hi Hne Htag Hc.
  destruct (pending_slot sh t a) as (c' & Hc' & Ht & _); try done; [by eapply lookup_lt_Some|].
  rewrite Hc in Hc'. injection Hc' as <-. unfold log_vectors, slot_vectors, tag_at in *.
  by rewrite Ht.
Qed.

Lemma store_step_inv sh t off :
  inv sh t -> persister t = PStore off ->
  inv sh (set_persister (set_tx t (active_tx_id t + 1) off) PClear (active_tx_id t)).
Proof.
  intros Hi Hpc. pose proof (inv_persister _ _ Hi) as [Ha Hp]. rewrite Hpc in Hp.
  destruct Hp as (Hlt & Htag & Hpar & c & Hc & Hlog).
  destruct (pending_slot sh t (active_tx_id t)) as (c0 & Hc0 & Htc & Hz & Hoc); try done; [congruence|].
  rewrite Hc in Hc0. injection Hc0 as <-.
  pose proof (logged_pos _ _ _ _ Hlog) as Hpos.
  destruct Hi as [Hb Ht H0 Hd Hs Hf Ho Hbl Hsp Hpop Hcm _].
  assert (Hlen : (length (stack t) <= 15)%nat) by (destruct (opening _); lia).
  set (a := active_tx_id t) in *. replace (a + 1)%nat with (S a) by lia.
  split; try done; simpl.
  - by rewrite length_insert.
  - unfold tx0 in *. simpl. by upd.
  - intros k c' Hk. destruct (decide (k = a)) as [->|Hka].
    + rewrite Hc in Hk. injection Hk as <-. destruct (Hs a c Hc) as (Hcok & Hh & _).
      split; [done|]. split; [done|]. right. simpl. upd. split; [lia|]. split.
      { destruct Hpar; [by left|right]. by upd. }
      split; [|right; done]. rewrite (slot_vectors_ext t); [done|done|]. intros. simpl. by upd.
    + apply (slot_ok_frame sh sh t); simpl; try done; [by apply Hs|by upd|congruence..|].
      intros _. split; [done|]. intros Hnz. rewrite list_lookup_total_insert_ne; [done|].
      intros E. rewrite <- E in Hnz. done.
  - intros c' Ho'. destruct (Ho c' Ho') as (? & ? & Hz'). split; [done|]. split; [done|].
    intros. upd. auto.
  - intros c' off' Hw'. destruct (Hcm c' off' Hw') as (v & Hv & Hm). exists v. split; [done|]. simpl.
    destruct (last (stack t)); [|done]. destruct Hm as [Hm1 Hm2].
    rewrite list_lookup_total_insert_ne; [done|]. intros E. rewrite <- E in Hm1. done.
  - split; simpl; [done|]. split; [done|]. split; [done|]. upd. lia.
Qed.

Lemma clear_step_inv sh t :
  inv sh t -> persister t = PClear ->
  inv sh (set_persister (set_tag t (active_tx_id t) 0) PHead (active_tx_id t)).
Proof.
  intros Hi Hpc. pose proof (inv_persister _ _ Hi) as [Ha Hp]. rewrite Hpc in Hp.
  destruct Hp as (Hlt & Htag & Hnz). set (a := active_tx_id t) in *.
  destruct Hi as [Hb Ht H0 Hd Hs Hf Ho Hbl Hsp Hpop Hcm _].
  assert (Hlen : (length (stack t) <= 15)%nat) by (destruct (opening _); lia).
  assert (Hobj : forall k, obj_ptr (buffer (set_tag t a 0) !!! k) = obj_ptr (buffer t !!! k) /\
                           arg_ptrs (buffer (set_tag t a 0) !!! k) = arg_ptrs (buffer t !!! k)).
  { intros k. simpl. destruct (decide (k = a)) as [->|]; by upd. }
  assert (Htags : forall k, k <> a -> tag_at (set_tag t a 0) k = tag_at t k).
  { intros k Hk. unfold tag_at. simpl. by upd. }
  assert (Hcl : tag_at (set_tag t a 0) a = 0) by (unfold tag_at; simpl; by upd).
  split; try done; simpl.
  - by rewrite length_insert.
  - intros k c Hk. destruct (decide (k = a)) as [->|Hka].
    + destruct (Hs a c Hk) as (Hcok & Hh & [[_ ?]|(_ & Hk0 & Hlog & _)]); [done|].
      split; [done|]. destruct (Hobj a) as [E1 E2]. destruct Hh as [Hh1 Hh2].
      split; [unfold slot_holds; cbn [buffer set_persister]; by rewrite E1, E2|]. right.
      split; [done|]. split; [done|]. split; [|by left].
      unfold slot_vectors in *. cbn [buffer tx_buffer set_persister].
      by rewrite !(proj1 (Hobj _)), (proj2 (Hobj _)).
    + apply (slot_ok_frame sh sh t); simpl; try done; [by apply Hs|by upd|].
      intros _. split; [apply (Hobj (k - 1)%nat)|done].
  - intros k Hk. change (tag_at (set_tag t a 0) k = 0 \/ worker t = WTerm /\ tag_at (set_tag t a 0) k = UINT64_MAX).
    rewrite Htags by lia. by apply Hf.
  - intros c Hc. destruct (Ho c Hc) as (? & [? ?] & ?). split; [done|]. split; [|done].
    destruct (Hobj (length (stack t))) as [E1 E2].
    unfold slot_holds; cbn [buffer set_persister]; by rewrite E1, E2.
  - intros Hw. change (tag_at (set_tag t a 0) (length (stack t) - 1) = 0).
    destruct (decide (length (stack t) - 1 = a)%nat) as [->|]; [done|]. rewrite Htags by done. by apply Hpop.
Qed.

(** A step that only moves the persister. *)
Ltac persister_moves H :=
  apply Ok_inj in H; injection H as <- <- <-;
  apply persister_move_inv; [done|congruence|split; simpl; [lia|done]].

Lemma persister_step_inv sh t sh' t' out :
  inv sh t -> persister_step call_log obj_uuid log_len sh t = Ok (sh', t', out) -> inv sh' t'.
Proof.
  intros Hi Hstep. unfold persister_step in Hstep. pose proof (inv_persister _ _ Hi) as [Ha Hp].
  pose proof (inv_buffer _ _ Hi) as Hbuf.
  destruct (persister t) as [| | | | | | |off| |] eqn:Hpc.
  - destruct (Nat.ltb_spec (active_tx_id t) (length (buffer t))); [|done].
    destruct (Z.eqb_spec (tag_at t (active_tx_id t)) 0);
      apply Ok_inj in Hstep; injection Hstep as <- <- <-;
      (apply persister_move_inv; [done|congruence|split; [done|]; simpl]); [lia|split; [lia|done]].
  - destruct (_ =? _); persister_moves Hstep.
  - destruct (_ <? _); persister_moves Hstep.
  - destruct (_ <? _); persister_moves Hstep.
  - destruct Hp as [Hlt Htag].
    destruct (Z.eqb_spec (tag_at t (active_tx_id t)) UINT64_MAX);
      apply Ok_inj in Hstep; injection Hstep as <- <- <-;
      (apply persister_move_inv; [done|congruence|split; simpl; [lia|]]);
      (destruct (decide (active_tx_id t < length (stack t))%nat) as [Hl|];
         [|destruct (inv_free _ _ Hi (active_tx_id t)) as [?|[? ?]]; [lia|done|done]]); [|done].
    apply lookup_lt_is_Some in Hl as (c & Hc).
    destruct (inv_slots _ _ Hi _ c Hc) as ([? _] & _ & [[? _]|(_ & _ & _ & [?|[? _]])]); lia.
  - destruct Hp as [Hlt Htag].
    destruct (_ && _) eqn:E; apply Ok_inj in Hstep; injection Hstep as <- <- <-;
      (apply persister_move_inv; [done|congruence|split; simpl; [lia|]]); [done|].
    split; [done|]. split; [done|]. apply andb_false_iff in E as [E|E].
    + apply Nat.ltb_ge in E. left. lia.
    + apply Z.eqb_neq in E. by right.
  - destruct Hp as (Hlt & Htag & Hpar). res_inv Hstep. destruct r as [l off].
    apply Ok_inj in Hstep. injection Hstep as <- <- <-.
    destruct (pending_slot sh t (active_tx_id t)) as (c & Hc & Htc & Hz & Hoc); try done; [congruence|].
    simpl. apply persister_move_inv; [|simpl; congruence|].
    { eapply inv_frame; [done|]. intros. by eapply logged_append. }
    split; simpl; [lia|]. split; [done|]. split; [done|]. split; [done|]. exists c. split; [done|].
    change (slot_vectors (set_persister t (PStore off) (active_tx_id t)) (active_tx_id t) c)
      with (slot_vectors t (active_tx_id t) c).
    rewrite <- Hoc. rewrite <- (log_vectors_slot sh t _ c); [|done|congruence|done|done].
    by eapply logged_new.
  - apply Ok_inj in Hstep. injection Hstep as <- <- <-. by apply store_step_inv.
  - apply Ok_inj in Hstep. injection Hstep as <- <- <-. by apply clear_step_inv.
  - apply Ok_inj in Hstep. by injection Hstep as <- <- <-.
Qed.

(** *** Who holds which entry *)

Lemma holds_logged sh t h o off : inv sh t -> holds t h o off -> exists v, logged sh o off v.
Proof.
  intros Hi. destruct h as [k| |]; simpl.
  - intros (Hn & <- & c & Hc & <-). destruct (inv_slots _ _ Hi k c Hc) as (_ & _ & [[_ ?]|(_ & _ & ? & _)]);
      [done|eauto].
  - intros (Hpc & c & Hc & <-). pose proof (inv_persister _ _ Hi) as [_ Hp]. rewrite Hpc in Hp.
    destruct Hp as (_ & _ & _ & c' & Hc' & ?). rewrite Hc in Hc'. injection Hc' as <-. eauto.
  - intros (c & Hw & <-). destruct (inv_commit _ _ Hi c off Hw) as (v & ? & _). eauto.
Qed.

(** The entries of a thread after a step are entries it held before, each by
    one holder, or the entry it just appended. *)
Definition inherits (t t' : tstate) (fresh : Z -> Z -> Prop) : Prop :=
  exists f : holder -> holder,
    (forall h o off, holds t' h o off -> (h = HStore /\ fresh o off) \/ holds t (f h) o off) /\
    (forall h1 h2 o1 off1 o2 off2,
       holds t' h1 o1 off1 -> holds t' h2 o2 off2 -> f h1 = f h2 -> h1 = h2).

Lemma inherits_id t t' fresh :
  (forall h o off, holds t' h o off -> (h = HStore /\ fresh o off) \/ holds t h o off) -> inherits t t' fresh.
Proof. intros H. exists id. done. Qed.

Definition no_fresh (_ _ : Z) : Prop := False.

Lemma pop_inherits sh t c w :
  inv sh t -> worker t = WPop -> last (stack t) = Some c ->
  inherits t (set_worker (set_stack (set_tx t 0 w) (take (length (stack t) - 1) (stack t)))
                (WCommit c (tx_buffer t !!! Z.to_nat (tx0 t)))) no_fresh.
Proof.
  intros Hi Hw Hl. pose proof (inv_tx0 _ _ Hi) as H0. pose proof (inv_pop _ _ Hi Hw) as Hpop.
  pose proof (inv_slots _ _ Hi) as Hs. rewrite Hw in *. simpl in H0.
  apply last_Some in Hl as (l & Hl). rewrite Hl in *. rewrite length_app in *. simpl in *.
  replace (length l + 1 - 1)%nat with (length l) in * by lia. rewrite take_app_length.
  replace (Z.to_nat (tx0 t)) with (S (length l)) by lia.
  destruct (Hs (length l) c) as ([? _] & _ & [[? _]|(Hn & _ & _ & _)]);
    [by rewrite lookup_app_r, Nat.sub_diag by lia|lia|].
  exists (fun h => match h with HCommit => HSlot (length l) | _ => h end). split.
  - intros [k| |] o off; simpl; rewrite Hl.
    + intros (? & Htx & c' & Hc' & ?). right. split; [done|]. split; [by rewrite <- Htx; upd|].
      exists c'. split; [|done]. rewrite lookup_app_l; [done|]. by eapply lookup_lt_Some.
    + intros (? & c' & Hc' & ?). right. split; [done|]. exists c'. split; [|done].
      rewrite lookup_app_l; [done|]. by eapply lookup_lt_Some.
    + intros (c' & [= <- <-] & <-). right. split; [done|]. split; [done|]. exists c.
      by rewrite lookup_app_r, Nat.sub_diag by lia.
  - intros [k1| |] [k2| |] o1 off1 o2 off2; simpl; try done; try congruence.
    + intros (_ & _ & c' & Hc' & _) _ [= ->]. apply lookup_lt_Some in Hc'. lia.
    + intros _ (_ & _ & c' & Hc' & _) [= <-]. apply lookup_lt_Some in Hc'. lia.
Qed.

Lemma store_inherits sh t off :
  inv sh t -> persister t = PStore off ->
  inherits t (set_persister (set_tx t (active_tx_id t + 1) off) PClear (active_tx_id t)) no_fresh.
Proof.
  intros Hi Hpc. pose proof (inv_persister _ _ Hi) as [_ Hp]. rewrite Hpc in Hp.
  pose proof (inv_depth _ _ Hi) as Hd. pose proof (inv_tx _ _ Hi) as Ht.
  assert (Ha : (S (active_tx_id t) < 16)%nat) by (destruct Hp as [? _]; destruct (opening _); lia).
  clear Hp Hd. set (a := active_tx_id t) in *.
  exists (fun h => match h with HSlot k => if decide (k = a) then HStore else h | _ => h end). split.
  - intros [k| |] o off'; simpl.
    + intros (Hn & Htx & c & Hc & Ho). right. destruct (decide (k = a)) as [->|].
      * split; [|by exists c]. rewrite Nat.add_1_r in Htx.
        rewrite list_lookup_total_insert_eq in Htx by lia. by subst.
      * split; [done|]. split; [|by exists c]. by rewrite list_lookup_total_insert_ne in Htx by lia.
    + intros [? _]. done.
    + intros (c & ? & ?). right. by exists c.
  - intros [k1| |] [k2| |] o1 off1 o2 off2; simpl; repeat destruct (decide _); subst; try done; try congruence;
      intros; destruct_and?; congruence.
Qed.

(** Worker steps that leave the offsets and the stack alone. *)
Lemma holds_same t t' h o off :
  (forall k, tx_buffer t' !!! S k = tx_buffer t !!! S k) -> stack t' = stack t ->
  persister t' = persister t -> active_tx_id t' = active_tx_id t ->
  (forall c off, worker t' <> WCommit c off) ->
  holds t' h o off -> holds t h o off.
Proof.
  intros Htx Hs Hp Ha Hw. destruct h as [k| |]; simpl; rewrite ?Htx, ?Hs, ?Hp, ?Ha; try done.
  intros (c & Hw' & _). by destruct (Hw c off).
Qed.

Lemma worker_step_inherits act sh t sh' t' out :
  inv sh t -> worker_step act sh t = Ok (sh', t', out) -> inherits t t' no_fresh.
Proof.
  intros Hi Hstep. unfold worker_step in Hstep. pose proof (inv_tx0 _ _ Hi) as H0.
  pose proof (inv_tx _ _ Hi) as Ht. pose proof (inv_depth _ _ Hi) as Hd.
  pose proof (inv_opening _ _ Hi) as Hop.
  destruct (worker t) as [|c|c|c|c|c|c|c| | |c off|] eqn:Hw; simpl in *;
    repeat match type of Hstep with
      | (match ?x with _ => _ end) = Ok _ => destruct x eqn:?; try discriminate Hstep
      | (if ?b then _ else _) = Ok _ => destruct b eqn:?; try discriminate Hstep
      end;
    try (apply Ok_inj in Hstep; injection Hstep as <- <- <-);
    try (apply inherits_id; intros h o off' Hh; right; revert Hh;
         apply holds_same; try done; simpl; try (intros; by upd); by rewrite ?Hw).
  - (* WZero *) apply inherits_id. intros [k| |] o off; simpl; try (by eauto).
    + intros (Hn & Htx & c' & Hc' & ?). right. pose proof (lookup_lt_Some _ _ _ Hc').
      split; [done|]. split; [|by exists c']. rewrite <- Htx. by upd.
    + by intros (? & ? & _).
  - (* WTag *) destruct (Hop c eq_refl) as (_ & _ & Hz). specialize (Hz I).
    apply inherits_id. intros [k| |] o off; simpl.
    + intros (Hn & Htx & c' & Hc' & ?). right. split; [done|]. split; [done|].
      apply lookup_app_Some in Hc' as [?|[? Hc']]; [by exists c'|].
      apply list_lookup_singleton_Some in Hc' as [? _].
      assert (k = length (stack t)) as -> by lia. by rewrite Hz in Htx.
    + intros (Hpc & c' & Hc' & ?). right. split; [done|]. exists c'. split; [|done].
      apply lookup_app_Some in Hc' as [?|[? Hc']]; [done|].
      pose proof (inv_persister _ _ Hi) as [_ Hp]. rewrite Hpc in Hp. destruct Hp as [? _]. lia.
    + by intros (? & ? & _).
  - (* WPop *) by eapply pop_inherits.
  - (* WCommit *) res_inv Hstep. apply Ok_inj in Hstep. injection Hstep as <- <- <-.
    apply inherits_id. intros h o off' Hh. right. revert Hh. by apply holds_same.
Qed.

Lemma persister_step_inherits sh t sh' t' out :
  inv sh t -> persister_step call_log obj_uuid log_len sh t = Ok (sh', t', out) ->
  inherits t t' (fun o off => forall v, ~ logged sh o off v).
Proof.
  intros Hi Hstep. unfold persister_step in Hstep. pose proof (inv_persister _ _ Hi) as [Ha Hp].
  assert (Hmove : forall p a, (forall off, p <> PStore off) ->
    inherits t (set_persister t p a) (fun o off => forall v, ~ logged sh o off v)).
  { intros p a Hne. apply inherits_id. intros [k| |] o off; simpl; [by right| |by right].
    intros [E _]. by destruct (Hne off). }
  destruct (persister t) as [| | | | | | |off| |] eqn:Hpc;
    repeat match type of Hstep with
      | (if ?b then _ else _) = Ok _ => destruct b; try discriminate Hstep
      end;
    try (apply Ok_inj in Hstep; injection Hstep as <- <- <-; by apply Hmove).
  - destruct Hp as (Hlt & Htag & _).
    destruct (pending_slot sh t (active_tx_id t)) as (c & Hc & _ & _ & Hoc); try done; [congruence|].
    res_inv Hstep. destruct r as [l off]. apply Ok_inj in Hstep. injection Hstep as <- <- <-.
    apply inherits_id. intros [k| |] o off'; simpl; [by right| |by right].
    intros ([= <-] & c' & Hc' & <-). left. split; [done|]. rewrite Hc in Hc'. injection Hc' as <-.
    rewrite Hoc in Hr. intros v. by eapply logged_fresh.
  - apply Ok_inj in Hstep. injection Hstep as <- <- <-.
    destruct (store_inherits sh t off Hi Hpc) as (f & Hf & Hinj). exists f. split; [|done].
    intros h o off' Hh. destruct (Hf h o off' Hh) as [[_ []]|]. by right.
  - apply Ok_inj in Hstep. injection Hstep as <- <- <-. apply inherits_id.
    intros h o off Hh. by right.
Qed.

(** ** Invariant of the system *)

(** No entry is held twice, by one thread or by two. *)
Definition sys_held (ts : list tstate) : Prop :=
  forall i j t1 t2 h1 h2 o off, ts !! i = Some t1 -> ts !! j = Some t2 ->
    holds t1 h1 o off -> holds t2 h2 o off -> i = j /\ h1 = h2.

Definition sys_inv (s : system) : Prop :=
  (forall i t, threads s !! i = Some t -> inv (sys s) t) /\ sys_held (threads s).

Lemma sys_held_once ts i t : sys_held ts -> ts !! i = Some t -> held_once t.
Proof. intros Hh Ht h1 h2 o off H1 H2. by destruct (Hh i i t t h1 h2 o off Ht Ht H1 H2). Qed.

(** A step of thread [i] keeps the system invariant if it keeps the thread's,
    its entries are inherited, and the entries of the others stay. *)
Lemma sys_inv_step sh sh' ts i t t' fresh :
  sys_inv (System sh ts) -> ts !! i = Some t -> inv sh' t' -> inherits t t' fresh ->
  (forall o off v, fresh o off -> ~ logged sh o off v) ->
  (forall h j t2 o off v, i <> j -> ts !! j = Some t2 -> holds t2 h o off ->
     logged sh o off v -> logged sh' o off v) ->
  sys_inv (System sh' (<[i := t']> ts)).
Proof.
  intros [Hinv Hheld] Hi Hi' (f & Hf & Hinj) Hfresh Hother. simpl in *.
  pose proof (lookup_lt_Some _ _ _ Hi) as Hlt.
  assert (Hcase : forall j t2, <[i := t']> ts !! j = Some t2 ->
            (j = i /\ t2 = t') \/ (j <> i /\ ts !! j = Some t2)).
  { intros j t2 Hj. destruct (decide (j = i)) as [->|].
    - rewrite list_lookup_insert_eq in Hj by done. left. split; [done|congruence].
    - rewrite list_lookup_insert_ne in Hj by done. by right. }
  assert (Hmix : forall h1 h2 j t2 o off, j <> i -> ts !! j = Some t2 ->
            holds t' h1 o off -> holds t2 h2 o off -> False).
  { intros h1 h2 j t2 o off Hji Hj H1 H2. destruct (Hf h1 o off H1) as [[_ Hfr]|H1'].
    - destruct (holds_logged sh t2 h2 o off) as [v Hv]; [by apply (Hinv j)|done|].
      by eapply Hfresh.
    - by destruct (Hheld i j t t2 (f h1) h2 o off). }
  split; simpl.
  - intros j t2 Hj. destruct (Hcase j t2 Hj) as [[-> ->]|[Hji Hj']]; [done|].
    eapply inv_frame; [by apply (Hinv j)|]. intros. by eapply (Hother h j).
  - intros j1 j2 t1 t2 h1 h2 o off Hj1 Hj2 H1 H2.
    destruct (Hcase _ _ Hj1) as [[-> ->]|[? Hj1']], (Hcase _ _ Hj2) as [[-> ->]|[? Hj2']].
    + split; [done|]. apply (Hinj h1 h2 o off o off); try done.
      destruct (Hf h1 o off H1) as [[-> Hfr]|H1'], (Hf h2 o off H2) as [[-> Hfr']|H2']; try done.
      * exfalso. destruct (holds_logged sh t (f h2) o off) as [v Hv]; [by apply (Hinv i)|done|].
        by eapply Hfresh.
      * exfalso. destruct (holds_logged sh t (f h1) o off) as [v Hv]; [by apply (Hinv i)|done|].
        by eapply Hfresh.
      * by destruct (Hheld i i t t (f h1) (f h2) o off).
    + exfalso. by eapply (Hmix h1 h2).
    + exfalso. by eapply (Hmix h2 h1).
    + by eapply Hheld.
Qed.

Lemma worker_step_logs act sh t sh' t' out o off v :
  worker_step act sh t = Ok (sh', t', out) ->
  (forall o' off', holds t HCommit o' off' -> (o, off) <> (o', off')) ->
  logged sh o off v -> logged sh' o off v.
Proof.
  intros Hstep Hne Hl. unfold worker_step in Hstep.
  destruct (worker t) as [|c|c|c|c|c|c|c| | |c off'|] eqn:Hw;
    repeat match type of Hstep with
      | (match ?x with _ => _ end) = Ok _ => destruct x eqn:?; try discriminate Hstep
      | (if ?b then _ else _) = Ok _ => destruct b eqn:?; try discriminate Hstep
      end;
    try (apply Ok_inj in Hstep; injection Hstep as <- <- <-; done).
  res_inv Hstep. apply Ok_inj in Hstep. injection Hstep as <- <- <-.
  eapply logged_commit; [done|apply Hne; by exists c|done].
Qed.

Lemma persister_step_logs sh t sh' t' out o off v :
  persister_step call_log obj_uuid log_len sh t = Ok (sh', t', out) ->
  logged sh o off v -> logged sh' o off v.
Proof.
  intros Hstep Hl. unfold persister_step in Hstep.
  destruct (persister t);
    repeat match type of Hstep with
      | (if ?b then _ else _) = Ok _ => destruct b; try discriminate Hstep
      end;
    try (apply Ok_inj in Hstep; injection Hstep as <- <- <-; done).
  res_inv Hstep. destruct r as [l off']. apply Ok_inj in Hstep. injection Hstep as <- <- <-.
  by eapply logged_append.
Qed.

Lemma holds_create h o off : ~ holds thread_create h o off.
Proof.
  destruct h; simpl.
  - intros (_ & _ & c & Hc & _). done.
  - by intros [? _].
  - by intros (c & ? & _).
Qed.

Lemma step_sys_inv s out s' :
  sys_inv s -> step call_log obj_uuid log_len s out s' -> sys_inv s'.
Proof.
  intros Hs Hstep. destruct Hstep as [sh ts i t act sh' t' out Hi Hact Hex Hst|sh ts i t sh' t' out Hi Hst|sh ts|sh ts locks].
  - pose proof Hs as [Hinv Hheld]. simpl in *.
    eapply sys_inv_step; [done|done| | | |].
    + eapply worker_step_inv; try done; [by apply (Hinv i)|by eapply sys_held_once].
    + eapply worker_step_inherits; [by apply (Hinv i)|done].
    + intros ? ? ? [].
    + intros h j t2 o off v Hij Hj Hh. eapply worker_step_logs; [done|].
      intros o' off' Hc [= <- <-]. by destruct (Hheld i j t t2 HCommit h o off).
  - pose proof Hs as [Hinv Hheld]. simpl in *.
    eapply sys_inv_step; [done|done| | | |].
    + eapply persister_step_inv; [by apply (Hinv i)|done].
    + eapply persister_step_inherits; [by apply (Hinv i)|done].
    + simpl. auto.
    + intros. by eapply persister_step_logs.
  - destruct Hs as [Hinv Hheld]. split; simpl in *.
    + intros i t Ht. apply lookup_app_Some in Ht as [?|[_ Ht]]; [by apply (Hinv i)|].
      apply list_lookup_singleton_Some in Ht as [_ <-]. apply thread_create_inv.
    + intros i j t1 t2 h1 h2 o off Hi Hj H1 H2.
      apply lookup_app_Some in Hi as [Hi|[_ Hi]];
        [|apply list_lookup_singleton_Some in Hi as [_ <-]; by apply holds_create in H1].
      apply lookup_app_Some in Hj as [Hj|[_ Hj]];
        [|apply list_lookup_singleton_Some in Hj as [_ <-]; by apply holds_create in H2].
      by eapply Hheld.
  - destruct Hs as [Hinv Hheld]. split; [|done]. simpl in *. intros i t Ht.
    eapply inv_frame; [by apply (Hinv i)|]. done.
Qed.

Lemma run_sys_inv s tr s' :
  run call_log obj_uuid log_len s tr s' -> sys_inv s -> sys_inv s'.
Proof. induction 1; [done|]. eauto using step_sys_inv. Qed.

Lemma reachable_inv s : reachable call_log obj_uuid log_len s -> sys_inv s.
Proof.
  intros (tr & Hr). eapply run_sys_inv; [done|]. split; [done|]. intros i j t1 t2 h1 h2 o off Hi. done.
Qed.

(** ** Logs along an execution *)

(** The operations of a trace on one log. *)
Definition ops_of (o : Z) (tr : list (Z * log_op)) : list log_op :=
  snd <$> filter (fun e => fst e = o) tr.

Definition out_ops (o : Z) (out : output) : list log_op :=
  match out with Some e => ops_of o [e] | None => [] end.

(** A step performs on each log the operation it reports. *)
Lemma append_spec sh o v l off o' :
  alog_append log_len (get_log sh o) v = Ok (l, off) ->
  spec_ops log_len (get_log sh o') (out_ops o' (Some (o, OpAppend v))) (get_log (set_log sh o l) o').
Proof.
  intros (Hv & Hfit & -> & _)%alog_append_inv. simpl. unfold ops_of. rewrite filter_cons. simpl.
  destruct (decide (o = o')) as [<-|].
  - rewrite get_set_log. eapply spec_cons; [|apply spec_nil].
    destruct (get_log sh o) as [es n]. by apply spec_append.
  - rewrite get_set_log_ne by done. apply spec_nil.
Qed.

Lemma commit_spec sh o off v l o' :
  logged sh o off v -> alog_commit (get_log sh o) off = Ok l ->
  spec_ops log_len (get_log sh o') (out_ops o' (Some (o, OpCommit off))) (get_log (set_log sh o l) o').
Proof.
  intros Hl Hc. simpl. unfold ops_of. rewrite filter_cons. simpl.
  destruct (decide (o = o')) as [<-|]; [|rewrite get_set_log_ne by done; apply spec_nil].
  rewrite get_set_log. eapply spec_cons; [|apply spec_nil].
  unfold logged in Hl. unfold alog_commit in Hc. res_inv Hc. apply Ok_inj in Hc as <-. apply Z.ltb_lt in Hb.
  destruct (get_log sh o) as [es n]. simpl in *.
  destruct (lookup_off_index _ _ _ _ Hl) as (i & Hi & -> & ->). simpl. by apply spec_commit.
Qed.

Lemma step_logs s out s' o :
  sys_inv s -> step call_log obj_uuid log_len s out s' ->
  spec_ops log_len (get_log (sys s) o) (out_ops o out) (get_log (sys s') o).
Proof.
  intros [Hinv _] Hstep. destruct Hstep as [sh ts i t act sh' t' out Hi _ _ Hst|sh ts i t sh' t' out Hi Hst|sh ts|sh ts locks];
    simpl in *; try apply spec_nil.
  - pose proof (inv_commit _ _ (Hinv i t Hi)) as Hcm. unfold worker_step in Hst.
    destruct (worker t) as [|c|c|c|c|c|c|c| | |c off|] eqn:Hw;
      repeat match type of Hst with
        | (match ?x with _ => _ end) = Ok _ => destruct x eqn:?; try discriminate Hst
        | (if ?b then _ else _) = Ok _ => destruct b eqn:?; try discriminate Hst
        end;
      try (apply Ok_inj in Hst; injection Hst as <- <- <-; apply spec_nil).
    res_inv Hst. apply Ok_inj in Hst. injection Hst as <- <- <-.
    destruct (Hcm c off eq_refl) as (v & Hv & _). by eapply commit_spec.
  - unfold persister_step in Hst.
    destruct (persister t);
      repeat match type of Hst with
        | (if ?b then _ else _) = Ok _ => destruct b; try discriminate Hst
        end;
      try (apply Ok_inj in Hst; injection Hst as <- <- <-; apply spec_nil).
    res_inv Hst. destruct r as [l off]. apply Ok_inj in Hst. injection Hst as <- <- <-.
    by eapply append_spec.
Qed.

Lemma spec_ops_app len s1 ops1 s2 ops2 s3 :
  spec_ops len s1 ops1 s2 -> spec_ops len s2 ops2 s3 -> spec_ops len s1 (ops1 ++ ops2) s3.
Proof. induction 1; intros; simpl; [done|]. econstructor; eauto. Qed.

Lemma ops_of_cons o e tr : ops_of o (e :: tr) = ops_of o [e] ++ ops_of o tr.
Proof. unfold ops_of. rewrite !filter_cons. by destruct (decide _). Qed.

Lemma run_logs s tr s' o :
  run call_log obj_uuid log_len s tr s' -> sys_inv s ->
  spec_ops log_len (get_log (sys s) o) (ops_of o tr) (get_log (sys s') o).
Proof.
  induction 1 as [|s1 out s2 tr s3 Hstep _ IH]; intros Hs; [apply spec_nil|].
  pose proof (step_logs _ _ _ o Hs Hstep) as H1. specialize (IH (step_sys_inv _ _ _ Hs Hstep)).
  destruct out as [e|]; simpl in *.
  - rewrite ops_of_cons. by eapply spec_ops_app.
  - by eapply (spec_ops_app _ _ []).
Qed.

Lemma run_init_logs tr s o :
  run call_log obj_uuid log_len system_init tr s ->
  spec_ops log_len ([], 0) (ops_of o tr) (get_log (sys s) o).
Proof. intros Hr. apply (run_logs _ _ _ o Hr). split; [done|]. intros i j t1 t2 h1 h2 o' off Hi. done. Qed.

(** [C14] Every interleaving of workers and persisters is a legal history of
    every object's log: running the log operations it performs, in their
    order, on an empty byte-level log never fails and leaves that log
    holding exactly the entries and commit numbers of the execution, durably. *)
Theorem execution_refines_log {P : Type} `{PmemLaws P} tr s o (p : P) :
  run call_log obj_uuid log_len system_init tr s ->
  log_repr p [] 0 -> log_durable p -> pm_len p = log_len ->
  exists p', run_ops p (ops_of o tr) = Ok p' /\
    log_repr p' (fst (get_log (sys s) o)) (snd (get_log (sys s) o)) /\ log_durable p'.
Proof.
  intros Hr Hp Hd Hlen. pose proof (run_init_logs tr s o Hr) as Hs. rewrite <- Hlen in Hs.
  destruct (get_log (sys s) o) as [es n].
  destruct (run_ops_refines _ _ _ _ _ _ Hp Hd Hs) as (p' & ? & ? & ? & _). by exists p'.
Qed.

(** [C15] Write-ahead: when a worker commits a call, the call's entry is in
    the log of its object, not yet committed, and holds what [Log] produced
    for the call's own tag and arguments; for a nested call it holds the
    uuid of the parent object and the offset of the parent's entry, and that
    entry is in the parent's log, not yet committed. *)
Theorem commit_follows_log sh ts i t c off :
  reachable call_log obj_uuid log_len (System sh ts) -> ts !! i = Some t -> worker t = WCommit c off ->
  exists v, logged sh (c_obj c) off v /\
    match last (stack t) with
    | None => exists args, take (length (c_args c)) args = c_args c /\
                           v = call_log (c_obj c) (c_tag c) args
    | Some p => exists poff pv,
        v = [le_bytes 8 (nested_tag poff); obj_uuid (c_obj p)] /\ logged sh (c_obj p) poff pv
    end.
Proof.
  intros [Hinv _]%reachable_inv Ht Hw. pose proof (Hinv i t Ht) as Hi.
  destruct (inv_commit _ _ Hi c off Hw) as (v & Hv & Hm). exists v. split; [done|].
  destruct (last (stack t)) as [p|] eqn:El; [|done]. destruct Hm as [Hn ->].
  apply last_Some in El as (l & Hl). rewrite Hl, length_app, Nat.add_1_r in *.
  destruct (inv_slots _ _ Hi (length l) p) as (_ & _ & [[_ ?]|(_ & _ & Hlog & _)]);
    [by rewrite Hl, lookup_app_r, Nat.sub_diag by lia|done|]. eauto.
Qed.

(** ** Progress of the persister *)

(** [n] steps of the persister while its worker waits. *)
Fixpoint persister_run (n : nat) (sh : shared) (t : tstate) : res (shared * tstate) :=
  match n with
  | O => Ok (sh, t)
  | S n =>
      let* r := persister_step call_log obj_uuid log_len sh t in
      persister_run n (fst (fst r)) (snd (fst r))
  end.

(** The first [p] open calls are logged, the others are not. *)
Definition logged_prefix (t : tstate) (p : nat) : Prop :=
  (p <= length (stack t))%nat /\
  forall k, (k < length (stack t))%nat -> tx_buffer t !!! S k <> 0 <-> (k < p)%nat.

Lemma logged_prefix_exists sh t : inv sh t -> exists p, logged_prefix t p.
Proof.
  intros Hi.
  assert (Hclosed : forall k, (S k < length (stack t))%nat -> tx_buffer t !!! S (S k) <> 0 ->
            tx_buffer t !!! S k <> 0).
  { intros k (c & Hc)%lookup_lt_is_Some Hn.
    destruct (inv_slots _ _ Hi _ c Hc) as (_ & _ & [[_ ?]|(_ & [?|?] & _)]); done. }
  assert (Hex : forall d, (d <= length (stack t))%nat ->
    exists p, (p <= d)%nat /\ forall k, (k < d)%nat -> tx_buffer t !!! S k <> 0 <-> (k < p)%nat).
  { induction d as [|d IH]; intros Hd; [exists 0%nat; split; [lia|intros; lia]|].
    destruct IH as (p & Hp & Hk); [lia|]. destruct (decide (tx_buffer t !!! S d = 0)) as [Hz|Hn].
    - exists p. split; [lia|]. intros k Hkd. destruct (decide (k = d)) as [->|].
      + split; [done|lia].
      + apply Hk. lia.
    - exists (S d). split; [lia|]. intros k Hkd. split; [lia|]. intros _.
      destruct (decide (k = d)) as [->|]; [done|]. apply Hk; [lia|].
      destruct d as [|d]; [lia|]. specialize (Hclosed d ltac:(lia) Hn). apply Hk in Hclosed; lia. }
  apply (Hex (length (stack t))). lia.
Qed.

(** Distance to the point where everything is logged. *)
Definition weight (p : nat) (t : tstate) : nat :=
  let a := active_tx_id t in
  let stale := if decide (p <= a < length (stack t))%nat then 20%nat else 0%nat in
  (200 * (length (stack t) - p) + 8 * ((a - p) + (p - a)) +
   match persister t with
   | PHead => 7 | PZero => 6 + stale | PGt => 5 + stale
   | PLt => 4 + (if decide (p <= a)%nat then 20 else 0)
   | PTerm => 6 | PParent => 5 | PLog => 4 | PStore _ => 3 | PClear => 8 | PExit => 0
   end)%nat.

(** A slot the persister finds tagged while it is not clearing is unlogged. *)
Lemma tagged_unlogged sh t p a :
  inv sh t -> logged_prefix t p -> persister t <> PClear -> worker t <> WTerm -> (a < 15)%nat ->
  tag_at t a <> 0 <-> (p <= a < length (stack t))%nat.
Proof.
  intros Hi [Hp Hk] Hne Hw Ha. destruct (decide (a < length (stack t))%nat) as [Hlt|Hge].
  - pose proof Hlt as (c & Hc)%lookup_lt_is_Some.
    destruct (inv_slots _ _ Hi _ c Hc) as ([Htag _] & _ & [[Ht ?]|(Hn & _ & _ & [Ht|(_ & ? & _)])]); try done.
    + assert (~ (a < p)%nat) by (rewrite <- Hk; [|done]; lia). lia.
    + apply Hk in Hn; [|done]. lia.
  - destruct (inv_free _ _ Hi a) as [?|[? _]]; [lia| |done]. lia.
Qed.

Definition waiting (sh : shared) (t : tstate) : Prop :=
  inv sh t /\ worker t = WSpin /\ (active_tx_id t < 15)%nat /\ tag_at t (length (stack t) - 1) <> 0.

Lemma waiting_facts sh t p :
  waiting sh t -> logged_prefix t p ->
  (0 < length (stack t) <= 15)%nat /\ tx0 t = Z.of_nat (length (stack t)) /\
  (persister t = PClear \/ (p < length (stack t))%nat).
Proof.
  intros (Hi & Hw & Ha & Htag) Hp. pose proof (inv_tx0 _ _ Hi) as H0. pose proof (inv_depth _ _ Hi) as Hd.
  pose proof (inv_spinning _ _ Hi) as Hs. rewrite Hw in *. simpl in *.
  assert (0 < length (stack t))%nat by (destruct (stack t); [by destruct Hs|simpl; lia]).
  split; [lia|]. split; [lia|]. destruct (decide (persister t = PClear)); [by left|right].
  apply (tagged_unlogged sh t p) in Htag; try done; [lia|congruence|lia].
Qed.

(** The slot that was appended and is now stored is the first one that was
    not logged. *)
Lemma stored_prefix sh t p off :
  inv sh t -> logged_prefix t p -> persister t = PStore off -> (p <= active_tx_id t < 15)%nat ->
  active_tx_id t = p /\ logged_prefix (set_persister (set_tx t (active_tx_id t + 1) off) PClear (active_tx_id t)) (S p).
Proof.
  intros Hi [_ Hk] Hpc Ha. pose proof (inv_persister _ _ Hi) as [_ Hp]. pose proof (inv_tx _ _ Hi) as Htx.
  rewrite Hpc in Hp. destruct Hp as (Hlt & _ & Hpar & c & _ & Hlog%logged_pos).
  assert (Eap : active_tx_id t = p).
  { destruct Hpar as [?|Hpar]; [lia|]. destruct (active_tx_id t) as [|q]; [lia|]. apply Hk in Hpar; lia. }
  split; [done|]. split; simpl; [lia|]. intros k Hkl. rewrite Eap, Nat.add_1_r. destruct (decide (k = p)) as [->|].
  - upd. lia.
  - rewrite list_lookup_total_insert_ne by lia. rewrite Hk by done. lia.
Qed.

(** The step leaves the logged prefix [p] as it is; what remains is that the
    weight goes down from the program counter that [Hpc] gives. *)
Ltac keeps_prefix p Hpc :=
  repeat (split; [done|]); exists p; split; [done|]; unfold weight; simpl; rewrite Hpc.

(** The persister is about to append what the slot says, and the append will
    fail its assertion: the class logs nothing, or the log is full. *)
Definition append_refused (sh : shared) (t : tstate) : Prop :=
  let v := log_vectors call_log obj_uuid t (active_tx_id t) in
  persister t = PLog /\
  (v = [] \/ log_len < alog_tail (get_log sh (obj_ptr (buffer t !!! active_tx_id t))) + esize (Entry 0 (concat v))).

(** Each step of the persister brings a waiting worker closer. *)
Lemma persister_progress sh t p :
  waiting sh t -> logged_prefix t p ->
  match persister_step call_log obj_uuid log_len sh t with
  | Ok (_, t', _) =>
      (active_tx_id t' < 15)%nat /\ worker t' = WSpin /\ stack t' = stack t /\
      exists p', logged_prefix t' p' /\ (weight p' t' < weight p t)%nat
  | AssertFail => append_refused sh t
  | _ => False
  end.
Proof.
  intros Hwait Hpre. pose proof (waiting_facts _ _ _ Hwait Hpre) as (Hd & H0 & Hcl).
  destruct Hwait as (Hi & Hw & Ha & Htag). pose proof (inv_persister _ _ Hi) as [_ Hp].
  assert (Hnt : worker t <> WTerm) by congruence.
  pose proof (inv_buffer _ _ Hi) as Hb. pose proof (inv_tx _ _ Hi) as Htx.
  unfold persister_step.
  destruct (persister t) as [| | | | | | |off| |] eqn:Hpc.
  - rewrite Hb. rewrite (proj2 (Nat.ltb_lt _ _)) by done. destruct Hcl as [?|Hcl]; [done|].
    pose proof (tagged_unlogged sh t p (active_tx_id t) Hi Hpre ltac:(congruence) Hnt Ha) as Ht.
    destruct (Z.eqb_spec (tag_at t (active_tx_id t)) 0) as [E|E].
    + keeps_prefix p Hpc; (destruct (decide _) as [Hin|]; [|lia]); by apply Ht in Hin.
    + keeps_prefix p Hpc; lia.
  - rewrite H0. rewrite (proj2 (Z.eqb_neq _ _)) by lia. keeps_prefix p Hpc; lia.
  - rewrite H0, u64_small by lia. destruct Hcl as [?|Hcl]; [done|].
    destruct (Z.ltb_spec (Z.of_nat (length (stack t)) - 1) (Z.of_nat (active_tx_id t))).
    + split; [simpl; lia|]. keeps_prefix p Hpc; lia.
    + keeps_prefix p Hpc; repeat destruct (decide _); lia.
  - rewrite H0, u64_small by lia. destruct Hcl as [?|Hcl]; [done|].
    destruct (Z.ltb_spec (Z.of_nat (active_tx_id t)) (Z.of_nat (length (stack t)) - 1)).
    + split; [simpl; lia|]. keeps_prefix p Hpc; destruct (decide _); lia.
    + keeps_prefix p Hpc; destruct (decide _); lia.
  - destruct Hp as [_ Htg]. apply (tagged_unlogged sh t p) in Htg; try done; [|congruence].
    pose proof (proj2 Htg) as (c & Hc)%lookup_lt_is_Some.
    destruct (inv_slots _ _ Hi _ c Hc) as ([? _] & _ & Hs).
    rewrite (proj2 (Z.eqb_neq _ _)) by (destruct Hs as [[? _]|(_ & _ & _ & [?|[? _]])]; lia).
    keeps_prefix p Hpc; lia.
  - destruct Hp as [_ Htg]. apply (tagged_unlogged sh t p) in Htg; try done; [|congruence].
    destruct (_ && _) eqn:E.
    + apply andb_true_iff in E as [E1 E2]. apply Nat.ltb_lt in E1. apply Z.eqb_eq in E2.
      assert (active_tx_id t <> p).
      { intros Eap. destruct Hpre as [_ Hk]. destruct (active_tx_id t) as [|q]; [lia|].
        assert (Hq : tx_buffer t !!! S q <> 0) by (apply Hk; lia). done. }
      split; [simpl; lia|]. keeps_prefix p Hpc; lia.
    + keeps_prefix p Hpc; lia.
  - unfold alog_append. destruct (negb (bool_decide _)) eqn:Ev.
    2:{ split; [done|]. left. by apply negb_false_iff, bool_decide_eq_true in Ev. }
    destruct (Z.leb_spec (alog_tail (get_log sh (obj_ptr (buffer t !!! active_tx_id t))) +
      esize (Entry 0 (concat (log_vectors call_log obj_uuid t (active_tx_id t))))) log_len);
      [|split; [done|]; by right]. simpl.
    keeps_prefix p Hpc; lia.
  - destruct Hp as (Hlt & Htg & _). apply (tagged_unlogged sh t p) in Htg; try done; [|congruence].
    destruct (stored_prefix sh t p off) as [Eap Hpre']; [done..|lia|].
    repeat (split; [done|]). exists (S p). split; [done|]. unfold weight. simpl. rewrite Hpc. lia.
  - keeps_prefix p Hpc; lia.
  - done.
Qed.

Lemma persister_serves n sh t p :
  (weight p t <= n)%nat -> waiting sh t -> logged_prefix t p ->
  exists m sh' t', (m <= n)%nat /\ persister_run m sh t = Ok (sh', t') /\ inv sh' t' /\
    stack t' = stack t /\ worker t' = WSpin /\
    (tag_at t' (length (stack t) - 1) = 0 \/ append_refused sh' t').
Proof.
  revert sh t p. induction n as [n IH] using lt_wf_ind. intros sh t p Hn Hwait Hpre.
  pose proof (persister_progress _ _ _ Hwait Hpre) as Hprog. destruct Hwait as (Hi & Hw & Ha & Htag).
  destruct (persister_step call_log obj_uuid log_len sh t) as [[[sh1 t1] out]| | |] eqn:Hst; [| |done|done].
  - destruct Hprog as (Ha1 & Hw1 & Hs1 & p1 & Hp1 & Hlt).
    pose proof (persister_step_inv _ _ _ _ _ Hi Hst) as Hi1.
    destruct (decide (tag_at t1 (length (stack t) - 1) = 0)) as [Hz|Hnz].
    + exists 1%nat, sh1, t1. split; [lia|]. simpl. rewrite Hst. split; [done|]. split; [done|]. split; [done|]. split; [done|by left].
    + destruct (IH (n - 1)%nat ltac:(lia) sh1 t1 p1) as (m & sh' & t' & Hm & Hrun & Hres); [lia| |done|].
      { split; [done|]. split; [done|]. split; [done|]. by rewrite Hs1. }
      exists (S m), sh', t'. split; [lia|]. simpl. rewrite Hst. simpl. rewrite Hs1 in Hres. done.
  - exists 0%nat, sh, t. split; [lia|]. split; [done|]. split; [done|]. split; [done|]. split; [done|]. by right.
Qed.

(** A spinning worker whose last tag is cleared: all its calls are logged. *)
Lemma cleared_all_logged sh t :
  inv sh t -> stack t <> [] -> tag_at t (length (stack t) - 1) = 0 ->
  forall k c, stack t !! k = Some c ->
    tx_buffer t !!! S k <> 0 /\ logged sh (c_obj c) (tx_buffer t !!! S k) (slot_vectors t k c).
Proof.
  intros Hi Hne Hz k c Hk.
  assert (Hn : tx_buffer t !!! S k <> 0).
  { destruct (logged_prefix_exists _ _ Hi) as (p & Hp & Hpk).
    assert (Hlt : (length (stack t) - 1 < length (stack t))%nat) by (destruct (stack t); [done|cbn; lia]).
    pose proof Hlt as (c' & Hc')%lookup_lt_is_Some.
    destruct (inv_slots _ _ Hi _ c' Hc') as ([[? _] _] & _ & [[? _]|(Hn & _)]); [lia|].
    apply (Hpk _ Hlt) in Hn. apply Hpk; [by eapply lookup_lt_Some|]. apply lookup_lt_Some in Hk. lia. }
  split; [done|]. by destruct (inv_slots _ _ Hi _ c Hk) as (_ & _ & [[_ ?]|(_ & _ & Hl & _)]).
Qed.

(** [C16] A worker does not wait for ever.  While it spins in
    [Savitar_thread_wait], either its persister has run past the last slot
    ([active_tx_id] is 15, which [persister_overrun] reaches) and its next
    step is a fault; or the persister, run alone, within 3,300 of its steps
    has logged every open call of the worker, with its offset in [tx_buffer],
    and cleared the tag that the worker spins on; or it gets to an append that
    fails its assertion because the log is full or the class logs nothing. *)
Theorem persister_serves_worker s i t :
  reachable call_log obj_uuid log_len s -> threads s !! i = Some t -> worker t = WSpin ->
  (active_tx_id t = 15%nat /\ persister_step call_log obj_uuid log_len (sys s) t = Segfault) \/
  exists m sh' t', (m <= 3300)%nat /\ persister_run m (sys s) t = Ok (sh', t') /\ stack t' = stack t /\
    ((tag_at t' (length (stack t) - 1) = 0 /\
      forall k c, stack t !! k = Some c ->
        tx_buffer t' !!! S k <> 0 /\ logged sh' (c_obj c) (tx_buffer t' !!! S k) (slot_vectors t' k c)) \/
     append_refused sh' t').
Proof.
  intros [Hinv _]%reachable_inv Ht Hw. pose proof (Hinv i t Ht) as Hi.
  pose proof (inv_spinning _ _ Hi) as Hne. rewrite Hw in Hne. specialize (Hne I).
  destruct (decide (active_tx_id t < 15)%nat) as [Ha|Ha].
  2:{ left. destruct (inv_persister _ _ Hi) as [Hle Hp]. assert (E : active_tx_id t = 15%nat) by lia. split; [done|].
      pose proof (inv_depth _ _ Hi) as Hd. rewrite Hw in Hd. cbn in Hd. unfold persister_step.
      destruct (persister t); try (exfalso; lia); [|congruence]. rewrite E, (inv_buffer _ _ Hi). done. }
  right.
  destruct (decide (tag_at t (length (stack t) - 1) = 0)) as [Hz|Hnz].
  { exists 0%nat, (sys s), t. split; [lia|]. split; [done|]. split; [done|]. left. split; [done|]. by apply cleared_all_logged. }
  destruct (logged_prefix_exists _ _ Hi) as (p & Hp).
  assert (Hwait : waiting (sys s) t) by done.
  destruct (waiting_facts _ _ _ Hwait Hp) as (Hd & _).
  destruct (persister_serves 3300 (sys s) t p) as (m & sh' & t' & Hm & Hrun & Hi' & Hst & Hw' & Hres); try done.
  - destruct Hp as [Hp _]. unfold weight. destruct (persister t); repeat destruct (decide _); lia.
  - exists m, sh', t'. split; [done|]. split; [done|]. split; [done|].
    destruct Hres as [Hz|Hr]; [left|by right]. split; [done|]. rewrite <- Hst in Hne, Hz |- *. by apply cleared_all_logged.
Qed.

(** ** Which failures are possible *)


(** *** Executions of a single thread, by evaluation *)

Inductive move := MWorker (act : action) | MPersister.

Definition move_step (m : move) (sh : shared) (t : tstate) : res (shared * tstate * output) :=
  match m with
  | MWorker act => worker_step act sh t
  | MPersister => persister_step call_log obj_uuid log_len sh t
  end.

Fixpoint play (ms : list move) (sh : shared) (t : tstate) : res (shared * tstate) :=
  match ms with
  | [] => Ok (sh, t)
  | m :: ms => let* r := move_step m sh t in play ms (fst (fst r)) (snd (fst r))
  end.

Definition move_ok (m : move) : Prop :=
  match m with MWorker (ACall c) => call_ok c | MWorker AReturn | MPersister => True | MWorker AExit => False end.

Lemma run_snoc s1 tr s2 out s3 :
  run call_log obj_uuid log_len s1 tr s2 -> step call_log obj_uuid log_len s2 out s3 ->
  exists tr', run call_log obj_uuid log_len s1 tr' s3.
Proof.
  induction 1 as [s|s1 o s2 tr s2' Hst _ IH]; intros Hlast.
  - eexists. eapply run_cons; [done|apply run_nil].
  - destruct (IH Hlast) as (tr' & Hr). eexists. by eapply run_cons.
Qed.

Lemma play_reachable ms sh t sh' t' :
  reachable call_log obj_uuid log_len (System sh [t]) -> Forall move_ok ms ->
  play ms sh t = Ok (sh', t') -> reachable call_log obj_uuid log_len (System sh' [t']).
Proof.
  intros Hr Hok. revert sh t Hr. induction Hok as [|m ms Hm Hms IH]; intros sh t (tr & Hr) Hplay.
  - simpl in Hplay. apply Ok_inj in Hplay. injection Hplay as <- <-. by exists tr.
  - simpl in Hplay. res_inv Hplay. destruct r as [[sh1 t1] out]. simpl in Hplay.
    eapply IH; [|exact Hplay].
    destruct m as [act|]; simpl in *; eapply run_snoc; [done| |done|].
    + apply (step_worker call_log obj_uuid log_len sh [t] 0 t act sh1 t1 out); [done|by destruct act|by destruct act|done].
    + by apply (step_persister call_log obj_uuid log_len sh [t] 0 t sh1 t1 out).
Qed.

Lemma create_reachable : reachable call_log obj_uuid log_len (System (Shared ∅ ∅) [thread_create]).
Proof. eexists. eapply run_cons; [|apply run_nil]. apply (step_create _ _ _ (Shared ∅ ∅) []). Qed.

(** The same, with the log operations performed. *)
Fixpoint play_trace (ms : list move) (sh : shared) (t : tstate)
  : res (shared * tstate * list (Z * log_op)) :=
  match ms with
  | [] => Ok (sh, t, [])
  | m :: ms =>
      let* r := move_step m sh t in
      let '(sh, t, out) := r in
      let* s := play_trace ms sh t in
      let '(sh, t, tr) := s in
      Ok (sh, t, match out with Some e => e :: tr | None => tr end)
  end.

Lemma play_trace_run ms sh t sh' t' tr :
  Forall move_ok ms -> play_trace ms sh t = Ok (sh', t', tr) ->
  run call_log obj_uuid log_len (System sh [t]) tr (System sh' [t']).
Proof.
  intros Hok. revert sh t tr. induction Hok as [|m ms Hm Hms IH]; intros sh t tr Hplay.
  - simpl in Hplay. apply Ok_inj in Hplay. injection Hplay as <- <- <-. apply run_nil.
  - simpl in Hplay. res_inv Hplay. destruct r as [[sh1 t1] out]. res_inv Hplay.
    destruct r as [[sh2 t2] tr2]. apply Ok_inj in Hplay. injection Hplay as -> -> <-.
    eapply run_cons; [|by eapply IH].
    destruct m as [act|]; simpl in *.
    + apply (step_worker call_log obj_uuid log_len sh [t] 0 t act sh1 t1 out); [done|by destruct act|by destruct act|done].
    + by apply (step_persister call_log obj_uuid log_len sh [t] 0 t sh1 t1 out).
Qed.

End inv.

(** ** Concrete executions *)

(** One object, whose calls log their tag, and logs of 4096 bytes. *)
Definition demo_call_log (o tag : Z) (args : list Z) : list (list Z) := [le_bytes 8 tag].
Definition demo_uuid (o : Z) : list Z := replicate 16 o.

Definition demo_call (o : Z) : list move := [MWorker (ACall (Call o 1 []))] ++ replicate 4 (MWorker AReturn).
Definition demo_return : list move := replicate 4 (MWorker AReturn).

(** Fifteen nested calls, logged by the persister; the persister reads
    [tx_buffer[0]] as 15, then the worker commits all fifteen calls, then
    the persister evaluates its two comparisons. *)
Definition overrun_moves : list move :=
  concat (replicate 15 (demo_call 7)) ++
  replicate 6 MPersister ++ concat (replicate 14 (replicate 10 MPersister)) ++
  replicate 2 MPersister ++ concat (replicate 15 demo_return) ++ replicate 2 MPersister.

Ltac moves_ok :=
  repeat (apply Forall_cons; split;
          [first [exact I | split; [split; by_eval|apply Nat.leb_le; reflexivity]]|]);
  apply Forall_nil; exact I.

Lemma overrun_moves_ok : Forall move_ok overrun_moves.
Proof. unfold overrun_moves, demo_call, demo_return. simpl. moves_ok. Qed.

(** The persister reads [tx_buffer[0]] three times in its waiting loop.
    If fifteen calls are open and all of them commit between the first
    read and the other two, [tx_buffer[0] - 1] wraps around,
    [active_tx_id] becomes 15, and the next iteration reads past the end
    of the buffer of fifteen slots. *)
Theorem persister_overrun :
  exists s t, reachable demo_call_log demo_uuid 4096 s /\ threads s = [t] /\
    active_tx_id t = 15%nat /\ length (buffer t) = 15%nat /\
    persister_step demo_call_log demo_uuid 4096 (sys s) t = Segfault.
Proof.
  destruct (play demo_call_log demo_uuid 4096 overrun_moves (Shared ∅ ∅) thread_create)
    as [[sh t]| | |] eqn:E; [|by vm_compute in E..].
  exists (System sh [t]), t. split.
  { eapply play_reachable; [apply create_reachable|apply overrun_moves_ok|exact E]. }
  split; [done|]. vm_compute in E. apply Ok_inj in E. injection E as <- <-. done.
Qed.

(** A call on object 7 that calls object 9; both are logged; then a wait. *)
Definition nested_moves : list move :=
  demo_call 7 ++ demo_call 9 ++ replicate 16 MPersister ++ replicate 3 (MWorker AReturn).
Definition nested_state : shared * tstate :=
  res_get (Shared ∅ ∅, thread_create) (play demo_call_log demo_uuid 1024 nested_moves (Shared ∅ ∅) thread_create).

Lemma nested_reachable :
  reachable demo_call_log demo_uuid 1024 (System (fst nested_state) [snd nested_state]).
Proof.
  apply (play_reachable _ _ _ nested_moves (Shared ∅ ∅) thread_create); [apply create_reachable| |].
  - unfold nested_moves, demo_call. simpl. moves_ok.
  - vm_compute. reflexivity.
Qed.

Lemma commit_follows_log_witness :
  exists v, logged (fst nested_state) 9 64 v /\
    match last (stack (snd nested_state)) with
    | None => exists args, take (length (A:=Z) []) args = [] /\ v = demo_call_log 9 1 args
    | Some p => exists poff pv,
        v = [le_bytes 8 (nested_tag poff); demo_uuid (c_obj p)] /\
        logged (fst nested_state) (c_obj p) poff pv
    end.
Proof.
  apply (commit_follows_log demo_call_log demo_uuid 1024 (fst nested_state) [snd nested_state] 0
           (snd nested_state) (Call 9 1 []) 64);
    [apply nested_reachable|reflexivity|vm_compute; reflexivity].
Defined.


Lemma execution_refines_log_witness :
  exists tr p', run_ops demo_log (ops_of 9 tr) = Ok p' /\
    log_repr p' (fst (get_log (fst nested_state) 9)) (snd (get_log (fst nested_state) 9)) /\
    log_durable p'.
Proof.
  destruct nested_reachable as (tr & Hr). exists tr.
  apply (execution_refines_log demo_call_log demo_uuid 1024 tr
           (System (fst nested_state) [snd nested_state]) 9 demo_log);
    [exact Hr|apply demo_log_repr|apply demo_log_durable|reflexivity].
Defined.

(** Three nested calls, none of them logged yet; then a wait. *)
Definition spin_moves : list move :=
  demo_call 7 ++ demo_call 9 ++ demo_call 7 ++ [MWorker AReturn].
Definition spin_state : shared * tstate :=
  res_get (Shared ∅ ∅, thread_create) (play demo_call_log demo_uuid 1024 spin_moves (Shared ∅ ∅) thread_create).

Lemma spin_reachable : reachable demo_call_log demo_uuid 1024 (System (fst spin_state) [snd spin_state]).
Proof.
  apply (play_reachable _ _ _ spin_moves (Shared ∅ ∅) thread_create); [apply create_reachable| |].
  - unfold spin_moves, demo_call. simpl. moves_ok.
  - vm_compute. reflexivity.
Qed.

Lemma persister_serves_worker_witness :
  (active_tx_id (snd spin_state) = 15%nat /\
   persister_step demo_call_log demo_uuid 1024 (fst spin_state) (snd spin_state) = Segfault) \/
  exists m sh' t', (m <= 3300)%nat /\
    persister_run demo_call_log demo_uuid 1024 m (fst spin_state) (snd spin_state) = Ok (sh', t') /\
    stack t' = stack (snd spin_state) /\
    ((tag_at t' (length (stack (snd spin_state)) - 1) = 0 /\
      forall k c, stack (snd spin_state) !! k = Some c ->
        tx_buffer t' !!! S k <> 0 /\
        logged sh' (c_obj c) (tx_buffer t' !!! S k) (slot_vectors demo_call_log demo_uuid t' k c)) \/
     append_refused demo_call_log demo_uuid 1024 sh' t').
Proof.
  apply (persister_serves_worker demo_call_log demo_uuid 1024 (System (fst spin_state) [snd spin_state]) 0
           (snd spin_state));
    [apply spin_reachable|reflexivity|vm_compute; reflexivity].
Defined.
