(* ===== verification/Cores.v ===== *)
(** * Processor topology and core assignment (cpu_info.cpp, thread.cpp)

    [get_cpu_info] parses /proc/cpuinfo into a map from processors to
    physical cores; [Savitar_core_init] groups processors into pairs of
    hyper-threads; [Savitar_core_alloc] and [Savitar_core_free] give each
    worker and its persister the least occupied physical core. *)

From stdpp Require Import base numbers list gmap sorting strings.
From Stdlib Require Import Ascii.
From S2P Require Import Prelude Savitar.

(** ** get_cpu_info *)
Module CpuInfo.

Definition MAX_SOCKETS : nat := 2.

(** A line of text is a list of character codes. *)
Definition TAB : Z := 9.
Definition NL : Z := 10.
Definition SPACE : Z := 32.
Definition COLON : Z := 58.

Definition is_space (c : Z) : bool := (c =? SPACE) || ((TAB <=? c) && (c <=? 13)).

Fixpoint span (p : Z -> bool) (s : list Z) : list Z * list Z :=
  match s with
  | [] => ([], [])
  | c :: s' => if p c then let '(a, b) := span p s' in (c :: a, b) else ([], s)
  end.

Definition skip_spaces (s : list Z) : list Z := snd (span is_space s).

(** [fgets(line, sizeof(line), f)] with [room] characters of [line] left: up
    to a newline, which is kept, and what follows.  The text has no NUL. *)
Definition sizeof_line : nat := Z.to_nat 1024.
Definition sizeof_tag : nat := Z.to_nat 128.
Fixpoint fgets (room : nat) (s : list Z) : list Z * list Z :=
  match room, s with
  | S room, c :: s => if c =? NL then ([c], s) else let '(l, r) := fgets room s in (c :: l, r)
  | _, _ => ([], s)
  end.

(** [sscanf(line, "%[^\t:] : %[^\t\n]", tag, value)]: a conversion that
    does not match leaves its buffer, and the later ones, as they are.  A tag
    that does not fit into its buffer, with the final NUL, overruns it; the
    value fits, since [value] is as long as [line]. *)
Definition scan_line (line tag value : list Z) : res (list Z * list Z) :=
  let '(t, s) := span (fun c => negb ((c =? TAB) || (c =? COLON))) line in
  match t with
  | [] => Ok (tag, value)
  | _ =>
      if (sizeof_tag <=? length t)%nat then Segfault else
      match skip_spaces s with
      | c :: s =>
          if c =? COLON then
            match fst (span (fun c => negb ((c =? TAB) || (c =? NL))) (skip_spaces s)) with
            | [] => Ok (t, value)
            | v => Ok (t, v)
            end
          else Ok (t, value)
      | [] => Ok (t, value)
      end
  end.

(** [strtol(value, NULL, 10)], on values that fit in a [long]. *)
Definition is_digit (c : Z) : bool := (48 <=? c) && (c <=? 57).
Definition digits_value (ds : list Z) : Z := foldl (fun n c => 10 * n + (c - 48)) 0 ds.
Definition strtol (s : list Z) : Z :=
  match skip_spaces s with
  | c :: s' =>
      if c =? 45 then - digits_value (fst (span is_digit s'))
      else if c =? 43 then digits_value (fst (span is_digit s'))
      else digits_value (fst (span is_digit (c :: s')))
  | [] => 0
  end.

Fixpoint chars (s : string) : list Z :=
  match s with
  | EmptyString => []
  | String c s => Z.of_nat (nat_of_ascii c) :: chars s
  end.

(** Local variables of [get_cpu_info]. *)
Record st := State {
  tag : list Z; value : list Z;
  processor : Z; core_id : Z; physical_id : Z; cpu_cores : Z;
  map_size : Z;
  sockets : list (list (Z * Z))        (* <core_id, processor> *)
}.

(** One iteration of the reading loop. *)
Definition read_line (s : st) (line : list Z) : res st :=
  if Zlength line =? 1 then Ok s else
  let* (t, v) := scan_line line (tag s) (value s) in
  if bool_decide (t = chars "core id") then
    Ok (State t v (processor s) (strtol v) (physical_id s) (cpu_cores s) (map_size s) (sockets s))
  else if bool_decide (t = chars "physical id") then
    Ok (State t v (processor s) (core_id s) (strtol v) (cpu_cores s) (map_size s) (sockets s))
  else if bool_decide (t = chars "processor") then
    Ok (State t v (strtol v) (core_id s) (physical_id s) (cpu_cores s) (map_size s) (sockets s))
  else if bool_decide (t = chars "cpu cores") then
    Ok (State t v (processor s) (core_id s) (physical_id s) (strtol v) (map_size s) (sockets s))
  else if bool_decide (t = chars "flags") then
    assert! physical_id s <? Z.of_nat MAX_SOCKETS in
    match sockets s !! Z.to_nat (physical_id s) with
    | None => Segfault
    | Some cores =>
        if physical_id s <? 0 then Segfault else
        Ok (State t v (processor s) (core_id s) (physical_id s) (cpu_cores s) (map_size s + 1)
              (<[Z.to_nat (physical_id s) := cores ++ [(core_id s, processor s)]]> (sockets s)))
    end
  else Ok (State t v (processor s) (core_id s) (physical_id s) (cpu_cores s) (map_size s) (sockets s)).

Fixpoint read_lines (fuel : nat) (s : st) (text : list Z) : res st :=
  match text with
  | [] => Ok s
  | _ =>
      match fuel with
      | O => NoFuel
      | S fuel =>
          let '(line, text) := fgets (sizeof_line - 1) text in
          let* s := read_line s line in
          read_lines fuel s text
      end
  end.

Definition core_info_compare (a b : Z * Z) : bool :=
  if negb (fst a =? fst b) then fst a <? fst b else snd a <? snd b.

(** [std::sort] with that order. *)
Fixpoint insert_core (x : Z * Z) (l : list (Z * Z)) : list (Z * Z) :=
  match l with
  | [] => [x]
  | y :: l' => if core_info_compare x y then x :: l else y :: insert_core x l'
  end.
Definition sort_cores (l : list (Z * Z)) : list (Z * Z) := foldr insert_core [] l.

(** Writing the cores of socket [i] into the map. *)
Fixpoint write_cores (i : Z) (cores : list (Z * Z)) (core_map : list Z) : res (list Z) :=
  match cores with
  | [] => Ok core_map
  | (c, p) :: cores =>
      assert! c <? 32 in
      if (0 <=? p) && (p <? Zlength core_map)
      then write_cores i cores (<[Z.to_nat p := u8 (Z.lor c (Z.shiftl i 5))]> core_map)
      else Segfault
  end.

Fixpoint write_sockets (i : Z) (socks : list (list (Z * Z))) (core_map : list Z) : res (list Z) :=
  match socks with
  | [] => Ok core_map
  | s :: socks =>
      assert! i <? 7 in
      let* m := write_cores i (sort_cores s) core_map in
      write_sockets (i + 1) socks m
  end.

(** The whole function on the text of /proc/cpuinfo; [s0] holds the
    uninitialised locals. *)
Definition get_cpu_info (s0 : st) (text : list Z) (core_map : list Z) : res (list Z * Z) :=
  let s0 := State (tag s0) (value s0) (processor s0) (core_id s0) (physical_id s0) (cpu_cores s0) 0
              (replicate MAX_SOCKETS []) in
  let* s := read_lines (length text) s0 text in
  let* m := write_sockets 0 (sockets s) core_map in
  Ok (m, map_size s).

End CpuInfo.

(** ** Hyper-thread pairs *)

Definition NOT_FREE : Z := 0xFF.

Record cores := Cores {
  available_cores : Z;
  core_tenants : list Z;
  core_ht_map : list (Z * Z);
  cores_per_socket : Z
}.

(** [for (i = 1; i < available_cores; i++) if (core_info[i] < core_info[min_offset]) min_offset = i] *)
Fixpoint min_loop (core_info : list Z) (i n : nat) (min_offset : nat) : nat :=
  match n with
  | O => min_offset
  | S n =>
      let min_offset :=
        if core_info !!! i <? core_info !!! min_offset then i else min_offset in
      min_loop core_info (S i) n min_offset
  end.
Definition min_offset (core_info : list Z) : nat := min_loop core_info 1 (length core_info - 1) 0.

(** The pairs, the number of cores of socket 0, and [core_info] with the
    chosen processors marked. *)
Fixpoint ht_loop (c : nat) (core_info : list Z) (per_socket : Z) : list (Z * Z) * Z :=
  match c with
  | O => ([], per_socket)
  | S c =>
      let m0 := min_offset core_info in
      let per_socket := if core_info !!! m0 <? 32 then u8 (per_socket + 1) else per_socket in
      let core_info := <[m0 := NOT_FREE]> core_info in
      let m1 := min_offset core_info in
      let core_info := <[m1 := NOT_FREE]> core_info in
      let '(pairs, per_socket) := ht_loop c core_info per_socket in
      ((Z.of_nat m0, Z.of_nat m1) :: pairs, per_socket)
  end.

(** [NO_HT_PINNING]: swap hyper-threads of the two halves of each socket. *)
Definition swap_pair (map : list (Z * Z)) (i j : nat) : list (Z * Z) :=
  let a := map !!! i in
  let b := map !!! j in
  let map := <[i := (fst a, fst b)]> map in
  <[j := (snd a, snd (map !!! j))]> map.

Fixpoint swap_socket (map : list (Z * Z)) (b half : nat) (c n : nat) : list (Z * Z) :=
  match n with
  | O => map
  | S n => swap_socket (swap_pair map (b + c) (b + c + half)) b half (S c) n
  end.

Fixpoint swap_sockets (map : list (Z * Z)) (per_socket : nat) (s n : nat) : list (Z * Z) :=
  match n with
  | O => map
  | S n =>
      let half := Nat.div per_socket 2 in
      swap_sockets (swap_socket map (s * per_socket) half 0 half) per_socket (S s) n
  end.

(** [core_info] holds the [available_cores] entries [get_cpu_info] filled. *)
Definition Savitar_core_init (no_ht_pinning : bool) (core_info : list Z) : res cores :=
  let available := Zlength core_info in
  assert! available <=? MAX_CORES in
  assert! available mod 2 =? 0 in
  let n := Z.to_nat (Z.shiftr available 1) in
  let '(map, per_socket) := ht_loop n core_info 0 in
  if no_ht_pinning then
    if per_socket =? 0 then Segfault (* division by zero *)
    else
      let socks := Z.to_nat (available / 2 / per_socket) in
      Ok (Cores available (replicate n 0) (swap_sockets map (Z.to_nat per_socket) 0 socks) per_socket)
  else Ok (Cores available (replicate n 0) map per_socket).

(** ** Assigning cores *)

Fixpoint least_loop (tenants : list Z) (i n : nat) (least_occupied : nat) : nat :=
  match n with
  | O => least_occupied
  | S n =>
      let least_occupied :=
        if tenants !!! i <? tenants !!! least_occupied then i else least_occupied in
      least_loop tenants (S i) n least_occupied
  end.

Definition least_occupied (c : cores) : nat :=
  least_loop (core_tenants c) 0 (Z.to_nat (Z.shiftr (available_cores c) 1)) 0.

Definition set_tenants (c : cores) (i : nat) (v : Z) : cores :=
  Cores (available_cores c) (<[i := v]> (core_tenants c)) (core_ht_map c) (cores_per_socket c).

Definition Savitar_core_alloc (c : cores) : cores * (Z * Z) :=
  let k := least_occupied c in
  (set_tenants c k (u16 (core_tenants c !!! k + 1)), core_ht_map c !!! k).

(** The physical core that hosts a processor. *)
Fixpoint find_core (map : list (Z * Z)) (core_id : Z) (c : nat) : option nat :=
  match map with
  | [] => None
  | (p0, p1) :: map =>
      if (core_id =? p0) || (core_id =? p1) then Some c else find_core map core_id (S c)
  end.

Definition Savitar_core_free (c : cores) (core_id : Z) : res cores :=
  assert! 0 <=? core_id in
  assert! core_id <? available_cores c in
  match find_core (core_ht_map c) core_id 0 with
  | None => AssertFail
  | Some k => Ok (set_tenants c k (u16 (core_tenants c !!! k - 1)))
  end.

(** ** Selection of the least element *)

Lemma min_loop_spec l i n m :
  (m < i)%nat -> (i + n = length l)%nat -> (forall j, (j < i)%nat -> l !!! m <= l !!! j) ->
  (min_loop l i n m < length l)%nat /\
  forall j, (j < length l)%nat -> l !!! min_loop l i n m <= l !!! j.
Proof.
  revert i m. induction n as [|n IH]; intros i m Hm Hlen Hmin; simpl.
  - split; [lia|]. intros j Hj. apply Hmin. lia.
  - apply IH; [destruct (_ <? _); lia|lia|]. intros j Hj.
    destruct (Z.ltb_spec (l !!! i) (l !!! m)).
    + destruct (decide (j = i)) as [->|]; [lia|]. specialize (Hmin j ltac:(lia)). lia.
    + destruct (decide (j = i)) as [->|]; [lia|]. apply Hmin. lia.
Qed.

Lemma min_offset_spec l :
  l <> [] -> (min_offset l < length l)%nat /\
  forall j, (j < length l)%nat -> l !!! min_offset l <= l !!! j.
Proof.
  intros Hl. unfold min_offset. destruct l as [|x l]; [done|].
  apply min_loop_spec; simpl; [lia|lia|]. intros j Hj. assert (j = 0%nat) as -> by lia. apply Z.le_refl.
Qed.

(** [k] successive choices, each marked before the next. *)
Fixpoint select (k : nat) (info : list Z) : list nat :=
  match k with
  | O => []
  | S k => let m := min_offset info in m :: select k (<[m := NOT_FREE]> info)
  end.

(** The processors that have not been chosen. *)
Definition free_list (info : list Z) (rem : list nat) : Prop :=
  NoDup rem /\ forall i, i ∈ rem <-> exists v, info !! i = Some v /\ v < NOT_FREE.

Lemma free_list_choose info rem :
  free_list info rem -> rem <> [] -> Forall (fun v => v <= NOT_FREE) info ->
  exists rem', rem ≡ₚ min_offset info :: rem' /\
    free_list (<[min_offset info := NOT_FREE]> info) rem' /\
    Forall (fun i => info !!! min_offset info <= info !!! i) rem.
Proof.
  intros [Hnd Hrem] Hne Hle. destruct rem as [|i0 r0]; [done|].
  destruct (proj1 (Hrem i0)) as (v0 & Hv0 & Hlt0); [left|].
  assert (Hinfo : info <> []) by (intros ->; done).
  destruct (min_offset_spec info Hinfo) as [Hm Hmin]. set (m := min_offset info) in *.
  assert (Hmr : m ∈ i0 :: r0).
  { apply Hrem. exists (info !!! m). split; [by apply list_lookup_lookup_total_lt|].
    pose proof (Hmin i0 (lookup_lt_Some _ _ _ Hv0)).
    rewrite (list_lookup_total_correct _ _ _ Hv0) in *. lia. }
  apply elem_of_Permutation in Hmr as (rem' & Hp). exists rem'. split; [done|].
  rewrite Hp in Hnd. apply NoDup_cons in Hnd as [Hnin Hnd]. split; [split; [done|]|].
  - intros i. destruct (decide (i = m)) as [->|Him].
    + split; [done|]. rewrite list_lookup_insert_eq by done. intros (v & Hv & Hlt). injection Hv as <-. by apply Z.lt_irrefl in Hlt.
    + rewrite list_lookup_insert_ne by done. rewrite <- Hrem, Hp, elem_of_cons. naive_solver.
  - apply Forall_forall. intros i Hi. apply Hmin. apply Hrem in Hi as (v & Hv & _).
    by eapply lookup_lt_Some.
Qed.

(** Successive choices enumerate the processors by increasing core number. *)
Lemma select_spec info rem :
  free_list info rem -> Forall (fun v => v <= NOT_FREE) info ->
  select (length rem) info ≡ₚ rem /\
  StronglySorted (fun i j => info !!! i <= info !!! j) (select (length rem) info).
Proof.
  remember (length rem) as k eqn:Hk. revert info rem Hk.
  induction k as [|k IH]; intros info rem Hk Hfree Hle; simpl.
  { destruct rem; [|done]. split; [done|constructor]. }
  destruct (free_list_choose info rem Hfree) as (rem' & Hp & Hfree' & Hmin); [by destruct rem|done|].
  set (m := min_offset info) in *.
  destruct (IH (<[m := NOT_FREE]> info) rem') as [Hp' Hs]; [|done| |].
  { rewrite Hp in Hk. simpl in Hk. lia. }
  { apply Forall_insert; [done|]. unfold NOT_FREE. lia. }
  split; [by rewrite Hp', Hp|]. rewrite Hp in Hmin. apply Forall_cons in Hmin as [_ Hmin].
  assert (Hnin : m ∉ rem').
  { destruct Hfree as [Hnd _]. rewrite Hp in Hnd. by apply NoDup_cons in Hnd as [? _]. }
  constructor.
  - clear Hp Hmin. set (s := select k _) in *.
    assert (Hns : m ∉ s) by by rewrite Hp'. clear Hp'. induction Hs as [|x s Hs IHs Hx]; constructor.
    + apply IHs. set_solver.
    + apply Forall_forall. intros y Hy. rewrite Forall_forall in Hx. specialize (Hx y Hy).
      rewrite !list_lookup_total_insert_ne in Hx by set_solver. done.
  - apply Forall_forall. intros i Hi. rewrite Forall_forall in Hmin. apply Hmin. by rewrite <- Hp'.
Qed.

Lemma ht_loop_select c info ps :
  flat_map (fun p => [fst p; snd p]) (fst (ht_loop c info ps)) = Z.of_nat <$> select (2 * c) info.
Proof.
  revert info ps. induction c as [|c IH]; intros info ps; [done|].
  replace (2 * S c)%nat with (S (S (2 * c))) by lia. cbn [ht_loop select].
  match goal with |- context [ht_loop c ?i ?p] => specialize (IH i p); destruct (ht_loop c i p) as [pairs ps'] end.
  cbn [flat_map fst snd app] in *. by rewrite !fmap_cons, <- IH.
Qed.

(** In a sorted list where every value occurs twice, neighbours are equal. *)
Lemma sorted_pairs (l : list (Z * Z)) :
  StronglySorted Z.le (flat_map (fun p => [fst p; snd p]) l) ->
  (forall v, v ∈ flat_map (fun p => [fst p; snd p]) l ->
     length (filter (eq v) (flat_map (fun p => [fst p; snd p]) l)) = 2%nat) ->
  Forall (fun p => fst p = snd p) l.
Proof.
  induction l as [|[a b] l IH]; intros Hs Hcount; [constructor|]. cbn [flat_map fst snd app] in *.
  inversion Hs as [|? ? Hs' Ha]; subst. inversion Hs' as [|? ? Hs'' Hb]; subst.
  set (rest := flat_map _ l) in *.
  pose proof (Hcount a ltac:(left)) as Hca. rewrite filter_cons_True in Hca by done. simpl in Hca.
  assert (Hab : a = b).
  { assert (Hin : exists x, x ∈ b :: rest /\ a = x).
    { destruct (filter (eq a) (b :: rest)) as [|x f] eqn:E; [done|].
      exists x. assert (Hx : x ∈ filter (eq a) (b :: rest)) by (rewrite E; left).
      apply list_elem_of_filter in Hx as [? ?]. done. }
    destruct Hin as (x & Hx & <-). apply elem_of_cons in Hx as [->|Hx]; [done|].
    inversion Ha as [|? ? Hle _]; subst. rewrite Forall_forall in Hb. specialize (Hb a Hx). lia. }
  subst b. constructor; [done|]. rewrite filter_cons_True in Hca by done. simpl in Hca.
  assert (Hnil : filter (eq a) rest = []) by (destruct (filter (eq a) rest); [done|simpl in Hca; lia]).
  apply IH; [done|]. intros v Hv.
  assert (v <> a).
  { intros ->. assert (Hin : a ∈ filter (eq a) rest) by by apply list_elem_of_filter.
    rewrite Hnil in Hin. by apply not_elem_of_nil in Hin. }
  specialize (Hcount v ltac:(do 2 right; done)). by rewrite !filter_cons_False in Hcount by done.
Qed.

Definition processors (map : list (Z * Z)) : list Z := flat_map (fun p => [fst p; snd p]) map.

Lemma all_free info :
  Forall (fun v => v < NOT_FREE) info -> free_list info (seq 0 (length info)).
Proof.
  intros Hall. split; [apply NoDup_seq|]. intros i. rewrite elem_of_seq. split.
  - intros [_ Hi]. destruct (lookup_lt_is_Some_2 info i) as [v Hv]; [lia|].
    exists v. split; [done|]. by eapply (Forall_lookup_1 _ _ _ _ Hall).
  - intros (v & Hv & _). apply lookup_lt_Some in Hv. lia.
Qed.

Lemma lookup_total_seq (info : list Z) : (fun i => info !!! i) <$> seq 0 (length info) = info.
Proof.
  apply list_eq. intros i. rewrite list_lookup_fmap.
  destruct (decide (i < length info)%nat) as [Hi|Hi].
  - rewrite lookup_seq_lt by done. simpl. by rewrite list_lookup_lookup_total_lt.
  - rewrite lookup_seq_ge by lia. simpl. by rewrite lookup_ge_None_2 by lia.
Qed.

Lemma StronglySorted_fmap_of {A B} (R : B -> B -> Prop) (f : A -> B) l :
  StronglySorted (fun x y => R (f x) (f y)) l -> StronglySorted R (f <$> l).
Proof.
  induction 1 as [|x l Hs IH Hx]; simpl; constructor; [done|]. by apply Forall_fmap.
Qed.

(** The pairs found by the selection loop. *)
Lemma ht_loop_spec info n ps :
  length info = (2 * n)%nat -> Forall (fun v => v < NOT_FREE) info ->
  processors (fst (ht_loop n info ps)) ≡ₚ seqZ 0 (Zlength info) /\
  StronglySorted Z.le ((fun p => info !!! Z.to_nat p) <$> processors (fst (ht_loop n info ps))).
Proof.
  intros Hn Hall. unfold processors. rewrite ht_loop_select, <- Hn.
  destruct (select_spec info (seq 0 (length info))) as [Hp Hs]; [by apply all_free| |].
  { eapply Forall_impl; [done|]. simpl. lia. }
  rewrite length_seq in Hp, Hs. split.
  - rewrite Hp. unfold seqZ, Zlength. rewrite Nat2Z.id. apply Permutation_refl', list_fmap_ext.
    intros. lia.
  - rewrite <- list_fmap_compose.
    replace ((fun p => info !!! Z.to_nat p) ∘ Z.of_nat <$> select (length info) info)
      with ((fun i => info !!! i) <$> select (length info) info)
      by (apply list_fmap_ext; intros; simpl; by rewrite Nat2Z.id).
    by apply (StronglySorted_fmap_of Z.le (fun i => info !!! i)).
Qed.

Lemma flat_map_pairs (f : Z -> Z) (map : list (Z * Z)) :
  flat_map (fun p => [fst p; snd p]) ((fun p => (f (fst p), f (snd p))) <$> map) = f <$> processors map.
Proof.
  induction map as [|[a b] map IH]; [done|]. rewrite fmap_cons. cbn [flat_map processors fst snd app] in *.
  by rewrite IH.
Qed.

(** [C37] On a machine whose processors are numbered 0 to n-1,
    [Savitar_core_init] puts every processor into exactly one pair, and if
    every physical core has two hyper-threads, the processors of a pair are
    the two hyper-threads of one core; all cores start without tenants. *)
Theorem core_init_pairs info :
  Zlength info <= MAX_CORES -> Zlength info mod 2 = 0 ->
  Forall (fun v => v < NOT_FREE) info ->
  exists c, Savitar_core_init false info = Ok c /\
    processors (core_ht_map c) ≡ₚ seqZ 0 (Zlength info) /\
    Forall (fun v => v = 0) (core_tenants c) /\
    ((forall v, v ∈ info -> length (filter (eq v) info) = 2%nat) ->
     Forall (fun p => info !!! Z.to_nat (fst p) = info !!! Z.to_nat (snd p)) (core_ht_map c)).
Proof.
  intros Hmax Heven Hall. unfold Savitar_core_init.
  rewrite (proj2 (Z.leb_le _ _)) by done. rewrite (proj2 (Z.eqb_eq _ _)) by done.
  set (n := Z.to_nat (Z.shiftr (Zlength info) 1)).
  assert (Hn : length info = (2 * n)%nat).
  { unfold n. rewrite Z.shiftr_div_pow2 by lia. unfold Zlength in *. change (2 ^ 1) with 2. dlia. }
  destruct (ht_loop_spec info n 0 Hn Hall) as [Hp Hs].
  destruct (ht_loop n info 0) as [map ps]. simpl in *. eexists. split; [done|]. simpl.
  split; [done|]. split; [by apply Forall_replicate|]. intros Htwice.
  assert (Hvals : (fun p => info !!! Z.to_nat p) <$> processors map ≡ₚ info).
  { rewrite Hp. unfold seqZ, Zlength. rewrite Nat2Z.id, <- list_fmap_compose.
    apply Permutation_refl'. etransitivity; [|apply lookup_total_seq]. apply list_fmap_ext.
    intros. simpl. f_equal. lia. }
  rewrite <- flat_map_pairs in Hs, Hvals. apply sorted_pairs in Hs.
  - rewrite Forall_fmap in Hs. done.
  - intros v Hv. rewrite Hvals in Hv |- *. by apply Htwice.
Qed.

Lemma core_init_pairs_witness :
  exists c, Savitar_core_init false [1; 0; 32; 1; 0; 32] = Ok c /\
    processors (core_ht_map c) ≡ₚ seqZ 0 6 /\ Forall (fun v => v = 0) (core_tenants c) /\
    ((forall v, v ∈ [1; 0; 32; 1; 0; 32] -> length (filter (eq v) [1; 0; 32; 1; 0; 32]) = 2%nat) ->
     Forall (fun p => [1; 0; 32; 1; 0; 32] !!! Z.to_nat (fst p) = [1; 0; 32; 1; 0; 32] !!! Z.to_nat (snd p))
       (core_ht_map c)).
Proof.
  apply (core_init_pairs [1; 0; 32; 1; 0; 32]); [by vm_compute|by vm_compute|].
  repeat (apply Forall_cons; split; [by vm_compute|]). apply Forall_nil; exact I.
Defined.

(** ** Assignment *)

Lemma least_loop_spec l i n m :
  (m < length l)%nat -> (i + n = length l)%nat -> (forall j, (j < i)%nat -> l !!! m <= l !!! j) ->
  (least_loop l i n m < length l)%nat /\
  forall j, (j < length l)%nat -> l !!! least_loop l i n m <= l !!! j.
Proof.
  revert i m. induction n as [|n IH]; intros i m Hm Hlen Hmin; simpl.
  - split; [lia|]. intros j Hj. apply Hmin. lia.
  - apply IH; [destruct (_ <? _); lia|lia|]. intros j Hj.
    destruct (Z.ltb_spec (l !!! i) (l !!! m)).
    + destruct (decide (j = i)) as [->|]; [lia|]. specialize (Hmin j ltac:(lia)). lia.
    + destruct (decide (j = i)) as [->|]; [lia|]. apply Hmin. lia.
Qed.

(** The data the two functions work on after [Savitar_core_init]. *)
Record cores_wf (c : cores) : Prop := {
  cw_some : 0 < Z.shiftr (available_cores c) 1;
  cw_tenants : length (core_tenants c) = Z.to_nat (Z.shiftr (available_cores c) 1);
  cw_map : length (core_ht_map c) = Z.to_nat (Z.shiftr (available_cores c) 1);
  cw_procs : processors (core_ht_map c) ≡ₚ seqZ 0 (available_cores c);
  cw_range : Forall (fun v => 0 <= v < 2 ^ 16) (core_tenants c)
}.

Lemma least_occupied_spec c :
  cores_wf c -> (least_occupied c < length (core_tenants c))%nat /\
  forall j, (j < length (core_tenants c))%nat ->
    core_tenants c !!! least_occupied c <= core_tenants c !!! j.
Proof.
  intros Hw. unfold least_occupied. rewrite <- (cw_tenants _ Hw).
  pose proof (cw_some _ Hw). pose proof (cw_tenants _ Hw).
  apply least_loop_spec; [lia|lia|intros; lia].
Qed.

(** No two cores differ by more than one tenant. *)
Definition balanced (c : cores) : Prop :=
  exists b, Forall (fun v => v = b \/ v = b + 1) (core_tenants c).

Lemma find_core_spec map id k c :
  NoDup (processors map) -> map !! k = Some c -> id = fst c \/ id = snd c ->
  forall n, find_core map id n = Some (n + k)%nat.
Proof.
  revert k. induction map as [|[p0 p1] map IH]; intros k Hnd Hk Hid n; [done|].
  cbn [processors flat_map fst snd app] in Hnd. destruct k as [|k]; simpl in *.
  - injection Hk as <-. simpl in Hid. destruct Hid as [-> | ->];
      rewrite Z.eqb_refl, ?orb_true_r; f_equal; lia.
  - apply NoDup_cons in Hnd as [Hn0 Hnd]. apply NoDup_cons in Hnd as [Hn1 Hnd].
    assert (Hin : id ∈ processors map).
    { apply list_elem_of_In, in_flat_map. exists c. split; [apply list_elem_of_In; by eapply list_elem_of_lookup_2|].
      simpl. destruct Hid; auto. }
    destruct (Z.eqb_spec id p0) as [->|]; [set_solver|].
    destruct (Z.eqb_spec id p1) as [->|]; [set_solver|]. simpl.
    rewrite (IH k) by done. f_equal. lia.
Qed.


Lemma shiftr_1 z : Z.shiftr z 1 = z / 2.
Proof. by rewrite Z.shiftr_div_pow2. Qed.

Lemma u16_small z : 0 <= z < 2 ^ 16 -> u16 z = z.
Proof. intros. by apply Z.mod_small. Qed.

(** The slot [Savitar_core_alloc] picks, as list lookups. *)
Lemma alloc_lookup c :
  cores_wf c -> exists v p, core_tenants c !! least_occupied c = Some v /\
    core_ht_map c !! least_occupied c = Some p /\ 0 <= v < 2 ^ 16 /\
    Savitar_core_alloc c = (set_tenants c (least_occupied c) (u16 (v + 1)), p).
Proof.
  intros Hw. destruct (least_occupied_spec c Hw) as [Hlt _].
  destruct (lookup_lt_is_Some_2 (core_tenants c) (least_occupied c) Hlt) as [v Hv].
  destruct (lookup_lt_is_Some_2 (core_ht_map c) (least_occupied c)) as [p Hp].
  { by rewrite (cw_map _ Hw), <- (cw_tenants _ Hw). }
  exists v, p. split; [done|]. split; [done|]. split.
  - by apply (Forall_lookup_1 _ _ _ _ (cw_range _ Hw) Hv).
  - unfold Savitar_core_alloc.
    by rewrite (list_lookup_total_correct _ _ _ Hv), (list_lookup_total_correct _ _ _ Hp).
Qed.

(** [Savitar_core_alloc] keeps the load balanced: cores that differ by
    at most one tenant still do after an allocation, which goes to a core
    with the fewest tenants; the pair it returns is that core's pair. *)
Theorem core_alloc_balanced c :
  cores_wf c -> balanced c -> core_tenants c !!! least_occupied c < 2 ^ 16 - 1 ->
  let '(c', ids) := Savitar_core_alloc c in
  balanced c' /\ cores_wf c' /\
  exists k, core_ht_map c !! k = Some ids /\
    (forall j v, core_tenants c !! j = Some v -> core_tenants c !!! k <= v) /\
    core_tenants c' = <[k := core_tenants c !!! k + 1]> (core_tenants c).
Proof.
  intros Hw [b Hb] Hmax. destruct (alloc_lookup c Hw) as (v & p & Hv & Hp & Hr & ->).
  destruct (least_occupied_spec c Hw) as [Hlt Hmin]. set (k := least_occupied c) in *.
  rewrite (list_lookup_total_correct _ _ _ Hv) in *. rewrite u16_small by lia.
  assert (Hvb : v = b \/ v = b + 1) by by apply (Forall_lookup_1 _ _ _ _ Hb Hv).
  split; [|split].
  - assert (Hle : forall j x, core_tenants c !! j = Some x -> v <= x).
    { intros j x Hx. pose proof (Hmin j (lookup_lt_Some _ _ _ Hx)) as Hm.
      by rewrite (list_lookup_total_correct _ _ _ Hx) in Hm. }
    destruct Hvb as [-> | ->]; simpl.
    + exists b. apply Forall_insert; [done|]. by right.
    + exists (b + 1). apply Forall_insert; [|by right].
      apply Forall_lookup_2. intros j x Hx. specialize (Hle j x Hx).
      pose proof (Forall_lookup_1 _ _ _ _ Hb Hx) as Hx'. simpl in Hx'. lia.
  - destruct Hw. split; simpl; try done; rewrite ?length_insert; try done.
    apply Forall_insert; [done|lia].
  - exists k. split; [done|]. rewrite (list_lookup_total_correct _ _ _ Hv). split; [|done].
    intros j x Hx. pose proof (Hmin j (lookup_lt_Some _ _ _ Hx)) as Hm.
    by rewrite (list_lookup_total_correct _ _ _ Hx) in Hm.
Qed.

(** Freeing a core by either of its two processors undoes the
    allocation that returned them. *)
Theorem core_free_alloc c id :
  cores_wf c ->
  id = fst (snd (Savitar_core_alloc c)) \/ id = snd (snd (Savitar_core_alloc c)) ->
  Savitar_core_free (fst (Savitar_core_alloc c)) id = Ok c.
Proof.
  intros Hw. destruct (alloc_lookup c Hw) as (v & p & Hv & Hp & Hr & ->). cbn [fst snd]. intros Hid.
  set (k := least_occupied c) in *. unfold Savitar_core_free. cbn [available_cores set_tenants core_ht_map].
  pose proof (cw_procs _ Hw) as Hprocs.
  assert (Hnd : NoDup (processors (core_ht_map c))) by (rewrite Hprocs; apply NoDup_seqZ).
  assert (Hin : id ∈ processors (core_ht_map c)).
  { apply list_elem_of_In, in_flat_map. exists p.
    split; [apply list_elem_of_In; by eapply list_elem_of_lookup_2|]. simpl. destruct Hid; auto. }
  rewrite Hprocs in Hin. apply elem_of_seqZ in Hin.
  rewrite (proj2 (Z.leb_le _ _)), (proj2 (Z.ltb_lt _ _)) by lia.
  rewrite (find_core_spec _ id k p) by done. cbn [Nat.add]. f_equal. unfold set_tenants.
  cbn [core_tenants available_cores core_ht_map cores_per_socket].
  rewrite list_lookup_total_insert_eq by (by eapply lookup_lt_Some). rewrite list_insert_insert_eq.
  replace (u16 (u16 (v + 1) - 1)) with v.
  - rewrite list_insert_id by done. by destruct c.
  - unfold u16 in *. rewrite Zminus_mod_idemp_l. replace (v + 1 - 1) with v by lia.
    symmetry. by apply Z.mod_small.
Qed.

Definition demo_cores : cores := Cores 4 [1; 0] [(0, 2); (1, 3)] 2.

Lemma demo_cores_wf : cores_wf demo_cores.
Proof.
  split; [by vm_compute|by vm_compute|by vm_compute| |].
  - change (processors (core_ht_map demo_cores)) with [0; 2; 1; 3].
    change (seqZ 0 (available_cores demo_cores)) with [0; 1; 2; 3].
    apply Permutation_cons; [done|]. apply Permutation_swap.
  - repeat (apply Forall_cons; split; [split; by vm_compute|]). apply Forall_nil; exact I.
Qed.

Lemma core_alloc_balanced_witness :
  let '(c', ids) := Savitar_core_alloc demo_cores in
  balanced c' /\ cores_wf c' /\
  exists k, core_ht_map demo_cores !! k = Some ids /\
    (forall j v, core_tenants demo_cores !! j = Some v -> core_tenants demo_cores !!! k <= v) /\
    core_tenants c' = <[k := core_tenants demo_cores !!! k + 1]> (core_tenants demo_cores).
Proof.
  apply (core_alloc_balanced demo_cores); [apply demo_cores_wf| |by vm_compute].
  exists 0. apply Forall_cons; split; [right; reflexivity|].
  apply Forall_cons; split; [left; reflexivity|]. apply Forall_nil; exact I.
Defined.

Lemma core_free_alloc_witness : Savitar_core_free (fst (Savitar_core_alloc demo_cores)) 3 = Ok demo_cores.
Proof. apply (core_free_alloc demo_cores 3); [apply demo_cores_wf|right; reflexivity]. Defined.

(** ** Reading back a cpuinfo text *)
Module CpuInfoText.
Import CpuInfo.

(** Decimal digits, least significant first in [acc]. *)
Fixpoint decimal_loop (fuel : nat) (n : Z) (acc : list Z) : list Z :=
  match fuel with
  | O => acc
  | S fuel =>
      let acc := (48 + n mod 10) :: acc in
      if n / 10 =? 0 then acc else decimal_loop fuel (n / 10) acc
  end.
Definition decimal (n : Z) : list Z := decimal_loop (S (Z.to_nat n)) n [].

(** A field of /proc/cpuinfo: a name, tabs, a colon and the rest of the
    line. *)
Definition field (name tabs v : list Z) : list Z := name ++ tabs ++ COLON :: v ++ [NL].

(** The fields that [get_cpu_info] looks at. *)
Definition looked_at : list (list Z) :=
  [chars "core id"; chars "physical id"; chars "processor"; chars "cpu cores"; chars "flags"].

Record other := Other { o_name : list Z; o_tabs : list Z; o_value : list Z }.
Definition other_text (o : other) : list Z := field (o_name o) (o_tabs o) (o_value o).
Definition others_text (os : list other) : list Z := concat (other_text <$> os).

(** A processor with its socket and its core, its flags, and the fields that
    the kernel prints in between, in the kernel's order. *)
Record cpu := Cpu {
  cpu_processor : Z; cpu_socket : Z; cpu_core : Z; cpu_flags : list Z;
  cpu_model : list other; cpu_siblings : list other; cpu_apic : list other; cpu_bugs : list other
}.

Definition flags_text (c : cpu) : list Z := field (chars "flags") [TAB; TAB] (cpu_flags c).

Definition cpu_text (c : cpu) : list Z :=
  field (chars "processor") [TAB] (SPACE :: decimal (cpu_processor c)) ++ others_text (cpu_model c) ++
  field (chars "physical id") [TAB] (SPACE :: decimal (cpu_socket c)) ++ others_text (cpu_siblings c) ++
  field (chars "core id") [TAB; TAB] (SPACE :: decimal (cpu_core c)) ++ others_text (cpu_apic c) ++
  flags_text c ++ others_text (cpu_bugs c) ++ [NL].

Definition cpuinfo_text (cs : list cpu) : list Z := concat (cpu_text <$> cs).

Lemma decimal_loop_spec fuel n acc :
  0 <= n -> (Z.to_nat n < fuel)%nat ->
  exists ds, decimal_loop fuel n acc = ds ++ acc /\ ds <> [] /\ Forall (fun c => 48 <= c <= 57) ds /\
    forall m, foldl (fun n c => 10 * n + (c - 48)) m ds = m * 10 ^ Zlength ds + n.
Proof.
  revert n acc. induction fuel as [|fuel IH]; intros n acc Hn Hf; [lia|]. cbn [decimal_loop].
  destruct (Z.eqb_spec (n / 10) 0) as [E|E].
  - exists [48 + n mod 10]. split; [done|]. split; [done|]. split; [constructor; [dlia|constructor]|].
    intros m. simpl. change (10 ^ Zlength [48 + n mod 10]) with 10. dlia.
  - destruct (IH (n / 10) ((48 + n mod 10) :: acc)) as (ds & -> & Hne & Hd & Hv); [dlia|dlia|].
    exists (ds ++ [48 + n mod 10]). split; [by rewrite <- app_assoc|]. split; [by destruct ds|].
    split; [apply Forall_app; split; [done|constructor; [dlia|constructor]]|].
    intros m. rewrite foldl_app. simpl. rewrite Hv, Zlength_app, Z.pow_add_r; [|apply Zlength_nonneg|done].
    change (10 ^ Zlength [48 + n mod 10]) with 10.
    assert (n = 10 * (n / 10) + n mod 10) by (apply Z.div_mod; lia). nia.
Qed.

Lemma decimal_spec n :
  0 <= n -> decimal n <> [] /\ Forall (fun c => 48 <= c <= 57) (decimal n) /\ digits_value (decimal n) = n.
Proof.
  intros Hn. unfold decimal. destruct (decimal_loop_spec (S (Z.to_nat n)) n []) as (ds & -> & Hne & Hd & Hv);
    [done|lia|]. rewrite app_nil_r. split; [done|]. split; [done|].
  unfold digits_value. rewrite Hv. lia.
Qed.

Lemma span_all p s rest :
  Forall (fun c => p c = true) s -> match rest with [] => True | c :: _ => p c = false end ->
  span p (s ++ rest) = (s, rest).
Proof.
  intros Hs Hr. induction Hs as [|c s Hc Hs IH]; simpl.
  - destruct rest as [|c rest]; simpl; [done|]. by rewrite Hr.
  - by rewrite Hc, IH.
Qed.

Lemma strtol_decimal n : 0 <= n -> strtol (decimal n) = n.
Proof.
  intros Hn. destruct (decimal_spec n Hn) as (Hne & Hd & Hv). unfold strtol, skip_spaces.
  assert (Hdig : Forall (fun c => is_digit c = true) (decimal n)).
  { eapply Forall_impl; [exact Hd|]. simpl. intros c Hc. unfold is_digit.
    rewrite !(proj2 (Z.leb_le _ _)) by lia. done. }
  destruct (decimal n) as [|c ds] eqn:E; [done|].
  inversion Hd as [|? ? Hc _]; subst.
  assert (Hs : is_space c = false).
  { unfold is_space, SPACE, TAB. rewrite (proj2 (Z.eqb_neq c 32)), (proj2 (Z.leb_gt c 13)) by lia.
    by rewrite andb_false_r. }
  change (c :: ds) with ([] ++ c :: ds) at 1. rewrite (span_all is_space [] (c :: ds)) by done.
  cbn [snd]. rewrite !(proj2 (Z.eqb_neq _ _)) by lia.
  pose proof (span_all is_digit (c :: ds) [] Hdig I) as Hspan. rewrite app_nil_r in Hspan. by rewrite Hspan.
Qed.

(** *** Lines *)

Lemma fgets_line room l rest :
  NL ∉ l -> (length l < room)%nat -> fgets room (l ++ NL :: rest) = (l ++ [NL], rest).
Proof.
  revert room. induction l as [|c l IH]; intros [|room] Hl Hr; cbn in *; [lia|done|lia|].
  apply not_elem_of_cons in Hl as [Hc Hl]. rewrite (proj2 (Z.eqb_neq c NL)) by congruence. by rewrite IH by (done || lia).
Qed.

(** A line that does not fit is cut. *)
Lemma fgets_cut room l rest :
  NL ∉ l -> (room <= length l)%nat -> fgets room (l ++ rest) = (take room l, drop room l ++ rest).
Proof.
  revert room. induction l as [|c l IH]; intros [|room] Hl Hr; cbn in *; [done|lia|done|].
  apply not_elem_of_cons in Hl as [Hc Hl]. rewrite (proj2 (Z.eqb_neq c NL)) by congruence. by rewrite IH by (done || lia).
Qed.

Lemma fgets_shorter room s : (0 < room)%nat -> s <> [] -> (length (snd (fgets room s)) < length s)%nat.
Proof.
  assert (Hle : forall room s, (length (snd (fgets room s)) <= length s)%nat).
  { clear. induction room as [|room IH]; intros [|c s]; cbn; try lia. destruct (c =? NL); cbn; [lia|].
    specialize (IH s). destruct (fgets room s). cbn in *. lia. }
  destruct room as [|room], s as [|c s]; [lia|lia|done|]. intros _ _. cbn. destruct (c =? NL); cbn; [lia|].
  specialize (Hle room s). destruct (fgets room s). cbn in *. lia.
Qed.

Lemma read_lines_fuel fuel fuel' s text :
  (length text <= fuel)%nat -> (length text <= fuel')%nat -> read_lines fuel s text = read_lines fuel' s text.
Proof.
  revert fuel' s text. induction fuel as [|fuel IH]; intros fuel' s text Hf Hf'.
  - destruct text; cbn in *; [by destruct fuel'|lia].
  - destruct text as [|c text]; [by destruct fuel'|]. destruct fuel' as [|fuel']; [cbn in *; lia|].
    pose proof (fgets_shorter (sizeof_line - 1) (c :: text) ltac:(unfold sizeof_line; lia) ltac:(done)) as Hlt.
    cbn [read_lines]. destruct (fgets (sizeof_line - 1) (c :: text)) as [line rest]. cbn [snd length] in *.
    destruct (read_line s line); cbn [res_bind]; [|done..]. apply IH; lia.
Qed.

Definition reads (s : st) (text : list Z) : res st := read_lines (length text) s text.

Lemma reads_fgets s text line rest :
  text <> [] -> fgets (sizeof_line - 1) text = (line, rest) -> reads s text = (let* s := read_line s line in reads s rest).
Proof.
  intros Hne E. unfold reads. pose proof (fgets_shorter (sizeof_line - 1) text ltac:(unfold sizeof_line; lia) Hne) as Hlt.
  rewrite E in Hlt. cbn [snd] in Hlt. destruct text as [|c text]; [done|]. cbn [length read_lines]. rewrite E.
  destruct (read_line s line); cbn [res_bind]; [|done..]. apply read_lines_fuel; cbn in *; lia.
Qed.

(** A line that fits into the buffer. *)
Lemma reads_line s l rest :
  NL ∉ l -> (length l < 1023)%nat -> reads s (l ++ NL :: rest) = (let* s := read_line s (l ++ [NL]) in reads s rest).
Proof.
  intros Hl Hlen. apply reads_fgets; [by destruct l|]. apply fgets_line; [done|]. unfold sizeof_line. lia.
Qed.

(** *** Fields *)

(** What scans as the first conversion. *)
Definition name_ok (name : list Z) : Prop :=
  name <> [] /\ Forall (fun c => c <> TAB /\ c <> COLON /\ c <> NL) name /\ (length name < 128)%nat.

Lemma tag_span name rest :
  Forall (fun c => c <> TAB /\ c <> COLON) name -> match rest with [] => True | c :: _ => c = TAB \/ c = COLON end ->
  span (fun c => negb ((c =? TAB) || (c =? COLON))) (name ++ rest) = (name, rest).
Proof.
  intros Hn Hr. apply span_all.
  - eapply Forall_impl; [exact Hn|]. intros c [H1 H2]. by rewrite (proj2 (Z.eqb_neq _ _) H1), (proj2 (Z.eqb_neq _ _) H2).
  - destruct rest as [|c rest]; [done|]. by destruct Hr as [-> | ->].
Qed.

Lemma tag_span_all p :
  Forall (fun c => c <> TAB /\ c <> COLON) p -> span (fun c => negb ((c =? TAB) || (c =? COLON))) p = (p, []).
Proof. intros Hp. pose proof (tag_span p [] Hp I) as E. by rewrite app_nil_r in E. Qed.

(** A field scans into its name, and into its value unless that is empty. *)
Lemma scan_field name tabs v t0 v0 :
  name_ok name -> Forall (fun c => c = TAB) tabs ->
  scan_line (field name tabs v) t0 v0 =
    Ok (name, match fst (span (fun c => negb ((c =? TAB) || (c =? NL))) (skip_spaces (v ++ [NL]))) with [] => v0 | v => v end).
Proof.
  intros (Hn & Hname & Hlen) Htabs. unfold scan_line, field.
  rewrite tag_span; [|eapply Forall_impl; [exact Hname|]; by intros c (? & ? & _)|].
  - destruct name as [|c0 name]; [done|]. destruct (Nat.leb_spec sizeof_tag (length (c0 :: name))) as [Hle|_];
      [unfold sizeof_tag in Hle; lia|]. unfold skip_spaces at 1.
    rewrite span_all; [|eapply Forall_impl; [exact Htabs|]; intros c ->; done|done].
    cbn [snd]. rewrite Z.eqb_refl. by destruct (fst _).
  - destruct tabs as [|t tabs]; cbn [app]; [by right|]. inversion Htabs; subst. by left.
Qed.

Lemma scan_decimal name tabs n t0 v0 :
  name_ok name -> Forall (fun c => c = TAB) tabs -> 0 <= n ->
  scan_line (field name tabs (SPACE :: decimal n)) t0 v0 = Ok (name, decimal n).
Proof.
  intros Hn Ht Hpos. rewrite scan_field by done. destruct (decimal_spec n Hpos) as (Hne & Hd & _).
  unfold skip_spaces. change ((SPACE :: decimal n) ++ [NL]) with ([SPACE] ++ (decimal n ++ [NL])).
  rewrite (span_all is_space [SPACE]); [|repeat constructor|].
  - cbn [snd]. rewrite span_all; [by destruct (decimal n)| |done]. eapply Forall_impl; [exact Hd|].
    intros c Hc. cbv beta in Hc. unfold TAB, NL. by rewrite !(proj2 (Z.eqb_neq _ _)) by lia.
  - destruct (decimal n) as [|c ds]; [done|]. inversion Hd; subst. cbn [app].
    unfold is_space, SPACE, TAB. rewrite (proj2 (Z.eqb_neq c 32)), (proj2 (Z.leb_gt c 13)) by lia. by rewrite andb_false_r.
Qed.

Lemma field_long name tabs v : name <> [] -> (Zlength (field name tabs v) =? 1) = false.
Proof.
  intros Hn. apply Z.eqb_neq. unfold field. rewrite !Zlength_app, Zlength_cons, Zlength_app.
  pose proof (Zlength_nonneg name). pose proof (Zlength_nonneg tabs). pose proof (Zlength_nonneg v).
  change (Zlength [NL]) with 1. lia.
Qed.

Lemma field_line name tabs v :
  field name tabs v = (name ++ tabs ++ COLON :: v) ++ [NL].
Proof. unfold field. by rewrite <- !app_assoc. Qed.

Lemma field_no_newline name tabs v :
  name_ok name -> Forall (fun c => c = TAB) tabs -> NL ∉ v -> NL ∉ name ++ tabs ++ COLON :: v.
Proof.
  intros (_ & Hn & _) Ht Hv. rewrite !elem_of_app, elem_of_cons. rewrite Forall_forall in Hn, Ht.
  intros [Hin|[Hin|[?|?]]]; [by destruct (Hn _ Hin) as (_ & _ & ?)|by apply Ht in Hin|done|done].
Qed.

Lemma reads_field s name tabs v rest :
  name_ok name -> Forall (fun c => c = TAB) tabs -> NL ∉ v -> (length (field name tabs v) <= 1023)%nat ->
  reads s (field name tabs v ++ rest) = (let* s := read_line s (field name tabs v) in reads s rest).
Proof.
  intros Hn Ht Hv Hlen. rewrite field_line in *. rewrite length_app in Hlen. cbn in Hlen.
  rewrite <- app_assoc. apply reads_line; [by apply field_no_newline|lia].
Qed.

Ltac name_ok := first [done | repeat (apply Forall_cons; split; [done|]); apply Forall_nil; exact I].
Ltac pick_name :=
  repeat first [rewrite bool_decide_eq_true_2 by reflexivity | rewrite bool_decide_eq_false_2 by discriminate].

Lemma looked_at_ok : Forall name_ok looked_at.
Proof. unfold looked_at, name_ok. repeat (apply Forall_cons; split; [split; [done|]; split; [name_ok|cbn; lia]|]). constructor. Qed.

Ltac name_by n := exact (Forall_lookup_1 _ _ n _ looked_at_ok eq_refl).
Lemma core_id_ok : name_ok (chars "core id"). Proof. name_by 0%nat. Qed.
Lemma physical_id_ok : name_ok (chars "physical id"). Proof. name_by 1%nat. Qed.
Lemma processor_ok : name_ok (chars "processor"). Proof. name_by 2%nat. Qed.
Lemma flags_ok : name_ok (chars "flags"). Proof. name_by 4%nat. Qed.

(** A decimal of a number below 1000 has at most three digits. *)
Lemma decimal_line name tabs n :
  (length name <= 20)%nat -> (length tabs <= 2)%nat -> 0 <= n < 1000 ->
  NL ∉ SPACE :: decimal n /\ (length (field name tabs (SPACE :: decimal n)) <= 1023)%nat.
Proof.
  intros Hn Ht Hr. destruct (decimal_spec n ltac:(lia)) as (_ & Hd & _). split.
  - apply not_elem_of_cons. split; [done|]. rewrite Forall_forall in Hd. intros Hin. apply Hd in Hin. unfold NL in Hin. lia.
  - unfold field. rewrite !length_app. cbn [length]. rewrite length_app. cbn [length].
    assert (Hall : Forall (fun n => (length (decimal n) <= 3)%nat) (seqZ 0 1000)) by (apply (bool_decide_unpack _); vm_compute; exact I).
    rewrite Forall_forall in Hall. specialize (Hall n ltac:(apply elem_of_seqZ; lia)). lia.
Qed.

Lemma read_processor s n rest :
  0 <= n < 1000 -> reads s (field (chars "processor") [TAB] (SPACE :: decimal n) ++ rest) =
    reads (State (chars "processor") (decimal n) n (core_id s) (physical_id s) (cpu_cores s) (map_size s) (sockets s)) rest.
Proof.
  intros Hn. destruct (decimal_line (chars "processor") [TAB] n) as [? ?]; [cbn; lia|cbn; lia|done|].
  rewrite reads_field by (apply processor_ok || done || name_ok). unfold read_line.
  rewrite field_long, scan_decimal by (apply processor_ok || done || name_ok || lia). cbn [res_bind]. pick_name.
  by rewrite strtol_decimal by lia.
Qed.

Lemma read_socket s n rest :
  0 <= n < 1000 -> reads s (field (chars "physical id") [TAB] (SPACE :: decimal n) ++ rest) =
    reads (State (chars "physical id") (decimal n) (processor s) (core_id s) n (cpu_cores s) (map_size s) (sockets s)) rest.
Proof.
  intros Hn. destruct (decimal_line (chars "physical id") [TAB] n) as [? ?]; [cbn; lia|cbn; lia|done|].
  rewrite reads_field by (apply physical_id_ok || done || name_ok). unfold read_line.
  rewrite field_long, scan_decimal by (apply physical_id_ok || done || name_ok || lia). cbn [res_bind]. pick_name.
  by rewrite strtol_decimal by lia.
Qed.

Lemma read_core s n rest :
  0 <= n < 1000 -> reads s (field (chars "core id") [TAB; TAB] (SPACE :: decimal n) ++ rest) =
    reads (State (chars "core id") (decimal n) (processor s) n (physical_id s) (cpu_cores s) (map_size s) (sockets s)) rest.
Proof.
  intros Hn. destruct (decimal_line (chars "core id") [TAB; TAB] n) as [? ?]; [cbn; lia|cbn; lia|done|].
  rewrite reads_field by (apply core_id_ok || done || name_ok). unfold read_line.
  rewrite field_long, scan_decimal by (apply core_id_ok || done || name_ok || lia). cbn [res_bind]. pick_name.
  by rewrite strtol_decimal by lia.
Qed.

(** States that differ in the two buffers only. *)
Definition same_fields (s s' : st) : Prop :=
  processor s' = processor s /\ core_id s' = core_id s /\ physical_id s' = physical_id s /\
  cpu_cores s' = cpu_cores s /\ map_size s' = map_size s /\ sockets s' = sockets s.

Lemma read_ignored s line t v :
  (Zlength line =? 1) = false -> scan_line line (tag s) (value s) = Ok (t, v) -> t ∉ looked_at ->
  exists s', read_line s line = Ok s' /\ same_fields s s'.
Proof.
  intros Hl E Ht. unfold read_line. rewrite Hl, E. cbn [res_bind]. unfold looked_at in Ht.
  repeat (apply not_elem_of_cons in Ht as [? Ht]). rewrite !bool_decide_eq_false_2 by done. eexists. split; [done|]. done.
Qed.

Definition other_ok (o : other) : Prop :=
  name_ok (o_name o) /\ o_name o ∉ looked_at /\ Forall (fun c => c = TAB) (o_tabs o) /\ NL ∉ o_value o /\
  (length (other_text o) <= 1023)%nat.

Lemma read_others s os rest :
  Forall other_ok os -> exists s', reads s (others_text os ++ rest) = reads s' rest /\ same_fields s s'.
Proof.
  intros Hos. revert s. induction Hos as [|o os (Hn & Hlook & Ht & Hv & Hlen) _ IH]; intros s; [by exists s|].
  unfold others_text in *. cbn [fmap list_fmap concat]. rewrite <- app_assoc. unfold other_text at 1.
  rewrite reads_field by done.
  destruct (read_ignored s (field (o_name o) (o_tabs o) (o_value o)) (o_name o) _ (field_long _ _ _ (proj1 Hn))
    (scan_field _ _ _ _ _ Hn Ht) Hlook) as (s1 & -> & Hs1).
  cbn [res_bind]. destruct (IH s1) as (s2 & -> & Hs2). exists s2. split; [done|].
  destruct Hs1 as (? & ? & ? & ? & ? & ?), Hs2 as (? & ? & ? & ? & ? & ?). repeat split; congruence.
Qed.

(** *** The flags *)

(** The first piece of the line of the flags scans as such. *)
Lemma read_flags s l v :
  0 <= physical_id s < 2 -> sockets s !! Z.to_nat (physical_id s) = Some l ->
  exists t u, read_line s (chars "flags" ++ [TAB; TAB] ++ COLON :: v) =
    Ok (State t u (processor s) (core_id s) (physical_id s) (cpu_cores s) (map_size s + 1)
          (<[Z.to_nat (physical_id s) := l ++ [(core_id s, processor s)]]> (sockets s))).
Proof.
  intros Hp Hl. unfold read_line.
  assert (Hz : (Zlength (chars "flags" ++ [TAB; TAB] ++ COLON :: v) =? 1) = false).
  { apply Z.eqb_neq. unfold Zlength. cbn [chars app length]. lia. }
  rewrite Hz. unfold scan_line. rewrite tag_span by (name_ok || by left). cbn [chars sizeof_tag].
  change (sizeof_tag <=? length (chars "flags"))%nat with false. unfold skip_spaces at 1. cbn [app].
  change (TAB :: TAB :: COLON :: v) with ([TAB; TAB] ++ COLON :: v). rewrite span_all by (done || name_ok). cbn [snd].
  rewrite Z.eqb_refl.
  destruct (fst (span (fun c => negb ((c =? TAB) || (c =? NL))) (skip_spaces v))) as [|c0 u]; cbn [res_bind]; pick_name;
    change (Z.of_nat MAX_SOCKETS) with 2; rewrite (proj2 (Z.ltb_lt (physical_id s) 2)) by lia; rewrite Hl;
    rewrite (proj2 (Z.ltb_ge (physical_id s) 0)) by lia; eauto.
Qed.

(** The rest of a line that did not fit. *)
Lemma read_rest s p :
  p <> [] -> Forall (fun c => c <> TAB /\ c <> COLON /\ c <> NL) p -> (length p < 127)%nat ->
  exists s', read_line s (p ++ [NL]) = Ok s' /\ same_fields s s'.
Proof.
  intros Hne Hp Hlen. apply (read_ignored s (p ++ [NL]) (p ++ [NL]) (value s)).
  - apply Z.eqb_neq. rewrite Zlength_app. change (Zlength [NL]) with 1. destruct p; [done|]. rewrite Zlength_cons. pose proof (Zlength_nonneg p). lia.
  - unfold scan_line. rewrite tag_span_all.
    + destruct (p ++ [NL]) as [|c0 t] eqn:E; [by destruct p|]. rewrite <- E. destruct (Nat.leb_spec sizeof_tag (length (p ++ [NL]))) as [Hle|_];
        [rewrite length_app in Hle; unfold sizeof_tag in Hle; cbn in Hle; lia|done].
    + apply Forall_app. split; [eapply Forall_impl; [exact Hp|]; by intros c (? & ? & _)|by repeat constructor].
  - intros Hin. assert (Hall : Forall (fun n => NL ∉ n) looked_at).
    { eapply Forall_impl; [exact looked_at_ok|]. intros n (_ & Hn & _) Hnl. rewrite Forall_forall in Hn. by destruct (Hn _ Hnl) as (_ & _ & ?). }
    rewrite Forall_forall in Hall. apply (Hall _ Hin). apply elem_of_app. right. left.
Qed.

Lemma read_overrun s p :
  Forall (fun c => c <> TAB /\ c <> COLON) p -> (128 <= length p)%nat -> read_line s p = Segfault.
Proof.
  intros Hp Hlen. unfold read_line. rewrite (proj2 (Z.eqb_neq (Zlength p) 1)) by (unfold Zlength; lia).
  unfold scan_line. rewrite tag_span_all by done.
  destruct p as [|c p]; [cbn in Hlen; lia|]. by destruct (Nat.leb_spec sizeof_tag (length (c :: p))) as [_|Hlt]; [|unfold sizeof_tag in Hlt; lia].
Qed.

Definition flags_clean (c : cpu) : Prop := Forall (fun x => x <> TAB /\ x <> COLON /\ x <> NL) (cpu_flags c).

(** The head of the line of the flags fits, the rest of a longer one is cut
    off inside the list of flags. *)
Lemma flags_cut c :
  take 1023 (chars "flags" ++ [TAB; TAB] ++ COLON :: cpu_flags c) = chars "flags" ++ [TAB; TAB] ++ COLON :: take 1015 (cpu_flags c) /\
  drop 1023 (chars "flags" ++ [TAB; TAB] ++ COLON :: cpu_flags c) = drop 1015 (cpu_flags c).
Proof. done. Qed.

Lemma reads_newline s rest : reads s (NL :: rest) = reads s rest.
Proof. change (NL :: rest) with ([] ++ NL :: rest). rewrite reads_line by (apply not_elem_of_nil || cbn; lia). done. Qed.

Lemma reads_flags s l c rest :
  flags_clean c -> 0 <= physical_id s < 2 -> sockets s !! Z.to_nat (physical_id s) = Some l ->
  if (length (flags_text c) <=? 1150)%nat then
    exists s', reads s (flags_text c ++ rest) = reads s' rest /\ map_size s' = map_size s + 1 /\
      sockets s' = <[Z.to_nat (physical_id s) := l ++ [(core_id s, processor s)]]> (sockets s)
  else reads s (flags_text c ++ rest) = Segfault.
Proof.
  intros Hcl Hp Hl. set (line := chars "flags" ++ [TAB; TAB] ++ COLON :: cpu_flags c).
  assert (Ef : flags_text c = line ++ [NL]) by apply field_line.
  assert (Er : flags_text c ++ rest = line ++ NL :: rest) by (by rewrite Ef, <- app_assoc). rewrite Er, Ef. clear Er Ef.
  assert (Hnl : NL ∉ line).
  { apply field_no_newline; [apply flags_ok|name_ok|]. intros Hin. unfold flags_clean in Hcl. rewrite Forall_forall in Hcl.
    by destruct (Hcl _ Hin) as (_ & _ & ?). }
  assert (Hline : length line = (8 + length (cpu_flags c))%nat) by done. rewrite length_app. cbn [length].
  destruct (Nat.le_gt_cases 1023 (length line)) as [Hlong|Hshort].
  - destruct (flags_cut c) as [Et Ed]. fold line in Et, Ed.
    rewrite (reads_fgets s _ (take 1023 line) (drop 1023 line ++ NL :: rest));
      [|by destruct line|exact (fgets_cut 1023 line (NL :: rest) Hnl Hlong)]. rewrite Et.
    destruct (read_flags s l (take 1015 (cpu_flags c)) Hp Hl) as (t & u & ->). cbn [res_bind]. rewrite Ed.
    set (p := drop 1015 (cpu_flags c)). assert (Hlp : length p = (length line - 1023)%nat) by (unfold p; rewrite length_drop; lia).
    assert (Hcp : Forall (fun x => x <> TAB /\ x <> COLON /\ x <> NL) p) by (by apply Forall_drop).
    assert (Hnp : NL ∉ p) by (intros Hin; rewrite Forall_forall in Hcp; by destruct (Hcp _ Hin) as (_ & _ & ?)).
    destruct (Nat.leb_spec (length line + 1) 1150) as [Hle|Hgt].
    + destruct p as [|c0 p'] eqn:Ep.
      * cbn [app]. rewrite reads_newline. eexists. split; [done|]. by split.
      * rewrite <- Ep in *. rewrite reads_line by (done || lia).
        match goal with |- context [read_line ?s1 _] => destruct (read_rest s1 p) as (s' & -> & Hs'); [by rewrite Ep|done|lia|] end.
        cbn [res_bind]. exists s'. split; [done|]. destruct Hs' as (_ & _ & _ & _ & -> & ->). done.
    + destruct (Nat.lt_ge_cases (length p) 1023) as [Hlt|Hge].
      * rewrite reads_line by done. rewrite read_overrun; [done| |rewrite length_app; cbn; lia].
        apply Forall_app. split; [eapply Forall_impl; [exact Hcp|]; by intros x (? & ? & _)|by repeat constructor].
      * rewrite (reads_fgets _ _ (take 1023 p) (drop 1023 p ++ NL :: rest)); [|by destruct p|exact (fgets_cut 1023 p (NL :: rest) Hnp Hge)].
        rewrite read_overrun; [done| |rewrite length_take; lia].
        apply Forall_take. eapply Forall_impl; [exact Hcp|]. by intros x (? & ? & _).
  - destruct (Nat.leb_spec (length line + 1) 1150) as [Hle|Hgt]; [|lia]. rewrite reads_line by (done || lia).
    unfold line at 1. rewrite <- !app_assoc. cbn [app]. change (TAB :: TAB :: COLON :: cpu_flags c ++ [NL]) with ([TAB; TAB] ++ COLON :: (cpu_flags c ++ [NL])).
    destruct (read_flags s l (cpu_flags c ++ [NL]) Hp Hl) as (t & u & ->). cbn [res_bind]. eexists. by split.
Qed.

(** Reading the lines of one processor adds it to its socket, or the flags
    overrun the buffer. *)
Definition cpu_ok (len : Z) (c : cpu) : Prop :=
  0 <= cpu_processor c < len /\ 0 <= cpu_socket c < 2 /\ 0 <= cpu_core c < 32 /\ flags_clean c /\
  Forall other_ok (cpu_model c) /\ Forall other_ok (cpu_siblings c) /\ Forall other_ok (cpu_apic c) /\ Forall other_ok (cpu_bugs c).

Lemma read_cpu len s c rest :
  len <= 1000 -> cpu_ok len c -> length (sockets s) = 2%nat ->
  if (length (flags_text c) <=? 1150)%nat then
    exists s' l, reads s (cpu_text c ++ rest) = reads s' rest /\
      map_size s' = map_size s + 1 /\ sockets s !! Z.to_nat (cpu_socket c) = Some l /\
      sockets s' = <[Z.to_nat (cpu_socket c) := l ++ [(cpu_core c, cpu_processor c)]]> (sockets s)
  else reads s (cpu_text c ++ rest) = Segfault.
Proof.
  intros Hlen (Hp & Hs & Hc & Hfl & H1 & H2 & H3 & H4) Hl.
  destruct (lookup_lt_is_Some_2 (sockets s) (Z.to_nat (cpu_socket c))) as [l Hsock]; [lia|].
  unfold cpu_text. rewrite <- !app_assoc. rewrite read_processor by lia.
  match goal with |- context [reads ?x (others_text (cpu_model c) ++ ?r)] => destruct (read_others x (cpu_model c) r H1) as (s1 & -> & Hs1) end.
  rewrite read_socket by lia.
  match goal with |- context [reads ?x (others_text (cpu_siblings c) ++ ?r)] => destruct (read_others x (cpu_siblings c) r H2) as (s2 & -> & Hs2) end.
  rewrite read_core by lia.
  match goal with |- context [reads ?x (others_text (cpu_apic c) ++ ?r)] => destruct (read_others x (cpu_apic c) r H3) as (s3 & -> & Hs3) end.
  destruct Hs1 as (E1 & E2 & E3 & E4 & E5 & E6), Hs2 as (F1 & F2 & F3 & F4 & F5 & F6), Hs3 as (G1 & G2 & G3 & G4 & G5 & G6).
  cbn [processor core_id physical_id cpu_cores map_size sockets] in *.
  assert (Hpi : physical_id s3 = cpu_socket c) by congruence. assert (Hci : core_id s3 = cpu_core c) by congruence.
  assert (Hpr : processor s3 = cpu_processor c) by congruence. assert (Hso : sockets s3 = sockets s) by congruence.
  assert (Hms : map_size s3 = map_size s) by congruence.
  pose proof (reads_flags s3 l c (others_text (cpu_bugs c) ++ [NL] ++ rest) Hfl ltac:(lia) ltac:(by rewrite Hpi, Hso)) as Hf.
  destruct (length (flags_text c) <=? 1150)%nat; [|done]. destruct Hf as (s4 & -> & Hm4 & Hs4).
  destruct (read_others s4 (cpu_bugs c) ([NL] ++ rest) H4) as (s5 & -> & (_ & _ & _ & _ & Hm5 & Hs5)).
  exists s5, l. change ([NL] ++ rest) with (NL :: rest). split; [apply reads_newline|]. split; [lia|]. split; [done|].
  by rewrite Hs5, Hs4, Hpi, Hci, Hpr, Hso.
Qed.

(** The cores of socket [i], in the order of the text. *)
Definition socket_cores (i : Z) (cs : list cpu) : list (Z * Z) :=
  (fun c => (cpu_core c, cpu_processor c)) <$> filter (fun c => cpu_socket c = i) cs.

Lemma read_cpuinfo len cs s l0 l1 rest :
  len <= 1000 -> Forall (cpu_ok len) cs -> Forall (fun c => (length (flags_text c) <= 1150)%nat) cs -> sockets s = [l0; l1] ->
  exists s', reads s (cpuinfo_text cs ++ rest) = reads s' rest /\ map_size s' = map_size s + Zlength cs /\
    sockets s' = [l0 ++ socket_cores 0 cs; l1 ++ socket_cores 1 cs].
Proof.
  intros Hlen Hcs. revert s l0 l1. induction Hcs as [|c cs Hc Hcs IH]; intros s l0 l1 Hfl Hsock.
  - exists s. unfold cpuinfo_text, socket_cores. simpl. change (Zlength []) with 0.
    rewrite !app_nil_r. split; [done|]. split; [lia|done].
  - apply Forall_cons in Hfl as [Hfc Hfl]. unfold cpuinfo_text. rewrite fmap_cons. cbn [concat]. rewrite <- app_assoc.
    pose proof (read_cpu len s c (concat (cpu_text <$> cs) ++ rest) Hlen Hc ltac:(by rewrite Hsock)) as Hr.
    rewrite (proj2 (Nat.leb_le _ _) Hfc) in Hr. destruct Hr as (s1 & l & Hr & Hm & Hl & Hs1). rewrite Hr.
    destruct Hc as (_ & Hs & _). unfold socket_cores in *. rewrite !filter_cons, Zlength_cons.
    assert (Hcase : cpu_socket c = 0 \/ cpu_socket c = 1) by lia.
    destruct Hcase as [E|E]; rewrite E, Hsock in *; simpl in Hl; injection Hl as <-; simpl in Hs1.
    + destruct (IH s1 _ _ Hfl Hs1) as (s' & Hr' & Hm' & Hs'). exists s'. split; [exact Hr'|].
      split; [lia|]. rewrite Hs'. simpl. by rewrite <- app_assoc.
    + destruct (IH s1 _ _ Hfl Hs1) as (s' & Hr' & Hm' & Hs'). exists s'. split; [exact Hr'|].
      split; [lia|]. rewrite Hs'. simpl. by rewrite <- app_assoc.
Qed.

Lemma insert_core_perm x l : insert_core x l ≡ₚ x :: l.
Proof.
  induction l as [|y l IH]; simpl; [done|]. destruct (core_info_compare x y); [done|].
  rewrite IH. apply Permutation_swap.
Qed.

Lemma sort_cores_perm l : sort_cores l ≡ₚ l.
Proof. induction l as [|x l IH]; simpl; [done|]. by rewrite insert_core_perm, IH. Qed.

(** Writing distinct processors. *)
Lemma write_cores_spec i cs m :
  Forall (fun c => fst c < 32 /\ 0 <= snd c < Zlength m) cs -> NoDup (snd <$> cs) ->
  exists m', write_cores i cs m = Ok m' /\ length m' = length m /\
    (forall c, c ∈ cs -> m' !! Z.to_nat (snd c) = Some (u8 (Z.lor (fst c) (Z.shiftl i 5)))) /\
    (forall j, (forall c, c ∈ cs -> j <> Z.to_nat (snd c)) -> m' !! j = m !! j).
Proof.
  revert m. induction cs as [|[c p] cs IH]; intros m Hcs Hnd; cbn [write_cores].
  - exists m. split; [done|]. split; [done|]. split; [|done]. intros c Hc. by apply not_elem_of_nil in Hc.
  - inversion Hcs as [|? ? [Hc Hp] Hcs']; subst. simpl in Hc, Hp.
    rewrite fmap_cons in Hnd. apply NoDup_cons in Hnd as [Hnin Hnd]. simpl in Hnin.
    rewrite (proj2 (Z.ltb_lt _ _)) by done.
    rewrite (proj2 (Z.leb_le _ _)), (proj2 (Z.ltb_lt _ _)) by lia. cbn [andb].
    destruct (IH (<[Z.to_nat p := u8 (Z.lor c (Z.shiftl i 5))]> m)) as (m' & -> & Hlen & Hin & Hout);
      [unfold Zlength in *; by rewrite length_insert|done|].
    exists m'. split; [done|]. split; [by rewrite Hlen, length_insert|].
    assert (Hdist : forall c', c' ∈ cs -> 0 <= snd c' -> Z.to_nat p <> Z.to_nat (snd c')).
    { intros c' Hc' Hpos E. apply Hnin. assert (p = snd c') as -> by lia. by apply list_elem_of_fmap_2. }
    assert (Hpos : forall c', c' ∈ cs -> 0 <= snd c').
    { intros c' Hc'. rewrite Forall_forall in Hcs'. destruct (Hcs' c' Hc'). lia. }
    split.
    + intros c' Hc'. apply elem_of_cons in Hc' as [->|Hc']; [|by apply Hin].
      rewrite Hout by (intros; apply Hdist; auto). simpl.
      apply list_lookup_insert_eq. unfold Zlength in Hp. lia.
    + intros j Hj. rewrite Hout by (intros; apply Hj; by right).
      apply list_lookup_insert_ne. intros E. apply (Hj (c, p)); [left|done].
Qed.

Lemma core_code i c : 0 <= i < 2 -> 0 <= c < 32 -> u8 (Z.lor c (Z.shiftl i 5)) = c + 32 * i.
Proof.
  intros Hi Hc.
  assert (Hall : Forall (fun c => u8 (Z.lor c (Z.shiftl 0 5)) = c + 32 * 0 /\
                                  u8 (Z.lor c (Z.shiftl 1 5)) = c + 32 * 1) (seqZ 0 32)).
  { vm_compute. repeat (apply Forall_cons; split; [done|]). apply Forall_nil; exact I. }
  rewrite Forall_forall in Hall. destruct (Hall c) as [H0 H1]; [apply elem_of_seqZ; lia|].
  assert (Hi' : i = 0 \/ i = 1) by lia. destruct Hi' as [-> | ->]; done.
Qed.

Lemma elem_socket_cores i cs c : c ∈ socket_cores i cs -> exists k, c = (cpu_core k, cpu_processor k) /\ cpu_socket k = i /\ k ∈ cs.
Proof.
  unfold socket_cores. intros (k & -> & Hk)%list_elem_of_fmap. apply list_elem_of_filter in Hk as [? ?]. by exists k.
Qed.

Lemma write_socket i cs m :
  Forall (cpu_ok (Zlength m)) cs -> NoDup (cpu_processor <$> cs) ->
  exists m', write_cores i (sort_cores (socket_cores i cs)) m = Ok m' /\ length m' = length m /\
    (forall k, k ∈ cs -> cpu_socket k = i -> 0 <= i < 2 ->
       m' !! Z.to_nat (cpu_processor k) = Some (cpu_core k + 32 * i)) /\
    (forall k, k ∈ cs -> cpu_socket k <> i -> m' !! Z.to_nat (cpu_processor k) = m !! Z.to_nat (cpu_processor k)).
Proof.
  intros Hok Hnd. pose proof (sort_cores_perm (socket_cores i cs)) as Hperm.
  rewrite Forall_forall in Hok.
  destruct (write_cores_spec i (sort_cores (socket_cores i cs)) m) as (m' & Hw & Hlen & Hin & Hout).
  - rewrite Hperm. apply Forall_forall. intros c (k & -> & _ & Hk)%elem_socket_cores.
    destruct (Hok k Hk) as (? & ? & ? & _). simpl. lia.
  - rewrite Hperm. unfold socket_cores. rewrite <- list_fmap_compose. simpl.
    eapply sublist_NoDup; [exact Hnd|].
    change (cpu_processor <$> filter (fun c => cpu_socket c = i) cs `sublist_of` cpu_processor <$> cs).
    apply fmap_sublist, sublist_filter.
  - exists m'. split; [done|]. split; [done|]. split.
    + intros k Hk Hs Hi. destruct (Hok k Hk) as (_ & _ & Hc & _). rewrite <- core_code by done.
      apply (Hin (cpu_core k, cpu_processor k)). rewrite Hperm. unfold socket_cores.
      apply list_elem_of_fmap. exists k. split; [done|]. by apply list_elem_of_filter.
    + intros k Hk Hs. apply Hout. intros c Hc. rewrite Hperm in Hc.
      apply elem_socket_cores in Hc as (k' & -> & Hs' & Hk'). simpl. intros E.
      assert (cpu_processor k = cpu_processor k') as Ep.
      { destruct (Hok k Hk) as (? & _), (Hok k' Hk') as (? & _). lia. }
      apply Hs. rewrite <- Hs'. f_equal.
      apply list_elem_of_lookup in Hk as (a & Ha), Hk' as (b & Hb).
      assert (a = b) as ->; [|congruence].
      eapply (NoDup_lookup _ _ _ (cpu_processor k) Hnd); rewrite list_lookup_fmap, ?Ha, ?Hb; simpl; [done|by rewrite Ep].
Qed.

Lemma first_long cs :
  Exists (fun c => (1150 < length (flags_text c))%nat) cs ->
  exists cs1 c cs2, cs = cs1 ++ c :: cs2 /\ Forall (fun c => (length (flags_text c) <= 1150)%nat) cs1 /\ (1150 < length (flags_text c))%nat.
Proof.
  induction cs as [|c cs IH]; intros Hex; [by apply Exists_nil in Hex|].
  destruct (Nat.lt_ge_cases 1150 (length (flags_text c))) as [Hlt|Hge]; [by exists [], c, cs|].
  apply Exists_cons in Hex as [?|Hex]; [lia|]. destruct (IH Hex) as (cs1 & c' & cs2 & -> & Hs & Hl).
  exists (c :: cs1), c', cs2. split; [done|]. split; [by constructor|done].
Qed.


Definition plain_cpu (p s c : Z) (flags : list Z) : cpu :=
  Cpu p s c flags [Other (chars "vendor_id") [TAB] (chars " GenuineIntel")] [Other (chars "siblings") [TAB] (chars " 2")]
    [Other (chars "fpu") [TAB; TAB] (chars " yes")] [Other (chars "power management") [] []].
Definition demo_cpus : list cpu :=
  [plain_cpu 0 0 0 (chars " fpu vme de"); plain_cpu 1 1 0 (chars " fpu vme de"); plain_cpu 2 0 0 (chars " fpu" ++ replicate 1100 97); plain_cpu 3 1 0 []].

Lemma plain_cpu_ok p s c flags :
  0 <= p < 40 -> 0 <= s < 2 -> 0 <= c < 32 -> Forall (fun x => x <> TAB /\ x <> COLON /\ x <> NL) flags -> cpu_ok 40 (plain_cpu p s c flags).
Proof.
  intros Hp Hs Hc Hf. do 4 (split; [done|]).
  assert (Hb : forall name tabs v, bool_decide (name_ok name /\ name ∉ looked_at /\ Forall (fun c => c = TAB) tabs /\ NL ∉ v /\
     (length (field name tabs v) <= 1023)%nat) = true -> other_ok (Other name tabs v)).
  { intros name tabs v Hd%bool_decide_eq_true. exact Hd. }
  repeat split; (apply Forall_singleton, Hb; by vm_compute).
Qed.


End CpuInfoText.
