(* ===== verification/Catalog.v ===== *)
(** * Catalog of persistent objects and class registry (nv_catalog.cpp,
    nv_factory.cpp)

    The catalog is a persistent file with a header, an array of object
    descriptors and an area for constructor arguments.  Theorems: the
    descriptors survive power failures, adding an object is failure-atomic,
    and reopening lists the objects in the order they were added. *)

From stdpp Require Import base numbers list gmap strings.
From S2P Require Import Prelude Pmem Savitar NvLog.

Definition CatalogMagic : Z := 0x434154414C4F4700.
Definition CatalogFlagCleanShutdown : Z := 1.
Definition sizeof_CatalogEntry : Z := 32.
Definition MaxPersistentObjects : Z := (CATALOG_HEADER_SIZE - 32) / sizeof_CatalogEntry.

(** Fields of [Catalog] and of [CatalogEntry]. *)
Definition cat_magic : Z := 0.
Definition cat_object_count : Z := 8.
Definition cat_free_offset : Z := 16.
Definition cat_flags : Z := 24.
Definition cat_objects : Z := 32.
Definition ent_type : Z := 16.
Definition ent_args_offset : Z := 24.
Definition entry_addr (i : Z) : Z := cat_objects + sizeof_CatalogEntry * i.

Section Catalog.
Context {P : Type} `{PmemOps P} `{Uuid}.

Definition catalog_path (path : string) : string := String.append PMEM_PATH path.

(** The loop of the constructor over an existing catalog: the textual uuid of
    each object and the address of its descriptor. *)
Fixpoint list_objects (cat : P) (i : Z) (n : nat) : list (string * Z) :=
  match n with
  | O => []
  | S n =>
      (uuid_unparse (rd_bytes (pm_load cat) (entry_addr i) 16), entry_addr i) :: list_objects cat (i + 1) n
  end.

Definition catalog_init (cat : P) : P :=
  let cat := pm_store cat 0 (replicate 64 0) in
  let cat := set_field cat cat_free_offset CATALOG_HEADER_SIZE in
  let cat := pm_persist cat 0 CACHE_LINE_WIDTH in
  let cat := set_field cat cat_magic CatalogMagic in
  pm_persist cat 0 CACHE_LINE_WIDTH.

(** Constructor: the files after it and the objects it found. *)
Definition NVCatalog (files : gmap string P) (path : string)
  : res (gmap string P * list (string * Z)) :=
  let path := catalog_path path in
  match files !! path with
  | Some cat =>
      assert! pm_len cat =? CATALOG_FILE_SIZE in
      assert! get_field cat cat_magic =? CatalogMagic in
      Ok (files, list_objects cat 0 (Z.to_nat (get_field cat cat_object_count)))
  | None => Ok (<[path := catalog_init (pm_fresh CATALOG_FILE_SIZE)]> files, [])
  end.

(** The descriptor is written and persisted before the count. *)
Definition add_entry (cat : P) (uuid : list Z) (type : Z) : res (P * Z) :=
  let offset := get_field cat cat_object_count in
  let a := entry_addr offset in
  if a + sizeof_CatalogEntry <=? pm_len cat then
    let cat := pm_store cat a uuid in
    let cat := set_field cat (a + ent_type) type in
    Ok (pm_persist cat a sizeof_CatalogEntry, a)
  else Segfault.

Definition add_count (cat : P) : P :=
  set_field cat cat_object_count (u64 (get_field cat cat_object_count + 1)).

Definition add (cat : P) (uuid : list Z) (type : Z) : res (P * Z) :=
  let* r := add_entry cat uuid type in
  let cat := add_count (fst r) in
  Ok (pm_persist cat 0 CACHE_LINE_WIDTH, snd r).

(** The accesses to persistent memory of [add], one by one, for power failures
    inside the operation. *)
Inductive pm_step :=
| PmStore (addr : Z) (bytes : list Z)
| PmPersist (addr len : Z).

Definition pm_do (cat : P) (s : pm_step) : P :=
  match s with
  | PmStore a bs => pm_store cat a bs
  | PmPersist a n => pm_persist cat a n
  end.
Definition pm_run (cat : P) (l : list pm_step) : P := foldl pm_do cat l.

Definition add_steps (offset : Z) (uuid : list Z) (type : Z) : list pm_step :=
  let a := entry_addr offset in
  [PmStore a uuid; PmStore (a + ent_type) (le_bytes 8 type); PmPersist a sizeof_CatalogEntry;
   PmStore cat_object_count (le_bytes 8 (offset + 1)); PmPersist 0 CACHE_LINE_WIDTH].

Definition addConstructorArgs (cat : P) (obj : Z) (buffer : list Z) : res P :=
  let size := Zlength buffer in
  let offset := get_field cat cat_free_offset in
  let cat := set_field cat cat_free_offset (u64 (offset + size)) in
  assert! u64 (offset + size) <=? CATALOG_FILE_SIZE in
  let cat := pm_persist cat 0 CACHE_LINE_WIDTH in
  let cat := pm_drain (pm_memcpy_nodrain cat offset buffer) in
  let cat := set_field cat (obj + ent_args_offset) offset in
  Ok (pm_persist cat obj sizeof_CatalogEntry).

Definition setFlags (cat : P) (flags : Z) : P :=
  pm_persist (set_field cat cat_flags flags) 0 CACHE_LINE_WIDTH.
Definition getFlags (cat : P) : Z := get_field cat cat_flags.

(** [NVManager::getArgumentPointer]. *)
Definition getArgumentPointer (cat : P) (entry : Z) : Z :=
  get_field cat (entry + ent_args_offset).

(** ** Abstract view *)

Record centry := CEntry { ce_uuid : list Z; ce_type : Z; ce_args : Z }.

Definition entry_bytes (e : centry) : list Z :=
  ce_uuid e ++ le_bytes 8 (ce_type e) ++ le_bytes 8 (ce_args e).

Definition centry_ok (e : centry) : Prop :=
  length (ce_uuid e) = 16%nat /\ is_u64 (ce_type e) /\ is_u64 (ce_args e).

Record catalog_repr (cat : P) (objs : list centry) (free flags : Z) : Prop := {
  cr_len : pm_len cat = CATALOG_FILE_SIZE;
  cr_magic : get_field cat cat_magic = CatalogMagic;
  cr_count : get_field cat cat_object_count = Zlength objs;
  cr_free : get_field cat cat_free_offset = free;
  cr_flags : get_field cat cat_flags = flags;
  cr_max : Zlength objs <= MaxPersistentObjects;
  cr_range : CATALOG_HEADER_SIZE <= free <= CATALOG_FILE_SIZE;
  cr_ok : Forall centry_ok objs;
  cr_entries : forall i e, objs !! i = Some e ->
    bytes_at (pm_load cat) (entry_addr (Z.of_nat i)) (entry_bytes e);
  cr_blank : forall a, entry_addr (Zlength objs) <= a < CATALOG_HEADER_SIZE -> pm_load cat a = 0
}.

Definition all_durable (cat : P) : Prop := forall a, pm_durable cat a.

(** Operations of the manager on the catalog and their meaning. *)
Inductive cat_op :=
| CatAdd (uuid : list Z) (type : Z)
| CatArgs (i : nat) (buffer : list Z)
| CatFlags (flags : Z).

Definition run_cat_op (cat : P) (op : cat_op) : res P :=
  match op with
  | CatAdd uuid type => let* r := add cat uuid type in Ok (fst r)
  | CatArgs i buffer => addConstructorArgs cat (entry_addr (Z.of_nat i)) buffer
  | CatFlags flags => Ok (setFlags cat flags)
  end.

Fixpoint run_cat_ops (cat : P) (ops : list cat_op) : res P :=
  match ops with
  | [] => Ok cat
  | op :: ops => let* cat := run_cat_op cat op in run_cat_ops cat ops
  end.

Record cstate := CState { cs_objs : list centry; cs_free : Z; cs_flags : Z; cs_args : list (nat * list Z) }.

(** What the operations do to the abstract catalog; [cs_args] collects the
    arguments stored so far, by object. *)
Inductive spec_cat_op : cstate -> cat_op -> cstate -> Prop :=
| spec_cat_add objs free flags args uuid type :
    length uuid = 16%nat -> is_u64 type -> Zlength objs < MaxPersistentObjects ->
    spec_cat_op (CState objs free flags args) (CatAdd uuid type)
      (CState (objs ++ [CEntry uuid type 0]) free flags args)
| spec_cat_args objs free flags args i e buffer :
    objs !! i = Some e -> free + Zlength buffer <= CATALOG_FILE_SIZE ->
    (forall b, (i, b) ∉ args) ->
    spec_cat_op (CState objs free flags args) (CatArgs i buffer)
      (CState (<[i := CEntry (ce_uuid e) (ce_type e) free]> objs) (free + Zlength buffer) flags
         (args ++ [(i, buffer)]))
| spec_cat_flags objs free flags args flags' :
    is_u64 flags' ->
    spec_cat_op (CState objs free flags args) (CatFlags flags') (CState objs free flags' args).

Inductive spec_cat_ops : cstate -> list cat_op -> cstate -> Prop :=
| spec_cat_nil s : spec_cat_ops s [] s
| spec_cat_cons s1 op s2 ops s3 :
    spec_cat_op s1 op s2 -> spec_cat_ops s2 ops s3 -> spec_cat_ops s1 (op :: ops) s3.

(** Every recorded argument buffer is in the file where its object's
    descriptor says. *)
Definition args_stored (cat : P) (objs : list centry) (free : Z) (args : list (nat * list Z)) : Prop :=
  forall i b, (i, b) ∈ args -> exists e, objs !! i = Some e /\
    CATALOG_HEADER_SIZE <= ce_args e /\ ce_args e + Zlength b <= free /\
    bytes_at (pm_load cat) (ce_args e) b.

Definition cat_inv (cat : P) (s : cstate) : Prop :=
  catalog_repr cat (cs_objs s) (cs_free s) (cs_flags s) /\ all_durable cat /\
  args_stored cat (cs_objs s) (cs_free s) (cs_args s).

End Catalog.

(** ** Proofs *)

(** Side conditions on addresses of the catalog. *)
Ltac cat_addr :=
  unfold in_range, cat_magic, cat_object_count, cat_free_offset, cat_flags, cat_objects, ent_type,
    ent_args_offset, sizeof_CatalogEntry in *; rewrite ?Zlength_le_bytes; lia.

Section Catalog_proofs.
Context {P : Type} `{PmemLaws P} `{Uuid}.
Implicit Types (cat : P).

Lemma entry_addr_bound i : 0 <= i < MaxPersistentObjects ->
  32 <= entry_addr i /\ entry_addr i + 32 <= CATALOG_HEADER_SIZE.
Proof.
  unfold entry_addr, MaxPersistentObjects, cat_objects, sizeof_CatalogEntry.
  change CATALOG_HEADER_SIZE with 2097152. change ((2097152 - 32) / 32) with 65535. lia.
Qed.

Lemma entry_addr_max i : 0 <= i <= MaxPersistentObjects ->
  32 <= entry_addr i <= CATALOG_HEADER_SIZE.
Proof.
  unfold entry_addr, MaxPersistentObjects, cat_objects, sizeof_CatalogEntry.
  change CATALOG_HEADER_SIZE with 2097152. change ((2097152 - 32) / 32) with 65535. lia.
Qed.

Lemma entry_addr_succ i : entry_addr (i + 1) = entry_addr i + 32.
Proof. unfold entry_addr, cat_objects, sizeof_CatalogEntry. lia. Qed.

Lemma entry_addr_lt i j : i < j -> entry_addr i + 32 <= entry_addr j.
Proof. unfold entry_addr, cat_objects, sizeof_CatalogEntry. lia. Qed.

Lemma header_file : CATALOG_HEADER_SIZE <= CATALOG_FILE_SIZE.
Proof. by vm_compute. Qed.

(** The bytes of an array of fresh storage are those of zero words. *)
Lemma bytes_at_zero rd a n :
  (forall i, a <= i < a + Z.of_nat n -> rd i = 0) -> bytes_at rd a (le_bytes n 0).
Proof.
  revert a. induction n as [|n IH]; intros a Hz; cbn [le_bytes bytes_at]; [done|].
  change (0 mod 256) with 0. change (0 / 256) with 0. split; [apply Hz; lia|].
  apply IH. intros. apply Hz. lia.
Qed.

Lemma Zlength_entry e : centry_ok e -> Zlength (entry_bytes e) = 32.
Proof.
  intros (Hu & _ & _). unfold entry_bytes. rewrite !Zlength_app, !Zlength_le_bytes. unfold Zlength. lia.
Qed.

(** The first cache line of a new catalog is cleared before its fields are
    written. *)
Definition blank_catalog : P := pm_store (pm_fresh CATALOG_FILE_SIZE) 0 (replicate 64 0).

Lemma blank_load a : pm_load blank_catalog a = 0.
Proof.
  unfold blank_catalog. destruct (decide (0 <= a < 64)) as [Ha|Ha].
  - pose proof (pm_store_at (pm_fresh CATALOG_FILE_SIZE) 0 (replicate 64 0)) as Hat.
    apply bytes_at_rd in Hat. rewrite length_replicate in Hat.
    pose proof (rd_bytes_lookup (pm_load (pm_store (pm_fresh CATALOG_FILE_SIZE) 0 (replicate 64 0))) 64 0 (Z.to_nat a) ltac:(lia)) as Hl.
    rewrite Hat, lookup_replicate_2 in Hl by lia. injection Hl as Hl. rewrite Z2Nat.id, Z.add_0_l in Hl by lia. done.
  - rewrite pm_store_other; [apply pm_fresh_load|]. unfold in_range. change (Zlength (replicate 64 0)) with 64. lia.
Qed.

Lemma blank_field a : get_field blank_catalog a = 0.
Proof.
  unfold get_field, rd64. generalize 8%nat. intros n. revert a.
  induction n as [|n IH]; intros d; cbn [rd_bytes le_value]; [done|]. by rewrite blank_load, IH.
Qed.

Lemma catalog_init_repr :
  catalog_repr (catalog_init (pm_fresh CATALOG_FILE_SIZE)) [] CATALOG_HEADER_SIZE 0 /\
  all_durable (catalog_init (pm_fresh CATALOG_FILE_SIZE)).
Proof.
  unfold catalog_init. fold blank_catalog. split.
  - split; rewrite ?pm_persist_len; unfold set_field.
    + unfold blank_catalog. by rewrite !pm_store_len, pm_persist_len, !pm_store_len, pm_fresh_len.
    + unfold get_field. rewrite pm_persist_rd64. by apply pm_store_load64.
    + unfold get_field. rewrite pm_persist_rd64, pm_store_rd64_other by cat_addr.
      rewrite pm_persist_rd64, pm_store_rd64_other by cat_addr. apply blank_field.
    + unfold get_field. rewrite pm_persist_rd64, pm_store_rd64_other by cat_addr.
      rewrite pm_persist_rd64. apply pm_store_load64; [|done]. unfold is_u64. by vm_compute.
    + unfold get_field. rewrite pm_persist_rd64, pm_store_rd64_other by cat_addr.
      rewrite pm_persist_rd64, pm_store_rd64_other by cat_addr. apply blank_field.
    + by vm_compute.
    + by vm_compute.
    + constructor.
    + intros i e Hi. done.
    + intros a Ha. change (entry_addr (Zlength [])) with 32 in Ha. rewrite pm_persist_load, pm_store_other by cat_addr.
      rewrite pm_persist_load, pm_store_other by cat_addr. apply blank_load.
  - intros a. destruct (decide (0 <= a < 64)); [by apply pm_persist_range|].
    apply pm_persist_durable, pm_store_durable; [cat_addr|]. apply pm_persist_durable, pm_store_durable; [cat_addr|].
    apply pm_store_durable; [unfold in_range; change (Zlength (replicate 64 0)) with 64; lia|]. apply pm_fresh_durable.
Qed.

Lemma rd_persist cat d n f : get_field (pm_persist cat d n) f = get_field cat f.
Proof. apply pm_persist_rd64. Qed.

(** The catalog after the descriptor is persisted and before the count. *)
Lemma add_entry_spec cat objs free flags uuid type :
  catalog_repr cat objs free flags -> all_durable cat ->
  length uuid = 16%nat -> is_u64 type -> Zlength objs < MaxPersistentObjects ->
  exists cat1, add_entry cat uuid type = Ok (cat1, entry_addr (Zlength objs)) /\
    pm_len cat1 = pm_len cat /\ all_durable cat1 /\
    bytes_at (pm_load cat1) (entry_addr (Zlength objs)) (entry_bytes (CEntry uuid type 0)) /\
    (forall a, ~ in_range a (entry_addr (Zlength objs)) 24 -> pm_load cat1 a = pm_load cat a).
Proof.
  intros Hr Hd Hu Ht Hmax. pose proof (Zlength_nonneg objs).
  pose proof (entry_addr_bound (Zlength objs) ltac:(lia)) as [Hlo Hhi]. pose proof header_file.
  assert (Hul : Zlength uuid = 16) by (unfold Zlength; lia).
  unfold add_entry. rewrite (cr_count _ _ _ _ Hr), (cr_len _ _ _ _ Hr).
  rewrite (proj2 (Z.leb_le _ _)) by cat_addr. set (A := entry_addr (Zlength objs)) in *.
  eexists. split; [done|].
  assert (Hother : forall a, ~ in_range a A 24 ->
    pm_load (set_field (pm_store cat A uuid) (A + ent_type) type) a = pm_load cat a).
  { intros a Ha. unfold set_field. rewrite !pm_store_other by cat_addr. done. }
  split; [|split; [|split]].
  - rewrite pm_persist_len. unfold set_field. rewrite !pm_store_len. apply (cr_len _ _ _ _ Hr).
  - intros a. destruct (decide (in_range a A 32)) as [Hin|Hin].
    + by apply pm_persist_range.
    + apply pm_persist_durable. unfold set_field.
      apply pm_store_durable; [cat_addr|]. apply pm_store_durable; [cat_addr|]. apply Hd.
  - unfold entry_bytes. cbn [ce_uuid ce_type ce_args]. apply bytes_at_app. split.
    + eapply bytes_at_ext; [|apply (pm_store_at cat A uuid)]. intros i Hi.
      rewrite pm_persist_load. unfold set_field. rewrite pm_store_other by cat_addr. done.
    + rewrite Hul. apply bytes_at_app. rewrite Zlength_le_bytes. split.
      * eapply bytes_at_ext; [|apply (pm_store_at (pm_store cat A uuid) (A + ent_type) (le_bytes 8 type))].
        intros i Hi. by rewrite pm_persist_load.
      * apply bytes_at_zero. intros i Hi. rewrite pm_persist_load, Hother by cat_addr.
        apply (cr_blank _ _ _ _ Hr). fold A. lia.
  - intros a Ha. rewrite pm_persist_load. by apply Hother.
Qed.

(** A catalog whose count covers a descriptor written past the old end. *)
Lemma repr_extend cat cat' objs free flags e :
  catalog_repr cat objs free flags -> centry_ok e -> Zlength objs < MaxPersistentObjects ->
  pm_len cat' = pm_len cat -> get_field cat' cat_object_count = Zlength objs + 1 ->
  bytes_at (pm_load cat') (entry_addr (Zlength objs)) (entry_bytes e) ->
  (forall a, ~ in_range a (entry_addr (Zlength objs)) 32 -> ~ in_range a cat_object_count 8 ->
     pm_load cat' a = pm_load cat a) ->
  catalog_repr cat' (objs ++ [e]) free flags.
Proof.
  intros Hr He Hmax Hlen Hcount Hb Hother. pose proof (Zlength_nonneg objs).
  pose proof (entry_addr_bound (Zlength objs) ltac:(lia)) as [Hlo Hhi].
  destruct Hr as [Rlen Rmagic Rcount Rfree Rflags Rmax Rrange Rok Rent Rblank].
  assert (Hf : forall f, f + 8 <= 32 -> f + 8 <= cat_object_count \/ cat_object_count + 8 <= f ->
                 get_field cat' f = get_field cat f).
  { intros f Hf1 Hf2. apply get_field_ext. intros a Ha. apply Hother; cat_addr. }
  split.
  - by rewrite Hlen.
  - rewrite Hf by cat_addr. done.
  - rewrite Zlength_app. done.
  - rewrite Hf by cat_addr. done.
  - rewrite Hf by cat_addr. done.
  - rewrite Zlength_app. change (Zlength [e]) with 1. lia.
  - done.
  - apply Forall_app. split; [done|]. apply Forall_cons. split; [done|apply Forall_nil; exact I].
  - intros i e' Hi. apply lookup_app_Some in Hi as [Hi|[Hge Hi]].
    + pose proof (lookup_lt_Some _ _ _ Hi) as Hlt.
      assert (Hok : centry_ok e') by by apply (Forall_lookup_1 _ _ _ _ Rok Hi).
      eapply bytes_at_ext; [|by apply Rent]. intros a Ha. rewrite (Zlength_entry e' Hok) in Ha.
      pose proof (entry_addr_lt (Z.of_nat i) (Zlength objs) ltac:(unfold Zlength; lia)).
      assert (32 <= entry_addr (Z.of_nat i)) by (unfold entry_addr; cat_addr).
      apply Hother; cat_addr.
    + apply list_lookup_singleton_Some in Hi as [Hi <-].
      replace (Z.of_nat i) with (Zlength objs) by (unfold Zlength; lia). done.
  - intros a Ha. rewrite Zlength_app in Ha. change (Zlength [e]) with 1 in Ha.
    rewrite entry_addr_succ in Ha. rewrite Hother by cat_addr. apply Rblank. lia.
Qed.

Lemma add_spec cat objs free flags uuid type :
  catalog_repr cat objs free flags -> all_durable cat ->
  length uuid = 16%nat -> is_u64 type -> Zlength objs < MaxPersistentObjects ->
  exists cat', add cat uuid type = Ok (cat', entry_addr (Zlength objs)) /\
    catalog_repr cat' (objs ++ [CEntry uuid type 0]) free flags /\ all_durable cat' /\
    (forall a, CATALOG_HEADER_SIZE <= a -> pm_load cat' a = pm_load cat a).
Proof.
  intros Hr Hd Hu Ht Hmax. pose proof (Zlength_nonneg objs).
  pose proof (entry_addr_bound (Zlength objs) ltac:(lia)) as [Hlo Hhi].
  destruct (add_entry_spec _ _ _ _ uuid type Hr Hd Hu Ht Hmax) as (cat1 & Hadd & Hlen & Hd1 & Hb & Hother).
  unfold add. rewrite Hadd. cbn [res_bind fst snd]. eexists. split; [done|].
  assert (Hn : get_field cat1 cat_object_count = Zlength objs).
  { rewrite <- (cr_count _ _ _ _ Hr). apply get_field_ext. intros. apply Hother. cat_addr. }
  assert (Hn' : u64 (Zlength objs + 1) = Zlength objs + 1).
  { apply u64_small. unfold MaxPersistentObjects, sizeof_CatalogEntry in Hmax.
    change ((CATALOG_HEADER_SIZE - 32) / 32) with 65535 in Hmax. lia. }
  unfold add_count. rewrite Hn, Hn'.
  assert (Hload : forall a, ~ in_range a cat_object_count 8 ->
    pm_load (pm_persist (set_field cat1 cat_object_count (Zlength objs + 1)) 0 CACHE_LINE_WIDTH) a = pm_load cat1 a).
  { intros a Ha. rewrite pm_persist_load. apply pm_store_other. cat_addr. }
  split; [|split].
  - apply (repr_extend cat); try done.
    + rewrite pm_persist_len. unfold set_field. by rewrite pm_store_len.
    + rewrite rd_persist. apply get_set_field. rewrite <- Hn'. apply u64_range.
    + eapply bytes_at_ext; [|exact Hb]. intros a Ha. apply Hload. cat_addr.
    + intros a Ha1 Ha2. rewrite Hload by done. apply Hother. cat_addr.
  - intros a. destruct (decide (0 <= a < 64)); [by apply pm_persist_range|].
    apply pm_persist_durable, pm_store_durable; [cat_addr|]. apply Hd1.
  - intros a Ha. rewrite Hload, Hother by cat_addr. done.
Qed.

(** Writing the constructor arguments [buffer] of object [i]: the offset of
    free space, the buffer and the offset in the entry. *)
Section AddArgs.
Context (cat : P) (objs : list centry) (free flags : Z) (i : nat) (e : centry) (buffer : list Z).
Hypothesis Hr : catalog_repr cat objs free flags.
Hypothesis Hd : all_durable cat.
Hypothesis Hi : objs !! i = Some e.
Hypothesis Hfit : free + Zlength buffer <= CATALOG_FILE_SIZE.

Let A : Z := entry_addr (Z.of_nat i).
Let c1 : P := pm_persist (set_field cat cat_free_offset (free + Zlength buffer)) 0 CACHE_LINE_WIDTH.
Let c2 : P := pm_drain (pm_memcpy_nodrain c1 free buffer).

Definition args_written : P := pm_persist (set_field c2 (A + ent_args_offset) free) A sizeof_CatalogEntry.

Lemma args_entry_addr : 32 <= A /\ A + 32 <= CATALOG_HEADER_SIZE.
Proof.
  pose proof (lookup_lt_Some _ _ _ Hi). pose proof (cr_max _ _ _ _ Hr) as Rmax.
  apply entry_addr_bound. unfold Zlength in Rmax. lia.
Qed.

(** Bounds that the address arithmetic below needs. *)
Lemma args_bounds :
  CATALOG_HEADER_SIZE <= free /\ 0 <= Zlength buffer /\ CATALOG_HEADER_SIZE <= CATALOG_FILE_SIZE /\
  32 <= A /\ A + 32 <= CATALOG_HEADER_SIZE.
Proof.
  pose proof (cr_range _ _ _ _ Hr). pose proof (Zlength_nonneg buffer). pose proof header_file.
  pose proof args_entry_addr. lia.
Qed.

Lemma args_free_u64 : is_u64 (free + Zlength buffer).
Proof. pose proof args_bounds. unfold is_u64. change CATALOG_HEADER_SIZE with 2097152 in *. change CATALOG_FILE_SIZE with 8388608 in *. lia. Qed.

Lemma args_load a :
  ~ in_range a cat_free_offset 8 -> ~ in_range a free (Zlength buffer) -> ~ in_range a (A + ent_args_offset) 8 ->
  pm_load args_written a = pm_load cat a.
Proof.
  intros H1' H2' H3'. unfold args_written. rewrite pm_persist_load. unfold set_field.
  rewrite pm_store_other by cat_addr. unfold c2. rewrite pm_drain_load, pm_memcpy_other by done.
  unfold c1. rewrite pm_persist_load. unfold set_field. rewrite pm_store_other by cat_addr. done.
Qed.

Lemma args_buffer : bytes_at (pm_load args_written) free buffer.
Proof.
  pose proof args_bounds. eapply bytes_at_ext; [|apply (pm_memcpy_at c1 free buffer)]. intros a Ha.
  unfold args_written. rewrite pm_persist_load. unfold set_field. rewrite pm_store_other by cat_addr.
  unfold c2. by rewrite pm_drain_load.
Qed.

Lemma args_free_field : get_field args_written cat_free_offset = free + Zlength buffer.
Proof.
  pose proof args_bounds. unfold args_written. rewrite rd_persist, get_set_field_ne by cat_addr. unfold c2, get_field.
  rewrite pm_drain_rd64, pm_memcpy_rd64_other by cat_addr. unfold c1. rewrite pm_persist_rd64.
  apply get_set_field, args_free_u64.
Qed.

Lemma args_field f :
  0 <= f -> f + 8 <= 32 -> f + 8 <= cat_free_offset \/ cat_free_offset + 8 <= f ->
  get_field args_written f = get_field cat f.
Proof. intros. pose proof args_bounds. apply get_field_ext. intros a Ha. apply args_load; cat_addr. Qed.

Lemma args_other_entry j e' :
  objs !! j = Some e' -> j <> i -> bytes_at (pm_load args_written) (entry_addr (Z.of_nat j)) (entry_bytes e').
Proof.
  intros Hj Hji. pose proof (lookup_lt_Some _ _ _ Hj) as Hjlt. pose proof (cr_max _ _ _ _ Hr) as Rmax. pose proof args_bounds.
  pose proof (entry_addr_bound (Z.of_nat j) ltac:(unfold Zlength in Rmax; lia)) as [Hjlo Hjhi].
  assert (Hok : centry_ok e') by by apply (Forall_lookup_1 _ _ _ _ (cr_ok _ _ _ _ Hr) Hj).
  eapply bytes_at_ext; [|by apply (cr_entries _ _ _ _ Hr)]. intros a Ha. rewrite (Zlength_entry e' Hok) in Ha.
  assert (entry_addr (Z.of_nat j) + 32 <= A \/ A + 32 <= entry_addr (Z.of_nat j)).
  { destruct (decide (j < i)%nat); [left|right]; apply entry_addr_lt; lia. }
  apply args_load; cat_addr.
Qed.

Lemma args_own_entry : bytes_at (pm_load args_written) A (entry_bytes (CEntry (ce_uuid e) (ce_type e) free)).
Proof.
  pose proof args_bounds. destruct (Forall_lookup_1 _ _ _ _ (cr_ok _ _ _ _ Hr) Hi) as (Heu & _ & _).
  pose proof (cr_entries _ _ _ _ Hr i e Hi) as Hb. fold A in Hb. unfold entry_bytes in *. cbn [ce_uuid ce_type ce_args].
  rewrite app_assoc in Hb |- *. apply bytes_at_app in Hb as [Hb1 Hb2]. apply bytes_at_app.
  assert (Hl24 : Zlength (ce_uuid e ++ le_bytes 8 (ce_type e)) = 24)
    by (rewrite Zlength_app, Zlength_le_bytes; unfold Zlength; lia).
  rewrite Hl24 in *. split.
  - eapply bytes_at_ext; [|exact Hb1]. rewrite Hl24. intros a Ha. apply args_load; cat_addr.
  - eapply bytes_at_ext; [|apply (pm_store_at c2 (A + 24) (le_bytes 8 free))].
    intros a Ha. unfold args_written. rewrite pm_persist_load. done.
Qed.

Lemma args_repr :
  catalog_repr args_written (<[i := CEntry (ce_uuid e) (ce_type e) free]> objs) (free + Zlength buffer) flags.
Proof.
  pose proof Hr as [Rlen Rmagic Rcount Rfree Rflags Rmax Rrange Rok Rent Rblank]. pose proof args_bounds.
  pose proof (lookup_lt_Some _ _ _ Hi) as Hlt. split.
  - unfold args_written, c2, c1, set_field. by rewrite pm_persist_len, pm_store_len, pm_drain_len, pm_memcpy_len,
      pm_persist_len, pm_store_len.
  - rewrite args_field by cat_addr. done.
  - rewrite args_field by cat_addr. unfold Zlength. by rewrite length_insert.
  - apply args_free_field.
  - rewrite args_field by cat_addr. done.
  - unfold Zlength. by rewrite length_insert.
  - lia.
  - destruct (Forall_lookup_1 _ _ _ _ Rok Hi) as (Heu & Het & _). apply Forall_insert; [done|]. split; [done|]. split; [done|].
    change CATALOG_HEADER_SIZE with 2097152 in *. change CATALOG_FILE_SIZE with 8388608 in *. unfold is_u64. simpl. lia.
  - intros j e' Hj. destruct (decide (j = i)) as [->|].
    + rewrite list_lookup_insert_eq in Hj by done. injection Hj as <-. apply args_own_entry.
    + rewrite list_lookup_insert_ne in Hj by done. by apply args_other_entry.
  - intros a Ha. unfold Zlength in Ha. rewrite length_insert in Ha.
    pose proof (entry_addr_lt (Z.of_nat i) (Zlength objs) ltac:(unfold Zlength; lia)) as Hll. fold A in Hll.
    unfold Zlength in Hll. rewrite args_load by cat_addr. apply Rblank. unfold Zlength. lia.
Qed.

Lemma args_durable : all_durable args_written.
Proof.
  intros a. pose proof args_bounds. unfold args_written. destruct (decide (in_range a A 32)); [by apply pm_persist_range|].
  apply pm_persist_durable, pm_store_durable; [cat_addr|]. unfold c2.
  destruct (decide (in_range a free (Zlength buffer))).
  - apply pm_drain_flushed, pm_memcpy_flushed. done.
  - apply pm_drain_durable, pm_memcpy_durable; [done|]. unfold c1.
    destruct (decide (0 <= a < 64)); [by apply pm_persist_range|].
    apply pm_persist_durable, pm_store_durable; [cat_addr|]. apply Hd.
Qed.

End AddArgs.

Lemma args_spec cat s i e buffer :
  cat_inv cat s -> cs_objs s !! i = Some e -> cs_free s + Zlength buffer <= CATALOG_FILE_SIZE ->
  (forall b, (i, b) ∉ cs_args s) ->
  exists cat', addConstructorArgs cat (entry_addr (Z.of_nat i)) buffer = Ok cat' /\
    cat_inv cat' (CState (<[i := CEntry (ce_uuid e) (ce_type e) (cs_free s)]> (cs_objs s))
                   (cs_free s + Zlength buffer) (cs_flags s) (cs_args s ++ [(i, buffer)])).
Proof.
  destruct s as [objs free flags args]. cbn [cs_objs cs_free cs_flags cs_args].
  intros (Hr & Hd & Hargs) Hi Hfit Hnew. cbn [cs_objs cs_free cs_flags cs_args] in *.
  pose proof (args_bounds _ _ _ _ _ _ buffer Hr Hi) as (Hge & Hlb & _ & Hlo & Hhi). pose proof (lookup_lt_Some _ _ _ Hi).
  exists (args_written cat free i buffer). split.
  { unfold addConstructorArgs. rewrite (cr_free _ _ _ _ Hr), u64_small by (by eapply args_free_u64).
    by rewrite (proj2 (Z.leb_le _ _)) by lia. }
  split; [by apply args_repr|]. split; [by eapply args_durable|].
  cbn [cs_objs cs_free cs_args]. intros j b Hjb. apply elem_of_app in Hjb as [Hjb|Hjb].
  - assert (j <> i) by (intros ->; by eapply Hnew).
    destruct (Hargs j b Hjb) as (e' & Hj & Hge' & Hle & Hb). exists e'.
    rewrite list_lookup_insert_ne by done. split; [done|]. split; [done|]. split; [lia|].
    eapply bytes_at_ext; [|exact Hb]. intros a Ha. apply args_load; cat_addr.
  - apply list_elem_of_singleton in Hjb. injection Hjb as -> ->. eexists. split; [by apply list_lookup_insert_eq|].
    cbn [ce_args]. split; [lia|]. split; [lia|]. by eapply args_buffer.
Qed.

Lemma flags_spec cat objs free flags flags' :
  catalog_repr cat objs free flags -> all_durable cat -> is_u64 flags' ->
  catalog_repr (setFlags cat flags') objs free flags' /\ all_durable (setFlags cat flags') /\
  (forall a, 32 <= a -> pm_load (setFlags cat flags') a = pm_load cat a).
Proof.
  intros [Rlen Rmagic Rcount Rfree Rflags Rmax Rrange Rok Rent Rblank] Hd Hu. unfold setFlags.
  assert (Hload : forall a, 32 <= a ->
    pm_load (pm_persist (set_field cat cat_flags flags') 0 CACHE_LINE_WIDTH) a = pm_load cat a).
  { intros a Ha. rewrite pm_persist_load. apply pm_store_other. cat_addr. }
  pose proof (Zlength_nonneg objs) as Hn0.
  assert (Haddr : forall i, 0 <= i -> 32 <= entry_addr i) by (intros; unfold entry_addr; cat_addr).
  split; [|split; [|done]].
  - split; rewrite ?pm_persist_len; try done.
    + unfold set_field. by rewrite pm_store_len.
    + rewrite rd_persist, get_set_field_ne by cat_addr. done.
    + rewrite rd_persist, get_set_field_ne by cat_addr. done.
    + rewrite rd_persist, get_set_field_ne by cat_addr. done.
    + rewrite rd_persist. by apply get_set_field.
    + intros i e Hi. pose proof (Haddr (Z.of_nat i) ltac:(lia)).
      eapply bytes_at_ext; [|by apply Rent]. intros a Ha. apply Hload. lia.
    + intros a Ha. pose proof (Haddr _ Hn0). rewrite Hload by lia. by apply Rblank.
  - intros a. destruct (decide (0 <= a < 64)); [by apply pm_persist_range|].
    apply pm_persist_durable, pm_store_durable; [cat_addr|]. apply Hd.
Qed.

Lemma args_stored_frame cat cat' objs objs' free args :
  (forall a, CATALOG_HEADER_SIZE <= a -> pm_load cat' a = pm_load cat a) ->
  (forall i e, objs !! i = Some e -> objs' !! i = Some e) ->
  args_stored cat objs free args -> args_stored cat' objs' free args.
Proof.
  intros Hl Ho Hargs i b Hib. destruct (Hargs i b Hib) as (e & Hi & Hge & Hle & Hb).
  exists e. split; [by apply Ho|]. split; [done|]. split; [done|].
  eapply bytes_at_ext; [|exact Hb]. intros a Ha. apply Hl. lia.
Qed.

Lemma run_cat_op_refines cat s op s' :
  cat_inv cat s -> spec_cat_op s op s' ->
  exists cat', run_cat_op cat op = Ok cat' /\ cat_inv cat' s'.
Proof.
  intros Hinv Hop. destruct Hop as [objs free flags args uuid type Hu Ht Hmax|objs free flags args i e buffer Hi Hfit Hnew|objs free flags args flags' Hf].
  - destruct Hinv as (Hr & Hd & Ha). cbn [cs_objs cs_free cs_flags cs_args] in *.
    destruct (add_spec _ _ _ _ uuid type Hr Hd Hu Ht Hmax) as (cat' & Hadd & Hr' & Hd' & Hl).
    exists cat'. simpl. rewrite Hadd. split; [done|]. split; [done|]. split; [done|].
    eapply args_stored_frame; [exact Hl| |exact Ha]. intros i e Hi. by apply lookup_app_l_Some.
  - by apply (args_spec cat (CState objs free flags args) i e buffer).
  - destruct Hinv as (Hr & Hd & Ha). cbn [cs_objs cs_free cs_flags cs_args] in *.
    destruct (flags_spec _ _ _ _ flags' Hr Hd Hf) as (Hr' & Hd' & Hl).
    exists (setFlags cat flags'). split; [done|]. split; [done|]. split; [done|].
    eapply args_stored_frame; [|done|exact Ha]. intros a Hge. apply Hl.
    change CATALOG_HEADER_SIZE with 2097152 in Hge. lia.
Qed.

Lemma run_cat_ops_refines cat s ops s' :
  cat_inv cat s -> spec_cat_ops s ops s' ->
  exists cat', run_cat_ops cat ops = Ok cat' /\ cat_inv cat' s'.
Proof.
  intros Hinv Hops. revert cat Hinv. induction Hops as [|s1 op s2 ops s3 Hop _ IH]; intros cat Hinv; [by exists cat|].
  destruct (run_cat_op_refines _ _ _ _ Hinv Hop) as (cat1 & Hrun & Hinv1).
  destruct (IH cat1 Hinv1) as (cat2 & Hrun2 & Hinv2). exists cat2. simpl. rewrite Hrun. done.
Qed.

(** A crash keeps a durable catalog as it is. *)
Lemma cat_inv_crash cat s cat' : cat_inv cat s -> pm_crash cat cat' -> cat_inv cat' s.
Proof.
  intros ([Rlen Rmagic Rcount Rfree Rflags Rmax Rrange Rok Rent Rblank] & Hd & Ha) Hc.
  assert (Hl : forall a, pm_load cat' a = pm_load cat a) by (intros; by eapply pm_crash_durable).
  assert (Hf : forall f, get_field cat' f = get_field cat f) by (intros; apply get_field_ext; auto).
  split; [|split].
  - split; rewrite ?Hf; try done.
    + rewrite (pm_crash_len _ _ Hc). done.
    + intros i e Hi. eapply bytes_at_ext; [|by apply Rent]. auto.
    + intros a Ha'. rewrite Hl. by apply Rblank.
  - intros a. by eapply pm_crash_all_durable.
  - eapply args_stored_frame; [|done|exact Ha]. auto.
Qed.

(** The objects reopening reports. *)
Definition listing (objs : list centry) : list (string * Z) :=
  imap (fun i e => (uuid_unparse (ce_uuid e), entry_addr (Z.of_nat i))) objs.

Lemma list_objects_spec cat objs k :
  (forall i e, objs !! i = Some e ->
     bytes_at (pm_load cat) (entry_addr (Z.of_nat (k + i))) (ce_uuid e) /\ length (ce_uuid e) = 16%nat) ->
  list_objects cat (Z.of_nat k) (length objs) =
    imap (fun i e => (uuid_unparse (ce_uuid e), entry_addr (Z.of_nat (k + i)))) objs.
Proof.
  revert k. induction objs as [|e objs IH]; intros k Hall; [done|]. cbn [length list_objects imap].
  destruct (Hall 0%nat e eq_refl) as [Hb Hl]. rewrite Nat.add_0_r in Hb.
  apply bytes_at_rd in Hb. rewrite Hl in Hb. rewrite Hb. f_equal; [by rewrite Nat.add_0_r|].
  replace (Z.of_nat k + 1) with (Z.of_nat (S k)) by lia. rewrite IH.
  - apply imap_ext. intros i x _. simpl. do 3 f_equal. lia.
  - intros i x Hi. replace (S k + i)%nat with (k + S i)%nat by lia. by apply Hall.
Qed.

(** What opening an existing catalog reads. *)
Record readable cat objs : Prop := {
  rd_len : pm_len cat = CATALOG_FILE_SIZE;
  rd_magic : get_field cat cat_magic = CatalogMagic;
  rd_count : get_field cat cat_object_count = Zlength objs;
  rd_ok : Forall centry_ok objs;
  rd_entries : forall i e, objs !! i = Some e ->
    bytes_at (pm_load cat) (entry_addr (Z.of_nat i)) (entry_bytes e)
}.

Lemma repr_readable cat objs free flags : catalog_repr cat objs free flags -> readable cat objs.
Proof. by intros []. Qed.

Lemma reopen_lists files path cat objs :
  files !! catalog_path path = Some cat -> readable cat objs ->
  NVCatalog files path = Ok (files, listing objs).
Proof.
  intros Hf [Rlen Rmagic Rcount Rok Rent]. unfold NVCatalog. rewrite Hf.
  rewrite Rlen, Z.eqb_refl, Rmagic, Z.eqb_refl, Rcount. unfold Zlength. rewrite Nat2Z.id.
  do 2 f_equal. apply (list_objects_spec cat objs 0). intros i e Hi.
  pose proof (Rent i e Hi) as Hb. unfold entry_bytes in Hb. apply bytes_at_app in Hb as [Hb _].
  split; [done|]. by apply (Forall_lookup_1 _ _ _ _ Rok Hi).
Qed.

(** [C19] The catalog survives power failures: create it, perform any
    sequence of additions of objects, of constructor arguments and of flag
    updates that fits in the file, lose power, and open it again; it
    lists exactly the added objects, in order, keeps the flags, and
    [getArgumentPointer] finds every object's constructor arguments. *)
Theorem catalog_survives_crash files path ops s :
  files !! catalog_path path = None ->
  spec_cat_ops (CState [] CATALOG_HEADER_SIZE 0 []) ops s ->
  exists cat cat1,
    NVCatalog files path = Ok (<[catalog_path path := cat]> files, []) /\
    run_cat_ops cat ops = Ok cat1 /\
    forall cat2, pm_crash cat1 cat2 ->
      NVCatalog (<[catalog_path path := cat2]> files) path
        = Ok (<[catalog_path path := cat2]> files, listing (cs_objs s)) /\
      getFlags cat2 = cs_flags s /\
      forall i b, (i, b) ∈ cs_args s ->
        bytes_at (pm_load cat2) (getArgumentPointer cat2 (entry_addr (Z.of_nat i))) b.
Proof.
  intros Hf Hs. destruct catalog_init_repr as [Hr Hd].
  assert (Hinv : cat_inv (catalog_init (pm_fresh CATALOG_FILE_SIZE)) (CState [] CATALOG_HEADER_SIZE 0 [])).
  { split; [done|]. split; [done|]. intros i b Hib. by apply not_elem_of_nil in Hib. }
  destruct (run_cat_ops_refines _ _ _ _ Hinv Hs) as (cat1 & Hrun & Hinv1).
  exists (catalog_init (pm_fresh CATALOG_FILE_SIZE)), cat1. split; [unfold NVCatalog; by rewrite Hf|].
  split; [done|]. intros cat2 Hc. destruct (cat_inv_crash _ _ _ Hinv1 Hc) as (Hr2 & _ & Ha2).
  split; [|split].
  - eapply reopen_lists; [apply lookup_insert_eq|by eapply repr_readable].
  - apply (cr_flags _ _ _ _ Hr2).
  - intros i b Hib. destruct (Ha2 i b Hib) as (e & Hi & _ & _ & Hb).
    replace (getArgumentPointer cat2 (entry_addr (Z.of_nat i))) with (ce_args e); [done|].
    pose proof (cr_entries _ _ _ _ Hr2 i e Hi) as He.
    destruct (Forall_lookup_1 _ _ _ _ (cr_ok _ _ _ _ Hr2) Hi) as (Hu & _ & Hea).
    unfold entry_bytes in He. rewrite app_assoc in He. apply bytes_at_app in He as [_ He].
    rewrite Zlength_app, Zlength_le_bytes in He. unfold Zlength in He. rewrite Hu in He.
    symmetry. by apply bytes_at_rd64.
Qed.

(** A catalog that differs only in the descriptor after the last one lists
    the same objects. *)
Lemma reopen_unchanged files path cat cat2 objs free flags :
  catalog_repr cat objs free flags -> Zlength objs < MaxPersistentObjects -> pm_len cat2 = pm_len cat ->
  (forall x, ~ in_range x (entry_addr (Zlength objs)) 24 -> pm_load cat2 x = pm_load cat x) ->
  NVCatalog (<[catalog_path path := cat2]> files) path = Ok (<[catalog_path path := cat2]> files, listing objs).
Proof.
  intros Hr Hmax Hlen2 Hall. pose proof (Zlength_nonneg objs).
  pose proof (entry_addr_bound (Zlength objs) ltac:(lia)) as [Hlo Hhi].
  eapply reopen_lists; [apply lookup_insert_eq|].
  assert (Hf : forall f, f + 8 <= 32 -> get_field cat2 f = get_field cat f)
    by (intros; apply get_field_ext; intros; apply Hall; cat_addr).
  destruct Hr as [Rlen Rmagic Rcount _ _ _ _ Rok Rent _].
  split; [by rewrite Hlen2|by rewrite Hf by cat_addr|by rewrite Hf by cat_addr|done|].
  intros i e Hi. eapply bytes_at_ext; [|by apply Rent]. intros x Hx.
  rewrite (Zlength_entry e) in Hx by by apply (Forall_lookup_1 _ _ _ _ Rok Hi).
  pose proof (lookup_lt_Some _ _ _ Hi).
  pose proof (entry_addr_lt (Z.of_nat i) (Zlength objs) ltac:(unfold Zlength; lia)).
  apply Hall. cat_addr.
Qed.

(** A crash between the store of the count and its persist. *)
Lemma crash_at_count files path cat objs free flags uuid type cat1 cat2 :
  catalog_repr cat objs free flags -> all_durable cat ->
  length uuid = 16%nat -> is_u64 type -> Zlength objs < MaxPersistentObjects ->
  add_entry cat uuid type = Ok (cat1, entry_addr (Zlength objs)) ->
  pm_crash (set_field cat1 cat_object_count (Zlength objs + 1)) cat2 ->
  let files' := <[catalog_path path := cat2]> files in
  NVCatalog files' path = Ok (files', listing objs) \/
  NVCatalog files' path = Ok (files', listing (objs ++ [CEntry uuid type 0])).
Proof.
  intros Hr Hd Hu Ht Hmax Hadd Hc files'. pose proof (Zlength_nonneg objs).
  pose proof (entry_addr_bound (Zlength objs) ltac:(lia)) as [Hlo Hhi].
  destruct (add_entry_spec _ _ _ _ uuid type Hr Hd Hu Ht Hmax) as (cat1' & Hadd' & Hlen & Hd1 & Hb & Hother).
  rewrite Hadd in Hadd'. apply Ok_inj in Hadd'. injection Hadd' as <-.
  assert (Hn' : is_u64 (Zlength objs + 1)).
  { unfold MaxPersistentObjects, sizeof_CatalogEntry in Hmax.
    change ((CATALOG_HEADER_SIZE - 32) / 32) with 65535 in Hmax. unfold is_u64. lia. }
  assert (Hkeep : forall x, ~ in_range x cat_object_count 8 -> pm_load cat2 x = pm_load cat1 x).
  { intros x Hx. rewrite (pm_crash_durable _ _ x Hc).
    - apply pm_store_other. cat_addr.
    - apply pm_store_durable; [cat_addr|apply Hd1]. }
  assert (Hlen2 : pm_len cat2 = pm_len cat).
  { rewrite (pm_crash_len _ _ Hc). unfold set_field. by rewrite pm_store_len. }
  apply pm_crash_word in Hc as [Hw|Hw]; [right|left|done|apply length_le_bytes|intros; apply Hd1].
  - eapply reopen_lists; [apply lookup_insert_eq|].
    apply (repr_readable _ _ free flags), (repr_extend cat); try done.
    + by apply bytes_at_rd64.
    + eapply bytes_at_ext; [|exact Hb]. intros x Hx. apply Hkeep. cat_addr.
    + intros x H1' H2'. rewrite Hkeep by done. apply Hother. cat_addr.
  - eapply reopen_unchanged; try done. intros x Hx. destruct (decide (in_range x cat_object_count 8)).
    + rewrite Hw by done. by apply Hother.
    + rewrite Hkeep by done. by apply Hother.
Qed.

(** [C20] Adding an object is failure-atomic.  On a catalog with room for one
    more descriptor, [add] is the five accesses [add_steps]; let the power
    fail after any number [k] of them (while the descriptor is written, while
    it is persisted, before, at or after the count): the catalog then opens
    and lists either the objects before the addition or those after it, and
    those after it if all five accesses were made. *)
Theorem catalog_add_atomic files path cat objs free flags uuid type :
  catalog_repr cat objs free flags -> all_durable cat ->
  length uuid = 16%nat -> is_u64 type -> Zlength objs < MaxPersistentObjects ->
  add cat uuid type = Ok (pm_run cat (add_steps (Zlength objs) uuid type), entry_addr (Zlength objs)) /\
  forall k cat2, pm_crash (pm_run cat (take k (add_steps (Zlength objs) uuid type))) cat2 ->
    let files' := <[catalog_path path := cat2]> files in
    (NVCatalog files' path = Ok (files', listing objs) /\ (k < 5)%nat) \/
    NVCatalog files' path = Ok (files', listing (objs ++ [CEntry uuid type 0])).
Proof.
  intros Hr Hd Hu Ht Hmax. pose proof (Zlength_nonneg objs).
  pose proof (entry_addr_bound (Zlength objs) ltac:(lia)) as [Hlo Hhi]. set (A := entry_addr (Zlength objs)) in *.
  assert (Hul : Zlength uuid = 16) by (unfold Zlength; lia).
  destruct (add_entry_spec _ _ _ _ uuid type Hr Hd Hu Ht Hmax) as (cat1 & Hadd & Hlen & Hd1 & Hb & Hother). fold A in Hadd, Hb, Hother.
  assert (E1 : cat1 = pm_persist (set_field (pm_store cat A uuid) (A + ent_type) type) A sizeof_CatalogEntry).
  { unfold add_entry in Hadd. rewrite (cr_count _ _ _ _ Hr) in Hadd. fold A in Hadd. destruct (_ <=? _); [congruence|done]. }
  assert (Hn : get_field cat1 cat_object_count = Zlength objs).
  { rewrite <- (cr_count _ _ _ _ Hr). apply get_field_ext. intros. apply Hother. cat_addr. }
  assert (Hn' : u64 (Zlength objs + 1) = Zlength objs + 1).
  { apply u64_small. unfold MaxPersistentObjects, sizeof_CatalogEntry in Hmax.
    change ((CATALOG_HEADER_SIZE - 32) / 32) with 65535 in Hmax. lia. }
  assert (Eadd : add cat uuid type = Ok (pm_run cat (add_steps (Zlength objs) uuid type), A)).
  { unfold add. rewrite Hadd. cbn [res_bind fst snd]. unfold add_count. rewrite Hn, Hn'. by rewrite E1. }
  split; [exact Eadd|]. intros k cat2 Hc files'.
  assert (Hbefore : pm_len cat2 = pm_len cat -> (forall x, ~ in_range x A 24 -> pm_load cat2 x = pm_load cat x) ->
    NVCatalog files' path = Ok (files', listing objs)) by (intros; by eapply reopen_unchanged).
  destruct k as [|[|[|[|[|k]]]]]; cbn [take add_steps pm_run foldl pm_do] in Hc; fold A in Hc.
  - left. split; [|lia]. apply Hbefore; [by apply pm_crash_len|]. intros x _. by apply (pm_crash_durable _ _ _ Hc).
  - left. split; [|lia]. apply Hbefore; [by rewrite (pm_crash_len _ _ Hc), pm_store_len|]. intros x Hx.
    rewrite (pm_crash_durable _ _ _ Hc); [apply pm_store_other|apply pm_store_durable; [|apply Hd]]; cat_addr.
  - left. split; [|lia]. apply Hbefore; [by rewrite (pm_crash_len _ _ Hc), !pm_store_len|]. intros x Hx.
    rewrite (pm_crash_durable _ _ _ Hc).
    + rewrite !pm_store_other by cat_addr. done.
    + apply pm_store_durable; [cat_addr|]. apply pm_store_durable; [cat_addr|apply Hd].
  - left. split; [|lia]. fold (set_field (pm_store cat A uuid) (A + ent_type) type) in Hc. rewrite <- E1 in Hc.
    apply Hbefore; [by rewrite (pm_crash_len _ _ Hc)|]. intros x Hx.
    rewrite (pm_crash_durable _ _ _ Hc) by apply Hd1. by apply Hother.
  - fold (set_field (pm_store cat A uuid) (A + ent_type) type) in Hc. rewrite <- E1 in Hc.
    destruct (crash_at_count files path cat objs free flags uuid type cat1 cat2 Hr Hd Hu Ht Hmax Hadd Hc) as [Hl|Hl];
      [left; split; [exact Hl|lia]|right; exact Hl].
  - right. destruct (add_spec cat objs free flags uuid type Hr Hd Hu Ht Hmax) as (cat' & Eadd' & Hr' & Hd' & _).
    assert (Ec : pm_run cat (add_steps (Zlength objs) uuid type) = cat') by congruence. clear Eadd'.
    rewrite take_nil in Hc. unfold pm_run in Ec. cbn [add_steps foldl pm_do] in Ec. fold A in Ec. rewrite Ec in Hc.
    assert (Hload : forall a, pm_load cat2 a = pm_load cat' a) by (intros; apply (pm_crash_durable _ _ _ Hc), Hd').
    eapply reopen_lists; [apply lookup_insert_eq|].
    apply (repr_readable _ _ free flags) in Hr'. destruct Hr' as [Rl Rm Rc Rok Re].
    assert (Hf : forall f, get_field cat2 f = get_field cat' f) by (intros; apply get_field_ext; intros; apply Hload).
    split; rewrite ?Hf; try done; [by rewrite (pm_crash_len _ _ Hc)|].
    intros i e Hi. eapply bytes_at_ext; [|by apply Re]. intros; apply Hload.
Qed.

End Catalog_proofs.

(** ** Concrete instances *)

Definition demo_cat : CacheMem.t := catalog_init (pm_fresh CATALOG_FILE_SIZE).
Definition demo_cat_ops : list cat_op := [CatAdd demo_id 7; CatArgs 0 [5; 6; 7]; CatFlags 1].

Lemma catalog_survives_crash_witness :
  exists cat cat1 : CacheMem.t,
    NVCatalog ∅ CATALOG_FILE_NAME = Ok (<[catalog_path CATALOG_FILE_NAME := cat]> ∅, []) /\
    run_cat_ops cat demo_cat_ops = Ok cat1 /\
    forall cat2, pm_crash cat1 cat2 ->
      NVCatalog (<[catalog_path CATALOG_FILE_NAME := cat2]> ∅) CATALOG_FILE_NAME
        = Ok (<[catalog_path CATALOG_FILE_NAME := cat2]> ∅, listing [CEntry demo_id 7 CATALOG_HEADER_SIZE]) /\
      getFlags cat2 = 1 /\
      forall i b, (i, b) ∈ [(0%nat, [5; 6; 7])] ->
        bytes_at (pm_load cat2) (getArgumentPointer cat2 (entry_addr (Z.of_nat i))) b.
Proof.
  apply (catalog_survives_crash ∅ CATALOG_FILE_NAME demo_cat_ops
           (CState [CEntry demo_id 7 CATALOG_HEADER_SIZE] (CATALOG_HEADER_SIZE + 3) 1 [(0%nat, [5; 6; 7])]));
    [apply lookup_empty|].
  eapply spec_cat_cons; [apply spec_cat_add; [reflexivity|split; by_eval|by_eval]|].
  eapply spec_cat_cons.
  - apply (spec_cat_args [CEntry demo_id 7 0] CATALOG_HEADER_SIZE 0 [] 0 (CEntry demo_id 7 0) [5; 6; 7]);
      [reflexivity|by_eval|intros b; apply not_elem_of_nil].
  - eapply spec_cat_cons; [|apply spec_cat_nil]. apply spec_cat_flags. split; by_eval.
Defined.

Definition demo_cat2 : CacheMem.t := CacheMem.lose_cache (pm_run demo_cat (take 2 (add_steps 0 demo_id 7))).

Lemma catalog_add_atomic_witness :
  let files' := <[catalog_path CATALOG_FILE_NAME := demo_cat2]> ∅ in
  (NVCatalog files' CATALOG_FILE_NAME = Ok (files', listing []) /\ (2 < 5)%nat) \/
  NVCatalog files' CATALOG_FILE_NAME = Ok (files', listing [CEntry demo_id 7 0]).
Proof.
  destruct catalog_init_repr as [Hr Hd].
  apply (catalog_add_atomic ∅ CATALOG_FILE_NAME demo_cat [] CATALOG_HEADER_SIZE 0 demo_id 7);
    [exact Hr|exact Hd|reflexivity|split; by_eval|by_eval|apply CacheMem.lose_cache_crash].
Defined.
