(* ===== verification/Manager.v ===== *)
(** * The object manager (nvm_manager.cpp, nv_factory.cpp, nv_object.cpp)

    [NVManager] owns the catalog and the table of persistent objects,
    recreates the objects of the catalog at start-up and looks for aborted
    nested transactions after an unclean shutdown. *)

From stdpp Require Import base numbers list gmap strings.
From S2P Require Import Prelude Pmem Savitar NvLog Recover Containers Tx TxProofs Catalog.

(** ** PersistentFactory: class identifiers to factories and v-tables *)
Module PersistentFactory.

(** A factory method is what [RecoveryFactory] does with the uuid of a
    catalog entry; it is named here by the class it belongs to. *)
Record t := Factory { factory_map : gmap Z string; vTable_map : gmap Z Z }.

Definition init : t := Factory ∅ ∅.

Definition registerFactory (f : t) (type_id : Z) (method : string) (vTable_ptr : Z) : res t :=
  assert! bool_decide (factory_map f !! type_id = None) in
  Ok (Factory (<[type_id := method]> (factory_map f))
        (match vTable_map f !! type_id with
         | Some _ => vTable_map f
         | None => <[type_id := vTable_ptr]> (vTable_map f)
         end)).

Definition create (f : t) (type_id : Z) : res string :=
  match factory_map f !! type_id with Some m => Ok m | None => AssertFail end.

Definition vTableUpdate (f : t) (type_id : Z) : res Z :=
  match vTable_map f !! type_id with Some v => Ok v | None => AssertFail end.

End PersistentFactory.

(** ** Persistent objects *)

(** The fields of [PersistentObject] the manager reads and writes; [po_log]
    is the path of the mapped log. *)
Record pobject := PObject {
  po_uuid : list Z;
  po_vtable : Z;
  po_assigned : bool;
  po_recovering : bool;
  po_log : option string;
  po_last_played : Z;
  po_args : option (list Z)
}.

Definition set_assigned (o : pobject) (b : bool) : pobject :=
  PObject (po_uuid o) (po_vtable o) b (po_recovering o) (po_log o) (po_last_played o) (po_args o).
Definition set_recovering (o : pobject) (b : bool) : pobject :=
  PObject (po_uuid o) (po_vtable o) (po_assigned o) b (po_log o) (po_last_played o) (po_args o).
Definition set_last_played (o : pobject) (n : Z) : pobject :=
  PObject (po_uuid o) (po_vtable o) (po_assigned o) (po_recovering o) (po_log o) n (po_args o).

Section Manager.
Context {P : Type} `{PmemOps P} `{Uuid}.

(** The manager, the files of the persistent memory, the allocators of
    [GlobalAlloc] by textual uuid, the registry of classes. *)
Record world := World {
  files : gmap string P;
  objects : gmap string pobject;
  allocators : gset string;
  factory : PersistentFactory.t;
  program_threads : gmap Z Z
}.

Definition with_files (w : world) (f : gmap string P) : world :=
  World f (objects w) (allocators w) (factory w) (program_threads w).
Definition with_objects (w : world) (o : gmap string pobject) : world :=
  World (files w) o (allocators w) (factory w) (program_threads w).

(** [PersistentObject::constructor]: the allocator must exist; the log is
    opened if there is one, created otherwise. *)
Definition PersistentObject_constructor (w : world) (id : list Z) (vtable last : Z) (args : option (list Z))
  : res (world * pobject) :=
  assert! bool_decide (uuid_unparse id ∈ allocators w) in
  let* there := Savitar_log_exists (files w) id in
  let* r := (if (there : bool) then Savitar_log_open (files w) id
             else Savitar_log_create (files w) id LOG_SIZE) in
  Ok (with_files w (fst r), PObject id vtable false false (snd r) last args).

(** [BaseFactory] of the persistent classes: a new allocator, then the
    object itself; [last] is the uninitialised [last_played_commit_id]. *)
Definition BaseFactory (w : world) (id : list Z) (vtable last : Z) (args : option (list Z))
  : res (world * pobject) :=
  let w := World (files w) (objects w) ({[uuid_unparse id]} ∪ allocators w) (factory w) (program_threads w) in
  PersistentObject_constructor w id vtable last args.

(** [findRecovered]: [None] is NULL. *)
Definition findRecovered (w : world) (uuid : list Z) : res (world * option pobject) :=
  match objects w !! uuid_unparse uuid with
  | None => Ok (w, None)
  | Some o =>
      assert! negb (po_assigned o) in
      let o := set_assigned o true in
      Ok (with_objects w (<[uuid_unparse uuid := o]> (objects w)), Some o)
  end.

(** [createNew]: the catalog first, then the table ([map::insert] keeps an
    existing binding). *)
Definition createNew (w : world) (type_id : Z) (o : pobject) : res world :=
  match files w !! catalog_path CATALOG_FILE_NAME with
  | None => Segfault
  | Some cat =>
      let* r := add cat (po_uuid o) type_id in
      let* cat := match po_args o with
                  | None => Ok (fst r)
                  | Some buffer => addConstructorArgs (fst r) (snd r) buffer
                  end in
      let key := uuid_unparse (po_uuid o) in
      let o := set_assigned o true in
      let objs := match objects w !! key with Some _ => objects w | None => <[key := o]> (objects w) end in
      Ok (with_objects (with_files w (<[catalog_path CATALOG_FILE_NAME := cat]> (files w))) objs)
  end.

Definition destroy (w : world) (key : string) : res world :=
  match objects w !! key with
  | None => Segfault
  | Some o =>
      assert! po_assigned o in
      Ok (with_objects w (<[key := set_assigned o false]> (objects w)))
  end.

Definition findObject (w : world) (uuid_str : string) : option pobject := objects w !! uuid_str.

Definition registerThread (w : world) (thread cfg : Z) : world :=
  World (files w) (objects w) (allocators w) (factory w) (<[thread := cfg]> (program_threads w)).
Definition unregisterThread (w : world) (thread : Z) : world :=
  World (files w) (objects w) (allocators w) (factory w) (delete thread (program_threads w)).

(** [Factory] of the persistent classes: find or create. *)
Definition Factory (w : world) (type_id vtable : Z) (id : list Z) (last : Z) : res (world * pobject) :=
  let* r := findRecovered w id in
  match snd r with
  | Some o => Ok (fst r, o)
  | None =>
      let* s := BaseFactory (fst r) id vtable last None in
      let* w := createNew (fst s) type_id (snd s) in
      Ok (w, set_assigned (snd s) true)
  end.

(** [recoverObject]: an object that came with a snapshot is repaired in
    place, any other one is created by its class's factory.  [entry] is the
    address of the catalog entry. *)
Definition recoverObject (w : world) (uuid_str : string) (entry : Z) (last : Z) : res world :=
  match files w !! catalog_path CATALOG_FILE_NAME with
  | None => Segfault
  | Some cat =>
      let type := get_field cat (entry + ent_type) in
      let uuid := rd_bytes (pm_load cat) entry 16 in
      match objects w !! uuid_str with
      | Some o =>
          let* vt := PersistentFactory.vTableUpdate (factory w) type in
          let* r := Savitar_log_open (files w) (po_uuid o) in
          let o := PObject (po_uuid o) vt false true (snd r) (po_last_played o) (po_args o) in
          Ok (with_objects (with_files w (fst r)) (<[uuid_str := o]> (objects w)))
      | None =>
          let* _ := PersistentFactory.create (factory w) type in
          let* vt := PersistentFactory.vTableUpdate (factory w) type in
          let* r := BaseFactory w uuid vt last None in
          let o := set_last_played (set_recovering (snd r) true) 0 in
          Ok (with_objects (fst r) (<[uuid_str := o]> (objects (fst r))))
      end
  end.

Fixpoint recoverObjects (w : world) (ex_objects : list (string * Z)) (last : Z) : res world :=
  match ex_objects with
  | [] => Ok w
  | (uuid_str, entry) :: ex => let* w := recoverObject w uuid_str entry last in recoverObjects w ex last
  end.

(** ** Looking for aborted nested transactions *)

(** [(object, log_offset, commit_id)], outer-most call first. *)
Definition AbortChainNode : Type := string * Z * Z.

(** [play_dry o tag ptr rd len]: the dry run of [Play] of object [o]. *)
Variable play_dry : string -> Z -> Z -> (Z -> Z) -> Z -> res Z.

(** The heap of [buildAbortChains], least element first. *)
Fixpoint heap_push (c : Z) (q : list Z) : list Z :=
  match q with
  | [] => [c]
  | x :: q' => if c <? x then c :: q else x :: heap_push c q'
  end.

(** [top()] of a heap that [pop()] has just emptied is undefined; it gets the
    number popped last (in libstdc++ it returns that number, which is still in
    the storage of the heap). *)
Variable empty_top : Z -> Z.

(** [while (min_heap.top() == max_committed_tx + 1)]: the source does not
    test for an empty heap, and would [pop()] from it. *)
Fixpoint heap_drain (q : list Z) (max_committed_tx : Z) : res (list Z * Z) :=
  match q with
  | x :: q' => if x =? u64 (max_committed_tx + 1) then heap_drain q' x else Ok (q, max_committed_tx)
  | [] => if empty_top max_committed_tx =? u64 (max_committed_tx + 1) then Segfault else Ok ([], max_committed_tx)
  end.

(** The inner loop: follow the parents of a nested entry up to the
    outer-most call.  Returns the chain if that call never committed. *)
Fixpoint follow_chain (fuel : nat) (logs : gmap string P) (parent : string) (parent_offset : Z)
    (chain : list AbortChainNode) : res (option (list AbortChainNode)) :=
  match fuel with
  | O => NoFuel
  | S fuel =>
      match logs !! parent with
      | None => AssertFail
      | Some parent_log =>
          let* parent_commit_id := ld64 parent_log parent_offset in
          let* parent_magic := ld64 parent_log (parent_offset + 8) in
          assert! parent_magic =? REDO_LOG_MAGIC in
          let* parent_method_tag := ld64 parent_log (parent_offset + 16) in
          let chain := (parent, parent_offset, parent_commit_id) :: chain in
          if negb (is_nested parent_method_tag) then
            if parent_commit_id =? 0 then Ok (Some chain) else Ok None
          else
            let* uuid := ld_uuid parent_log (parent_offset + 24) in
            follow_chain fuel logs (uuid_unparse uuid) (nested_offset parent_method_tag) chain
      end
  end.

(** One log: the abort chains found and the highest gap-free commit. *)
Fixpoint abort_loop (fuel chain_fuel : nat) (logs : gmap string P) (object : string) (log : P)
    (offset : Z) (min_heap : list Z) (max_committed_tx : Z) : res (list (list AbortChainNode) * Z) :=
  if offset <? get_field log off_tail then
    match fuel with
    | O => NoFuel
    | S fuel =>
        assert! offset mod CACHE_LINE_WIDTH =? 0 in
        let start := offset in
        let* commit_id := ld64 log offset in
        let* magic := ld64 log (offset + 8) in
        let* method_tag := ld64 log (offset + 16) in
        let offset := offset + 24 in
        if negb (magic =? REDO_LOG_MAGIC) then
          abort_loop fuel chain_fuel logs object log (offset + (CACHE_LINE_WIDTH - 24)) min_heap max_committed_tx
        else
          let* (min_heap, max_committed_tx) :=
            (if negb (commit_id =? 0) then heap_drain (heap_push commit_id min_heap) max_committed_tx
             else Ok (min_heap, max_committed_tx)) in
          if negb (is_nested method_tag) then
            assert! negb (method_tag =? 0) in
            let* n := play_dry object method_tag offset (pm_load log) (pm_len log) in
            let offset := offset + n in
            abort_loop fuel chain_fuel logs object log
              (offset + (CACHE_LINE_WIDTH - offset mod CACHE_LINE_WIDTH)) min_heap max_committed_tx
          else if commit_id =? 0 then
            abort_loop fuel chain_fuel logs object log (offset + (CACHE_LINE_WIDTH - 24)) min_heap max_committed_tx
          else
            let* uuid := ld_uuid log offset in
            let* c := follow_chain chain_fuel logs (uuid_unparse uuid) (nested_offset method_tag)
                        [(object, start, commit_id)] in
            let* r := abort_loop fuel chain_fuel logs object log (offset + (CACHE_LINE_WIDTH - 24))
                        min_heap max_committed_tx in
            match c with
            | Some chain => Ok (chain :: fst r, snd r)
            | None => Ok r
            end
    end
  else Ok ([], max_committed_tx).

(** Iterations: one per cache line of the log; parents: one per cache line
    of all the logs, more only if the parents form a cycle. *)
Definition total_lines (logs : gmap string P) : nat :=
  map_fold (fun _ log n => (Z.to_nat (pm_len log / CACHE_LINE_WIDTH) + n)%nat) 2%nat logs.

Definition buildAbortChains (logs : gmap string P) (object : string)
  : res (list (list AbortChainNode) * Z) :=
  match logs !! object with
  | None => Segfault
  | Some log =>
      abort_loop (scan_fuel log) (total_lines logs) logs object log (get_field log off_head) [] 0
  end.

(** Aborted nested transactions are found, and refused. *)
Fixpoint emulate_loop (logs : gmap string P) (objs : list string) : res unit :=
  match objs with
  | [] => Ok tt
  | o :: objs =>
      let* r := buildAbortChains logs o in
      assert! bool_decide (fst r = []) in
      emulate_loop logs objs
  end.

Definition emulateRecoveryAndFixRedoLogs (logs : gmap string P) : res unit :=
  emulate_loop logs (map_to_list logs).*1.

End Manager.

(** ** The class registry *)

Lemma register_spec f type_id method vt f' :
  PersistentFactory.registerFactory f type_id method vt = Ok f' ->
  PersistentFactory.create f' type_id = Ok method.
Proof.
  unfold PersistentFactory.registerFactory, PersistentFactory.create. intros Hr. res_inv Hr.
  apply Ok_inj in Hr as <-. simpl. by rewrite lookup_insert_eq.
Qed.

(** The ordered map and the unordered map cannot both be registered:
    they use the same class identifier, and the second registration fails
    its assertion whatever else is registered. *)
Theorem class_id_collision f f' vt1 vt2 :
  PersistentFactory.registerFactory f PersistentOrderedMap.classID "PersistentOrderedMap" vt1 = Ok f' ->
  PersistentFactory.registerFactory f' PersistentMap.classID "PersistentMap" vt2 = AssertFail.
Proof.
  intros Hr. apply register_spec in Hr. unfold PersistentFactory.registerFactory.
  change PersistentMap.classID with PersistentOrderedMap.classID.
  unfold PersistentFactory.create in Hr. rewrite bool_decide_eq_false_2; [done|].
  intros E. by rewrite E in Hr.
Qed.

Lemma class_id_collision_witness :
  PersistentFactory.registerFactory
    (PersistentFactory.Factory {[2 := "PersistentOrderedMap"]} {[2 := 11]})
    PersistentMap.classID "PersistentMap" 12 = AssertFail.
Proof.
  apply (class_id_collision PersistentFactory.init
           (PersistentFactory.Factory {[2 := "PersistentOrderedMap"]} {[2 := 11]}) 11 12).
  by vm_compute.
Defined.

(** ** Ownership of objects *)

Section Manager_proofs.
Context {P : Type} `{PmemLaws P} `{UuidLaws}.
Implicit Types (w : @world P) (cat : P).

Lemma log_path_not_catalog id path : Savitar_log_path id = Ok path -> path <> catalog_path CATALOG_FILE_NAME.
Proof.
  unfold Savitar_log_path. intros Hp. res_inv Hp. apply Ok_inj in Hp as <-.
  unfold catalog_path, PMEM_PATH, CATALOG_FILE_NAME. generalize (uuid_unparse id) as s. intros s E.
  cbn [String.append] in E. repeat (injection E as E).
  do 11 (destruct s as [|? s]; [discriminate E|cbn [String.append] in E; injection E as _ E]).
  destruct s; discriminate E.
Qed.

Lemma log_exists_inv files id b :
  Savitar_log_exists (P := P) files id = Ok b ->
  exists path, Savitar_log_path id = Ok path /\ b = bool_decide (is_Some (files !! path)).
Proof.
  unfold Savitar_log_exists. intros Hb. res_inv Hb. apply Ok_inj in Hb as <-. eauto.
Qed.

(** A log file that [Savitar_log_open] accepts. *)
Definition log_valid (log : P) : Prop :=
  get_field log off_size = pm_len log /\ get_field log off_checksum = CHECKSUM log.

Lemma log_valid_lock log v : log_valid log -> log_valid (set_field log off_snapshot_lock v).
Proof.
  intros [Hs Hc]. split.
  - unfold set_field. rewrite pm_store_len, <- Hs.
    apply get_set_field_ne. unfold off_size, off_snapshot_lock. lia.
  - unfold CHECKSUM in *. rewrite !get_set_field_ne
      by (unfold off_checksum, off_snapshot_lock; lia). done.
Qed.

(** The files in which a start-up can open or create every log. *)
Definition files_ok (fs : gmap string P) : Prop :=
  forall id path log, Savitar_log_path id = Ok path -> fs !! path = Some log -> log_valid log.

Lemma files_ok_insert fs id path log :
  files_ok fs -> Savitar_log_path id = Ok path -> log_valid log -> files_ok (<[path := log]> fs).
Proof.
  intros Hf Hp Hl id' path' log' Hp' Hlog'. destruct (decide (path = path')) as [<-|].
  - rewrite lookup_insert_eq in Hlog'. by injection Hlog' as <-.
  - rewrite lookup_insert_ne in Hlog' by done. by eapply Hf.
Qed.

(** Opening or creating the log of an object. *)
Lemma constructor_spec w id vtable last args :
  uuid_unparse id ∈ allocators w -> uuid_is_null id = false -> length id = 16%nat -> Forall is_byte id ->
  files_ok (files w) ->
  exists w' path, PersistentObject_constructor w id vtable last args
      = Ok (w', PObject id vtable false false (Some path) last args) /\
    Savitar_log_path id = Ok path /\ is_Some (files w' !! path) /\ files_ok (files w') /\
    (forall p, p <> path -> files w' !! p = files w !! p) /\
    objects w' = objects w /\ factory w' = factory w /\ allocators w' = allocators w.
Proof.
  intros Ha Hn Hl Hb Hf. unfold PersistentObject_constructor. rewrite bool_decide_eq_true_2 by done.
  destruct (Savitar_log_path id) as [path| | |] eqn:Hpath;
    try (unfold Savitar_log_path in Hpath; by rewrite Hn in Hpath).
  unfold Savitar_log_exists. rewrite Hpath. cbn [res_bind].
  destruct (files w !! path) as [log|] eqn:Hlog.
  - rewrite bool_decide_eq_true_2 by done. destruct (Hf id path log Hpath Hlog) as [Hs Hc].
    unfold Savitar_log_open. rewrite Hpath. cbn [res_bind]. rewrite Hlog, Hs, Z.eqb_refl, Hc, Z.eqb_refl.
    cbn [res_bind fst snd]. eexists _, path. split; [done|]. split; [done|]. simpl.
    split; [by rewrite lookup_insert_eq|].
    split; [eapply files_ok_insert; [done|done|]; by apply log_valid_lock|].
    split; [|done]. intros p Hp. by rewrite lookup_insert_ne.
  - rewrite bool_decide_eq_false_2 by (intros [? ?]; congruence).
    unfold Savitar_log_create. rewrite Hpath. cbn [res_bind]. rewrite Hlog, pm_fresh_len, Z.eqb_refl.
    cbn [res_bind fst snd]. eexists _, path. split; [done|]. split; [done|]. simpl.
    split; [by rewrite lookup_insert_eq|]. split; [|split; [|done]].
    + eapply files_ok_insert; [done|done|].
      destruct (log_init_fields id LOG_SIZE (pm_fresh LOG_SIZE)) as (E1 & _ & _ & _ & E5 & E6);
        [done|done|by vm_compute|apply pm_fresh_len|]. split; [by rewrite E6|done].
    + intros p Hp. by rewrite lookup_insert_ne.
Qed.

(** After [Factory] the object is in the table and in use; asking for the same
    uuid again fails the assertion of [findRecovered]. *)
Lemma factory_claims w type_id vtable id last w1 o :
  Factory w type_id vtable id last = Ok (w1, o) ->
  (exists o', objects w1 !! uuid_unparse id = Some o' /\ po_assigned o' = true /\
     po_uuid o' = po_uuid o /\ po_log o' = po_log o) /\
  forall type_id' vtable' last', Factory w1 type_id' vtable' id last' = AssertFail.
Proof.
  intros Hf.
  assert (Hkey : exists o', objects w1 !! uuid_unparse id = Some o' /\ po_assigned o' = true /\
            po_uuid o' = po_uuid o /\ po_log o' = po_log o).
  { unfold Factory, findRecovered in Hf. destruct (objects w !! uuid_unparse id) as [o0|] eqn:E0.
    - destruct (negb (po_assigned o0)); [|done]. cbn [res_bind fst snd] in Hf.
      apply Ok_inj in Hf. injection Hf as <- <-. simpl. rewrite lookup_insert_eq. by eexists.
    - cbn [res_bind fst snd] in Hf. res_inv Hf. destruct r as [wb ob]. res_inv Hf.
      apply Ok_inj in Hf. injection Hf as -> <-. cbn [fst snd] in *.
      unfold BaseFactory, PersistentObject_constructor in Hr.
      res_inv Hr. res_inv Hr. res_inv Hr. apply Ok_inj in Hr. injection Hr as <- <-.
      unfold createNew in Hr0. simpl in Hr0.
      match type of Hr0 with match ?x with _ => _ end = _ => destruct x; [|done] end.
      res_inv Hr0. apply Ok_inj in Hr0 as <-. simpl.
      rewrite E0, lookup_insert_eq. by eexists. }
  split; [done|]. destruct Hkey as (o' & Ho & Hass & _). intros. unfold Factory, findRecovered. by rewrite Ho, Hass.
Qed.

(** An object of the table that is not in use is handed out as it is. *)
Lemma factory_reclaims w key type_id vtable id last o :
  key = uuid_unparse id -> objects w !! key = Some o -> po_assigned o = false ->
  Factory w type_id vtable id last = Ok (with_objects w (<[key := set_assigned o true]> (objects w)), set_assigned o true).
Proof. intros -> Ho Ha. unfold Factory, findRecovered. by rewrite Ho, Ha. Qed.

(** ** Start-up: every catalogued object comes back *)

(** The classes of all catalogued objects are registered. *)
Definition registered (f : PersistentFactory.t) (type : Z) : Prop :=
  is_Some (PersistentFactory.factory_map f !! type) /\ is_Some (PersistentFactory.vTable_map f !! type).

Definition recovered (w : @world P) (e : centry) : Prop :=
  exists o path, objects w !! uuid_unparse (ce_uuid e) = Some o /\
    po_uuid o = ce_uuid e /\ po_recovering o = true /\ po_assigned o = false /\ po_last_played o = 0 /\
    po_log o = Some path /\ Savitar_log_path (ce_uuid e) = Ok path /\ is_Some (files w !! path).

Definition object_ok (f : PersistentFactory.t) (e : centry) : Prop :=
  registered f (ce_type e) /\ uuid_is_null (ce_uuid e) = false /\ Forall is_byte (ce_uuid e).

Lemma recoverObject_spec w cat e addr last :
  files w !! catalog_path CATALOG_FILE_NAME = Some cat ->
  bytes_at (pm_load cat) addr (entry_bytes e) -> centry_ok e -> object_ok (factory w) e ->
  files_ok (files w) -> objects w !! uuid_unparse (ce_uuid e) = None ->
  exists w', recoverObject w (uuid_unparse (ce_uuid e)) addr last = Ok w' /\
    recovered w' e /\ files_ok (files w') /\ factory w' = factory w /\
    files w' !! catalog_path CATALOG_FILE_NAME = Some cat /\
    (forall key, key <> uuid_unparse (ce_uuid e) -> objects w' !! key = objects w !! key) /\
    (forall p, is_Some (files w !! p) -> is_Some (files w' !! p)).
Proof.
  intros Hcat Hb (Hu & Ht & Ha) ((Hm & Hv) & Hnull & Hbytes) Hfs Hnone. unfold recoverObject. rewrite Hcat.
  unfold entry_bytes in Hb. apply bytes_at_app in Hb as [Hb1 Hb2]. apply bytes_at_app in Hb2 as [Hb2 _].
  replace (addr + Zlength (ce_uuid e)) with (addr + ent_type) in Hb2
    by (unfold Zlength, ent_type; rewrite Hu; done).
  apply bytes_at_rd64 in Hb2; [|done]. unfold get_field. rewrite Hb2.
  apply bytes_at_rd in Hb1. rewrite Hu in Hb1. rewrite Hb1, Hnone.
  unfold PersistentFactory.create, PersistentFactory.vTableUpdate.
  destruct Hm as [m ->], Hv as [vt ->]. cbn [res_bind]. unfold BaseFactory.
  set (w1 := World _ _ _ _ _).
  destruct (constructor_spec w1 (ce_uuid e) vt last None) as (w' & path & -> & Hpath & Hsome & Hfs' & Hother & Hobj & Hfac & _);
    [unfold w1; simpl; set_solver|done|done|done|done|].
  cbn [res_bind fst snd]. eexists. split; [done|]. split.
  { eexists _, path. simpl. rewrite lookup_insert_eq. split; [done|]. done. }
  simpl. split; [done|]. split; [done|].
  assert (Hne : catalog_path CATALOG_FILE_NAME <> path) by (intros E; by apply log_path_not_catalog in Hpath).
  split; [by rewrite Hother|]. split.
  - intros key Hkey. rewrite lookup_insert_ne by done. by rewrite Hobj.
  - intros p Hp. destruct (decide (p = path)) as [->|]; [done|]. by rewrite Hother.
Qed.

Lemma recoverObjects_spec cat objs k w last :
  files w !! catalog_path CATALOG_FILE_NAME = Some cat ->
  (forall i e, objs !! i = Some e -> bytes_at (pm_load cat) (entry_addr (Z.of_nat (k + i))) (entry_bytes e)) ->
  Forall centry_ok objs -> Forall (object_ok (factory w)) objs -> NoDup (ce_uuid <$> objs) ->
  files_ok (files w) -> (forall e, e ∈ objs -> objects w !! uuid_unparse (ce_uuid e) = None) ->
  exists w', recoverObjects w (imap (fun i e => (uuid_unparse (ce_uuid e), entry_addr (Z.of_nat (k + i)))) objs) last
      = Ok w' /\
    Forall (recovered w') objs /\
    (forall e, centry_ok e -> Forall is_byte (ce_uuid e) -> ce_uuid e ∉ (ce_uuid <$> objs) ->
       recovered w e -> recovered w' e).
Proof.
  revert k w. induction objs as [|e objs IH]; intros k w Hcat Hent Hok Hobj Hnd Hfs Hnone.
  - exists w. split; [done|]. split; [constructor|done].
  - inversion Hok as [|? ? He Hok']; inversion Hobj as [|? ? Ho Hobj']; subst.
    rewrite fmap_cons in Hnd. apply NoDup_cons in Hnd as [Hnin Hnd].
    destruct Ho as (Hreg & Hnull & Hby).
    assert (Huniq : forall e', e' ∈ objs -> uuid_unparse (ce_uuid e') <> uuid_unparse (ce_uuid e)).
    { intros e' He' E. apply Hnin. destruct He as [Hl _]. rewrite Forall_forall in Hok', Hobj'.
      destruct (Hok' e' He') as [Hl' _], (Hobj' e' He') as (_ & _ & Hby').
      rewrite <- (uuid_unparse_inj _ _ Hl' Hl Hby' Hby E). by apply list_elem_of_fmap_2. }
    destruct (recoverObject_spec w cat e (entry_addr (Z.of_nat (k + 0))) last Hcat) as
      (w1 & Hrun & Hrec & Hfs1 & Hfac1 & Hcat1 & Hobj1 & Hgrow); try done.
    { by apply (Hent 0%nat). } { apply Hnone. left. }
    destruct (IH (S k) w1) as (w2 & Hrun2 & Hall & Hkeep); try done.
    { intros i e' Hi. replace (S k + i)%nat with (k + S i)%nat by lia. by apply Hent. }
    { by rewrite Hfac1. }
    { intros e' He'. rewrite Hobj1; [apply Hnone; by right|]. by apply Huniq. }
    exists w2. split.
    + cbn [imap recoverObjects]. rewrite Hrun. cbn [res_bind]. rewrite <- Hrun2. f_equal.
      apply imap_ext. intros i x _. simpl. do 3 f_equal. lia.
    + split; [constructor; [|done]|].
      * apply Hkeep; done.
      * intros e' He' Hby' Hnot (o & path & Ho1 & Ho2). rewrite fmap_cons, not_elem_of_cons in Hnot.
        destruct Hnot as [Hne Hnot]. apply Hkeep; [done|done|done|]. exists o, path.
        rewrite Hobj1 by (intros E; destruct He' as [Hl' _], He as [Hl _]; by apply Hne, uuid_unparse_inj).
        split; [done|]. destruct Ho2 as (? & ? & ? & ? & ? & ? & ?). do 6 (split; [done|]). by apply Hgrow.
Qed.

(** Start-up recreates the catalogue: with an empty table of objects
    and all classes registered, the manager recreates every object the
    catalog lists, with its log open (or created), marked as recovering,
    free to be claimed, and with no commit played yet. *)
Theorem startup_recovers_catalog w cat objs last :
  files w !! catalog_path CATALOG_FILE_NAME = Some cat -> readable cat objs ->
  objects w = ∅ -> Forall (object_ok (factory w)) objs -> NoDup (ce_uuid <$> objs) -> files_ok (files w) ->
  exists w', recoverObjects w (listing objs) last = Ok w' /\ Forall (recovered w') objs.
Proof.
  intros Hcat [_ _ _ Hok Hent] Hempty Hobj Hnd Hfs.
  destruct (recoverObjects_spec cat objs 0 w last) as (w' & Hrun & Hall & _); try done.
  - intros e _. rewrite Hempty. apply lookup_empty.
  - by exists w'.
Qed.

End Manager_proofs.

(** ** Detection of aborted nested transactions *)

Section Abort_proofs.
Context {P : Type} `{PmemLaws P} `{Uuid}.
Variable play_dry : string -> Z -> Z -> (Z -> Z) -> Z -> res Z.
Variable empty_top : Z -> Z.
Implicit Types (log : P) (logs : gmap string P) (view : gmap string (list entry)).

(** The entry at an offset of the log of an object. *)
Definition entry_of view (o : string) (off : Z) : option entry :=
  view !! o ≫= fun es => lookup_off sizeof_RedoLog es off.

Definition parent_of (e : entry) : string := uuid_unparse (take 16 (entry_args e)).

(** [root view o off r n]: the outer-most ancestor of the entry at
    [(o, off)] is [r], [n] entries up, itself included. *)
Inductive root view : string -> Z -> entry -> nat -> Prop :=
| root_here o off e :
    entry_of view o off = Some e -> is_nested (entry_tag e) = false -> root view o off e 1
| root_up o off e r n :
    entry_of view o off = Some e -> is_nested (entry_tag e) = true ->
    root view (parent_of e) (nested_offset (entry_tag e)) r n -> root view o off r (S n).

(** Entries the scan can read, as in [entry_ok] of Recover.v. *)
Record aentry_ok (o : string) log (off : Z) (e : entry) : Prop := {
  ao_tag : (8 <= length (e_body e))%nat;
  ao_commit : is_u64 (e_commit e);
  ao_args : if is_nested (entry_tag e) then Zlength (entry_args e) = 16
            else entry_tag e <> 0 /\
                 play_dry o (entry_tag e) (off + 24) (pm_load log) (pm_len log) = Ok (Zlength (entry_args e))
}.

Fixpoint aentries_ok (o : string) log (off : Z) (es : list entry) : Prop :=
  match es with
  | [] => True
  | e :: es => aentry_ok o log off e /\ aentries_ok o log (off + esize e) es
  end.

(** The logs in memory and their entries. *)
Definition views logs view : Prop :=
  forall o log, logs !! o = Some log -> exists es, view !! o = Some es /\ log_image log es /\
    aentries_ok o log sizeof_RedoLog es.

Lemma entry_words log off e es :
  entries_at (pm_load log) off (e :: es) -> (8 <= length (e_body e))%nat -> is_u64 (e_commit e) ->
  0 <= off -> off + esize e <= pm_len log ->
  ld64 log off = Ok (e_commit e) /\ ld64 log (off + 8) = Ok REDO_LOG_MAGIC /\
  ld64 log (off + 16) = Ok (entry_tag e) /\
  (Zlength (entry_args e) = 16 -> ld_uuid log (off + 24) = Ok (take 16 (entry_args e))).
Proof.
  intros (Hc & Hm & Hb & _) Htag Hcom Hoff Hlen. pose proof (esize_spec e) as [_ Hsz].
  pose proof (Zlength_body _ Htag) as Hbody. pose proof (Zlength_nonneg (entry_args e)).
  apply bytes_at_rd64 in Hc; [|done]. apply bytes_at_rd64 in Hm; [|done].
  rewrite <- (take_drop 8 (e_body e)) in Hb. apply bytes_at_app in Hb as [Hb1 Hb2].
  assert (Hl8 : Zlength (take 8 (e_body e)) = 8) by (unfold Zlength; rewrite length_take; lia).
  rewrite Hl8 in Hb2. fold (entry_args e) in Hb2. replace (off + 16 + 8) with (off + 24) in Hb2 by lia.
  apply bytes_at_rd in Hb1. rewrite length_take, Nat.min_l in Hb1 by lia.
  rewrite !ld64_ok by lia. rewrite Hc, Hm.
  split; [done|]. split; [done|]. split; [unfold rd64; by rewrite Hb1|].
  intros H16. unfold ld_uuid. rewrite (proj2 (Z.leb_le _ _)), (proj2 (Z.leb_le _ _)) by lia. cbn [andb]. f_equal.
  apply bytes_at_rd in Hb2. unfold Zlength in H16. replace (length (entry_args e)) with 16%nat in Hb2 by lia.
  rewrite Hb2. symmetry. apply take_ge. lia.
Qed.

Lemma lookup_off_split start es off e :
  lookup_off start es off = Some e ->
  exists es1 es2, es = es1 ++ e :: es2 /\ off = start + total es1.
Proof.
  intros Hl. destruct (lookup_off_index _ _ _ _ Hl) as (i & Hi & -> & _).
  exists (take i es), (drop (S i) es). split; [|done]. by rewrite take_drop_middle.
Qed.

Lemma aentries_ok_app o log off es1 es2 :
  aentries_ok o log off (es1 ++ es2) -> aentries_ok o log (off + total es1) es2.
Proof.
  revert off. induction es1 as [|e es1 IH]; intros off; cbn [app aentries_ok].
  - change (total []) with 0. by rewrite Z.add_0_r.
  - intros [_ Hok]. change (total (e :: es1)) with (esize e + total es1). rewrite Z.add_assoc. by apply IH.
Qed.

(** An entry found by offset is in memory at that offset. *)
Lemma entry_of_words logs view o off e :
  views logs view -> is_Some (logs !! o) -> entry_of view o off = Some e ->
  exists log, logs !! o = Some log /\ aentry_ok o log off e /\
    ld64 log off = Ok (e_commit e) /\ ld64 log (off + 8) = Ok REDO_LOG_MAGIC /\
    ld64 log (off + 16) = Ok (entry_tag e) /\
    (Zlength (entry_args e) = 16 -> ld_uuid log (off + 24) = Ok (take 16 (entry_args e))).
Proof.
  intros Hv [log Hlog] He. destruct (Hv o log Hlog) as (es & Hes & [_ _ Hfits Hent] & Hok).
  unfold entry_of in He. rewrite Hes in He. simpl in He.
  destruct (lookup_off_split _ _ _ _ He) as (es1 & es2 & -> & ->).
  apply entries_at_app in Hent as [_ Hent]. pose proof (aentries_ok_app _ _ _ _ _ Hok) as [Hok' _].
  rewrite total_app in Hfits. change (total (e :: es2)) with (esize e + total es2) in Hfits.
  pose proof (total_nonneg es1). pose proof (total_nonneg es2).
  exists log. split; [done|]. split; [done|]. destruct Hok' as [Ht Hc _].
  eapply entry_words; try done; unfold sizeof_RedoLog in *; lia.
Qed.

Lemma follow_chain_spec fuel logs view o off r n chain :
  views logs view -> dom view = dom logs -> root view o off r n -> (n <= fuel)%nat ->
  exists chain', follow_chain fuel logs o off chain
    = Ok (if e_commit r =? 0 then Some chain' else None).
Proof.
  intros Hv Hdom Hroot. revert fuel chain.
  assert (Hin : forall o off e, entry_of view o off = Some e -> is_Some (logs !! o)).
  { intros o' off' e He. apply elem_of_dom. rewrite <- Hdom. apply elem_of_dom.
    unfold entry_of in He. destruct (view !! o'); [done|discriminate He]. }
  induction Hroot as [o off e He Hn|o off e r n He Hn Hroot IH]; intros fuel chain Hf;
    (destruct fuel as [|fuel]; [lia|]);
    destruct (entry_of_words _ _ _ _ _ Hv (Hin _ _ _ He) He) as (log & Hlog & Hok & H1' & H2' & H3' & H4');
    cbn [follow_chain]; rewrite Hlog, H1', H2', H3'; cbn [res_bind]; rewrite Z.eqb_refl, Hn; cbn [negb].
  - destruct (e_commit e =? 0); by eexists.
  - destruct Hok as [_ _ Hargs]. rewrite Hn in Hargs. rewrite H4' by done. cbn [res_bind].
    apply IH. lia.
Qed.

(** A committed nested entry whose outer-most ancestor did not commit. *)
Definition partial view (e : entry) : Prop :=
  is_nested (entry_tag e) = true /\ e_commit e <> 0 /\
  exists r n, root view (parent_of e) (nested_offset (entry_tag e)) r n /\ e_commit r = 0.

(** Every committed nested entry has an outer-most ancestor within reach. *)
Definition rooted logs view (e : entry) : Prop :=
  is_nested (entry_tag e) = true -> e_commit e <> 0 ->
  exists r n, root view (parent_of e) (nested_offset (entry_tag e)) r n /\ (n <= total_lines logs)%nat.

Lemma root_unique view o off r1 n1 r2 n2 : root view o off r1 n1 -> root view o off r2 n2 -> r1 = r2.
Proof.
  intros Hr1. revert r2 n2. induction Hr1 as [o off e He Hn|o off e r n He Hn Hr1 IH]; intros r2 n2 Hr2;
    inversion Hr2 as [? ? e2 He2 Hn2|? ? e2 ? ? He2 Hn2 Hr2']; subst;
    rewrite He in He2; injection He2 as <-; try congruence. by eapply IH.
Qed.

Lemma esize_nested e :
  (8 <= length (e_body e))%nat -> Zlength (entry_args e) = 16 -> esize e = 64.
Proof.
  intros Hl Ha. unfold esize, align_up, CACHE_LINE_WIDTH. rewrite (Zlength_body _ Hl), Ha. done.
Qed.

(** Where the scan finds the next entry. *)
Lemma aligned_next off e : off mod 64 = 0 -> (off + esize e) mod 64 = 0.
Proof.
  intros Hal. pose proof (esize_spec e) as [Hmod _]. rewrite Z.add_mod, Hal by lia.
  change CACHE_LINE_WIDTH with 64 in Hmod. by rewrite Hmod.
Qed.

Lemma line_next off e :
  off mod 64 = 0 -> (8 <= length (e_body e))%nat ->
  off + 24 + Zlength (entry_args e) + (64 - (off + 24 + Zlength (entry_args e)) mod 64)
    = off + esize e + (if ends_on_line e then 64 else 0).
Proof.
  intros Hal Ht. replace ((off + 24 + Zlength (entry_args e)) mod 64) with ((24 + Zlength (entry_args e)) mod 64) by dlia.
  unfold ends_on_line, esize, align_up, CACHE_LINE_WIDTH. rewrite (Zlength_body _ Ht).
  destruct (Z.eqb_spec ((24 + Zlength (entry_args e)) mod 64) 0); cbn [negb]; lia.
Qed.

(** The heap only ever matters for the number it computes. *)
Lemma heap_drain_ok q mx :
  (forall x, empty_top x <> u64 (x + 1)) -> exists q' mx', heap_drain empty_top q mx = Ok (q', mx').
Proof.
  intros He. revert mx. induction q as [|x q IH]; intros mx; cbn [heap_drain].
  - rewrite (proj2 (Z.eqb_neq _ _) (He mx)). eauto.
  - destruct (_ =? _); eauto.
Qed.

Lemma padded_cons e es : padded_but_last (e :: es) -> (es = [] \/ ends_on_line e = false) /\ padded_but_last es.
Proof.
  unfold padded_but_last. destruct es as [|e2 es]; intros Hp; [split; [by left|constructor]|].
  change (removelast (e :: e2 :: es)) with (e :: removelast (e2 :: es)) in Hp.
  apply Forall_cons in Hp as [He Hp]. split; [by right|done].
Qed.

(** The scan of one log finds a chain exactly if one of its entries is
    partially committed. *)
Lemma abort_loop_spec logs view o log es fuel off heap mx :
  views logs view -> dom view = dom logs -> (forall x, empty_top x <> u64 (x + 1)) -> padded_but_last es ->
  (length es <= fuel)%nat -> 0 <= off -> off mod 64 = 0 -> off + total es <= pm_len log ->
  get_field log off_tail = off + total es -> entries_at (pm_load log) off es -> aentries_ok o log off es ->
  Forall (rooted logs view) es ->
  exists chains mx', abort_loop play_dry empty_top fuel (total_lines logs) logs o log off heap mx = Ok (chains, mx') /\
    (chains <> [] <-> Exists (partial view) es).
Proof.
  intros Hv Hdom Htop. revert fuel off heap mx.
  induction es as [|e es IH]; intros fuel off heap mx Hpad Hf Hoff Hal Hlen Htail Hent Hok Hroot.
  - destruct fuel; cbn [abort_loop]; rewrite (proj2 (Z.ltb_ge _ _)) by (rewrite Htail; simpl; lia);
      (eexists _, mx; split; [done|]; split; [done|]; intros Hex; by inversion Hex).
  - destruct fuel as [|fuel]; [simpl in Hf; lia|]. pose proof (esize_ge e). pose proof (total_nonneg es).
    change (total (e :: es)) with (esize e + total es) in *. destruct Hok as [He Hok].
    inversion Hroot as [|? ? Hre Hroot']; subst. destruct He as [Ht Hc Ha].
    destruct (padded_cons _ _ Hpad) as [Hpad1 Hpad2].
    destruct (entry_words log off e es Hent Ht Hc) as (W1 & W2 & W3 & W4); [done|lia|].
    destruct Hent as (_ & _ & _ & Hent).
    pose proof (aligned_next off e Hal) as Hal'.
    assert (Hnext : forall heap mx, exists chains mx',
      abort_loop play_dry empty_top fuel (total_lines logs) logs o log (off + esize e) heap mx = Ok (chains, mx') /\
      (chains <> [] <-> Exists (partial view) es)).
    { intros. apply IH; try done; [simpl in Hf; lia|lia|lia|by rewrite <- Z.add_assoc]. }
    cbn [abort_loop]. rewrite (proj2 (Z.ltb_lt _ _)) by lia. change CACHE_LINE_WIDTH with 64.
    rewrite Hal. cbn [Z.eqb]. rewrite W1, W2, W3. cbn [res_bind]. rewrite Z.eqb_refl. cbn [negb].
    assert (Hhm : exists heap' mx', (if negb (e_commit e =? 0) then heap_drain empty_top (heap_push (e_commit e) heap) mx
      else Ok (heap, mx)) = Ok (heap', mx')) by (destruct (negb _); [by apply heap_drain_ok|eauto]).
    destruct Hhm as (heap' & mx' & ->). cbn [res_bind].
    destruct (is_nested (entry_tag e)) eqn:Hn; cbn [negb].
    + pose proof (esize_nested e Ht Ha) as Hsz. rewrite Hsz in Hnext.
      replace (off + 24 + (64 - 24)) with (off + 64) by lia.
      destruct (Z.eqb_spec (e_commit e) 0) as [Hz|Hz].
      * destruct (Hnext heap' mx') as (chains & mx'' & -> & Hiff). exists chains, mx''. split; [done|].
        rewrite Hiff, Exists_cons. split; [by right|]. intros [(_ & ? & _)|?]; done.
      * rewrite W4 by done. cbn [res_bind].
        destruct (Hre Hn Hz) as (r & n & Hr & Hle).
        destruct (follow_chain_spec (total_lines logs) logs view _ _ r n [(o, off, e_commit e)] Hv Hdom Hr Hle)
          as (chain' & Hfc). change (uuid_unparse (take 16 (entry_args e))) with (parent_of e). rewrite Hfc.
        cbn [res_bind].
        destruct (Hnext heap' mx') as (chains & mx'' & -> & Hiff). cbn [res_bind fst snd].
        destruct (Z.eqb_spec (e_commit r) 0) as [Hrz|Hrz].
        -- eexists _, mx''. split; [done|]. rewrite Exists_cons. split; [|done]. intros _. left.
           split; [done|]. split; [done|]. by exists r, n.
        -- exists chains, mx''. split; [done|]. rewrite Hiff, Exists_cons. split; [by right|].
           intros [(_ & _ & r' & n' & Hr' & Hrz')|?]; [|done].
           destruct Hrz. rewrite <- Hrz'. f_equal. by eapply root_unique.
    + destruct Ha as [Htz Hdry]. rewrite (proj2 (Z.eqb_neq _ _) Htz). cbn [negb].
      rewrite Hdry. cbn [res_bind].
      rewrite (line_next off e Hal Ht). destruct (ends_on_line e) eqn:Eline.
      * destruct Hpad1 as [->|]; [|congruence]. exists [], mx'. change (total []) with 0 in Htail.
        split; [destruct fuel; cbn [abort_loop]; rewrite (proj2 (Z.ltb_ge _ _)) by (rewrite Htail; lia); done|].
        rewrite Exists_cons, Exists_nil. split; [done|]. intros [(? & _)|[]]. congruence.
      * rewrite Z.add_0_r. destruct (Hnext heap' mx') as (chains & mx'' & -> & Hiff). exists chains, mx''. split; [done|].
        rewrite Hiff, Exists_cons. split; [by right|]. intros [(? & _)|?]; [congruence|done].
Qed.

Lemma buildAbortChains_spec logs view o log es :
  views logs view -> dom view = dom logs -> (forall x, empty_top x <> u64 (x + 1)) ->
  logs !! o = Some log -> view !! o = Some es -> padded_but_last es ->
  Forall (rooted logs view) es ->
  exists chains mx, buildAbortChains play_dry empty_top logs o = Ok (chains, mx) /\
    (chains <> [] <-> Exists (partial view) es).
Proof.
  intros Hv Hdom Htop Hlog Hes Hpad Hroot. destruct (Hv o log Hlog) as (es' & Hes' & [Hh Ht Hf He] & Hok).
  rewrite Hes in Hes'. injection Hes' as <-. unfold buildAbortChains. rewrite Hlog, Hh.
  apply (abort_loop_spec logs view); try done.
  pose proof (length_total es). unfold scan_fuel, CACHE_LINE_WIDTH, sizeof_RedoLog in *. dlia.
Qed.

Lemma emulate_loop_spec logs view objs :
  views logs view -> dom view = dom logs -> (forall x, empty_top x <> u64 (x + 1)) ->
  (forall o es, view !! o = Some es -> padded_but_last es) ->
  (forall o es, view !! o = Some es -> Forall (rooted logs view) es) ->
  (forall o, o ∈ objs -> is_Some (logs !! o)) ->
  let bad := Exists (fun o => exists es, view !! o = Some es /\ Exists (partial view) es) objs in
  (bad /\ emulate_loop play_dry empty_top logs objs = AssertFail) \/ (~ bad /\ emulate_loop play_dry empty_top logs objs = Ok tt).
Proof.
  intros Hv Hdom Htop Hpad Hroot. induction objs as [|o objs IH]; intros Hin; cbn [emulate_loop].
  - right. split; [|done]. intros Hex. by inversion Hex.
  - destruct (Hin o ltac:(left)) as [log Hlog]. destruct (Hv o log Hlog) as (es & Hes & _).
    destruct (buildAbortChains_spec logs view o log es Hv Hdom Htop Hlog Hes (Hpad o es Hes) (Hroot o es Hes)) as (chains & mx & -> & Hiff).
    cbn [res_bind fst]. specialize (IH ltac:(intros; apply Hin; by right)). rewrite Exists_cons.
    case_bool_decide as Hc.
    + assert (Hno : ~ (exists es0, view !! o = Some es0 /\ Exists (partial view) es0)).
      { intros (es0 & Hes0 & Hex). rewrite Hes in Hes0. injection Hes0 as <-. by apply Hiff in Hex. }
      destruct IH as [[? ?]|[? ?]]; [left; by split; [right|]|right]. split; [|done]. tauto.
    + left. split; [|done]. left. exists es. split; [done|]. by apply Hiff.
Qed.

(** Without nested entries there is nothing to detect. *)
Lemma emulate_plain logs view :
  views logs view -> dom view = dom logs -> (forall x, empty_top x <> u64 (x + 1)) ->
  (forall o es, view !! o = Some es -> padded_but_last es) ->
  (forall o es e, view !! o = Some es -> e ∈ es -> is_nested (entry_tag e) = false) ->
  emulateRecoveryAndFixRedoLogs play_dry empty_top logs = Ok tt.
Proof.
  intros Hv Hdom Htop Hpad Hplain. unfold emulateRecoveryAndFixRedoLogs.
  destruct (emulate_loop_spec logs view (map_to_list logs).*1 Hv Hdom Htop Hpad) as [[Hbad _]|[_ E]]; [| | |exact E].
  - intros o es Hes. apply Forall_forall. intros e He Hn. by rewrite (Hplain o es e Hes He) in Hn.
  - intros o ([o' log] & -> & Hl)%list_elem_of_fmap. apply elem_of_map_to_list in Hl. by eexists.
  - exfalso. apply Exists_exists in Hbad as (o & _ & es & Hes & (e & He & Hn & _)%Exists_exists).
    by rewrite (Hplain o es e Hes He) in Hn.
Qed.

(** [C22] Detection of partially committed nested transactions after an
    unclean shutdown.  Let every object's log be well-formed and readable
    ([views]), every entry but the last of each log be followed by padding,
    and every committed nested entry have a chain of parents that ends at an
    outer-most call ([rooted]: no missing parent and no cycle of parents);
    and let [top()] of an emptied heap, which the scan reads, not return the
    number after the one popped last.  Then the manager goes on exactly if no
    committed nested entry has an outer-most call that never committed, and
    stops with a failed assertion exactly if there is one. *)
Theorem abort_detection_exact logs view :
  views logs view -> dom view = dom logs ->
  (forall o es, view !! o = Some es -> padded_but_last es) ->
  (forall o es, view !! o = Some es -> Forall (rooted logs view) es) ->
  (forall x, empty_top x <> u64 (x + 1)) ->
  (emulateRecoveryAndFixRedoLogs play_dry empty_top logs = Ok tt <->
     forall o es e, view !! o = Some es -> e ∈ es -> ~ partial view e) /\
  (emulateRecoveryAndFixRedoLogs play_dry empty_top logs = AssertFail <->
     exists o es e, view !! o = Some es /\ e ∈ es /\ partial view e).
Proof.
  intros Hv Hdom Hpad Hroot Htop. unfold emulateRecoveryAndFixRedoLogs.
  assert (Hkeys : forall o, o ∈ (map_to_list logs).*1 <-> is_Some (logs !! o)).
  { intros o. rewrite <- elem_of_dom.
    rewrite list_elem_of_fmap. split.
    - intros ([o' log] & -> & Hl). apply elem_of_map_to_list in Hl. by apply elem_of_dom.
    - intros [log Hl]%elem_of_dom. exists (o, log). split; [done|]. by apply elem_of_map_to_list. }
  pose proof (emulate_loop_spec logs view (map_to_list logs).*1 Hv Hdom Htop Hpad Hroot
                ltac:(intros; by apply Hkeys)) as Hspec.
  set (bad := Exists _ _) in Hspec.
  assert (Hbad : bad <-> exists o es e, view !! o = Some es /\ e ∈ es /\ partial view e).
  { unfold bad. rewrite Exists_exists. split.
    - intros (o & _ & es & Hes & (e & He & Hp)%Exists_exists). by exists o, es, e.
    - intros (o & es & e & Hes & He & Hp). exists o. split.
      + apply Hkeys, elem_of_dom. rewrite <- Hdom. apply elem_of_dom. eauto.
      + exists es. split; [done|]. apply Exists_exists. eauto. }
  destruct Hspec as [[Hb ->]|[Hb ->]]; rewrite Hbad in Hb.
  - split; [split; [done|]|done]. intros Hno. destruct Hb as (o & es & e & ? & ? & ?). by destruct (Hno o es e).
  - split; [split; [|done]|split; [done|by intros ?%Hb]]. intros _ o es e ? ? ?. apply Hb. eauto 10.
Qed.

End Abort_proofs.

(** ** Concrete instances *)

Definition demo_world : @world CacheMem.t :=
  World {[catalog_path CATALOG_FILE_NAME := demo_cat]} ∅ ∅ PersistentFactory.init ∅.
Definition demo_object : pobject :=
  PObject demo_id 77 true false (Some (String.append PMEM_PATH (String.append (HexUuid.unparse demo_id) ".log"))) 0 None.
Definition demo_world1 : @world CacheMem.t := fst (res_get (demo_world, demo_object) (Factory demo_world 1 77 demo_id 0)).

Definition demo_cat_added : CacheMem.t := fst (res_get (demo_cat, 0) (add demo_cat demo_id 7)).
Definition demo_world2 : @world CacheMem.t :=
  World {[catalog_path CATALOG_FILE_NAME := demo_cat_added]} ∅ ∅
    (PersistentFactory.Factory {[7 := "PersistentVector"]} {[7 := 4096]}) ∅.

Lemma demo_cat_readable : readable demo_cat_added [CEntry demo_id 7 0].
Proof.
  destruct (@catalog_init_repr CacheMem.t _ _) as [Hr Hd].
  destruct (add_spec demo_cat [] CATALOG_HEADER_SIZE 0 demo_id 7 Hr Hd) as (cat' & Hadd & Hr' & _);
    [reflexivity|split; by_eval|by_eval|].
  apply (repr_readable _ _ CATALOG_HEADER_SIZE 0).
  apply (res_get_Ok (demo_cat, 0) _ (fun r => catalog_repr (fst r) [CEntry demo_id 7 0] CATALOG_HEADER_SIZE 0)).
  exact (ex_intro _ _ (conj Hadd Hr')).
Qed.

Lemma startup_recovers_catalog_witness :
  exists w', recoverObjects demo_world2 (listing [CEntry demo_id 7 0]) 0 = Ok w' /\
    Forall (recovered w') [CEntry demo_id 7 0].
Proof.
  apply (startup_recovers_catalog demo_world2 demo_cat_added [CEntry demo_id 7 0] 0);
    [reflexivity|apply demo_cat_readable|reflexivity| | |].
  - apply Forall_cons; split; [|apply Forall_nil; exact I].
    split; [split; by eexists|]. split; [reflexivity|apply demo_id_bytes].
  - apply NoDup_singleton.
  - intros id path log Hp Hl. destruct (log_path_not_catalog id path Hp).
    unfold demo_world2 in Hl. cbn [files] in Hl.
    apply lookup_singleton_Some in Hl as [<- _]. reflexivity.
Defined.

(** A call on object 7 calls object 9; both calls are logged, the inner one
    commits, and the power fails before the outer one does. *)
Definition partial_moves : list move := nested_moves ++ [MWorker AReturn].
Definition crashed_log (o : Z) (tr : list (Z * log_op)) : CacheMem.t :=
  CacheMem.lose_cache (res_get demo_log (run_ops demo_log (ops_of o tr))).
Definition crashed_logs (tr : list (Z * log_op)) : gmap string CacheMem.t :=
  <[uuid_unparse (demo_uuid 7) := crashed_log 7 tr]>
    {[uuid_unparse (demo_uuid 9) := crashed_log 9 tr]}.
Definition demo_dry (o : string) (tag ptr : Z) (rd : Z -> Z) (len : Z) : res Z := Ok 0.

(** A power failure between the commits of an inner and of its outer
    call leaves logs the system cannot start from: the manager finds the
    aborted chain and stops with a failed assertion (the comments describe a
    repair of the logs that is not implemented). *)
Theorem partial_commit_refused :
  exists tr s, run demo_call_log demo_uuid 1024 (System (Shared ∅ ∅) [thread_create]) tr s /\
    emulateRecoveryAndFixRedoLogs demo_dry id (crashed_logs tr) = AssertFail.
Proof.
  destruct (play_trace demo_call_log demo_uuid 1024 partial_moves (Shared ∅ ∅) thread_create)
    as [[[sh t] tr]| | |] eqn:E; [|by vm_compute in E..].
  exists tr, (System sh [t]). split.
  - eapply play_trace_run; [|exact E]. unfold partial_moves, nested_moves, demo_call. simpl. moves_ok.
  - vm_compute in E. apply Ok_inj in E. injection E as _ _ <-. by vm_compute.
Qed.

(** An outer call on the object [demo_id], logged but not committed, and the
    nested call it made on a second object, logged and committed. *)
Definition inner_name : string := "inner".
Definition inner_v : list (list Z) := [le_bytes 8 (nested_tag 64); demo_id].
Definition inner_entries : list entry := [Entry 1 (le_bytes 8 (nested_tag 64) ++ demo_id)].
Definition inner_log : CacheMem.t := res_get demo_log (run_ops demo_log [OpAppend inner_v; OpCommit 64]).
Definition nested_logs : gmap string CacheMem.t :=
  <[uuid_unparse demo_id := demo_appended]> {[inner_name := inner_log]}.
Definition nested_view : gmap string (list entry) :=
  <[uuid_unparse demo_id := demo_pending]> {[inner_name := inner_entries]}.
Definition nested_dry (o : string) (tag ptr : Z) (rd : Z -> Z) (len : Z) : res Z := Ok 3.

Lemma inner_log_repr : log_repr inner_log inner_entries 1.
Proof.
  assert (Hs : spec_ops (pm_len demo_log) ([], 0) [OpAppend inner_v; OpCommit 64] (inner_entries, 1)).
  { eapply spec_cons.
    - apply (spec_append _ [] 0 inner_v); [done|by_eval].
    - eapply spec_cons; [|apply spec_nil].
      apply (spec_commit _ [Entry 0 (le_bytes 8 (nested_tag 64) ++ demo_id)] 0 0); [done|by_eval]. }
  destruct (run_ops_refines _ _ _ _ _ _ demo_log_repr demo_log_durable Hs) as (p & Hp & Hr & _).
  apply (res_get_Ok demo_log _ (fun q => log_repr q inner_entries 1)). exact (ex_intro _ p (conj Hp Hr)).
Qed.

Lemma log_repr_image (p : CacheMem.t) es n : log_repr p es n -> log_image p es.
Proof. intros []. by constructor. Qed.

Lemma nested_views : views nested_dry nested_logs nested_view.
Proof.
  intros o log Hl. unfold nested_logs in Hl. unfold nested_view.
  apply lookup_insert_Some in Hl as [[<- <-]|[Hne Hl]].
  - exists demo_pending. rewrite lookup_insert_eq. split; [done|].
    split; [apply (log_repr_image _ _ 0), demo_appended_facts|].
    split; [|exact I]. constructor; [apply Nat.leb_le; by vm_compute|split; by_eval|].
    split; by_eval.
  - apply lookup_singleton_Some in Hl as [<- <-]. exists inner_entries.
    rewrite lookup_insert_ne by done. rewrite lookup_singleton_eq. split; [done|].
    split; [apply (log_repr_image _ _ 1), inner_log_repr|].
    split; [|exact I]. constructor; [apply Nat.leb_le; by vm_compute|split; by_eval|]. by_eval.
Qed.

Lemma nested_root :
  root nested_view (uuid_unparse demo_id) 64 (Entry 0 (le_bytes 8 1 ++ [104; 105; 0])) 1.
Proof. apply root_here; by vm_compute. Qed.

Lemma abort_detection_exact_witness :
  emulateRecoveryAndFixRedoLogs nested_dry id nested_logs = AssertFail.
Proof.
  apply (abort_detection_exact nested_dry id nested_logs nested_view nested_views).
  - unfold nested_view, nested_logs. by rewrite !dom_insert_L, !dom_singleton_L.
  - intros o es Hes. unfold nested_view in Hes. apply lookup_insert_Some in Hes as [[<- <-]|[_ Hes]]; [constructor|].
    apply lookup_singleton_Some in Hes as [<- <-]. constructor.
  - intros o es Hes. unfold nested_view in Hes. apply lookup_insert_Some in Hes as [[<- <-]|[_ Hes]].
    + apply Forall_singleton. intros Hn. vm_compute in Hn. discriminate Hn.
    + apply lookup_singleton_Some in Hes as [<- <-]. apply Forall_singleton. intros _ _.
      exists (Entry 0 (le_bytes 8 1 ++ [104; 105; 0])), 1%nat. split; [exact nested_root|].
      apply Nat.leb_le; by vm_compute.
  - intros x E. unfold id, u64 in E. dlia.
  - exists inner_name, inner_entries, (Entry 1 (le_bytes 8 (nested_tag 64) ++ demo_id)).
    split; [by vm_compute|]. split; [apply list_elem_of_singleton; reflexivity|].
    split; [by vm_compute|]. split; [discriminate|].
    exists (Entry 0 (le_bytes 8 1 ++ [104; 105; 0])), 1%nat. split; [exact nested_root|reflexivity].
Defined.
