(* ===== verification/Bitmap.v ===== *)
(** * The allocation bitmap (class GlobalAlloc of ckpt_alloc.cpp)

    One bit for each 4 KB page of the heap, in 64-bit cells.  The bitmap
    tells a snapshot which pages to save.  This file models the routines that
    set, clear, save and load it and proves that they touch exactly the pages
    of their range. *)

From stdpp Require Import base numbers list gmap.
From S2P Require Import Prelude.

Definition MaxMemorySize : Z := 2 ^ 40.
Definition BitmapGranularity : Z := 2 ^ 12.
Definition BaseAddress : Z := 0x10000000000.
Definition MinPoolSize : Z := 268435456.
Definition BlockSize : Z := 2 ^ 21.

(** [bitmapSize], in bytes, and the number of cells. *)
Definition bitmapSize : Z := Z.shiftr (MaxMemorySize / BitmapGranularity) 3.
Definition bitmap_cells : Z := bitmapSize / 8.

(** [alloc_bitmap]: the cells that were ever written; the others are 0. *)
Notation bitmap := (gmap Z Z).
Definition cell (bm : bitmap) (i : Z) : Z := default 0 (bm !! i).

(** A write past the end of the array leaves the [malloc]ed region. *)
Definition set_cell (bm : bitmap) (i v : Z) : res bitmap :=
  if (0 <=? i) && (i <? bitmap_cells) then Ok (<[i := v]> bm) else Segfault.

(** [ptr & ~(size - 1)] for a power of two. *)
Definition mask_down (ptr size : Z) : Z := Z.land ptr (UINT64_MAX - (size - 1)).

Definition page_offset (aligned_ptr : Z) : Z := Z.shiftr (u64 (aligned_ptr - BaseAddress)) 12.
Definition page_bit_mask (page : Z) : Z :=
  let cell_index := Z.land page 0x3F in
  if 0 <? cell_index then u64 (Z.shiftl 1 cell_index) else 1.

Definition setPage (bm : bitmap) (aligned_ptr : Z) : res bitmap :=
  let page := page_offset aligned_ptr in
  set_cell bm (Z.shiftr page 6) (Z.lor (cell bm (Z.shiftr page 6)) (page_bit_mask page)).

Definition unsetPage (bm : bitmap) (aligned_ptr : Z) : res bitmap :=
  let page := page_offset aligned_ptr in
  set_cell bm (Z.shiftr page 6)
    (Z.land (cell bm (Z.shiftr page 6)) (UINT64_MAX - page_bit_mask page)).

(** [while (aligned_ptr < limit)]: the body [f] on each page. *)
Fixpoint page_loop (f : bitmap -> Z -> res bitmap) (fuel : nat) (bm : bitmap) (aligned_ptr limit : Z)
    : res bitmap :=
  if aligned_ptr <? limit then
    match fuel with
    | O => NoFuel
    | S fuel =>
        let* bm := f bm aligned_ptr in
        page_loop f fuel bm (u64 (aligned_ptr + BitmapGranularity)) limit
    end
  else Ok bm.

Definition page_fuel (size : Z) : nat := Z.to_nat (size / BitmapGranularity + 2).

Definition setBitmap (bm : bitmap) (ptr size : Z) : res bitmap :=
  page_loop setPage (page_fuel size) bm (mask_down ptr BitmapGranularity) (u64 (ptr + size)).

Definition unsetBitmap (bm : bitmap) (ptr size : Z) : res bitmap :=
  page_loop unsetPage (page_fuel size) bm (mask_down ptr BitmapGranularity) (u64 (ptr + size)).

Definition stepSize : Z := Z.shiftl BitmapGranularity 6.

(** [while (ptr + stepSize <= limit)] *)
Fixpoint big_loop (fuel : nat) (bm : bitmap) (ptr offset limit : Z) : res (bitmap * Z) :=
  if ptr + stepSize <=? limit then
    match fuel with
    | O => NoFuel
    | S fuel =>
        let* bm := set_cell bm offset UINT64_MAX in
        big_loop fuel bm (ptr + stepSize) (offset + 1) limit
    end
  else Ok (bm, ptr).

Definition setBitmapForBigAlloc (bm : bitmap) (ptr size : Z) : res bitmap :=
  assert! mask_down ptr BlockSize =? ptr in
  let limit := ptr + size in
  let* (bm, ptr) := big_loop (Z.to_nat (size / stepSize + 1)) bm ptr
                      (Z.shiftr (u64 (ptr - BaseAddress)) 18) limit in
  if ptr <? limit then setBitmap bm ptr (limit - ptr) else Ok bm.

(** [for (i = 0; i < bitmapCells; i++) alloc_bitmap[offset + i] = 0] *)
Fixpoint clear_cells (n : nat) (bm : bitmap) (offset : Z) : res bitmap :=
  match n with
  | O => Ok bm
  | S n =>
      let* bm := set_cell bm offset 0 in
      clear_cells n bm (offset + 1)
  end.

Definition unsetBitmapForBigDealloc (bm : bitmap) (ptr blocks : Z) : res bitmap :=
  assert! mask_down ptr BlockSize =? ptr in
  clear_cells (Z.to_nat (Z.shiftl blocks 3)) bm (Z.shiftr (u64 (ptr - BaseAddress)) 18).

(** ** Saving and loading

    The snapshot is a memory of 64-bit words by byte offset. *)
Notation words := (gmap Z Z).
Definition wget (w : words) (a : Z) : Z := default 0 (w !! a).
Definition wset (w : words) (a v : Z) : words := <[a := v]> w.

(** Sixteen [_mm_loadu_si128] and sixteen [_mm_stream_si128]: 32 words. *)
Fixpoint stream_words (n : nat) (bm : bitmap) (src : Z) (nvm : words) (dst : Z) : words :=
  match n with
  | O => nvm
  | S n => stream_words n bm (src + 1) (wset nvm dst (cell bm src)) (dst + 8)
  end.

Fixpoint save_loop (fuel : nat) (bm : bitmap) (src limit : Z) (nvm : words) (dst : Z) : res words :=
  if src <? limit then
    match fuel with
    | O => NoFuel
    | S fuel => save_loop fuel bm (src + 32) limit (stream_words 32 bm src nvm dst) (dst + 256)
    end
  else Ok nvm.

Definition saveBitmap (bm : bitmap) (nvm : words) (ptr : Z) : res words :=
  save_loop (Z.to_nat (bitmap_cells / 32)) bm 0 bitmap_cells nvm ptr.

(** [memcpy(alloc_bitmap, nvm, bitmapSize())] *)
Fixpoint load_cells (n : nat) (bm : bitmap) (i : Z) (nvm : words) (src : Z) : bitmap :=
  match n with
  | O => bm
  | S n => load_cells n (<[i := wget nvm src]> bm) (i + 1) nvm (src + 8)
  end.

Definition loadBitmap (bm : bitmap) (nvm : words) (ptr : Z) : bitmap :=
  load_cells (Z.to_nat bitmap_cells) bm 0 nvm ptr.

(** ** The statistics of [report] *)

(** The loop over the 64 bits of a cell. *)
Fixpoint count_bits (n : nat) (bit modified unmodified : Z) : Z * Z :=
  match n with
  | O => (modified, unmodified)
  | S n =>
      if negb (Z.land bit 1 =? 0)
      then count_bits n (Z.shiftr bit 1) (modified + 1) unmodified
      else count_bits n (Z.shiftr bit 1) modified (unmodified + 1)
  end.

Fixpoint report_cells (n : nat) (bm : bitmap) (i modified unmodified : Z) : Z * Z :=
  match n with
  | O => (modified, unmodified)
  | S n =>
      let '(modified, unmodified) := count_bits 64 (cell bm i) modified unmodified in
      report_cells n bm (i + 1) modified unmodified
  end.

(** Blocks of eight cells, in the order of the two outer loops. *)
Definition report (bm : bitmap) (allocatedBlocks : Z) : Z * Z :=
  report_cells (8 * Z.to_nat allocatedBlocks) bm 0 0 0.

(** ** What the routines do, page by page *)

(** Page [p] of the heap, counted from [BaseAddress]. *)
Definition page_set (bm : bitmap) (p : Z) : bool := Z.testbit (cell bm (p / 64)) (p mod 64).

Definition total_pages : Z := MaxMemorySize / BitmapGranularity.

Definition cells_wf (bm : bitmap) : Prop := forall i, is_u64 (cell bm i).

(** Page [p] overlaps the addresses from [ptr] up to [limit]. *)
Definition overlaps (ptr limit p : Z) : bool :=
  ((ptr - BaseAddress) / BitmapGranularity <=? p) && (BaseAddress + BitmapGranularity * p <? limit).

Lemma mask_down_spec ptr k :
  0 <= ptr < 2 ^ 64 -> 0 <= k <= 63 -> mask_down ptr (2 ^ k) = 2 ^ k * (ptr / 2 ^ k).
Proof.
  intros Hp Hk. unfold mask_down.
  replace (UINT64_MAX - (2 ^ k - 1)) with (Z.shiftl (Z.ones (64 - k)) k).
  2: { rewrite Z.shiftl_mul_pow2, Z.ones_equiv, <- Z.sub_1_r by lia.
       rewrite Z.mul_sub_distr_r, <- Z.pow_add_r by lia. replace (64 - k + k) with 64 by lia.
       change UINT64_MAX with (2 ^ 64 - 1). lia. }
  rewrite Z.mul_comm, <- Z.shiftr_div_pow2, <- Z.shiftl_mul_pow2 by lia.
  apply Z.bits_inj'. intros n Hn. rewrite Z.land_spec, !Z.shiftl_spec by lia.
  destruct (Z.lt_ge_cases n k).
  - rewrite (Z.testbit_neg_r (Z.ones _)), (Z.testbit_neg_r (Z.shiftr _ _)) by lia. apply andb_false_r.
  - rewrite Z.shiftr_spec by lia. replace (n - k + k) with n by lia.
    destruct (Z.lt_ge_cases n 64).
    + rewrite Z.ones_spec_low by lia. apply andb_true_r.
    + rewrite (Z.bits_above_log2 ptr); [done|lia|].
      destruct (Z.eq_dec ptr 0) as [->|]; [simpl; lia|]. apply Z.log2_lt_pow2; [lia|].
      apply Z.lt_le_trans with (2 ^ 64); [lia|]. apply Z.pow_le_mono_r; lia.
Qed.

Lemma page_offset_spec p : 0 <= p < total_pages -> page_offset (BaseAddress + BitmapGranularity * p) = p.
Proof.
  intros Hp. change total_pages with 268435456 in Hp. unfold page_offset, BitmapGranularity in *.
  replace (BaseAddress + 2 ^ 12 * p - BaseAddress) with (2 ^ 12 * p) by lia.
  rewrite u64_id by (unfold is_u64; lia). rewrite Z.shiftr_div_pow2 by lia.
  rewrite Z.mul_comm. by apply Z.div_mul.
Qed.

Lemma page_bit_mask_spec p : page_bit_mask p = 2 ^ (p mod 64).
Proof.
  unfold page_bit_mask. change 0x3F with (Z.ones 6). rewrite Z.land_ones by lia. change (2 ^ 6) with 64.
  pose proof (Z.mod_pos_bound p 64 ltac:(lia)) as Hm. destruct (Z.ltb_spec 0 (p mod 64)) as [Hlt|Hle].
  - rewrite Z.shiftl_1_l. apply u64_id. unfold is_u64. split; [lia|]. apply Z.pow_lt_mono_r; lia.
  - by replace (p mod 64) with 0 by lia.
Qed.

Lemma cell_insert bm i v j : cell (<[i := v]> bm) j = if decide (i = j) then v else cell bm j.
Proof. unfold cell. rewrite lookup_insert. by case_decide. Qed.

Lemma page_cell p q : 0 <= p -> p / 64 = q / 64 -> p mod 64 = q mod 64 -> p = q.
Proof. intros. rewrite (Z.div_mod p 64), (Z.div_mod q 64) by lia. lia. Qed.

(** A bit of a cell written for page [p] is read back for page [p] only. *)
Lemma page_set_insert bm p v (b : bool) q :
  0 <= p -> 0 <= q ->
  (forall i, 0 <= i < 64 -> Z.testbit v i = if i =? p mod 64 then b else Z.testbit (cell bm (p / 64)) i) ->
  page_set (<[p / 64 := v]> bm) q = if p =? q then b else page_set bm q.
Proof.
  intros Hp Hq Hv. unfold page_set. rewrite cell_insert.
  pose proof (Z.mod_pos_bound q 64 ltac:(lia)). case_decide as E.
  - rewrite Hv by lia. rewrite <- E. destruct (Z.eqb_spec (q mod 64) (p mod 64)) as [Em|Em].
    + by rewrite (page_cell p q), Z.eqb_refl.
    + destruct (Z.eqb_spec p q) as [->|]; [done|done].
  - destruct (Z.eqb_spec p q) as [->|]; [done|done].
Qed.

(** A page routine that writes the bit [v] of one page. *)
Definition writes_page (f : bitmap -> Z -> res bitmap) (v : bool) : Prop :=
  forall bm p, 0 <= p < total_pages -> cells_wf bm ->
  exists bm', f bm (BaseAddress + BitmapGranularity * p) = Ok bm' /\ cells_wf bm' /\
    forall q, 0 <= q -> page_set bm' q = if p =? q then v else page_set bm q.

Lemma set_cell_ok bm p v :
  0 <= p < total_pages -> set_cell bm (Z.shiftr p 6) v = Ok (<[p / 64 := v]> bm).
Proof.
  intros Hp. unfold set_cell. rewrite Z.shiftr_div_pow2 by lia. change (2 ^ 6) with 64.
  change total_pages with 268435456 in Hp. change bitmap_cells with 4194304.
  rewrite (proj2 (Z.leb_le _ _)), (proj2 (Z.ltb_lt _ _)); [done|dlia..].
Qed.

Lemma cells_wf_insert bm i v : cells_wf bm -> is_u64 v -> cells_wf (<[i := v]> bm).
Proof. intros Hwf Hv j. rewrite cell_insert. by case_decide. Qed.

Lemma testbit_u64 z i : is_u64 z -> 64 <= i -> Z.testbit z i = false.
Proof.
  intros [Hz Hlt] Hi. destruct (Z.eq_dec z 0) as [->|]; [apply Z.bits_0|].
  apply Z.bits_above_log2; [lia|]. apply Z.log2_lt_pow2; [lia|].
  apply Z.lt_le_trans with (2 ^ 64); [lia|]. apply Z.pow_le_mono_r; lia.
Qed.

Lemma is_u64_bits z : 0 <= z -> (forall i, 64 <= i -> Z.testbit z i = false) -> is_u64 z.
Proof.
  intros Hz Hb. split; [done|]. destruct (Z.lt_ge_cases z (2 ^ 64)) as [|Hge]; [done|exfalso].
  assert (64 <= Z.log2 z) by (apply Z.log2_le_pow2; lia).
  specialize (Hb (Z.log2 z) ltac:(lia)). rewrite Z.bit_log2 in Hb by lia. done.
Qed.

Lemma setPage_writes : writes_page setPage true.
Proof.
  intros bm p Hp Hwf. unfold setPage. rewrite page_offset_spec by done.
  rewrite set_cell_ok, page_bit_mask_spec by done. rewrite Z.shiftr_div_pow2 by lia. change (2 ^ 6) with 64.
  pose proof (Z.mod_pos_bound p 64 ltac:(lia)). eexists. split; [done|]. split.
  - apply cells_wf_insert; [done|]. apply is_u64_bits.
    + apply Z.lor_nonneg. split; [apply Hwf|]. lia.
    + intros i Hi. rewrite Z.lor_spec, (testbit_u64 (cell bm _)) by done.
      rewrite Z.pow2_bits_eqb by lia. simpl. lia.
  - intros q Hq. apply page_set_insert; [lia|done|]. intros i Hi.
    rewrite Z.lor_spec, Z.pow2_bits_eqb by lia. rewrite Z.eqb_sym.
    destruct (i =? p mod 64); [apply orb_true_r|apply orb_false_r].
Qed.

Lemma unsetPage_writes : writes_page unsetPage false.
Proof.
  intros bm p Hp Hwf. unfold unsetPage. rewrite page_offset_spec by done.
  rewrite set_cell_ok, page_bit_mask_spec by done. rewrite Z.shiftr_div_pow2 by lia. change (2 ^ 6) with 64.
  pose proof (Z.mod_pos_bound p 64 ltac:(lia)) as Hm.
  replace (UINT64_MAX - 2 ^ (p mod 64)) with (Z.ldiff (Z.ones 64) (2 ^ (p mod 64))).
  2: { symmetry. change UINT64_MAX with (Z.ones 64). apply Z.sub_nocarry_ldiff.
       apply Z.bits_inj'. intros i Hi. rewrite Z.ldiff_spec, Z.pow2_bits_eqb, Z.bits_0 by lia.
       destruct (Z.eqb_spec (p mod 64) i) as [<-|]; [|done]. by rewrite Z.ones_spec_low by lia. }
  eexists. split; [done|]. split.
  - apply cells_wf_insert; [done|]. apply is_u64_bits; [apply Z.land_nonneg; left; apply Hwf|].
    intros i Hi. by rewrite Z.land_spec, (testbit_u64 (cell bm _)).
  - intros q Hq. apply page_set_insert; [lia|done|]. intros i Hi.
    rewrite Z.land_spec, Z.ldiff_spec, Z.ones_spec_low, Z.pow2_bits_eqb by lia. rewrite Z.eqb_sym.
    destruct (i =? p mod 64); [apply andb_false_r|apply andb_true_r].
Qed.

Lemma page_loop_spec f v fuel bm p limit :
  writes_page f v -> cells_wf bm -> 0 <= p -> limit <= BaseAddress + MaxMemorySize ->
  limit <= BaseAddress + BitmapGranularity * (p + Z.of_nat fuel) ->
  exists bm', page_loop f fuel bm (BaseAddress + BitmapGranularity * p) limit = Ok bm' /\ cells_wf bm' /\
    forall q, 0 <= q -> page_set bm' q =
      if (p <=? q) && (BaseAddress + BitmapGranularity * q <? limit) then v else page_set bm q.
Proof.
  intros Hf. revert bm p. induction fuel as [|fuel IH]; intros bm p Hwf Hp Hmax Hfuel; cbn [page_loop].
  - rewrite (proj2 (Z.ltb_ge _ _)) by lia. exists bm. split; [done|]. split; [done|]. intros q Hq.
    destruct (Z.leb_spec p q), (Z.ltb_spec (BaseAddress + BitmapGranularity * q) limit); simpl; try done.
    unfold BitmapGranularity in *. lia.
  - destruct (Z.ltb_spec (BaseAddress + BitmapGranularity * p) limit) as [Hlt|Hge].
    + assert (Hpp : 0 <= p < total_pages).
      { change total_pages with (2 ^ 28). unfold BitmapGranularity, MaxMemorySize in *. lia. }
      destruct (Hf bm p Hpp Hwf) as (bm1 & -> & Hwf1 & Hset1). cbn [res_bind].
      replace (u64 (BaseAddress + BitmapGranularity * p + BitmapGranularity))
        with (BaseAddress + BitmapGranularity * (p + 1)).
      2: { rewrite u64_id; [lia|]. change total_pages with (2 ^ 28) in Hpp.
           unfold is_u64, BaseAddress, BitmapGranularity. lia. }
      destruct (IH bm1 (p + 1) Hwf1) as (bm2 & -> & Hwf2 & Hset2); [lia|done|lia|].
      exists bm2. split; [done|]. split; [done|]. intros q Hq. rewrite Hset2, Hset1 by done.
      destruct (Z.eqb_spec p q) as [<-|Hne].
      * rewrite (proj2 (Z.leb_gt (p + 1) p)), Z.leb_refl, (proj2 (Z.ltb_lt _ _)) by lia. done.
      * replace (p + 1 <=? q) with (p <=? q); [done|]. destruct (Z.leb_spec p q), (Z.leb_spec (p + 1) q); lia.
    + exists bm. split; [done|]. split; [done|]. intros q Hq.
      destruct (Z.leb_spec p q), (Z.ltb_spec (BaseAddress + BitmapGranularity * q) limit); simpl; try done.
      unfold BitmapGranularity in *. lia.
Qed.

(** A range of the heap. *)
Definition in_heap (ptr size : Z) : Prop :=
  BaseAddress <= ptr /\ 0 <= size /\ ptr + size <= BaseAddress + MaxMemorySize.

Lemma bitmap_loop_spec f v bm ptr size :
  writes_page f v -> cells_wf bm -> in_heap ptr size ->
  exists bm', page_loop f (page_fuel size) bm (mask_down ptr BitmapGranularity) (u64 (ptr + size)) = Ok bm' /\
    cells_wf bm' /\
    forall q, 0 <= q -> page_set bm' q = if overlaps ptr (ptr + size) q then v else page_set bm q.
Proof.
  intros Hf Hwf (Hlo & Hsz & Hhi). change MaxMemorySize with 1099511627776 in *.
  assert (Hb : ptr < 2 ^ 64) by (unfold BaseAddress in *; lia).
  change BitmapGranularity with (2 ^ 12) at 1. rewrite mask_down_spec by (unfold BaseAddress in *; lia).
  set (p := (ptr - BaseAddress) / BitmapGranularity).
  replace (2 ^ 12 * (ptr / 2 ^ 12)) with (BaseAddress + BitmapGranularity * p).
  2: { unfold p. change BitmapGranularity with 4096. change (2 ^ 12) with 4096. change BaseAddress with 1099511627776. dlia. }
  rewrite u64_id by (unfold is_u64, BaseAddress in *; lia).
  apply (page_loop_spec f v (page_fuel size) bm p (ptr + size) Hf Hwf).
  - unfold p. apply Z.div_pos; [lia|reflexivity].
  - done.
  - unfold p, page_fuel. change BitmapGranularity with 4096. change BaseAddress with 1099511627776 in *. dlia.
Qed.

Lemma setBitmap_spec bm ptr size :
  cells_wf bm -> in_heap ptr size ->
  exists bm', setBitmap bm ptr size = Ok bm' /\ cells_wf bm' /\
    forall q, 0 <= q -> page_set bm' q = overlaps ptr (ptr + size) q || page_set bm q.
Proof.
  intros Hwf Hin. destruct (bitmap_loop_spec _ _ bm ptr size setPage_writes Hwf Hin) as (bm' & ? & ? & Hs).
  exists bm'. split; [done|]. split; [done|]. intros q Hq. rewrite Hs by done. by destruct (overlaps _ _ _).
Qed.

Lemma unsetBitmap_spec bm ptr size :
  cells_wf bm -> in_heap ptr size ->
  exists bm', unsetBitmap bm ptr size = Ok bm' /\ cells_wf bm' /\
    forall q, 0 <= q -> page_set bm' q = negb (overlaps ptr (ptr + size) q) && page_set bm q.
Proof.
  intros Hwf Hin. destruct (bitmap_loop_spec _ _ bm ptr size unsetPage_writes Hwf Hin) as (bm' & ? & ? & Hs).
  exists bm'. split; [done|]. split; [done|]. intros q Hq. rewrite Hs by done. by destruct (overlaps _ _ _).
Qed.

(** A cell write sets or clears 64 pages at once. *)
Lemma page_set_cell bm o (v : bool) q :
  0 <= o -> 0 <= q ->
  page_set (<[o := if v then UINT64_MAX else 0]> bm) q =
    if (64 * o <=? q) && (q <? 64 * (o + 1)) then v else page_set bm q.
Proof.
  intros Ho Hq. unfold page_set. rewrite cell_insert.
  pose proof (Z.mod_pos_bound q 64 ltac:(lia)). case_decide as E.
  - rewrite (proj2 (Z.leb_le _ _)), (proj2 (Z.ltb_lt _ _)) by dlia. simpl.
    destruct v; [|apply Z.bits_0]. change UINT64_MAX with (Z.ones 64). apply Z.ones_spec_low. lia.
  - destruct (Z.leb_spec (64 * o) q), (Z.ltb_spec q (64 * (o + 1))); simpl; try done. destruct E. dlia.
Qed.

Lemma cells_wf_full bm o (v : bool) : cells_wf bm -> cells_wf (<[o := if v then UINT64_MAX else 0]> bm).
Proof. intros. apply cells_wf_insert; [done|]. unfold is_u64, UINT64_MAX. destruct v; lia. Qed.

Lemma cell_address ptr :
  BaseAddress <= ptr < BaseAddress + MaxMemorySize -> ptr mod BlockSize = 0 ->
  let o := Z.shiftr (u64 (ptr - BaseAddress)) 18 in
  0 <= o < bitmap_cells /\ ptr = BaseAddress + stepSize * o /\ mask_down ptr BlockSize = ptr.
Proof.
  intros Hp Hal o. unfold o. change MaxMemorySize with 1099511627776 in Hp.
  change BaseAddress with 1099511627776 in *. change bitmap_cells with 4194304. change stepSize with 262144.
  rewrite u64_id by (unfold is_u64; lia). rewrite Z.shiftr_div_pow2 by lia. change (2 ^ 18) with 262144.
  change BlockSize with (2 ^ 21) in *. rewrite mask_down_spec by lia. change (2 ^ 21) with 2097152 in *. dlia.
Qed.

Lemma big_loop_spec fuel bm o limit :
  cells_wf bm -> 0 <= o -> BaseAddress + stepSize * o <= limit -> limit <= BaseAddress + MaxMemorySize ->
  limit < BaseAddress + stepSize * (o + Z.of_nat fuel + 1) ->
  exists bm' o', big_loop fuel bm (BaseAddress + stepSize * o) o limit = Ok (bm', BaseAddress + stepSize * o') /\
    cells_wf bm' /\ o <= o' /\ BaseAddress + stepSize * o' <= limit < BaseAddress + stepSize * (o' + 1) /\
    forall q, 0 <= q -> page_set bm' q = ((64 * o <=? q) && (q <? 64 * o')) || page_set bm q.
Proof.
  change stepSize with 262144. change MaxMemorySize with 1099511627776. change BaseAddress with 1099511627776.
  revert bm o. induction fuel as [|fuel IH]; intros bm o Hwf Ho Hlo Hmax Hfuel; cbn [big_loop].
  - rewrite (proj2 (Z.leb_gt _ _)) by (change stepSize with 262144; lia).
    exists bm, o. split; [done|]. split; [done|]. do 2 (split; [lia|]). intros q Hq.
    destruct (Z.leb_spec (64 * o) q), (Z.ltb_spec q (64 * o)); simpl; try done; lia.
  - change stepSize with 262144. destruct (Z.leb_spec (1099511627776 + 262144 * o + 262144) limit) as [Hle|Hgt].
    + unfold set_cell. change bitmap_cells with 4194304.
      rewrite (proj2 (Z.leb_le _ _)), (proj2 (Z.ltb_lt _ _)) by lia. cbn [andb res_bind].
      destruct (IH (<[o := UINT64_MAX]> bm) (o + 1)) as (bm' & o' & Hrun & Hwf' & Hoo & Hlim & Hs);
        [by apply (cells_wf_full bm o true)|lia..|].
      exists bm', o'. replace (1099511627776 + 262144 * o + 262144) with (1099511627776 + 262144 * (o + 1)) by lia.
      split; [done|]. split; [done|]. do 2 (split; [lia|]). intros q Hq. rewrite Hs by done.
      rewrite (page_set_cell bm o true) by lia.
      destruct (Z.leb_spec (64 * (o + 1)) q), (Z.ltb_spec q (64 * o')), (Z.leb_spec (64 * o) q),
        (Z.ltb_spec q (64 * (o + 1))); simpl; try done; lia.
    + exists bm, o. split; [done|]. split; [done|]. do 2 (split; [lia|]). intros q Hq.
      destruct (Z.leb_spec (64 * o) q), (Z.ltb_spec q (64 * o)); simpl; try done; lia.
Qed.

Lemma setBitmapForBigAlloc_spec bm ptr size :
  cells_wf bm -> in_heap ptr size -> 0 < size -> ptr mod BlockSize = 0 ->
  exists bm', setBitmapForBigAlloc bm ptr size = Ok bm' /\ cells_wf bm' /\
    forall q, 0 <= q -> page_set bm' q = overlaps ptr (ptr + size) q || page_set bm q.
Proof.
  intros Hwf (Hlo & Hsz & Hhi) Hpos Hal.
  destruct (cell_address ptr ltac:(lia) Hal) as (Ho & Hptr & Hmask).
  set (o := Z.shiftr _ _) in *. unfold setBitmapForBigAlloc. rewrite Hmask, Z.eqb_refl. fold o.
  destruct (big_loop_spec (Z.to_nat (size / stepSize + 1)) bm o (ptr + size)) as (bm1 & o' & Hrun & Hwf1 & Hoo & Hlim & Hs1);
    [done|lia|lia|done|change stepSize with 262144 in *; dlia|].
  rewrite <- Hptr in Hrun. rewrite Hrun. cbn [res_bind].
  assert (Hq : forall q, 0 <= q -> ((64 * o <=? q) && (q <? 64 * o')) || overlaps (BaseAddress + stepSize * o') (ptr + size) q
             = overlaps ptr (ptr + size) q).
  { intros q Hq. unfold overlaps. rewrite Hptr. change stepSize with 262144 in *.
    change BitmapGranularity with 4096. rewrite Hptr in Hlim.
    replace ((BaseAddress + 262144 * o' - BaseAddress) / 4096) with (64 * o') by dlia.
    replace ((BaseAddress + 262144 * o - BaseAddress) / 4096) with (64 * o) by dlia.
    destruct (Z.leb_spec (64 * o) q), (Z.ltb_spec q (64 * o')), (Z.leb_spec (64 * o') q),
      (Z.ltb_spec (BaseAddress + 4096 * q) (BaseAddress + 262144 * o + size)); simpl; try done; lia. }
  destruct (Z.ltb_spec (BaseAddress + stepSize * o') (ptr + size)) as [Hlt|Hge].
  - destruct (setBitmap_spec bm1 (BaseAddress + stepSize * o') (ptr + size - (BaseAddress + stepSize * o')))
      as (bm2 & Hrun2 & Hwf2 & Hs2); [done|unfold in_heap; change stepSize with 262144 in *; lia|].
    rewrite Hrun2. exists bm2. split; [done|]. split; [done|]. intros q Hq0. rewrite Hs2, Hs1, <- Hq by done.
    replace (BaseAddress + stepSize * o' + (ptr + size - (BaseAddress + stepSize * o'))) with (ptr + size) by lia.
    by rewrite orb_assoc, (orb_comm (overlaps _ _ _)).
  - exists bm1. split; [done|]. split; [done|]. intros q Hq0. rewrite Hs1, <- Hq by done.
    replace (overlaps (BaseAddress + stepSize * o') (ptr + size) q) with false; [by rewrite orb_false_r|].
    symmetry. unfold overlaps. change stepSize with 262144 in *. change BitmapGranularity with 4096.
    destruct (Z.leb_spec ((BaseAddress + 262144 * o' - BaseAddress) / 4096) q),
      (Z.ltb_spec (BaseAddress + 4096 * q) (ptr + size)); simpl; try done. dlia.
Qed.

Lemma clear_cells_spec n bm o :
  cells_wf bm -> 0 <= o -> o + Z.of_nat n <= bitmap_cells ->
  exists bm', clear_cells n bm o = Ok bm' /\ cells_wf bm' /\
    forall q, 0 <= q -> page_set bm' q =
      negb ((64 * o <=? q) && (q <? 64 * (o + Z.of_nat n))) && page_set bm q.
Proof.
  revert bm o. induction n as [|n IH]; intros bm o Hwf Ho Hn; cbn [clear_cells].
  - exists bm. split; [done|]. split; [done|]. intros q Hq.
    destruct (Z.leb_spec (64 * o) q), (Z.ltb_spec q (64 * (o + Z.of_nat 0))); simpl; try done; lia.
  - unfold set_cell. rewrite (proj2 (Z.leb_le _ _)), (proj2 (Z.ltb_lt _ _)) by lia. cbn [andb res_bind].
    destruct (IH (<[o := 0]> bm) (o + 1)) as (bm' & Hrun & Hwf' & Hs); [by apply (cells_wf_full bm o false)|lia..|].
    exists bm'. split; [done|]. split; [done|]. intros q Hq. rewrite Hs by done.
    rewrite (page_set_cell bm o false) by lia.
    destruct (Z.leb_spec (64 * (o + 1)) q), (Z.ltb_spec q (64 * (o + 1 + Z.of_nat n))), (Z.leb_spec (64 * o) q),
      (Z.ltb_spec q (64 * (o + 1))), (Z.ltb_spec q (64 * (o + Z.of_nat (S n)))); simpl; try done; lia.
Qed.

Lemma unsetBitmapForBigDealloc_spec bm ptr blocks :
  cells_wf bm -> 0 < blocks -> in_heap ptr (blocks * BlockSize) -> ptr mod BlockSize = 0 ->
  exists bm', unsetBitmapForBigDealloc bm ptr blocks = Ok bm' /\ cells_wf bm' /\
    forall q, 0 <= q -> page_set bm' q = negb (overlaps ptr (ptr + blocks * BlockSize) q) && page_set bm q.
Proof.
  intros Hwf Hpos (Hlo & Hsz & Hhi) Hal.
  destruct (cell_address ptr) as (Ho & Hptr & Hmask); [change BlockSize with 2097152 in *; lia|done|].
  set (o := Z.shiftr _ _) in *. unfold unsetBitmapForBigDealloc. rewrite Hmask, Z.eqb_refl. fold o.
  rewrite Z.shiftl_mul_pow2 by lia. change (2 ^ 3) with 8. change BlockSize with 2097152 in *.
  change stepSize with 262144 in *.
  destruct (clear_cells_spec (Z.to_nat (blocks * 8)) bm o) as (bm' & -> & Hwf' & Hs); [done|lia| |].
  { change bitmap_cells with 4194304. change MaxMemorySize with 1099511627776 in *.
    rewrite Z2Nat.id by lia. lia. }
  exists bm'. split; [done|]. split; [done|]. intros q Hq. rewrite Hs by done. do 2 f_equal.
  unfold overlaps. rewrite Hptr, Z2Nat.id by lia. change BitmapGranularity with 4096.
  replace ((BaseAddress + 262144 * o - BaseAddress) / 4096) with (64 * o) by dlia.
  destruct (Z.leb_spec (64 * o) q), (Z.ltb_spec q (64 * (o + blocks * 8))),
    (Z.ltb_spec (BaseAddress + 4096 * q) (BaseAddress + 262144 * o + blocks * 2097152)); simpl; try done; lia.
Qed.

(** [C25] Setting and clearing are exact: [setBitmap] and [unsetBitmap] set
    and clear the bits of exactly the pages that overlap their range, and
    never leave the bitmap. *)
Theorem bitmap_update_exact bm ptr size :
  cells_wf bm -> in_heap ptr size ->
  exists bm1 bm2, setBitmap bm ptr size = Ok bm1 /\ unsetBitmap bm ptr size = Ok bm2 /\
    cells_wf bm1 /\ cells_wf bm2 /\
    forall q, 0 <= q ->
      page_set bm1 q = overlaps ptr (ptr + size) q || page_set bm q /\
      page_set bm2 q = negb (overlaps ptr (ptr + size) q) && page_set bm q.
Proof.
  intros Hwf Hin. destruct (setBitmap_spec bm ptr size Hwf Hin) as (bm1 & ? & ? & ?).
  destruct (unsetBitmap_spec bm ptr size Hwf Hin) as (bm2 & ? & ? & ?). exists bm1, bm2. auto 10.
Qed.

(** [C26] The routines for large regions, which write whole cells, have the
    effect of the page-by-page routines on the same region. *)
Theorem big_update_equivalent bm ptr size blocks :
  cells_wf bm -> ptr mod BlockSize = 0 -> 0 < size -> size <= blocks * BlockSize ->
  in_heap ptr (blocks * BlockSize) ->
  (exists bm1 bm2, setBitmapForBigAlloc bm ptr size = Ok bm1 /\ setBitmap bm ptr size = Ok bm2 /\
     forall q, 0 <= q -> page_set bm1 q = page_set bm2 q) /\
  (exists bm1 bm2, unsetBitmapForBigDealloc bm ptr blocks = Ok bm1 /\
     unsetBitmap bm ptr (blocks * BlockSize) = Ok bm2 /\
     forall q, 0 <= q -> page_set bm1 q = page_set bm2 q).
Proof.
  intros Hwf Hal Hpos Hle Hin. assert (Hin' : in_heap ptr size) by (unfold in_heap in *; lia).
  assert (0 < blocks) by (change BlockSize with 2097152 in *; lia). split.
  - destruct (setBitmapForBigAlloc_spec bm ptr size) as (bm1 & ? & _ & Hs1); try done.
    destruct (setBitmap_spec bm ptr size) as (bm2 & ? & _ & Hs2); try done.
    exists bm1, bm2. split; [done|]. split; [done|]. intros q Hq. by rewrite Hs1, Hs2.
  - destruct (unsetBitmapForBigDealloc_spec bm ptr blocks) as (bm1 & ? & _ & Hs1); try done.
    destruct (unsetBitmap_spec bm ptr (blocks * BlockSize)) as (bm2 & ? & _ & Hs2); try done.
    exists bm1, bm2. split; [done|]. split; [done|]. intros q Hq. by rewrite Hs1, Hs2.
Qed.

(** ** Saving and loading *)

Lemma wget_wset w a v b : wget (wset w a v) b = if decide (a = b) then v else wget w b.
Proof. unfold wget, wset. rewrite lookup_insert. by case_decide. Qed.

Lemma stream_words_other n bm src nvm dst a :
  (forall k, 0 <= k < Z.of_nat n -> a <> dst + 8 * k) -> wget (stream_words n bm src nvm dst) a = wget nvm a.
Proof.
  revert src nvm dst. induction n as [|n IH]; intros src nvm dst Ha; cbn [stream_words]; [done|].
  rewrite IH, wget_wset.
  - rewrite decide_False; [done|]. specialize (Ha 0). lia.
  - intros k Hk. specialize (Ha (k + 1)). lia.
Qed.

Lemma stream_words_at n bm src nvm dst k :
  0 <= k < Z.of_nat n -> wget (stream_words n bm src nvm dst) (dst + 8 * k) = cell bm (src + k).
Proof.
  revert src nvm dst k. induction n as [|n IH]; intros src nvm dst k Hk; cbn [stream_words]; [lia|].
  destruct (Z.eq_dec k 0) as [->|].
  - rewrite stream_words_other by lia. rewrite wget_wset, decide_True by lia. f_equal. lia.
  - replace (dst + 8 * k) with (dst + 8 + 8 * (k - 1)) by lia. rewrite IH by lia. f_equal. lia.
Qed.

Lemma save_loop_spec fuel bm src limit nvm dst :
  limit <= src + 32 * Z.of_nat fuel -> (limit - src) mod 32 = 0 -> src <= limit ->
  exists nvm', save_loop fuel bm src limit nvm dst = Ok nvm' /\
    (forall k, src <= k < limit -> wget nvm' (dst + 8 * (k - src)) = cell bm k) /\
    (forall a, a < dst \/ dst + 8 * (limit - src) <= a -> wget nvm' a = wget nvm a).
Proof.
  revert src nvm dst. induction fuel as [|fuel IH]; intros src nvm dst Hf Hmod Hle; cbn [save_loop].
  - rewrite (proj2 (Z.ltb_ge _ _)) by lia. exists nvm. split; [done|]. split; [lia|done].
  - destruct (Z.ltb_spec src limit) as [Hlt|Hge].
    2: { exists nvm. split; [done|]. split; [lia|done]. }
    assert (src + 32 <= limit) by dlia.
    destruct (IH (src + 32) (stream_words 32 bm src nvm dst) (dst + 256)) as (nvm' & Hrun & Hin & Hout);
      [lia|dlia|lia|].
    exists nvm'. split; [done|]. split.
    + intros k Hk. destruct (Z.lt_ge_cases k (src + 32)) as [Hlt'|Hge'].
      * rewrite Hout by lia. rewrite stream_words_at by lia. f_equal. lia.
      * replace (dst + 8 * (k - src)) with (dst + 256 + 8 * (k - (src + 32))) by lia. apply Hin. lia.
    + intros a Ha. rewrite Hout by lia. apply stream_words_other. lia.
Qed.

Lemma load_cells_spec n bm i nvm src j :
  cell (load_cells n bm i nvm src) j =
    if (i <=? j) && (j <? i + Z.of_nat n) then wget nvm (src + 8 * (j - i)) else cell bm j.
Proof.
  revert bm i src. induction n as [|n IH]; intros bm i src; cbn [load_cells].
  - destruct (Z.leb_spec i j), (Z.ltb_spec j (i + Z.of_nat 0)); simpl; try done; lia.
  - rewrite IH, cell_insert. case_decide as E.
    + rewrite E, (proj2 (Z.leb_gt (j + 1) j)), Z.leb_refl, (proj2 (Z.ltb_lt j (j + Z.of_nat (S n)))) by lia.
      cbn [andb]. by rewrite Z.sub_diag, Z.mul_0_r, Z.add_0_r.
    + destruct (Z.leb_spec (i + 1) j), (Z.ltb_spec j (i + 1 + Z.of_nat n)), (Z.leb_spec i j),
        (Z.ltb_spec j (i + Z.of_nat (S n))); simpl; try done; try lia. f_equal. lia.
Qed.

(** A saved bitmap is in the snapshot cell by cell, and saving writes nothing
    outside the bitmap's part of the snapshot. *)
Lemma saveBitmap_spec bm nvm ptr :
  exists nvm', saveBitmap bm nvm ptr = Ok nvm' /\
    (forall i, 0 <= i < bitmap_cells -> wget nvm' (ptr + 8 * i) = cell bm i) /\
    (forall a, a < ptr \/ ptr + bitmapSize <= a -> wget nvm' a = wget nvm a).
Proof.
  destruct (save_loop_spec (Z.to_nat (bitmap_cells / 32)) bm 0 bitmap_cells nvm ptr) as (nvm' & Hrun & Hin & Hout);
    [rewrite Z2Nat.id; done|done|done|].
  exists nvm'. split; [done|]. split.
  - intros i Hi. rewrite <- (Z.sub_0_r i) at 1. by apply Hin.
  - intros a Ha. apply Hout. rewrite Z.sub_0_r. exact Ha.
Qed.

(** Loading a bitmap reads the cells back, whatever it held before. *)
Lemma loadBitmap_spec bm0 nvm ptr i : 0 <= i < bitmap_cells -> cell (loadBitmap bm0 nvm ptr) i = wget nvm (ptr + 8 * i).
Proof.
  intros Hi. unfold loadBitmap. rewrite load_cells_spec, Z2Nat.id by done.
  rewrite (proj2 (Z.leb_le _ _)), (proj2 (Z.ltb_lt _ _)) by lia. simpl. by rewrite Z.sub_0_r.
Qed.

(** ** The report *)

(** The number of set pages among the [n] from page [p] on. *)
Fixpoint set_pages (n : nat) (bm : bitmap) (p : Z) : Z :=
  match n with
  | O => 0
  | S n => (if page_set bm p then 1 else 0) + set_pages n bm (p + 1)
  end.

Lemma set_pages_add n m bm p : set_pages (n + m) bm p = set_pages n bm p + set_pages m bm (p + Z.of_nat n).
Proof.
  revert p. induction n as [|n IH]; intros p; cbn [Nat.add set_pages].
  - by rewrite Z.add_0_r.
  - rewrite IH. replace (p + 1 + Z.of_nat n) with (p + Z.of_nat (S n)) by lia. lia.
Qed.

Lemma count_bits_spec n bm i k m u :
  0 <= i -> 0 <= k -> k + Z.of_nat n <= 64 ->
  count_bits n (Z.shiftr (cell bm i) k) m u =
    (m + set_pages n bm (64 * i + k), u + (Z.of_nat n - set_pages n bm (64 * i + k))).
Proof.
  revert k m u. induction n as [|n IH]; intros k m u Hi Hk Hn; cbn [count_bits set_pages]; [f_equal; lia|].
  assert (Hbit : negb (Z.land (Z.shiftr (cell bm i) k) 1 =? 0) = page_set bm (64 * i + k)).
  { change 1 with (Z.ones 1). rewrite Z.land_ones, <- Z.bit0_mod, Z.shiftr_spec by lia.
    unfold page_set. replace ((64 * i + k) / 64) with i by dlia. replace ((64 * i + k) mod 64) with k by dlia.
    rewrite Z.add_0_l. by destruct (Z.testbit _ _). }
  rewrite Hbit, Z.shiftr_shiftr, !IH by lia.
  replace (64 * i + (k + 1)) with (64 * i + k + 1) by lia.
  destruct (page_set bm (64 * i + k)); f_equal; lia.
Qed.

Lemma report_cells_spec n bm i m u :
  0 <= i ->
  report_cells n bm i m u =
    (m + set_pages (64 * n) bm (64 * i), u + (64 * Z.of_nat n - set_pages (64 * n) bm (64 * i))).
Proof.
  revert i m u. induction n as [|n IH]; intros i m u Hi; [simpl; f_equal; lia|].
  pose proof (count_bits_spec 64 bm i 0 m u Hi) as Hc. rewrite Z.shiftr_0_r in Hc.
  cbn [report_cells]. rewrite Hc, IH by lia.
  replace (64 * S n)%nat with (64 + 64 * n)%nat by lia. rewrite set_pages_add.
  rewrite Z.add_0_r. replace (64 * i + Z.of_nat 64) with (64 * (i + 1)) by lia. f_equal; lia.
Qed.

(** The report counts exactly: of the 512 pages of every allocated
    block, those whose bit is set and those whose bit is not. *)
Theorem report_counts bm allocatedBlocks :
  0 <= allocatedBlocks ->
  let n := set_pages (512 * Z.to_nat allocatedBlocks) bm 0 in
  report bm allocatedBlocks = (n, 512 * allocatedBlocks - n).
Proof.
  intros Hb. unfold report. rewrite report_cells_spec, Nat.mul_assoc by lia. change (64 * 0) with 0.
  change (64 * 8)%nat with 512%nat. cbv zeta. generalize (set_pages (512 * Z.to_nat allocatedBlocks) bm 0).
  intros n. rewrite Nat2Z.inj_mul, Z2Nat.id by lia. f_equal; lia.
Qed.

(** ** Concrete instances *)

Lemma empty_wf : cells_wf ∅.
Proof. intros i. unfold cell. rewrite lookup_empty. split; [done|reflexivity]. Qed.

Lemma bitmap_update_exact_witness :
  exists bm1 bm2, setBitmap ∅ (BaseAddress + 4000) 200 = Ok bm1 /\
    unsetBitmap ∅ (BaseAddress + 4000) 200 = Ok bm2 /\ cells_wf bm1 /\ cells_wf bm2 /\
    forall q, 0 <= q ->
      page_set bm1 q = overlaps (BaseAddress + 4000) (BaseAddress + 4000 + 200) q || page_set ∅ q /\
      page_set bm2 q = negb (overlaps (BaseAddress + 4000) (BaseAddress + 4000 + 200) q) && page_set ∅ q.
Proof.
  apply (bitmap_update_exact ∅ (BaseAddress + 4000) 200 empty_wf).
  unfold in_heap, BaseAddress, MaxMemorySize. lia.
Defined.

Lemma big_update_equivalent_witness :
  (exists bm1 bm2, setBitmapForBigAlloc ∅ BaseAddress 2100000 = Ok bm1 /\ setBitmap ∅ BaseAddress 2100000 = Ok bm2 /\
     forall q, 0 <= q -> page_set bm1 q = page_set bm2 q) /\
  (exists bm1 bm2, unsetBitmapForBigDealloc ∅ BaseAddress 2 = Ok bm1 /\
     unsetBitmap ∅ BaseAddress (2 * BlockSize) = Ok bm2 /\
     forall q, 0 <= q -> page_set bm1 q = page_set bm2 q).
Proof.
  apply (big_update_equivalent ∅ BaseAddress 2100000 2 empty_wf); [reflexivity|lia|vm_compute; discriminate|].
  unfold in_heap, BaseAddress, MaxMemorySize, BlockSize. lia.
Defined.

Lemma report_counts_witness :
  report {[0 := 7]} 1 = (set_pages 512 {[0 := 7]} 0, 512 * 1 - set_pages 512 {[0 := 7]} 0) /\
  set_pages 512 {[0 := 7]} 0 = 3.
Proof. split; [apply (report_counts {[0 := 7]} 1); lia|reflexivity]. Defined.
