(* ===== verification/Heap.v ===== *)
(** * The volatile heap and its headers (ckpt_alloc.hpp)

    The allocators keep their headers inside the memory they manage, always
    at the start of a cache line.  The heap is therefore modelled by cache
    lines: a line is the [free_header_t] in its first 24 bytes and the 40
    bytes after it.  The bit fields of the header fill its first 8 bytes
    exactly, so every content of a line is a value of [line], and reading a
    header from a line that an application wrote is reading the fields of
    whatever it wrote there.

    Doubly linked lists through [prev] and [next] are the lists of free
    regions of both allocators; their lemmas are here. *)

From stdpp Require Import base numbers list gmap.
From S2P Require Import Prelude.

Record line := Line {
  prev_offset : Z;   (* 16 bits *)
  free_list_id : Z;  (* 16 bits *)
  last : Z;          (* 1 bit *)
  used : Z;          (* 1 bit *)
  jumbo : Z;         (* 1 bit *)
  size : Z;          (* 29 bits *)
  prev : Z;
  next : Z;
  payload : Z        (* bytes 24 to 63 *)
}.

(** A line of a fresh anonymous mapping. *)
Definition zero_line : line := Line 0 0 0 0 0 0 0 0 0.

Definition u29 (z : Z) : Z := z mod 2 ^ 29.

(** Assignments to the fields, at their width. *)
Definition set_prev_offset (l : line) (v : Z) : line :=
  Line (u16 v) (free_list_id l) (last l) (used l) (jumbo l) (size l) (prev l) (next l) (payload l).
Definition set_free_list_id (l : line) (v : Z) : line :=
  Line (prev_offset l) (u16 v) (last l) (used l) (jumbo l) (size l) (prev l) (next l) (payload l).
Definition set_last (l : line) (v : Z) : line :=
  Line (prev_offset l) (free_list_id l) (v mod 2) (used l) (jumbo l) (size l) (prev l) (next l) (payload l).
Definition set_used (l : line) (v : Z) : line :=
  Line (prev_offset l) (free_list_id l) (last l) (v mod 2) (jumbo l) (size l) (prev l) (next l) (payload l).
Definition set_jumbo (l : line) (v : Z) : line :=
  Line (prev_offset l) (free_list_id l) (last l) (used l) (v mod 2) (size l) (prev l) (next l) (payload l).
Definition set_size (l : line) (v : Z) : line :=
  Line (prev_offset l) (free_list_id l) (last l) (used l) (jumbo l) (u29 v) (prev l) (next l) (payload l).
Definition set_prev (l : line) (v : Z) : line :=
  Line (prev_offset l) (free_list_id l) (last l) (used l) (jumbo l) (size l) v (next l) (payload l).
Definition set_next (l : line) (v : Z) : line :=
  Line (prev_offset l) (free_list_id l) (last l) (used l) (jumbo l) (size l) (prev l) v (payload l).

(** The header of [src] over that of [dst] ([sizeof(chunk_header_t)] is 8). *)
Definition copy_header (src dst : line) : line :=
  Line (prev_offset src) (free_list_id src) (last src) (used src) (jumbo src) (size src)
    (prev dst) (next dst) (payload dst).
(** Everything but the header. *)
Definition copy_data (src dst : line) : line :=
  Line (prev_offset dst) (free_list_id dst) (last dst) (used dst) (jumbo dst) (size dst)
    (prev src) (next src) (payload src).

(** ** Memory *)

Record mem := Mem { lines : gmap Z line; mapped_regions : list (Z * Z) }.

Definition in_region (a : Z) (r : Z * Z) : bool := (fst r <=? a) && (a <? fst r + snd r).
Definition mapped (m : mem) (a : Z) : bool := existsb (in_region a) (mapped_regions m).

(** Headers are aligned to cache lines; nothing outside a mapped region can
    be accessed. *)
Definition accessible (m : mem) (a : Z) : bool := mapped m a && (a mod 64 =? 0).

Definition line_at (m : mem) (a : Z) : line := default zero_line (lines m !! a).

Definition hget (m : mem) (a : Z) : res line :=
  if accessible m a then Ok (line_at m a) else Segfault.
Definition hset (m : mem) (a : Z) (l : line) : res mem :=
  if accessible m a then Ok (Mem (<[a := l]> (lines m)) (mapped_regions m)) else Segfault.
Definition hupd (m : mem) (a : Z) (f : line -> line) : res mem :=
  let* l := hget m a in hset m a (f l).

(** ** Doubly linked lists *)

(** [if (n->prev != NULL) n->prev->next = n->next; else head = n->next] *)
Definition fix_prev (m : mem) (head n : Z) : res (mem * Z) :=
  let* l := hget m n in
  if negb (prev l =? 0) then
    let* m := hupd m (prev l) (fun p => set_next p (next l)) in
    Ok (m, head)
  else Ok (m, next l).

(** [if (n->next != NULL) n->next->prev = n->prev] *)
Definition fix_next (m : mem) (n : Z) : res mem :=
  let* l := hget m n in
  if negb (next l =? 0) then hupd m (next l) (fun p => set_prev p (prev l)) else Ok m.

(** Upper bound for the length of a list: every node is a line that was
    written. *)
Definition list_fuel (m : mem) : nat := S (base.size (lines m)).

(** ** Accesses *)

Lemma hget_ok m a : accessible m a = true -> hget m a = Ok (line_at m a).
Proof. intros Ha. unfold hget. by rewrite Ha. Qed.

Definition store (m : mem) (a : Z) (l : line) : mem := Mem (<[a := l]> (lines m)) (mapped_regions m).

Lemma hset_ok m a l : accessible m a = true -> hset m a l = Ok (store m a l).
Proof. intros Ha. unfold hset. by rewrite Ha. Qed.

Lemma hupd_ok m a f : accessible m a = true -> hupd m a f = Ok (store m a (f (line_at m a))).
Proof. intros Ha. unfold hupd. rewrite hget_ok by done. cbn [res_bind]. by apply hset_ok. Qed.

Lemma line_at_store m a l b : line_at (store m a l) b = if decide (a = b) then l else line_at m b.
Proof. unfold line_at, store. cbn [lines]. rewrite lookup_insert. by case_decide. Qed.

Lemma line_at_store_eq m a l : line_at (store m a l) a = l.
Proof. rewrite line_at_store. by rewrite decide_True. Qed.

Lemma line_at_store_ne m a l b : a <> b -> line_at (store m a l) b = line_at m b.
Proof. intros. rewrite line_at_store. by rewrite decide_False. Qed.

Lemma accessible_store m a l b : accessible (store m a l) b = accessible m b.
Proof. done. Qed.

#[export] Hint Rewrite line_at_store_eq accessible_store : pronto.

Lemma accessible_regions m m' a : mapped_regions m' = mapped_regions m -> accessible m' a = accessible m a.
Proof. intros E. unfold accessible, mapped. by rewrite E. Qed.

Lemma u29_small z : 0 <= z < 2 ^ 29 -> u29 z = z.
Proof. intros. by apply Z.mod_small. Qed.

(** A line without its links. *)
Definition strip (l : line) : line :=
  Line (prev_offset l) (free_list_id l) (last l) (used l) (jumbo l) (size l) 0 0 (payload l).

Lemma strip_set_prev l v : strip (set_prev l v) = strip l.
Proof. done. Qed.
Lemma strip_set_next l v : strip (set_next l v) = strip l.
Proof. done. Qed.

Lemma strip_size l l' : strip l = strip l' -> size l = size l'.
Proof. intros E. exact (f_equal size E). Qed.

(** A list of written lines is not longer than the fuel of the loops. *)
Lemma list_fuel_bound m l :
  NoDup l -> (forall a, a ∈ l -> 0 < size (line_at m a)) -> (length l < list_fuel m)%nat.
Proof.
  intros Hnd Hs. unfold list_fuel. rewrite <- size_dom.
  assert (Hsub : (list_to_set l : gset Z) ⊆ dom (lines m)).
  { intros a Ha. apply elem_of_list_to_set in Ha. specialize (Hs a Ha).
    apply elem_of_dom. unfold line_at in Hs. destruct (lines m !! a); [done|]. simpl in Hs. lia. }
  apply subseteq_size in Hsub. rewrite size_list_to_set in Hsub by done. lia.
Qed.

(** ** Segments of doubly linked lists *)

(** From [hd], whose predecessor is [pv], through the nodes [l], to the last
    node [tl], whose successor is [nx]. *)
Fixpoint seg (m : mem) (pv hd : Z) (l : list Z) (tl nx : Z) : Prop :=
  match l with
  | [] => tl = pv /\ nx = hd
  | a :: l =>
      hd = a /\ a <> 0 /\ accessible m a = true /\ prev (line_at m a) = pv /\
      seg m a (next (line_at m a)) l tl nx
  end.

(** A whole list. *)
Definition dll (m : mem) (head : Z) (l : list Z) : Prop := exists tl, seg m 0 head l tl 0.

Lemma seg_app m pv hd l1 l2 tl nx :
  seg m pv hd (l1 ++ l2) tl nx <-> exists t n, seg m pv hd l1 t n /\ seg m t n l2 tl nx.
Proof.
  revert pv hd. induction l1 as [|a l1 IH]; intros pv hd; cbn [app seg].
  - split; [by exists pv, hd|]. intros (t & n & [-> ->] & ?). done.
  - setoid_rewrite IH. naive_solver.
Qed.

Lemma seg_frame m m' pv hd l tl nx :
  (forall a, a ∈ l -> accessible m' a = accessible m a /\ prev (line_at m' a) = prev (line_at m a) /\
     next (line_at m' a) = next (line_at m a)) ->
  seg m pv hd l tl nx -> seg m' pv hd l tl nx.
Proof.
  revert pv hd. induction l as [|a l IH]; intros pv hd Hf; [done|]. cbn [seg].
  intros (-> & Ha & Hacc & Hp & Hs). destruct (Hf a ltac:(left)) as (E1 & E2 & E3).
  rewrite E1, E2, E3. do 4 (split; [done|]). apply IH; [|done]. intros b Hb. apply Hf. by right.
Qed.

Lemma seg_store m pv hd l tl nx a ln :
  a ∉ l -> seg m pv hd l tl nx -> seg (store m a ln) pv hd l tl nx.
Proof.
  intros Ha. apply seg_frame. intros b Hb. rewrite line_at_store_ne by (intros ->; done). done.
Qed.

Lemma seg_store_data m pv hd l tl nx a ln :
  prev ln = prev (line_at m a) -> next ln = next (line_at m a) ->
  seg m pv hd l tl nx -> seg (store m a ln) pv hd l tl nx.
Proof.
  intros E1 E2. apply seg_frame. intros b Hb. rewrite line_at_store. case_decide as E; [subst b|]; done.
Qed.

Lemma dll_store m head l a ln : a ∉ l -> dll m head l -> dll (store m a ln) head l.
Proof. intros Ha [tl Hs]. exists tl. by apply seg_store. Qed.

Lemma dll_store_data m head l a ln :
  prev ln = prev (line_at m a) -> next ln = next (line_at m a) -> dll m head l -> dll (store m a ln) head l.
Proof. intros ? ? [tl Hs]. exists tl. by apply seg_store_data. Qed.

Lemma seg_last m pv hd l tl nx : seg m pv hd l tl nx -> l = [] /\ tl = pv \/ exists l', l = l' ++ [tl].
Proof.
  revert pv hd. induction l as [|a l IH]; intros pv hd; [left; naive_solver|].
  intros (-> & _ & _ & _ & Hs). right. destruct (IH _ _ Hs) as [[-> ->]|[l' ->]].
  - by exists [].
  - by exists (a :: l').
Qed.

Lemma seg_head m pv hd l tl nx : seg m pv hd l tl nx -> l = [] /\ hd = nx \/ exists l', l = hd :: l'.
Proof. destruct l as [|a l]; [left; naive_solver|]. intros (-> & _). right. by exists l. Qed.

Lemma seg_nonzero m pv hd l tl nx a : seg m pv hd l tl nx -> a ∈ l -> a <> 0 /\ accessible m a = true.
Proof.
  revert pv hd. induction l as [|b l IH]; intros pv hd; [by intros _ ?%not_elem_of_nil|].
  intros (-> & Hb & Hacc & _ & Hs) [->|Hin]%elem_of_cons; [done|by eapply IH].
Qed.

Lemma seg_set_next m pv hd l tl nx nx' :
  NoDup l -> l <> [] -> seg m pv hd l tl nx ->
  seg (store m tl (set_next (line_at m tl) nx')) pv hd l tl nx'.
Proof.
  intros Hnd Hne Hs. destruct (seg_last _ _ _ _ _ _ Hs) as [[-> _]|[l' ->]]; [done|].
  apply NoDup_app in Hnd as (_ & Hdis & _).
  apply seg_app in Hs as (t & n & H1 & (-> & Ha & Hacc & Hp & _ & _)). apply seg_app.
  exists t, tl. split.
  - apply seg_store; [|done]. intros Hin. apply (Hdis tl Hin). left.
  - cbn [seg]. rewrite line_at_store_eq. done.
Qed.

Lemma seg_set_prev m pv pv' b l tl nx :
  b ∉ l -> seg m pv b (b :: l) tl nx ->
  seg (store m b (set_prev (line_at m b) pv')) pv' b (b :: l) tl nx.
Proof.
  intros Hb (_ & Ha & Hacc & _ & Hs). cbn [seg]. rewrite line_at_store_eq. do 4 (split; [done|]).
  cbn [next set_prev]. by apply seg_store.
Qed.

(** Memories that differ only in the links of the nodes in [l]. *)
Definition links_only (m m' : mem) (l : list Z) : Prop :=
  mapped_regions m' = mapped_regions m /\
  (forall a, strip (line_at m' a) = strip (line_at m a)) /\
  (forall a, a ∉ l -> line_at m' a = line_at m a).

Lemma links_only_refl m l : links_only m m l.
Proof. done. Qed.

Lemma links_only_trans m1 m2 m3 l :
  links_only m1 m2 l -> links_only m2 m3 l -> links_only m1 m3 l.
Proof.
  intros (R1 & S1 & E1) (R2 & S2 & E2). split; [congruence|]. split.
  - intros a. by rewrite S2, S1.
  - intros a Ha. by rewrite E2, E1.
Qed.

Lemma links_only_store m a l ln :
  a ∈ l -> strip ln = strip (line_at m a) -> links_only m (store m a ln) l.
Proof.
  intros Ha E. split; [done|]. split; intros b; [|intros Hb]; rewrite line_at_store; case_decide as D; try done.
  - by subst b.
  - by subst b.
Qed.

(** ** Removing a node *)

(** Both orders in which the sources write the two updates. *)
Definition unlinked (m : mem) (head a : Z) : mem * Z :=
  let l := line_at m a in
  let m1 := if prev l =? 0 then m else store m (prev l) (set_next (line_at m (prev l)) (next l)) in
  let m2 := if next l =? 0 then m1 else store m1 (next l) (set_prev (line_at m1 (next l)) (prev l)) in
  (m2, if prev l =? 0 then next l else head).

(** Around a node of a list. *)
Lemma dll_split m head l1 a l2 :
  dll m head (l1 ++ a :: l2) ->
  let p := prev (line_at m a) in let n := next (line_at m a) in
  accessible m a = true /\ a <> 0 /\ seg m 0 head l1 p a /\ (exists tl, seg m a n l2 tl 0) /\
  ((l1 = [] /\ p = 0) \/ (exists l1', l1 = l1' ++ [p] /\ p <> 0 /\ accessible m p = true)) /\
  ((l2 = [] /\ n = 0) \/ (exists l2', l2 = n :: l2' /\ n <> 0 /\ accessible m n = true)).
Proof.
  intros [tl Hs] p n. apply seg_app in Hs as (t & h & H1 & (-> & Ha & Hacc & Hp & H2)).
  assert (Et : t = p) by (unfold p; congruence). rewrite Et in *.
  split; [done|]. split; [done|]. split; [done|]. split; [by exists tl|]. split.
  - destruct (seg_last _ _ _ _ _ _ H1) as [[-> E]|[l' ->]]; [by left|]. right. exists l'.
    split; [done|]. eapply seg_nonzero; [apply H1|]. apply elem_of_app. right. left.
  - destruct (seg_head _ _ _ _ _ _ H2) as [[-> E]|[l' ->]]; [by left|]. right. exists l'.
    split; [done|]. eapply seg_nonzero; [apply H2|]. left.
Qed.

Lemma unlinked_spec m head l1 a l2 :
  dll m head (l1 ++ a :: l2) -> NoDup (l1 ++ a :: l2) ->
  let r := unlinked m head a in
  dll (fst r) (snd r) (l1 ++ l2) /\ links_only m (fst r) (l1 ++ l2).
Proof.
  intros Hd Hnd. destruct (dll_split _ _ _ _ _ Hd) as (Hacc & Ha & H1 & [tl H2] & Hp & Hn).
  apply NoDup_app in Hnd as (Hnd1 & Hdis & (Ha2 & Hnd2)%NoDup_cons). unfold unlinked.
  set (p := prev (line_at m a)) in *. set (n := next (line_at m a)) in *.
  set (m1 := if p =? 0 then m else _). cbn [fst snd].
  assert (S1 : seg m1 0 (if p =? 0 then n else head) l1 p n /\ (exists tl, seg m1 a n l2 tl 0) /\
               links_only m m1 (l1 ++ l2)).
  { unfold m1. destruct Hp as [[-> Ep]|(l1' & E1 & Hp0 & Hpacc)].
    - rewrite Ep. cbn [Z.eqb]. split; [done|]. split; [by exists tl|done].
    - rewrite (proj2 (Z.eqb_neq _ _) Hp0). assert (Hpin : p ∈ l1) by (rewrite E1; apply elem_of_app; right; left).
      split; [apply (seg_set_next m 0 head l1 p a n); [done|by rewrite E1; destruct l1'|done]|].
      split; [exists tl; apply seg_store; [|done]; intros Hin; apply (Hdis p Hpin); by right|].
      apply links_only_store; [apply elem_of_app; by left|done]. }
  destruct S1 as (Hs1 & [tl1 Hs2] & Hlo). destruct Hn as [[-> En]|(l2' & E2 & Hn0 & Hnacc)].
  - rewrite En in *. cbn [Z.eqb]. rewrite app_nil_r in *. split; [by exists p|done].
  - rewrite (proj2 (Z.eqb_neq _ _) Hn0). rewrite E2 in *. split.
    + exists tl1. apply seg_app. exists p, n. split.
      * apply seg_store; [|done]. intros Hin. apply (Hdis n Hin). right. left.
      * apply seg_set_prev with a; [by apply NoDup_cons in Hnd2 as [? _]|done].
    + eapply links_only_trans; [exact Hlo|]. apply links_only_store; [apply elem_of_app; right; left|done].
Qed.

Lemma fix_prev_ok m head a :
  accessible m a = true -> (prev (line_at m a) <> 0 -> accessible m (prev (line_at m a)) = true) ->
  fix_prev m head a = Ok (if prev (line_at m a) =? 0 then m
                          else store m (prev (line_at m a)) (set_next (line_at m (prev (line_at m a))) (next (line_at m a))),
                          if prev (line_at m a) =? 0 then next (line_at m a) else head).
Proof.
  intros Ha Hp. unfold fix_prev. rewrite hget_ok by done. cbn [res_bind].
  destruct (Z.eqb_spec (prev (line_at m a)) 0) as [E|E]; [done|]. cbn [negb]. rewrite hupd_ok by auto. done.
Qed.

Lemma fix_next_ok m a :
  accessible m a = true -> (next (line_at m a) <> 0 -> accessible m (next (line_at m a)) = true) ->
  fix_next m a = Ok (if next (line_at m a) =? 0 then m
                     else store m (next (line_at m a)) (set_prev (line_at m (next (line_at m a))) (prev (line_at m a)))).
Proof.
  intros Ha Hn. unfold fix_next. rewrite hget_ok by done. cbn [res_bind].
  destruct (Z.eqb_spec (next (line_at m a)) 0) as [E|E]; [done|]. cbn [negb]. rewrite hupd_ok by auto. done.
Qed.

(** Neighbours of a node. *)
Lemma dll_neighbours m head l1 a l2 :
  dll m head (l1 ++ a :: l2) -> NoDup (l1 ++ a :: l2) ->
  let p := prev (line_at m a) in let n := next (line_at m a) in
  accessible m a = true /\ (p <> 0 -> accessible m p = true) /\ (n <> 0 -> accessible m n = true) /\
  p <> a /\ n <> a /\ (p <> 0 -> p <> n).
Proof.
  intros Hd Hnd. destruct (dll_split _ _ _ _ _ Hd) as (Hacc & Ha & _ & _ & Hp & Hn). intros p n.
  fold p in Hp. fold n in Hn. split; [done|].
  apply NoDup_app in Hnd as (_ & Hdis & (Ha2 & _)%NoDup_cons).
  destruct Hp as [[_ Ep]|(l1' & E1 & Hp0 & Hpa)], Hn as [[_ En]|(l2' & E2 & Hn0 & Hna)].
  - rewrite Ep, En. repeat split; try done; intros ?; congruence.
  - rewrite Ep. repeat split; try done; try congruence. intros E. apply Ha2. rewrite <- E, E2. left.
  - rewrite En. repeat split; try done; try congruence. intros E. apply (Hdis a); [|left].
    rewrite <- E, E1. apply elem_of_app. right. left.
  - assert (p ∈ l1) by (rewrite E1; apply elem_of_app; right; left).
    assert (n ∈ l2) by (rewrite E2; left). repeat split; try done.
    + intros E. apply (Hdis a); [by rewrite <- E|left].
    + intros E. by rewrite <- E in Ha2.
    + intros _ E. apply (Hdis p); [done|right; by rewrite E].
Qed.

Lemma unlink_prev_next m head l1 a l2 :
  dll m head (l1 ++ a :: l2) -> NoDup (l1 ++ a :: l2) ->
  exists m1 head', fix_prev m head a = Ok (m1, head') /\
    fix_next m1 a = Ok (fst (unlinked m head a)) /\ head' = snd (unlinked m head a).
Proof.
  intros Hd Hnd. destruct (dll_neighbours _ _ _ _ _ Hd Hnd) as (Ha & Hp & Hn & Hpa & Hna & Hpn).
  rewrite fix_prev_ok by done. do 2 eexists. split; [done|]. split; [|done]. unfold unlinked. cbn [fst].
  destruct (Z.eqb_spec (prev (line_at m a)) 0) as [E|E].
  - rewrite fix_next_ok by done. done.
  - rewrite fix_next_ok by (rewrite ?accessible_store, ?line_at_store_ne by done; done).
    by rewrite (line_at_store_ne m (prev (line_at m a)) _ a).
Qed.

Lemma unlink_next_prev m head l1 a l2 :
  dll m head (l1 ++ a :: l2) -> NoDup (l1 ++ a :: l2) ->
  exists m1, fix_next m a = Ok m1 /\ fix_prev m1 head a = Ok (unlinked m head a).
Proof.
  intros Hd Hnd. destruct (dll_neighbours _ _ _ _ _ Hd Hnd) as (Ha & Hp & Hn & Hpa & Hna & Hpn).
  rewrite fix_next_ok by done. eexists. split; [done|]. unfold unlinked.
  destruct (Z.eqb_spec (next (line_at m a)) 0) as [E|E].
  - rewrite fix_prev_ok by done. done.
  - rewrite fix_prev_ok by (rewrite ?accessible_store, ?line_at_store_ne by done; done).
    rewrite (line_at_store_ne m (next (line_at m a)) _ a) by done.
    destruct (Z.eqb_spec (prev (line_at m a)) 0) as [E'|E']; [done|].
    rewrite !line_at_store_ne by (first [done|by apply not_eq_sym, Hpn|by apply Hpn]).
    f_equal. f_equal. unfold store. cbn [lines mapped_regions]. f_equal. apply insert_insert_ne. by apply Hpn.
Qed.

(** ** Adding a node in front *)

Lemma dll_push m head l a ln :
  dll m head l -> a ∉ l -> a <> 0 -> accessible m a = true -> prev ln = 0 -> next ln = head ->
  let m1 := store m a ln in
  let m2 := if head =? 0 then m1 else store m1 head (set_prev (line_at m1 head) a) in
  dll m2 a (a :: l) /\ links_only (store m a ln) m2 l.
Proof.
  intros [tl Hs] Hin Ha Hacc Ep En m1 m2.
  assert (Hs1 : seg m1 0 head l tl 0) by (by apply seg_store).
  assert (E1 : line_at m1 a = ln) by apply line_at_store_eq.
  destruct (seg_head _ _ _ _ _ _ Hs) as [[-> E]|[l' ->]].
  - unfold m2. rewrite E. cbn [Z.eqb]. split; [|done]. exists a. cbn [seg]. rewrite E1, Ep, En, E. done.
  - destruct (seg_nonzero _ _ _ _ _ _ head Hs ltac:(left)) as [Hh0 Hhacc].
    unfold m2. rewrite (proj2 (Z.eqb_neq _ _) Hh0).
    assert (Hne : head <> a) by (intros ->; apply Hin; left). split.
    + exists tl. cbn [seg]. rewrite line_at_store_ne, E1, Ep, En by done. do 4 (split; [done|]).
      destruct (decide (head ∈ l')) as [Hdup|Hnd].
      * exfalso.
        apply list_elem_of_split in Hdup as (l1 & l2 & ->).
        destruct Hs1 as (_ & _ & _ & Hp0 & Hs1). apply seg_app in Hs1 as (t & h & H1 & (-> & _ & _ & Hp1 & _)).
        rewrite Hp0 in Hp1. subst t.
        destruct (seg_last _ _ _ _ _ _ H1) as [[-> E0]|[l1' ->]]; [done|].
        by destruct (seg_nonzero _ _ _ _ _ _ 0 H1 ltac:(apply elem_of_app; right; left)) as [? _].
      * apply (seg_set_prev m1 0 a head l' tl 0 Hnd Hs1).
    + apply links_only_store; [left|done].
Qed.
