(* ===== verification/GlobalAlloc.v ===== *)
(** * The global allocator (class GlobalAlloc of ckpt_alloc.cpp)

    It maps regions of the heap from the kernel and hands out blocks of them
    to the object allocators.  Its free regions form a doubly linked list
    through the free memory itself; released regions are merged with their
    neighbours. *)

From stdpp Require Import base numbers list gmap strings.
From S2P Require Import Prelude Bitmap Heap.

Record galloc := GlobalAlloc {
  ga_mem : mem;           (* the heap and mapped_regions *)
  ga_free_list : Z;
  ga_bitmap : bitmap
}.

Definition with_mem (g : galloc) (m : mem) : galloc := GlobalAlloc m (ga_free_list g) (ga_bitmap g).
Definition with_free_list (g : galloc) (f : Z) : galloc := GlobalAlloc (ga_mem g) f (ga_bitmap g).
Definition with_bitmap (g : galloc) (b : bitmap) : galloc := GlobalAlloc (ga_mem g) (ga_free_list g) b.
Definition with_list (g : galloc) (mf : mem * Z) : galloc := GlobalAlloc (fst mf) (snd mf) (ga_bitmap g).

Section GlobalAlloc.
(** Whether the kernel maps [size] bytes at the address asked for. *)
Variable mmap_at : Z -> Z -> bool.

Definition newBlock (addr size : Z) : bool * (Z * Z) := (mmap_at addr size, (addr, size)).

Definition push_region (m : mem) (r : Z * Z) : mem := Mem (lines m) (mapped_regions m ++ [r]).

(** The constructor without a snapshot. *)
Definition ga_init : res galloc :=
  let (ok, region) := newBlock BaseAddress MinPoolSize in
  assert! ok in
  let m := push_region (Mem ∅ []) region in
  let* m := hupd m (fst region) (fun l => set_size (set_next (set_prev l 0) 0) (snd region)) in
  Ok (GlobalAlloc m (fst region) ∅).

(** [while (ptr == NULL && head != NULL)]: first fit, from the end of the
    region. *)
Fixpoint pool_loop (fuel : nat) (m : mem) (free_list head size0 : Z) : res (mem * Z * option Z) :=
  match fuel with
  | O => NoFuel
  | S fuel =>
      if head =? 0 then Ok (m, free_list, None)
      else
        let* l := hget m head in
        if size l <? size0 then pool_loop fuel m free_list (next l) size0
        else
          let* m := hset m head (set_size l (size l - size0)) in
          let ptr := head + u29 (size l - size0) in
          if u29 (size l - size0) =? 0 then
            let* m := fix_next m head in
            let* (m, free_list) := fix_prev m free_list head in
            Ok (m, free_list, Some ptr)
          else Ok (m, free_list, Some ptr)
  end.

(** [while (allocSize < size) { allocSize *= 2; }] *)
Fixpoint grow (fuel : nat) (allocSize size0 : Z) : res Z :=
  if allocSize <? size0 then
    match fuel with O => NoFuel | S fuel => grow fuel (u64 (allocSize * 2)) size0 end
  else Ok allocSize.

(** [t->prev = NULL; t->next = free_list; t->size = size; ...; free_list = t] *)
Definition push_free (m : mem) (free_list t size0 : Z) : res (mem * Z) :=
  let* m := hupd m t (fun l => set_size (set_next (set_prev l 0) free_list) size0) in
  let* m := if negb (free_list =? 0) then hupd m free_list (fun l => set_prev l t) else Ok m in
  Ok (m, t).

(** The part of [alloc] under the mutex, from the [head] that was read
    before. *)
Definition ga_alloc_locked (head : Z) (g : galloc) (size0 : Z) : res (galloc * Z) :=
  let* (m, f, ptr) := pool_loop (list_fuel (ga_mem g)) (ga_mem g) (ga_free_list g) head size0 in
  let g := with_list g (m, f) in
  match ptr with
  | Some ptr => Ok (g, ptr)
  | None =>
      match list.last (mapped_regions m) with
      | None => Segfault
      | Some last_region =>
          let new_region_va := u64 (fst last_region + snd last_region) in
          let* allocSize := grow 64 MinPoolSize size0 in
          let (ok, new_region) := newBlock new_region_va allocSize in
          assert! ok in
          let m := push_region m new_region in
          let ptr := fst new_region + snd new_region - size0 in
          if 0 <? snd new_region - size0 then
            let* mf := push_free m f (fst new_region) (snd new_region - size0) in
            Ok (with_list g mf, ptr)
          else Ok (with_mem g m, ptr)
      end
  end.

(** [alloc] when [free_list] does not change between the read and the lock. *)
Definition ga_alloc (g : galloc) (size0 : Z) : res (galloc * Z) := ga_alloc_locked (ga_free_list g) g size0.

(** The inner loop of [tryMergingRegions]: the first free region next to [r]. *)
Fixpoint find_neighbour (fuel : nat) (m : mem) (t r : Z) : res (option Z) :=
  match fuel with
  | O => NoFuel
  | S fuel =>
      if t =? 0 then Ok None
      else
        let* c := hget m t in
        if t =? r then find_neighbour fuel m (next c) r
        else
          let* rl := hget m r in
          if negb (t =? r + size rl) && negb (r =? t + size c) then find_neighbour fuel m (next c) r
          else Ok (Some t)
  end.

(** Extends the lower of [c] and [r] over the higher one and unlinks that. *)
Definition merge (m : mem) (free_list c r : Z) : res (mem * Z * Z) :=
  let (c, r) := if r <? c then (r, c) else (c, r) in
  let* rl := hget m r in
  let* m := hupd m c (fun l => set_size l (size l + size rl)) in
  let* (m, free_list) := fix_prev m free_list r in
  let* m := fix_next m r in
  Ok (m, free_list, c).

(** [do { ... } while (couldMerge)] *)
Fixpoint tryMergingRegions (fuel : nat) (m : mem) (free_list r : Z) : res (mem * Z) :=
  match fuel with
  | O => NoFuel
  | S fuel =>
      let* c := find_neighbour (list_fuel m) m free_list r in
      match c with
      | None => Ok (m, free_list)
      | Some c =>
          let* (m, free_list, r) := merge m free_list c r in
          tryMergingRegions fuel m free_list r
      end
  end.

Definition release (g : galloc) (ptr size0 : Z) : res galloc :=
  let* (m, f) := push_free (ga_mem g) (ga_free_list g) ptr size0 in
  let* mf := tryMergingRegions (list_fuel m) m f ptr in
  Ok (with_list g mf).

(** ** Snapshots of the global allocator *)

Definition ga_snapshotSize : Z := 8 + 8 + Z.shiftl (Z.shiftr MinPoolSize 21) 1.

(** [while (f != NULL)] of [save]. *)
Fixpoint save_free (fuel : nat) (m : mem) (f : Z) (nvm : words) (ptr len : Z) : res (words * Z) :=
  match fuel with
  | O => NoFuel
  | S fuel =>
      if f =? 0 then Ok (nvm, len)
      else
        let* l := hget m f in
        save_free fuel m (next l) (wset (wset nvm ptr f) (ptr + 8) (size l)) (ptr + 16) (len + 1)
  end.

Definition ga_save (g : galloc) (nvm : words) (ptr : Z) : res words :=
  let total_allocated := foldr (fun r n => snd r + n) 0 (mapped_regions (ga_mem g)) in
  let* (nvm, len) := save_free (list_fuel (ga_mem g)) (ga_mem g) (ga_free_list g)
                       (wset (wset nvm ptr total_allocated) (ptr + 8) 0) (ptr + 16) 0 in
  Ok (wset nvm (ptr + 8) len).

(** [for (i = 0; i < free_list_length; i++)] of [load]. *)
Fixpoint load_free (n : nat) (m : mem) (free_list prev0 : Z) (nvm : words) (ptr : Z) : res (mem * Z) :=
  match n with
  | O => Ok (m, free_list)
  | S n =>
      let f := wget nvm ptr in
      let* m := hupd m f (fun l => set_size l (wget nvm (ptr + 8))) in
      let* m := if negb (prev0 =? 0) then hupd m prev0 (fun l => set_next l f) else Ok m in
      let* m := hupd m f (fun l => set_next (set_prev l prev0) 0) in
      load_free n m (if prev0 =? 0 then f else free_list) f nvm (ptr + 16)
  end.

(** The constructor with a snapshot: the bitmap is copied, then [load]. *)
Definition ga_load (nvm : words) (ptr bitmap_ptr : Z) : res galloc :=
  let (ok, region) := newBlock BaseAddress (wget nvm ptr) in
  assert! ok in
  let* mf := load_free (Z.to_nat (wget nvm (ptr + 8))) (push_region (Mem ∅ []) region) 0 0 nvm (ptr + 16) in
  Ok (GlobalAlloc (fst mf) (snd mf) (loadBitmap ∅ nvm bitmap_ptr)).

Definition allocatedBlocks (g : galloc) : res Z :=
  match list.last (mapped_regions (ga_mem g)) with
  | None => Segfault
  | Some last_region => Ok (u64 (fst last_region - BaseAddress + snd last_region) / BlockSize)
  end.

End GlobalAlloc.
