(* ===== verification/GlobalAllocProofs.v ===== *)
(** * Correctness of the global allocator

    The allocator promises its clients disjoint blocks: what it hands out
    was free or is newly mapped, stays out of the free list until it is
    released, and no memory that is in use is ever written.  The invariant
    [ga_inv] describes the free list in memory by the addresses of its
    nodes; [free_at] is the set of free addresses, the abstract state. *)

From stdpp Require Import base numbers list gmap.
From S2P Require Import Prelude Bitmap Heap GlobalAlloc.

(** ** Mapped memory *)

(** Regions follow each other from [start] on. *)
Fixpoint contiguous (start : Z) (rs : list (Z * Z)) : Prop :=
  match rs with
  | [] => True
  | (p, s) :: rs => p = start /\ 0 < s /\ s mod BlockSize = 0 /\ contiguous (start + s) rs
  end.

Definition span (rs : list (Z * Z)) : Z := foldr (fun r n => snd r + n) 0 rs.
Definition heap_end (m : mem) : Z := BaseAddress + span (mapped_regions m).

(** The heap: mapped from [BaseAddress] on, within 1 TB. *)
Record heap_ok (m : mem) : Prop := {
  ho_regions : contiguous BaseAddress (mapped_regions m);
  ho_some : mapped_regions m <> [];
  ho_max : heap_end m <= BaseAddress + MaxMemorySize
}.

Lemma span_app rs1 rs2 : span (rs1 ++ rs2) = span rs1 + span rs2.
Proof. induction rs1 as [|r rs1 IH]; simpl; [done|]. rewrite IH. lia. Qed.

Lemma contiguous_app start rs1 rs2 :
  contiguous start (rs1 ++ rs2) <-> contiguous start rs1 /\ contiguous (start + span rs1) rs2.
Proof.
  revert start. induction rs1 as [|[p s] rs1 IH]; intros start; cbn [app contiguous span foldr snd].
  - rewrite Z.add_0_r. tauto.
  - rewrite IH. fold (span rs1). rewrite Z.add_assoc. tauto.
Qed.

Lemma contiguous_span start rs : contiguous start rs -> 0 <= span rs /\ span rs mod BlockSize = 0.
Proof.
  revert start. induction rs as [|[p s] rs IH]; intros start; [done|].
  cbn [contiguous]. change (span ((p, s) :: rs)) with (s + span rs).
  intros (_ & Hs & Hmod & Hc). destruct (IH _ Hc). change BlockSize with 2097152 in *. split; [lia|dlia].
Qed.

Lemma contiguous_mapped start rs a :
  contiguous start rs -> existsb (in_region a) rs = (start <=? a) && (a <? start + span rs).
Proof.
  revert start. induction rs as [|[p s] rs IH]; intros start; cbn [contiguous existsb].
  - intros _. change (span []) with 0. destruct (Z.leb_spec start a), (Z.ltb_spec a (start + 0)); simpl; try done; lia.
  - intros (-> & Hs & _ & Hc). rewrite (IH _ Hc). pose proof (contiguous_span _ _ Hc) as [? _].
    change (span ((start, s) :: rs)) with (s + span rs). unfold in_region. cbn [fst snd].
    destruct (Z.leb_spec start a), (Z.ltb_spec a (start + s)), (Z.leb_spec (start + s) a),
      (Z.ltb_spec a (start + s + span rs)), (Z.ltb_spec a (start + (s + span rs))); simpl; try done; lia.
Qed.

Lemma accessible_heap m a :
  heap_ok m -> BaseAddress <= a < heap_end m -> a mod 64 = 0 -> accessible m a = true.
Proof.
  intros [Hc _ _] Ha Hal. unfold accessible, mapped. rewrite (contiguous_mapped _ _ _ Hc).
  unfold heap_end in Ha. rewrite (proj2 (Z.leb_le _ _)), (proj2 (Z.ltb_lt _ _)), Hal by lia. done.
Qed.

Lemma heap_end_aligned m : heap_ok m -> heap_end m mod BlockSize = 0 /\ BaseAddress <= heap_end m.
Proof.
  intros [Hc _ _]. destruct (contiguous_span _ _ Hc) as [? Hmod]. unfold heap_end.
  change BlockSize with 2097152 in *. change BaseAddress with 1099511627776. split; [dlia|lia].
Qed.

Lemma heap_ok_regions m m' : mapped_regions m' = mapped_regions m -> heap_ok m -> heap_ok m'.
Proof. intros E []. constructor; unfold heap_end in *; by rewrite ?E. Qed.

Lemma block_aligned a : a mod BlockSize = 0 -> a mod 64 = 0.
Proof. change BlockSize with 2097152. dlia. Qed.

(** ** Free lists of regions *)

Definition size_at (m : mem) (a : Z) : Z := size (line_at m a).

Record nodes_ok (m : mem) (l : list Z) : Prop := {
  no_nodup : NoDup l;
  no_aligned : forall a, a ∈ l -> a mod BlockSize = 0 /\ size_at m a mod BlockSize = 0;
  no_bounds : forall a, a ∈ l -> BaseAddress <= a /\ 0 < size_at m a < 2 ^ 29 /\ a + size_at m a <= heap_end m;
  no_disjoint : forall a b, a ∈ l -> b ∈ l -> a <> b -> a + size_at m a <= b \/ b + size_at m b <= a
}.

Record list_inv (m : mem) (f : Z) (l : list Z) : Prop := {
  li_heap : heap_ok m;
  li_dll : dll m f l;
  li_nodes : nodes_ok m l
}.

Definition free_at (m : mem) (l : list Z) (x : Z) : Prop := exists a, a ∈ l /\ a <= x < a + size_at m a.

Definition ga_inv (g : galloc) (l : list Z) : Prop := list_inv (ga_mem g) (ga_free_list g) l.

(** Nodes are lines that were written, so a list is never longer than the
    fuel of the loops. *)
Lemma nodes_fuel m l : nodes_ok m l -> (length l < list_fuel m)%nat.
Proof.
  intros [Hnd _ Hb _]. apply list_fuel_bound; [done|]. intros a Ha. by destruct (Hb a Ha) as (_ & [? _] & _).
Qed.

Lemma node_accessible m l a : heap_ok m -> nodes_ok m l -> a ∈ l -> accessible m a = true.
Proof.
  intros Hh [_ Hal Hb _] Ha. destruct (Hal a Ha) as [? _], (Hb a Ha) as (? & [? _] & ?).
  apply accessible_heap; [done|lia|by apply block_aligned].
Qed.

(** The lines of a memory outside the free regions. *)
Definition in_use_kept (m m' : mem) (l : list Z) : Prop :=
  forall x, ~ free_at m l x -> line_at m' x = line_at m x.

Lemma node_free m l a : nodes_ok m l -> a ∈ l -> free_at m l a.
Proof. intros [_ _ Hb _] Ha. exists a. split; [done|]. destruct (Hb a Ha) as (_ & [? _] & _). lia. Qed.

(** Changing links only keeps the free set. *)
Lemma links_sizes m m' l a : links_only m m' l -> size_at m' a = size_at m a.
Proof. intros (_ & Hs & _). unfold size_at. apply strip_size, Hs. Qed.

Lemma nodes_ok_links m m' l l' :
  links_only m m' l' -> nodes_ok m l -> nodes_ok m' l.
Proof.
  intros Hlo [Hnd Hal Hb Hd]. pose proof (links_sizes m m' l') as Hsz.
  assert (He : heap_end m' = heap_end m) by (unfold heap_end; by rewrite (proj1 Hlo)).
  constructor; [done|..]; intros a; [| |intros b]; rewrite ?(Hsz _ Hlo), ?He; auto.
Qed.

Lemma nodes_ok_sub m l l' : nodes_ok m l -> NoDup l' -> (forall a, a ∈ l' -> a ∈ l) -> nodes_ok m l'.
Proof. intros [Hnd Hal Hb Hd] Hnd' Hsub. constructor; auto. Qed.

Lemma nodes_ok_keep m m' l l' :
  nodes_ok m l -> NoDup l' -> heap_end m' = heap_end m ->
  (forall b, b ∈ l' -> b ∈ l /\ size_at m' b = size_at m b) -> nodes_ok m' l'.
Proof.
  intros [Hnd Hal Hb Hd] Hnd' He Hk. constructor; [done|..].
  - intros a Ha. destruct (Hk a Ha) as [? ->]. auto.
  - intros a Ha. destruct (Hk a Ha) as [? ->]. rewrite He. auto.
  - intros a b Ha Hb'. destruct (Hk a Ha) as [? ->], (Hk b Hb') as [? ->]. auto.
Qed.

(** ** Allocation from the pool *)

Definition list_head (l : list Z) : Z := match l with [] => 0 | a :: _ => a end.

Lemma dll_next m f l1 a l2 : dll m f (l1 ++ a :: l2) -> next (line_at m a) = list_head l2.
Proof.
  intros Hd. destruct (dll_split _ _ _ _ _ Hd) as (_ & _ & _ & _ & _ & [[-> ->]|(l2' & -> & _ & _)]); [done|].
  by destruct l2'.
Qed.

Lemma dll_head m f l : dll m f l -> f = list_head l.
Proof. intros [tl Hs]. destruct (seg_head _ _ _ _ _ _ Hs) as [[-> ->]|[l' ->]]; done. Qed.

Lemma NoDup_middle (l1 l2 : list Z) a :
  NoDup (l1 ++ a :: l2) -> NoDup (l1 ++ l2) /\ a ∉ l1 ++ l2.
Proof.
  intros Hnd. rewrite <- Permutation_middle in Hnd. by apply NoDup_cons in Hnd as [? ?].
Qed.

Lemma elem_middle (l1 l2 : list Z) a b : b ∈ l1 ++ a :: l2 <-> b = a \/ b ∈ l1 ++ l2.
Proof. rewrite !elem_of_app, elem_of_cons. tauto. Qed.

Lemma free_at_split m l1 a l2 x :
  free_at m (l1 ++ a :: l2) x <-> a <= x < a + size_at m a \/ free_at m (l1 ++ l2) x.
Proof.
  unfold free_at. setoid_rewrite elem_middle. split.
  - intros (b & [->|Hb] & Hx); [by left|right; by exists b].
  - intros [Hx|(b & Hb & Hx)]; [exists a; auto|exists b; auto].
Qed.

Lemma free_at_ext m m' l x : (forall a, a ∈ l -> size_at m' a = size_at m a) -> free_at m' l x <-> free_at m l x.
Proof.
  intros He. unfold free_at. split; intros (a & Ha & Hx); exists a; split; try done;
    [by rewrite <- He|by rewrite He].
Qed.

(** What is handed out of the pool: the end of a free region. *)
Definition pool_result (m : mem) (l : list Z) (sz : Z) (m' : mem) (f' ptr : Z) : Prop :=
  exists l', list_inv m' f' l' /\ mapped_regions m' = mapped_regions m /\ ptr mod BlockSize = 0 /\
    (forall x, ptr <= x < ptr + sz -> free_at m l x) /\
    (forall x, free_at m' l' x <-> free_at m l x /\ ~ ptr <= x < ptr + sz) /\
    in_use_kept m m' l.

(** The region [a] loses its last [sz] bytes. *)
Lemma take_end_spec m f l1 a l2 sz :
  list_inv m f (l1 ++ a :: l2) -> 0 < sz < size_at m a -> sz mod BlockSize = 0 ->
  pool_result m (l1 ++ a :: l2) sz (store m a (set_size (line_at m a) (size_at m a - sz))) f (a + (size_at m a - sz)).
Proof.
  intros [Hh Hd Hn] Hsz Hmod. set (m' := store _ _ _). destruct (NoDup_middle _ _ _ (no_nodup _ _ Hn)) as [Hnd Hna].
  destruct (no_aligned _ _ Hn a) as [Hal Hals]; [apply elem_middle; by left|].
  destruct (no_bounds _ _ Hn a) as (Hlo & Hrange & Hhi); [apply elem_middle; by left|].
  assert (Hsa : size_at m' a = size_at m a - sz).
  { unfold size_at, m'. rewrite line_at_store_eq. cbn [size set_size]. rewrite u29_small; [done|lia]. }
  assert (Hsb : forall b, b <> a -> size_at m' b = size_at m b).
  { intros b Hb. unfold size_at, m'. by rewrite line_at_store_ne. }
  assert (Hfree : forall x, free_at m' (l1 ++ a :: l2) x <->
            free_at m (l1 ++ a :: l2) x /\ ~ a + (size_at m a - sz) <= x < a + (size_at m a - sz) + sz).
  { intros x. rewrite !free_at_split, Hsa.
    rewrite (free_at_ext m m' (l1 ++ l2)) by (intros b Hb; apply Hsb; intros ->; done).
    split; [|intros [[?|?] ?]; [left; lia|by right]].
    intros [?|(b & Hb & Hx)]; [split; [left|]; lia|]. split; [right; by exists b|].
    destruct (no_disjoint _ _ Hn a b) as [?|?]; [apply elem_middle; by left|apply elem_middle; by right|
      intros ->; done|lia|lia]. }
  exists (l1 ++ a :: l2). split.
  { constructor; [by apply (heap_ok_regions m)|by apply dll_store_data|].
    destruct Hn as [Hnd' Hal' Hb' Hd']. constructor; [done|..].
    - intros b Hb. destruct (decide (b = a)) as [->|Hne]; [|rewrite Hsb by done; auto].
      rewrite Hsa. split; [done|]. change BlockSize with 2097152 in *. dlia.
    - intros b Hb. change (heap_end m') with (heap_end m). destruct (decide (b = a)) as [->|Hne];
        [rewrite Hsa; lia|rewrite Hsb by done; auto].
    - intros b c Hb Hc Hne. destruct (Hd' b c Hb Hc Hne) as [?|?];
        destruct (decide (b = a)) as [->|], (decide (c = a)) as [->|]; rewrite ?Hsa, ?Hsb by done; lia. }
  split; [done|]. split; [change BlockSize with 2097152 in *; dlia|]. split.
  { intros x Hx. apply free_at_split. left. lia. }
  split; [exact Hfree|]. intros x Hx. unfold m'. rewrite line_at_store_ne; [done|].
  intros ->. apply Hx. apply node_free; [done|]. apply elem_middle. by left.
Qed.

(** The region [a] is handed out as a whole. *)
Lemma take_whole_spec m f l1 a l2 :
  list_inv m f (l1 ++ a :: l2) ->
  let m1 := store m a (set_size (line_at m a) 0) in
  exists m2, fix_next m1 a = Ok m2 /\ fix_prev m2 f a = Ok (unlinked m1 f a) /\
    pool_result m (l1 ++ a :: l2) (size_at m a) (fst (unlinked m1 f a)) (snd (unlinked m1 f a)) a.
Proof.
  intros [Hh Hd Hn] m1. destruct (NoDup_middle _ _ _ (no_nodup _ _ Hn)) as [Hnd Hna].
  assert (Hd1 : dll m1 f (l1 ++ a :: l2)) by (by apply dll_store_data).
  destruct (unlink_next_prev _ _ _ _ _ Hd1 (no_nodup _ _ Hn)) as (m2 & E2 & E3). exists m2. do 2 (split; [done|]).
  destruct (unlinked_spec _ _ _ _ _ Hd1 (no_nodup _ _ Hn)) as [Hd2 Hlo]. set (m' := fst (unlinked m1 f a)) in *.
  assert (Hreg : mapped_regions m' = mapped_regions m) by (by rewrite (proj1 Hlo)).
  assert (Hsz : forall b, b ∈ l1 ++ l2 -> size_at m' b = size_at m b).
  { intros b Hb. rewrite (links_sizes _ _ _ b Hlo). unfold size_at, m1. rewrite line_at_store_ne; [done|].
    intros ->. done. }
  assert (He : heap_end m' = heap_end m) by (unfold heap_end; by rewrite Hreg).
  exists (l1 ++ l2). split.
  { constructor; [by apply (heap_ok_regions m)|done|]. apply (nodes_ok_keep m m' (l1 ++ a :: l2)); [done..|].
    intros b Hb. split; [apply elem_middle; by right|by apply Hsz]. }
  split; [done|]. split; [apply (no_aligned _ _ Hn); apply elem_middle; by left|].
  split; [intros x Hx; apply free_at_split; by left|]. split.
  - intros x. rewrite free_at_split, (free_at_ext m m') by apply Hsz.
    split; [|tauto]. intros (b & Hb & Hx). split; [right; by exists b|].
    destruct (no_disjoint _ _ Hn a b) as [?|?]; [apply elem_middle; by left|apply elem_middle; by right|
      intros ->; done|lia|lia].
  - intros x Hx. destruct Hlo as (_ & _ & Hlo). rewrite Hlo.
    + unfold m1. rewrite line_at_store_ne; [done|]. intros ->. apply Hx, node_free; [done|]. apply elem_middle. by left.
    + intros Hin. apply Hx, node_free; [done|]. apply elem_middle. by right.
Qed.

Lemma pool_loop_spec fuel m f l1 l2 sz :
  list_inv m f (l1 ++ l2) -> (length l2 < fuel)%nat -> 0 < sz -> sz mod BlockSize = 0 ->
  (pool_loop fuel m f (list_head l2) sz = Ok (m, f, None) /\ forall a, a ∈ l2 -> size_at m a < sz) \/
  exists m' f' ptr, pool_loop fuel m f (list_head l2) sz = Ok (m', f', Some ptr) /\
    pool_result m (l1 ++ l2) sz m' f' ptr.
Proof.
  revert l1 fuel. induction l2 as [|a l2 IH]; intros l1 fuel Hinv Hf Hpos Hmod;
    (destruct fuel as [|fuel]; [simpl in Hf; lia|]); cbn [pool_loop list_head].
  - left. split; [done|]. intros a Ha. by apply elem_of_nil in Ha.
  - destruct Hinv as [Hh Hd Hn]. assert (Hin : a ∈ l1 ++ a :: l2) by (apply elem_middle; by left).
    destruct (no_bounds _ _ Hn a Hin) as (Hlo & Hrange & Hhi).
    rewrite (proj2 (Z.eqb_neq a 0)) by (unfold BaseAddress in Hlo; lia).
    rewrite hget_ok by (by apply (node_accessible m (l1 ++ a :: l2))). cbn [res_bind]. fold (size_at m a).
    destruct (Z.ltb_spec (size_at m a) sz) as [Hlt|Hge].
    + rewrite (dll_next m f l1 a l2 Hd).
      assert (Happ : l1 ++ a :: l2 = (l1 ++ [a]) ++ l2) by (by rewrite <- app_assoc).
      rewrite Happ in *. destruct (IH (l1 ++ [a]) fuel) as [[E Hall]|Hr]; [done|simpl in Hf; lia|done|done| |by right].
      left. split; [done|]. intros b [->|Hb]%elem_of_cons; auto.
    + right. rewrite hset_ok by (by apply (node_accessible m (l1 ++ a :: l2))). cbn [res_bind].
      rewrite u29_small by lia. destruct (Z.eqb_spec (size_at m a - sz) 0) as [E|E].
      * replace (size_at m a - sz) with 0 by lia. assert (Esz : sz = size_at m a) by lia.
        destruct (take_whole_spec m f l1 a l2) as (m2 & E2 & E3 & Hr); [done|].
        rewrite E2. cbn [res_bind]. rewrite E3. cbn [res_bind]. destruct (unlinked _ _ _) as [m' f'].
        exists m', f', (a + 0). split; [done|]. by rewrite Z.add_0_r, Esz.
      * eexists _, f, _. split; [done|]. apply take_end_spec; [done|lia|done].
Qed.

(** ** Adding a region to the list *)

Lemma push_free_spec m f l a s :
  list_inv m f l -> a mod BlockSize = 0 -> s mod BlockSize = 0 -> 0 < s < 2 ^ 29 ->
  BaseAddress <= a -> a + s <= heap_end m ->
  (forall b, b ∈ l -> a + s <= b \/ b + size_at m b <= a) ->
  exists m', push_free m f a s = Ok (m', a) /\ list_inv m' a (a :: l) /\
    mapped_regions m' = mapped_regions m /\
    size_at m' a = s /\ (forall b, b ∈ l -> size_at m' b = size_at m b) /\
    (forall x, x <> a -> ~ free_at m l x -> line_at m' x = line_at m x).
Proof.
  intros [Hh Hd Hn] Hal Hals Hs Hlo Hhi Hdis.
  assert (Hacc : accessible m a = true) by (apply accessible_heap; [done|lia|by apply block_aligned]).
  assert (Hni : a ∉ l).
  { intros Hin. destruct (Hdis a Hin); [lia|]. destruct (no_bounds _ _ Hn a Hin) as (_ & ? & _). lia. }
  unfold push_free. rewrite hupd_ok by done. cbn [res_bind].
  set (ln := set_size _ s). set (m1 := store m a ln).
  destruct (dll_push m f l a ln Hd Hni) as [Hd2 Hlo2]; [unfold BaseAddress in Hlo; lia|done..|].
  set (m2 := if f =? 0 then store m a ln else _) in *.
  assert (E : (if negb (f =? 0) then hupd m1 f (fun l => set_prev l a) else Ok m1) = Ok m2).
  { unfold m2. destruct (Z.eqb_spec f 0) as [|Hf]; [done|]. cbn [negb]. rewrite hupd_ok; [done|].
    unfold m1. rewrite accessible_store. pose proof (dll_head _ _ _ Hd) as Ef.
    destruct l as [|b l]; [simpl in Ef; lia|]. simpl in Ef. subst f.
    apply (node_accessible m (b :: l)); [done|done|left]. }
  rewrite E. cbn [res_bind]. exists m2. split; [done|].
  assert (Hreg : mapped_regions m2 = mapped_regions m) by (by rewrite (proj1 Hlo2)).
  assert (Hsa : size_at m2 a = s).
  { rewrite (links_sizes _ _ _ a Hlo2). unfold size_at. rewrite line_at_store_eq. unfold ln. cbn [size set_size].
    by apply u29_small; lia. }
  assert (Hsb : forall b, b ∈ l -> size_at m2 b = size_at m b).
  { intros b Hb. rewrite (links_sizes _ _ _ b Hlo2). unfold size_at. rewrite line_at_store_ne; [done|]. by intros ->. }
  assert (He : heap_end m2 = heap_end m) by (unfold heap_end; by rewrite Hreg).
  split; [|split; [done|split; [done|split; [done|]]]].
  - constructor; [by apply (heap_ok_regions m)|done|]. destruct Hn as [Hnd Hal' Hb' Hd']. constructor.
    + by constructor.
    + intros b [->|Hb]%elem_of_cons; [by rewrite Hsa|]. rewrite Hsb by done. auto.
    + intros b [->|Hb]%elem_of_cons; rewrite He; [rewrite Hsa; lia|]. rewrite Hsb by done. auto.
    + intros b c Hb Hc Hne. apply elem_of_cons in Hb, Hc. destruct Hb as [->|Hb], Hc as [->|Hc]; [done|..];
        rewrite ?Hsa, ?Hsb by done; [apply Hdis; done|destruct (Hdis b Hb); lia|by apply Hd'].
  - intros x Hx Hfr. destruct Hlo2 as (_ & _ & Hlo2). rewrite Hlo2.
    + by rewrite line_at_store_ne.
    + intros Hin. by apply Hfr, node_free.
Qed.

Lemma free_at_cons m m' a s l x :
  size_at m' a = s -> (forall b, b ∈ l -> size_at m' b = size_at m b) ->
  free_at m' (a :: l) x <-> a <= x < a + s \/ free_at m l x.
Proof.
  intros Ha Hb. rewrite <- (free_at_ext m m' l x Hb). unfold free_at. setoid_rewrite elem_of_cons. split.
  - intros (b & [->|Hin] & Hx); [left; by rewrite <- Ha|right; by exists b].
  - intros [Hx|(b & Hin & Hx)]; [exists a; rewrite Ha; auto|exists b; auto].
Qed.

(** ** Allocation *)

Lemma contiguous_last start rs :
  contiguous start rs -> rs <> [] -> exists p s, list.last rs = Some (p, s) /\ p + s = start + span rs.
Proof.
  revert start. induction rs as [|[p s] rs IH]; intros start; [done|]. intros (-> & Hs & _ & Hc) _.
  change (span ((start, s) :: rs)) with (s + span rs).
  destruct rs as [|r rs]; [exists start, s; split; [done|]; change (span []) with 0; lia|].
  destruct (IH _ Hc ltac:(done)) as (p' & s' & E & Esum). exists p', s'. rewrite last_cons_cons. split; [done|lia].
Qed.

Definition region_size (sz : Z) : Z := if sz <=? MinPoolSize then MinPoolSize else 2 * MinPoolSize.

Lemma grow_spec sz : 0 < sz < 2 ^ 29 -> grow 64 MinPoolSize sz = Ok (region_size sz) /\
  sz <= region_size sz /\ region_size sz mod BlockSize = 0 /\ region_size sz - sz < 2 ^ 29.
Proof.
  intros Hsz. unfold region_size. change MinPoolSize with 268435456 in *. change BlockSize with 2097152.
  change (2 ^ 29) with 536870912 in *.
  assert (Hgrow : forall n a, grow (S n) a sz = if a <? sz then grow n (u64 (a * 2)) sz else Ok a) by done.
  destruct (Z.leb_spec sz 268435456) as [Hle|Hgt]; rewrite Hgrow.
  - rewrite (proj2 (Z.ltb_ge _ _)) by lia. split; [done|]. split; [lia|]. split; [done|lia].
  - rewrite (proj2 (Z.ltb_lt _ _)) by lia. change (u64 (268435456 * 2)) with 536870912. rewrite Hgrow.
    rewrite (proj2 (Z.ltb_ge _ _)) by lia. split; [done|]. split; [lia|]. split; [done|lia].
Qed.

Lemma push_region_inv m f l s :
  list_inv m f l -> 0 < s -> s mod BlockSize = 0 -> heap_end m + s <= BaseAddress + MaxMemorySize ->
  let m' := push_region m (heap_end m, s) in
  list_inv m' f l /\ heap_end m' = heap_end m + s.
Proof.
  intros [[Hc Hne Hmax] Hd Hn] Hs Hmod Hle m'.
  assert (He : heap_end m' = heap_end m + s).
  { unfold heap_end at 1. unfold m'. cbn [mapped_regions push_region]. rewrite span_app.
    unfold span at 2. cbn [foldr snd]. unfold heap_end. lia. }
  assert (Hh : heap_ok m').
  { constructor.
    - unfold m'. cbn [mapped_regions push_region]. apply contiguous_app. split; [done|]. simpl. auto.
    - unfold m'. simpl. by destruct (mapped_regions m).
    - lia. }
  assert (Hn' : nodes_ok m' l).
  { destruct Hn as [Hnd Hal Hb Hd']. constructor; [done|done| |done].
    intros a Ha. change (size_at m' a) with (size_at m a). destruct (Hb a Ha) as (? & ? & ?). lia. }
  split; [|done]. constructor; [done| |done]. destruct Hd as [tl Hs']. exists tl.
  apply (seg_frame m); [|done]. intros a Ha.
  split; [|done]. rewrite (node_accessible m' l) by done. symmetry.
  apply (node_accessible m l); [by constructor|done|done].
Qed.

Section Alloc.
Variable mmap_at : Z -> Z -> bool.
(** The kernel does not map over the region of the object allocators, which
    begins at the end of the heap's address range. *)
Hypothesis mmap_below : forall a s, mmap_at a s = true -> a + s <= BaseAddress + MaxMemorySize.

(** What [alloc] guarantees: the block comes from free or new memory, and
    everything else is as it was. *)
Record ga_alloc_post (g : galloc) (l : list Z) (sz : Z) (g' : galloc) (ptr : Z) (l' : list Z) : Prop := {
  gp_inv : ga_inv g' l';
  gp_bitmap : ga_bitmap g' = ga_bitmap g;
  gp_aligned : ptr mod BlockSize = 0;
  gp_was_free : forall x, ptr <= x < ptr + sz -> free_at (ga_mem g) l x \/ heap_end (ga_mem g) <= x;
  gp_free : forall x, free_at (ga_mem g') l' x <->
    (free_at (ga_mem g) l x \/ heap_end (ga_mem g) <= x < heap_end (ga_mem g')) /\ ~ ptr <= x < ptr + sz;
  gp_low : BaseAddress <= ptr;
  gp_high : ptr + sz <= heap_end (ga_mem g');
  gp_grows : heap_end (ga_mem g) <= heap_end (ga_mem g');
  gp_lines : forall x, x < heap_end (ga_mem g) -> ~ free_at (ga_mem g) l x ->
    line_at (ga_mem g') x = line_at (ga_mem g) x
}.

Lemma free_bound g l x : ga_inv g l -> free_at (ga_mem g) l x -> BaseAddress <= x < heap_end (ga_mem g).
Proof.
  intros Hinv (a & Ha & Hx). destruct (no_bounds _ _ (li_nodes _ _ _ Hinv) a Ha) as (? & _ & ?). lia.
Qed.

(** The request is served from a new region of [r] bytes: its end is
    returned, the rest becomes a free block. *)
Section NewRegion.
Context (g : galloc) (l : list Z) (sz r : Z).
Hypothesis Hinv : ga_inv g l.
Hypothesis Hsz : 0 < sz <= r.
Hypothesis Hmod : sz mod BlockSize = 0.
Hypothesis Hrmod : r mod BlockSize = 0.
Hypothesis Hrest : r - sz < 2 ^ 29.
Hypothesis Hmax : heap_end (ga_mem g) + r <= BaseAddress + MaxMemorySize.

Let a : Z := heap_end (ga_mem g).
Let m1 : mem := push_region (ga_mem g) (a, r).

Lemma new_region_exact : r = sz -> ga_alloc_post g l sz (with_mem g m1) (a + r - sz) l.
Proof.
  intros Heq. destruct (push_region_inv _ _ _ r Hinv) as [Hinv1 He1]; [lia|done|done|].
  destruct (heap_end_aligned _ (li_heap _ _ _ Hinv)) as [Hal Hge]. fold a m1 in Hinv1, He1, Hal, Hge. rewrite Heq.
  assert (He : heap_end m1 = a + sz) by (by rewrite He1, Heq).
  replace (a + sz - sz) with a by lia. constructor; cbn [ga_mem with_mem]; fold a; rewrite ?He; try done; try lia.
  - intros x. change (free_at m1 l x) with (free_at (ga_mem g) l x). split; [|intros [[?|?] ?]; [done|unfold a in *; lia]].
    intros Hfr. split; [by left|]. apply (free_bound _ _ _ Hinv) in Hfr. fold a in Hfr. lia.
Qed.

Lemma new_region_rest :
  0 < r - sz ->
  exists mf, push_free m1 (ga_free_list g) a (r - sz) = Ok mf /\
    ga_alloc_post g l sz (with_list g mf) (a + r - sz) (a :: l).
Proof.
  intros Hlt. destruct (push_region_inv _ _ _ r Hinv) as [Hinv1 He1]; [lia|done|done|].
  destruct (heap_end_aligned _ (li_heap _ _ _ Hinv)) as [Hal Hge]. fold a m1 in Hinv1, He1, Hal, Hge.
  destruct (push_free_spec m1 (ga_free_list g) l a (r - sz)) as (m2 & E & Hinv2 & Hreg & Hsa & Hsb & Hline);
    [done|done|change BlockSize with 2097152 in *; dlia|lia|done|lia| |].
  { intros b Hb. right. apply (no_bounds _ _ (li_nodes _ _ _ Hinv) b Hb). }
  exists (m2, a). split; [done|]. assert (He2 : heap_end m2 = a + r) by (rewrite <- He1; unfold heap_end; by rewrite Hreg).
  constructor; cbn [ga_mem with_list fst snd]; fold a; rewrite ?He2; try done; try lia.
  - change BlockSize with 2097152 in *. dlia.
  - intros x. rewrite (free_at_cons m1 m2 _ _ l x Hsa Hsb). change (free_at m1 l x) with (free_at (ga_mem g) l x).
    split; [|intros [[?|?] ?]; [by right|left; lia]].
    intros [?|Hfr]; [split; [right|]; lia|]. split; [by left|]. apply (free_bound _ _ _ Hinv) in Hfr. fold a in Hfr. lia.
  - intros x Hx Hfr. apply (Hline x); [lia|done].
Qed.

End NewRegion.

Lemma ga_alloc_spec g l sz :
  ga_inv g l -> 0 < sz < 2 ^ 29 -> sz mod BlockSize = 0 ->
  (ga_alloc mmap_at g sz = AssertFail /\ mmap_at (heap_end (ga_mem g)) (region_size sz) = false /\
     forall a, a ∈ l -> size_at (ga_mem g) a < sz) \/
  exists g' ptr l', ga_alloc mmap_at g sz = Ok (g', ptr) /\ ga_alloc_post g l sz g' ptr l'.
Proof.
  intros Hinv Hsz Hmod. unfold ga_alloc, ga_alloc_locked.
  assert (Hf : ga_free_list g = list_head l) by (eapply dll_head, li_dll, Hinv).
  pose proof (nodes_fuel _ _ (li_nodes _ _ _ Hinv)) as Hfuel.
  destruct (pool_loop_spec (list_fuel (ga_mem g)) (ga_mem g) (ga_free_list g) [] l sz) as [[E Hsmall]|(m' & f' & ptr & E & Hr)];
    [done|done|lia|done|..]; rewrite <- Hf in E; rewrite E; cbn [res_bind].
  - destruct (contiguous_last _ _ (ho_regions _ (li_heap _ _ _ Hinv)) (ho_some _ (li_heap _ _ _ Hinv)))
      as (p & s & Elast & Eend). rewrite Elast. cbn [fst snd].
    fold (heap_end (ga_mem g)) in Eend. rewrite Eend.
    pose proof (ho_max _ (li_heap _ _ _ Hinv)) as Hmax. destruct (heap_end_aligned _ (li_heap _ _ _ Hinv)) as [Hal Hge].
    rewrite u64_id by (unfold is_u64, BaseAddress, MaxMemorySize in *; lia).
    destruct (grow_spec sz Hsz) as (-> & Hle & Hrmod & Hrest). cbn [res_bind newBlock].
    destruct (mmap_at (heap_end (ga_mem g)) (region_size sz)) eqn:Em; [|by left]. right. cbn [fst snd].
    pose proof (mmap_below _ _ Em) as Hbel. destruct (Z.ltb_spec 0 (region_size sz - sz)) as [Hlt|Hz].
    + destruct (new_region_rest g l sz (region_size sz)) as (mf & Ef & Hp); [done|lia|done|done|lia|done|done|].
      change (ga_free_list (with_list g (ga_mem g, ga_free_list g))) with (ga_free_list g). rewrite Ef. cbn [res_bind].
      by eexists _, _, _.
    + exists (with_mem g (push_region (ga_mem g) (heap_end (ga_mem g), region_size sz))).
      eexists _, l. split; [done|]. apply new_region_exact; (done || lia).
  - right. destruct Hr as (l' & Hinv' & Hreg & Hal & Hfree & Hiff & Huse).
    assert (He : heap_end m' = heap_end (ga_mem g)) by (unfold heap_end; by rewrite Hreg).
    pose proof (free_bound _ _ ptr Hinv (Hfree ptr ltac:(lia))).
    pose proof (free_bound _ _ (ptr + sz - 1) Hinv (Hfree (ptr + sz - 1) ltac:(lia))).
    eexists _, ptr, l'. split; [done|]. constructor; cbn [ga_mem with_list fst]; rewrite ?He; try done; try lia.
    + intros x Hx. left. by apply Hfree.
    + intros x. rewrite Hiff. split; [tauto|]. intros [[?|?] ?]; [done|lia].
    + intros x _ Hfr. by apply Huse.
Qed.
End Alloc.

(** ** Release and merging *)

Definition adjacent (m : mem) (c r : Z) : Prop := c = r + size_at m r \/ r = c + size_at m c.

Lemma find_neighbour_spec fuel m f l1 l2 r :
  list_inv m f (l1 ++ l2) -> r ∈ l1 ++ l2 -> (length l2 < fuel)%nat ->
  (find_neighbour fuel m (list_head l2) r = Ok None /\ forall c, c ∈ l2 -> c <> r -> ~ adjacent m c r) \/
  exists c, find_neighbour fuel m (list_head l2) r = Ok (Some c) /\ c ∈ l2 /\ c <> r /\ adjacent m c r.
Proof.
  revert l1 fuel. induction l2 as [|a l2 IH]; intros l1 fuel Hinv Hr Hf;
    (destruct fuel as [|fuel]; [simpl in Hf; lia|]); cbn [find_neighbour list_head].
  - left. split; [done|]. intros c Hc. by apply elem_of_nil in Hc.
  - destruct Hinv as [Hh Hd Hn]. assert (Hin : a ∈ l1 ++ a :: l2) by (apply elem_middle; by left).
    destruct (no_bounds _ _ Hn a Hin) as (Hlo & _).
    rewrite (proj2 (Z.eqb_neq a 0)) by (unfold BaseAddress in Hlo; lia).
    rewrite hget_ok by (by apply (node_accessible m (l1 ++ a :: l2))). cbn [res_bind].
    rewrite (dll_next m f l1 a l2 Hd).
    assert (Happ : l1 ++ a :: l2 = (l1 ++ [a]) ++ l2) by (by rewrite <- app_assoc).
    assert (Hnext : (a = r \/ ~ adjacent m a r) ->
      (find_neighbour fuel m (list_head l2) r = Ok None /\ forall c, c ∈ a :: l2 -> c <> r -> ~ adjacent m c r) \/
      exists c, find_neighbour fuel m (list_head l2) r = Ok (Some c) /\ c ∈ a :: l2 /\ c <> r /\ adjacent m c r).
    { intros Hna. rewrite Happ in *. destruct (IH (l1 ++ [a]) fuel) as [[E Hall]|(c & E & Hc & Hcr & Hadj)];
        [done|done|simpl in Hf; lia|left|right].
      - split; [done|]. intros c [->|Hc]%elem_of_cons; [|auto]. by destruct Hna as [->|].
      - exists c. split; [done|]. split; [by right|done]. }
    destruct (Z.eqb_spec a r) as [->|Hne]; [apply Hnext; by left|].
    rewrite hget_ok by (by apply (node_accessible m (l1 ++ a :: l2))). cbn [res_bind].
    fold (size_at m a) (size_at m r).
    destruct (Z.eqb_spec a (r + size_at m r)) as [E1|E1], (Z.eqb_spec r (a + size_at m a)) as [E2|E2]; cbn [negb andb].
    + right. exists a. split; [done|]. split; [left|]. split; [done|by left].
    + right. exists a. split; [done|]. split; [left|]. split; [done|by left].
    + right. exists a. split; [done|]. split; [left|]. split; [done|by right].
    + apply Hnext. right. by intros [?|?].
Qed.

(** The block [hi] became part of the block [lo] before it. *)
Section Merged.
Context (m m' : mem) (l1 l2 : list Z) (lo hi : Z).
Hypothesis Hn : nodes_ok m (l1 ++ hi :: l2).
Hypothesis Hlo : lo ∈ l1 ++ l2.
Hypothesis Hend : hi = lo + size_at m lo.
Hypothesis Hsum : size_at m lo + size_at m hi < 2 ^ 29.
Hypothesis He : heap_end m' = heap_end m.
Hypothesis Hslo : size_at m' lo = size_at m lo + size_at m hi.
Hypothesis Hsb : forall b, b <> lo -> size_at m' b = size_at m b.

Lemma merged_old b : b ∈ l1 ++ l2 -> b ∈ l1 ++ hi :: l2.
Proof. intros Hb. apply elem_middle. by right. Qed.

Lemma merged_hi : hi ∈ l1 ++ hi :: l2.
Proof. apply elem_middle. by left. Qed.

Lemma merged_disjoint b :
  b ∈ l1 ++ l2 -> b <> lo -> lo + (size_at m lo + size_at m hi) <= b \/ b + size_at m b <= lo.
Proof.
  intros Hb Hbl. pose proof (merged_old b Hb). pose proof merged_hi. pose proof (merged_old lo Hlo).
  assert (b <> hi) by (intros ->; by apply (NoDup_middle _ _ _ (no_nodup _ _ Hn))).
  destruct (no_bounds _ _ Hn b) as (_ & ? & _); [done|].
  destruct (no_disjoint _ _ Hn b lo) as [?|?]; [done..|lia|].
  destruct (no_disjoint _ _ Hn b hi) as [?|?]; [done..|lia|lia].
Qed.

Lemma merged_nodes : nodes_ok m' (l1 ++ l2).
Proof.
  destruct (no_bounds _ _ Hn lo (merged_old lo Hlo)) as (? & ? & ?), (no_bounds _ _ Hn hi merged_hi) as (? & ? & ?).
  destruct (no_aligned _ _ Hn lo (merged_old lo Hlo)) as [? ?], (no_aligned _ _ Hn hi merged_hi) as [? ?].
  constructor.
  - apply (NoDup_middle _ _ _ (no_nodup _ _ Hn)).
  - intros b Hb. destruct (decide (b = lo)) as [->|]; [rewrite Hslo|rewrite Hsb by done].
    + split; [done|]. change BlockSize with 2097152 in *. dlia.
    + by apply (no_aligned _ _ Hn), merged_old.
  - intros b Hb. rewrite He. destruct (decide (b = lo)) as [->|]; [rewrite Hslo; lia|rewrite Hsb by done].
    by apply (no_bounds _ _ Hn), merged_old.
  - intros b d Hb Hdd Hbd. destruct (decide (b = lo)) as [->|], (decide (d = lo)) as [->|]; [done|..];
      rewrite ?Hslo, ?Hsb by done;
      [destruct (merged_disjoint d); auto; lia|destruct (merged_disjoint b); auto; lia|].
    apply (no_disjoint _ _ Hn); [by apply merged_old..|done].
Qed.

Lemma merged_free x : free_at m' (l1 ++ l2) x <-> free_at m (l1 ++ hi :: l2) x.
Proof.
  destruct (no_bounds _ _ Hn lo (merged_old lo Hlo)) as (_ & ? & _), (no_bounds _ _ Hn hi merged_hi) as (_ & ? & _).
  destruct (NoDup_middle _ _ _ (no_nodup _ _ Hn)) as [Hnd _].
  rewrite free_at_split. apply list_elem_of_split in Hlo as (k1 & k2 & Ek). rewrite Ek in *.
  rewrite !free_at_split, Hslo. rewrite (free_at_ext m m').
  - split; [intros [?|?]; [|tauto]|intros [?|[?|?]]; [left; lia|left; lia|tauto]].
    destruct (Z.lt_ge_cases x hi); [right; left; lia|left; lia].
  - intros b Hb. apply Hsb. intros ->. by apply NoDup_middle in Hnd as [_ ?].
Qed.

End Merged.

(** Merging two neighbours does not change which memory is free. *)
Lemma merge_spec m f l c r :
  list_inv m f l -> c ∈ l -> r ∈ l -> c <> r -> adjacent m c r -> size_at m c + size_at m r < 2 ^ 29 ->
  exists m' f' l', merge m f c r = Ok (m', f', Z.min c r) /\ list_inv m' f' l' /\
    mapped_regions m' = mapped_regions m /\ S (length l') = length l /\ Z.min c r ∈ l' /\
    (forall x, free_at m' l' x <-> free_at m l x) /\ in_use_kept m m' l.
Proof.
  intros [Hh Hd Hn] Hc Hr Hne Hadj Hsum.
  assert (Hord : exists lo hi, (if r <? c then (r, c) else (c, r)) = (lo, hi) /\ Z.min c r = lo /\
            lo ∈ l /\ hi ∈ l /\ lo <> hi /\ hi = lo + size_at m lo /\ 0 <= size_at m lo + size_at m hi < 2 ^ 29).
  { destruct (no_bounds _ _ Hn c Hc) as (_ & ? & _), (no_bounds _ _ Hn r Hr) as (_ & ? & _).
    destruct (Z.ltb_spec r c); [exists r, c|exists c, r]; destruct Hadj; repeat split; try done; lia. }
  destruct Hord as (lo & hi & Eif & -> & Hlo & Hhi & Hlh & Hend & Hs).
  unfold merge. rewrite Eif. rewrite hget_ok by (by apply (node_accessible m l)). cbn [res_bind].
  rewrite hupd_ok by (by apply (node_accessible m l)). cbn [res_bind]. fold (size_at m hi) (size_at m lo).
  set (m1 := store _ _ _). apply list_elem_of_split in Hhi as (l1 & l2 & ->).
  assert (Hd1 : dll m1 f (l1 ++ hi :: l2)) by (by apply dll_store_data).
  destruct (unlink_prev_next _ _ _ _ _ Hd1 (no_nodup _ _ Hn)) as (m2 & f' & -> & E3 & ->). cbn [res_bind].
  rewrite E3. cbn [res_bind]. destruct (unlinked_spec _ _ _ _ _ Hd1 (no_nodup _ _ Hn)) as [Hd2 Hlk].
  destruct (unlinked m1 f hi) as [m' f']. cbn [fst snd] in *.
  assert (Hlo' : lo ∈ l1 ++ l2) by (by apply elem_middle in Hlo as [?|?]).
  assert (Hreg : mapped_regions m' = mapped_regions m) by (by rewrite (proj1 Hlk)).
  assert (He : heap_end m' = heap_end m) by (unfold heap_end; by rewrite Hreg).
  assert (Hslo : size_at m' lo = size_at m lo + size_at m hi).
  { rewrite (links_sizes _ _ _ lo Hlk). unfold size_at, m1. rewrite line_at_store_eq. cbn [size set_size].
    fold (size_at m lo) (size_at m hi). by apply u29_small. }
  assert (Hsb : forall b, b <> lo -> size_at m' b = size_at m b).
  { intros b Hb. rewrite (links_sizes _ _ _ b Hlk). unfold size_at, m1. by rewrite line_at_store_ne. }
  exists m', f', (l1 ++ l2). split; [done|]. split; [constructor; [by apply (heap_ok_regions m)|done|eapply merged_nodes; (done || lia)]|].
  split; [done|]. split; [rewrite !length_app; simpl; lia|]. split; [done|]. split; [intros x; by eapply merged_free|].
  intros x Hx. destruct Hlk as (_ & _ & Hlk). rewrite Hlk.
  - unfold m1. rewrite line_at_store_ne; [done|]. intros ->. apply Hx, node_free; done.
  - intros Hin. apply Hx, node_free; [done|]. by apply merged_old.
Qed.

(** No run of contiguous free memory reaches 512 MB, the first size a header
    cannot hold. *)
Definition no_huge_run (P : Z -> Prop) : Prop :=
  forall a n, 0 <= n -> (forall x, a <= x < a + n -> P x) -> n < 2 ^ 29.

Lemma tryMerging_spec fuel m f l r :
  list_inv m f l -> r ∈ l -> (length l < fuel)%nat -> no_huge_run (free_at m l) ->
  exists m' f' l', tryMergingRegions fuel m f r = Ok (m', f') /\ list_inv m' f' l' /\
    mapped_regions m' = mapped_regions m /\ (forall x, free_at m' l' x <-> free_at m l x) /\ in_use_kept m m' l.
Proof.
  revert m f l r. induction fuel as [|fuel IH]; intros m f l r Hinv Hr Hf Hrun; [lia|]. cbn [tryMergingRegions].
  pose proof (nodes_fuel _ _ (li_nodes _ _ _ Hinv)) as Hfuel.
  pose proof (find_neighbour_spec (list_fuel m) m f [] l r Hinv Hr Hfuel) as Hfn.
  rewrite <- (dll_head _ _ _ (li_dll _ _ _ Hinv)) in Hfn.
  destruct Hfn as [[-> _]|(c & -> & Hc & Hcr & Hadj)]; cbn [res_bind].
  - exists m, f, l. split; [done|]. split; [done|]. split; [done|]. split; [done|]. by intros x _.
  - destruct (merge_spec m f l c r) as (m1 & f1 & l1 & -> & Hinv1 & Hreg1 & Hlen1 & Hin1 & Hfree1 & Huse1); [done..| |].
    { destruct (no_bounds _ _ (li_nodes _ _ _ Hinv) c Hc) as (_ & ? & _).
      destruct (no_bounds _ _ (li_nodes _ _ _ Hinv) r Hr) as (_ & ? & _).
      apply (Hrun (Z.min c r)); [lia|]. intros x Hx.
      destruct (Z.lt_ge_cases x (Z.max c r)); destruct Hadj as [Ha|Ha];
        ((exists c; split; [done|lia]) || (exists r; split; [done|lia])). }
    cbn [res_bind]. destruct (IH m1 f1 l1 (Z.min c r)) as (m' & f' & l' & Hm & Hinv' & Hreg' & Hfree' & Huse');
      [done|done|lia| |].
    { intros a n Hn Hx. apply (Hrun a n Hn). intros x Hxa. by apply Hfree1, Hx. }
    exists m', f', l'. split; [done|]. split; [done|]. split; [congruence|]. split.
    + intros x. by rewrite Hfree', Hfree1.
    + intros x Hx. rewrite Huse'; [by apply Huse1|]. by rewrite Hfree1.
Qed.

Lemma release_spec g l ptr sz :
  ga_inv g l -> ptr mod BlockSize = 0 -> sz mod BlockSize = 0 -> 0 < sz ->
  BaseAddress <= ptr -> ptr + sz <= heap_end (ga_mem g) ->
  (forall x, ptr <= x < ptr + sz -> ~ free_at (ga_mem g) l x) ->
  no_huge_run (fun x => free_at (ga_mem g) l x \/ ptr <= x < ptr + sz) ->
  exists g' l', release g ptr sz = Ok g' /\ ga_inv g' l' /\ ga_bitmap g' = ga_bitmap g /\
    mapped_regions (ga_mem g') = mapped_regions (ga_mem g) /\
    (forall x, free_at (ga_mem g') l' x <-> free_at (ga_mem g) l x \/ ptr <= x < ptr + sz) /\
    (forall x, ~ free_at (ga_mem g) l x -> ~ ptr <= x < ptr + sz -> line_at (ga_mem g') x = line_at (ga_mem g) x).
Proof.
  intros Hinv Hal Hals Hpos Hlo Hhi Hnf Hrun.
  assert (Hsz : sz < 2 ^ 29) by (apply (Hrun ptr); [lia|auto]). unfold release.
  destruct (push_free_spec (ga_mem g) (ga_free_list g) l ptr sz) as (m1 & -> & Hinv1 & Hreg1 & Hsa & Hsb & Hline1);
    [done|done|done|lia|done|done| |].
  { intros b Hb. destruct (no_bounds _ _ (li_nodes _ _ _ Hinv) b Hb) as (_ & ? & _).
    destruct (Z.lt_ge_cases b (ptr + sz)); [|by left]. right.
    destruct (Z.lt_ge_cases ptr (b + size_at (ga_mem g) b)); [|lia]. exfalso.
    apply (Hnf (Z.max b ptr)); [lia|]. exists b. split; [done|lia]. }
  cbn [res_bind].
  assert (Hfree1 : forall x, free_at m1 (ptr :: l) x <-> ptr <= x < ptr + sz \/ free_at (ga_mem g) l x)
    by (intros x; by apply free_at_cons).
  destruct (tryMerging_spec (list_fuel m1) m1 ptr (ptr :: l) ptr) as (m' & f' & l' & -> & Hinv' & Hreg' & Hfree' & Huse');
    [done|left|by apply nodes_fuel; destruct Hinv1| |].
  { intros a n Hn Hx. apply (Hrun a n Hn). intros x Hxa. destruct (proj1 (Hfree1 x) (Hx x Hxa)); auto. }
  cbn [res_bind]. eexists _, l'. split; [done|]. split; [exact Hinv'|]. split; [done|].
  cbn [ga_mem with_list fst]. split; [congruence|]. split.
  - intros x. rewrite Hfree', Hfree1. tauto.
  - intros x Hx Hnr. rewrite Huse', Hline1; [done|lia|done|]. rewrite Hfree1. tauto.
Qed.

(** ** Executions *)

Definition in_block (x : Z) (b : Z * Z) : Prop := fst b <= x < fst b + snd b.
Definition apart (b c : Z * Z) : Prop := fst b + snd b <= fst c \/ fst c + snd c <= fst b.

Fixpoint disjoint_blocks (live : list (Z * Z)) : Prop :=
  match live with
  | [] => True
  | b :: live => Forall (apart b) live /\ disjoint_blocks live
  end.

Definition taken (live : list (Z * Z)) (x : Z) : Prop := exists b, b ∈ live /\ in_block x b.

(** The requests the free lists make: whole blocks of 2 MB, below the size
    that overflows a header. *)
Definition request_ok (sz : Z) : Prop := 0 < sz < 2 ^ 29 /\ sz mod BlockSize = 0.

Section Execution.
Variable mmap_at : Z -> Z -> bool.
Hypothesis mmap_below : forall a s, mmap_at a s = true -> a + s <= BaseAddress + MaxMemorySize.

(** The allocator and the blocks in use: blocks are allocated, written by
    their owners and released, in any order. *)
Inductive ga_step : galloc * list (Z * Z) -> galloc * list (Z * Z) -> Prop :=
| step_alloc g live sz g' ptr :
    request_ok sz -> ga_alloc mmap_at g sz = Ok (g', ptr) -> ga_step (g, live) (g', (ptr, sz) :: live)
| step_release g live1 ptr sz live2 g' :
    no_huge_run (fun x => BaseAddress <= x < heap_end (ga_mem g) /\ ~ taken (live1 ++ live2) x) ->
    release g ptr sz = Ok g' -> ga_step (g, live1 ++ (ptr, sz) :: live2) (g', live1 ++ live2)
| step_write g live b a ln :
    b ∈ live -> in_block a b -> ga_step (g, live) (with_mem g (store (ga_mem g) a ln), live).

Inductive ga_reachable : galloc * list (Z * Z) -> Prop :=
| reach_init g : ga_init mmap_at = Ok g -> ga_reachable (g, [])
| reach_step s s' : ga_reachable s -> ga_step s s' -> ga_reachable s'.

(** Every address of the heap is either free or in one block in use. *)
Record ga_exec_inv (g : galloc) (live : list (Z * Z)) (l : list Z) : Prop := {
  ge_inv : ga_inv g l;
  ge_disjoint : disjoint_blocks live;
  ge_blocks : forall b, b ∈ live -> fst b mod BlockSize = 0 /\ request_ok (snd b) /\
                BaseAddress <= fst b /\ fst b + snd b <= heap_end (ga_mem g);
  ge_free : forall x, free_at (ga_mem g) l x <-> BaseAddress <= x < heap_end (ga_mem g) /\ ~ taken live x
}.

Lemma taken_cons b live x : taken (b :: live) x <-> in_block x b \/ taken live x.
Proof.
  unfold taken. setoid_rewrite elem_of_cons. split.
  - intros (c & [->|Hc] & Hx); [by left|right; by exists c].
  - intros [Hx|(c & Hc & Hx)]; [exists b; auto|exists c; auto].
Qed.

Lemma taken_middle live1 b live2 x : taken (live1 ++ b :: live2) x <-> in_block x b \/ taken (live1 ++ live2) x.
Proof.
  rewrite <- taken_cons. unfold taken. setoid_rewrite elem_of_app. setoid_rewrite elem_of_cons.
  setoid_rewrite elem_of_app. naive_solver.
Qed.

Lemma disjoint_middle live1 b live2 :
  disjoint_blocks (live1 ++ b :: live2) ->
  disjoint_blocks (live1 ++ live2) /\ forall c, c ∈ live1 ++ live2 -> apart b c.
Proof.
  induction live1 as [|d live1 IH]; cbn [app disjoint_blocks].
  - intros [Hf Hd]. split; [done|]. by apply Forall_forall.
  - intros [Hf Hd]. destruct (IH Hd) as [Hd' Hb]. rewrite Forall_forall in Hf. split.
    + split; [|done]. apply Forall_forall. intros c Hc. apply Hf. rewrite elem_of_app in *. rewrite elem_of_cons. tauto.
    + intros c [->|Hc]%elem_of_cons; [|auto]. destruct (Hf b) as [?|?]; [apply elem_of_app; right; left|right|left]; done.
Qed.

Lemma ga_init_inv g : ga_init mmap_at = Ok g -> ga_exec_inv g [] [BaseAddress].
Proof.
  unfold ga_init, newBlock. destruct (mmap_at BaseAddress MinPoolSize) eqn:Em; [|done].
  intros Hg. cbn [fst snd] in Hg. set (m := push_region _ _) in Hg.
  assert (Hh : heap_ok m) by (constructor; [by vm_compute|done|by vm_compute]).
  assert (Hacc : accessible m BaseAddress = true) by (by vm_compute).
  rewrite hupd_ok in Hg by done. cbn [res_bind] in Hg. apply Ok_inj in Hg. subst g.
  set (m1 := store _ _ _). assert (Es : size_at m1 BaseAddress = MinPoolSize).
  { unfold size_at, m1. rewrite line_at_store_eq. by vm_compute. }
  assert (He : heap_end m1 = BaseAddress + MinPoolSize) by (by vm_compute).
  assert (Hfree : forall x, free_at m1 [BaseAddress] x <-> BaseAddress <= x < BaseAddress + MinPoolSize).
  { intros x. unfold free_at. split.
    - intros (a & ->%list_elem_of_singleton & Hx). by rewrite Es in Hx.
    - intros Hx. exists BaseAddress. rewrite Es. split; [left|done]. }
  constructor.
  - constructor; [by apply (heap_ok_regions m)|..].
    + exists BaseAddress. cbn [ga_mem ga_free_list seg]. unfold m1. rewrite line_at_store_eq. repeat split; done.
    + cbn [ga_mem]. fold m1. constructor; [apply NoDup_singleton|..].
      * intros a ->%list_elem_of_singleton. rewrite Es. by vm_compute.
      * intros a ->%list_elem_of_singleton. rewrite Es, He. by vm_compute.
      * intros a b ->%list_elem_of_singleton ->%list_elem_of_singleton. done.
  - done.
  - intros b Hb. by apply elem_of_nil in Hb.
  - intros x. cbn [ga_mem]. fold m1. rewrite Hfree, He. split; [|tauto]. intros Hx. split; [done|].
    intros (b & Hb & _). by apply elem_of_nil in Hb.
Qed.

Lemma no_huge_run_ext (P Q : Z -> Prop) : (forall x, P x -> Q x) -> no_huge_run Q -> no_huge_run P.
Proof. intros HPQ HQ a n Hn Hx. apply (HQ a n Hn). auto. Qed.

(** Releasing a block in use: the allocator finds it in the heap and outside
    the free list. *)
Lemma release_live g live1 ptr sz live2 l :
  ga_exec_inv g (live1 ++ (ptr, sz) :: live2) l ->
  no_huge_run (fun x => BaseAddress <= x < heap_end (ga_mem g) /\ ~ taken (live1 ++ live2) x) ->
  exists g' l', release g ptr sz = Ok g' /\ ga_exec_inv g' (live1 ++ live2) l' /\
    forall b x, b ∈ live1 ++ live2 -> in_block x b -> line_at (ga_mem g') x = line_at (ga_mem g) x.
Proof.
  intros [Hinv Hdis Hblk Hfree] Hrun. destruct (disjoint_middle _ _ _ Hdis) as [Hdis' Hap].
  destruct (Hblk (ptr, sz)) as (Hal & ((Hs0 & Hs1) & Hsm) & Hlo & Hhi); [apply elem_of_app; right; left|].
  cbn [fst snd] in *.
  assert (Hin : forall x, ptr <= x < ptr + sz -> taken (live1 ++ (ptr, sz) :: live2) x).
  { intros x Hx. apply taken_middle. by left. }
  assert (Hother : forall b x, b ∈ live1 ++ live2 -> in_block x b -> ~ ptr <= x < ptr + sz).
  { intros b x Hb Hx Hp. destruct (Hap b Hb); unfold in_block in *; simpl in *; lia. }
  destruct (release_spec g l ptr sz) as (g' & l' & Hrel & Hinv' & _ & Hreg & Hfree' & Hline); [done|done|done|lia|done|done|..].
  { intros x Hx Hf. apply Hfree in Hf as [_ Hf]. by apply Hf, Hin. }
  { eapply no_huge_run_ext; [|exact Hrun]. intros x [[Hx Hnt]%Hfree|Hx].
    - split; [done|]. intros Ht. apply Hnt, taken_middle. by right.
    - split; [lia|]. intros (b & Hb & Hxb). by eapply Hother. }
  assert (He : heap_end (ga_mem g') = heap_end (ga_mem g)) by (unfold heap_end; by rewrite Hreg).
  exists g', l'. split; [done|]. split.
  - constructor; [done|done|..].
    + intros b Hb. rewrite He. apply Hblk. apply elem_of_app in Hb. rewrite elem_of_app, elem_of_cons. tauto.
    + intros x. rewrite He, Hfree', Hfree, taken_middle. unfold in_block at 1. cbn [fst snd].
      split; [intros [?|?]; [tauto|]|].
      * split; [lia|]. intros (b & Hb & Hxb). by eapply Hother.
      * intros [Hx Hnt]. destruct (decide (ptr <= x < ptr + sz)); [by right|]. left. split; [done|]. tauto.
  - intros b x Hb Hx. apply Hline; [|by eapply Hother]. intros Hf. apply Hfree in Hf as [_ Hf]. apply Hf.
    apply taken_middle. right. by exists b.
Qed.

Lemma ga_step_inv g live l g' live' :
  ga_exec_inv g live l -> ga_step (g, live) (g', live') -> exists l', ga_exec_inv g' live' l'.
Proof.
  intros Hi Hst. inversion Hst as [? ? sz ? ptr [Hsz Hmod] Ha|? live1 ptr sz live2 ? Hrun Hr|? ? b a ln Hb Hab]; subst.
  - destruct Hi as [Hinv Hdis Hblk Hfree].
    destruct (ga_alloc_spec mmap_at mmap_below g l sz Hinv Hsz Hmod) as [(E & _)|(g1 & p1 & l' & E & [Hinv' _ Hal Hwas Hfree' Hlo Hhi Hgrow Hline])];
      [congruence|]. rewrite Ha in E. injection E as <- <-.
    assert (Hap : forall x, ptr <= x < ptr + sz -> ~ taken live x).
    { intros x Hx (b & Hb & Hxb). destruct (Hwas x Hx) as [[_ Hf]%Hfree|Hge]; [apply Hf; by exists b|].
      destruct (Hblk b Hb) as (_ & _ & _ & ?). unfold in_block in Hxb. lia. }
    exists l'. constructor; [done|..].
    + split; [|done]. apply Forall_forall. intros b Hb.
      destruct (Hblk b Hb) as (_ & [[? _] _] & _). unfold apart. cbn [fst snd].
      destruct (Z.lt_ge_cases (fst b) (ptr + sz)); [|by left]. right.
      destruct (Z.lt_ge_cases ptr (fst b + snd b)); [|done]. exfalso.
      apply (Hap (Z.max ptr (fst b))); [lia|]. exists b. split; [done|]. unfold in_block. lia.
    + intros b [->|Hb]%elem_of_cons; [done|]. destruct (Hblk b Hb) as (? & ? & ? & ?). split; [done|split; [done|split; [done|cbn [fst snd] in *; lia]]].
    + intros x. rewrite Hfree', Hfree, taken_cons. unfold in_block at 1. cbn [fst snd].
      pose proof (heap_end_aligned _ (li_heap _ _ _ Hinv)) as [_ ?]. split.
      * intros [[[Hx Hnt]|Hx] Hnp]; (split; [lia|]); [tauto|]. intros [?|(b & Hb & Hxb)]; [done|].
        destruct (Hblk b Hb) as (_ & _ & _ & ?). unfold in_block in Hxb. lia.
      * intros [Hx Hnt]. split; [|tauto]. destruct (Z.lt_ge_cases x (heap_end (ga_mem g))); [left; tauto|right; lia].
  - destruct (release_live _ _ _ _ _ _ Hi Hrun) as (g1 & l' & E & Hi' & _). rewrite Hr in E. injection E as <-.
    by exists l'.
  - destruct Hi as [Hinv Hdis Hblk Hfree]. exists l.
    assert (Hnl : ~ free_at (ga_mem g) l a) by (intros [_ Hf]%Hfree; apply Hf; by exists b).
    assert (Hni : a ∉ l) by (intros Hin; apply Hnl, node_free; [apply Hinv|done]).
    assert (Hsz : forall c, c ∈ l -> size_at (store (ga_mem g) a ln) c = size_at (ga_mem g) c).
    { intros c Hc. unfold size_at. rewrite line_at_store_ne; [done|]. by intros ->. }
    constructor; cbn [ga_mem with_mem]; [|done|done|].
    + destruct Hinv as [Hh Hd Hn]. constructor; [by apply (heap_ok_regions (ga_mem g))|by apply dll_store|].
      cbn [ga_mem with_mem]. apply (nodes_ok_keep (ga_mem g) _ l); [done|apply Hn|done|auto].
    + intros x. rewrite (free_at_ext (ga_mem g)) by done. apply Hfree.
Qed.

Lemma ga_reachable_inv s : ga_reachable s -> exists l, ga_exec_inv (fst s) (snd s) l.
Proof.
  induction 1 as [g Hg|[g live] [g' live'] _ [l Hi] Hst].
  - exists [BaseAddress]. by apply ga_init_inv.
  - by eapply ga_step_inv.
Qed.

Lemma exec_free s s' :
  ga_reachable s -> ga_step s s' ->
  exists l, ga_inv (fst s') l /\
    forall x, free_at (ga_mem (fst s')) l x <-> BaseAddress <= x < heap_end (ga_mem (fst s')) /\ ~ taken (snd s') x.
Proof. intros Hr Hs. destruct (ga_reachable_inv _ (reach_step _ _ Hr Hs)) as [l Hi]. exists l. split; apply Hi. Qed.

(** [C24] The global allocator, called by one thread at a time.  After any
    sequence of allocations of whole 2 MB blocks of less than 512 MB, writes
    into allocated blocks, and releases after which no run of free memory
    reaches 512 MB ([no_huge_run]): the blocks in use are disjoint and inside
    the heap; the regions of the free list ([ga_inv]: a doubly linked list of
    disjoint regions) cover exactly the memory of the heap that is not in use;
    an allocation succeeds, with a block apart from all blocks in use, taken
    from free memory or from memory mapped for it and no longer free
    afterwards, unless the kernel refuses memory; a release of a block in use
    succeeds and makes exactly that block free again; and neither changes a
    line of another block in use.  What happens without the size conditions
    is [release_merge_overflow], and with a second thread between the read of
    [free_list] and the lock, [stale_head_overlaps]. *)
Theorem global_alloc_safe g live :
  ga_reachable (g, live) ->
  disjoint_blocks live /\
  (forall b, b ∈ live -> BaseAddress <= fst b /\ fst b + snd b <= heap_end (ga_mem g)) /\
  (exists l, ga_inv g l /\ forall x, free_at (ga_mem g) l x <-> BaseAddress <= x < heap_end (ga_mem g) /\ ~ taken live x) /\
  (forall sz, request_ok sz ->
     (ga_alloc mmap_at g sz = AssertFail /\ mmap_at (heap_end (ga_mem g)) (region_size sz) = false) \/
     exists g' ptr, ga_alloc mmap_at g sz = Ok (g', ptr) /\
       (exists l', ga_inv g' l' /\
          forall x, free_at (ga_mem g') l' x <-> BaseAddress <= x < heap_end (ga_mem g') /\ ~ taken ((ptr, sz) :: live) x) /\
       forall b x, b ∈ live -> in_block x b ->
         ~ ptr <= x < ptr + sz /\ line_at (ga_mem g') x = line_at (ga_mem g) x) /\
  (forall live1 ptr sz live2, live = live1 ++ (ptr, sz) :: live2 ->
     no_huge_run (fun x => BaseAddress <= x < heap_end (ga_mem g) /\ ~ taken (live1 ++ live2) x) ->
     exists g', release g ptr sz = Ok g' /\
       (exists l', ga_inv g' l' /\
          forall x, free_at (ga_mem g') l' x <-> BaseAddress <= x < heap_end (ga_mem g') /\ ~ taken (live1 ++ live2) x) /\
       forall b x, b ∈ live1 ++ live2 -> in_block x b -> line_at (ga_mem g') x = line_at (ga_mem g) x).
Proof.
  intros Hr. destruct (ga_reachable_inv _ Hr) as [l Hi]. cbn [fst snd] in Hi.
  assert (Huse : forall b x, b ∈ live -> in_block x b -> ~ free_at (ga_mem g) l x /\ x < heap_end (ga_mem g)).
  { intros b x Hb Hx. split; [intros [_ Hf]%(ge_free _ _ _ Hi); apply Hf; by exists b|].
    destruct (ge_blocks _ _ _ Hi b Hb) as (_ & _ & _ & ?). unfold in_block in Hx. lia. }
  split; [apply Hi|]. split; [intros b Hb; by destruct (ge_blocks _ _ _ Hi b Hb) as (_ & _ & ?)|].
  split; [exists l; split; apply Hi|]. split.
  - intros sz [Hsz Hmod].
    destruct (ga_alloc_spec mmap_at mmap_below g l sz (ge_inv _ _ _ Hi) Hsz Hmod)
      as [(E & Em & _)|(g' & ptr & l' & E & [_ _ _ Hwas _ _ _ _ Hline])]; [by left|right].
    exists g', ptr. split; [done|].
    split; [exact (exec_free _ _ Hr (step_alloc g live sz g' ptr (conj Hsz Hmod) E))|]. intros b x Hb Hx. destruct (Huse b x Hb Hx) as [Hnf Hlt]. split; [|by apply Hline].
    intros Hp. destruct (Hwas x Hp); [done|lia].
  - intros live1 ptr sz live2 -> Hrun. destruct (release_live _ _ _ _ _ _ Hi Hrun) as (g' & l' & E & _ & Hline).
    exists g'. split; [done|]. split; [exact (exec_free _ _ Hr (step_release g live1 ptr sz live2 g' Hrun E))|done].
Qed.

End Execution.

(** ** Saving and loading *)

Lemma save_free_spec fuel m f l1 l2 nvm ptr len :
  list_inv m f (l1 ++ l2) -> (length l2 < fuel)%nat ->
  exists nvm', save_free fuel m (list_head l2) nvm ptr len = Ok (nvm', len + Zlength l2) /\
    (forall k a, l2 !! k = Some a ->
       wget nvm' (ptr + 16 * Z.of_nat k) = a /\ wget nvm' (ptr + 16 * Z.of_nat k + 8) = size_at m a) /\
    (forall x, x < ptr -> wget nvm' x = wget nvm x).
Proof.
  revert l1 fuel nvm ptr len. induction l2 as [|a l2 IH]; intros l1 fuel nvm ptr len Hinv Hf;
    (destruct fuel as [|fuel]; [simpl in Hf; lia|]); cbn [save_free list_head].
  - exists nvm. split; [by rewrite Z.add_0_r|]. done.
  - destruct Hinv as [Hh Hd Hn]. assert (Hin : a ∈ l1 ++ a :: l2) by (apply elem_middle; by left).
    destruct (no_bounds _ _ Hn a Hin) as (Hlo & _).
    rewrite (proj2 (Z.eqb_neq a 0)) by (unfold BaseAddress in Hlo; lia).
    rewrite hget_ok by (by apply (node_accessible m (l1 ++ a :: l2))). cbn [res_bind].
    rewrite (dll_next m f l1 a l2 Hd). fold (size_at m a).
    assert (Happ : l1 ++ a :: l2 = (l1 ++ [a]) ++ l2) by (by rewrite <- app_assoc). rewrite Happ in *.
    destruct (IH (l1 ++ [a]) fuel (wset (wset nvm ptr a) (ptr + 8) (size_at m a)) (ptr + 16) (len + 1))
      as (nvm' & E & Hat & Hout); [done|simpl in Hf; lia|].
    exists nvm'. split; [rewrite E, Zlength_cons; do 2 f_equal; lia|]. split.
    + intros [|k] b Hk.
      * injection Hk as <-. change (16 * Z.of_nat 0) with 0. rewrite Z.add_0_r, !Hout, !wget_wset by lia.
        rewrite (decide_False (P := ptr + 8 = ptr)), !decide_True by lia. done.
      * replace (ptr + 16 * Z.of_nat (S k)) with (ptr + 16 + 16 * Z.of_nat k) by lia. by apply Hat.
    + intros x Hx. rewrite Hout, !wget_wset by lia. by rewrite !decide_False by lia.
Qed.

(** The list as far as it has been rebuilt: its last node is [prev0]. *)
Definition built (m : mem) (f prev0 : Z) (l : list Z) : Prop := seg m 0 f l prev0 0.

(** One round of [load]: the node [a] of [n] bytes is appended. *)
Lemma load_node_spec l1 m f prev0 a n :
  built m f prev0 l1 -> NoDup l1 -> a ∉ l1 -> f = list_head l1 -> accessible m a = true -> a <> 0 -> 0 <= n < 2 ^ 29 ->
  exists m3, (let* m := hupd m a (fun l => set_size l n) in
      let* m := if negb (prev0 =? 0) then hupd m prev0 (fun l => set_next l a) else Ok m in
      hupd m a (fun l => set_next (set_prev l prev0) 0)) = Ok m3 /\
    built m3 (if prev0 =? 0 then a else f) a (l1 ++ [a]) /\
    (if prev0 =? 0 then a else f) = list_head (l1 ++ [a]) /\ mapped_regions m3 = mapped_regions m /\
    (forall b, size_at m3 b = if decide (b = a) then n else size_at m b).
Proof.
  intros Hb Hnd Hna Hf Ha Ha0 Hsz. rewrite hupd_ok by done. cbn [res_bind]. set (m1 := store m a _).
  assert (Hs1 : seg m1 0 f l1 prev0 0) by (by apply seg_store).
  set (m2 := if prev0 =? 0 then m1 else store m1 prev0 (set_next (line_at m1 prev0) a)).
  assert (Hp : prev0 = 0 /\ l1 = [] \/ prev0 ∈ l1 /\ prev0 <> 0 /\ accessible m1 prev0 = true).
  { destruct (seg_last _ _ _ _ _ _ Hs1) as [[-> ->]|[l' El]]; [by left|right].
    assert (Hin : prev0 ∈ l1) by (rewrite El; apply elem_of_app; right; left).
    split; [done|]. by apply (seg_nonzero _ _ _ _ _ _ _ Hs1). }
  assert (E2 : (if negb (prev0 =? 0) then hupd m1 prev0 (fun l => set_next l a) else Ok m1) = Ok m2).
  { unfold m2. destruct Hp as [[-> _]|(Hin & Hp0 & Hpa)]; [done|].
    rewrite (proj2 (Z.eqb_neq _ _) Hp0). cbn [negb]. by rewrite hupd_ok. }
  rewrite E2. cbn [res_bind]. rewrite hupd_ok by (unfold m2; by destruct (prev0 =? 0)).
  eexists. split; [done|]. set (m3 := store m2 a _). split; [|split; [|split]].
  - apply seg_app. exists prev0, a. split; [|cbn [seg]; unfold m3; rewrite line_at_store_eq; repeat split; try done; by destruct (prev0 =? 0)].
    apply seg_store; [done|]. unfold m2. destruct Hp as [[-> ->]|(Hin & Hp0 & _)]; [done|]. rewrite (proj2 (Z.eqb_neq _ _) Hp0).
    apply seg_set_next with 0; [done|by intros ->; apply elem_of_nil in Hin|done].
  - destruct Hp as [[-> ->]|(Hin & Hp0 & _)]; [done|]. rewrite (proj2 (Z.eqb_neq _ _) Hp0), Hf.
    destruct l1; [by apply elem_of_nil in Hin|done].
  - unfold m3, m2. by destruct (prev0 =? 0).
  - assert (Hs2 : forall b, size_at m2 b = size_at m1 b).
    { intros b. unfold m2. destruct (prev0 =? 0); [done|]. unfold size_at. rewrite line_at_store. case_decide as D; [by subst b|done]. }
    intros b. transitivity (size_at m2 b).
    { unfold size_at, m3. rewrite line_at_store. case_decide as D; [by subst b|done]. }
    rewrite Hs2. unfold size_at, m1. rewrite line_at_store. case_decide as D.
    + subst b. rewrite decide_True by done. by apply u29_small.
    + by rewrite decide_False by congruence.
Qed.

Lemma load_free_spec l2 l1 m f prev0 nvm ptr szs :
  built m f prev0 l1 -> NoDup (l1 ++ l2) -> f = list_head l1 ->
  (forall a, a ∈ l2 -> accessible m a = true /\ a <> 0 /\ 0 <= szs a < 2 ^ 29) ->
  (forall k a, l2 !! k = Some a ->
     wget nvm (ptr + 16 * Z.of_nat k) = a /\ wget nvm (ptr + 16 * Z.of_nat k + 8) = szs a) ->
  exists m' f', load_free (length l2) m f prev0 nvm ptr = Ok (m', f') /\ dll m' f' (l1 ++ l2) /\
    mapped_regions m' = mapped_regions m /\
    (forall a, a ∈ l1 -> size_at m' a = size_at m a) /\ (forall a, a ∈ l2 -> size_at m' a = szs a).
Proof.
  revert l1 m f prev0 ptr. induction l2 as [|a l2 IH]; intros l1 m f prev0 ptr Hb Hnd Hf Hacc Hw.
  - exists m, f. split; [done|]. rewrite app_nil_r. split; [by exists prev0|]. split; [done|]. split; [done|].
    intros a Ha. by apply elem_of_nil in Ha.
  - destruct (Hw 0%nat a eq_refl) as [Ew Es]. change (16 * Z.of_nat 0) with 0 in *. rewrite Z.add_0_r in *.
    destruct (Hacc a ltac:(left)) as (Ha & Ha0 & Hsz). cbn [length load_free]. rewrite Ew, Es.
    destruct (NoDup_middle _ _ _ Hnd) as [_ Hna]. rewrite elem_of_app in Hna.
    destruct (load_node_spec l1 m f prev0 a (szs a)) as (m3 & E3 & Hb3 & Hf3 & Hreg3 & Hsz3);
      [done|by apply NoDup_app in Hnd as (? & _)|tauto|done..|].
    destruct (IH (l1 ++ [a]) m3 (if prev0 =? 0 then a else f) a (ptr + 16)) as (m' & f' & E & Hd & Hreg & Hs1' & Hs2').
    + done.
    + by rewrite <- app_assoc.
    + done.
    + intros b Hb'. rewrite (accessible_regions m) by done. apply Hacc. by right.
    + intros k b Hk. replace (ptr + 16 + 16 * Z.of_nat k) with (ptr + 16 * Z.of_nat (S k)) by lia. by apply Hw.
    + exists m', f'. split; [|rewrite <- app_assoc in Hd; split; [done|]; split; [congruence|split]].
      * rewrite <- E. rewrite hupd_ok in E3 |- * by done. cbn [res_bind] in E3 |- *.
        destruct (if negb (prev0 =? 0) then _ else _) as [mm| | |]; cbn [res_bind] in E3 |- *; try done. by rewrite E3.
      * intros b Hb'. rewrite Hs1', Hsz3, decide_False by (first [intros ->; tauto|apply elem_of_app; by left]). done.
      * intros b [->|Hb']%elem_of_cons; [|by apply Hs2'].
        rewrite Hs1', Hsz3, decide_True by (first [done|apply elem_of_app; right; left]). done.
Qed.

Lemma allocatedBlocks_spec g : heap_ok (ga_mem g) -> allocatedBlocks g = Ok ((heap_end (ga_mem g) - BaseAddress) / BlockSize).
Proof.
  intros Hh. unfold allocatedBlocks. destruct (contiguous_last _ _ (ho_regions _ Hh) (ho_some _ Hh)) as (p & s & -> & E).
  cbn [fst snd]. fold (heap_end (ga_mem g)) in E. pose proof (heap_end_aligned _ Hh) as [_ ?].
  pose proof (ho_max _ Hh). replace (p - BaseAddress + s) with (heap_end (ga_mem g) - BaseAddress) by lia.
  rewrite u64_id; [done|]. unfold is_u64, MaxMemorySize in *. lia.
Qed.

(** What [save] leaves in the snapshot: the size of the heap, and the regions
    of the free list in order. *)
Record ga_saved (nvm : words) (ptr : Z) (g : galloc) (l : list Z) : Prop := {
  gs_total : wget nvm ptr = heap_end (ga_mem g) - BaseAddress;
  gs_length : wget nvm (ptr + 8) = Zlength l;
  gs_regions : forall k a, l !! k = Some a ->
    wget nvm (ptr + 16 + 16 * Z.of_nat k) = a /\ wget nvm (ptr + 16 + 16 * Z.of_nat k + 8) = size_at (ga_mem g) a
}.

Lemma ga_save_spec g l nvm ptr :
  ga_inv g l -> exists nvm', ga_save g nvm ptr = Ok nvm' /\ ga_saved nvm' ptr g l /\ (forall x, x < ptr -> wget nvm' x = wget nvm x).
Proof.
  intros Hinv. pose proof Hinv as [Hh Hd Hn]. unfold ga_save. fold (span (mapped_regions (ga_mem g))).
  set (total := span _). set (nvm0 := wset _ _ 0).
  pose proof (save_free_spec (list_fuel (ga_mem g)) _ _ [] l nvm0 (ptr + 16) 0 Hinv (nodes_fuel _ _ Hn)) as Hs.
  rewrite <- (dll_head _ _ _ Hd) in Hs. destruct Hs as (nvm1 & -> & Hat & Hout). cbn [res_bind].
  eexists. split; [done|]. split; [constructor|].
  - rewrite wget_wset, decide_False, Hout by lia. unfold nvm0. rewrite !wget_wset, decide_False, decide_True by lia.
    unfold heap_end. fold total. lia.
  - by rewrite wget_wset, decide_True by done.
  - intros k a Hk. destruct (Hat k a Hk) as [E1 E2]. rewrite !wget_wset, !decide_False by lia. done.
  - intros x Hx. rewrite wget_wset, decide_False, Hout by lia. unfold nvm0. by rewrite !wget_wset, !decide_False by lia.
Qed.

Lemma ga_saved_ext nvm nvm' ptr g l :
  ga_saved nvm ptr g l -> (forall x, ptr <= x < ptr + 16 + 16 * Zlength l -> wget nvm' x = wget nvm x) -> ga_saved nvm' ptr g l.
Proof.
  intros [H1 H2 H3] Hx. pose proof (Zlength_nonneg l). constructor; [by rewrite Hx by lia|by rewrite Hx by lia|].
  intros k a Hk. destruct (H3 k a Hk) as [E1 E2]. pose proof (lookup_lt_Some _ _ _ Hk) as Hlt. unfold Zlength in Hx.
  by rewrite !Hx by lia.
Qed.

(** In a new process the heap has the same extent, and the free list the same
    regions in the same order. *)
Lemma ga_load_spec (mmap_at : Z -> Z -> bool) g l nvm ptr bitmap_ptr :
  ga_inv g l -> ga_saved nvm ptr g l -> mmap_at BaseAddress (heap_end (ga_mem g) - BaseAddress) = true ->
  exists g', ga_load mmap_at nvm ptr bitmap_ptr = Ok g' /\
    ga_inv g' l /\ (forall a, a ∈ l -> size_at (ga_mem g') a = size_at (ga_mem g) a) /\
    heap_end (ga_mem g') = heap_end (ga_mem g) /\ allocatedBlocks g' = allocatedBlocks g /\
    ga_bitmap g' = loadBitmap ∅ nvm bitmap_ptr.
Proof.
  intros Hinv [Et El Hat] Hm. pose proof Hinv as [Hh Hd Hn]. unfold ga_load. rewrite Et, El. cbn [newBlock]. rewrite Hm.
  set (sz := heap_end (ga_mem g) - BaseAddress). set (m0 := push_region _ _).
  destruct (heap_end_aligned _ Hh) as [Hea _]. pose proof (contiguous_span _ _ (ho_regions _ Hh)) as [Hsp _].
  assert (He0 : heap_end m0 = heap_end (ga_mem g)).
  { unfold m0. unfold heap_end at 1. cbn [mapped_regions push_region app]. unfold span. cbn [foldr snd]. unfold sz. lia. }
  assert (Hpos : 0 < sz).
  { pose proof (ho_regions _ Hh) as Hc. pose proof (ho_some _ Hh) as Hne. unfold sz, heap_end.
    destruct (mapped_regions (ga_mem g)) as [|[p s] rs]; [done|]. destruct Hc as (_ & ? & _ & Hc).
    pose proof (contiguous_span _ _ Hc) as [? _]. change (span ((p, s) :: rs)) with (s + span rs). lia. }
  assert (Hh0 : heap_ok m0).
  { constructor; [|done|rewrite He0; apply Hh]. cbn [m0 mapped_regions push_region app contiguous].
    split; [done|]. split; [done|]. split; [|done]. unfold sz. change BlockSize with 2097152 in *.
    change BaseAddress with 1099511627776. dlia. }
  destruct (load_free_spec l [] m0 0 0 nvm (ptr + 16) (size_at (ga_mem g))) as (m' & f' & E & Hd' & Hreg & _ & Hs2).
  { done. } { apply Hn. } { done. }
  { intros a Ha. destruct (no_bounds _ _ Hn a Ha) as (? & ? & ?), (no_aligned _ _ Hn a Ha) as [? _].
    split; [apply accessible_heap; [done|rewrite He0; lia|by apply block_aligned]|]. split; [unfold BaseAddress in *; lia|lia]. }
  { done. }
  replace (Z.to_nat (Zlength l)) with (length l) by (unfold Zlength; lia). rewrite E. cbn [res_bind fst snd].
  assert (He' : heap_end m' = heap_end (ga_mem g)) by (rewrite <- He0; unfold heap_end; by rewrite Hreg).
  assert (Hh' : heap_ok m') by (by apply (heap_ok_regions m0)).
  eexists. split; [done|]. split.
  { constructor; [done|done|]. apply (nodes_ok_keep (ga_mem g) _ l); [done|apply Hn|done|auto]. }
  split; [done|]. split; [done|]. split; [|cbn [ga_bitmap]; reflexivity]. rewrite !allocatedBlocks_spec by done. cbn [ga_mem]. by rewrite He'.
Qed.

(** ** Concrete instances *)

Definition demo_mmap (a s : Z) : bool := a + s <=? BaseAddress + MaxMemorySize.

Lemma demo_mmap_below a s : demo_mmap a s = true -> a + s <= BaseAddress + MaxMemorySize.
Proof. apply Z.leb_le. Qed.

Definition demo_galloc : galloc := res_get (GlobalAlloc (Mem ∅ []) 0 ∅) (ga_init demo_mmap).
Definition demo_galloc1 : galloc * Z := res_get (demo_galloc, 0) (ga_alloc demo_mmap demo_galloc BlockSize).

Lemma demo_reachable : ga_reachable demo_mmap (fst demo_galloc1, [(snd demo_galloc1, BlockSize)]).
Proof.
  apply (reach_step _ (demo_galloc, [])); [apply reach_init; by vm_compute|].
  apply step_alloc; [split; [by vm_compute|done]|by vm_compute].
Qed.

Lemma global_alloc_safe_witness :
  exists g', release (fst demo_galloc1) (snd demo_galloc1) BlockSize = Ok g'.
Proof.
  destruct (global_alloc_safe demo_mmap demo_mmap_below _ _ demo_reachable) as (_ & _ & _ & _ & Hrel).
  destruct (Hrel [] (snd demo_galloc1) BlockSize [] eq_refl) as (g' & E & _); [|by exists g'].
  intros a n Hn Hx.
  assert (He : heap_end (ga_mem (fst demo_galloc1)) = BaseAddress + 268435456) by (by vm_compute).
  destruct (Z.lt_ge_cases n (2 ^ 29)) as [|Hge]; [done|].
  destruct (Hx a ltac:(lia)) as [H1 _]. destruct (Hx (a + n - 1) ltac:(lia)) as [H2 _]. rewrite He in *.
  change (2 ^ 29) with 536870912 in *. lia.
Defined.

(** Merging overflows the 29-bit size of a header: after two pools of
    256 MB were allocated whole and released, the free list holds one region
    of size 0, and the 512 MB are lost. *)
Theorem release_merge_overflow :
  exists g a b g', ga_reachable demo_mmap (g, [(b, MinPoolSize); (a, MinPoolSize)]) /\
    (let* g1 := release g a MinPoolSize in release g1 b MinPoolSize) = Ok g' /\
    ga_free_list g' = a /\ size (line_at (ga_mem g') a) = 0 /\ next (line_at (ga_mem g') a) = 0 /\
    heap_end (ga_mem g') = BaseAddress + 2 * MinPoolSize.
Proof.
  set (r1 := res_get (demo_galloc, 0) (ga_alloc demo_mmap demo_galloc MinPoolSize)).
  set (r2 := res_get (demo_galloc, 0) (ga_alloc demo_mmap (fst r1) MinPoolSize)).
  set (g' := res_get demo_galloc (let* g1 := release (fst r2) (snd r1) MinPoolSize in release g1 (snd r2) MinPoolSize)).
  exists (fst r2), (snd r1), (snd r2), g'. split; [|by vm_compute].
  apply (reach_step _ (fst r1, [(snd r1, MinPoolSize)])); [apply (reach_step _ (demo_galloc, []))|].
  - apply reach_init. by vm_compute.
  - apply step_alloc; [split; [by vm_compute|done]|by vm_compute].
  - apply step_alloc; [split; [by vm_compute|done]|by vm_compute].
Qed.

(** [alloc] reads [free_list] before it takes the mutex.  Two threads read
    the same head; one of them takes the whole region and its owner writes to
    it; the other one then finds what it takes for a free region in there,
    and both threads hold the same memory. *)
Lemma stale_head_overlaps :
  exists g1 g2 a b, ga_alloc demo_mmap demo_galloc MinPoolSize = Ok (g1, a) /\
    ga_alloc_locked demo_mmap (ga_free_list demo_galloc)
      (with_mem g1 (store (ga_mem g1) a (Line 0 0 0 0 0 (2 * BlockSize) 0 0 0))) BlockSize = Ok (g2, b) /\
    a <= b /\ b + BlockSize <= a + MinPoolSize.
Proof.
  set (r1 := res_get (demo_galloc, 0) (ga_alloc demo_mmap demo_galloc MinPoolSize)).
  set (g1 := with_mem (fst r1) (store (ga_mem (fst r1)) (snd r1) (Line 0 0 0 0 0 (2 * BlockSize) 0 0 0))).
  set (r2 := res_get (demo_galloc, 0) (ga_alloc_locked demo_mmap (ga_free_list demo_galloc) g1 BlockSize)).
  exists (fst r1), (fst r2), (snd r1), (snd r2). by vm_compute.
Qed.
