(* ===== verification/FreeList.v ===== *)
(** * Free lists (class FreeList of ckpt_alloc.cpp)

    A free list owns blocks of 2 MB.  A block is cut into chunks that lie end
    to end; each begins with a header, free chunks are also linked into one
    of 14 buckets by size.  This file holds the operations; FreeListProofs.v
    proves them. *)

From stdpp Require Import base numbers list gmap.
From S2P Require Import Prelude Bitmap Heap GlobalAlloc.

Definition TOTAL_ALLOC_BUCKETS : nat := 14.

Definition BucketCaps : list Z :=
  [0x00040; 0x00080; 0x00100; 0x00200; 0x00400; 0x00800; 0x01000; 0x02000;
   0x04000; 0x08000; 0x10000; 0x20000; 0x40000; UINT64_MAX].

Record flist := FreeList {
  my_id : Z;
  buckets : list Z;
  total_allocated : Z;
  global_allocs : Z;
  chain_lookups : Z;
  xlock : Z;
  lock_holders : Z
}.

Definition fl_init (id : Z) : flist := FreeList (u16 id) (replicate TOTAL_ALLOC_BUCKETS 0) 0 0 0 0 0.

Definition set_bucket (fl : flist) (b : nat) (v : Z) : flist :=
  FreeList (my_id fl) (<[b := v]> (buckets fl)) (total_allocated fl) (global_allocs fl)
    (chain_lookups fl) (xlock fl) (lock_holders fl).
Definition set_total (fl : flist) (v : Z) : flist :=
  FreeList (my_id fl) (buckets fl) v (global_allocs fl) (chain_lookups fl) (xlock fl) (lock_holders fl).
Definition set_global (fl : flist) (v : Z) : flist :=
  FreeList (my_id fl) (buckets fl) (total_allocated fl) v (chain_lookups fl) (xlock fl) (lock_holders fl).
Definition set_lookups (fl : flist) (v : Z) : flist :=
  FreeList (my_id fl) (buckets fl) (total_allocated fl) (global_allocs fl) v (xlock fl) (lock_holders fl).
Definition set_lock (fl : flist) (x n : Z) : flist :=
  FreeList (my_id fl) (buckets fl) (total_allocated fl) (global_allocs fl) (chain_lookups fl) x n.

(** [lock] by a thread that finds [xlock] clear (otherwise it spins), and
    [unlock], with the checks of the unoptimised build. *)
Definition fl_lock (fl : flist) : res flist :=
  if xlock fl =? 0 then
    assert! u64 (lock_holders fl + 1) =? 1 in
    Ok (set_lock fl 1 (u64 (lock_holders fl + 1)))
  else NoFuel.

Definition fl_unlock (fl : flist) : res flist :=
  assert! u64 (lock_holders fl - 1) =? 0 in
  assert! xlock fl =? 1 in
  Ok (set_lock fl 0 (u64 (lock_holders fl - 1))).

(** [while (size > BucketCaps[bucket]) bucket++] *)
Fixpoint find_bucket_in (caps : list Z) (size0 : Z) : nat :=
  match caps with
  | [] => O
  | cap :: caps => if cap <? size0 then S (find_bucket_in caps size0) else O
  end.
Definition findBucket (size0 : Z) : nat := find_bucket_in BucketCaps size0.

Definition chunkOffset (chunk : Z) : Z := u16 (Z.shiftr (Z.land chunk 0x1FFFFF) 6).
Definition isLastChunkOfBlock (chunk size0 : Z) : bool := Z.land chunk 0x1FFFFF + size0 =? 0x200000.

(** The neighbours of a chunk in its block, 0 when there is none. *)
Definition prevChunk (m : mem) (chunk : Z) : res Z :=
  if chunkOffset chunk =? 0 then Ok 0
  else
    let* l := hget m chunk in
    Ok (chunk - Z.shiftl (chunkOffset chunk - prev_offset l) 6).
Definition nextChunk (m : mem) (chunk : Z) : res Z :=
  let* l := hget m chunk in
  if last l =? 1 then Ok 0 else Ok (chunk + size l).

Definition bucket_head (fl : flist) (b : nat) : res Z :=
  match buckets fl !! b with Some h => Ok h | None => Segfault end.

Definition addFreeChunk (m : mem) (fl : flist) (ptr size0 : Z) : res (mem * flist) :=
  let b := findBucket size0 in
  let* h := bucket_head fl b in
  let* m := hupd m ptr (fun l => set_next (set_prev l 0) h) in
  let* m := if negb (h =? 0) then hupd m h (fun l => set_prev l ptr) else Ok m in
  Ok (m, set_bucket fl b ptr).

Definition b2z (b : bool) : Z := if b then 1 else 0.

(** A free chunk [fc] of bucket [b] that is big enough: either its end is cut
    off and it stays in its bucket, or it is removed and the rest of it is
    put back. *)
Definition take_chunk (m : mem) (fl : flist) (b : nat) (fc size0 : Z) : res (mem * flist * Z) :=
  let* l := hget m fc in
  let remainder := size l - size0 in
  if (0 <? Z.of_nat b) && (BucketCaps !!! (b - 1)%nat <? remainder) then
    let chunk := fc + remainder in
    let* m := hupd m chunk (fun c => set_used (set_prev_offset c (chunkOffset fc)) 0) in
    let* m :=
      if negb (last l =? 1) then
        let* n := nextChunk m fc in
        hupd m n (fun c => set_prev_offset c (chunkOffset chunk))
      else Ok m in
    let* m := hupd m fc (fun c => set_size (set_last c 0) remainder) in
    Ok (m, fl, chunk)
  else
    let* h := bucket_head fl b in
    let* (m, h) := fix_prev m h fc in
    let fl := set_bucket fl b h in
    let* m := fix_next m fc in
    if 0 <? remainder then
      let chunk := fc in
      let fc := fc + size0 in
      let* m := hupd m fc (fun c =>
        let c := set_free_list_id (set_prev_offset c (chunkOffset chunk)) (my_id fl) in
        let c := set_last c (b2z (isLastChunkOfBlock fc (size c))) in
        set_size (set_used c 0) remainder) in
      let* c := hget m fc in
      let* m :=
        if negb (last c =? 1) then hupd m (fc + size c) (fun n => set_prev_offset n (chunkOffset fc))
        else Ok m in
      let* (m, fl) := addFreeChunk m fl fc (size c) in
      Ok (m, fl, chunk)
    else Ok (m, fl, fc).

(** [while (++chain_lookups && fc != NULL)]: first fit in one bucket. *)
Fixpoint find_in_bucket (fuel : nat) (m : mem) (fl : flist) (fc size0 : Z) : res (flist * option Z) :=
  match fuel with
  | O => NoFuel
  | S fuel =>
      let fl := set_lookups fl (u64 (chain_lookups fl + 1)) in
      if fc =? 0 then Ok (fl, None)
      else
        let* l := hget m fc in
        if size0 <=? size l then Ok (fl, Some fc) else find_in_bucket fuel m fl (next l) size0
  end.

(** [while (chunk == NULL && bucket < TOTAL_ALLOC_BUCKETS)] *)
Fixpoint match_loop (n : nat) (m : mem) (fl : flist) (b : nat) (size0 : Z) : res (mem * flist * option Z) :=
  match n with
  | O => Ok (m, fl, None)
  | S n =>
      let* h := bucket_head fl b in
      let* (fl, found) := find_in_bucket (list_fuel m) m fl h size0 in
      match found with
      | Some fc => let* (m, fl, chunk) := take_chunk m fl b fc size0 in Ok (m, fl, Some chunk)
      | None => match_loop n m fl (S b) size0
      end
  end.

Definition findBestMatch (m : mem) (fl : flist) (size0 : Z) : res (mem * flist * option Z) :=
  let b := findBucket size0 in
  assert! (b <? TOTAL_ALLOC_BUCKETS)%nat in
  let* (m, fl, chunk) := match_loop (TOTAL_ALLOC_BUCKETS - b) m fl b size0 in
  match chunk with
  | None => Ok (m, fl, None)
  | Some c =>
      let* l := hget m c in
      assert! used l =? 0 in
      Ok (m, fl, Some c)
  end.

Section FreeList.
Variable mmap_at : Z -> Z -> bool.

(** The header of an allocated chunk, and the byte counter. *)
Definition finish_alloc (g : galloc) (fl : flist) (chunk size0 : Z) : res (galloc * flist * Z) :=
  let* m := hupd (ga_mem g) chunk (fun c =>
    set_last (set_free_list_id c (my_id fl)) (b2z (isLastChunkOfBlock chunk size0))) in
  let* l := hget m chunk in
  assert! free_list_id l =? my_id fl in
  assert! used l =? 0 in
  let* m := hupd m chunk (fun c => set_size (set_used c 1) size0) in
  Ok (with_mem g m, set_total fl (u64 (total_allocated fl + size0)), chunk).

Definition fl_alloc (g : galloc) (fl : flist) (size0 : Z) : res (galloc * flist * Z) :=
  let* (m, fl, found) := findBestMatch (ga_mem g) fl size0 in
  let g := with_mem g m in
  match found with
  | Some chunk => finish_alloc g fl chunk size0
  | None =>
      let* (g, chunk) := ga_alloc mmap_at g BlockSize in
      let* m := hupd (ga_mem g) chunk (fun c => set_prev_offset (set_used c 0) 0) in
      let* (m, fl) :=
        if size0 <? BlockSize then
          let fc := chunk + size0 in
          let* m := hupd m fc (fun c =>
            set_size (set_used (set_last (set_free_list_id (set_prev_offset c 0) (my_id fl)) 1) 0) (BlockSize - size0)) in
          let* c := hget m fc in
          addFreeChunk m fl fc (size c)
        else Ok (m, fl) in
      finish_alloc (with_mem g m) (set_global fl (u64 (global_allocs fl + 1))) chunk size0
  end.

Definition removeChunkFromBuckets (m : mem) (fl : flist) (chunk : Z) : res (mem * flist) :=
  let* l := hget m chunk in
  let b := findBucket (size l) in
  let* h := bucket_head fl b in
  let* (m, h) := fix_prev m h chunk in
  let* m := fix_next m chunk in
  Ok (m, set_bucket fl b h).

(** [freeAndCoalesce]: the first half merges the chunk into a free
    predecessor [p], the second merges a free successor [n] into it. *)
Definition coalesce_prev (m : mem) (fl : flist) (p n chunk : Z) : res (mem * flist * Z) :=
  if p =? 0 then Ok (m, fl, chunk)
  else
    let* pl := hget m p in
    if used pl =? 0 then
      let* (m, fl) := removeChunkFromBuckets m fl p in
      let* cl := hget m chunk in
      let* m := hupd m p (fun l => set_last (set_size l (size l + size cl)) (last cl)) in
      let chunk := p in
      let* m :=
        if n =? 0 then Ok m
        else
          let* nl := hget m n in
          if used nl =? 1 then hupd m n (fun l => set_prev_offset l (chunkOffset chunk)) else Ok m in
      Ok (m, fl, chunk)
    else Ok (m, fl, chunk).

Definition coalesce_next (m : mem) (fl : flist) (n chunk : Z) : res (mem * flist * Z) :=
  if n =? 0 then Ok (m, fl, chunk)
  else
    let* nl := hget m n in
    if used nl =? 0 then
      let* (m, fl) := removeChunkFromBuckets m fl n in
      let* m := hupd m chunk (fun l => set_last (set_size l (size l + size nl)) (last nl)) in
      let* cl := hget m chunk in
      let* m :=
        if negb (last cl =? 1) then
          let* n := nextChunk m chunk in
          hupd m n (fun l => set_prev_offset l (chunkOffset chunk))
        else Ok m in
      Ok (m, fl, chunk)
    else Ok (m, fl, chunk).

Definition freeAndCoalesce (m : mem) (fl : flist) (chunk : Z) : res (mem * flist * Z) :=
  let* p := prevChunk m chunk in
  let* n := nextChunk m chunk in
  let* m := hupd m chunk (fun c => set_used c 0) in
  if (p =? 0) && (n =? 0) then Ok (m, fl, chunk)
  else
    let* (m, fl, chunk) := coalesce_prev m fl p n chunk in
    coalesce_next m fl n chunk.

(** The pages of the bitmap that [dealloc] clears. *)
Definition dealloc_range (chunk chunk_size fc fc_size : Z) : Z * Z :=
  let lb := mask_down chunk BitmapGranularity in
  let ub := mask_down (chunk + chunk_size) BitmapGranularity in
  let lb := if lb <? fc then lb + BitmapGranularity else lb in
  let ub := if ub + BitmapGranularity <=? fc + fc_size then ub + BitmapGranularity else ub in
  (lb, ub).

Definition fl_dealloc (g : galloc) (fl : flist) (chunk : Z) : res (galloc * flist) :=
  let* l := hget (ga_mem g) chunk in
  assert! used l =? 1 in
  let chunk_size := size l in
  let* (m, fl, fc) := freeAndCoalesce (ga_mem g) fl chunk in
  let* fcl := hget m fc in
  let* (m, fl) := addFreeChunk m fl fc (size fcl) in
  let g := with_mem g m in
  assert! chunk_size <=? total_allocated fl in
  let fl := set_total fl (total_allocated fl - chunk_size) in
  let* fcl := hget m fc in
  if size fcl <? BitmapGranularity then Ok (g, fl)
  else
    let (lb, ub) := dealloc_range chunk chunk_size fc (size fcl) in
    if 0 <? u64 (ub - lb) then
      let* bm := unsetBitmap (ga_bitmap g) lb (u64 (ub - lb)) in
      Ok (with_bitmap g bm, fl)
    else Ok (g, fl).

(** [memcpy(dst + 8, src + 8, n - 8)], line by line. *)
Fixpoint copy_lines (k : nat) (m : mem) (dst src : Z) : res mem :=
  match k with
  | O => Ok m
  | S k =>
      let* l := hget m src in
      let* m := hset m dst l in
      copy_lines k m (dst + 64) (src + 64)
  end.
Definition copy_chunk (m : mem) (dst src n : Z) : res mem :=
  let* l := hget m src in
  let* m := hupd m dst (fun d => copy_data l d) in
  copy_lines (Z.to_nat (n / 64 - 1)) m (dst + 64) (src + 64).

Definition fl_realloc (g : galloc) (fl : flist) (chunk new_size : Z) : res (galloc * flist * Z) :=
  let* l := hget (ga_mem g) chunk in
  if new_size <=? size l then Ok (g, fl, chunk)
  else
    let increase := new_size - size l in
    let* nx := nextChunk (ga_mem g) chunk in
    let* extend :=
      if nx =? 0 then Ok false
      else let* nl := hget (ga_mem g) nx in Ok (negb (used nl =? 1) && (increase <=? size nl)) in
    if negb extend then
      let* (g, fl, new_chunk) := fl_alloc g fl new_size in
      let* m := copy_chunk (ga_mem g) new_chunk chunk (size l) in
      let* (g, fl) := fl_dealloc (with_mem g m) fl chunk in
      let* bm := setBitmap (ga_bitmap g) new_chunk new_size in
      Ok (with_bitmap g bm, fl, new_chunk)
    else
      let fc := nx in
      let* (m, fl) := removeChunkFromBuckets (ga_mem g) fl fc in
      let* nn := nextChunk m fc in
      let* fcl := hget m fc in
      let* (m, fl) :=
        if increase <? size fcl then
          let* m := hupd m (fc + increase) (fun d => copy_header fcl d) in
          let fc := fc + increase in
          let* m := hupd m fc (fun c => set_size c (size c - increase)) in
          let* m := if nn =? 0 then Ok m else hupd m nn (fun c => set_prev_offset c (chunkOffset fc)) in
          let* c := hget m fc in
          addFreeChunk m fl fc (size c)
        else
          let* m := if nn =? 0 then Ok m else hupd m nn (fun c => set_prev_offset c (prev_offset fcl)) in
          let* m := hupd m chunk (fun c => set_last c (last fcl)) in
          Ok (m, fl) in
      let* cl := hget m chunk in
      let* bm := setBitmap (ga_bitmap g) (chunk + size cl) increase in
      let* m := hupd m chunk (fun c => set_size c new_size) in
      Ok (with_bitmap (with_mem g m) bm, fl, chunk).

Definition big_alloc (g : galloc) (fl : flist) (size0 : Z) : res (galloc * Z) :=
  let allocSize := mask_down size0 BlockSize in
  let allocSize := if allocSize <? size0 then allocSize + BlockSize else allocSize in
  let* (g, chunk) := ga_alloc mmap_at g allocSize in
  let* m := hupd (ga_mem g) chunk (fun c =>
    set_size (set_jumbo (set_used (set_last (set_free_list_id (set_prev_offset c 0) (my_id fl)) 1) 1) 1) size0) in
  Ok (with_mem g m, chunk).

Definition big_dealloc (g : galloc) (chunk : Z) : res galloc :=
  let* l := hget (ga_mem g) chunk in
  let blocks := size l / BlockSize in
  let blocks := if negb (size l mod BlockSize =? 0) then blocks + 1 else blocks in
  let* m := hupd (ga_mem g) chunk (fun c => copy_header zero_line c) in
  let* bm := unsetBitmapForBigDealloc (ga_bitmap g) chunk blocks in
  release (with_bitmap (with_mem g m) bm) chunk (blocks * BlockSize).

(** [while (chunk != NULL)] of [releaseFreeBlocks]. *)
Fixpoint release_loop (fuel : nat) (g : galloc) (fl : flist) (chunk : Z) : res (galloc * flist) :=
  match fuel with
  | O => NoFuel
  | S fuel =>
      if chunk =? 0 then Ok (g, fl)
      else
        let* l := hget (ga_mem g) chunk in
        let* (g, fl) :=
          if size l =? BlockSize then
            let* h := bucket_head fl (TOTAL_ALLOC_BUCKETS - 1) in
            let* (m, h) := fix_prev (ga_mem g) h chunk in
            let* m := fix_next m chunk in
            let* g := release (with_mem g m) chunk BlockSize in
            Ok (g, set_bucket fl (TOTAL_ALLOC_BUCKETS - 1) h)
          else Ok (g, fl) in
        release_loop fuel g fl (next l)
  end.

Definition releaseFreeBlocks (g : galloc) (fl : flist) : res (galloc * flist) :=
  let* h := bucket_head fl (TOTAL_ALLOC_BUCKETS - 1) in
  release_loop (list_fuel (ga_mem g)) g fl h.

End FreeList.

(** ** Snapshots of a free list *)

Definition fl_snapshotSize : Z := 8 + 8 + 8 + 8 + Z.of_nat TOTAL_ALLOC_BUCKETS * 8.

Fixpoint save_buckets (bs : list Z) (nvm : words) (ptr : Z) : words :=
  match bs with [] => nvm | b :: bs => save_buckets bs (wset nvm ptr b) (ptr + 8) end.

Definition fl_save (fl : flist) (nvm : words) (ptr : Z) : words :=
  let nvm := wset nvm ptr (my_id fl) in
  let nvm := wset nvm (ptr + 8) (total_allocated fl) in
  let nvm := wset nvm (ptr + 16) (global_allocs fl) in
  let nvm := wset nvm (ptr + 24) (chain_lookups fl) in
  save_buckets (buckets fl) nvm (ptr + 32).

Fixpoint load_buckets (n : nat) (nvm : words) (ptr : Z) : list Z :=
  match n with O => [] | S n => wget nvm ptr :: load_buckets n nvm (ptr + 8) end.

Definition fl_load (fl : flist) (nvm : words) (ptr : Z) : flist :=
  FreeList (u16 (wget nvm ptr)) (load_buckets TOTAL_ALLOC_BUCKETS nvm (ptr + 32)) (wget nvm (ptr + 8))
    (wget nvm (ptr + 16)) (wget nvm (ptr + 24)) (xlock fl) (lock_holders fl).
