(* ===== verification/FreeListTiling.v ===== *)
(** * The chunks of free lists tile their blocks

    The abstract state of a free list is the map [C] of its chunks: address
    to size and whether the chunk is in use.  [tiling] says that the headers
    in memory describe exactly these chunks and that they tile their blocks.
    Marking, merging and cutting chunks, and adding a block, is proved once
    for each; FreeListProofs.v and FreeListDealloc.v build on these lemmas. *)

From stdpp Require Import base numbers list gmap.
From S2P Require Import Prelude Bitmap Heap GlobalAlloc FreeList GlobalAllocProofs.

Notation chunks := (gmap Z (Z * bool)).

(** Offset of an address in its block. *)
Definition off (c : Z) : Z := c mod BlockSize.

Lemma off_range c : 0 <= off c < BlockSize.
Proof. apply Z.mod_pos_bound. reflexivity. Qed.

Lemma off_add c s : off c + s < BlockSize -> 0 <= s -> off (c + s) = off c + s.
Proof.
  intros. pose proof (off_range c). unfold off in *. rewrite Z.add_mod by done.
  rewrite (Z.mod_small s) by lia. apply Z.mod_small. lia.
Qed.

Lemma land_off c : 0 <= c -> Z.land c 0x1FFFFF = off c.
Proof. intros. change 0x1FFFFF with (Z.ones 21). by rewrite Z.land_ones. Qed.

Lemma chunkOffset_off c : 0 <= c -> chunkOffset c = off c / 64.
Proof.
  intros Hc. unfold chunkOffset. rewrite land_off by done. rewrite Z.shiftr_div_pow2 by lia.
  change (2 ^ 6) with 64. pose proof (off_range c). change BlockSize with 2097152 in *.
  unfold u16. apply Z.mod_small. change (2 ^ 16) with 65536. dlia.
Qed.

Lemma isLast_off c s : 0 <= c -> isLastChunkOfBlock c s = (off c + s =? BlockSize).
Proof. intros. unfold isLastChunkOfBlock. by rewrite land_off. Qed.

Lemma u16_chunkOffset c : u16 (chunkOffset c) = chunkOffset c.
Proof. unfold chunkOffset, u16. by rewrite Z.mod_mod. Qed.

Lemma b2z_mod b : b2z b mod 2 = b2z b.
Proof. by destruct b. Qed.

(** ** Buckets of sizes *)

Lemma findBucket_spec s :
  s <= UINT64_MAX ->
  (findBucket s < 14)%nat /\ s <= BucketCaps !!! findBucket s /\
  ((0 < findBucket s)%nat -> BucketCaps !!! (findBucket s - 1)%nat < s).
Proof.
  intros Hs. unfold findBucket, BucketCaps, UINT64_MAX in *. cbn [find_bucket_in].
  repeat match goal with |- context [?a <? s] => destruct (Z.ltb_spec a s) end;
    (split; [lia|split; [simpl; lia|intros ?; simpl; try lia]]).
Qed.

Lemma caps_pos b : (b < 14)%nat -> 0 < BucketCaps !!! b.
Proof. intros Hb. do 14 (destruct b as [|b]; [done|]). lia. Qed.

Lemma findBucket_mono s b :
  (0 < b < 14)%nat -> s <= BucketCaps !!! b -> BucketCaps !!! (b - 1)%nat < s -> findBucket s = b.
Proof.
  intros Hb. unfold findBucket, BucketCaps. cbn [find_bucket_in].
  do 14 (destruct b as [|b]; [first [lia|simpl; intros; 
    repeat match goal with |- context [?a <? s] => destruct (Z.ltb_spec a s); try lia end; done]|]). lia.
Qed.

(** ** Tiling *)

Record chunk_ok (m : mem) (id : Z) (C : chunks) (ex c s : Z) (u : bool) : Prop := {
  ck_aligned : c mod 64 = 0 /\ s mod 64 = 0 /\ 0 < s;
  ck_heap : BaseAddress <= c /\ c - off c + BlockSize <= heap_end m;
  ck_block : off c + s <= BlockSize;
  ck_size : size (line_at m c) = s;
  ck_used : used (line_at m c) = b2z u;
  ck_id : free_list_id (line_at m c) = id;
  ck_last : last (line_at m c) = b2z (off c + s =? BlockSize);
  ck_next : off c + s < BlockSize -> is_Some (C !! (c + s));
  ck_prev : off c <> 0 -> exists p sp up, C !! p = Some (sp, up) /\ p + sp = c /\
              (c <> ex -> prev_offset (line_at m c) = off p / 64)
}.

(** The chunks [C] tile their blocks; the back offset of the chunk at [ex]
    may be out of date. *)
Record tiling (m : mem) (id : Z) (C : chunks) (ex : Z) : Prop := {
  ti_heap : heap_ok m;
  ti_chunk : forall c s u, C !! c = Some (s, u) -> chunk_ok m id C ex c s u;
  ti_disjoint : forall c s u d t v, C !! c = Some (s, u) -> C !! d = Some (t, v) -> c <> d ->
                  c + s <= d \/ d + t <= c
}.

Lemma tiling_pos m id C ex c s u : tiling m id C ex -> C !! c = Some (s, u) -> 0 < c.
Proof. intros Ht Hc. destruct (ck_heap _ _ _ _ _ _ _ (ti_chunk _ _ _ _ Ht _ _ _ Hc)). unfold BaseAddress in *. lia. Qed.

Lemma tiling_size m id C ex c s u : tiling m id C ex -> C !! c = Some (s, u) -> 0 < s.
Proof. intros Ht Hc. apply (ck_aligned _ _ _ _ _ _ _ (ti_chunk _ _ _ _ Ht _ _ _ Hc)). Qed.

Lemma chunk_accessible m id C ex c s u :
  tiling m id C ex -> C !! c = Some (s, u) -> accessible m c = true.
Proof.
  intros Ht Hc. destruct (ti_chunk _ _ _ _ Ht _ _ _ Hc) as [(? & _) [? ?] ? _ _ _ _ _ _].
  pose proof (off_range c). apply accessible_heap; [apply Ht|lia|done].
Qed.

(** Chunks that end at the same place are the same. *)
Lemma same_end m id C ex c s u d t v :
  tiling m id C ex -> C !! c = Some (s, u) -> C !! d = Some (t, v) -> c + s = d + t -> c = d.
Proof.
  intros Ht Hc Hd E. destruct (decide (c = d)) as [|Hne]; [done|exfalso].
  destruct (ck_aligned _ _ _ _ _ _ _ (ti_chunk _ _ _ _ Ht _ _ _ Hc)) as (_ & _ & ?).
  destruct (ck_aligned _ _ _ _ _ _ _ (ti_chunk _ _ _ _ Ht _ _ _ Hd)) as (_ & _ & ?).
  destruct (ti_disjoint _ _ _ _ Ht _ _ _ _ _ _ Hc Hd Hne); lia.
Qed.

Lemma chunk_interior m id C ex c s u x :
  tiling m id C ex -> C !! c = Some (s, u) -> c < x < c + s -> C !! x = None.
Proof.
  intros Ht Hc Hx. destruct (C !! x) as [[t v]|] eqn:E; [exfalso|done].
  destruct (ck_aligned _ _ _ _ _ _ _ (ti_chunk _ _ _ _ Ht _ _ _ E)) as (_ & _ & ?).
  destruct (ti_disjoint _ _ _ _ Ht _ _ _ _ _ _ Hc E); lia.
Qed.

Lemma interior_accessible m id C ex c s u x :
  tiling m id C ex -> C !! c = Some (s, u) -> c <= x < c + s -> x mod 64 = 0 -> accessible m x = true.
Proof.
  intros Ht Hc Hx Hal. destruct (ti_chunk _ _ _ _ Ht _ _ _ Hc) as [_ [? ?] ? _ _ _ _ _ _].
  pose proof (off_range c). apply accessible_heap; [apply Ht|lia|done].
Qed.

(** Only the header fields of chunk lines matter. *)
Lemma tiling_strip m m' id C ex :
  tiling m id C ex -> mapped_regions m' = mapped_regions m ->
  (forall c s u, C !! c = Some (s, u) -> strip (line_at m' c) = strip (line_at m c)) ->
  tiling m' id C ex.
Proof.
  intros [Hh Hc Hd] Hreg Hs. constructor; [by apply (heap_ok_regions m)| |done].
  intros c s u Hcs. destruct (Hc c s u Hcs) as [? ? ? H1 H2 H3 H4 ? H6]. specialize (Hs c s u Hcs).
  constructor; try done.
  - unfold heap_end. by rewrite Hreg.
  - rewrite <- H1. exact (f_equal size Hs).
  - rewrite <- H2. exact (f_equal used Hs).
  - rewrite <- H3. exact (f_equal free_list_id Hs).
  - rewrite <- H4. exact (f_equal last Hs).
  - intros Ho. destruct (H6 Ho) as (p & sp & up & ? & ? & Hp). exists p, sp, up. do 2 (split; [done|]).
    intros Hex. rewrite <- (Hp Hex). exact (f_equal prev_offset Hs).
Qed.

(** Everything of a header but the back offset. *)
Definition header_eq (l l' : line) : Prop :=
  size l' = size l /\ used l' = used l /\ free_list_id l' = free_list_id l /\ last l' = last l.

Lemma strip_header l l' : strip l' = strip l -> header_eq l l' /\ prev_offset l' = prev_offset l.
Proof.
  intros E. split; [|exact (f_equal prev_offset E)]. repeat split;
    [exact (f_equal size E)|exact (f_equal used E)|exact (f_equal free_list_id E)|exact (f_equal last E)].
Qed.

(** The chunk [a] with a header that differs only in the flag [used]. *)
Lemma tiling_used m id C ex a s u u' :
  tiling m id C ex -> C !! a = Some (s, u) ->
  tiling (store m a (set_used (line_at m a) (b2z u'))) id (<[a := (s, u')]> C) ex.
Proof.
  intros [Hh Hc Hd] Ha. set (m' := store _ _ _).
  assert (Hline : forall c, header_eq (line_at m c) (line_at m' c) \/ c = a).
  { intros c. destruct (decide (c = a)) as [->|Hne]; [by right|left]. unfold m'. by rewrite line_at_store_ne. }
  assert (Hpo : forall c, prev_offset (line_at m' c) = prev_offset (line_at m c)).
  { intros c. unfold m'. rewrite line_at_store. case_decide as E; [by subst c|done]. }
  assert (Hmono : forall c, is_Some (C !! c) -> is_Some (<[a := (s, u')]> C !! c)).
  { intros c Hs. destruct (decide (c = a)) as [->|]; [rewrite lookup_insert_eq; by eexists|by rewrite lookup_insert_ne]. }
  assert (Hprev : forall p sp up, C !! p = Some (sp, up) -> exists up', <[a := (s, u')]> C !! p = Some (sp, up')).
  { intros p sp up Hp. destruct (decide (p = a)) as [->|]; [|exists up; by rewrite lookup_insert_ne].
    rewrite Ha in Hp. injection Hp as -> ->. exists u'. by rewrite lookup_insert_eq. }
  constructor; [by apply (heap_ok_regions m)|..].
  - intros c t v Hcv. assert (Hold : exists v', C !! c = Some (t, v') /\ (c <> a -> v = v')).
    { apply lookup_insert_Some in Hcv as [[<- [= <- <-]]|[Hne Hcv]]; [by exists u|by exists v]. }
    destruct Hold as (v' & Hold & Hv). destruct (Hc c t v' Hold) as [? ? ? H1 H2 H3 H4 H5 H6].
    constructor; try done; [..|auto|].
    + destruct (Hline c) as [(-> & _)| ->]; [done|]. unfold m'. by rewrite line_at_store_eq.
    + destruct (decide (c = a)) as [->|Hne].
      * unfold m'. rewrite line_at_store_eq. rewrite lookup_insert_eq in Hcv. injection Hcv as <- <-. by destruct u'.
      * unfold m'. rewrite line_at_store_ne by done. rewrite (Hv Hne). done.
    + destruct (Hline c) as [(_ & _ & -> & _)| ->]; [done|]. unfold m'. by rewrite line_at_store_eq.
    + destruct (Hline c) as [(_ & _ & _ & ->)| ->]; [done|]. unfold m'. by rewrite line_at_store_eq.
    + intros Ho. destruct (H6 Ho) as (p & sp & up & Hp & E & Hpr). destruct (Hprev p sp up Hp) as (up' & Hp').
      exists p, sp, up'. do 2 (split; [done|]). intros Hex. rewrite Hpo. auto.
  - intros c t v d t' v' H1 H2 Hne.
    assert (Hold : forall e r w, <[a := (s, u')]> C !! e = Some (r, w) -> exists w', C !! e = Some (r, w')).
    { intros e r w [[<- [= <- <-]]|[_ He]]%lookup_insert_Some; [by exists u|by exists w]. }
    destruct (Hold c t v H1) as (w1 & ?), (Hold d t' v' H2) as (w2 & ?). by eapply Hd.
Qed.

(** ** Merging a chunk into the one before it *)

Section Merge.
Context (m m' : mem) (id : Z) (C : chunks) (ex a sa : Z) (ua : bool) (b sb : Z) (ub u : bool).
Hypothesis Ht : tiling m id C ex.
Hypothesis Ha : C !! a = Some (sa, ua).
Hypothesis Hb : C !! b = Some (sb, ub).
Hypothesis Eb : b = a + sa.
Hypothesis Hoff : off a + sa < BlockSize.
Hypothesis Hex : forall c, C !! c <> None -> c = ex -> c = b.
Hypothesis Hreg : mapped_regions m' = mapped_regions m.
Hypothesis Esz : size (line_at m' a) = sa + sb.
Hypothesis Elast : last (line_at m' a) = last (line_at m b).
Hypothesis Eused : used (line_at m' a) = b2z u.
Hypothesis Eid : free_list_id (line_at m' a) = id.
Hypothesis Epo : prev_offset (line_at m' a) = prev_offset (line_at m a).
Hypothesis Hother : forall c, C !! c <> None -> c <> a -> c <> b -> strip (line_at m' c) = strip (line_at m c).

Let C' : chunks := <[a := (sa + sb, u)]> (delete b C).

Lemma merge_lookup c t v :
  C' !! c = Some (t, v) -> (c = a /\ t = sa + sb /\ v = u) \/ (c <> a /\ c <> b /\ C !! c = Some (t, v)).
Proof.
  intros [[<- [= <- <-]]|[Hca Hcv]]%lookup_insert_Some; [by left|right].
  apply lookup_delete_Some in Hcv as [? ?]. done.
Qed.

Lemma merge_keep c t v : c <> a -> c <> b -> C !! c = Some (t, v) -> C' !! c = Some (t, v).
Proof. intros ? ? ?. unfold C'. rewrite lookup_insert_ne, lookup_delete_ne by done. done. Qed.

Lemma merge_chunk_ok : chunk_ok m' id C' (b + sb) a (sa + sb) u.
Proof.
  destruct (ti_chunk _ _ _ _ Ht _ _ _ Ha) as [(Al1 & Al2 & Al3) Hheap Hblk _ _ _ _ _ Hpa].
  destruct (ti_chunk _ _ _ _ Ht _ _ _ Hb) as [(Bl1 & Bl2 & Bl3) _ Bblk _ _ _ Blast Bnext _].
  assert (Hob : off b = off a + sa) by (rewrite Eb; apply off_add; lia).
  constructor; try done.
  - split; [done|]. split; [dlia|lia].
  - unfold heap_end. by rewrite Hreg.
  - lia.
  - rewrite Elast, Blast, Hob. do 2 f_equal. lia.
  - intros Hlt. replace (a + (sa + sb)) with (b + sb) by lia. destruct (Bnext ltac:(lia)) as [[t v] Hn].
    exists (t, v). apply merge_keep; [lia|lia|done].
  - intros Ho. destruct (Hpa Ho) as (p & sp & up & Hp & E & Hpr). exists p, sp, up.
    pose proof (tiling_size _ _ _ _ _ _ _ Ht Hp).
    split; [apply merge_keep; [lia|lia|done]|]. split; [done|]. intros Hx. rewrite Epo. apply Hpr.
    intros E2. pose proof (Hex a ltac:(by rewrite Ha) E2). lia.
Qed.

Lemma merge_other_ok c t v : c <> a -> c <> b -> C !! c = Some (t, v) -> chunk_ok m' id C' (b + sb) c t v.
Proof.
  intros Hca Hcb Hcv. destruct (ti_chunk _ _ _ _ Ht _ _ _ Hcv) as [? ? ? H1 H2 H3 H4 H5 H6].
  destruct (strip_header _ _ (Hother c ltac:(by rewrite Hcv) Hca Hcb)) as ((E1 & E2 & E3 & E4) & E5).
  constructor; try done; try congruence.
  - unfold heap_end. by rewrite Hreg.
  - intros Hlt. destruct (H5 Hlt) as [[t' v'] Hn]. destruct (decide (c + t = b)) as [Ecb|Ncb].
    { exfalso. apply Hca. eapply same_end; [exact Ht|exact Hcv|exact Ha|lia]. }
    destruct (decide (c + t = a)) as [->|Nca]; [unfold C'; rewrite lookup_insert_eq; by eexists|].
    exists (t', v'). by apply merge_keep.
  - intros Ho. destruct (H6 Ho) as (p & sp & up & Hp & E & Hpr). destruct (decide (p = b)) as [->|Npb].
    { rewrite Hb in Hp. injection Hp as <- <-. exists a, (sa + sb), u. unfold C'. rewrite lookup_insert_eq.
      split; [done|]. split; [lia|]. intros Hx. lia. }
    destruct (decide (p = a)) as [->|Npa].
    { rewrite Ha in Hp. injection Hp as <- <-. lia. }
    exists p, sp, up. split; [by apply merge_keep|]. split; [done|]. intros Hx. rewrite E5. apply Hpr.
    intros E0. apply Hcb. apply Hex; [by rewrite Hcv|done].
Qed.

Lemma merge_disjoint d t v : d <> a -> d <> b -> C !! d = Some (t, v) -> a + (sa + sb) <= d \/ d + t <= a.
Proof.
  intros Hda Hdb Hdv. pose proof (tiling_size _ _ _ _ _ _ _ Ht Hdv). pose proof (ti_disjoint _ _ _ _ Ht) as Hd.
  destruct (Hd a sa ua d t v Ha Hdv ltac:(done)); [|lia].
  destruct (Hd b sb ub d t v Hb Hdv ltac:(done)); lia.
Qed.

Lemma tiling_merge : tiling m' id (<[a := (sa + sb, u)]> (delete b C)) (b + sb).
Proof.
  constructor; [apply (heap_ok_regions m); [done|apply Ht]|..].
  - intros c t v [(-> & -> & ->)|(Hca & Hcb & Hcv)]%merge_lookup; [apply merge_chunk_ok|by apply merge_other_ok].
  - intros c t v d t' v' H1 H2 Hcd. apply merge_lookup in H1, H2.
    destruct H1 as [(-> & -> & ->)|(? & ? & H1)], H2 as [(-> & -> & ->)|(? & ? & H2)]; [done|..].
    + by eapply merge_disjoint.
    + destruct (merge_disjoint c t v); [done..|lia|lia].
    + by eapply (ti_disjoint _ _ _ _ Ht).
Qed.

End Merge.

(** Repairing the back offset of the chunk after [p]. *)
Lemma tiling_fix m id C p sp up :
  tiling m id C (p + sp) -> C !! p = Some (sp, up) -> 0 <= p ->
  (is_Some (C !! (p + sp)) -> off p + sp < BlockSize ->
     tiling (store m (p + sp) (set_prev_offset (line_at m (p + sp)) (chunkOffset p))) id C 0) /\
  (off p + sp = BlockSize -> tiling m id C 0).
Proof.
  intros Ht Hp Hp0. split.
  - intros [[sn un] Hn] Hlt. set (n := p + sp) in *. pose proof (chunk_accessible _ _ _ _ _ _ _ Ht Hn) as Hacc.
    destruct Ht as [Hh Hc Hd]. set (m' := store _ _ _). constructor; [by apply (heap_ok_regions m)| |done].
    intros c s u Hcs. destruct (Hc c s u Hcs) as [? ? ? H1 H2 H3 H4 H5 H6].
    assert (Hh' : header_eq (line_at m c) (line_at m' c)).
    { unfold m'. rewrite line_at_store. case_decide as E; [by subst c|done]. }
    destruct Hh' as (E1 & E2 & E3 & E4). constructor; try done; try congruence.
    intros Ho. destruct (H6 Ho) as (p' & sp' & up' & Hp' & E & Hpr). exists p', sp', up'. do 2 (split; [done|]).
    intros _. unfold m'. rewrite line_at_store. case_decide as D.
    + subst c. cbn [prev_offset set_prev_offset]. rewrite chunkOffset_off by done.
      assert (p' = p) as -> by (eapply same_end; [by constructor|exact Hp'|exact Hp|done]).
      unfold u16. pose proof (off_range p). change BlockSize with 2097152 in *. apply Z.mod_small. dlia.
    + apply Hpr. congruence.
  - intros Hend. destruct Ht as [Hh Hc Hd]. constructor; [done| |done]. intros c s u Hcs.
    destruct (Hc c s u Hcs) as [? ? ? H1 H2 H3 H4 H5 H6]. constructor; try done.
    intros Ho. destruct (H6 Ho) as (p' & sp' & up' & Hp' & E & Hpr). exists p', sp', up'. do 2 (split; [done|]).
    intros _. apply Hpr. intros ->. apply Ho. unfold off.
    replace (p + sp) with (p - off p + BlockSize) by lia. unfold off. change BlockSize with 2097152. dlia.
Qed.

(** ** Cutting a chunk in two *)

(** The header fields of a line. *)
Definition has_header (l : line) (s : Z) (u : bool) (id lst po : Z) : Prop :=
  size l = s /\ used l = b2z u /\ free_list_id l = id /\ last l = lst /\ prev_offset l = po.

Lemma has_header_strip l l' s u id lst po :
  strip l' = strip l -> has_header l s u id lst po -> has_header l' s u id lst po.
Proof.
  intros [(E1 & E2 & E3 & E4) E5]%strip_header (? & ? & ? & ? & ?). unfold has_header.
  rewrite E1, E2, E3, E4, E5. done.
Qed.

(** The chunk at [n] learns that its predecessor is now [p]; nothing changes
    when the block ends there. *)
Definition point_back (m : mem) (more : bool) (n p : Z) : mem :=
  if more then store m n (set_prev_offset (line_at m n) (chunkOffset p)) else m.

Lemma point_back_regions m more n p : mapped_regions (point_back m more n p) = mapped_regions m.
Proof. by destruct more. Qed.

Lemma point_back_ne m more n p x : x <> n -> line_at (point_back m more n p) x = line_at m x.
Proof. intros Hx. destruct more; [|done]. cbn [point_back]. by rewrite line_at_store_ne. Qed.

Lemma point_back_store m more n p x ln :
  x <> n -> point_back (store m x ln) more n p = store (point_back m more n p) x ln.
Proof.
  intros Hx. destruct more; [|done]. cbn [point_back]. rewrite line_at_store_ne by done.
  unfold store. cbn [lines mapped_regions]. by rewrite insert_insert_ne.
Qed.

Lemma point_back_eq m m' more n p x :
  line_at m' x = line_at m x -> line_at (point_back m' more n p) x = line_at (point_back m more n p) x.
Proof.
  intros E. destruct more; [|done]. cbn [point_back]. rewrite !line_at_store.
  case_decide as D; [subst x; by rewrite E|done].
Qed.

Lemma point_back_strip m m' more n p x :
  strip (line_at m' x) = strip (line_at m x) ->
  strip (line_at (point_back m' more n p) x) = strip (line_at (point_back m more n p) x).
Proof.
  intros E. destruct more; [|done]. cbn [point_back]. rewrite !line_at_store.
  case_decide as D; [subst x|done].
  exact (f_equal (fun l => set_prev_offset l (chunkOffset p)) E).
Qed.

(** [if (!last) n->prev_offset = ...] *)
Lemma hupd_point_back m more n p :
  (more = true -> accessible m n = true) ->
  (if more then hupd m n (fun c => set_prev_offset c (chunkOffset p)) else Ok m) = Ok (point_back m more n p).
Proof. intros Hn. destruct more; [|done]. by rewrite hupd_ok by auto. Qed.

Lemma block_end_off c s : off c + s = BlockSize -> off (c + s) = 0.
Proof.
  intros E. replace (c + s) with (c - off c + BlockSize) by lia. unfold off. change BlockSize with 2097152. dlia.
Qed.

Lemma point_back_header m c s p x :
  off c + s <= BlockSize ->
  let m' := point_back m (off c + s <? BlockSize) (c + s) p in
  header_eq (line_at m x) (line_at m' x) /\
  (off x <> 0 -> prev_offset (line_at m' x) = if decide (x = c + s) then chunkOffset p else prev_offset (line_at m x)).
Proof.
  intros Hle m'. unfold m'. destruct (decide (x = c + s)) as [->|Hne]; [|by rewrite point_back_ne].
  destruct (Z.ltb_spec (off c + s) BlockSize) as [|Hge]; cbn [point_back].
  - rewrite line_at_store_eq. split; [done|]. intros _. cbn [prev_offset set_prev_offset]. apply u16_chunkOffset.
  - split; [done|]. intros Ho. destruct Ho. apply block_end_off. lia.
Qed.

(** The header of a chunk says whether another one follows in the block. *)
Lemma last_flag m id C ex c s u :
  tiling m id C ex -> C !! c = Some (s, u) -> (last (line_at m c) =? 1) = negb (off c + s <? BlockSize).
Proof.
  intros Ht Hc. destruct (ti_chunk _ _ _ _ Ht _ _ _ Hc) as [_ _ ? _ _ _ -> _ _].
  destruct (Z.eqb_spec (off c + s) BlockSize), (Z.ltb_spec (off c + s) BlockSize); simpl; try done; lia.
Qed.

Lemma next_of_chunk m id C ex c s u :
  tiling m id C ex -> C !! c = Some (s, u) -> (off c + s <? BlockSize) = true ->
  exists sn un, C !! (c + s) = Some (sn, un) /\ accessible m (c + s) = true /\ 0 < sn.
Proof.
  intros Ht Hc E%Z.ltb_lt. destruct (ck_next _ _ _ _ _ _ _ (ti_chunk _ _ _ _ Ht _ _ _ Hc) E) as [[sn un] E'].
  exists sn, un. split; [done|]. split; [by eapply chunk_accessible|by eapply tiling_size].
Qed.

(** The chunk [a] is cut at [b]; the chunk after it learns its new
    predecessor. *)
Section Split.
Context (m m' : mem) (id : Z) (C : chunks) (a sa : Z) (ua : bool) (s1 : Z) (u1 u2 : bool).
Hypothesis Ht : tiling m id C 0.
Hypothesis Ha : C !! a = Some (sa, ua).
Hypothesis Hs1 : 0 < s1 < sa.
Hypothesis Hmod : s1 mod 64 = 0.
Hypothesis Hreg : mapped_regions m' = mapped_regions m.
Hypothesis Hla : has_header (line_at m' a) s1 u1 id 0 (prev_offset (line_at m a)).
Hypothesis Hlb : has_header (line_at m' (a + s1)) (sa - s1) u2 id (b2z (off a + sa =? BlockSize)) (chunkOffset a).
Hypothesis Hother : forall c, C !! c <> None -> c <> a ->
  strip (line_at m' c) = strip (line_at (point_back m (off a + sa <? BlockSize) (a + sa) (a + s1)) c).

Let b : Z := a + s1.
Let C' : chunks := <[b := (sa - s1, u2)]> (<[a := (s1, u1)]> C).

Lemma split_lookup c t v :
  C' !! c = Some (t, v) ->
  (c = b /\ t = sa - s1 /\ v = u2) \/ (c = a /\ t = s1 /\ v = u1) \/ (c <> a /\ c <> b /\ C !! c = Some (t, v)).
Proof.
  intros [[<- [= <- <-]]|[Hcb Hcv]]%lookup_insert_Some; [by left|right].
  apply lookup_insert_Some in Hcv as [[<- [= <- <-]]|[? ?]]; [by left|right; done].
Qed.

Lemma split_fst : C' !! a = Some (s1, u1).
Proof. unfold C'. rewrite lookup_insert_ne by (unfold b; lia). by rewrite lookup_insert_eq. Qed.

Lemma split_snd : C' !! b = Some (sa - s1, u2).
Proof. apply lookup_insert_eq. Qed.

Lemma split_keep c t v : c <> a -> C !! c = Some (t, v) -> C' !! c = Some (t, v).
Proof.
  intros Hca Hcv. assert (c <> b).
  { intros ->. pose proof (tiling_size _ _ _ _ _ _ _ Ht Hcv). unfold b in *.
    destruct (ti_disjoint _ _ _ _ Ht _ _ _ _ _ _ Ha Hcv); lia. }
  unfold C'. rewrite lookup_insert_ne, lookup_insert_ne by done. done.
Qed.

Lemma split_fst_ok : chunk_ok m' id C' 0 a s1 u1.
Proof.
  destruct (ti_chunk _ _ _ _ Ht _ _ _ Ha) as [(Al1 & Al2 & Al3) Hheap Hblk _ _ _ _ _ Hpa].
  destruct Hla as (A1 & A2 & A3 & A4 & A5). constructor; try done.
  - split; [done|]. split; [done|lia].
  - unfold heap_end. by rewrite Hreg.
  - lia.
  - rewrite A4. rewrite (proj2 (Z.eqb_neq _ _)) by lia. done.
  - intros _. eexists. apply split_snd.
  - intros Ho. destruct (Hpa Ho) as (p & sp & up & Hp & E & Hpr). pose proof (tiling_size _ _ _ _ _ _ _ Ht Hp).
    exists p, sp, up. split; [apply split_keep; [lia|done]|]. split; [done|]. intros ?. rewrite A5. auto.
Qed.

Lemma split_snd_ok : chunk_ok m' id C' 0 b (sa - s1) u2.
Proof.
  destruct (ti_chunk _ _ _ _ Ht _ _ _ Ha) as [(Al1 & Al2 & Al3) Hheap Hblk _ _ _ _ Anext _].
  pose proof (tiling_pos _ _ _ _ _ _ _ Ht Ha). destruct Hlb as (B1 & B2 & B3 & B4 & B5). fold b in B1, B2, B3, B4, B5.
  assert (Hob : off b = off a + s1) by (apply off_add; lia). constructor; try done.
  - unfold b. split; [dlia|]. split; [dlia|lia].
  - unfold heap_end. rewrite Hreg. fold (heap_end m). rewrite Hob. unfold b. lia.
  - rewrite Hob. lia.
  - rewrite B4, Hob. do 2 f_equal. lia.
  - intros Hlt. destruct (Anext ltac:(lia)) as [[t v] Hn]. exists (t, v). unfold b.
    replace (a + s1 + (sa - s1)) with (a + sa) by lia. apply split_keep; [lia|done].
  - intros _. exists a, s1, u1. split; [apply split_fst|]. split; [done|]. intros _. rewrite B5. by rewrite chunkOffset_off by lia.
Qed.

Lemma split_other_ok c t v : c <> a -> C !! c = Some (t, v) -> chunk_ok m' id C' 0 c t v.
Proof.
  intros Hca Hcv. destruct (ti_chunk _ _ _ _ Ht _ _ _ Hcv) as [? ? ? H1 H2 H3 H4 H5 H6].
  pose proof (tiling_pos _ _ _ _ _ _ _ Ht Ha). pose proof (ck_block _ _ _ _ _ _ _ (ti_chunk _ _ _ _ Ht _ _ _ Ha)) as Hblk.
  destruct (strip_header _ _ (Hother c ltac:(by rewrite Hcv) Hca)) as ((E1 & E2 & E3 & E4) & E5).
  destruct (point_back_header m a sa (a + s1) c Hblk) as ((F1 & F2 & F3 & F4) & F5).
  constructor; try done; try congruence.
  - unfold heap_end. by rewrite Hreg.
  - intros Hlt. destruct (H5 Hlt) as [[t' v'] Hn].
    destruct (decide (c + t = a)) as [->|Nca]; [rewrite split_fst; by eexists|]. exists (t', v'). by apply split_keep.
  - intros Ho. destruct (H6 Ho) as (p & sp & up & Hp & E & Hpr). rewrite E5, (F5 Ho). case_decide as D.
    { exists b, (sa - s1), u2. split; [apply split_snd|]. split; [unfold b; lia|]. intros _.
      rewrite chunkOffset_off; [done|lia]. }
    exists p, sp, up. destruct (decide (p = a)) as [->|Npa].
    { rewrite Ha in Hp. injection Hp as <- <-. lia. }
    split; [by apply split_keep|]. split; [done|]. auto.
Qed.

Lemma tiling_split : tiling m' id (<[a + s1 := (sa - s1, u2)]> (<[a := (s1, u1)]> C)) 0.
Proof.
  constructor; [apply (heap_ok_regions m); [done|apply Ht]|..].
  - intros c t v [(-> & -> & ->)|[(-> & -> & ->)|(Hca & Hcb & Hcv)]]%split_lookup;
      [apply split_snd_ok|apply split_fst_ok|by apply split_other_ok].
  - assert (Hin : forall d t v, d <> a -> C !! d = Some (t, v) -> a + sa <= d \/ d + t <= a)
      by (intros d t v Hda Hdv; by eapply (ti_disjoint _ _ _ _ Ht)).
    intros c t v d t' v' H1 H2 Hcd. apply split_lookup in H1, H2.
    destruct H1 as [(-> & -> & ->)|[(-> & -> & ->)|(? & ? & H1)]], H2 as [(-> & -> & ->)|[(-> & -> & ->)|(? & ? & H2)]];
      try done; unfold b in *; try lia.
    + destruct (Hin d t' v'); [done..|lia|lia].
    + destruct (Hin d t' v'); [done..|lia|lia].
    + destruct (Hin c t v); [done..|lia|lia].
    + destruct (Hin c t v); [done..|lia|lia].
    + by eapply (ti_disjoint _ _ _ _ Ht).
Qed.

End Split.

(** A new block, one chunk of 2 MB. *)
Lemma tiling_new_block m m' id C a u :
  tiling m id C 0 -> heap_ok m' -> heap_end m <= heap_end m' -> off a = 0 ->
  BaseAddress <= a -> a + BlockSize <= heap_end m' ->
  (forall c t v, C !! c = Some (t, v) -> a + BlockSize <= c \/ c + t <= a) ->
  (forall c, C !! c <> None -> strip (line_at m' c) = strip (line_at m c)) ->
  has_header (line_at m' a) BlockSize u id 1 (prev_offset (line_at m' a)) ->
  tiling m' id (<[a := (BlockSize, u)]> C) 0.
Proof.
  intros [Hh Hc Hd] Hh' Hend Hoa Hlo Hhi Hdis Hother (A1 & A3 & A4 & A2 & _).
  assert (Hna : C !! a = None).
  { destruct (C !! a) as [[t v]|] eqn:E; [exfalso|done]. destruct (ck_aligned _ _ _ _ _ _ _ (Hc a t v E)) as (_ & _ & ?).
    destruct (Hdis a t v E); change BlockSize with 2097152 in *; lia. }
  constructor; [done|..].
  - intros c t v [[<- [= <- <-]]|[Hca Hcv]]%lookup_insert_Some.
    + constructor; try done; try (rewrite ?Hoa; lia).
      * split; [|by vm_compute]. unfold off in Hoa. change BlockSize with 2097152 in Hoa. dlia.
      * rewrite A2, Hoa. done.
    + destruct (Hc c t v Hcv) as [? [? ?] ? H1 H2 H3 H4 H5 H6].
      destruct (strip_header _ _ (Hother c ltac:(by rewrite Hcv))) as ((E1 & E2 & E3 & E4) & E5).
      assert (Hmono : forall x y, C !! x = Some y -> <[a := (BlockSize, u)]> C !! x = Some y).
      { intros x y Hx. rewrite lookup_insert_ne; [done|]. intros <-. congruence. }
      constructor; try done; try congruence.
      * split; [done|lia].
      * intros Hlt. destruct (H5 Hlt) as [y Hy]. exists y. by apply Hmono.
      * intros Ho. destruct (H6 Ho) as (p & sp & up & Hp & E & Hpr). exists p, sp, up.
        split; [by apply Hmono|]. split; [done|]. intros ?. rewrite E5. auto.
  - intros c t v d t' v' H1 H2 Hcd. apply lookup_insert_Some in H1, H2.
    destruct H1 as [[<- [= <- <-]]|[? H1]], H2 as [[<- [= <- <-]]|[? H2]]; [done|..].
    + by eapply Hdis.
    + destruct (Hdis c t v H1); lia.
    + by eapply Hd.
Qed.
