(* ===== verification/FreeListProofs.v ===== *)
(** * Correctness of allocation from free lists

    [buckets_ok] says that the buckets hold given lists of chunks and
    [fl_inv] that these are the free chunks of a tiling (FreeListTiling.v).
    Each way of taking a chunk (whole, cut at its end, cut at its front, from
    a new block) is shown to keep the invariant, and [fl_alloc_spec] collects
    them. *)

From stdpp Require Import base numbers list gmap.
From S2P Require Import Prelude Bitmap Heap GlobalAlloc FreeList GlobalAllocProofs FreeListTiling.

(** ** Buckets *)

Lemma elem_of_concat (B : list (list Z)) a : a ∈ concat B <-> exists l, a ∈ l /\ l ∈ B.
Proof.
  induction B as [|k B IH]; cbn [concat].
  - split; [by intros ?%elem_of_nil|]. by intros (l & _ & ?%elem_of_nil).
  - rewrite elem_of_app, IH. setoid_rewrite elem_of_cons. naive_solver.
Qed.

Definition rest (B : list (list Z)) (b : nat) : list Z := concat (take b B ++ drop (S b) B).

Lemma concat_split (B : list (list Z)) b l :
  B !! b = Some l -> concat B ≡ₚ l ++ rest B b.
Proof.
  intros Hb. rewrite <- (take_drop_middle B b l Hb) at 1. unfold rest.
  rewrite !concat_app. cbn [concat]. by rewrite Permutation_app_swap_app.
Qed.

Lemma rest_insert (B : list (list Z)) b l' : rest (<[b := l']> B) b = rest B b.
Proof. unfold rest. by rewrite take_insert_ge, drop_insert_lt by lia. Qed.

Lemma concat_insert (B : list (list Z)) b l l' :
  B !! b = Some l -> concat (<[b := l']> B) ≡ₚ l' ++ rest B b.
Proof.
  intros Hb. rewrite <- (rest_insert B b l'). apply concat_split. apply list_lookup_insert_eq.
  by eapply lookup_lt_Some.
Qed.

Lemma other_bucket (B : list (list Z)) b b' l l' a :
  B !! b = Some l -> B !! b' = Some l' -> b <> b' -> NoDup (concat B) -> a ∈ l -> a ∉ l'.
Proof.
  intros Hb Hb' Hne Hnd Ha Ha'. rewrite (concat_split B b l Hb) in Hnd.
  apply NoDup_app in Hnd as (_ & Hdis & _). apply (Hdis a Ha). unfold rest. rewrite elem_of_concat.
  exists l'. split; [done|]. apply list_elem_of_lookup. destruct (decide (b' < b)%nat).
  - exists b'. rewrite lookup_app_l by (rewrite length_take; apply lookup_lt_Some in Hb; lia).
    by rewrite lookup_take_lt.
  - exists (b' - 1)%nat. rewrite lookup_app_r by (rewrite length_take; lia). apply lookup_lt_Some in Hb as Hl.
    rewrite length_take, Nat.min_l by lia. rewrite lookup_drop. rewrite <- Hb'. f_equal. lia.
Qed.

Record buckets_ok (m : mem) (fl : flist) (B : list (list Z)) : Prop := {
  bo_len : length (buckets fl) = 14%nat /\ length B = 14%nat;
  bo_dll : forall b h l, buckets fl !! b = Some h -> B !! b = Some l -> dll m h l;
  bo_nodup : NoDup (concat B);
  bo_size : forall b l a, B !! b = Some l -> a ∈ l -> 0 < size (line_at m a) /\ findBucket (size (line_at m a)) = b
}.

Lemma bucket_of m fl B a :
  buckets_ok m fl B -> a ∈ concat B ->
  exists l h, B !! findBucket (size (line_at m a)) = Some l /\
    buckets fl !! findBucket (size (line_at m a)) = Some h /\ a ∈ l /\ dll m h l.
Proof.
  intros [[Hl1 Hl2] Hd _ Hs] Ha. apply elem_of_concat in Ha as (l & Ha & Hl).
  apply list_elem_of_lookup in Hl as [b Hb]. destruct (Hs b l a Hb Ha) as [_ ->].
  destruct (lookup_lt_is_Some_2 (buckets fl) b) as [h Hh]; [apply lookup_lt_Some in Hb; lia|].
  exists l, h. repeat split; try done. by eapply Hd.
Qed.

Lemma dll_links m m' h l l' :
  links_only m m' l' -> (forall a, a ∈ l -> a ∉ l') -> dll m h l -> dll m' h l.
Proof.
  intros (Hreg & _ & Hl) Hdis [tl Hs]. exists tl. eapply seg_frame; [|exact Hs]. intros a Ha.
  rewrite Hl by auto. split; [|done]. by apply accessible_regions.
Qed.

Lemma links_size m m' l a : links_only m m' l -> size (line_at m' a) = size (line_at m a).
Proof. intros (_ & Hs & _). apply strip_size, Hs. Qed.

(** Unlinking a chunk from bucket [b]. *)
Lemma unlink_bucket m fl B b h l1 a l2 :
  buckets_ok m fl B -> buckets fl !! b = Some h -> B !! b = Some (l1 ++ a :: l2) ->
  let r := unlinked m h a in
  buckets_ok (fst r) (set_bucket fl b (snd r)) (<[b := l1 ++ l2]> B) /\
  links_only m (fst r) (l1 ++ l2) /\
  (forall x, x ∈ concat (<[b := l1 ++ l2]> B) <-> x ∈ concat B /\ x <> a).
Proof.
  intros [[Hl1 Hl2] Hd Hnd Hs] Hh Hb. assert (Hperm := concat_split B b _ Hb).
  assert (Hnd' := Hnd). rewrite Hperm in Hnd'. apply NoDup_app in Hnd' as (Hnl & Hdis & Hnr).
  destruct (unlinked_spec m h l1 a l2 (Hd b h _ Hh Hb) Hnl) as [Hd' Hlo].
  destruct (NoDup_middle _ _ _ Hnl) as [Hnl' Hna]. assert (Hperm' := concat_insert B b _ (l1 ++ l2) Hb).
  split; [|split; [done|]].
  - constructor.
    + cbn [buckets set_bucket]. by rewrite !length_insert.
    + intros b' h' l' Hb' Hl'. cbn [buckets set_bucket] in Hb'. destruct (decide (b' = b)) as [->|Hne].
      * apply lookup_lt_Some in Hb as Hbl. rewrite list_lookup_insert_eq in Hb' by lia. rewrite list_lookup_insert_eq in Hl' by lia.
        injection Hb' as <-. injection Hl' as <-. done.
      * rewrite list_lookup_insert_ne in Hb' by done. rewrite list_lookup_insert_ne in Hl' by done. eapply dll_links; [exact Hlo| |by eapply Hd].
        intros x Hx Hx'. apply (other_bucket B b b' _ l' x Hb Hl'); [done|done| |done]. apply elem_middle. by right.
    + rewrite Hperm'. apply NoDup_app. split; [done|]. split; [|done]. intros x Hx. apply Hdis, elem_middle. by right.
    + intros b' l' x Hl' Hx. rewrite (links_size _ _ _ x Hlo). destruct (decide (b' = b)) as [->|Hne].
      * rewrite list_lookup_insert_eq in Hl' by (rewrite Hl2; apply lookup_lt_Some in Hb; lia).
        injection Hl' as <-. apply (Hs b _ x Hb). apply elem_middle. by right.
      * rewrite list_lookup_insert_ne in Hl' by done. by apply (Hs b' l').
  - intros x. rewrite Hperm, Hperm', !elem_of_app, elem_of_cons. split.
    + intros Hx. split; [tauto|]. intros ->. destruct Hx as [Hx|Hx].
      * apply Hna. by rewrite elem_of_app.
      * apply (Hdis a); [apply elem_middle; by left|done].
    + intros [Hx Hxa]. tauto.
Qed.

Lemma removeChunk_spec m fl B a :
  buckets_ok m fl B -> a ∈ concat B ->
  exists m' fl' B', removeChunkFromBuckets m fl a = Ok (m', fl') /\ buckets_ok m' fl' B' /\
    links_only m m' (concat B') /\ (forall x, x ∈ concat B' <-> x ∈ concat B /\ x <> a) /\
    fl' = set_bucket fl (findBucket (size (line_at m a))) (buckets fl' !!! findBucket (size (line_at m a))).
Proof.
  intros Hbk Ha. destruct (bucket_of _ _ _ _ Hbk Ha) as (l & h & Hb & Hh & Hal & Hd).
  set (b := findBucket _) in *. apply list_elem_of_split in Hal as (l1 & l2 & ->).
  destruct (unlink_bucket _ _ _ _ _ _ _ _ Hbk Hh Hb) as (Hbk' & Hlo & Hin).
  assert (Hnd : NoDup (l1 ++ a :: l2)).
  { pose proof (bo_nodup _ _ _ Hbk) as Hn. rewrite (concat_split _ _ _ Hb) in Hn. by apply NoDup_app in Hn as (? & _). }
  destruct (dll_neighbours _ _ _ _ _ Hd Hnd) as (Hacc & _).
  destruct (unlink_prev_next _ _ _ _ _ Hd Hnd) as (m1 & h' & E1 & E2 & Eh).
  unfold removeChunkFromBuckets. rewrite hget_ok by done. cbn [res_bind]. fold b. unfold bucket_head. rewrite Hh.
  cbn [res_bind]. rewrite E1. cbn [res_bind]. rewrite E2. cbn [res_bind]. rewrite Eh.
  eexists _, _, _. split; [done|]. split; [exact Hbk'|]. split; [|split; [exact Hin|]].
  - destruct Hlo as (R & S & L). split; [done|]. split; [done|]. intros x Hx. apply L. intros Hx'. apply Hx.
    rewrite (concat_insert _ _ _ _ Hb). apply elem_of_app. by left.
  - unfold set_bucket at 1 3. cbn [buckets set_bucket]. f_equal. rewrite list_lookup_total_insert_eq; [done|].
    by eapply lookup_lt_Some.
Qed.

(** Adding a chunk in front of its bucket. *)
Lemma addFreeChunk_spec m fl B a s :
  buckets_ok m fl B -> a ∉ concat B -> a <> 0 -> accessible m a = true ->
  size (line_at m a) = s -> 0 < s <= UINT64_MAX ->
  exists m' fl' B', addFreeChunk m fl a s = Ok (m', fl') /\ buckets_ok m' fl' B' /\
    links_only m m' (a :: concat B) /\ (forall x, x ∈ concat B' <-> x = a \/ x ∈ concat B) /\
    fl' = set_bucket fl (findBucket s) a.
Proof.
  intros Hbk Hna Ha0 Hacc Hsz Hs. destruct (findBucket_spec s) as (Hb14 & _ & _); [lia|].
  set (b := findBucket s) in *. destruct Hbk as [[Hl1 Hl2] Hd Hnd Hsize].
  destruct (lookup_lt_is_Some_2 (buckets fl) b) as [h Hh]; [lia|].
  destruct (lookup_lt_is_Some_2 B b) as [l Hb]; [lia|].
  assert (Hperm := concat_split B b l Hb). assert (Hal : a ∉ l).
  { intros Hin. apply Hna. rewrite Hperm. apply elem_of_app. by left. }
  unfold addFreeChunk. fold b. unfold bucket_head. rewrite Hh. cbn [res_bind]. rewrite hupd_ok by done. cbn [res_bind].
  set (ln := set_next _ h). destruct (dll_push m h l a ln (Hd b h l Hh Hb) Hal Ha0 Hacc eq_refl eq_refl) as [Hd' Hlo].
  set (m2 := if h =? 0 then store m a ln else _) in *. set (m1 := store m a ln) in *.
  assert (E : (if negb (h =? 0) then hupd m1 h (fun l => set_prev l a) else Ok m1) = Ok m2).
  { unfold m2. destruct (Z.eqb_spec h 0) as [|Hh0]; [done|]. cbn [negb]. rewrite hupd_ok; [done|].
    destruct (Hd b h l Hh Hb) as [tl Hseg]. destruct (seg_head _ _ _ _ _ _ Hseg) as [[_ ?]|[l' ->]]; [done|].
    by apply (seg_nonzero _ _ _ _ _ _ h Hseg); left. }
  rewrite E. cbn [res_bind]. assert (Hlk : links_only m m2 (a :: concat B)).
  { eapply links_only_trans; [apply (links_only_store m a _ ln); [left|done]|].
    destruct Hlo as (R & S & L). split; [done|]. split; [done|]. intros x Hx. apply L. intros Hx'. apply Hx.
    right. rewrite Hperm. apply elem_of_app. by left. }
  assert (Hperm' := concat_insert B b l (a :: l) Hb).
  eexists m2, _, (<[b := a :: l]> B). split; [done|]. split; [|split; [done|split; [|done]]].
  - constructor.
    + cbn [buckets set_bucket]. by rewrite !length_insert.
    + intros b' h' l' Hb' Hl'. cbn [buckets set_bucket] in Hb'. destruct (decide (b' = b)) as [->|Hne].
      * rewrite list_lookup_insert_eq in Hb' by lia. rewrite list_lookup_insert_eq in Hl' by lia. injection Hb' as <-. injection Hl' as <-. done.
      * rewrite list_lookup_insert_ne in Hb' by done. rewrite list_lookup_insert_ne in Hl' by done. specialize (Hd b' h' l' Hb' Hl').
        assert (Hal' : a ∉ l').
        { intros Hin. apply Hna. apply elem_of_concat. exists l'. split; [done|]. by eapply list_elem_of_lookup_2. }
        eapply dll_links; [exact Hlo| |by apply dll_store].
        intros x Hx Hx'. by apply (other_bucket B b b' l l' x Hb Hl').
    + rewrite Hperm'. cbn [app]. constructor; [|by rewrite <- Hperm]. by rewrite <- Hperm.
    + intros b' l' x Hl' Hx. rewrite (links_size _ _ _ x Hlk). destruct (decide (b' = b)) as [->|Hne].
      * rewrite list_lookup_insert_eq in Hl' by lia. injection Hl' as <-.
        apply elem_of_cons in Hx as [->|Hx]; [rewrite Hsz; split; [lia|done]|by apply (Hsize b l)].
      * rewrite list_lookup_insert_ne in Hl' by done. by apply (Hsize b' l').
  - intros x. rewrite Hperm, Hperm'. cbn [app]. by rewrite elem_of_cons.
Qed.

(** ** The invariant of a free list *)

Record fl_inv (m : mem) (fl : flist) (C : chunks) (B : list (list Z)) : Prop := {
  fi_tiling : tiling m (my_id fl) C 0;
  fi_buckets : buckets_ok m fl B;
  fi_linked : forall a, a ∈ concat B <-> exists s, C !! a = Some (s, false);
  fi_id : 0 <= my_id fl < 2 ^ 16
}.

(** Memory that an operation on the chunks [C] may change: free chunks, and
    the back offsets of the others. *)
Definition in_free (C : chunks) (x : Z) : Prop := exists c s, C !! c = Some (s, false) /\ c <= x < c + s.
Definition data_eq (l l' : line) : Prop := copy_data l' zero_line = copy_data l zero_line.
Definition touches (m m' : mem) (C : chunks) : Prop :=
  mapped_regions m' = mapped_regions m /\
  forall x, ~ in_free C x ->
    line_at m' x = line_at m x \/ ((exists s, C !! x = Some (s, true)) /\ data_eq (line_at m x) (line_at m' x)).

Lemma touches_refl m C : touches m m C.
Proof. split; [done|]. by left. Qed.

Lemma touches_trans m1 m2 m3 C : touches m1 m2 C -> touches m2 m3 C -> touches m1 m3 C.
Proof.
  intros [R1 T1] [R2 T2]. split; [congruence|]. intros x Hx.
  destruct (T1 x Hx) as [E1|[U1 D1]], (T2 x Hx) as [E2|[U2 D2]].
  - left. congruence.
  - right. split; [done|]. by rewrite <- E1.
  - right. split; [done|]. by rewrite E2.
  - right. split; [done|]. unfold data_eq in *. congruence.
Qed.

Lemma touches_free m C x ln : in_free C x -> touches m (store m x ln) C.
Proof.
  intros Hf. split; [done|]. intros y Hy. left. rewrite line_at_store_ne; [done|]. by intros ->.
Qed.

Lemma touches_chunk m C x s u ln :
  C !! x = Some (s, u) -> 0 < s -> data_eq (line_at m x) ln -> touches m (store m x ln) C.
Proof.
  intros Hx Hs Hd. destruct u; [|apply touches_free; exists x, s; split; [done|lia]].
  split; [done|]. intros y Hy. destruct (decide (x = y)) as [->|]; [right|left; by rewrite line_at_store_ne].
  split; [by exists s|]. by rewrite line_at_store_eq.
Qed.

Lemma touches_links m m' C l :
  links_only m m' l -> (forall a, a ∈ l -> in_free C a) -> touches m m' C.
Proof.
  intros (R & _ & L) Hl. split; [done|]. intros x Hx. left. apply L. intros Hin. by apply Hx, Hl.
Qed.

Lemma chunk_free C c s : C !! c = Some (s, false) -> 0 < s -> in_free C c.
Proof. intros. exists c, s. split; [done|lia]. Qed.

(** ** Searching the buckets *)

Lemma find_in_bucket_spec fuel m fl h l1 l2 sz :
  dll m h (l1 ++ l2) -> (length l2 < fuel)%nat ->
  exists k, let fl' := set_lookups fl k in
    (find_in_bucket fuel m fl (list_head l2) sz = Ok (fl', None) /\
       forall a, a ∈ l2 -> size (line_at m a) < sz) \/
    exists fc, find_in_bucket fuel m fl (list_head l2) sz = Ok (fl', Some fc) /\ fc ∈ l2 /\ sz <= size (line_at m fc).
Proof.
  revert l1 fuel fl. induction l2 as [|a l2 IH]; intros l1 fuel fl Hd Hf;
    (destruct fuel as [|fuel]; [simpl in Hf; lia|]); cbn [find_in_bucket list_head].
  - eexists. left. split; [done|]. intros a Ha. by apply elem_of_nil in Ha.
  - destruct (dll_split _ _ _ _ _ Hd) as (Hacc & Ha0 & _). rewrite (proj2 (Z.eqb_neq _ _) Ha0).
    rewrite hget_ok by done. cbn [res_bind]. destruct (Z.leb_spec sz (size (line_at m a))) as [Hle|Hgt].
    + eexists. right. exists a. split; [done|]. split; [left|done].
    + rewrite (dll_next m h l1 a l2 Hd). assert (Happ : l1 ++ a :: l2 = (l1 ++ [a]) ++ l2) by (by rewrite <- app_assoc).
      rewrite Happ in Hd. set (fl1 := set_lookups fl _).
      destruct (IH (l1 ++ [a]) fuel fl1 Hd ltac:(simpl in Hf; lia)) as (k & [[E Hall]|(fc & E & Hfc & Hle)]); exists k.
      * left. split; [done|]. intros b [->|Hb]%elem_of_cons; auto.
      * right. exists fc. split; [done|]. split; [by right|done].
Qed.

Lemma buckets_ok_lookups m fl B k : buckets_ok m fl B -> buckets_ok m (set_lookups fl k) B.
Proof. by intros []. Qed.

Lemma match_loop_spec n m fl B b sz :
  buckets_ok m fl B -> (b + n <= 14)%nat ->
  exists k, let fl' := set_lookups fl k in
    match_loop n m fl b sz = Ok (m, fl', None) \/
    exists b' l fc, (b <= b' < 14)%nat /\ B !! b' = Some l /\ fc ∈ l /\ sz <= size (line_at m fc) /\
      match_loop n m fl b sz = (let* (m, fl, chunk) := take_chunk m fl' b' fc sz in Ok (m, fl, Some chunk)).
Proof.
  revert fl b. induction n as [|n IH]; intros fl b Hbk Hb; cbn [match_loop].
  - exists (chain_lookups fl). left. by destruct fl.
  - destruct Hbk as [[Hl1 Hl2] Hd Hnd Hs]. unfold bucket_head.
    destruct (lookup_lt_is_Some_2 (buckets fl) b) as [h Hh]; [lia|].
    destruct (lookup_lt_is_Some_2 B b) as [l Hl]; [lia|]. rewrite Hh. cbn [res_bind].
    assert (Hfuel : (length l < list_fuel m)%nat).
    { apply list_fuel_bound; [|intros a Ha; by apply (Hs b l)].
      rewrite (concat_split _ _ _ Hl) in Hnd. by apply NoDup_app in Hnd as (? & _). }
    pose proof (find_in_bucket_spec (list_fuel m) m fl h [] l sz (Hd b h l Hh Hl) Hfuel) as (k & Hfind).
    rewrite <- (dll_head _ _ _ (Hd b h l Hh Hl)) in Hfind.
    destruct Hfind as [[-> _]|(fc & -> & Hfc & Hle)]; cbn [res_bind].
    + destruct (IH (set_lookups fl k) (S b)) as (k' & [E|(b' & l' & fc & ? & ? & ? & ? & E)]); [by constructor|lia|exists k'..].
      * by left.
      * right. exists b', l', fc. split; [lia|]. done.
    + exists k. right. exists b, l, fc. split; [lia|]. done.
Qed.

(** ** Carving a chunk out of a free one *)

(** The header [alloc] gives to the chunk it returns. *)
Definition alloc_header (fl : flist) (chunk sz : Z) (l : line) : line :=
  set_size (set_used (set_last (set_free_list_id l (my_id fl)) (b2z (isLastChunkOfBlock chunk sz))) 1) sz.

Lemma store_store m a x y : store (store m a x) a y = store m a y.
Proof. unfold store. cbn [lines mapped_regions]. by rewrite insert_insert_eq. Qed.

Lemma finish_alloc_ok g fl chunk sz :
  accessible (ga_mem g) chunk = true -> used (line_at (ga_mem g) chunk) = 0 -> 0 <= my_id fl < 2 ^ 16 ->
  finish_alloc g fl chunk sz =
    Ok (with_mem g (store (ga_mem g) chunk (alloc_header fl chunk sz (line_at (ga_mem g) chunk))),
        set_total fl (u64 (total_allocated fl + sz)), chunk).
Proof.
  intros Ha Hu Hid. unfold finish_alloc. rewrite hupd_ok by done. cbn [res_bind].
  rewrite hget_ok by done. cbn [res_bind]. rewrite line_at_store_eq. cbn [free_list_id used set_last set_free_list_id].
  unfold u16. rewrite (Z.mod_small (my_id fl)) by lia. rewrite Z.eqb_refl, Hu. cbn [Z.eqb].
  rewrite hupd_ok by done. cbn [res_bind]. rewrite line_at_store_eq, store_store. done.
Qed.

(** Data-only changes keep the buckets. *)
Lemma buckets_ok_data m m' fl B :
  buckets_ok m fl B -> mapped_regions m' = mapped_regions m ->
  (forall a, a ∈ concat B -> prev (line_at m' a) = prev (line_at m a) /\ next (line_at m' a) = next (line_at m a) /\
     0 < size (line_at m' a) /\ findBucket (size (line_at m' a)) = findBucket (size (line_at m a))) ->
  buckets_ok m' fl B.
Proof.
  intros [Hl Hd Hnd Hs] Hreg Hk.
  assert (Hin : forall b l a, B !! b = Some l -> a ∈ l -> a ∈ concat B).
  { intros b l a Hb Ha. apply elem_of_concat. exists l. split; [done|]. by eapply list_elem_of_lookup_2. }
  constructor; [done| |done|].
  - intros b h l Hh Hb. destruct (Hd b h l Hh Hb) as [tl Hseg]. exists tl. eapply seg_frame; [|exact Hseg].
    intros a Ha. destruct (Hk a (Hin _ _ _ Hb Ha)) as (? & ? & _). split; [by apply accessible_regions|done].
  - intros b l a Hb Ha. destruct (Hk a (Hin _ _ _ Hb Ha)) as (_ & _ & ? & E). rewrite E.
    split; [done|]. by apply (Hs b l a).
Qed.

Lemma buckets_ok_store m fl B a ln : buckets_ok m fl B -> a ∉ concat B -> buckets_ok (store m a ln) fl B.
Proof.
  intros Hbk Ha. eapply buckets_ok_data; [exact Hbk|done|]. intros x Hx.
  rewrite line_at_store_ne by (by intros ->). do 2 (split; [done|]). split; [|done].
  apply elem_of_concat in Hx as (l & Hx & [b Hl]%list_elem_of_lookup). by apply (bo_size _ _ _ Hbk b l).
Qed.

Lemma buckets_ok_point_back m fl B more n p : buckets_ok m fl B -> buckets_ok (point_back m more n p) fl B.
Proof.
  intros Hbk. destruct more; [|done]. cbn [point_back]. eapply buckets_ok_data; [exact Hbk|done|]. intros x Hx.
  apply elem_of_concat in Hx as (l & Hx & [b Hl]%list_elem_of_lookup). destruct (bo_size _ _ _ Hbk b l x Hl Hx) as [? _].
  rewrite line_at_store. case_decide as D; [by subst x|done].
Qed.

Lemma touches_point_back m m1 id C ex c s u p :
  tiling m id C ex -> C !! c = Some (s, u) -> touches m1 (point_back m1 (off c + s <? BlockSize) (c + s) p) C.
Proof.
  intros Ht Hc. destruct (off c + s <? BlockSize) eqn:E; [|apply touches_refl]. cbn [point_back].
  destruct (next_of_chunk _ _ _ _ _ _ _ Ht Hc E) as (sn & un & En & _ & ?). by eapply touches_chunk.
Qed.

Lemma alloc_header_has fl chunk sz l :
  0 <= my_id fl < 2 ^ 16 -> 0 <= sz < 2 ^ 29 ->
  has_header (alloc_header fl chunk sz l) sz true (my_id fl) (b2z (isLastChunkOfBlock chunk sz)) (prev_offset l).
Proof.
  intros Hid Hsz. unfold has_header, alloc_header. cbn [size used free_list_id last prev_offset set_size set_used set_last set_free_list_id].
  rewrite u29_small, b2z_mod by done. unfold u16. rewrite (Z.mod_small (my_id fl)) by done. done.
Qed.

Lemma chunk_bound m id C ex c s u : tiling m id C ex -> C !! c = Some (s, u) -> s < 2 ^ 29.
Proof.
  intros Ht Hc. pose proof (ck_block _ _ _ _ _ _ _ (ti_chunk _ _ _ _ Ht _ _ _ Hc)). pose proof (off_range c).
  change BlockSize with 2097152 in *. change (2 ^ 29) with 536870912. lia.
Qed.

(** A condition on the bytes of a free chunk of size [s] at [fc], for a
    request of [sz] bytes.  Unless the chunk stays in its bucket or is taken
    whole, findBestMatch writes a header at [fc + sz] and computes its flag
    [last] from the size that it finds there, before it stores the new one:
    the old bytes, which belong to no one, must name the end of the block
    exactly if the chunk does.  The code does not ensure this. *)
Definition cut_ok (m : mem) (fc s sz : Z) : bool :=
  let b := findBucket s in
  ((0 <? Z.of_nat b) && (BucketCaps !!! (b - 1)%nat <? s - sz)) || (s =? sz) ||
  Bool.eqb (isLastChunkOfBlock (fc + sz) (size (line_at m (fc + sz)))) (off fc + s =? BlockSize).

(** What allocation does to the chunks. *)
Inductive carve (C : chunks) (sz : Z) : chunks -> Z -> Prop :=
| carve_whole fc : C !! fc = Some (sz, false) -> carve C sz (<[fc := (sz, true)]> C) fc
| carve_end fc s : C !! fc = Some (s, false) -> 0 < sz < s ->
    carve C sz (<[fc + (s - sz) := (sz, true)]> (<[fc := (s - sz, false)]> C)) (fc + (s - sz))
| carve_front fc s : C !! fc = Some (s, false) -> 0 < sz < s ->
    carve C sz (<[fc + sz := (s - sz, false)]> (<[fc := (sz, true)]> C)) fc.

(** *** Cutting the request off the end of a chunk that stays in its bucket *)

Section TakeEnd.
Context (m : mem) (fl : flist) (C : chunks) (B : list (list Z)) (fc s sz : Z).
Hypothesis Hinv : fl_inv m fl C B.
Hypothesis Hfc : C !! fc = Some (s, false).
Hypothesis Hsz : 0 < sz < s.
Hypothesis Hmod : sz mod 64 = 0.
Hypothesis Hstay : (0 <? Z.of_nat (findBucket s)) && (BucketCaps !!! (findBucket s - 1)%nat <? s - sz) = true.

Let Ht : tiling m (my_id fl) C 0 := fi_tiling _ _ _ _ Hinv.
Let chunk : Z := fc + (s - sz).
Let more : bool := off fc + s <? BlockSize.

(** The memory after the cut. *)
Definition end_cut : mem :=
  store (point_back (store m chunk (set_used (set_prev_offset (line_at m chunk) (chunkOffset fc)) 0)) more (fc + s) chunk)
    fc (set_size (set_last (line_at m fc) 0) (s - sz)).

Lemma end_interior : C !! chunk = None /\ accessible m chunk = true.
Proof.
  destruct (ck_aligned _ _ _ _ _ _ _ (ti_chunk _ _ _ _ Ht _ _ _ Hfc)) as (? & ? & _). split.
  - eapply chunk_interior; [exact Ht|exact Hfc|unfold chunk; lia].
  - eapply interior_accessible; [exact Ht|exact Hfc|unfold chunk; lia|unfold chunk; dlia].
Qed.

Lemma take_end_eval : take_chunk m fl (findBucket s) fc sz = Ok (end_cut, fl, chunk).
Proof.
  pose proof (chunk_accessible _ _ _ _ _ _ _ Ht Hfc) as Hacc. destruct end_interior as [_ Hcacc].
  pose proof (ck_size _ _ _ _ _ _ _ (ti_chunk _ _ _ _ Ht _ _ _ Hfc)) as Es.
  unfold take_chunk. rewrite hget_ok by done. cbn [res_bind]. rewrite Es, Hstay. fold chunk.
  rewrite hupd_ok by done. cbn [res_bind]. set (m1 := store m chunk _).
  rewrite (last_flag _ _ _ _ _ _ _ Ht Hfc), negb_involutive. fold more.
  assert (E : (if more then let* n := nextChunk m1 fc in hupd m1 n (fun c => set_prev_offset c (chunkOffset chunk)) else Ok m1)
            = Ok (point_back m1 more (fc + s) chunk)).
  { rewrite <- hupd_point_back; [|intros E; by destruct (next_of_chunk _ _ _ _ _ _ _ Ht Hfc E) as (? & ? & ? & ? & _)].
    destruct more eqn:Em; [|done]. unfold nextChunk. rewrite hget_ok by done. cbn [res_bind].
    unfold m1 at 1 2. rewrite !line_at_store_ne by (unfold chunk; lia).
    rewrite (last_flag _ _ _ _ _ _ _ Ht Hfc). fold more. by rewrite Em, Es. }
  rewrite E. cbn [res_bind]. rewrite hupd_ok by (by rewrite (accessible_regions m1) by apply point_back_regions). cbn [res_bind].
  rewrite point_back_ne by lia. unfold m1. rewrite line_at_store_ne by (unfold chunk; lia). done.
Qed.

Lemma end_cut_chunk : line_at end_cut chunk = set_used (set_prev_offset (line_at m chunk) (chunkOffset fc)) 0.
Proof.
  unfold end_cut. rewrite line_at_store_ne by (unfold chunk; lia). rewrite point_back_ne by (unfold chunk; lia).
  apply line_at_store_eq.
Qed.

Lemma end_cut_other x : x <> chunk -> x <> fc -> line_at end_cut x = line_at (point_back m more (fc + s) chunk) x.
Proof.
  intros ? ?. unfold end_cut. rewrite line_at_store_ne by done. apply point_back_eq. by apply line_at_store_ne.
Qed.

Let m' : mem := store end_cut chunk (alloc_header fl chunk sz (line_at end_cut chunk)).

Lemma end_tiling : tiling m' (my_id fl) (<[chunk := (sz, true)]> (<[fc := (s - sz, false)]> C)) 0.
Proof.
  destruct (ti_chunk _ _ _ _ Ht _ _ _ Hfc) as [(? & ? & ?) _ ? _ Eu Eid _ _ _]. pose proof (off_range fc).
  pose proof (chunk_bound _ _ _ _ _ _ _ Ht Hfc). pose proof (tiling_pos _ _ _ _ _ _ _ Ht Hfc).
  destruct end_interior as [Hnc _].
  replace (sz, true) with (s - (s - sz), true) by (f_equal; lia).
  apply (tiling_split m m' (my_id fl) C fc s false (s - sz) false true); try done; fold chunk.
  - lia.
  - dlia.
  - unfold m', end_cut. cbn [mapped_regions store]. by rewrite point_back_regions.
  - unfold m'. rewrite line_at_store_ne by (unfold chunk; lia). unfold end_cut. rewrite line_at_store_eq.
    unfold has_header. cbn [size used free_list_id last prev_offset set_size set_last]. rewrite u29_small by lia. done.
  - unfold m'. rewrite line_at_store_eq, end_cut_chunk.
    destruct (alloc_header_has fl chunk sz (set_used (set_prev_offset (line_at m chunk) (chunkOffset fc)) 0)) as (A1 & A2 & A3 & A4 & A5);
      [apply Hinv|lia|]. unfold has_header. rewrite A1, A2, A3, A4, A5. cbn [prev_offset set_used set_prev_offset]. rewrite u16_chunkOffset.
    rewrite isLast_off by (unfold chunk; lia). unfold chunk. rewrite off_add by lia. repeat split; [lia|]. do 2 f_equal. lia.
  - intros c Hc Hcf. assert (c <> chunk) by (intros ->; congruence). unfold m'.
    rewrite line_at_store_ne, end_cut_other by done. done.
Qed.

Lemma end_buckets : buckets_ok m' fl B.
Proof.
  destruct end_interior as [Hnc _]. pose proof (chunk_bound _ _ _ _ _ _ _ Ht Hfc).
  assert (Hnb : chunk ∉ concat B) by (intros [t Hin]%(fi_linked _ _ _ _ Hinv); congruence).
  apply buckets_ok_store; [|done]. unfold end_cut. eapply buckets_ok_data.
  - apply buckets_ok_point_back, buckets_ok_store; [apply Hinv|exact Hnb].
  - done.
  - intros a Ha. assert (Hs0 : forall t, C !! a = Some (t, false) -> size (line_at m a) = t /\ 0 < t).
    { intros t Hat. split; [apply (ti_chunk _ _ _ _ Ht _ _ _ Hat)|by eapply tiling_size]. }
    assert (a <> chunk) by (by intros ->). apply (fi_linked _ _ _ _ Hinv) in Ha as [t Hat]. destruct (Hs0 t Hat) as [Es Hpos].
    set (ln := set_used _ 0). pose proof (point_back_eq m (store m chunk ln) more (fc + s) chunk a ltac:(by apply line_at_store_ne)) as Ea.
    destruct (decide (a = fc)) as [->|Hne]; [|rewrite line_at_store_ne by done; rewrite Ea].
    + rewrite line_at_store_eq, point_back_ne, line_at_store_ne by (unfold chunk; lia). cbn [prev next size set_size set_last].
      assert (t = s) as -> by congruence. rewrite Es, u29_small by lia. do 2 (split; [done|]). split; [lia|].
      apply andb_true_iff in Hstay as [Hb1%Z.ltb_lt Hb2%Z.ltb_lt].
      destruct (findBucket_spec s) as (H14 & Hcap & _); [unfold UINT64_MAX; lia|]. apply findBucket_mono; [lia|lia|done].
    + do 2 (split; [done|]). split; [|done]. destruct more; cbn [point_back]; [|by rewrite Es].
      rewrite line_at_store. case_decide as D; [subst a|]; cbn [size set_prev_offset]; by rewrite Es.
Qed.

Lemma end_touches : touches m m' C.
Proof.
  assert (Hfree : in_free C fc) by (eapply chunk_free; [exact Hfc|lia]).
  assert (Hfreec : in_free C chunk) by (exists fc, s; split; [done|unfold chunk; lia]).
  eapply touches_trans; [|apply touches_free, Hfreec]. eapply touches_trans; [|apply touches_free, Hfree].
  eapply touches_trans; [apply touches_free, Hfreec|]. by eapply touches_point_back.
Qed.

Lemma take_end_ok :
  exists m1, take_chunk m fl (findBucket s) fc sz = Ok (m1, fl, chunk) /\ accessible m1 chunk = true /\
    used (line_at m1 chunk) = 0 /\
    let m' := store m1 chunk (alloc_header fl chunk sz (line_at m1 chunk)) in
    fl_inv m' fl (<[chunk := (sz, true)]> (<[fc := (s - sz, false)]> C)) B /\ touches m m' C.
Proof.
  destruct end_interior as [Hnc Hcacc]. exists end_cut. split; [apply take_end_eval|].
  split; [unfold end_cut; rewrite accessible_store; erewrite accessible_regions; [exact Hcacc|by rewrite point_back_regions]|].
  split; [by rewrite end_cut_chunk|]. split; [|apply end_touches].
  constructor; [apply end_tiling|apply end_buckets| |apply Hinv].
  intros a. rewrite (fi_linked _ _ _ _ Hinv a). split.
  - intros [t Ha]. destruct (decide (a = fc)) as [->|Hne].
    + exists (s - sz). rewrite lookup_insert_ne by (unfold chunk; lia). by rewrite lookup_insert_eq.
    + exists t. rewrite !lookup_insert_ne by congruence. done.
  - intros [t [[_ [= _ ?]]|[_ Ha]]%lookup_insert_Some].
    apply lookup_insert_Some in Ha as [[<- _]|[_ Ha]]; [by exists s|by exists t].
Qed.

End TakeEnd.

(** Removing the chunk [fc] from its bucket, as [take_chunk] does. *)
Lemma take_unlink m fl C B fc s :
  fl_inv m fl C B -> C !! fc = Some (s, false) ->
  exists h m1 h' B', buckets fl !! findBucket s = Some h /\ fix_prev m h fc = Ok (m1, h') /\
    let m2 := fst (unlinked m h fc) in
    fix_next m1 fc = Ok m2 /\ links_only m m2 (concat B') /\
    buckets_ok m2 (set_bucket fl (findBucket s) h') B' /\
    (forall x, x ∈ concat B' <-> x ∈ concat B /\ x <> fc).
Proof.
  intros [Ht Hbk Hlk _] Hfc. pose proof (ck_size _ _ _ _ _ _ _ (ti_chunk _ _ _ _ Ht _ _ _ Hfc)) as Es.
  assert (Hin : fc ∈ concat B) by (apply Hlk; by exists s).
  destruct (bucket_of _ _ _ _ Hbk Hin) as (l & h & Hb & Hh & Hal & Hd). rewrite Es in *.
  apply list_elem_of_split in Hal as (l1 & l2 & ->).
  assert (Hnd : NoDup (l1 ++ fc :: l2)).
  { pose proof (bo_nodup _ _ _ Hbk) as Hn. rewrite (concat_split _ _ _ Hb) in Hn. by apply NoDup_app in Hn as (? & _). }
  destruct (unlink_prev_next _ _ _ _ _ Hd Hnd) as (m1 & h' & E1 & E2 & Eh).
  destruct (unlink_bucket _ _ _ _ _ _ _ _ Hbk Hh Hb) as (Hbk' & (R & S & L) & Hmem).
  exists h, m1, h', (<[findBucket s := l1 ++ l2]> B). split; [done|]. split; [done|]. cbv zeta. split; [done|].
  split; [|rewrite Eh; done]. split; [done|]. split; [done|]. intros x Hx. apply L. intros Hx'. apply Hx.
  rewrite (concat_insert _ _ _ _ Hb). apply elem_of_app. by left.
Qed.

(** Links of free chunks do not matter to the chunks, and only free memory
    changes. *)
Lemma links_free m m' fl C B B' :
  fl_inv m fl C B -> links_only m m' (concat B') -> (forall x, x ∈ concat B' -> x ∈ concat B) ->
  tiling m' (my_id fl) C 0 /\ touches m m' C.
Proof.
  intros [Ht _ Hlk _] Hlo Hsub. split.
  - apply (tiling_strip m); [done|apply Hlo|]. intros c s u _. apply Hlo.
  - eapply touches_links; [exact Hlo|]. intros a Ha%Hsub. apply Hlk in Ha as [s Ha].
    eapply chunk_free; [exact Ha|]. apply (ck_aligned _ _ _ _ _ _ _ (ti_chunk _ _ _ _ Ht _ _ _ Ha)).
Qed.

Lemma take_whole_ok m fl C B fc s :
  fl_inv m fl C B -> C !! fc = Some (s, false) ->
  (0 <? Z.of_nat (findBucket s)) && (BucketCaps !!! (findBucket s - 1)%nat <? s - s) = false ->
  exists m1 fl1 B1, take_chunk m fl (findBucket s) fc s = Ok (m1, fl1, fc) /\ accessible m1 fc = true /\
    used (line_at m1 fc) = 0 /\ (exists b h, fl1 = set_bucket fl b h) /\
    let m' := store m1 fc (alloc_header fl fc s (line_at m1 fc)) in
    fl_inv m' fl1 (<[fc := (s, true)]> C) B1 /\ touches m m' C.
Proof.
  intros Hinv Hfc Hb. pose proof Hinv as [Ht Hbk Hlk Hid].
  destruct (ti_chunk _ _ _ _ Ht _ _ _ Hfc) as [(Al1 & Al2 & Al3) Hheap Hblk Es Eu Eid El Hnext _].
  pose proof (chunk_accessible _ _ _ _ _ _ _ Ht Hfc) as Hacc. pose proof (tiling_pos _ _ _ _ _ _ _ Ht Hfc) as Hpos.
  destruct (take_unlink _ _ _ _ _ _ Hinv Hfc) as (h & m1 & h' & B' & Hh & E1 & E2 & Hlo & Hbk' & Hmem).
  set (m2 := fst (unlinked m h fc)) in *. unfold take_chunk. rewrite hget_ok by done. cbn [res_bind].
  rewrite Es, Hb. unfold bucket_head. rewrite Hh. cbn [res_bind]. rewrite E1. cbn [res_bind]. rewrite E2. cbn [res_bind].
  rewrite Z.sub_diag. cbn [Z.ltb Z.compare]. eexists m2, _, B'. split; [done|].
  split; [rewrite (accessible_regions m); [done|apply Hlo]|].
  assert (Hfl : line_at m2 fc = line_at m fc) by (apply Hlo; rewrite Hmem; tauto). rewrite Hfl.
  split; [done|]. split; [by do 2 eexists|]. set (m' := store m2 fc _).
  destruct (links_free _ _ _ _ _ B' Hinv Hlo) as [Ht2 Htou]; [intros x; rewrite Hmem; tauto|].
  split; [|eapply touches_trans; [exact Htou|apply touches_free; by eapply chunk_free]].
  assert (Hbound : s < 2 ^ 29) by (pose proof (off_range fc); change BlockSize with 2097152 in *; change (2 ^ 29) with 536870912; lia).
  constructor; [| | |done].
  - apply (tiling_strip (store m2 fc (set_used (line_at m2 fc) (b2z true)))); [|done|].
    + cbn [my_id set_bucket]. by apply (tiling_used m2 _ C 0 fc s false true).
    + intros c t v _. unfold m'. destruct (decide (fc = c)) as [<-|Hne]; [|by rewrite !line_at_store_ne].
      rewrite !line_at_store_eq, Hfl. unfold alloc_header, strip, set_size, set_used, set_last, set_free_list_id.
      cbn [prev_offset free_list_id last used jumbo size payload].
      rewrite u29_small, Es, Eid, El, isLast_off, b2z_mod by lia. unfold u16. rewrite Z.mod_small by lia. done.
  - eapply buckets_ok_data; [exact Hbk'|done|]. intros a Ha. unfold m'. rewrite line_at_store_ne by (rewrite Hmem in Ha; naive_solver).
    do 2 (split; [done|]). split; [|done]. rewrite (links_size _ _ _ a Hlo). apply Hmem in Ha as [Ha _].
    apply Hlk in Ha as [t Ha]. destruct (ti_chunk _ _ _ _ Ht _ _ _ Ha) as [(_ & _ & ?) _ _ -> _ _ _ _ _]. done.
  - intros a. rewrite Hmem, Hlk. split.
    + intros [[t Ha] Hne]. exists t. by rewrite lookup_insert_ne.
    + intros [t [[_ [= _ ?]]|[Hne Ha]]%lookup_insert_Some]. split; [by exists t|done].
Qed.

(** *** Cutting the request off the front of a chunk that leaves its bucket *)

(** The header [take_chunk] gives to the rest of the chunk. *)
Definition rest_header (id p c s : Z) (l : line) : line :=
  let l := set_free_list_id (set_prev_offset l (chunkOffset p)) id in
  set_size (set_used (set_last l (b2z (isLastChunkOfBlock c (size l)))) 0) s.

(** [m2] is the memory after [fc] was unlinked, which leaves the buckets
    [B'] of the free list [fl1]. *)
Section TakeFront.
Context (m m2 : mem) (fl fl1 : flist) (C : chunks) (B B' : list (list Z)) (fc s sz : Z).
Hypothesis Hinv : fl_inv m fl C B.
Hypothesis Hfc : C !! fc = Some (s, false).
Hypothesis Hsz : 0 < sz < s.
Hypothesis Hmod : sz mod 64 = 0.
Hypothesis Hcut : isLastChunkOfBlock (fc + sz) (size (line_at m (fc + sz))) = (off fc + s =? BlockSize).
Hypothesis Hlo : links_only m m2 (concat B').
Hypothesis Hbk' : buckets_ok m2 fl1 B'.
Hypothesis Hmem : forall x, x ∈ concat B' <-> x ∈ concat B /\ x <> fc.
Hypothesis Hid1 : my_id fl1 = my_id fl.

Let Ht : tiling m (my_id fl) C 0 := fi_tiling _ _ _ _ Hinv.
Let fc' : Z := fc + sz.
Let more : bool := off fc + s <? BlockSize.
Let ln : line := rest_header (my_id fl) fc fc' (s - sz) (line_at m fc').

Definition front_cut : mem := point_back (store m2 fc' ln) more (fc + s) fc'.

Lemma front_interior : C !! fc' = None /\ accessible m fc' = true.
Proof.
  destruct (ck_aligned _ _ _ _ _ _ _ (ti_chunk _ _ _ _ Ht _ _ _ Hfc)) as (? & ? & _). split.
  - eapply chunk_interior; [exact Ht|exact Hfc|unfold fc'; lia].
  - eapply interior_accessible; [exact Ht|exact Hfc|unfold fc'; lia|unfold fc'; dlia].
Qed.

Lemma front_unlinked x : C !! x = None -> x ∉ concat B'.
Proof. intros Hx [Hin _]%Hmem. apply (fi_linked _ _ _ _ Hinv) in Hin as [t Hin]. congruence. Qed.

Lemma front_in_free x : x ∈ concat B' -> in_free C x.
Proof.
  intros [Ha _]%Hmem. apply (fi_linked _ _ _ _ Hinv) in Ha as [t Ha].
  eapply chunk_free; [exact Ha|]. by eapply tiling_size.
Qed.

Lemma rest_header_has : has_header ln (s - sz) false (my_id fl) (b2z (off fc + s =? BlockSize)) (chunkOffset fc).
Proof.
  pose proof (chunk_bound _ _ _ _ _ _ _ Ht Hfc). pose proof (fi_id _ _ _ _ Hinv).
  unfold has_header, ln, rest_header.
  cbn [size used free_list_id last prev_offset set_size set_used set_last set_free_list_id set_prev_offset].
  rewrite u29_small, b2z_mod, u16_chunkOffset by lia. unfold fc'. rewrite Hcut.
  unfold u16. rewrite (Z.mod_small (my_id fl)) by lia. done.
Qed.

Lemma front_cut_regions : mapped_regions front_cut = mapped_regions m.
Proof. unfold front_cut. rewrite point_back_regions. apply Hlo. Qed.

Lemma front_cut_rest : line_at front_cut fc' = ln.
Proof. unfold front_cut. rewrite point_back_ne by (unfold fc'; lia). apply line_at_store_eq. Qed.

Lemma front_cut_fst : line_at front_cut fc = line_at m fc.
Proof.
  unfold front_cut. rewrite point_back_ne, line_at_store_ne by (unfold fc'; lia). apply Hlo. rewrite Hmem. tauto.
Qed.

Lemma front_cut_other x :
  x <> fc' -> strip (line_at front_cut x) = strip (line_at (point_back m more (fc + s) fc') x).
Proof. intros Hx. apply point_back_strip. rewrite line_at_store_ne by done. apply Hlo. Qed.

Lemma front_cut_eval :
  (let* m := hupd m2 fc' (rest_header (my_id fl) fc fc' (s - sz)) in
   let* c := hget m fc' in
   let* m :=
     if negb (last c =? 1) then hupd m (fc' + size c) (fun n => set_prev_offset n (chunkOffset fc'))
     else Ok m in
   let* (m, fl) := addFreeChunk m fl1 fc' (size c) in
   Ok (m, fl, fc)) =
  let* (m, fl) := addFreeChunk front_cut fl1 fc' (s - sz) in Ok (m, fl, fc).
Proof.
  destruct front_interior as [Hnc Hacc]. destruct rest_header_has as (Hs & _ & _ & Hl & _).
  assert (Hacc2 : forall x, accessible m2 x = accessible m x) by (intros x; apply accessible_regions, Hlo).
  rewrite hupd_ok by (by rewrite Hacc2). cbn [res_bind].
  replace (line_at m2 fc') with (line_at m fc') by (symmetry; apply Hlo; by apply front_unlinked). fold ln.
  rewrite hget_ok by (by rewrite accessible_store, Hacc2). cbn [res_bind]. rewrite line_at_store_eq, Hs, Hl.
  replace (fc' + (s - sz)) with (fc + s) by (unfold fc'; lia).
  assert (Hm : negb (b2z (off fc + s =? BlockSize) =? 1) = more).
  { rewrite <- (ck_last _ _ _ _ _ _ _ (ti_chunk _ _ _ _ Ht _ _ _ Hfc)), (last_flag _ _ _ _ _ _ _ Ht Hfc). apply negb_involutive. }
  rewrite Hm, hupd_point_back; [done|]. intros E. rewrite accessible_store, Hacc2.
  by destruct (next_of_chunk _ _ _ _ _ _ _ Ht Hfc E) as (? & ? & ? & ? & _).
Qed.

Lemma front_cut_buckets : buckets_ok front_cut fl1 B'.
Proof. apply buckets_ok_point_back, buckets_ok_store; [done|]. apply front_unlinked, front_interior. Qed.

(** The memory [m5] after the rest was put in a bucket. *)
Context (m5 : mem).
Hypothesis Hlo5 : links_only front_cut m5 (fc' :: concat B').

Let m' : mem := store m5 fc (alloc_header fl fc sz (line_at m5 fc)).

Lemma front_fst_line : line_at m5 fc = line_at m fc.
Proof.
  rewrite <- front_cut_fst. apply Hlo5. rewrite elem_of_cons, Hmem. unfold fc'. intros [?|[_ ?]]; [lia|done].
Qed.

Lemma front_strip x : x <> fc -> strip (line_at m' x) = strip (line_at front_cut x).
Proof. intros Hx. unfold m'. rewrite line_at_store_ne by done. apply Hlo5. Qed.

Lemma front_tiling : tiling m' (my_id fl) (<[fc' := (s - sz, false)]> (<[fc := (sz, true)]> C)) 0.
Proof.
  destruct (ti_chunk _ _ _ _ Ht _ _ _ Hfc) as [(? & ? & ?) _ ? _ _ _ _ _ _].
  pose proof (chunk_bound _ _ _ _ _ _ _ Ht Hfc). pose proof (tiling_pos _ _ _ _ _ _ _ Ht Hfc).
  destruct front_interior as [Hnc _]. apply (tiling_split m m' (my_id fl) C fc s false sz true false); try done; fold fc'.
  - unfold m'. cbn [mapped_regions store]. rewrite (proj1 Hlo5). apply front_cut_regions.
  - unfold m'. rewrite line_at_store_eq, front_fst_line.
    destruct (alloc_header_has fl fc sz (line_at m fc)) as (A1 & A2 & A3 & A4 & A5); [apply Hinv|lia|].
    unfold has_header. rewrite A1, A2, A3, A4, A5, isLast_off by lia. rewrite (proj2 (Z.eqb_neq _ _)) by lia. done.
  - eapply has_header_strip; [apply front_strip; unfold fc'; lia|]. rewrite front_cut_rest. apply rest_header_has.
  - intros c Hc Hcf. rewrite front_strip by done. apply front_cut_other. intros ->. congruence.
Qed.

Lemma front_touches : touches m m' C.
Proof.
  assert (Hfree : in_free C fc) by (eapply chunk_free; [exact Hfc|lia]).
  assert (Hfree' : in_free C fc') by (exists fc, s; split; [done|unfold fc'; lia]).
  eapply touches_trans; [|apply touches_free, Hfree]. apply (touches_trans _ front_cut).
  - eapply touches_trans; [eapply touches_links; [exact Hlo|apply front_in_free]|].
    eapply touches_trans; [apply touches_free, Hfree'|]. by eapply touches_point_back.
  - eapply touches_links; [exact Hlo5|]. intros a [->|Ha]%elem_of_cons; [done|by apply front_in_free].
Qed.

End TakeFront.

Lemma take_front_ok m fl C B fc s sz :
  fl_inv m fl C B -> C !! fc = Some (s, false) -> 0 < sz < s -> sz mod 64 = 0 ->
  (0 <? Z.of_nat (findBucket s)) && (BucketCaps !!! (findBucket s - 1)%nat <? s - sz) = false ->
  isLastChunkOfBlock (fc + sz) (size (line_at m (fc + sz))) = (off fc + s =? BlockSize) ->
  exists m1 fl1 B1, take_chunk m fl (findBucket s) fc sz = Ok (m1, fl1, fc) /\ accessible m1 fc = true /\
    used (line_at m1 fc) = 0 /\ (exists b h b' h', fl1 = set_bucket (set_bucket fl b h) b' h') /\
    let m' := store m1 fc (alloc_header fl fc sz (line_at m1 fc)) in
    fl_inv m' fl1 (<[fc + sz := (s - sz, false)]> (<[fc := (sz, true)]> C)) B1 /\ touches m m' C.
Proof.
  intros Hinv Hfc Hsz Hmod Hb Hcut. pose proof Hinv as [Ht Hbk Hlk Hid].
  destruct (ti_chunk _ _ _ _ Ht _ _ _ Hfc) as [_ _ _ Es Eu _ _ _ _]. pose proof (chunk_bound _ _ _ _ _ _ _ Ht Hfc).
  pose proof (chunk_accessible _ _ _ _ _ _ _ Ht Hfc) as Hacc. pose proof (tiling_pos _ _ _ _ _ _ _ Ht Hfc) as Hpos.
  destruct (take_unlink _ _ _ _ _ _ Hinv Hfc) as (h & m1 & h' & B' & Hh & E1 & E2 & Hlo & Hbk' & Hmem).
  set (m2 := fst (unlinked m h fc)) in *. set (fl1 := set_bucket fl (findBucket s) h') in *.
  destruct (front_interior m fl C B fc s sz Hinv Hfc Hsz Hmod) as [Hnc Hcacc].
  pose proof (front_cut_regions m m2 fl B' fc s sz Hlo) as Hreg.
  destruct (addFreeChunk_spec (front_cut m m2 fl fc s sz) fl1 B' (fc + sz) (s - sz)) as (m5 & fl5 & B5 & E5 & Hbk5 & Hlo5 & Hmem5 & Efl5).
  { by eapply front_cut_buckets. } { by eapply front_unlinked. } { lia. } { by rewrite (accessible_regions m). }
  { erewrite front_cut_rest by done. by eapply rest_header_has. } { unfold UINT64_MAX. lia. }
  unfold take_chunk. rewrite hget_ok by done. cbn [res_bind].
  rewrite Es, Hb. unfold bucket_head. rewrite Hh. cbn [res_bind]. rewrite E1. cbn [res_bind]. rewrite E2. cbn [res_bind].
  rewrite (proj2 (Z.ltb_lt 0 (s - sz))) by lia. fold fl1.
  pose proof (front_cut_eval m m2 fl fl1 C B B' fc s sz Hinv Hfc Hsz Hmod Hcut Hlo Hmem) as Ev. unfold rest_header in Ev.
  cbn [my_id set_bucket fl1] in Ev |- *. cbv zeta in Ev |- *. rewrite Ev, E5. cbn [res_bind]. exists m5, fl5, B5. split; [done|].
  split; [by rewrite (accessible_regions (front_cut m m2 fl fc s sz)), (accessible_regions m) by (done || apply Hlo5)|].
  assert (El : line_at m5 fc = line_at m fc) by (by eapply front_fst_line). split; [by rewrite El|].
  split; [rewrite Efl5; by do 4 eexists|]. assert (Efid : my_id fl5 = my_id fl) by (by rewrite Efl5).
  split; [constructor; rewrite ?Efid; [by eapply front_tiling| | |done]|by eapply front_touches].
  - apply buckets_ok_store; [done|]. rewrite Hmem5, Hmem. intros [?|[_ ?]]; [lia|done].
  - intros a. rewrite Hmem5, Hmem, Hlk. split.
    + intros [->|[[t Ha] Hne]]; [exists (s - sz); by rewrite lookup_insert_eq|]. exists t.
      rewrite !lookup_insert_ne by congruence. done.
    + intros [t [[<- _]|[Hne Ha]]%lookup_insert_Some]; [by left|right].
      apply lookup_insert_Some in Ha as [[_ [= _ ?]]|[Hne' Ha]]. split; [by exists t|done].
Qed.

(** ** Allocation *)

(** The chunks of a free list lie in memory the global allocator has handed
    out. *)
Definition owned (m : mem) (l : list Z) (C : chunks) : Prop :=
  forall c s u x, C !! c = Some (s, u) -> c - off c <= x < c - off c + BlockSize -> ~ free_at m l x.

Lemma chunk_in_block m id C ex c s u x :
  tiling m id C ex -> C !! c = Some (s, u) -> c <= x < c + s -> c - off c <= x < c - off c + BlockSize.
Proof.
  intros Ht Hc Hx. pose proof (ck_block _ _ _ _ _ _ _ (ti_chunk _ _ _ _ Ht _ _ _ Hc)). pose proof (off_range c). lia.
Qed.

(** The list of the global allocator does not depend on the lines of
    chunks. *)
Lemma list_inv_frame m m' f l :
  list_inv m f l -> mapped_regions m' = mapped_regions m -> (forall a, a ∈ l -> line_at m' a = line_at m a) ->
  list_inv m' f l /\ forall x, free_at m' l x <-> free_at m l x.
Proof.
  intros [Hh Hd Hn] Hreg Hl. assert (Hsz : forall a, a ∈ l -> size_at m' a = size_at m a).
  { intros a Ha. unfold size_at. by rewrite Hl. }
  split; [constructor|intros x; by apply free_at_ext].
  - by apply (heap_ok_regions m).
  - destruct Hd as [tl Hs]. exists tl. eapply seg_frame; [|exact Hs]. intros a Ha. rewrite Hl by done.
    split; [by apply accessible_regions|done].
  - apply (nodes_ok_keep m m' l); [done|apply Hn|unfold heap_end; by rewrite Hreg|auto].
Qed.

Lemma touches_list m m' f l id C ex :
  list_inv m f l -> tiling m id C ex -> owned m l C -> touches m m' C ->
  list_inv m' f l /\ forall x, free_at m' l x <-> free_at m l x.
Proof.
  intros Hli Ht Hown [Hreg Htou]. apply list_inv_frame; [done|done|]. intros a Ha.
  pose proof (node_free _ _ _ (li_nodes _ _ _ Hli) Ha) as Hfa.
  destruct (Htou a) as [?|[[s Hs] _]]; [|done|].
  - intros (c & s & Hc & Hx). eapply Hown; [exact Hc| |exact Hfa]. by eapply chunk_in_block.
  - exfalso. eapply Hown; [exact Hs| |exact Hfa]. eapply chunk_in_block; [exact Ht|exact Hs|].
    pose proof (ck_aligned _ _ _ _ _ _ _ (ti_chunk _ _ _ _ Ht _ _ _ Hs)). lia.
Qed.

(** How the chunks change: the request is served from memory that was free,
    chunks in use stay as they are. *)
Record alloc_chunks (C C' : chunks) (chunk sz : Z) : Prop := {
  ac_new : C' !! chunk = Some (sz, true);
  ac_kept : forall c s, C !! c = Some (s, true) -> C' !! c = Some (s, true) /\ c <> chunk;
  ac_only : forall c s, C' !! c = Some (s, true) -> c = chunk \/ C !! c = Some (s, true);
  ac_cover : forall x, in_free C' x -> in_free C x \/ forall c s u, C !! c = Some (s, u) -> ~ c <= x < c + s
}.

Lemma carve_chunks m id C ex sz C' chunk :
  tiling m id C ex -> carve C sz C' chunk ->
  alloc_chunks C C' chunk sz /\ (forall x, chunk <= x < chunk + sz -> in_free C x) /\
  (forall c s u, C' !! c = Some (s, u) -> exists d t v, C !! d = Some (t, v) /\ d <= c /\ c + s <= d + t).
Proof.
  intros Ht Hcv. destruct Hcv as [fc Hfc|fc s Hfc Hsz|fc s Hfc Hsz].
  - split; [constructor|split].
    + apply lookup_insert_eq.
    + intros c s Hc. assert (c <> fc) by congruence. by rewrite lookup_insert_ne.
    + intros c s [[-> _]|[_ Hc]]%lookup_insert_Some; auto.
    + intros x (c & s & [[_ [= _ ?]]|[_ Hc]]%lookup_insert_Some & Hx). left. by exists c, s.
    + intros x Hx. by exists fc, sz.
    + intros c s u [[<- [= <- <-]]|[_ Hc]]%lookup_insert_Some; [exists fc, sz, false|exists c, s, u]; (split; [done|lia]).
  - assert (Hnc : C !! (fc + (s - sz)) = None) by (eapply chunk_interior; [exact Ht|exact Hfc|lia]).
    split; [constructor|split].
    + apply lookup_insert_eq.
    + intros c t Hc. assert (c <> fc) by congruence. assert (c <> fc + (s - sz)) by congruence.
      rewrite !lookup_insert_ne by done. done.
    + intros c t [[-> _]|[_ Hc]]%lookup_insert_Some; [by left|].
      apply lookup_insert_Some in Hc as [[_ [= _ ?]]|[_ Hc]]. by right.
    + intros x (c & t & [[_ [= _ ?]]|[_ Hc]]%lookup_insert_Some & Hx).
      apply lookup_insert_Some in Hc as [[<- [= <-]]|[_ Hc]]; left; [exists fc, s; split; [done|lia]|by exists c, t].
    + intros x Hx. exists fc, s. split; [done|lia].
    + intros c t u [[<- [= <- <-]]|[_ Hc]]%lookup_insert_Some; [exists fc, s, false; split; [done|lia]|].
      apply lookup_insert_Some in Hc as [[<- [= <- <-]]|[_ Hc]]; [exists fc, s, false|exists c, t, u]; (split; [done|lia]).
  - assert (Hnc : C !! (fc + sz) = None) by (eapply chunk_interior; [exact Ht|exact Hfc|lia]).
    split; [constructor|split].
    + rewrite lookup_insert_ne by lia. apply lookup_insert_eq.
    + intros c t Hc. assert (c <> fc) by congruence. assert (c <> fc + sz) by congruence.
      rewrite !lookup_insert_ne by done. done.
    + intros c t [[_ [= _ ?]]|[_ Hc]]%lookup_insert_Some.
      apply lookup_insert_Some in Hc as [[-> _]|[_ Hc]]; auto.
    + intros x (c & t & [[<- [= <-]]|[_ Hc]]%lookup_insert_Some & Hx); left; [exists fc, s; split; [done|lia]|].
      apply lookup_insert_Some in Hc as [[_ [= _ ?]]|[_ Hc]]. by exists c, t.
    + intros x Hx. exists fc, s. split; [done|lia].
    + intros c t u [[<- [= <- <-]]|[_ Hc]]%lookup_insert_Some; [exists fc, s, false; split; [done|lia]|].
      apply lookup_insert_Some in Hc as [[<- [= <- <-]]|[_ Hc]]; [exists fc, s, false|exists c, t, u]; (split; [done|lia]).
Qed.

(** A chunk of the right size is found in the buckets. *)
Lemma take_chunk_ok m fl C B b l fc sz :
  fl_inv m fl C B -> B !! b = Some l -> fc ∈ l -> sz <= size (line_at m fc) -> 0 < sz -> sz mod 64 = 0 ->
  (forall c s, C !! c = Some (s, false) -> sz <= s -> cut_ok m c s sz = true) ->
  exists m1 fl1 chunk C' B1, take_chunk m fl b fc sz = Ok (m1, fl1, chunk) /\ accessible m1 chunk = true /\
    used (line_at m1 chunk) = 0 /\ my_id fl1 = my_id fl /\ total_allocated fl1 = total_allocated fl /\
    carve C sz C' chunk /\
    let m' := store m1 chunk (alloc_header fl chunk sz (line_at m1 chunk)) in
    fl_inv m' fl1 C' B1 /\ touches m m' C.
Proof.
  intros Hinv Hb Hin Hle Hpos Hmod Hcut.
  destruct (bo_size _ _ _ (fi_buckets _ _ _ _ Hinv) _ _ _ Hb Hin) as [_ <-].
  assert (Hc : exists s, C !! fc = Some (s, false)).
  { apply (fi_linked _ _ _ _ Hinv). apply elem_of_concat. exists l. split; [done|]. by eapply list_elem_of_lookup_2. }
  destruct Hc as [s Hs]. rewrite (ck_size _ _ _ _ _ _ _ (ti_chunk _ _ _ _ (fi_tiling _ _ _ _ Hinv) _ _ _ Hs)) in *.
  specialize (Hcut fc s Hs Hle). unfold cut_ok in Hcut.
  destruct ((0 <? Z.of_nat (findBucket s)) && (BucketCaps !!! (findBucket s - 1)%nat <? s - sz)) eqn:Eb.
  - assert (sz < s).
    { apply andb_true_iff in Eb as [Eb1%Z.ltb_lt Eb2%Z.ltb_lt].
      pose proof (ck_block _ _ _ _ _ _ _ (ti_chunk _ _ _ _ (fi_tiling _ _ _ _ Hinv) _ _ _ Hs)) as Hbs.
      pose proof (off_range fc). change BlockSize with 2097152 in *.
      destruct (findBucket_spec s) as (H14 & _ & _); [unfold UINT64_MAX; lia|].
      pose proof (caps_pos (findBucket s - 1) ltac:(lia)). lia. }
    destruct (take_end_ok m fl C B fc s sz Hinv Hs ltac:(lia) Hmod Eb) as (m1 & E & ? & ? & Hr).
    eexists m1, fl, _, _, B. split; [exact E|]. do 4 (split; [done|]). split; [by apply carve_end|]. exact Hr.
  - destruct (Z.eqb_spec s sz) as [->|Hne].
    + destruct (take_whole_ok m fl C B fc sz Hinv Hs Eb) as (m1 & fl1 & B1 & E & ? & ? & (b & h & ->) & Hr).
      eexists m1, _, _, _, B1. split; [exact E|]. do 4 (split; [done|]). split; [by apply carve_whole|]. exact Hr.
    + cbn [orb] in Hcut. apply Bool.eqb_prop in Hcut.
      destruct (take_front_ok m fl C B fc s sz Hinv Hs ltac:(lia) Hmod Eb Hcut) as (m1 & fl1 & B1 & E & ? & ? & (b & h & b' & h' & ->) & Hr).
      eexists m1, _, _, _, B1. split; [exact E|]. do 4 (split; [done|]). split; [apply carve_front; [done|lia]|]. exact Hr.
Qed.

(** The invariant only depends on the lines of the chunks, and the heap may
    grow. *)
Lemma fl_inv_grow m m' fl C B :
  fl_inv m fl C B -> heap_ok m' -> heap_end m <= heap_end m' ->
  (forall c, C !! c <> None -> line_at m' c = line_at m c) -> fl_inv m' fl C B.
Proof.
  intros [Ht Hbk Hlk Hid] Hh' He Hl. pose proof Ht as [Hh Hc Hd].
  assert (Ht' : tiling m' (my_id fl) C 0).
  { constructor; [done| |done]. intros c s u Hcs.
    destruct (Hc c s u Hcs) as [? [? ?] ? H1 H2 H3 H4 H5 H6]. assert (El : line_at m' c = line_at m c) by (apply Hl; congruence).
    constructor; rewrite ?El; try done. split; [done|lia]. }
  constructor; [done| |done|done]. destruct Hbk as [Hlen Hdl Hnd Hsz].
  assert (Hin : forall b k a, B !! b = Some k -> a ∈ k -> exists s, C !! a = Some (s, false)).
  { intros b k a Hb Ha. apply Hlk, elem_of_concat. exists k. split; [done|]. by eapply list_elem_of_lookup_2. }
  constructor; [done| |done|].
  - intros b h k Hh0 Hb. destruct (Hdl b h k Hh0 Hb) as [tl Hs]. exists tl. eapply seg_frame; [|exact Hs].
    intros a Ha. destruct (Hin b k a Hb Ha) as [s Hs']. rewrite Hl by congruence. split; [|done].
    rewrite (chunk_accessible _ _ _ _ _ _ _ Ht' Hs'). symmetry. by eapply chunk_accessible.
  - intros b k a Hb Ha. destruct (Hin b k a Hb Ha) as [s Hs']. rewrite Hl by congruence. by apply (Hsz b k a).
Qed.

Lemma tiling_block_apart m id C c s u a :
  tiling m id C 0 -> C !! c = Some (s, u) -> off a = 0 -> (c - off c <> a) ->
  a + BlockSize <= c \/ c + s <= a.
Proof.
  intros Ht Hc Ha Hne. pose proof (ck_block _ _ _ _ _ _ _ (ti_chunk _ _ _ _ Ht _ _ _ Hc)).
  pose proof (off_range c). unfold off in *. change BlockSize with 2097152 in *. dlia.
Qed.

(** *** A block from the global allocator

    All of it serves the request, or the rest of it becomes a free chunk. *)

Section BlockCut.
Context (m : mem) (fl : flist) (C : chunks) (B : list (list Z)) (chunk : Z).
Hypothesis Hinv : fl_inv m fl C B.
Hypothesis Ho : off chunk = 0.
Hypothesis Hlo : BaseAddress <= chunk.
Hypothesis Hhi : chunk + BlockSize <= heap_end m.
Hypothesis Hdis : forall c s u, C !! c = Some (s, u) -> chunk + BlockSize <= c \/ c + s <= chunk.

Let Ht : tiling m (my_id fl) C 0 := fi_tiling _ _ _ _ Hinv.

Lemma block_empty x : chunk <= x < chunk + BlockSize -> C !! x = None.
Proof.
  intros Hx. destruct (C !! x) as [[s u]|] eqn:E; [|done]. pose proof (tiling_size _ _ _ _ _ _ _ Ht E).
  destruct (Hdis x s u E); lia.
Qed.

Lemma block_unlinked x : chunk <= x < chunk + BlockSize -> x ∉ concat B.
Proof. intros Hx Hin. apply (fi_linked _ _ _ _ Hinv) in Hin as [s Hs]. rewrite block_empty in Hs; done. Qed.

(** The block as one chunk with the header [ln]. *)
Lemma block_tiling u ln :
  has_header ln BlockSize u (my_id fl) 1 (prev_offset ln) ->
  tiling (store m chunk ln) (my_id fl) (<[chunk := (BlockSize, u)]> C) 0.
Proof.
  intros Hln. eapply (tiling_new_block m); try done.
  - apply (heap_ok_regions m); [done|apply Ht].
  - intros c Hc. rewrite line_at_store_ne; [done|]. intros <-. apply Hc, block_empty. change BlockSize with 2097152. lia.
  - by rewrite line_at_store_eq.
Qed.

Lemma new_block_whole :
  let ln := alloc_header fl chunk BlockSize (set_prev_offset (set_used (line_at m chunk) 0) 0) in
  fl_inv (store m chunk ln) fl (<[chunk := (BlockSize, true)]> C) B.
Proof.
  intros ln. assert (Hc : chunk <= chunk < chunk + BlockSize) by (change BlockSize with 2097152; lia).
  constructor; [|apply buckets_ok_store; [apply Hinv|by apply block_unlinked]| |apply Hinv].
  - apply block_tiling. unfold ln. set (l0 := set_prev_offset _ 0).
    pose proof (alloc_header_has fl chunk BlockSize l0 (fi_id _ _ _ _ Hinv) ltac:(by vm_compute)) as Hh.
    rewrite isLast_off, Ho in Hh by (unfold BaseAddress in Hlo; lia). exact Hh.
  - intros a. rewrite (fi_linked _ _ _ _ Hinv a). split.
    + intros [t Ha]. exists t. rewrite lookup_insert_ne; [done|]. intros <-. rewrite block_empty in Ha; done.
    + intros [t [[_ [= _ ?]]|[_ Ha]]%lookup_insert_Some]. by exists t.
Qed.

(** The first [sz] bytes serve the request. *)
Context (sz : Z).
Hypothesis Hsz : 0 < sz < BlockSize.
Hypothesis Hmod : sz mod 64 = 0.

Let fc : Z := chunk + sz.
Let lc : line := set_prev_offset (set_used (line_at m chunk) 0) 0.
Let lf (m2 : mem) : line :=
  set_size (set_used (set_last (set_free_list_id (set_prev_offset (line_at m2 fc) 0) (my_id fl)) 1) 0) (BlockSize - sz).

Definition block_cut : mem := let m2 := store m chunk lc in store m2 fc (lf m2).

Lemma block_cut_line x : x <> chunk -> x <> fc -> line_at block_cut x = line_at m x.
Proof. intros H1 H2. unfold block_cut. rewrite line_at_store_ne by done. by rewrite line_at_store_ne. Qed.

Lemma block_cut_fst : line_at block_cut chunk = lc.
Proof. unfold block_cut. rewrite line_at_store_ne by (unfold fc; lia). apply line_at_store_eq. Qed.

Lemma block_cut_rest :
  has_header (line_at block_cut fc) (BlockSize - sz) false (my_id fl) (b2z (off chunk + BlockSize =? BlockSize)) (chunkOffset chunk).
Proof.
  assert (Hbs : BlockSize = 2097152) by done. pose proof (fi_id _ _ _ _ Hinv). unfold block_cut. rewrite line_at_store_eq.
  rewrite chunkOffset_off, Ho by (unfold BaseAddress in Hlo; lia). unfold has_header, lf.
  cbn [size used free_list_id last prev_offset set_size set_used set_last set_free_list_id set_prev_offset].
  rewrite u29_small by (change (2 ^ 29) with 536870912; lia). unfold u16. rewrite (Z.mod_small (my_id fl)) by lia. done.
Qed.

(** The memory [m4] after the rest was put in a bucket. *)
Context (m4 : mem).
Hypothesis Hlo4 : links_only block_cut m4 (fc :: concat B).

Let m' : mem := store m4 chunk (alloc_header fl chunk sz (line_at m4 chunk)).

Lemma block_fst_line : line_at m4 chunk = lc.
Proof.
  rewrite <- block_cut_fst. apply Hlo4. rewrite elem_of_cons. unfold fc. intros [?|Hin]; [lia|].
  apply (block_unlinked chunk); [lia|done].
Qed.

Lemma block_split_tiling : tiling m' (my_id fl) (<[fc := (BlockSize - sz, false)]> (<[chunk := (sz, true)]> C)) 0.
Proof.
  assert (Hbs : BlockSize = 2097152) by done. set (lw := Line 0 (my_id fl) 1 0 0 BlockSize 0 0 0).
  pose proof (block_tiling false lw ltac:(done)) as Hv. set (mv := store m chunk lw) in *.
  assert (Hs : forall x, x <> chunk -> strip (line_at m' x) = strip (line_at block_cut x)).
  { intros x Hx. unfold m'. rewrite line_at_store_ne by done. apply Hlo4. }
  pose proof (tiling_split mv m' (my_id fl) (<[chunk := (BlockSize, false)]> C) chunk BlockSize false sz true false) as Hsp.
  fold fc in Hsp. rewrite insert_insert_eq in Hsp. apply Hsp; try done; clear Hsp.
  - apply lookup_insert_eq.
  - unfold m'. cbn [mapped_regions store]. by rewrite (proj1 Hlo4).
  - unfold m', mv. rewrite !line_at_store_eq, block_fst_line.
    pose proof (alloc_header_has fl chunk sz lc (fi_id _ _ _ _ Hinv) ltac:(change (2 ^ 29) with 536870912; lia)) as Hh.
    rewrite isLast_off, Ho in Hh by (unfold BaseAddress in Hlo; lia). rewrite (proj2 (Z.eqb_neq _ _)) in Hh by lia. exact Hh.
  - eapply has_header_strip; [apply Hs; unfold fc; lia|]. apply block_cut_rest.
  - intros c Hc Hcc. rewrite lookup_insert_ne in Hc by done. rewrite Ho, Z.ltb_irrefl. cbn [point_back].
    rewrite Hs by done. unfold mv. rewrite line_at_store_ne, block_cut_line by (try done; intros ->; apply Hc, block_empty; unfold fc; lia).
    done.
Qed.

Lemma block_split_lines x :
  ~ in_free C x -> ~ chunk <= x < chunk + BlockSize -> line_at m' x = line_at m x.
Proof.
  intros Hx Hxb. unfold m'. rewrite line_at_store_ne by lia. transitivity (line_at block_cut x).
  - apply Hlo4. rewrite elem_of_cons. intros [->|Hin]; [unfold fc in Hxb; lia|].
    apply Hx. apply (fi_linked _ _ _ _ Hinv) in Hin as [s Hs]. eapply chunk_free; [exact Hs|by eapply tiling_size].
  - apply block_cut_line; unfold fc; lia.
Qed.

End BlockCut.

Lemma new_block_split m fl C B chunk sz :
  fl_inv m fl C B -> off chunk = 0 -> BaseAddress <= chunk -> chunk + BlockSize <= heap_end m ->
  (forall c s u, C !! c = Some (s, u) -> chunk + BlockSize <= c \/ c + s <= chunk) ->
  0 < sz < BlockSize -> sz mod 64 = 0 ->
  let fc := chunk + sz in
  exists m4 fl4 B4, addFreeChunk (block_cut m fl chunk sz) fl fc (BlockSize - sz) = Ok (m4, fl4) /\
    fl4 = set_bucket fl (findBucket (BlockSize - sz)) fc /\
    accessible m4 chunk = true /\ used (line_at m4 chunk) = 0 /\
    let m' := store m4 chunk (alloc_header fl chunk sz (line_at m4 chunk)) in
    fl_inv m' fl4 (<[fc := (BlockSize - sz, false)]> (<[chunk := (sz, true)]> C)) B4 /\
    mapped_regions m' = mapped_regions m /\
    (forall x, ~ in_free C x -> ~ chunk <= x < chunk + BlockSize -> line_at m' x = line_at m x).
Proof.
  intros Hinv Ho Hlo Hhi Hdis Hsz Hmod fc. assert (Hbs : BlockSize = 2097152) by done.
  assert (Hal : chunk mod 64 = 0) by (by apply block_aligned).
  assert (Hnb : forall x, chunk <= x < chunk + BlockSize -> x ∉ concat B) by (by apply (block_unlinked m fl C)).
  assert (Hacc : forall x, chunk <= x < chunk + BlockSize -> x mod 64 = 0 -> accessible (block_cut m fl chunk sz) x = true).
  { intros x Hx Hxm. apply accessible_heap; [apply (heap_ok_regions m); [done|apply Hinv]|change (heap_end (block_cut m fl chunk sz)) with (heap_end m); lia|done]. }
  destruct (addFreeChunk_spec (block_cut m fl chunk sz) fl B fc (BlockSize - sz)) as (m4 & fl4 & B4 & E4 & Hbk4 & Hlo4 & Hmem4 & Efl4).
  { unfold block_cut. apply buckets_ok_store; [apply buckets_ok_store; [apply Hinv|]|]; apply Hnb; unfold fc; lia. }
  { apply Hnb. unfold fc. lia. } { unfold fc, BaseAddress in *. lia. } { apply Hacc; unfold fc; [lia|dlia]. }
  { by eapply block_cut_rest. } { unfold UINT64_MAX. lia. }
  exists m4, fl4, B4. do 2 (split; [done|]).
  split; [rewrite (accessible_regions (block_cut m fl chunk sz)) by apply Hlo4; apply Hacc; [lia|done]|].
  assert (El : used (line_at m4 chunk) = 0) by (by erewrite block_fst_line). split; [done|].
  assert (Efid : my_id fl4 = my_id fl) by (by rewrite Efl4).
  split; [constructor; rewrite ?Efid; [by eapply block_split_tiling| | |apply Hinv]|split; [|by eapply block_split_lines]].
  - apply buckets_ok_store; [done|]. rewrite Hmem4. unfold fc. intros [?|Hin]; [lia|]. by apply (Hnb chunk ltac:(lia)).
  - intros a. rewrite Hmem4, (fi_linked _ _ _ _ Hinv a). split.
    + intros [->|[t Ha]]; [exists (BlockSize - sz); apply lookup_insert_eq|]. exists t.
      rewrite !lookup_insert_ne; [done|intros <-..]; rewrite (block_empty m fl C B chunk) in Ha; try done; unfold fc; lia.
    + intros [t [[<- _]|[_ Ha]]%lookup_insert_Some]; [by left|right].
      apply lookup_insert_Some in Ha as [[_ [= _ ?]]|[_ Ha]]. by exists t.
  - cbn [mapped_regions store]. by rewrite (proj1 Hlo4).
Qed.

Section Operations.
Variable mmap_at : Z -> Z -> bool.
Hypothesis mmap_below : forall a s, mmap_at a s = true -> a + s <= BaseAddress + MaxMemorySize.

(** What [alloc] guarantees. *)
Record alloc_post (g : galloc) (l : list Z) (fl : flist) (C : chunks) (sz : Z)
    (g' : galloc) (l' : list Z) (fl' : flist) (C' : chunks) (B' : list (list Z)) (chunk : Z) : Prop := {
  ap_ga : ga_inv g' l';
  ap_fl : fl_inv (ga_mem g') fl' C' B';
  ap_owned : owned (ga_mem g') l' C';
  ap_chunks : alloc_chunks C C' chunk sz;
  ap_bitmap : ga_bitmap g' = ga_bitmap g;
  ap_total : total_allocated fl' = u64 (total_allocated fl + sz) /\ my_id fl' = my_id fl;
  ap_end : heap_end (ga_mem g) <= heap_end (ga_mem g');
  ap_was_free : forall x, chunk <= x < chunk + sz ->
    in_free C x \/ free_at (ga_mem g) l x \/ heap_end (ga_mem g) <= x;
  ap_ga_free : forall x, free_at (ga_mem g') l' x -> free_at (ga_mem g) l x \/ heap_end (ga_mem g) <= x;
  ap_blocks : forall c s u, C' !! c = Some (s, u) ->
    (exists d t v, C !! d = Some (t, v) /\ d - off d = c - off c) \/
    (forall x, c - off c <= x < c - off c + BlockSize -> free_at (ga_mem g) l x \/ heap_end (ga_mem g) <= x);
  ap_lines : forall x, x < heap_end (ga_mem g) -> ~ free_at (ga_mem g) l x -> ~ in_free C x ->
    line_at (ga_mem g') x = line_at (ga_mem g) x \/
    ((exists s, C !! x = Some (s, true)) /\ data_eq (line_at (ga_mem g) x) (line_at (ga_mem g') x))
}.

Lemma block_of_sub c s d t :
  off d + t <= BlockSize -> 0 < s -> d <= c -> c + s <= d + t -> d - off d = c - off c.
Proof. intros. pose proof (off_range d). unfold off in *. change BlockSize with 2097152 in *. dlia. Qed.

(** The request is served from a chunk of the buckets. *)
Lemma alloc_from_bucket g l fl k C B sz b lb fc :
  ga_inv g l -> fl_inv (ga_mem g) fl C B -> owned (ga_mem g) l C ->
  B !! b = Some lb -> fc ∈ lb -> sz <= size (line_at (ga_mem g) fc) -> 0 < sz -> sz mod 64 = 0 ->
  (forall c s, C !! c = Some (s, false) -> sz <= s -> cut_ok (ga_mem g) c s sz = true) ->
  exists m1 fl1 chunk, take_chunk (ga_mem g) (set_lookups fl k) b fc sz = Ok (m1, fl1, chunk) /\
    hget m1 chunk = Ok (line_at m1 chunk) /\ used (line_at m1 chunk) = 0 /\
    exists g' fl' C' B', finish_alloc (with_mem g m1) fl1 chunk sz = Ok (g', fl', chunk) /\
      alloc_post g l fl C sz g' l fl' C' B' chunk.
Proof.
  intros Hga Hfl Hown Hb Hin Hle Hpos Hmod Hcut.
  assert (Hfl' : fl_inv (ga_mem g) (set_lookups fl k) C B) by (destruct Hfl as [? [] ? ?]; by constructor).
  destruct (take_chunk_ok _ _ _ _ _ _ _ _ Hfl' Hb Hin Hle Hpos Hmod Hcut)
    as (m1 & fl1 & chunk & C' & B1 & E & Hacc & Hu & Hid & Htot & Hcv & Hinv & Htou).
  exists m1, fl1, chunk. split; [done|]. split; [by apply hget_ok|]. split; [done|].
  rewrite finish_alloc_ok by (try done; rewrite Hid; apply Hfl).
  replace (alloc_header fl1 chunk sz) with (alloc_header (set_lookups fl k) chunk sz) by (unfold alloc_header; by rewrite Hid).
  cbn [ga_mem with_mem]. set (m' := store m1 chunk _) in *.
  destruct (carve_chunks _ _ _ _ _ _ _ (fi_tiling _ _ _ _ Hfl) Hcv) as (Hac & Hwas & Hsub).
  destruct (touches_list _ m' _ _ _ _ _ Hga (fi_tiling _ _ _ _ Hfl) Hown Htou) as [Hli Hfree].
  assert (He : heap_end m' = heap_end (ga_mem g)) by (unfold heap_end; by rewrite (proj1 Htou)).
  assert (Hblk : forall c s u, C' !! c = Some (s, u) -> exists d t v, C !! d = Some (t, v) /\ d - off d = c - off c).
  { intros c s u Hc. destruct (Hsub c s u Hc) as (d & t & v & Hd & ? & ?). exists d, t, v. split; [done|].
    destruct (ti_chunk _ _ _ _ (fi_tiling _ _ _ _ Hinv) _ _ _ Hc) as [(_ & _ & ?) _ _ _ _ _ _ _ _].
    destruct (ti_chunk _ _ _ _ (fi_tiling _ _ _ _ Hfl) _ _ _ Hd) as [_ _ ? _ _ _ _ _ _]. by eapply block_of_sub. }
  eexists _, _, C', B1. split; [done|]. constructor; cbn [ga_mem with_mem ga_bitmap total_allocated my_id set_total].
  - done.
  - destruct Hinv as [? [] ? ?]. by constructor.
  - intros c s u x Hc Hx. rewrite Hfree. destruct (Hblk c s u Hc) as (d & t & v & Hd & E'). eapply Hown; [exact Hd|]. by rewrite E'.
  - done.
  - done.
  - by rewrite Htot, Hid.
  - lia.
  - intros x Hx. left. by apply Hwas.
  - intros x Hx. left. by apply Hfree.
  - intros c s u Hc. left. by eapply Hblk.
  - intros x _ _ Hx. by apply Htou.
Qed.

(** The request is served from a block [chunk] that the global allocator,
    now [g1], has just handed out. *)
Section NewBlock.
Context (g : galloc) (l : list Z) (fl : flist) (C : chunks) (B : list (list Z)) (sz : Z).
Context (g1 : galloc) (chunk : Z) (l1 : list Z).
Hypothesis Hfl : fl_inv (ga_mem g) fl C B.
Hypothesis Hown : owned (ga_mem g) l C.
Hypothesis Hsz : 0 < sz <= BlockSize.
Hypothesis Hmod : sz mod 64 = 0.
Hypothesis Hga1 : ga_inv g1 l1.
Hypothesis Hbm : ga_bitmap g1 = ga_bitmap g.
Hypothesis Ho : off chunk = 0.
Hypothesis Hwas :
  forall x, chunk <= x < chunk + BlockSize -> free_at (ga_mem g) l x \/ heap_end (ga_mem g) <= x.
Hypothesis Hfree1 : forall x, free_at (ga_mem g1) l1 x <->
  (free_at (ga_mem g) l x \/ heap_end (ga_mem g) <= x < heap_end (ga_mem g1)) /\ ~ chunk <= x < chunk + BlockSize.
Hypothesis Hlo : BaseAddress <= chunk.
Hypothesis Hhi : chunk + BlockSize <= heap_end (ga_mem g1).
Hypothesis Hgrow : heap_end (ga_mem g) <= heap_end (ga_mem g1).
Hypothesis Hline :
  forall x, x < heap_end (ga_mem g) -> ~ free_at (ga_mem g) l x -> line_at (ga_mem g1) x = line_at (ga_mem g) x.

(** The chunks of the free list lie in the old heap, outside the block. *)
Lemma chunk_outside_block c s u x :
  C !! c = Some (s, u) -> c <= x < c + s ->
  x < heap_end (ga_mem g) /\ ~ free_at (ga_mem g) l x /\ ~ chunk <= x < chunk + BlockSize.
Proof.
  intros Hc Hx.
  assert (Hnf : ~ free_at (ga_mem g) l x) by (eapply Hown; [exact Hc|]; eapply chunk_in_block; [apply Hfl|exact Hc|done]).
  destruct (ti_chunk _ _ _ _ (fi_tiling _ _ _ _ Hfl) _ _ _ Hc) as [_ [_ ?] ? _ _ _ _ _ _]. pose proof (off_range c).
  assert (x < heap_end (ga_mem g)) by lia. split; [done|]. split; [done|]. intros Hb. destruct (Hwas x Hb); [done|lia].
Qed.

Lemma chunk_nonempty c s u : C !! c = Some (s, u) -> c <= c < c + s.
Proof. intros Hc. pose proof (ck_aligned _ _ _ _ _ _ _ (ti_chunk _ _ _ _ (fi_tiling _ _ _ _ Hfl) _ _ _ Hc)). lia. Qed.

Lemma chunk_block_disjoint c s u : C !! c = Some (s, u) -> chunk + BlockSize <= c \/ c + s <= chunk.
Proof.
  intros Hc. pose proof (chunk_nonempty _ _ _ Hc). destruct (Z.lt_ge_cases c (chunk + BlockSize)); [|by left].
  destruct (Z.lt_ge_cases chunk (c + s)); [|by right]. exfalso.
  destruct (chunk_outside_block c s u (Z.max c chunk) Hc) as (_ & _ & Hn); [lia|]. apply Hn. lia.
Qed.

Lemma block_has_no_chunk x : chunk <= x < chunk + BlockSize -> C !! x = None.
Proof. exact (block_empty _ _ _ _ _ Hfl chunk_block_disjoint x). Qed.

Lemma fl_inv_new_block : fl_inv (ga_mem g1) fl C B.
Proof.
  eapply fl_inv_grow; [exact Hfl|apply Hga1|done|]. intros c Hc. destruct (C !! c) as [[s u]|] eqn:E; [|done].
  destruct (chunk_outside_block c s u c E (chunk_nonempty _ _ _ E)) as (? & ? & _). by apply Hline.
Qed.

Lemma block_accessible x : chunk <= x < chunk + BlockSize -> x mod 64 = 0 -> accessible (ga_mem g1) x = true.
Proof. intros ? ?. apply accessible_heap; [apply Hga1|lia|done]. Qed.

(** A memory that differs from that of [g1] inside the block and the free
    chunks only, with the block's chunks added to the free list. *)
Lemma new_block_post m' fl' C' B' :
  fl_inv m' fl' C' B' -> mapped_regions m' = mapped_regions (ga_mem g1) ->
  total_allocated fl' = u64 (total_allocated fl + sz) /\ my_id fl' = my_id fl ->
  alloc_chunks C C' chunk sz ->
  (forall c s u, C' !! c = Some (s, u) -> C !! c = Some (s, u) \/ chunk <= c < chunk + BlockSize) ->
  (forall x, ~ in_free C x -> ~ chunk <= x < chunk + BlockSize -> line_at m' x = line_at (ga_mem g1) x) ->
  alloc_post g l fl C sz (with_mem g1 m') l1 fl' C' B' chunk.
Proof.
  intros Hfl' Hreg Htot Hac Hsub Hl'. assert (Hbs : BlockSize = 2097152) by done.
  assert (He : heap_end m' = heap_end (ga_mem g1)) by (unfold heap_end; by rewrite Hreg).
  assert (Hnode : forall a, a ∈ l1 -> line_at m' a = line_at (ga_mem g1) a).
  { intros a Ha. pose proof (node_free _ _ _ (li_nodes _ _ _ Hga1) Ha) as Hfa. apply Hfree1 in Hfa as [Hfa Hna].
    apply Hl'; [|done]. intros (c & s & Hc & Hx). destruct (chunk_outside_block c s false a Hc Hx) as (? & ? & _). destruct Hfa; [done|lia]. }
  destruct (list_inv_frame _ m' _ _ Hga1 Hreg Hnode) as [Hli Hfree'].
  constructor; cbn [ga_mem with_mem ga_bitmap]; try done; try lia.
  - intros c s u x Hc Hx Hf. apply Hfree', Hfree1 in Hf as [Hf Hn]. destruct (Hsub c s u Hc) as [Hold|Hnew].
    + destruct Hf as [Hf|Hf]; [by apply (Hown c s u x)|].
      destruct (ti_chunk _ _ _ _ (fi_tiling _ _ _ _ Hfl) _ _ _ Hold) as [_ [_ ?] _ _ _ _ _ _ _]. lia.
    + apply Hn. unfold off in *. rewrite Hbs in *. dlia.
  - intros x Hx. right. destruct (Hwas x); auto. lia.
  - intros x Hx. apply Hfree', Hfree1 in Hx as [[?|?] _]; auto. right. lia.
  - intros c s u Hc. destruct (Hsub c s u Hc) as [Hold|Hnew]; [left; by exists c, s, u|right].
    intros x Hx. apply Hwas. unfold off in *. rewrite Hbs in *. dlia.
  - intros x Hx Hnf Hni. left. rewrite Hl', Hline; [done|done|done|done|].
    intros Hb. destruct (Hwas x Hb); [done|lia].
Qed.

(** The chunks after the block was split, and after it was taken whole. *)
Lemma alloc_chunks_split :
  sz < BlockSize ->
  alloc_chunks C (<[chunk + sz := (BlockSize - sz, false)]> (<[chunk := (sz, true)]> C)) chunk sz.
Proof.
  intros Hlt. constructor.
  - rewrite lookup_insert_ne by lia. apply lookup_insert_eq.
  - intros c s Hc. assert (~ chunk <= c < chunk + BlockSize) by (intros ?; rewrite block_has_no_chunk in Hc by done; done).
    rewrite !lookup_insert_ne by lia. split; [done|lia].
  - intros c s [[_ [= _ ?]]|[_ Hc]]%lookup_insert_Some. apply lookup_insert_Some in Hc as [[-> _]|[_ Hc]]; auto.
  - intros x (c & s & [[<- [= <-]]|[_ Hc]]%lookup_insert_Some & Hx).
    + right. intros d t v Hd Hxd. destruct (chunk_block_disjoint d t v Hd); lia.
    + apply lookup_insert_Some in Hc as [[_ [= _ ?]]|[_ Hc]]. left. by exists c, s.
Qed.

Lemma alloc_chunks_whole : alloc_chunks C (<[chunk := (BlockSize, true)]> C) chunk BlockSize.
Proof.
  assert (Hnot : C !! chunk = None) by (apply block_has_no_chunk; change BlockSize with 2097152; lia).
  constructor.
  - apply lookup_insert_eq.
  - intros c s Hc. assert (c <> chunk) by congruence. by rewrite lookup_insert_ne.
  - intros c s [[-> _]|[_ Hc]]%lookup_insert_Some; auto.
  - intros x (c & s & [[_ [= _ ?]]|[_ Hc]]%lookup_insert_Some & Hx). left. by exists c, s.
Qed.

Lemma alloc_from_block :
  exists m2 fl2, (let* m := hupd (ga_mem g1) chunk (fun c => set_prev_offset (set_used c 0) 0) in
     if sz <? BlockSize then
       let* m := hupd m (chunk + sz) (fun c =>
         set_size (set_used (set_last (set_free_list_id (set_prev_offset c 0) (my_id fl)) 1) 0) (BlockSize - sz)) in
       let* c := hget m (chunk + sz) in
       addFreeChunk m fl (chunk + sz) (size c)
     else Ok (m, fl)) = Ok (m2, fl2) /\
    exists g' fl' C' B', finish_alloc (with_mem g1 m2) (set_global fl2 (u64 (global_allocs fl2 + 1))) chunk sz = Ok (g', fl', chunk) /\
      alloc_post g l fl C sz g' l1 fl' C' B' chunk.
Proof.
  assert (Hbs : BlockSize = 2097152) by done. assert (Ha : chunk mod 64 = 0) by (by apply block_aligned).
  pose proof fl_inv_new_block as Hfl1. pose proof chunk_block_disjoint as Hdis.
  rewrite hupd_ok by (apply block_accessible; [lia|done]). cbn [res_bind]. destruct (Z.ltb_spec sz BlockSize) as [Hlt|Hge].
  - destruct (new_block_split (ga_mem g1) fl C B chunk sz) as (m4 & fl4 & B4 & E4 & Efl4 & Hacc4 & Hu4 & Hinv4 & Hreg4 & Hl4);
      [done|done|done|done|done|lia|done|].
    unfold block_cut in E4. cbv zeta in E4. set (m2 := store (ga_mem g1) chunk _) in *.
    assert (Hfacc : accessible m2 (chunk + sz) = true) by (apply block_accessible; [lia|dlia]).
    rewrite hupd_ok by done. cbn [res_bind]. rewrite hget_ok by done. cbn [res_bind]. rewrite line_at_store_eq.
    cbn [size set_size]. rewrite u29_small by (change (2 ^ 29) with 536870912; lia).
    rewrite E4. eexists _, _. split; [done|].
    rewrite finish_alloc_ok by (try done; rewrite Efl4; apply Hfl). cbn [ga_mem with_mem].
    eexists _, _, _, B4. split; [done|].
    replace (alloc_header (set_global fl4 _) chunk sz) with (alloc_header fl chunk sz) by (rewrite Efl4; done).
    apply (new_block_post (store m4 chunk (alloc_header fl chunk sz (line_at m4 chunk)))); try done.
    + destruct Hinv4 as [? [] ? ?]. by constructor.
    + by rewrite Efl4.
    + by apply alloc_chunks_split.
    + intros c s u [[<- _]|[_ Hc]]%lookup_insert_Some; [right; lia|].
      apply lookup_insert_Some in Hc as [[<- _]|[_ Hc]]; [right; lia|by left].
  - assert (E : sz = BlockSize) by lia. rewrite E. eexists _, _. split; [done|].
    rewrite finish_alloc_ok; cbn [ga_mem with_mem]; [|apply block_accessible; [lia|done]|by rewrite line_at_store_eq|apply Hfl].
    rewrite line_at_store_eq, store_store. eexists _, _, _, B. split; [done|].
    pose proof (new_block_whole (ga_mem g1) fl C B chunk Hfl1 Ho Hlo Hhi Hdis) as Hw. cbv zeta in Hw. rewrite <- E in Hw |- *.
    apply (new_block_post (store (ga_mem g1) chunk _)); try done.
    + destruct Hw as [? [] ? ?]. by constructor.
    + rewrite E. apply alloc_chunks_whole.
    + intros c s u [[<- _]|[_ Hc]]%lookup_insert_Some; [right; lia|by left].
    + intros x _ Hx. rewrite line_at_store_ne by lia. done.
Qed.

End NewBlock.

Lemma fl_alloc_spec g l fl C B sz :
  ga_inv g l -> fl_inv (ga_mem g) fl C B -> owned (ga_mem g) l C -> 0 < sz <= BlockSize -> sz mod 64 = 0 ->
  (forall c s, C !! c = Some (s, false) -> sz <= s -> cut_ok (ga_mem g) c s sz = true) ->
  (fl_alloc mmap_at g fl sz = AssertFail /\ mmap_at (heap_end (ga_mem g)) MinPoolSize = false) \/
  exists g' l' fl' C' B' chunk, fl_alloc mmap_at g fl sz = Ok (g', fl', chunk) /\
    alloc_post g l fl C sz g' l' fl' C' B' chunk.
Proof.
  intros Hga Hfl Hown Hsz Hmod Hcut. unfold fl_alloc, findBestMatch.
  assert (Hbs : BlockSize = 2097152) by done.
  destruct (findBucket_spec sz) as (H14 & _ & _); [unfold UINT64_MAX; lia|].
  rewrite (proj2 (Nat.ltb_lt _ _)) by exact H14.
  destruct (match_loop_spec (TOTAL_ALLOC_BUCKETS - findBucket sz) (ga_mem g) fl B (findBucket sz) sz)
    as (k & [E|(b & lb & fc & _ & Hb & Hin & Hle & E)]); [apply Hfl|unfold TOTAL_ALLOC_BUCKETS; lia|..]; rewrite E; cbn [res_bind].
  - destruct (ga_alloc_spec mmap_at mmap_below g l BlockSize Hga) as [(Ea & Em & _)|(g1 & chunk & l1 & Ea & [Hga1 Hbm Hal Hwas Hfree Hlo Hhi Hgrow Hline])];
      [by rewrite Hbs|done|..].
    + left. split; [|done]. replace (with_mem g (ga_mem g)) with g by (by destruct g). by rewrite Ea.
    + right. replace (with_mem g (ga_mem g)) with g by (by destruct g). rewrite Ea. cbn [res_bind].
      assert (Hfl' : fl_inv (ga_mem g) (set_lookups fl k) C B) by (destruct Hfl as [? [] ? ?]; by constructor).
      destruct (alloc_from_block g l (set_lookups fl k) C B sz g1 chunk l1) as (m2 & fl2 & E2 & g' & fl' & C' & B' & E3 & Hp); try done.
      rewrite hupd_ok in E2 by (apply accessible_heap; [apply Hga1|change BlockSize with 2097152 in *; lia|by apply block_aligned]).
      rewrite hupd_ok by (apply accessible_heap; [apply Hga1|change BlockSize with 2097152 in *; lia|by apply block_aligned]).
      cbn [res_bind] in E2 |- *. rewrite E2. cbn [res_bind]. rewrite E3.
      exists g', l1, fl', C', B', chunk. split; [done|]. destruct Hp. by constructor.
  - right. destruct (alloc_from_bucket g l fl k C B sz b lb fc) as (m1 & fl1 & chunk & E1 & E2 & Hu & g' & fl' & C' & B' & E3 & Hp);
      try done; [lia|]. rewrite E1. cbn [res_bind]. rewrite E2. cbn [res_bind]. rewrite Hu. cbn [Z.eqb res_bind]. rewrite E3.
    by exists g', l, fl', C', B', chunk.
Qed.

End Operations.
