(* ===== verification/FreeListDealloc.v ===== *)
(** * Deallocation in free lists

    [freeAndCoalesce] and [dealloc]: the chunk is marked free, merged with
    its free neighbours and put into the bucket of its new size, and the
    pages of the bitmap that lie in the merged chunk are cleared. *)

From stdpp Require Import base numbers list gmap.
From S2P Require Import Prelude Bitmap Heap GlobalAlloc FreeList GlobalAllocProofs FreeListTiling FreeListProofs.

(** ** Merging two chunks *)

(** The state while [fc] is free but in no bucket. *)
Record co_inv (m : mem) (fl : flist) (C : chunks) (B : list (list Z)) (fc s ex : Z) : Prop := {
  co_tiling : tiling m (my_id fl) C ex;
  co_buckets : buckets_ok m fl B;
  co_linked : forall a, a ∈ concat B <-> (exists t, C !! a = Some (t, false)) /\ a <> fc;
  co_free : C !! fc = Some (s, false)
}.

Lemma last_is_b2z m id C ex c s u : tiling m id C ex -> C !! c = Some (s, u) -> last (line_at m c) mod 2 = last (line_at m c).
Proof. intros Ht Hc. rewrite (ck_last _ _ _ _ _ _ _ (ti_chunk _ _ _ _ Ht _ _ _ Hc)). apply b2z_mod. Qed.

(** [a->size += b->size; a->last = b->last] *)
Definition join (m : mem) (a b : Z) : mem :=
  store m a (set_last (set_size (line_at m a) (size (line_at m a) + size (line_at m b))) (last (line_at m b))).

Lemma join_tiling m id C ex a sa u b sb ub :
  tiling m id C ex -> C !! a = Some (sa, u) -> C !! b = Some (sb, ub) -> b = a + sa -> off a + sa < BlockSize ->
  (ex = 0 \/ ex = b) -> tiling (join m a b) id (<[a := (sa + sb, u)]> (delete b C)) (b + sb).
Proof.
  intros Ht Ha Hb Eb Ho Hex.
  destruct (ti_chunk _ _ _ _ Ht _ _ _ Ha) as [(_ & _ & ?) _ _ Esa Eua Eida _ _ _].
  destruct (ti_chunk _ _ _ _ Ht _ _ _ Hb) as [(_ & _ & ?) _ Hblk Esb _ _ _ _ _].
  assert (Hob : off b = off a + sa) by (rewrite Eb; apply off_add; lia). pose proof (off_range a).
  assert (L : line_at (join m a b) a = set_last (set_size (line_at m a) (sa + sb)) (last (line_at m b))).
  { unfold join. by rewrite line_at_store_eq, Esa, Esb. }
  eapply (tiling_merge m (join m a b) id C ex a sa u b sb ub u); try done; rewrite ?L; try done.
  - intros c Hc ->. destruct Hex as [-> | ->]; [|done]. destruct (C !! 0) as [[t v]|] eqn:E; [|done].
    pose proof (tiling_pos _ _ _ _ _ _ _ Ht E). lia.
  - cbn [size set_size set_last]. apply u29_small. change BlockSize with 2097152 in *. change (2 ^ 29) with 536870912. lia.
  - cbn [last set_last]. by eapply last_is_b2z.
  - intros c _ Hca _. unfold join. by rewrite line_at_store_ne.
Qed.

Lemma join_touches m C a sa b : C !! a = Some (sa, false) -> 0 < sa -> touches m (join m a b) C.
Proof. intros Ha Hs. apply touches_free. by eapply chunk_free. Qed.

(** Free memory only grows together. *)
Definition free_sub (C C' : chunks) : Prop := forall x, in_free C' x -> in_free C x.

Lemma touches_sub m m' C C' :
  free_sub C C' -> (forall c s, C' !! c = Some (s, true) -> C !! c = Some (s, true)) -> touches m m' C' -> touches m m' C.
Proof.
  intros Hf Hu [R T]. split; [done|]. intros x Hx. destruct (T x) as [?|[[s Hs] D]]; [|by left|right].
  - intros Hx'. by apply Hx, Hf.
  - split; [exists s; by apply Hu|done].
Qed.

Lemma free_sub_trans C1 C2 C3 : free_sub C1 C2 -> free_sub C2 C3 -> free_sub C1 C3.
Proof. intros H12 H23 x Hx. auto. Qed.

Lemma merge_free_sub (C : chunks) a sa b sb :
  C !! a = Some (sa, false) -> C !! b = Some (sb, false) -> b = a + sa -> 0 < sa ->
  free_sub C (<[a := (sa + sb, false)]> (delete b C)).
Proof.
  intros Ha Hb Eb Hsa x (c & t & [[<- [= <-]]|[_ Hc]]%lookup_insert_Some & Hx).
  - destruct (Z.lt_ge_cases x b); [exists a, sa|exists b, sb]; (split; [done|lia]).
  - apply lookup_delete_Some in Hc as [_ Hc]. by exists c, t.
Qed.

Lemma merge_used (C : chunks) a sa b sb c t :
  C !! a = Some (sa, false) -> C !! b = Some (sb, false) ->
  <[a := (sa + sb, false)]> (delete b C) !! c = Some (t, true) <-> C !! c = Some (t, true).
Proof.
  intros Ha Hb. split.
  - intros [[_ [= _ ?]]|[_ Hc]]%lookup_insert_Some. by apply lookup_delete_Some in Hc as [_ ?].
  - intros Hc. assert (c <> a) by congruence. assert (c <> b) by congruence.
    rewrite lookup_insert_ne, lookup_delete_ne by done. done.
Qed.

(** Two free chunks are joined after one of them, [d], left its bucket. *)
Lemma co_join m fl C B fc s ex a sa b sb d :
  co_inv m fl C B fc s ex -> C !! a = Some (sa, false) -> C !! b = Some (sb, false) -> b = a + sa ->
  off a + sa < BlockSize -> (ex = 0 \/ ex = b) -> (fc = a /\ d = b \/ fc = b /\ d = a) ->
  exists m1 fl1 B1, removeChunkFromBuckets m fl d = Ok (m1, fl1) /\
    my_id fl1 = my_id fl /\ total_allocated fl1 = total_allocated fl /\
    (forall x, strip (line_at m1 x) = strip (line_at m x)) /\ mapped_regions m1 = mapped_regions m /\
    let C1 := <[a := (sa + sb, false)]> (delete b C) in
    co_inv (join m1 a b) fl1 C1 B1 a (sa + sb) (b + sb) /\ touches m (join m1 a b) C.
Proof.
  intros [Ht Hbk Hlk Hfc] Ha Hb Eb Ho Hex Hd.
  destruct (ck_aligned _ _ _ _ _ _ _ (ti_chunk _ _ _ _ Ht _ _ _ Ha)) as (_ & _ & Hsa).
  assert (Hab : a <> b) by lia.
  assert (Hdin : d ∈ concat B) by (apply Hlk; destruct Hd as [[-> ->]|[-> ->]]; eauto).
  destruct (removeChunk_spec m fl B d Hbk Hdin) as (m1 & fl1 & B1 & E & Hbk1 & Hlo & Hmem & Efl).
  assert (Eid : my_id fl1 = my_id fl) by (rewrite Efl; done).
  exists m1, fl1, B1. split; [done|]. split; [done|]. split; [rewrite Efl; done|]. split; [apply Hlo|]. split; [apply Hlo|].
  assert (Hin1 : forall x, x ∈ concat B1 -> x <> a /\ x <> b /\ exists t, C !! x = Some (t, false)).
  { intros x Hx. apply Hmem in Hx as [Hx Hxd]. apply Hlk in Hx as [Hx Hxf]. destruct Hd as [[-> ->]|[-> ->]]; done. }
  assert (Ht1 : tiling m1 (my_id fl) C ex) by (apply (tiling_strip m); [done|apply Hlo|intros c t v _; apply Hlo]).
  cbv zeta. split; [constructor|].
  - rewrite Eid. by apply (join_tiling m1 _ C ex a sa false b sb false).
  - apply buckets_ok_store; [done|]. intros Hx. by destruct (Hin1 a Hx).
  - intros x. split.
    + intros Hx. destruct (Hin1 x Hx) as (Hxa & Hxb & t & Hxt). split; [|done]. exists t.
      rewrite lookup_insert_ne, lookup_delete_ne by done. done.
    + intros [[t [[<- _]|[_ Hx]]%lookup_insert_Some] Hxa]; [done|]. apply lookup_delete_Some in Hx as [Hxb Hx].
      apply Hmem. split; [apply Hlk; split; [by exists t|]|]; destruct Hd as [[-> ->]|[-> ->]]; done.
  - apply lookup_insert_eq.
  - eapply touches_trans; [|by eapply join_touches].
    eapply touches_links; [exact Hlo|]. intros x Hx. destruct (Hin1 x Hx) as (_ & _ & t & Hxt).
    eapply chunk_free; [exact Hxt|]. apply (ck_aligned _ _ _ _ _ _ _ (ti_chunk _ _ _ _ Ht _ _ _ Hxt)).
Qed.


(** The same memory is free, the same chunks are in use. *)
Record same_free (C C' : chunks) : Prop := {
  sf_free : forall x, in_free C' x <-> in_free C x;
  sf_used : forall c t, C' !! c = Some (t, true) <-> C !! c = Some (t, true)
}.

Lemma same_free_refl C : same_free C C.
Proof. by split. Qed.

Lemma same_free_trans C1 C2 C3 : same_free C1 C2 -> same_free C2 C3 -> same_free C1 C3.
Proof. intros [F1 U1] [F2 U2]. split; intros; [by rewrite F2|by rewrite U2]. Qed.

Lemma same_free_touches m m' C C' : same_free C C' -> touches m m' C' -> touches m m' C.
Proof. intros [F U]. apply touches_sub; [intros x; apply F|intros c t; apply U]. Qed.

Lemma merge_same_free m id ex (C : chunks) a sa b sb :
  tiling m id C ex -> C !! a = Some (sa, false) -> C !! b = Some (sb, false) -> b = a + sa ->
  same_free C (<[a := (sa + sb, false)]> (delete b C)).
Proof.
  intros Ht Ha Hb Eb. pose proof (ck_aligned _ _ _ _ _ _ _ (ti_chunk _ _ _ _ Ht _ _ _ Ha)) as (_ & _ & Hsa).
  pose proof (ck_aligned _ _ _ _ _ _ _ (ti_chunk _ _ _ _ Ht _ _ _ Hb)) as (_ & _ & Hsb).
  split; [|intros c t; by apply merge_used]. intros x. split; [by apply merge_free_sub|].
  intros (c & t & Hc & Hx). destruct (decide (c = a)) as [->|Hca].
  { rewrite Ha in Hc. injection Hc as <-. exists a, (sa + sb). rewrite lookup_insert_eq. split; [done|lia]. }
  destruct (decide (c = b)) as [->|Hcb].
  { rewrite Hb in Hc. injection Hc as <-. exists a, (sa + sb). rewrite lookup_insert_eq. split; [done|lia]. }
  exists c, t. rewrite lookup_insert_ne, lookup_delete_ne by done. done.
Qed.

(** Repairing the back offset after the chunk that is being freed. *)
Lemma co_fix m fl C B fc t n :
  co_inv m fl C B fc t (fc + t) -> n = fc + t -> is_Some (C !! n) -> off fc + t < BlockSize ->
  accessible m n = true /\
  let m' := store m n (set_prev_offset (line_at m n) (chunkOffset fc)) in
  co_inv m' fl C B fc t 0 /\ touches m m' C.
Proof.
  intros [Ht Hbk Hlk Hfc] -> Hs Hlt. pose proof (tiling_pos _ _ _ _ _ _ _ Ht Hfc).
  pose proof Hs as [[sn un] Hn].
  destruct (tiling_fix _ _ _ _ _ _ Ht Hfc ltac:(lia)) as [Hfix _].
  split; [by eapply chunk_accessible|]. cbv zeta. split; [constructor; auto|].
  - exact (buckets_ok_point_back m fl B true (fc + t) fc Hbk).
  - eapply touches_chunk; [exact Hn| |done]. apply (ck_aligned _ _ _ _ _ _ _ (ti_chunk _ _ _ _ Ht _ _ _ Hn)).
Qed.

Lemma co_end m fl C B fc t : co_inv m fl C B fc t (fc + t) -> off fc + t = BlockSize -> co_inv m fl C B fc t 0.
Proof.
  intros [Ht Hbk Hlk Hfc] He. constructor; try done. pose proof (tiling_pos _ _ _ _ _ _ _ Ht Hfc).
  apply (tiling_fix _ _ _ _ _ _ Ht Hfc); [lia|done].
Qed.

(** ** The neighbours of a chunk *)

Inductive prev_of (C : chunks) (c : Z) : Z -> Prop :=
| prev_none : off c = 0 -> prev_of C c 0
| prev_some p sp up : C !! p = Some (sp, up) -> p + sp = c -> off p + sp < BlockSize -> prev_of C c p.

Inductive next_of (C : chunks) (c s : Z) : Z -> Prop :=
| next_none : off c + s = BlockSize -> next_of C c s 0
| next_some n sn un : C !! n = Some (sn, un) -> n = c + s -> off c + s < BlockSize -> next_of C c s n.

Lemma prevChunk_spec m id C c s u :
  tiling m id C 0 -> C !! c = Some (s, u) -> exists p, prevChunk m c = Ok p /\ prev_of C c p.
Proof.
  intros Ht Hc. pose proof (tiling_pos _ _ _ _ _ _ _ Ht Hc) as Hpos.
  pose proof (chunk_accessible _ _ _ _ _ _ _ Ht Hc) as Hacc.
  destruct (ti_chunk _ _ _ _ Ht _ _ _ Hc) as [(Hal & _ & _) _ Hblk _ _ _ _ _ Hp].
  unfold prevChunk. rewrite chunkOffset_off by lia. pose proof (off_range c) as Hr.
  assert (Ho64 : off c mod 64 = 0) by (unfold off in *; change BlockSize with 2097152 in *; dlia).
  destruct (Z.eqb_spec (off c / 64) 0) as [E|E].
  { exists 0. split; [done|]. constructor. dlia. }
  rewrite hget_ok by done. cbn [res_bind]. destruct (Hp ltac:(intros E'; rewrite E' in E; done)) as (p & sp & up & Hpp & Esp & Hpo).
  rewrite Hpo by lia. eexists. split; [done|].
  destruct (ti_chunk _ _ _ _ Ht _ _ _ Hpp) as [(Hal' & Hal2 & Hsp) _ Hblk' _ _ _ _ _ _].
  assert (Hoff : off p + sp < BlockSize).
  { destruct (Z.eq_dec (off p + sp) BlockSize) as [E2|]; [|lia]. exfalso. apply E.
    replace (off c) with 0; [done|]. unfold off in *. change BlockSize with 2097152 in *. dlia. }
  assert (Hoc : off c = off p + sp) by (rewrite <- Esp; apply off_add; lia).
  replace (c - Z.shiftl (off c / 64 - off p / 64) 6) with p; [by econstructor|].
  rewrite Z.shiftl_mul_pow2 by lia. change (2 ^ 6) with 64.
  assert (off p mod 64 = 0) by (unfold off in *; change BlockSize with 2097152 in *; dlia). dlia.
Qed.

Lemma nextChunk_spec m id C ex c s u :
  tiling m id C ex -> C !! c = Some (s, u) -> exists n, nextChunk m c = Ok n /\ next_of C c s n.
Proof.
  intros Ht Hc. pose proof (chunk_accessible _ _ _ _ _ _ _ Ht Hc) as Hacc.
  destruct (ti_chunk _ _ _ _ Ht _ _ _ Hc) as [_ _ Hblk Es _ _ El Hn _].
  unfold nextChunk. rewrite hget_ok by done. cbn [res_bind]. rewrite El, Es.
  destruct (Z.eqb_spec (off c + s) BlockSize) as [E|E]; cbn [b2z Z.eqb Pos.eqb].
  - exists 0. split; [done|]. by constructor.
  - exists (c + s). split; [done|]. destruct (Hn ltac:(lia)) as [[sn un] ?]. by econstructor; [..|lia].
Qed.

(** ** The two halves of [freeAndCoalesce] *)

Record co_post (m : mem) (fl : flist) (C : chunks) (c s : Z)
    (m' : mem) (fl' : flist) (C' : chunks) (fc t : Z) : Prop := {
  cp_id : my_id fl' = my_id fl /\ total_allocated fl' = total_allocated fl;
  cp_in : fc <= c /\ c + s <= fc + t;
  cp_same : same_free C C';
  cp_touches : touches m m' C;
  cp_blocks : forall d t v, C' !! d = Some (t, v) -> exists t' v', C !! d = Some (t', v')
}.

(** Two free chunks [a] and [b], one of them [c], were joined. *)
Lemma co_post_join m fl C ex c s m1 fl1 a sa b sb m' :
  let C1 := <[a := (sa + sb, false)]> (delete b C) in
  tiling m (my_id fl) C ex -> C !! a = Some (sa, false) -> C !! b = Some (sb, false) -> b = a + sa ->
  my_id fl1 = my_id fl -> total_allocated fl1 = total_allocated fl -> a <= c -> c + s <= a + (sa + sb) ->
  touches m m1 C -> touches m1 m' C1 -> co_post m fl C c s m' fl1 C1 a (sa + sb).
Proof.
  intros C1 Ht Ha Hb Eb Eid Etot H1 H2 Htou Htou'.
  pose proof (merge_same_free m (my_id fl) ex C a sa b sb Ht Ha Hb Eb) as Hsf. split; [done|done|done|..].
  - eapply touches_trans; [exact Htou|]. by eapply same_free_touches.
  - intros d t v [[<- _]|[_ [_ Hd]%lookup_delete_Some]]%lookup_insert_Some; eauto.
Qed.

Lemma used_b2z (u : bool) : (b2z u =? 0) = negb u.
Proof. by destruct u. Qed.

Lemma coalesce_prev_spec m fl C B c s p n :
  co_inv m fl C B c s 0 -> prev_of C c p -> next_of C c s n ->
  exists m' fl' C' B' fc t ex, coalesce_prev m fl p n c = Ok (m', fl', fc) /\
    co_inv m' fl' C' B' fc t ex /\ co_post m fl C c s m' fl' C' fc t /\ next_of C' fc t n /\
    (ex = 0 \/ exists sn, ex = n /\ C' !! n = Some (sn, false)).
Proof.
  intros Hco Hp Hn. pose proof (co_tiling _ _ _ _ _ _ _ Hco) as Ht. pose proof (co_free _ _ _ _ _ _ _ Hco) as Hc.
  destruct (ck_aligned _ _ _ _ _ _ _ (ti_chunk _ _ _ _ Ht _ _ _ Hc)) as (_ & _ & Hs).
  assert (Hskip : exists m' fl' C' B' fc t ex, Ok (m, fl, c) = Ok (m', fl', fc) /\
    co_inv m' fl' C' B' fc t ex /\ co_post m fl C c s m' fl' C' fc t /\ next_of C' fc t n /\
    (ex = 0 \/ exists sn, ex = n /\ C' !! n = Some (sn, false))).
  { exists m, fl, C, B, c, s, 0. repeat (split; [done|]). split; [|by auto].
    split; eauto using same_free_refl, touches_refl; lia. }
  unfold coalesce_prev. destruct Hp as [Ho|p sp up Hpp Esp Hoff]; [done|].
  pose proof (tiling_pos _ _ _ _ _ _ _ Ht Hpp). rewrite (proj2 (Z.eqb_neq p 0)) by lia.
  pose proof (chunk_accessible _ _ _ _ _ _ _ Ht Hpp) as Hpacc. rewrite hget_ok by done. cbn [res_bind].
  rewrite (ck_used _ _ _ _ _ _ _ (ti_chunk _ _ _ _ Ht _ _ _ Hpp)), used_b2z. destruct up; [done|cbn [negb]]. clear Hskip.
  destruct (co_join m fl C B c s 0 p sp c s p Hco Hpp Hc) as (m1 & fl1 & B1 & E & Eid & Etot & Hst & Hreg & Hco1 & Htou);
    [lia|done|by left|by right|]. rewrite E. cbn [res_bind].
  assert (Hacc1 : forall x, accessible m x = true -> accessible m1 x = true) by (intros x; by rewrite (accessible_regions m m1)).
  rewrite hget_ok by (apply Hacc1; by eapply chunk_accessible). cbn [res_bind].
  rewrite hupd_ok by (by apply Hacc1). cbn [res_bind]. fold (join m1 p c).
  set (C1 := <[p := (sp + s, false)]> (delete c C)) in *.
  pose proof (tiling_size _ _ _ _ _ _ _ Ht Hpp) as Hsp.
  assert (Hoc : off c = off p + sp) by (rewrite <- Esp; apply off_add; lia).
  assert (Hpost : forall m', touches (join m1 p c) m' C1 -> co_post m fl C c s m' fl1 C1 p (sp + s))
    by (intros m'; eapply co_post_join; (done || lia)).
  destruct Hn as [He|n sn un Hnn En Hlt].
  - cbn [Z.eqb res_bind]. exists (join m1 p c), fl1, C1, B1, p, (sp + s), 0. split; [done|].
    split; [apply co_end; [|lia]; by replace (p + (sp + s)) with (c + s) by lia|].
    split; [apply Hpost, touches_refl|]. split; [constructor; lia|by left].
  - pose proof (tiling_pos _ _ _ _ _ _ _ Ht Hnn). rewrite (proj2 (Z.eqb_neq n 0)) by lia.
    assert (Hn1 : C1 !! n = Some (sn, un)) by (unfold C1; rewrite lookup_insert_ne, lookup_delete_ne by lia; done).
    assert (Hnx : next_of C1 p (sp + s) n) by (econstructor; [exact Hn1|lia|lia]).
    pose proof (co_tiling _ _ _ _ _ _ _ Hco1) as Ht1.
    rewrite hget_ok by (by eapply chunk_accessible). cbn [res_bind].
    rewrite (ck_used _ _ _ _ _ _ _ (ti_chunk _ _ _ _ Ht1 _ _ _ Hn1)). destruct un; cbn [b2z Z.eqb Pos.eqb res_bind].
    + destruct (co_fix (join m1 p c) fl1 C1 B1 p (sp + s) n) as (Ha & Hco2 & Ht2); [|lia|by eexists|lia|].
      { by replace (p + (sp + s)) with (c + s) by lia. }
      rewrite hupd_ok by done. cbn [res_bind]. eexists _, fl1, C1, B1, p, (sp + s), 0. split; [done|].
      split; [exact Hco2|]. split; [by apply Hpost|]. split; [done|by left].
    + exists (join m1 p c), fl1, C1, B1, p, (sp + s), (c + s). split; [done|]. split; [done|].
      split; [apply Hpost, touches_refl|]. split; [done|]. right. exists sn. done.
Qed.

Lemma coalesce_next_spec m fl C B c s n ex :
  co_inv m fl C B c s ex -> next_of C c s n -> (ex = 0 \/ exists sn, ex = n /\ C !! n = Some (sn, false)) ->
  exists m' fl' C' B' t, coalesce_next m fl n c = Ok (m', fl', c) /\
    co_inv m' fl' C' B' c t 0 /\ co_post m fl C c s m' fl' C' c t.
Proof.
  intros Hco Hn Hex. pose proof (co_tiling _ _ _ _ _ _ _ Hco) as Ht. pose proof (co_free _ _ _ _ _ _ _ Hco) as Hc.
  assert (Hskip : ex = 0 -> exists m' fl' C' B' t, Ok (m, fl, c) = Ok (m', fl', c) /\
    co_inv m' fl' C' B' c t 0 /\ co_post m fl C c s m' fl' C' c t).
  { intros ->. exists m, fl, C, B, s. repeat (split; [done|]). split; eauto using same_free_refl, touches_refl; lia. }
  unfold coalesce_next. destruct Hn as [He|n sn un Hnn En Hlt].
  { apply Hskip. destruct Hex as [|(sn & _ & E)]; [done|]. pose proof (tiling_pos _ _ _ _ _ _ _ Ht E). lia. }
  pose proof (tiling_pos _ _ _ _ _ _ _ Ht Hnn). rewrite (proj2 (Z.eqb_neq n 0)) by lia.
  pose proof (chunk_accessible _ _ _ _ _ _ _ Ht Hnn) as Hnacc. rewrite hget_ok by done. cbn [res_bind].
  rewrite (ck_used _ _ _ _ _ _ _ (ti_chunk _ _ _ _ Ht _ _ _ Hnn)), used_b2z. destruct un; cbn [negb].
  { apply Hskip. destruct Hex as [|(? & _ & E)]; [done|]. rewrite Hnn in E. done. }
  clear Hskip. destruct (co_join m fl C B c s ex c s n sn n Hco Hc Hnn En Hlt) as (m1 & fl1 & B1 & E & Eid & Etot & Hst & Hreg & Hco1 & Htou).
  { destruct Hex as [|(? & ? & _)]; auto. } { by left. }
  rewrite E. cbn [res_bind]. assert (Hcacc : accessible m1 c = true) by (rewrite (accessible_regions m) by done; by eapply chunk_accessible).
  rewrite hupd_ok by done. cbn [res_bind].
  destruct (strip_header _ _ (Hst n)) as ((Esz & _ & _ & Ela) & _). rewrite <- Esz, <- Ela. fold (join m1 c n).
  set (C1 := <[c := (s + sn, false)]> (delete n C)) in *.
  pose proof (co_tiling _ _ _ _ _ _ _ Hco1) as Ht1. pose proof (co_free _ _ _ _ _ _ _ Hco1) as Hc1.
  pose proof (tiling_size _ _ _ _ _ _ _ Ht Hnn) as Hsn.
  assert (Hpost : forall m', touches (join m1 c n) m' C1 -> co_post m fl C c s m' fl1 C1 c (s + sn))
    by (intros m'; eapply co_post_join; (done || lia)).
  rewrite hget_ok by (by eapply chunk_accessible). cbn [res_bind].
  rewrite (ck_last _ _ _ _ _ _ _ (ti_chunk _ _ _ _ Ht1 _ _ _ Hc1)).
  destruct (nextChunk_spec _ _ _ _ _ _ _ Ht1 Hc1) as (nn & Enn & Hnn1). rewrite Enn. cbn [res_bind].
  destruct Hnn1 as [He|nn snn unn Hnnn Ennn Hltn].
  - rewrite He, Z.eqb_refl. cbn [b2z Z.eqb Pos.eqb negb]. cbn [res_bind]. eexists _, fl1, C1, B1, (s + sn). split; [done|].
    split; [apply co_end; [|done]; by replace (c + (s + sn)) with (n + sn) by lia|]. apply Hpost, touches_refl.
  - rewrite (proj2 (Z.eqb_neq (off c + (s + sn)) BlockSize)) by lia. cbn [b2z Z.eqb negb].
    destruct (co_fix (join m1 c n) fl1 C1 B1 c (s + sn) nn) as (Ha & Hco2 & Ht2); [|done|by eexists|done|].
    { by replace (c + (s + sn)) with (n + sn) by lia. }
    rewrite hupd_ok by done. cbn [res_bind]. eexists _, fl1, C1, B1, (s + sn). split; [done|]. split; [exact Hco2|by apply Hpost].
Qed.

(** Marking a chunk free. *)
Lemma mark_free m fl C B c s :
  fl_inv m fl C B -> C !! c = Some (s, true) ->
  let m0 := store m c (set_used (line_at m c) 0) in let C0 := <[c := (s, false)]> C in
  co_inv m0 fl C0 B c s 0 /\ touches m m0 C0.
Proof.
  intros [Ht Hbk Hlk _] Hc. cbv zeta. pose proof (ck_aligned _ _ _ _ _ _ _ (ti_chunk _ _ _ _ Ht _ _ _ Hc)) as (_ & _ & Hs).
  assert (Hnot : c ∉ concat B) by (intros [t Ht']%Hlk; congruence).
  split; [constructor|].
  - exact (tiling_used _ _ _ _ _ _ _ false Ht Hc).
  - by apply buckets_ok_store.
  - intros a. rewrite Hlk. split.
    + intros [t Ha]. assert (a <> c) by congruence. split; [|done]. exists t. by rewrite lookup_insert_ne.
    + intros [[t [[<- _]|[_ Ha]]%lookup_insert_Some] Hac]; [done|]. by exists t.
  - apply lookup_insert_eq.
  - apply touches_free. eapply chunk_free; [apply lookup_insert_eq|done].
Qed.

Lemma freeAndCoalesce_spec m fl C B c s :
  fl_inv m fl C B -> C !! c = Some (s, true) ->
  exists m' fl' C' B' fc t, freeAndCoalesce m fl c = Ok (m', fl', fc) /\
    co_inv m' fl' C' B' fc t 0 /\ co_post m fl (<[c := (s, false)]> C) c s m' fl' C' fc t.
Proof.
  intros Hfl Hc. pose proof (fi_tiling _ _ _ _ Hfl) as Ht. destruct (mark_free m fl C B c s Hfl Hc) as [Hco0 Ht0].
  set (m0 := store m c _) in *. set (C0 := <[c := (s, false)]> C) in *.
  destruct (prevChunk_spec _ _ _ _ _ _ Ht Hc) as (p & Ep & Hp).
  destruct (nextChunk_spec _ _ _ _ _ _ _ Ht Hc) as (n & En & Hn).
  assert (Hkeep : forall d t v, C !! d = Some (t, v) -> exists v', C0 !! d = Some (t, v')).
  { intros d t v Hd. destruct (decide (d = c)) as [->|Hne]; [|exists v; unfold C0; by rewrite lookup_insert_ne].
    rewrite Hc in Hd. injection Hd as <- <-. exists false. apply lookup_insert_eq. }
  assert (Hp0 : prev_of C0 c p).
  { destruct Hp as [|p sp up Hp]; [by constructor|]. destruct (Hkeep _ _ _ Hp) as [v ?]. by econstructor. }
  assert (Hn0 : next_of C0 c s n).
  { destruct Hn as [|n sn un Hn]; [by constructor|]. destruct (Hkeep _ _ _ Hn) as [v ?]. by econstructor. }
  unfold freeAndCoalesce. rewrite Ep. cbn [res_bind]. rewrite En. cbn [res_bind].
  rewrite hupd_ok by (by eapply chunk_accessible). cbn [res_bind]. fold m0.
  destruct ((p =? 0) && (n =? 0)).
  { exists m0, fl, C0, B, c, s. split; [done|]. split; [done|]. split; eauto using same_free_refl; lia. }
  destruct (coalesce_prev_spec _ _ _ _ _ _ _ _ Hco0 Hp0 Hn0) as (m1 & fl1 & C1 & B1 & fc & t & ex & E1 & Hco1 & Hpost1 & Hn1 & Hex1).
  rewrite E1. cbn [res_bind].
  destruct (coalesce_next_spec _ _ _ _ _ _ _ _ Hco1 Hn1 Hex1) as (m2 & fl2 & C2 & B2 & t2 & E2 & Hco2 & Hpost2).
  rewrite E2. exists m2, fl2, C2, B2, fc, t2. split; [done|]. split; [done|].
  destruct Hpost1 as [[I1 T1] P1 S1 M1 K1], Hpost2 as [[I2 T2] P2 S2 M2 K2]. split; [split; congruence|lia|..].
  - by eapply same_free_trans.
  - eapply touches_trans; [exact Ht0|]. eapply touches_trans; [exact M1|]. by eapply same_free_touches.
  - intros d x v Hd. destruct (K2 d x v Hd) as (x' & v' & Hd'). eauto.
Qed.

(** ** The bitmap pages that [dealloc] clears *)

Definition page_addr (q : Z) : Z := BaseAddress + BitmapGranularity * q.

(** Page [q] lies in the merged chunk [fc, fc + t) and touches [c, c + s]. *)
Definition page_cleared (c s fc t q : Z) : bool :=
  (fc <=? page_addr q) && (page_addr q + BitmapGranularity <=? fc + t) &&
  (c <? page_addr q + BitmapGranularity) && (page_addr q <=? c + s).

Lemma mask_page x : 0 <= x < 2 ^ 64 -> mask_down x BitmapGranularity = x - x mod 4096.
Proof.
  intros Hx. change BitmapGranularity with (2 ^ 12). rewrite mask_down_spec by lia. change (2 ^ 12) with 4096. dlia.
Qed.

Lemma dealloc_range_spec c s fc t lb ub :
  BaseAddress <= fc -> fc <= c -> 0 < s -> c + s <= fc + t -> fc + t <= BaseAddress + MaxMemorySize ->
  BitmapGranularity <= t -> dealloc_range c s fc t = (lb, ub) ->
  lb <= ub /\ fc <= lb /\ ub <= fc + t /\ lb mod 4096 = 0 /\
  forall q, (lb <= page_addr q < ub) <-> page_cleared c s fc t q = true.
Proof.
  unfold dealloc_range, page_cleared, page_addr. change MaxMemorySize with 1099511627776.
  change BaseAddress with 1099511627776. intros H1 H2 H3 H4 H5 H6.
  rewrite !mask_page by (change (2 ^ 64) with 18446744073709551616; lia).
  change BitmapGranularity with 4096 in *.
  destruct (Z.ltb_spec (c - c mod 4096) fc) as [L|L];
    destruct (Z.leb_spec (c + s - (c + s) mod 4096 + 4096) (fc + t)) as [U|U]; intros [= <- <-];
    (split; [dlia|]; split; [dlia|]; split; [dlia|]; split; [dlia|]; intros q;
     rewrite !andb_true_iff, !Z.leb_le, Z.ltb_lt; dlia).
Qed.

Lemma page_cleared_small c s fc t q : t < BitmapGranularity -> page_cleared c s fc t q = false.
Proof.
  intros Ht. destruct (page_cleared c s fc t q) eqn:E; [|done]. unfold page_cleared in E.
  rewrite !andb_true_iff, !Z.leb_le, Z.ltb_lt in E. lia.
Qed.

Record dealloc_post (g : galloc) (l : list Z) (fl : flist) (C : chunks) (c s : Z)
    (g' : galloc) (fl' : flist) (C' : chunks) (B' : list (list Z)) (fc t : Z) : Prop := {
  dp_ga : ga_inv g' l;
  dp_fl : fl_inv (ga_mem g') fl' C' B';
  dp_owned : owned (ga_mem g') l C';
  dp_same : same_free (<[c := (s, false)]> C) C';
  dp_chunk : C' !! fc = Some (t, false) /\ fc <= c /\ c + s <= fc + t;
  dp_total : total_allocated fl' = total_allocated fl - s /\ my_id fl' = my_id fl;
  dp_wf : cells_wf (ga_bitmap g');
  dp_bitmap : forall q, 0 <= q ->
    page_set (ga_bitmap g') q = if page_cleared c s fc t q then false else page_set (ga_bitmap g) q;
  dp_sub : forall d u v, C' !! d = Some (u, v) -> exists u' v', C !! d = Some (u', v');
  dp_free : forall x, free_at (ga_mem g') l x <-> free_at (ga_mem g) l x;
  dp_touches : touches (ga_mem g) (ga_mem g') (<[c := (s, false)]> C)
}.

Lemma owned_sub m m' l C C' :
  owned m l C -> (forall x, free_at m' l x <-> free_at m l x) ->
  (forall d t v, C' !! d = Some (t, v) -> exists t' v', C !! d = Some (t', v')) -> owned m' l C'.
Proof. intros Ho Hf Hb d t v x Hd Hx Hfx. destruct (Hb d t v Hd) as (t' & v' & Hd'). apply Hf in Hfx. by eapply Ho. Qed.

Lemma touches_list_sub m m' f l id C C0 ex :
  list_inv m f l -> tiling m id C ex -> owned m l C -> touches m m' C0 ->
  (forall d u v, C0 !! d = Some (u, v) -> exists v', C !! d = Some (u, v')) ->
  list_inv m' f l /\ forall x, free_at m' l x <-> free_at m l x.
Proof.
  intros Hli Ht Hown [Hreg Htou] Hk. apply list_inv_frame; [done|done|]. intros a Ha.
  pose proof (node_free _ _ _ (li_nodes _ _ _ Hli) Ha) as Hfa.
  assert (Hno : forall d u v, C0 !! d = Some (u, v) -> ~ d <= a < d + u).
  { intros d u v Hd Hx. destruct (Hk d u v Hd) as [v' Hd']. eapply Hown; [exact Hd'| |exact Hfa]. by eapply chunk_in_block. }
  destruct (Htou a) as [?|[[s Hs] _]]; [|done|].
  - intros (d & u & Hd & Hx). by eapply Hno.
  - exfalso. eapply Hno; [exact Hs|]. destruct (Hk _ _ _ Hs) as [v Hd].
    pose proof (ck_aligned _ _ _ _ _ _ _ (ti_chunk _ _ _ _ Ht _ _ _ Hd)). lia.
Qed.

(** Putting the merged chunk into its bucket. *)
Lemma add_merged m fl C B fc t :
  co_inv m fl C B fc t 0 -> 0 <= my_id fl < 2 ^ 16 ->
  exists m' fl' B', addFreeChunk m fl fc (size (line_at m fc)) = Ok (m', fl') /\ fl_inv m' fl' C B' /\
    my_id fl' = my_id fl /\ total_allocated fl' = total_allocated fl /\ touches m m' C /\
    hget m' fc = Ok (line_at m' fc) /\ size (line_at m' fc) = t.
Proof.
  intros [Ht Hbk Hlk Hfc] Hid. destruct (ti_chunk _ _ _ _ Ht _ _ _ Hfc) as [(_ & _ & Hpos) _ Hblk Es _ _ _ _ _].
  pose proof (off_range fc) as Hr. pose proof (tiling_pos _ _ _ _ _ _ _ Ht Hfc).
  destruct (addFreeChunk_spec m fl B fc t) as (m' & fl' & B' & E & Hbk' & Hlo & Hmem & Efl); try done.
  { intros Hin. apply Hlk in Hin as [_ ?]. done. } { lia. } { by eapply chunk_accessible. }
  { change BlockSize with 2097152 in *. unfold UINT64_MAX. lia. }
  assert (Eid : my_id fl' = my_id fl) by (by rewrite Efl). pose proof Hlo as (Hreg & Hst & _).
  assert (Ht' : tiling m' (my_id fl) C 0) by (apply (tiling_strip m); [done|done|intros d u v _; apply Hst]).
  rewrite Es. exists m', fl', B'. split; [done|]. split; [constructor|].
  - by rewrite Eid. - done.
  - intros a. rewrite Hmem, Hlk. split.
    + intros [->|[? _]]; [by exists t|done].
    + intros Ha. destruct (decide (a = fc)); auto.
  - by rewrite Eid.
  - split; [done|]. split; [by rewrite Efl|]. split; [|split; [apply hget_ok; by eapply chunk_accessible|]].
    + eapply touches_links; [exact Hlo|]. intros a [->|Ha]%elem_of_cons; [by eapply chunk_free|].
      apply Hlk in Ha as [[u Ha] _]. eapply chunk_free; [exact Ha|].
      apply (ck_aligned _ _ _ _ _ _ _ (ti_chunk _ _ _ _ Ht _ _ _ Ha)).
    + apply (ck_size _ _ _ _ _ _ _ (ti_chunk _ _ _ _ Ht' _ _ _ Hfc)).
Qed.

(** The bitmap update at the end of [dealloc]. *)
Lemma clear_pages_spec g (fl : flist) c s fc t :
  cells_wf (ga_bitmap g) -> BaseAddress <= fc -> fc <= c -> 0 < s -> c + s <= fc + t ->
  fc + t <= BaseAddress + MaxMemorySize ->
  exists bm, (if t <? BitmapGranularity then Ok (g, fl)
     else let (lb, ub) := dealloc_range c s fc t in
          if 0 <? u64 (ub - lb) then
            let* bm := unsetBitmap (ga_bitmap g) lb (u64 (ub - lb)) in Ok (with_bitmap g bm, fl)
          else Ok (g, fl)) = Ok (with_bitmap g bm, fl) /\
    cells_wf bm /\
    forall q, 0 <= q -> page_set bm q = if page_cleared c s fc t q then false else page_set (ga_bitmap g) q.
Proof.
  intros Hwf Hlo Hfc Hs Hin Hmax. assert (Hsame : g = with_bitmap g (ga_bitmap g)) by (by destruct g).
  destruct (Z.ltb_spec t BitmapGranularity) as [Hsm|Hbig].
  { exists (ga_bitmap g). rewrite <- Hsame. do 2 (split; [done|]). intros q _. by rewrite page_cleared_small. }
  destruct (dealloc_range c s fc t) as [lb ub] eqn:Er.
  destruct (dealloc_range_spec c s fc t lb ub Hlo Hfc Hs Hin Hmax Hbig Er) as (Hle & Hlb & Hub & Hal & Hq).
  rewrite u64_id by (unfold is_u64; change MaxMemorySize with 1099511627776 in *; unfold BaseAddress in *; lia).
  destruct (Z.ltb_spec 0 (ub - lb)) as [Hpos|Hnone].
  - destruct (unsetBitmap_spec (ga_bitmap g) lb (ub - lb) Hwf) as (bm & Eb & Hbm & Hbq); [split; lia|].
    rewrite Eb. cbn [res_bind]. exists bm. do 2 (split; [done|]).
    intros q Hq0. rewrite Hbq by done. replace (lb + (ub - lb)) with ub by lia.
    assert (Hov : overlaps lb ub q = true <-> lb <= page_addr q < ub).
    { unfold overlaps, page_addr. rewrite andb_true_iff, Z.leb_le, Z.ltb_lt. change BitmapGranularity with 4096.
      change BaseAddress with 1099511627776. dlia. }
    specialize (Hq q). destruct (overlaps lb ub q), (page_cleared c s fc t q); try done; exfalso; naive_solver.
  - exists (ga_bitmap g). rewrite <- Hsame. do 2 (split; [done|]). intros q _.
    destruct (page_cleared c s fc t q) eqn:E; [|done]. apply Hq in E. lia.
Qed.

Lemma fl_dealloc_spec g l fl C B c s :
  ga_inv g l -> fl_inv (ga_mem g) fl C B -> owned (ga_mem g) l C -> cells_wf (ga_bitmap g) ->
  C !! c = Some (s, true) -> s <= total_allocated fl ->
  exists g' fl' C' B' fc t, fl_dealloc g fl c = Ok (g', fl') /\ dealloc_post g l fl C c s g' fl' C' B' fc t.
Proof.
  intros Hga Hfl Hown Hwf Hc Htot. pose proof (fi_tiling _ _ _ _ Hfl) as Ht.
  destruct (ti_chunk _ _ _ _ Ht _ _ _ Hc) as [(_ & _ & Hs) _ _ Es Eu _ _ _ _].
  destruct (freeAndCoalesce_spec _ _ _ _ _ _ Hfl Hc) as (m1 & fl1 & C1 & B1 & fc & t & E1 & Hco1 & [[I1 T1] P1 S1 M1 K1]).
  unfold fl_dealloc. rewrite hget_ok by (by eapply chunk_accessible). cbn [res_bind]. rewrite Eu, Es. cbn [b2z Z.eqb Pos.eqb].
  rewrite E1. cbn [res_bind]. rewrite hget_ok by (eapply chunk_accessible; apply Hco1). cbn [res_bind].
  destruct (add_merged _ _ _ _ _ _ Hco1) as (m2 & fl2 & B2 & E2 & Hfl2 & I2 & T2 & M2 & Eg & Esz); [rewrite I1; apply Hfl|].
  rewrite E2. cbn [res_bind]. rewrite T2, T1. rewrite (proj2 (Z.leb_le _ _)) by done. cbn [res_bind].
  rewrite Eg. cbn [res_bind]. rewrite Esz.
  set (C0 := <[c := (s, false)]> C) in *.
  assert (Htou : touches (ga_mem g) m2 C0) by (eapply touches_trans; [exact M1|]; by eapply same_free_touches).
  pose proof (co_free _ _ _ _ _ _ _ Hco1) as Hfc1.
  assert (Hk : forall d u v, C1 !! d = Some (u, v) -> exists u' v', C !! d = Some (u', v')).
  { intros d u v Hd. destruct (K1 d u v Hd) as (u' & v' & [[<- _]|[_ ?]]%lookup_insert_Some); eauto. }
  assert (Hk0 : forall d u v, C0 !! d = Some (u, v) -> exists v', C !! d = Some (u, v')).
  { intros d u v [[<- [= <- <-]]|[_ ?]]%lookup_insert_Some; eauto. }
  destruct (touches_list_sub _ _ _ _ _ _ _ _ Hga Ht Hown Htou Hk0) as [Hli Hfree].
  set (fl3 := set_total fl2 (total_allocated fl - s)).
  assert (Hfl3 : fl_inv m2 fl3 C1 B2) by (destruct Hfl2 as [? [] ? ?]; by constructor).
  destruct (ti_chunk _ _ _ _ (co_tiling _ _ _ _ _ _ _ Hco1) _ _ _ Hfc1) as [_ [Hlo Hhi] Hblk _ _ _ _ _ _].
  pose proof (ho_max _ (ti_heap _ _ _ _ (co_tiling _ _ _ _ _ _ _ Hco1))) as Hmax. pose proof (off_range fc).
  destruct (clear_pages_spec (with_mem g m2) fl3 c s fc t) as (bm & Eb & Hbm & Hq); [done|done|lia|done|lia|lia|].
  exists (with_bitmap (with_mem g m2) bm), fl3, C1, B2, fc, t. split; [exact Eb|]. split; try done.
  - by eapply owned_sub.
  - split; [done|]. change (my_id fl2 = my_id fl). by rewrite I2.
Qed.
