(* ===== verification/ObjectAlloc.v ===== *)
(** * Object allocators (class ObjectAlloc of ckpt_alloc.cpp)

    Every persistent object allocates from an allocator of its own, with one
    free list per core; a thread uses the free list its identifier hashes to
    and returns memory to the free list it came from.  The table of
    allocators of the global allocator is at the end. *)

From stdpp Require Import base numbers list gmap strings.
From S2P Require Import Prelude Pmem Bitmap Heap GlobalAlloc FreeList.

Definition Alignment : Z := 0x40.
Definition sizeof_chunk_header : Z := 8.

Record oalloc := ObjectAlloc {
  oa_id : list Z;
  total_cores : Z;
  free_lists : list flist
}.

(** The constructor; [cores] is what [get_cpu_info] found. *)
Definition oa_init (uuid : list Z) (cores : Z) : oalloc :=
  ObjectAlloc uuid cores ((fun c => fl_init (Z.of_nat c)) <$> seq 0 (Z.to_nat cores)).

(** The 64-bit mix of a thread identifier. *)
Definition thread_hash (thread_id : Z) : Z :=
  let key := u64 thread_id in
  let key := u64 ((UINT64_MAX - key) + u64 (Z.shiftl key 21)) in
  let key := Z.lxor key (Z.shiftr key 24) in
  let key := u64 (u64 (key + u64 (Z.shiftl key 3)) + u64 (Z.shiftl key 8)) in
  let key := Z.lxor key (Z.shiftr key 14) in
  let key := u64 (u64 (key + u64 (Z.shiftl key 2)) + u64 (Z.shiftl key 4)) in
  let key := Z.lxor key (Z.shiftr key 28) in
  u64 (key + u64 (Z.shiftl key 31)).

Definition getOffset (o : oalloc) (thread_id : Z) : Z := thread_hash thread_id mod total_cores o.

Definition get_list (o : oalloc) (i : Z) : res flist :=
  match free_lists o !! Z.to_nat i with Some fl => Ok fl | None => Segfault end.
Definition set_list (o : oalloc) (i : Z) (fl : flist) : oalloc :=
  ObjectAlloc (oa_id o) (total_cores o) (<[Z.to_nat i := fl]> (free_lists o)).

Definition chunk_size_of (size0 : Z) : Z := align_up (u64 (size0 + sizeof_chunk_header)) Alignment.

Section ObjectAlloc.
Variable mmap_at : Z -> Z -> bool.

(** [alloc]: the address of the memory after the header. *)
Definition oa_alloc (g : galloc) (o : oalloc) (self size0 : Z) : res (galloc * oalloc * Z) :=
  let chunk_size := chunk_size_of size0 in
  let i := getOffset o self in
  let* fl := get_list o i in
  let* fl := fl_lock fl in
  if chunk_size <=? BlockSize then
    let* (g, fl, chunk) := fl_alloc mmap_at g fl chunk_size in
    let* bm := setBitmap (ga_bitmap g) chunk chunk_size in
    let* fl := fl_unlock fl in
    Ok (with_bitmap g bm, set_list o i fl, chunk + sizeof_chunk_header)
  else
    let* (g, chunk) := big_alloc mmap_at g fl chunk_size in
    let* bm := setBitmapForBigAlloc (ga_bitmap g) chunk chunk_size in
    let* fl := fl_unlock fl in
    Ok (with_bitmap g bm, set_list o i fl, chunk + sizeof_chunk_header).

Definition oa_dealloc (g : galloc) (o : oalloc) (ptr : Z) : res (galloc * oalloc) :=
  if ptr =? 0 then Ok (g, o)
  else
    let chunk := ptr - sizeof_chunk_header in
    let* l := hget (ga_mem g) chunk in
    let i := free_list_id l in
    let* fl := get_list o i in
    let* fl := fl_lock fl in
    let* (g, fl) :=
      if size l <=? BlockSize then fl_dealloc g fl chunk
      else let* g := big_dealloc g chunk in Ok (g, fl) in
    let* fl := fl_unlock fl in
    Ok (g, set_list o i fl).

Definition oa_realloc (g : galloc) (o : oalloc) (ptr size0 : Z) : res (galloc * oalloc * Z) :=
  if ptr =? 0 then Ok (g, o, 0)
  else
    let new_size := chunk_size_of size0 in
    if BlockSize <? new_size then Ok (g, o, 0)
    else
      let chunk := ptr - sizeof_chunk_header in
      let* l := hget (ga_mem g) chunk in
      let i := free_list_id l in
      let* fl := get_list o i in
      let* fl := fl_lock fl in
      let* (g, fl, chunk) := fl_realloc mmap_at g fl chunk new_size in
      let* fl := fl_unlock fl in
      Ok (g, set_list o i fl, chunk + sizeof_chunk_header).

(** [for (c = 0; c < total_cores; c++) free_lists[c]->releaseFreeBlocks()] *)
Fixpoint release_lists (g : galloc) (fls : list flist) : res (galloc * list flist) :=
  match fls with
  | [] => Ok (g, [])
  | fl :: fls =>
      let* (g, fl) := releaseFreeBlocks g fl in
      let* (g, fls) := release_lists g fls in
      Ok (g, fl :: fls)
  end.
Definition oa_releaseFreeBlocks (g : galloc) (o : oalloc) : res (galloc * oalloc) :=
  let* (g, fls) := release_lists g (free_lists o) in
  Ok (g, ObjectAlloc (oa_id o) (total_cores o) fls).

End ObjectAlloc.

(** ** Snapshots of an object allocator *)

Definition oa_snapshotSize (o : oalloc) : Z := 16 + 8 + 8 + total_cores o * fl_snapshotSize.

Fixpoint save_lists (fls : list flist) (nvm : words) (ptr : Z) : words :=
  match fls with [] => nvm | fl :: fls => save_lists fls (fl_save fl nvm ptr) (ptr + fl_snapshotSize) end.

Definition oa_save (o : oalloc) (this : Z) (nvm : words) (ptr : Z) : words :=
  let nvm := wset nvm ptr (le_value (take 8 (oa_id o))) in
  let nvm := wset nvm (ptr + 8) (le_value (drop 8 (oa_id o))) in
  let nvm := wset nvm (ptr + 16) (total_cores o) in
  let nvm := wset nvm (ptr + 24) this in
  save_lists (free_lists o) nvm (ptr + 32).

Fixpoint load_lists (fls : list flist) (nvm : words) (ptr : Z) : list flist :=
  match fls with [] => [] | fl :: fls => fl_load fl nvm ptr :: load_lists fls nvm (ptr + fl_snapshotSize) end.

(** The 16 bytes of the identifier in the snapshot. *)
Definition snapshot_uuid (nvm : words) (ptr : Z) : list Z :=
  le_bytes 8 (wget nvm ptr) ++ le_bytes 8 (wget nvm (ptr + 8)).

Definition oa_load (o : oalloc) (nvm : words) (ptr : Z) : res oalloc :=
  assert! bool_decide (oa_id o = snapshot_uuid nvm ptr) in
  assert! wget nvm (ptr + 16) =? total_cores o in
  Ok (ObjectAlloc (oa_id o) (total_cores o) (load_lists (free_lists o) nvm (ptr + 32))).

(** ** The table of allocators (GlobalAlloc::newAllocator, findAllocator and
    restoreAllocator)

    Allocators are built one after the other in a region of their own;
    [std::map::insert] keeps an existing entry. *)
Section Table.
Context `{Uuid}.

Record atable := ATable { at_objects : gmap Z oalloc; allocators : gmap string Z; allocatorsMemory : Z; sizeof_ObjectAlloc : Z }.

Definition map_insert {V} (m : gmap string V) (k : string) (v : V) : gmap string V :=
  match m !! k with Some _ => m | None => <[k := v]> m end.

Definition newAllocator (t : atable) (uuid : list Z) (cores : Z) : atable * Z :=
  let ptr := allocatorsMemory t + sizeof_ObjectAlloc t * Z.of_nat (base.size (allocators t)) in
  (ATable (<[ptr := oa_init uuid cores]> (at_objects t)) (map_insert (allocators t) (uuid_unparse uuid) ptr)
     (allocatorsMemory t) (sizeof_ObjectAlloc t), ptr).

Definition findAllocator (t : atable) (uuid : list Z) : option Z := allocators t !! uuid_unparse uuid.

Definition restoreAllocator (t : atable) (alloc : Z) : res atable :=
  match at_objects t !! alloc with
  | None => Segfault
  | Some o => Ok (ATable (at_objects t) (map_insert (allocators t) (uuid_unparse (oa_id o)) alloc)
                    (allocatorsMemory t) (sizeof_ObjectAlloc t))
  end.

End Table.
