(* ===== verification/ObjectAllocProofs.v ===== *)
(** * Correctness of object allocators

    The invariant of an object allocator: every free list tiles its own
    blocks, no block belongs to two lists or to the global allocator, the
    byte counters are exact, and every page that holds a byte of a chunk in
    use is set in the bitmap, so that a snapshot saves it. *)

From stdpp Require Import base numbers list gmap.
From S2P Require Import Prelude Pmem Bitmap Heap GlobalAlloc FreeList GlobalAllocProofs FreeListTiling FreeListProofs FreeListDealloc ObjectAlloc.

(** ** Locks

    No operation on a free list touches its lock. *)
Definition lock_of (fl : flist) : Z * Z := (xlock fl, lock_holders fl).

Ltac mono H :=
  repeat lazymatch type of H with
  | res_bind _ _ = Ok _ =>
      let a := fresh "r" in let H1 := fresh "Hr" in apply res_bind_Ok in H as (a & H1 & H)
  | (let (_, _) := ?r in _) = Ok _ => destruct r
  | match ?r with Some _ => _ | None => _ end = Ok _ => destruct r
  | (if ?b then _ else _) = Ok _ => destruct b
  | _ => fail
  end.
Ltac mono_all := repeat match goal with H : ?t = Ok _ |- _ => progress (mono H) end;
  repeat match goal with H : Ok _ = Ok _ |- _ => apply Ok_inj in H end; simplify_eq; try discriminate.

Lemma addFreeChunk_lock m fl p s m' fl' : addFreeChunk m fl p s = Ok (m', fl') -> lock_of fl' = lock_of fl.
Proof. unfold addFreeChunk. intros H. mono_all; done. Qed.

Lemma removeChunk_lock m fl c m' fl' : removeChunkFromBuckets m fl c = Ok (m', fl') -> lock_of fl' = lock_of fl.
Proof. unfold removeChunkFromBuckets. intros H. mono_all; done. Qed.

Lemma take_chunk_lock m fl b fc s m' fl' c : take_chunk m fl b fc s = Ok (m', fl', c) -> lock_of fl' = lock_of fl.
Proof.
  unfold take_chunk. intros H. mono_all; try done;
  match goal with H : addFreeChunk _ _ _ _ = _ |- _ => rewrite (addFreeChunk_lock _ _ _ _ _ _ H); done end.
Qed.

Lemma find_in_bucket_lock n m fl fc s fl' r : find_in_bucket n m fl fc s = Ok (fl', r) -> lock_of fl' = lock_of fl.
Proof.
  revert fl fc. induction n as [|n IH]; intros fl fc H; cbn [find_in_bucket] in H; [done|].
  mono_all; try done; match goal with H : find_in_bucket _ _ _ _ _ = _ |- _ => by rewrite (IH _ _ H) end.
Qed.

Lemma match_loop_lock n m fl b s m' fl' r : match_loop n m fl b s = Ok (m', fl', r) -> lock_of fl' = lock_of fl.
Proof.
  revert fl b. induction n as [|n IH]; intros fl b H; cbn [match_loop] in H; [by mono_all|].
  mono_all;
    repeat match goal with
    | H : take_chunk _ _ _ _ _ = _ |- _ => rewrite (take_chunk_lock _ _ _ _ _ _ _ _ H); clear H
    | H : match_loop _ _ _ _ _ = _ |- _ => rewrite (IH _ _ H); clear H
    end; by eapply find_in_bucket_lock.
Qed.

Lemma fl_alloc_lock mmap_at g fl s g' fl' c : fl_alloc mmap_at g fl s = Ok (g', fl', c) -> lock_of fl' = lock_of fl.
Proof.
  unfold fl_alloc, findBestMatch, finish_alloc. intros H. mono_all;
    repeat match goal with
    | H : addFreeChunk _ _ _ _ = _ |- _ => apply addFreeChunk_lock in H
    | H : match_loop _ _ _ _ _ = _ |- _ => apply match_loop_lock in H
    end; unfold lock_of in *; cbn in *; congruence.
Qed.

Lemma fl_dealloc_lock g fl c g' fl' : fl_dealloc g fl c = Ok (g', fl') -> lock_of fl' = lock_of fl.
Proof.
  unfold fl_dealloc, freeAndCoalesce, coalesce_prev, coalesce_next. intros H. mono_all;
    repeat match goal with
    | H : addFreeChunk _ _ _ _ = _ |- _ => apply addFreeChunk_lock in H
    | H : removeChunkFromBuckets _ _ _ = _ |- _ => apply removeChunk_lock in H
    end; unfold lock_of in *; cbn in *; congruence.
Qed.

(** ** Bytes in use *)

(** The chunks in use, and how many bytes they are. *)
Definition used_map (C : chunks) : gmap Z Z := omap (fun su : Z * bool => if snd su then Some (fst su) else None) C.
Definition bytes_total (U : gmap Z Z) : Z := map_fold (fun _ s n => s + n) 0 U.

Lemma used_map_lookup C c s : used_map C !! c = Some s <-> C !! c = Some (s, true).
Proof.
  unfold used_map. rewrite lookup_omap. destruct (C !! c) as [[t [|]]|]; simpl; naive_solver.
Qed.

Lemma bytes_insert U c s : U !! c = None -> bytes_total (<[c := s]> U) = s + bytes_total U.
Proof. intros. unfold bytes_total. rewrite map_fold_insert_L; [done|intros; lia|done]. Qed.

Lemma bytes_delete U c s : U !! c = Some s -> bytes_total U = s + bytes_total (delete c U).
Proof.
  intros H. rewrite <- (insert_delete_id U c s H) at 1. apply bytes_insert. apply lookup_delete_eq.
Qed.

(** A non-empty map of intervals has a last one. *)
Lemma last_key (U : gmap Z Z) : U <> ∅ -> exists c s, U !! c = Some s /\ forall d t, U !! d = Some t -> d <= c.
Proof.
  induction U as [|c s U Hc IH] using map_ind; [done|]. intros _.
  destruct (decide (U = ∅)) as [->|Hne].
  { exists c, s. rewrite lookup_insert_eq. split; [done|]. intros d t [[<- _]|[_ ?]]%lookup_insert_Some; [lia|done]. }
  destruct (IH Hne) as (c' & s' & Hc' & Hmax). destruct (Z.le_gt_cases c c').
  - exists c', s'. rewrite lookup_insert_ne by (intros ->; congruence). split; [done|].
    intros d t [[<- _]|[_ Hd]]%lookup_insert_Some; [lia|eauto].
  - exists c, s. rewrite lookup_insert_eq. split; [done|].
    intros d t [[<- _]|[_ Hd]]%lookup_insert_Some; [lia|]. specialize (Hmax _ _ Hd). lia.
Qed.

(** Disjoint intervals of [lo, hi) add up to at most its length. *)
Lemma bytes_bound n : forall (U : gmap Z Z) lo hi, base.size U = n -> lo <= hi ->
  (forall c s, U !! c = Some s -> lo <= c /\ 0 < s /\ c + s <= hi) ->
  (forall c s d t, U !! c = Some s -> U !! d = Some t -> c <> d -> c + s <= d \/ d + t <= c) ->
  0 <= bytes_total U <= hi - lo.
Proof.
  induction n as [|n IH]; intros U lo hi Hn Hle Hin Hdis.
  { apply map_size_empty_inv in Hn as ->. change (bytes_total ∅) with 0. lia. }
  destruct (last_key U) as (c & s & Hc & Hmax); [by intros ->|]. rewrite (bytes_delete U c s Hc).
  destruct (Hin c s Hc) as (? & ? & ?).
  assert (0 <= bytes_total (delete c U) <= c - lo); [|lia]. apply IH; [|lia|..].
  - rewrite map_size_delete_Some by (by eexists). lia.
  - intros d t [Hne Hd]%lookup_delete_Some. destruct (Hin d t Hd) as (? & ? & ?). specialize (Hmax d t Hd).
    destruct (Hdis c s d t Hc Hd ltac:(done)); lia.
  - intros d t e u [_ Hd]%lookup_delete_Some [_ He]%lookup_delete_Some. by apply Hdis.
Qed.

Lemma used_bound m id C ex : tiling m id C ex -> 0 <= bytes_total (used_map C) <= MaxMemorySize.
Proof.
  intros Ht. pose proof (ho_max _ (ti_heap _ _ _ _ Ht)) as Hmax.
  assert (0 <= bytes_total (used_map C) <= (BaseAddress + MaxMemorySize) - BaseAddress); [|lia].
  eapply bytes_bound; [done|change MaxMemorySize with 1099511627776; lia|..].
  - intros c s Hc%used_map_lookup. destruct (ti_chunk _ _ _ _ Ht _ _ _ Hc) as [(_ & _ & ?) [? ?] ? _ _ _ _ _ _].
    pose proof (off_range c). lia.
  - intros c s d t Hc%used_map_lookup Hd%used_map_lookup. by eapply Ht.
Qed.

(** ** The invariant *)

(** One free list with the chunks [C]. *)
Record list_ok (m : mem) (l : list Z) (bm : bitmap) (i : nat) (fl : flist) (C : chunks) : Prop := {
  lo_inv : exists B, fl_inv m fl C B;
  lo_owned : owned m l C;
  lo_id : my_id fl = Z.of_nat i;
  lo_total : total_allocated fl = bytes_total (used_map C);
  lo_live : forall c s q, C !! c = Some (s, true) -> 0 <= q -> overlaps c (c + s) q = true -> page_set bm q = true
}.

Record oa_inv (g : galloc) (l : list Z) (o : oalloc) (Cs : list chunks) : Prop := {
  oi_ga : ga_inv g l;
  oi_wf : cells_wf (ga_bitmap g);
  oi_cores : 0 < total_cores o /\ Z.to_nat (total_cores o) = length (free_lists o) /\ length Cs = length (free_lists o);
  oi_lists : forall i fl C, free_lists o !! i = Some fl -> Cs !! i = Some C -> list_ok (ga_mem g) l (ga_bitmap g) i fl C;
  oi_unlocked : forall i fl, free_lists o !! i = Some fl -> lock_of fl = (0, 0);
  oi_apart : forall i j C D c s u d t v, i <> j -> Cs !! i = Some C -> Cs !! j = Some D ->
    C !! c = Some (s, u) -> D !! d = Some (t, v) -> c - off c <> d - off d
}.

Lemma fl_inv_lock m fl C B x n : fl_inv m fl C B -> fl_inv m (set_lock fl x n) C B.
Proof. intros [? [] ? ?]. by constructor. Qed.

Lemma lock_cycle fl fl' :
  lock_of fl = (0, 0) -> lock_of fl' = lock_of (set_lock fl 1 1) ->
  fl_lock fl = Ok (set_lock fl 1 1) /\ fl_unlock fl' = Ok (set_lock fl' 0 0).
Proof.
  unfold lock_of. intros [= E1 E2] [= E3 E4]. unfold fl_lock, fl_unlock. rewrite E1, E2, E3, E4. done.
Qed.

(** What the rest of the heap sees of an operation on list [i]. *)
Record frame (g : galloc) (l : list Z) (C : chunks) (g' : galloc) (l' : list Z) : Prop := {
  fr_heap : heap_ok (ga_mem g');
  fr_end : heap_end (ga_mem g) <= heap_end (ga_mem g');
  fr_free : forall x, free_at (ga_mem g') l' x -> free_at (ga_mem g) l x \/ heap_end (ga_mem g) <= x;
  fr_lines : forall x, x < heap_end (ga_mem g) -> ~ free_at (ga_mem g) l x ->
    (forall c s u, C !! c = Some (s, u) -> ~ c <= x < c + s) -> line_at (ga_mem g') x = line_at (ga_mem g) x
}.

Lemma frame_list g l o Cs i j C D fl g' l' bm' :
  oa_inv g l o Cs -> i <> j -> Cs !! i = Some C -> Cs !! j = Some D -> free_lists o !! j = Some fl ->
  (exists fli, free_lists o !! i = Some fli) -> frame g l C g' l' ->
  (forall d t q, D !! d = Some (t, true) -> 0 <= q -> overlaps d (d + t) q = true ->
     page_set (ga_bitmap g) q = true -> page_set bm' q = true) ->
  list_ok (ga_mem g') l' bm' j fl D /\
  forall d t v x, D !! d = Some (t, v) -> d <= x < d + t -> line_at (ga_mem g') x = line_at (ga_mem g) x.
Proof.
  intros Ho Hij Hi Hj Hfl [fli Hfli] [Hh He Hfree Hl] Hbm.
  destruct (oi_lists _ _ _ _ Ho j fl D Hfl Hj) as [[B Hinv] Hown Hid Htot Hlive].
  destruct (oi_lists _ _ _ _ Ho i fli C Hfli Hi) as [[Bi Hinvi] _ _ _ _].
  pose proof (fi_tiling _ _ _ _ Hinv) as Ht. pose proof (fi_tiling _ _ _ _ Hinvi) as Hti.
  assert (Hin : forall d t v x, D !! d = Some (t, v) -> d - off d <= x < d - off d + BlockSize ->
            x < heap_end (ga_mem g)).
  { intros d t v x Hd Hx. destruct (ti_chunk _ _ _ _ Ht _ _ _ Hd) as [_ [_ ?] _ _ _ _ _ _ _]. lia. }
  assert (Hsame : forall d t v x, D !! d = Some (t, v) -> d <= x < d + t -> line_at (ga_mem g') x = line_at (ga_mem g) x).
  { intros d t v x Hd Hx. pose proof (chunk_in_block _ _ _ _ _ _ _ _ Ht Hd Hx) as Hb.
    apply Hl; [by eapply Hin|by eapply Hown|]. intros c s u Hc Hxc.
    apply (oi_apart _ _ _ _ Ho i j C D c s u d t v); try done.
    pose proof (chunk_in_block _ _ _ _ _ _ _ _ Hti Hc Hxc). unfold off in *. change BlockSize with 2097152 in *. dlia. }
  split; [|done]. constructor; [|..].
  - exists B. apply (fl_inv_grow (ga_mem g)); try done. intros d Hd. destruct (D !! d) as [[t v]|] eqn:E; [|done].
    apply (Hsame d t v); [done|]. pose proof (ck_aligned _ _ _ _ _ _ _ (ti_chunk _ _ _ _ Ht _ _ _ E)). lia.
  - intros d t v x Hd Hx Hf. destruct (Hfree x Hf) as [?|?]; [by eapply Hown|]. specialize (Hin d t v x Hd Hx). lia.
  - done.
  - done.
  - intros d t q Hd Hq Hov. eapply Hbm; eauto.
Qed.

Lemma alloc_frame g l fl C sz g' l' fl' C' B' chunk bm :
  alloc_post g l fl C sz g' l' fl' C' B' chunk -> (forall c s u, C !! c = Some (s, u) -> 0 < s) ->
  frame g l C (with_bitmap g' bm) l'.
Proof.
  intros [Hga Hfl Hown Hch Hbm Htot Hend Hwas Hfree Hblk Hl] Hpos. split; [apply Hga|done|done|].
  intros x Hx Hf Hn. destruct (Hl x Hx Hf) as [?|[[s Hs] _]]; [|done|].
  - intros (c & s & Hc & Hxc). by eapply Hn.
  - exfalso. eapply Hn; [exact Hs|]. specialize (Hpos _ _ _ Hs). lia.
Qed.

Lemma dealloc_frame g l fl C c s g' fl' C' B' fc t :
  dealloc_post g l fl C c s g' fl' C' B' fc t -> C !! c = Some (s, true) ->
  (forall c s u, C !! c = Some (s, u) -> 0 < s) -> frame g l C g' l.
Proof.
  intros [Hga Hfl Hown Hsame Hfc Htot Hwf Hbm Hsub Hfree [Hreg Ht]] Hc Hpos.
  assert (Hend : heap_end (ga_mem g') = heap_end (ga_mem g)) by (unfold heap_end; by rewrite Hreg).
  assert (Hk0 : forall d u v, <[c := (s, false)]> C !! d = Some (u, v) -> exists v', C !! d = Some (u, v')).
  { intros d u v [[<- [= <- <-]]|[_ ?]]%lookup_insert_Some; eauto. }
  assert (Hl : forall x, (forall d t u, C !! d = Some (t, u) -> ~ d <= x < d + t) -> line_at (ga_mem g') x = line_at (ga_mem g) x).
  { intros x Hn. destruct (Ht x) as [?|[[u Hu] _]]; [|done|].
    - intros (d & u & Hd & Hx). destruct (Hk0 _ _ _ Hd) as [v Hd']. by eapply Hn.
    - exfalso. destruct (Hk0 _ _ _ Hu) as [v Hd']. eapply Hn; [exact Hd'|]. specialize (Hpos _ _ _ Hd'). lia. }
  split; [apply Hga|lia| |auto]. intros x Hx. left. by apply Hfree.
Qed.

(** An operation on list [i] that the others see as a [frame]. *)
Lemma oa_update g l o Cs i C fl g' l' fl' C' :
  oa_inv g l o Cs -> free_lists o !! i = Some fl -> Cs !! i = Some C ->
  frame g l C g' l' -> ga_inv g' l' -> cells_wf (ga_bitmap g') ->
  list_ok (ga_mem g') l' (ga_bitmap g') i fl' C' -> lock_of fl' = (0, 0) ->
  (forall j D d t q, i <> j -> Cs !! j = Some D -> D !! d = Some (t, true) -> 0 <= q -> overlaps d (d + t) q = true ->
     page_set (ga_bitmap g) q = true -> page_set (ga_bitmap g') q = true) ->
  (forall c s u j D d t v, i <> j -> C' !! c = Some (s, u) -> Cs !! j = Some D -> D !! d = Some (t, v) -> c - off c <> d - off d) ->
  oa_inv g' l' (set_list o (Z.of_nat i) fl') (<[i := C']> Cs).
Proof.
  intros Ho Hfl HC Hfr Hga Hwf Hok Hlk Hbm Hap.
  pose proof (lookup_lt_Some _ _ _ Hfl) as Hi. pose proof (lookup_lt_Some _ _ _ HC) as HiC.
  constructor; [done|done|..].
  - cbn [set_list total_cores free_lists]. rewrite !length_insert. apply Ho.
  - cbn [set_list free_lists]. rewrite Nat2Z.id. intros j flj D Hj HD.
    apply list_lookup_insert_Some in Hj as [(<- & <- & _)|[Hij Hj]].
    + rewrite list_lookup_insert_eq in HD by done. by injection HD as <-.
    + rewrite list_lookup_insert_ne in HD by done.
      eapply frame_list; [exact Ho|exact Hij|done|done|done|by eexists|done|]. eauto.
  - cbn [set_list free_lists]. rewrite Nat2Z.id. intros j flj [(_ & <- & _)|[_ Hj]]%list_lookup_insert_Some; [done|].
    by eapply Ho.
  - intros j k D E c s u d t v Hjk HD HE Hc Hd.
    apply list_lookup_insert_Some in HD as [(<- & <- & _)|[Hij HD]]; apply list_lookup_insert_Some in HE as [(<- & <- & _)|[Hik HE]].
    + done.
    + by eapply Hap.
    + intros E'. eapply (Hap d t v j D c s u); eauto.
    + by eapply (oi_apart _ _ _ _ Ho j k D E).
Qed.

Lemma list_pos g l o Cs i fl C : oa_inv g l o Cs -> free_lists o !! i = Some fl -> Cs !! i = Some C ->
  forall c s u, C !! c = Some (s, u) -> 0 < s.
Proof.
  intros Ho Hfl HC c s u Hc. destruct (oi_lists _ _ _ _ Ho i fl C Hfl HC) as [[B Hinv] _ _ _ _].
  by apply (ck_aligned _ _ _ _ _ _ _ (ti_chunk _ _ _ _ (fi_tiling _ _ _ _ Hinv) _ _ _ Hc)).
Qed.

(** The chunks in use after an operation. *)
Lemma used_alloc C C' chunk sz : alloc_chunks C C' chunk sz -> used_map C' = <[chunk := sz]> (used_map C) /\ used_map C !! chunk = None.
Proof.
  intros [Hnew Hkept Honly _]. assert (Hn : used_map C !! chunk = None).
  { destruct (used_map C !! chunk) as [t|] eqn:E; [|done]. apply used_map_lookup, Hkept in E as [_ ?]. done. }
  split; [|done]. apply map_eq. intros c. apply option_eq. intros s. rewrite used_map_lookup. split.
  - intros Hc. destruct (Honly c s Hc) as [->|Hc'].
    + rewrite Hnew in Hc. injection Hc as <-. apply lookup_insert_eq.
    + rewrite lookup_insert_ne; [by apply used_map_lookup|]. intros <-. by destruct (Hkept _ _ Hc').
  - intros [[<- <-]|[_ Hc]]%lookup_insert_Some; [done|]. by apply used_map_lookup, Hkept in Hc as [? _].
Qed.

Lemma used_dealloc C C' c s : C !! c = Some (s, true) -> same_free (<[c := (s, false)]> C) C' -> used_map C' = delete c (used_map C).
Proof.
  intros Hc [_ Hu]. apply map_eq. intros d. apply option_eq. intros t. rewrite used_map_lookup, Hu. split.
  - intros [[_ [= _ ?]]|[Hne Hd]]%lookup_insert_Some. rewrite lookup_delete_ne by done. by apply used_map_lookup.
  - intros [Hne Hd]%lookup_delete_Some. rewrite lookup_insert_ne by done. by apply used_map_lookup.
Qed.

(** ** Memory of live chunks *)

(** The chunk at [c] keeps its data: everything but its header. *)
Definition data_kept (m m' : mem) (c s : Z) : Prop :=
  data_eq (line_at m c) (line_at m' c) /\ forall x, c < x < c + s -> line_at m' x = line_at m x.

Lemma lines_data_kept m m' c s : (forall x, c <= x < c + s -> line_at m' x = line_at m x) -> 0 < s -> data_kept m m' c s.
Proof. intros Hl Hs. split; [unfold data_eq; by rewrite Hl by lia|]. intros x Hx. apply Hl. lia. Qed.

(** A chunk in use is apart from the free ones and from other headers. *)
Lemma live_line m id C ex c s x :
  tiling m id C ex -> C !! c = Some (s, true) -> c <= x < c + s ->
  ~ in_free C x /\ (is_Some (C !! x) -> x = c).
Proof.
  intros Ht Hc Hx. split.
  - intros (d & t & Hd & Hxd). assert (c <> d) by congruence.
    destruct (ti_disjoint _ _ _ _ Ht _ _ _ _ _ _ Hc Hd); [done|lia|lia].
  - intros [[t v] Hd]. destruct (decide (x = c)); [done|].
    destruct (ck_aligned _ _ _ _ _ _ _ (ti_chunk _ _ _ _ Ht _ _ _ Hd)) as (_ & _ & ?).
    destruct (ti_disjoint _ _ _ _ Ht _ _ _ _ _ _ Hc Hd); [done|lia|lia].
Qed.

Lemma alloc_data_kept g l fl C sz g' l' fl' C' B' chunk c s B :
  alloc_post g l fl C sz g' l' fl' C' B' chunk -> fl_inv (ga_mem g) fl C B -> owned (ga_mem g) l C ->
  C !! c = Some (s, true) -> data_kept (ga_mem g) (ga_mem g') c s.
Proof.
  intros [_ _ _ _ _ _ _ _ _ _ Hl] Hinv Hown Hc. pose proof (fi_tiling _ _ _ _ Hinv) as Ht.
  destruct (ti_chunk _ _ _ _ Ht _ _ _ Hc) as [(_ & _ & Hs) [_ Hh] Hb _ _ _ _ _ _].
  assert (H : forall x, c <= x < c + s -> line_at (ga_mem g') x = line_at (ga_mem g) x \/
     (x = c /\ data_eq (line_at (ga_mem g) x) (line_at (ga_mem g') x))).
  { intros x Hx. destruct (live_line _ _ _ _ _ _ _ Ht Hc Hx) as [Hnf Hx0].
    pose proof (chunk_in_block _ _ _ _ _ _ _ _ Ht Hc Hx).
    destruct (Hl x) as [?|[[t Hxt] ?]]; [lia|by eapply Hown|done|by left|right]. split; [|done]. apply Hx0. by eexists. }
  split.
  - destruct (H c) as [E|[_ ?]]; [lia| |done]. unfold data_eq. by rewrite E.
  - intros x Hx. destruct (H x) as [?|[? _]]; [lia|done|lia].
Qed.

Lemma dealloc_data_kept g l fl C B c s g' fl' C' B' fc t d u :
  dealloc_post g l fl C c s g' fl' C' B' fc t -> fl_inv (ga_mem g) fl C B -> C !! c = Some (s, true) ->
  C !! d = Some (u, true) -> d <> c -> data_kept (ga_mem g) (ga_mem g') d u.
Proof.
  intros Hp Hinv Hc Hd Hne. destruct (dp_touches _ _ _ _ _ _ _ _ _ _ _ _ Hp) as [_ Hl].
  destruct (mark_free _ _ _ _ _ _ Hinv Hc) as [[Ht0 _ _ _] _].
  assert (Hd0 : <[c := (s, false)]> C !! d = Some (u, true)) by (by rewrite lookup_insert_ne).
  destruct (ck_aligned _ _ _ _ _ _ _ (ti_chunk _ _ _ _ Ht0 _ _ _ Hd0)) as (_ & _ & Hu).
  assert (H : forall x, d <= x < d + u -> line_at (ga_mem g') x = line_at (ga_mem g) x \/
     (x = d /\ data_eq (line_at (ga_mem g) x) (line_at (ga_mem g') x))).
  { intros x Hx. destruct (live_line _ _ _ _ _ _ _ Ht0 Hd0 Hx) as [Hnf Hx0].
    destruct (Hl x Hnf) as [?|[[v Hv] ?]]; [by left|right]. split; [|done]. apply Hx0. by eexists. }
  split.
  - destruct (H d) as [E|[_ ?]]; [lia| |done]. unfold data_eq. by rewrite E.
  - intros x Hx. destruct (H x) as [?|[? _]]; [lia|done|lia].
Qed.

Lemma chunk_size_of_spec size0 :
  0 <= size0 <= BlockSize - 8 ->
  0 < chunk_size_of size0 <= BlockSize /\ chunk_size_of size0 mod 64 = 0 /\ size0 + 8 <= chunk_size_of size0.
Proof.
  intros Hs. unfold chunk_size_of, sizeof_chunk_header, Alignment. change BlockSize with 2097152 in *.
  rewrite u64_id by (unfold is_u64; lia). destruct (align_up_spec (size0 + 8) 0x40) as [Hm Hb]; [lia|lia|].
  split; [|split; [done|lia]]. change 0x40 with 64 in *. dlia.
Qed.

Lemma getOffset_range o self : 0 < total_cores o -> 0 <= getOffset o self < total_cores o.
Proof. intros. by apply Z.mod_pos_bound. Qed.

Section Operations.
Variable mmap_at : Z -> Z -> bool.
Hypothesis mmap_below : forall a s, mmap_at a s = true -> a + s <= BaseAddress + MaxMemorySize.

(** Pages of the new chunk, and of the live ones, are set. *)
Lemma alloc_list_ok g l fl C sz g' l' fl' C' B' chunk bm i :
  alloc_post g l fl C sz g' l' fl' C' B' chunk -> list_ok (ga_mem g) l (ga_bitmap g) i fl C -> 0 <= sz ->
  (forall q, 0 <= q -> page_set bm q = overlaps chunk (chunk + sz) q || page_set (ga_bitmap g) q) ->
  list_ok (ga_mem g') l' bm i (set_lock fl' 0 0) C'.
Proof.
  intros [Hga Hfl Hown Hch Hbm [Htot Hid] Hend Hwas Hfree Hblk Hl] [[B Hinv] Hown0 Hid0 Htot0 Hlive] Hsz Hq.
  destruct (used_alloc _ _ _ _ Hch) as [Eu En]. constructor.
  - exists B'. by apply fl_inv_lock.
  - done.
  - cbn [my_id set_lock]. congruence.
  - cbn [total_allocated set_lock]. pose proof (used_bound _ _ _ _ (fi_tiling _ _ _ _ Hfl)) as Hb.
    rewrite Htot, Htot0, Eu in *. rewrite bytes_insert in * by done. rewrite Z.add_comm. apply u64_id.
    unfold is_u64. change MaxMemorySize with 1099511627776 in Hb. lia.
  - intros c s q Hc Hq0 Hov. rewrite Hq by done. destruct (ac_only _ _ _ _ Hch c s Hc) as [->|Hold].
    + rewrite (ac_new _ _ _ _ Hch) in Hc. injection Hc as <-. by rewrite Hov.
    + rewrite (Hlive c s q) by done. apply orb_true_r.
Qed.

Lemma alloc_apart g l o Cs i fl C sz g' l' fl' C' B' chunk :
  oa_inv g l o Cs -> Cs !! i = Some C -> alloc_post g l fl C sz g' l' fl' C' B' chunk ->
  forall c s u j D d t v, i <> j -> C' !! c = Some (s, u) -> Cs !! j = Some D -> D !! d = Some (t, v) ->
    c - off c <> d - off d.
Proof.
  intros Ho HC Hp c s u j D d t v Hij Hc HD Hd E.
  destruct (ap_blocks _ _ _ _ _ _ _ _ _ _ _ Hp c s u Hc) as [(e & r & w & He & Eb)|Hfree].
  - eapply (oi_apart _ _ _ _ Ho i j C D e r w d t v); eauto. congruence.
  - destruct (lookup_lt_is_Some_2 (free_lists o) j) as [flj Hflj].
    { rewrite <- (proj2 (proj2 (oi_cores _ _ _ _ Ho))). by eapply lookup_lt_Some. }
    destruct (oi_lists _ _ _ _ Ho j flj D Hflj HD) as [[B Hinv] Hown _ _ _].
    destruct (ti_chunk _ _ _ _ (fi_tiling _ _ _ _ Hinv) _ _ _ Hd) as [_ [_ ?] _ _ _ _ _ _ _].
    assert (Hx : d - off d <= d - off d < d - off d + BlockSize) by (change BlockSize with 2097152; lia).
    destruct (Hfree (d - off d)) as [Hf|Hf]; [rewrite E; lia|by eapply Hown|change BlockSize with 2097152 in *; lia].
Qed.

Lemma alloc_result g l o Cs i fl C sz g' l' fl' C' B' chunk bm :
  oa_inv g l o Cs -> free_lists o !! i = Some fl -> Cs !! i = Some C ->
  alloc_post g l fl C sz g' l' fl' C' B' chunk -> 0 <= sz -> cells_wf bm ->
  (forall q, 0 <= q -> page_set bm q = overlaps chunk (chunk + sz) q || page_set (ga_bitmap g) q) ->
  oa_inv (with_bitmap g' bm) l' (set_list o (Z.of_nat i) (set_lock fl' 0 0)) (<[i := C']> Cs) /\
  forall j D c s, Cs !! j = Some D -> D !! c = Some (s, true) ->
    (chunk + sz <= c \/ c + s <= chunk) /\ data_kept (ga_mem g) (ga_mem g') c s.
Proof.
  intros Ho Hfl HC Hp Hsz Hwf Hq. pose proof (oi_lists _ _ _ _ Ho i fl C Hfl HC) as Hok.
  pose proof (alloc_frame _ _ _ _ _ _ _ _ _ _ _ bm Hp (list_pos _ _ _ _ _ _ _ Ho Hfl HC)) as Hfr.
  pose proof (alloc_apart _ _ _ _ _ _ _ _ _ _ _ _ _ _ Ho HC Hp) as Hap.
  pose proof (alloc_list_ok _ _ _ _ _ _ _ _ _ _ _ bm i Hp Hok Hsz Hq) as Hok'.
  assert (Hset : forall q, 0 <= q -> page_set (ga_bitmap g) q = true -> page_set bm q = true).
  { intros q Hq0 Hs. rewrite Hq, Hs by done. apply orb_true_r. }
  split; [eapply oa_update; eauto; apply Hp|]. intros j D c s HD Hc.
  pose proof (fi_tiling _ _ _ _ (ap_fl _ _ _ _ _ _ _ _ _ _ _ Hp)) as Ht1.
  pose proof (ac_new _ _ _ _ (ap_chunks _ _ _ _ _ _ _ _ _ _ _ Hp)) as Hnew.
  destruct (decide (i = j)) as [<-|Hij].
  - rewrite HC in HD. injection HD as <-. destruct Hok as [[B Hinv] Hown _ _ _].
    destruct (ac_kept _ _ _ _ (ap_chunks _ _ _ _ _ _ _ _ _ _ _ Hp) c s Hc) as [Hc' Hne].
    split; [|by eapply alloc_data_kept]. apply (ti_disjoint _ _ _ _ Ht1 chunk sz true c s true); auto.
  - destruct (lookup_lt_is_Some_2 (free_lists o) j) as [flj Hflj].
    { rewrite <- (proj2 (proj2 (oi_cores _ _ _ _ Ho))). by eapply lookup_lt_Some. }
    destruct (frame_list g l o Cs i j C D flj (with_bitmap g' bm) l' bm) as [Hj Hlines]; eauto.
    destruct (lo_inv _ _ _ _ _ _ Hj) as [Bj Hinvj]. pose proof (fi_tiling _ _ _ _ Hinvj) as Htj.
    split; [|apply lines_data_kept; [intros x; by apply (Hlines c s true)|
      by apply (ck_aligned _ _ _ _ _ _ _ (ti_chunk _ _ _ _ Htj _ _ _ Hc))]].
    pose proof (Hap _ _ _ j D c s true Hij Hnew HD Hc).
    pose proof (ck_block _ _ _ _ _ _ _ (ti_chunk _ _ _ _ Ht1 _ _ _ Hnew)).
    pose proof (ck_block _ _ _ _ _ _ _ (ti_chunk _ _ _ _ Htj _ _ _ Hc)).
    unfold off in *. change BlockSize with 2097152 in *. dlia.
Qed.

(** [ObjectAlloc::alloc] of up to one block: either the system refuses
    more memory (an [assert]), or the request is served by a chunk that
    overlaps no live chunk of any free list, the data of all live chunks is
    untouched, and the invariant of the allocator is kept: blocks tiled,
    lists apart, counters exact and every page of a live chunk set in the
    bitmap.  The hypothesis [cut_ok] excludes the stale header read shown in
    [stale_size_segfault]. *)
Lemma oa_alloc_spec g l o Cs self size0 C :
  let sz := chunk_size_of size0 in let i := Z.to_nat (getOffset o self) in
  oa_inv g l o Cs -> 0 <= size0 <= BlockSize - 8 -> Cs !! i = Some C ->
  (forall c s, C !! c = Some (s, false) -> sz <= s -> cut_ok (ga_mem g) c s sz = true) ->
  (oa_alloc mmap_at g o self size0 = AssertFail /\ mmap_at (heap_end (ga_mem g)) MinPoolSize = false) \/
  exists g' l' o' C' ptr, oa_alloc mmap_at g o self size0 = Ok (g', o', ptr) /\
    oa_inv g' l' o' (<[i := C']> Cs) /\ alloc_chunks C C' (ptr - 8) sz /\
    forall j D c s, Cs !! j = Some D -> D !! c = Some (s, true) ->
      (ptr - 8 + sz <= c \/ c + s <= ptr - 8) /\ data_kept (ga_mem g) (ga_mem g') c s.
Proof.
  intros sz i Ho Hsize HC Hcut. destruct (chunk_size_of_spec size0 Hsize) as (Hsz & Hmod & _). fold sz in Hsz, Hmod.
  destruct (oi_cores _ _ _ _ Ho) as (Hcores & Ecores & Elen).
  destruct (lookup_lt_is_Some_2 (free_lists o) i) as [fl Hfl]; [rewrite <- Elen; by eapply lookup_lt_Some|].
  destruct (oi_lists _ _ _ _ Ho i fl C Hfl HC) as [[B Hinv] Hown _ _ _].
  pose proof (oi_unlocked _ _ _ _ Ho i fl Hfl) as Hlk.
  unfold oa_alloc, get_list. fold sz. fold i. rewrite Hfl. cbn [res_bind].
  destruct (lock_cycle fl (set_lock fl 1 1) Hlk eq_refl) as [El _]. rewrite El. cbn [res_bind].
  rewrite (proj2 (Z.leb_le _ _)) by lia.
  destruct (fl_alloc_spec mmap_at mmap_below g l (set_lock fl 1 1) C B sz) as [[E Em]|(g1 & l1 & fl1 & C1 & B1 & chunk & E & Hp)];
    [apply Ho|by apply fl_inv_lock|done|lia|done|done|left; by rewrite E|right]. rewrite E. cbn [res_bind].
  pose proof (ac_new _ _ _ _ (ap_chunks _ _ _ _ _ _ _ _ _ _ _ Hp)) as Hnew.
  pose proof (fi_tiling _ _ _ _ (ap_fl _ _ _ _ _ _ _ _ _ _ _ Hp)) as Ht1.
  destruct (setBitmap_spec (ga_bitmap g1) chunk sz) as (bm & Ebm & Hwf & Hq).
  { rewrite (ap_bitmap _ _ _ _ _ _ _ _ _ _ _ Hp). apply Ho. }
  { destruct (ti_chunk _ _ _ _ Ht1 _ _ _ Hnew) as [_ [? ?] ? _ _ _ _ _ _]. pose proof (ho_max _ (ti_heap _ _ _ _ Ht1)).
    pose proof (off_range chunk). split; lia. }
  rewrite (ap_bitmap _ _ _ _ _ _ _ _ _ _ _ Hp) in Ebm, Hq |- *.
  rewrite Ebm. cbn [res_bind]. destruct (lock_cycle fl fl1 Hlk) as [_ Eun]; [by eapply fl_alloc_lock|].
  rewrite Eun. cbn [res_bind]. assert (Hp' : alloc_post g l fl C sz g1 l1 fl1 C1 B1 chunk) by (destruct Hp; by constructor).
  assert (Hi : Z.of_nat i = getOffset o self) by (apply Z2Nat.id, getOffset_range; done).
  exists (with_bitmap g1 bm), l1, (set_list o (getOffset o self) (set_lock fl1 0 0)), C1, (chunk + sizeof_chunk_header).
  split; [done|]. unfold sizeof_chunk_header. replace (chunk + 8 - 8) with chunk by lia. rewrite <- Hi.
  destruct (alloc_result g l o Cs i fl C sz g1 l1 fl1 C1 B1 chunk bm) as [? ?]; try done; [lia|].
  split; [done|]. split; [apply Hp'|done].
Qed.

End Operations.

(** A live chunk of any list does not touch the pages that are cleared. *)
Lemma cleared_not_live d t c s fc r q :
  page_cleared c s fc r q = true -> overlaps d (d + t) q = true -> BaseAddress <= d ->
  fc + r <= d \/ d + t <= fc -> False.
Proof.
  unfold page_cleared, overlaps, page_addr. rewrite !andb_true_iff, !Z.leb_le, !Z.ltb_lt.
  change BitmapGranularity with 4096. change BaseAddress with 1099511627776. intros. dlia.
Qed.

Lemma dealloc_list_ok g l fl C c s g' fl' C' B' fc t i :
  dealloc_post g l fl C c s g' fl' C' B' fc t -> list_ok (ga_mem g) l (ga_bitmap g) i fl C ->
  C !! c = Some (s, true) -> list_ok (ga_mem g') l (ga_bitmap g') i (set_lock fl' 0 0) C'.
Proof.
  intros [Hga Hfl Hown Hsame (Hfc & Hle1 & Hle2) [Htot Hid] Hwf Hbm Hsub Hfree Ht] [[B Hinv] Hown0 Hid0 Htot0 Hlive] Hc.
  constructor; [by exists B'; apply fl_inv_lock|done|cbn [my_id set_lock]; congruence|..].
  - cbn [total_allocated set_lock]. rewrite Htot, Htot0, (used_dealloc C C' c s Hc Hsame).
    rewrite (bytes_delete (used_map C) c s) by (by apply used_map_lookup). lia.
  - intros d u q Hd Hq Hov. rewrite Hbm by done. pose proof (fi_tiling _ _ _ _ Hfl) as Ht'.
    assert (fc <> d) by (intros ->; congruence).
    destruct (page_cleared c s fc t q) eqn:E.
    + exfalso. eapply cleared_not_live; [exact E|exact Hov| |].
      * by apply (ck_heap _ _ _ _ _ _ _ (ti_chunk _ _ _ _ Ht' _ _ _ Hd)).
      * by apply (ti_disjoint _ _ _ _ Ht' fc t false d u true).
    + apply (sf_used _ _ Hsame) in Hd as [[_ [= _ ?]]|[_ Hd]]%lookup_insert_Some. by apply (Hlive d u q).
Qed.

Lemma dealloc_result g l o Cs i fl C c s g' fl' C' B' fc t :
  oa_inv g l o Cs -> free_lists o !! i = Some fl -> Cs !! i = Some C -> C !! c = Some (s, true) ->
  dealloc_post g l fl C c s g' fl' C' B' fc t ->
  (forall d u v, C' !! d = Some (u, v) -> exists u' v', C !! d = Some (u', v')) ->
  oa_inv g' l (set_list o (Z.of_nat i) (set_lock fl' 0 0)) (<[i := C']> Cs) /\
  forall j D d u, Cs !! j = Some D -> D !! d = Some (u, true) -> (j, d) <> (i, c) -> data_kept (ga_mem g) (ga_mem g') d u.
Proof.
  intros Ho Hfl HC Hc Hp Hsub. pose proof (oi_lists _ _ _ _ Ho i fl C Hfl HC) as Hok.
  pose proof (dealloc_frame _ _ _ _ _ _ _ _ _ _ _ _ Hp Hc (list_pos _ _ _ _ _ _ _ Ho Hfl HC)) as Hfr.
  pose proof (dealloc_list_ok _ _ _ _ _ _ _ _ _ _ _ _ i Hp Hok Hc) as Hok'.
  assert (Hap : forall e r u j D d t0 v, i <> j -> C' !! e = Some (r, u) -> Cs !! j = Some D -> D !! d = Some (t0, v) -> e - off e <> d - off d).
  { intros e r u j D d t0 v Hij He HD Hd. destruct (Hsub e r u He) as (r' & u' & He'). by eapply (oi_apart _ _ _ _ Ho i j C D). }
  assert (Hset : forall j D d t0 q, i <> j -> Cs !! j = Some D -> D !! d = Some (t0, true) -> 0 <= q ->
     overlaps d (d + t0) q = true -> page_set (ga_bitmap g) q = true -> page_set (ga_bitmap g') q = true).
  { intros j D d u q Hij HD Hd Hq Hov Hs. rewrite (dp_bitmap _ _ _ _ _ _ _ _ _ _ _ _ Hp) by done.
    destruct (page_cleared c s fc t q) eqn:E; [exfalso|done].
    destruct (lookup_lt_is_Some_2 (free_lists o) j) as [flj Hflj].
    { rewrite <- (proj2 (proj2 (oi_cores _ _ _ _ Ho))). by eapply lookup_lt_Some. }
    destruct (oi_lists _ _ _ _ Ho j flj D Hflj HD) as [[Bj Hinvj] _ _ _ _].
    pose proof (ti_chunk _ _ _ _ (fi_tiling _ _ _ _ Hinvj) _ _ _ Hd) as Hdk.
    destruct (dp_chunk _ _ _ _ _ _ _ _ _ _ _ _ Hp) as (Hfc & _).
    pose proof (ti_chunk _ _ _ _ (fi_tiling _ _ _ _ (dp_fl _ _ _ _ _ _ _ _ _ _ _ _ Hp)) _ _ _ Hfc) as Hfk.
    eapply cleared_not_live; [exact E|exact Hov|apply (ck_heap _ _ _ _ _ _ _ Hdk)|].
    pose proof (Hap fc t false j D d u true Hij Hfc HD Hd). pose proof (ck_block _ _ _ _ _ _ _ Hdk). pose proof (ck_block _ _ _ _ _ _ _ Hfk).
    unfold off in *. change BlockSize with 2097152 in *. dlia. }
  split; [eapply oa_update; eauto; apply Hp|]. intros j D d u HD Hd Hne. destruct (decide (i = j)) as [<-|Hij].
  - rewrite HC in HD. injection HD as <-. destruct Hok as [[B Hinv] _ _ _ _].
    eapply dealloc_data_kept; [exact Hp|exact Hinv|exact Hc|exact Hd|]. intros ->. by apply Hne.
  - destruct (lookup_lt_is_Some_2 (free_lists o) j) as [flj Hflj].
    { rewrite <- (proj2 (proj2 (oi_cores _ _ _ _ Ho))). by eapply lookup_lt_Some. }
    destruct (frame_list g l o Cs i j C D flj g' l (ga_bitmap g')) as [Hj Hlines]; eauto.
    destruct (lo_inv _ _ _ _ _ _ Hj) as [Bj Hinvj].
    apply lines_data_kept; [intros x; by apply (Hlines d u true)|].
    by apply (ck_aligned _ _ _ _ _ _ _ (ti_chunk _ _ _ _ (fi_tiling _ _ _ _ Hinvj) _ _ _ Hd)).
Qed.

(** [ObjectAlloc::dealloc] of a live chunk, by any thread: the chunk goes
    back to the list it came from and is merged with its free neighbours,
    the invariant is kept (so no page of a chunk still in use is cleared
    from the bitmap), and the data of every other live chunk is untouched. *)
Lemma oa_dealloc_spec g l o Cs i C c s :
  oa_inv g l o Cs -> Cs !! i = Some C -> C !! c = Some (s, true) ->
  exists g' o' C', oa_dealloc g o (c + 8) = Ok (g', o') /\ oa_inv g' l o' (<[i := C']> Cs) /\
    same_free (<[c := (s, false)]> C) C' /\
    forall j D d t, Cs !! j = Some D -> D !! d = Some (t, true) -> (j, d) <> (i, c) ->
      data_kept (ga_mem g) (ga_mem g') d t.
Proof.
  intros Ho HC Hc. destruct (oi_cores _ _ _ _ Ho) as (Hcores & Ecores & Elen).
  destruct (lookup_lt_is_Some_2 (free_lists o) i) as [fl Hfl]; [rewrite <- Elen; by eapply lookup_lt_Some|].
  destruct (oi_lists _ _ _ _ Ho i fl C Hfl HC) as [[B Hinv] Hown Hid Htot Hlive].
  pose proof (oi_unlocked _ _ _ _ Ho i fl Hfl) as Hlk. pose proof (fi_tiling _ _ _ _ Hinv) as Ht.
  pose proof (tiling_pos _ _ _ _ _ _ _ Ht Hc) as Hpos.
  destruct (ti_chunk _ _ _ _ Ht _ _ _ Hc) as [(_ & _ & Hs) _ Hblk Es _ Eid _ _ _]. pose proof (off_range c).
  unfold oa_dealloc, sizeof_chunk_header. rewrite (proj2 (Z.eqb_neq (c + 8) 0)) by lia. replace (c + 8 - 8) with c by lia.
  rewrite hget_ok by (by eapply chunk_accessible). cbn [res_bind]. rewrite Eid, Es, Hid.
  unfold get_list. rewrite Nat2Z.id, Hfl. cbn [res_bind].
  destruct (lock_cycle fl (set_lock fl 1 1) Hlk eq_refl) as [El _]. rewrite El. cbn [res_bind].
  rewrite (proj2 (Z.leb_le s BlockSize)) by lia.
  destruct (fl_dealloc_spec g l (set_lock fl 1 1) C B c s) as (g1 & fl1 & C1 & B1 & fc & t & E & Hp);
    [apply Ho|by apply fl_inv_lock|done|apply Ho|done|..].
  { cbn [total_allocated set_lock]. rewrite Htot, (bytes_delete (used_map C) c s) by (by apply used_map_lookup).
    assert (0 <= bytes_total (delete c (used_map C))); [|lia].
    replace (delete c (used_map C)) with (used_map (<[c := (s, false)]> C)).
    - destruct (mark_free _ _ _ _ _ _ Hinv Hc) as [[Ht0 _ _ _] _]. by apply (used_bound _ _ _ _ Ht0).
    - apply (used_dealloc C _ c s Hc), same_free_refl. }
  rewrite E. cbn [res_bind]. destruct (lock_cycle fl fl1 Hlk) as [_ Eun]; [by eapply fl_dealloc_lock|].
  rewrite Eun. cbn [res_bind].
  assert (Hp' : dealloc_post g l fl C c s g1 fl1 C1 B1 fc t) by (destruct Hp; by constructor).
  destruct (dealloc_result g l o Cs i fl C c s g1 fl1 C1 B1 fc t) as [? ?]; try done.
  { intros d u v Hd. exact (dp_sub _ _ _ _ _ _ _ _ _ _ _ _ Hp' d u v Hd). }
  exists g1, (set_list o (Z.of_nat i) (set_lock fl1 0 0)), C1. split; [done|]. split; [done|]. split; [apply Hp'|done].
Qed.

(** Chunks in use by any two lists do not overlap. *)
Lemma live_disjoint g l o Cs i j C D c s d t :
  oa_inv g l o Cs -> Cs !! i = Some C -> Cs !! j = Some D -> C !! c = Some (s, true) -> D !! d = Some (t, true) ->
  (i, c) <> (j, d) -> c + s <= d \/ d + t <= c.
Proof.
  intros Ho HC HD Hc Hd Hne. destruct (oi_cores _ _ _ _ Ho) as (_ & _ & Elen).
  destruct (lookup_lt_is_Some_2 (free_lists o) i) as [fi Hfi]; [rewrite <- Elen; by eapply lookup_lt_Some|].
  destruct (lookup_lt_is_Some_2 (free_lists o) j) as [fj Hfj]; [rewrite <- Elen; by eapply lookup_lt_Some|].
  destruct (oi_lists _ _ _ _ Ho i fi C Hfi HC) as [[B Hi] _ _ _ _].
  destruct (oi_lists _ _ _ _ Ho j fj D Hfj HD) as [[B' Hj] _ _ _ _].
  pose proof (fi_tiling _ _ _ _ Hi) as Hti. pose proof (fi_tiling _ _ _ _ Hj) as Htj.
  destruct (decide (i = j)) as [<-|Hij].
  - rewrite HC in HD. injection HD as <-. apply (ti_disjoint _ _ _ _ Hti c s true d t true); [done|done|congruence].
  - pose proof (oi_apart _ _ _ _ Ho i j C D c s true d t true Hij HC HD Hc Hd).
    pose proof (ck_block _ _ _ _ _ _ _ (ti_chunk _ _ _ _ Hti _ _ _ Hc)).
    pose proof (ck_block _ _ _ _ _ _ _ (ti_chunk _ _ _ _ Htj _ _ _ Hd)).
    unfold off in *. change BlockSize with 2097152 in *. dlia.
Qed.

(** [C23] The allocator of a persistent object, for allocations of up to one
    block and frees, by any threads, one call at a time.  The invariant
    [oa_inv] holds of a new allocator; in-place [realloc] and allocations of
    more than a block leave its scope.  In a state that satisfies it: live
    chunks of all free lists are disjoint and all their pages are set in the
    bitmap; [dealloc] of any live chunk succeeds; and [alloc] of up to
    [BlockSize - 8] bytes either meets the [assert] on a refused [mmap] or
    returns a chunk that overlaps no live chunk, under a condition on the
    bytes of the free chunks: where findBestMatch splits a chunk it takes the
    flag [last] from the size that happens to stand there before the new
    header is written, and these bytes must give the flag that the rest of the
    chunk has ([cut_ok], explained there; [stale_size_segfault] shows a heap
    where they do not and the call crashes).  Both operations re-establish
    the invariant and keep the data of all other live chunks. *)
Theorem object_heap_safe mmap_at g l o Cs :
  (forall a s, mmap_at a s = true -> a + s <= BaseAddress + MaxMemorySize) -> oa_inv g l o Cs ->
  (forall i j C D c s d t, Cs !! i = Some C -> Cs !! j = Some D -> C !! c = Some (s, true) -> D !! d = Some (t, true) ->
     (i, c) <> (j, d) -> c + s <= d \/ d + t <= c) /\
  (forall i C c s q, Cs !! i = Some C -> C !! c = Some (s, true) -> 0 <= q -> overlaps c (c + s) q = true ->
     page_set (ga_bitmap g) q = true) /\
  (forall self size0 C, let sz := chunk_size_of size0 in let i := Z.to_nat (getOffset o self) in
     0 <= size0 <= BlockSize - 8 -> Cs !! i = Some C ->
     (forall c s, C !! c = Some (s, false) -> sz <= s -> cut_ok (ga_mem g) c s sz = true) ->
     (oa_alloc mmap_at g o self size0 = AssertFail /\ mmap_at (heap_end (ga_mem g)) MinPoolSize = false) \/
     exists g' l' o' C' ptr, oa_alloc mmap_at g o self size0 = Ok (g', o', ptr) /\
       oa_inv g' l' o' (<[i := C']> Cs) /\ alloc_chunks C C' (ptr - 8) sz /\
       forall j D c s, Cs !! j = Some D -> D !! c = Some (s, true) ->
         (ptr - 8 + sz <= c \/ c + s <= ptr - 8) /\ data_kept (ga_mem g) (ga_mem g') c s) /\
  (forall i C c s, Cs !! i = Some C -> C !! c = Some (s, true) ->
     exists g' o' C', oa_dealloc g o (c + 8) = Ok (g', o') /\ oa_inv g' l o' (<[i := C']> Cs) /\
       same_free (<[c := (s, false)]> C) C' /\
       forall j D d t, Cs !! j = Some D -> D !! d = Some (t, true) -> (j, d) <> (i, c) ->
         data_kept (ga_mem g) (ga_mem g') d t).
Proof.
  intros Hmmap Ho. split; [intros i j C D c s d t; by apply (live_disjoint g l o Cs)|]. split; [|split].
  - intros i C c s q HC Hc Hq Hov. destruct (oi_cores _ _ _ _ Ho) as (_ & _ & Elen).
    destruct (lookup_lt_is_Some_2 (free_lists o) i) as [fl Hfl]; [rewrite <- Elen; by eapply lookup_lt_Some|].
    by eapply (lo_live _ _ _ _ _ _ (oi_lists _ _ _ _ Ho i fl C Hfl HC)).
  - intros self size0 C sz i Hsize HC Hcut. by apply (oa_alloc_spec mmap_at Hmmap g l o Cs self size0 C).
  - intros i C c s HC Hc. by apply oa_dealloc_spec.
Qed.

(** ** The initial state *)

Lemma fl_init_inv m l bm i :
  heap_ok m -> Z.of_nat i < 2 ^ 16 -> list_ok m l bm i (fl_init (Z.of_nat i)) ∅ /\ lock_of (fl_init (Z.of_nat i)) = (0, 0).
Proof.
  intros Hh Hi. assert (Hid : u16 (Z.of_nat i) = Z.of_nat i) by (unfold u16; apply Z.mod_small; lia).
  split; [|done]. constructor; cbn [fl_init my_id total_allocated]; try done.
  exists (replicate 14 []). constructor; cbn [fl_init my_id]; [by split| | |].
  - constructor.
    + done.
    + intros b h k [-> _]%lookup_replicate [-> _]%lookup_replicate. by exists 0.
    + simpl. constructor.
    + intros b k a [-> _]%lookup_replicate Ha. by apply elem_of_nil in Ha.
  - intros a. simpl. split; [intros Ha; by apply elem_of_nil in Ha|by intros [s ?]].
  - rewrite Hid. lia.
Qed.

Lemma oa_init_inv g l uuid cores :
  ga_inv g l -> cells_wf (ga_bitmap g) -> 0 < cores <= 2 ^ 16 ->
  oa_inv g l (oa_init uuid cores) (replicate (Z.to_nat cores) ∅).
Proof.
  intros Hga Hwf Hc. assert (Hlist : forall i fl, free_lists (oa_init uuid cores) !! i = Some fl ->
     fl = fl_init (Z.of_nat i) /\ (i < Z.to_nat cores)%nat).
  { intros i fl. cbn [oa_init free_lists]. rewrite list_lookup_fmap. intros (k & Hk & ->)%fmap_Some.
    by apply lookup_seq in Hk as [-> ?]. }
  constructor; try done.
  - cbn [oa_init free_lists total_cores]. rewrite length_replicate, length_fmap, length_seq. lia.
  - intros i fl C [-> Hi]%Hlist [-> _]%lookup_replicate. apply fl_init_inv; [apply Hga|lia].
  - intros i fl [-> Hi]%Hlist. done.
  - intros i j C D c s u d t v _ [-> _]%lookup_replicate _ Hcs. done.
Qed.

(** ** Concrete runs *)

Definition demo_object : oalloc := oa_init (replicate 16 0) 2.

Lemma demo_inv : exists l, oa_inv demo_galloc l demo_object (replicate 2 ∅).
Proof.
  destruct (ga_reachable_inv demo_mmap demo_mmap_below (demo_galloc, [])) as [l [Hl _]]; [apply reach_init; by vm_compute|].
  exists l. apply (oa_init_inv demo_galloc l (replicate 16 0) 2); [done| |lia].
  assert (E : ga_bitmap demo_galloc = ∅) by (by vm_compute). rewrite E. apply empty_wf.
Qed.

Lemma object_heap_safe_witness :
  exists g o ptr g' o', oa_alloc demo_mmap demo_galloc demo_object 7 100 = Ok (g, o, ptr) /\ oa_dealloc g o ptr = Ok (g', o').
Proof.
  destruct demo_inv as [l Hl].
  destruct (object_heap_safe demo_mmap _ _ _ _ demo_mmap_below Hl) as (_ & _ & Ha & _).
  destruct (Ha 7 100 ∅) as [[_ E]|(g & l' & o & C & ptr & E & Hinv & Hac & _)].
  - change BlockSize with 2097152. lia.
  - by vm_compute.
  - intros c s Hc. done.
  - exfalso. revert E. by vm_compute.
  - destruct (object_heap_safe demo_mmap _ _ _ _ demo_mmap_below Hinv) as (_ & _ & _ & Hd).
    destruct (Hd (Z.to_nat (getOffset demo_object 7)) C (ptr - 8) (chunk_size_of 100)) as (g' & o' & C' & E' & _).
    + apply list_lookup_insert_eq. vm_compute. lia.
    + apply Hac.
    + exists g, o, ptr, g', o'. split; [done|]. rewrite <- E'. f_equal. lia.
Defined.

Definition demo_after (size0 : Z) : galloc * oalloc * Z :=
  res_get (demo_galloc, demo_object, 0) (oa_alloc demo_mmap demo_galloc demo_object 7 size0).

(** When a request takes the front of a free chunk, [findBestMatch]
    computes the flag [last] of the rest from the size field of a header that
    has not been written yet.  On a fresh heap, an allocation of 56 bytes
    followed by one of 1,900 KB makes the allocator write past the end of the
    heap. *)
Theorem stale_size_segfault :
  exists g o p, oa_alloc demo_mmap demo_galloc demo_object 7 56 = Ok (g, o, p) /\
    oa_alloc demo_mmap g o 7 (1900 * 1024 - 8) = Segfault.
Proof.
  exists (fst (fst (demo_after 56))), (snd (fst (demo_after 56))), (snd (demo_after 56)). split; vm_compute; exact eq_refl.
Qed.

(** [realloc] that extends a chunk in place leaves the byte counter of
    the free list as it was, so that freeing the chunk trips the assertion on
    the counter (compiled in unless the build is optimised): allocating 56
    bytes, growing them to 120 and freeing them aborts the program. *)
Theorem realloc_breaks_counter :
  exists g o p g' o', oa_alloc demo_mmap demo_galloc demo_object 7 56 = Ok (g, o, p) /\
    oa_realloc demo_mmap g o p 120 = Ok (g', o', p) /\ oa_dealloc g' o' p = AssertFail.
Proof.
  set (r := demo_after 56). set (s := res_get r (oa_realloc demo_mmap (fst (fst r)) (snd (fst r)) (snd r) 120)).
  exists (fst (fst r)), (snd (fst r)), (snd r), (fst (fst s)), (snd (fst s)). split; [|split]; vm_compute; exact eq_refl.
Qed.

(** ** Snapshots of the allocator *)

Lemma save_buckets_other bs nvm ptr a :
  a < ptr \/ ptr + 8 * Zlength bs <= a -> wget (save_buckets bs nvm ptr) a = wget nvm a.
Proof.
  revert nvm ptr. induction bs as [|b bs IH]; intros nvm ptr Ha; cbn [save_buckets]; [done|].
  rewrite Zlength_cons in Ha. pose proof (Zlength_nonneg bs). rewrite IH by lia.
  rewrite wget_wset. case_decide; [lia|done].
Qed.

Lemma load_save_buckets bs nvm ptr : load_buckets (length bs) (save_buckets bs nvm ptr) ptr = bs.
Proof.
  revert nvm ptr. induction bs as [|b bs IH]; intros nvm ptr; cbn [length load_buckets save_buckets]; [done|].
  rewrite save_buckets_other by lia. rewrite wget_wset, decide_True by done. by rewrite IH.
Qed.

Lemma load_buckets_ext n nvm nvm' ptr :
  (forall a, ptr <= a < ptr + 8 * Z.of_nat n -> wget nvm' a = wget nvm a) -> load_buckets n nvm' ptr = load_buckets n nvm ptr.
Proof.
  revert ptr. induction n as [|n IH]; intros ptr Ha; cbn [load_buckets]; [done|].
  rewrite Ha by lia. f_equal. apply IH. intros a ?. apply Ha. lia.
Qed.

Lemma fl_save_other fl nvm ptr a :
  length (buckets fl) = 14%nat -> a < ptr \/ ptr + fl_snapshotSize <= a -> wget (fl_save fl nvm ptr) a = wget nvm a.
Proof.
  intros Hb Ha. change fl_snapshotSize with 144 in Ha. unfold fl_save.
  rewrite save_buckets_other by (unfold Zlength; lia). rewrite !wget_wset. repeat (case_decide; [lia|]). done.
Qed.

(** Loading a free list gives back what was saved, with the lock of the
    object it is loaded into. *)
Lemma fl_load_save fl fl0 nvm ptr :
  length (buckets fl) = 14%nat -> 0 <= my_id fl < 2 ^ 16 ->
  fl_load fl0 (fl_save fl nvm ptr) ptr = set_lock fl (xlock fl0) (lock_holders fl0).
Proof.
  intros Hb Hid. unfold fl_load, fl_save. rewrite !save_buckets_other by (unfold Zlength; lia).
  rewrite !wget_wset. repeat (first [rewrite decide_True by lia|rewrite decide_False by lia]).
  change TOTAL_ALLOC_BUCKETS with 14%nat. rewrite <- Hb, load_save_buckets.
  unfold u16. by rewrite Z.mod_small.
Qed.

Lemma fl_load_ext fl0 nvm nvm' ptr :
  (forall a, ptr <= a < ptr + fl_snapshotSize -> wget nvm' a = wget nvm a) -> fl_load fl0 nvm' ptr = fl_load fl0 nvm ptr.
Proof.
  intros Ha. change fl_snapshotSize with 144 in Ha. unfold fl_load. rewrite !Ha by lia.
  rewrite (load_buckets_ext TOTAL_ALLOC_BUCKETS nvm nvm'); [done|]. intros a Hr. apply Ha. unfold TOTAL_ALLOC_BUCKETS in *. lia.
Qed.

Definition saveable (fl : flist) : Prop := length (buckets fl) = 14%nat /\ 0 <= my_id fl < 2 ^ 16 /\ lock_of fl = (0, 0).

Definition saveableb (fl : flist) : bool :=
  (length (buckets fl) =? 14)%nat && (0 <=? my_id fl) && (my_id fl <? 2 ^ 16) && (xlock fl =? 0) && (lock_holders fl =? 0).

Lemma saveableb_ok fl : saveableb fl = true -> saveable fl.
Proof.
  unfold saveableb. rewrite !andb_true_iff, Nat.eqb_eq, Z.leb_le, Z.ltb_lt, !Z.eqb_eq. intros [[[[? ?] ?] ?] ?].
  split; [done|]. split; [done|]. unfold lock_of. congruence.
Qed.

Lemma save_lists_other fls nvm ptr a :
  Forall saveable fls -> a < ptr \/ ptr + fl_snapshotSize * Zlength fls <= a -> wget (save_lists fls nvm ptr) a = wget nvm a.
Proof.
  intros Hf. revert nvm ptr. induction Hf as [|fl fls Hfl _ IH]; intros nvm ptr Ha; cbn [save_lists]; [done|].
  rewrite Zlength_cons in Ha. pose proof (Zlength_nonneg fls). change fl_snapshotSize with 144 in *.
  rewrite IH by lia. apply fl_save_other; [apply Hfl|]. change fl_snapshotSize with 144. lia.
Qed.

Lemma load_save_lists fls fls0 nvm ptr :
  Forall saveable fls -> length fls0 = length fls -> Forall (fun fl => lock_of fl = (0, 0)) fls0 ->
  load_lists fls0 (save_lists fls nvm ptr) ptr = fls.
Proof.
  intros Hf. revert fls0 nvm ptr. induction Hf as [|fl fls (Hb & Hid & Hlk) Hf IH]; intros fls0 nvm ptr Hlen H0;
    (destruct fls0 as [|fl0 fls0]; [try done|]); cbn [load_lists save_lists]; [done|].
  injection Hlen as Hlen. apply Forall_cons in H0 as [Hlk0 H0]. rewrite IH by done. f_equal.
  rewrite (fl_load_ext fl0 (fl_save fl nvm ptr)).
  - rewrite fl_load_save by done. unfold lock_of in *. injection Hlk0 as -> ->. injection Hlk as E1 E2.
    destruct fl; simpl in *; by subst.
  - intros a Ha. apply save_lists_other; [done|]. lia.
Qed.

(** An allocator that is built during recovery and loaded from a snapshot
    is the allocator that was saved: same free lists, same buckets, same
    counters; and saving touches only the [snapshotSize] bytes that the
    snapshot reserves for it. *)
Lemma oa_load_save o this nvm ptr :
  length (oa_id o) = 16%nat -> Forall is_byte (oa_id o) -> 0 <= total_cores o ->
  Z.to_nat (total_cores o) = length (free_lists o) -> Forall saveable (free_lists o) ->
  oa_load (oa_init (oa_id o) (total_cores o)) (oa_save o this nvm ptr) ptr = Ok o /\
  forall a, a < ptr \/ ptr + oa_snapshotSize o <= a -> wget (oa_save o this nvm ptr) a = wget nvm a.
Proof.
  intros Hlen Hbyte Hc0 Hc Hf. assert (Hz : Zlength (free_lists o) = total_cores o) by (unfold Zlength; lia).
  assert (Hlow : forall a, a < ptr + 32 -> wget (oa_save o this nvm ptr) a =
     wget (wset (wset (wset (wset nvm ptr (le_value (take 8 (oa_id o)))) (ptr + 8) (le_value (drop 8 (oa_id o))))
       (ptr + 16) (total_cores o)) (ptr + 24) this) a).
  { intros a Ha. unfold oa_save. by rewrite save_lists_other by (try done; lia). }
  split.
  - assert (Hu : snapshot_uuid (oa_save o this nvm ptr) ptr = oa_id o).
    { unfold snapshot_uuid. rewrite !Hlow by lia. rewrite !wget_wset.
      repeat (first [rewrite decide_True by lia|rewrite decide_False by lia]).
      assert (H8 : forall bs, length bs = 8%nat -> Forall is_byte bs -> le_bytes 8 (le_value bs) = bs).
      { intros bs <- Hbs. by apply le_bytes_le_value. }
      rewrite !H8; [apply take_drop|rewrite length_drop; lia|by apply Forall_drop|rewrite length_take; lia|by apply Forall_take]. }
    unfold oa_load. cbn [oa_init oa_id total_cores free_lists]. rewrite Hu, bool_decide_true by done.
    assert (E : wget (oa_save o this nvm ptr) (ptr + 16) = total_cores o).
    { rewrite Hlow by lia. rewrite !wget_wset. repeat (first [rewrite decide_True by lia|rewrite decide_False by lia]). done. }
    rewrite E, Z.eqb_refl. f_equal. unfold oa_save. rewrite load_save_lists; [by destruct o|done|..].
    + rewrite length_fmap, length_seq. lia.
    + apply Forall_forall. intros fl (k & -> & _)%list_elem_of_fmap. done.
  - intros a Ha. unfold oa_snapshotSize in Ha. unfold oa_save. rewrite save_lists_other by (try done; rewrite Hz; lia).
    change fl_snapshotSize with 144 in Ha. rewrite !wget_wset. repeat (case_decide; [lia|]). done.
Qed.
