(* ===== verification/Snapshot.v ===== *)
(** * Snapshots (snapshot.cpp)

    A snapshot is a file with a header, the allocation bitmap, the tables of
    the allocators and a copy of the heap.  The tables are written while the
    program stands still; the heap is write-protected and copied afterwards,
    by four threads and by the handler of the page faults that the running
    program takes.

    The file is a memory of 64-bit words (header and tables) and of cache
    lines (copy of the heap), both by byte offset. *)

From stdpp Require Import base numbers list gmap strings sorting.
From S2P Require Import Prelude Pmem Bitmap Heap GlobalAlloc FreeList ObjectAlloc Cores.

Definition SnapshotThreads : Z := 4.
Definition UsedHugePage : Z := 0xAAAAAAAAAAAAAAAA.
Definition FreeHugePage : Z := 0xFFFFFFFFFFFFFFFF.
Definition LockedHugePage : Z := 0xAFAFAFAFAFAFAFAF.
Definition SavedHugePage : Z := 0x0000000000000000.

(** ** The directory of snapshots *)

(** Stem and extension of a file name: the extension starts at the last dot,
    unless that is the first character. *)
Definition DOT : Z := 46.
Fixpoint split_last_dot (f : list Z) : option (list Z * list Z) :=
  match f with
  | [] => None
  | c :: f' =>
      match split_last_dot f' with
      | Some (s, e) => Some (c :: s, e)
      | None => if c =? DOT then Some ([], f) else None
      end
  end.
Definition stem_extension (f : list Z) : list Z * list Z :=
  match split_last_dot f with
  | Some ([], _) | None => (f, [])
  | Some (s, e) => (s, e)
  end.

(** [std::stoi]; an exception that nobody catches ends the program like a
    failed assertion. *)
Definition INT_MAX : Z := 2147483647.
Definition stoi (s : list Z) : res Z :=
  let s' := CpuInfo.skip_spaces s in
  let s' := match s' with c :: s'' => if (c =? 45) || (c =? 43) then s'' else s' | [] => s' end in
  assert! match s' with c :: _ => CpuInfo.is_digit c | [] => false end in
  let n := CpuInfo.strtol s in
  assert! (- INT_MAX - 1 <=? n) && (n <=? INT_MAX) in
  Ok n.

Definition snapshot_stem : list Z := CpuInfo.chars "snapshot".

Fixpoint existing_loop (dir : list (list Z)) : res (list Z) :=
  match dir with
  | [] => Ok []
  | f :: dir =>
      let '(stem, extension) := stem_extension f in
      if bool_decide (stem = snapshot_stem) then
        assert! negb (bool_decide (extension = [])) in
        let* id := stoi (drop 1 extension) in
        let* ids := existing_loop dir in
        Ok (u32 id :: ids)
      else existing_loop dir
  end.
Definition getExistingSnapshots (dir : list (list Z)) : res (list Z) :=
  let* ids := existing_loop dir in Ok (merge_sort Z.le ids).

Definition lastSnapshotID (dir : list (list Z)) : res Z :=
  let* ids := getExistingSnapshots dir in Ok (default 0 (list.last ids)).

Definition snapshot_path (id : Z) : list Z := snapshot_stem ++ DOT :: CpuInfoText.decimal id.

(** ** Layout *)

Record snapshot_header_t := Header {
  identifier : Z; object_count : Z; h_time : Z; h_size : Z;
  sync_latency : Z; async_latency : Z;
  bitmap_offset : Z; global_offset : Z; alloc_offset : Z; data_offset : Z
}.
Definition sizeof_header : Z := 64.

(** An entry of [NVManager::objects], in the order of the map. *)
Record sobject := SObject { so_last_commit : Z; so_tail : Z; so_ptr : Z; so_this : Z; so_alloc : oalloc }.

Definition object_size (o : sobject) : Z := 8 + 8 + 8 + oa_snapshotSize (so_alloc o).
Definition objects_size (objs : list sobject) : Z := foldr (fun o n => object_size o + n) 0 objs.

(** [prepareSnapshot]: the new directory and the header. *)
Definition prepareSnapshot (dir : list (list Z)) (objs : list sobject) : res (list (list Z) * snapshot_header_t) :=
  let snapshotSize := align_up (sizeof_header + bitmapSize + ga_snapshotSize + objects_size objs) 64 in
  let* last_id := lastSnapshotID dir in
  let poolPath := snapshot_path (u32 (last_id + 1)) in
  assert! negb (bool_decide (poolPath ∈ dir)) in
  let dir := dir ++ [poolPath] in
  let* id := lastSnapshotID dir in
  let global_offset := sizeof_header + bitmapSize in
  Ok (dir, Header id (Zlength objs) 0 snapshotSize 0 0 sizeof_header global_offset
             (global_offset + ga_snapshotSize) snapshotSize).

(** [extendSnapshot] *)
Definition extendSnapshot (h : snapshot_header_t) (allocatedBlocks : Z) : snapshot_header_t :=
  Header (identifier h) (object_count h) (h_time h) (h_size h + allocatedBlocks * BlockSize) (sync_latency h)
    (async_latency h) (bitmap_offset h) (global_offset h) (alloc_offset h) (data_offset h).

(** ** Tables *)

Fixpoint save_objects (objs : list sobject) (nvm : words) (ptr : Z) : words :=
  match objs with
  | [] => nvm
  | o :: objs =>
      let nvm := wset nvm ptr (so_last_commit o) in
      let nvm := wset nvm (ptr + 8) (so_tail o) in
      let nvm := wset nvm (ptr + 16) (so_ptr o) in
      let nvm := oa_save (so_alloc o) (so_this o) nvm (ptr + 24) in
      save_objects objs nvm (ptr + 24 + oa_snapshotSize (so_alloc o))
  end.

Definition saveAllocationTables (h : snapshot_header_t) (g : galloc) (objs : list sobject) (nvm : words) : res words :=
  let* nvm := saveBitmap (ga_bitmap g) nvm (bitmap_offset h) in
  let* nvm := ga_save g nvm (global_offset h) in
  Ok (save_objects objs nvm (alloc_offset h)).

(** ** Freezing the program *)

(** [blockNewTransactions] and [unblockNewTransactions] on the locks of the
    objects' logs. *)
Definition blockNewTransactions (objs : list Z) (locks : gset Z) : gset Z := locks ∪ list_to_set objs.
Definition unblockNewTransactions (objs : list Z) (locks : gset Z) : gset Z := locks ∖ list_to_set objs.

(** One pass of [waitForRunningTransactions] over the counters
    [tx_buffer[0]] it reads. *)
Definition areThereTransactionsRunning (counters : list Z) : bool := existsb (fun n => negb (n =? 0)) counters.

(** ** Copying blocks *)

(** Cache lines that [nonTemporalPageCopy] copies: sixteen times sixteen
    128-bit words, four lines a time. *)
Fixpoint copy_rounds (n : nat) (src : Z) : list Z :=
  match n with
  | O => []
  | S n => [src; src + 64; src + 128; src + 192] ++ copy_rounds n (src + 256)
  end.
Definition nonTemporalPageCopy (src : Z) : list Z := copy_rounds 16 src.
Definition nonTemporalCacheLineCopy (src : Z) : list Z := [src].

(** The loop over the 64 pages of a word of the bitmap. *)
Fixpoint word_lines (n : nat) (bit src : Z) : list Z :=
  match n with
  | O => []
  | S n =>
      (if negb (Z.land bit 1 =? 0) then nonTemporalPageCopy src else nonTemporalCacheLineCopy src) ++
      word_lines n (Z.shiftr bit 1) (src + BitmapGranularity)
  end.

(** The loop over the words of a block. *)
Fixpoint block_words (n : nat) (nvm : words) (bitmap src : Z) : list Z :=
  match n with
  | O => []
  | S n => word_lines 64 (wget nvm bitmap) src ++ block_words n nvm (bitmap + 8) (src + 64 * BitmapGranularity)
  end.

Definition PPBlk : Z := BlockSize / BitmapGranularity.
Definition BitmapStepSize : Z := PPBlk / 64.

(** The cache lines of block [b] that are saved and restored. *)
Definition block_lines (h : snapshot_header_t) (nvm : words) (b : Z) : list Z :=
  block_words (Z.to_nat BitmapStepSize) nvm (bitmap_offset h + 8 * (b * BitmapStepSize)) (BaseAddress + b * BlockSize).

(** Where the line at [x] is in the file. *)
Definition file_offset (h : snapshot_header_t) (x : Z) : Z := data_offset h + (x - BaseAddress).

(** ** Marking *)

Definition block_of (x : Z) : Z := (x - BaseAddress) / BlockSize.

(** [mprotect(addr, size, PROT_READ)] and [PROT_READ | PROT_WRITE] on whole
    blocks: the set of blocks that cannot be written. *)
Definition blocks_in (addr size0 : Z) : gset Z := list_to_set (seqZ (block_of addr) (size0 / BlockSize)).

(** [bitmap[0] > 0 || ... || bitmap[7] > 0] *)
Fixpoint any_word (n : nat) (nvm : words) (bitmap : Z) : bool :=
  match n with
  | O => false
  | S n => (0 <? wget nvm bitmap) || any_word n nvm (bitmap + 8)
  end.

Fixpoint mark_loop (n : nat) (b : Z) (nvm : words) (bitmap : Z) (context : gmap Z Z) (ro : gset Z) (addr regionSize : Z)
    : gmap Z Z * gset Z :=
  match n with
  | O => (context, if 0 <? regionSize then ro ∪ blocks_in addr regionSize else ro)
  | S n =>
      if any_word 8 nvm bitmap then
        mark_loop n (b + 1) nvm (bitmap + 64) (<[b := UsedHugePage]> context) ro addr (regionSize + BlockSize)
      else
        let context := <[b := FreeHugePage]> context in
        let ro := if 0 <? regionSize then ro ∪ blocks_in addr regionSize else ro in
        mark_loop n (b + 1) nvm (bitmap + 64) context ro (BaseAddress + (b + 1) * BlockSize) 0
  end.

Definition markPagesReadOnly (h : snapshot_header_t) (nvm : words) (allocatedBlocks : Z) : gmap Z Z * gset Z :=
  mark_loop (Z.to_nat allocatedBlocks) 0 nvm (bitmap_offset h) ∅ ∅ BaseAddress 0.

(** ** The asynchronous stage

    Shared by all threads: the heap, the blocks that are write-protected,
    the state of the blocks, and the data part of the file. *)
Record snap := Snap {
  sn_mem : gmap Z line;
  sn_ro : gset Z;
  sn_context : gmap Z Z;
  sn_data : gmap Z line
}.

Definition heap_line (m : gmap Z line) (x : Z) : line := default zero_line (m !! x).
Definition with_context (s : snap) (b v : Z) : snap := Snap (sn_mem s) (sn_ro s) (<[b := v]> (sn_context s)) (sn_data s).
Definition unprotect (s : snap) (b : Z) : snap := Snap (sn_mem s) (sn_ro s ∖ {[b]}) (sn_context s) (sn_data s).
Definition write_line (s : snap) (x : Z) (l : line) : snap := Snap (<[x := l]> (sn_mem s)) (sn_ro s) (sn_context s) (sn_data s).
Definition copy_line (h : snapshot_header_t) (s : snap) (x : Z) : snap :=
  Snap (sn_mem s) (sn_ro s) (sn_context s) (<[file_offset h x := heap_line (sn_mem s) x]> (sn_data s)).

(** [context] was filled with the character F. *)
Definition context_at (s : snap) (b : Z) : Z := default 0x4646464646464646 (sn_context s !! b).
Definition CAS (s : snap) (b old new : Z) : option snap :=
  if context_at s b =? old then Some (with_context s b new) else None.

(** A worker of [saveModifiedPages]: block [sp] of its share, about to claim
    it, copying the lines [todo], about to unprotect it, about to mark it
    saved, or done. *)
Inductive wpc :=
| WClaim (sp : Z)
| WCopy (sp : Z) (todo : list Z)
| WProtect (sp : Z)
| WSave (sp : Z)
| WDone.
Record worker := Worker { w_offset : Z; w_length : Z; w_pc : wpc }.
Definition at_pc (w : worker) (pc : wpc) : worker := Worker (w_offset w) (w_length w) pc.

Definition snapshotWorker (h : snapshot_header_t) (nvm : words) (s : snap) (w : worker) : res (snap * worker) :=
  match w_pc w with
  | WClaim sp =>
      if sp <? w_length w then
        let b := w_offset w + sp in
        match CAS s b UsedHugePage LockedHugePage with
        | Some s => Ok (s, at_pc w (WCopy sp (block_lines h nvm b)))
        | None => Ok (s, at_pc w (WClaim (sp + 1)))
        end
      else Ok (s, at_pc w WDone)
  | WCopy sp (x :: todo) => Ok (copy_line h s x, at_pc w (WCopy sp todo))
  | WCopy sp [] => Ok (s, at_pc w (WProtect sp))
  | WProtect sp => Ok (unprotect s (w_offset w + sp), at_pc w (WSave sp))
  | WSave sp =>
      match CAS s (w_offset w + sp) LockedHugePage SavedHugePage with
      | Some s => Ok (s, at_pc w (WClaim (sp + 1)))
      | None => AssertFail
      end
  | WDone => Ok (s, w)
  end.

(** A thread of the program: running, or in the handler of a write fault at
    [addr]. *)
Inductive apc :=
| ARun
| AFault (addr : Z)
| AWait (b : Z)
| ACopy (b : Z) (todo : list Z)
| AProtect (b : Z)
| ASave (b : Z).
#[global] Instance apc_eq_dec : EqDecision apc.
Proof. solve_decision. Defined.

(** [write] is the cache line that a running thread writes next. *)
Definition pageFaultHandler (h : snapshot_header_t) (nvm : words) (s : snap) (t : apc) (write : Z * line) : res (snap * apc) :=
  match t with
  | ARun =>
      let (x, l) := write in
      if bool_decide (block_of x ∈ sn_ro s) then Ok (s, AFault x) else Ok (write_line s x l, ARun)
  | AFault addr =>
      let alignedAddr := mask_down addr BlockSize in
      assert! (BaseAddress <=? alignedAddr) && (alignedAddr <? BaseAddress + MaxMemorySize) in
      let offset := Z.shiftr (alignedAddr - BaseAddress) 21 in
      match CAS s offset UsedHugePage LockedHugePage with
      | Some s => Ok (s, ACopy offset (block_lines h nvm offset))
      | None => Ok (s, AWait offset)
      end
  | AWait b => Ok (s, if context_at s b =? SavedHugePage then ARun else AWait b)
  | ACopy b (x :: todo) => Ok (copy_line h s x, ACopy b todo)
  | ACopy b [] => Ok (s, AProtect b)
  | AProtect b => Ok (unprotect s b, ASave b)
  | ASave b =>
      match CAS s b LockedHugePage SavedHugePage with
      | Some s => Ok (s, ARun)
      | None => AssertFail
      end
  end.

(** [saveModifiedPages]: equal shares for the workers. *)
Definition saveModifiedPages (allocatedBlocks : Z) : res (list worker) :=
  assert! allocatedBlocks mod SnapshotThreads =? 0 in
  let shareLength := allocatedBlocks / SnapshotThreads in
  Ok ((fun i => Worker (Z.of_nat i * shareLength) shareLength (WClaim 0)) <$> seq 0 (Z.to_nat SnapshotThreads)).

(** [waitForFaultHandlers] returns. *)
Definition no_fault_handlers (s : snap) (allocatedBlocks : Z) : bool :=
  forallb (fun b => negb (context_at s b =? LockedHugePage)) (seqZ 0 allocatedBlocks).

(** ** Loading a snapshot *)

Record snapshot_file := SnapshotFile { f_header : snapshot_header_t; f_words : words; f_data : gmap Z line }.

Definition restore_line (f : snapshot_file) (m : gmap Z line) (x : Z) : gmap Z line :=
  <[x := heap_line (f_data f) (file_offset (f_header f) x)]> m.

(** [bitmap[0] == 0 && ... && bitmap[7] == 0] *)
Fixpoint all_zero (n : nat) (nvm : words) (bitmap : Z) : bool :=
  match n with
  | O => true
  | S n => (wget nvm bitmap =? 0) && all_zero n nvm (bitmap + 8)
  end.

(** [restoreWorker(offset, length)] *)
Fixpoint restoreWorker (f : snapshot_file) (length : nat) (offset : Z) (m : gmap Z line) : gmap Z line :=
  match length with
  | O => m
  | S length =>
      let bitmap := bitmap_offset (f_header f) + 8 * (offset * BitmapStepSize) in
      let m :=
        if all_zero 8 (f_words f) bitmap then m
        else foldl (restore_line f) m (block_lines (f_header f) (f_words f) offset) in
      restoreWorker f length (offset + 1) m
  end.

(** The four threads of [load]; they write disjoint blocks. *)
Fixpoint restore_threads (n : nat) (f : snapshot_file) (shareLength threadIndex : Z) (m : gmap Z line) : gmap Z line :=
  match n with
  | O => m
  | S n => restore_threads n f shareLength (threadIndex + shareLength)
             (restoreWorker f (Z.to_nat shareLength) threadIndex m)
  end.

Section Load.
Context `{Uuid}.
Variable mmap_at : Z -> Z -> bool.
Variable cores : Z.   (* of get_cpu_info *)

(** What [load] gives to the manager and to the recovery context. *)
Record loaded := Loaded {
  ld_objects : gmap string Z;
  ld_last_commit : gmap string Z;
  ld_log_heads : gmap string Z
}.

(** The loop that restores the object allocators. *)
Fixpoint load_objects (n : nat) (nvm : words) (objCkpt : Z) (t : atable) (l : loaded) : res (atable * loaded) :=
  match n with
  | O => Ok (t, l)
  | S n =>
      let lastCommit := wget nvm objCkpt in
      let logTail := wget nvm (objCkpt + 8) in
      let objectPtr := wget nvm (objCkpt + 16) in
      let objCkpt := objCkpt + 24 in
      let uuid := snapshot_uuid nvm objCkpt in
      let allocPtr := wget nvm (objCkpt + 24) in
      let* alloc := oa_load (oa_init uuid cores) nvm objCkpt in
      let t := ATable (<[allocPtr := alloc]> (at_objects t)) (allocators t) (allocatorsMemory t) (sizeof_ObjectAlloc t) in
      let* t := restoreAllocator t allocPtr in
      let k := uuid_unparse uuid in
      let l := Loaded (map_insert (ld_objects l) k objectPtr) (map_insert (ld_last_commit l) k lastCommit)
                 (map_insert (ld_log_heads l) k logTail) in
      load_objects n nvm (objCkpt + oa_snapshotSize alloc) t l
  end.

(** The loop that gives free blocks back to the global allocator. *)
Fixpoint release_objects (n : nat) (nvm : words) (objCkpt : Z) (g : galloc) (t : atable) : res (galloc * atable) :=
  match n with
  | O => Ok (g, t)
  | S n =>
      let objCkpt := objCkpt + 24 in
      match findAllocator t (snapshot_uuid nvm objCkpt) with
      | None => AssertFail
      | Some p =>
          match at_objects t !! p with
          | None => Segfault
          | Some alloc =>
              let* (g, alloc) := oa_releaseFreeBlocks g alloc in
              release_objects n nvm (objCkpt + oa_snapshotSize alloc) g
                (ATable (<[p := alloc]> (at_objects t)) (allocators t) (allocatorsMemory t) (sizeof_ObjectAlloc t))
          end
      end
  end.

(** [for (auto it = manager->objects.begin(); ...)]: the commit number that
    each object has replayed. *)
Definition last_played (l : loaded) : res (gmap string Z) :=
  assert! bool_decide (dom (ld_objects l) ⊆ dom (ld_last_commit l)) in
  Ok (filter (fun kv => kv.1 ∈ dom (ld_objects l)) (ld_last_commit l)).

Definition load (f : snapshot_file) (t : atable) (l : loaded) : res (galloc * atable * loaded * gmap string Z) :=
  let h := f_header f in
  let* g := ga_load mmap_at (f_words f) (global_offset h) (bitmap_offset h) in
  let* blocks := allocatedBlocks g in
  let lines' := restore_threads (Z.to_nat SnapshotThreads) f (blocks / SnapshotThreads) 0 (lines (ga_mem g)) in
  let g := with_mem g (Mem lines' (mapped_regions (ga_mem g))) in
  let n := Z.to_nat (object_count h) in
  let* (t, l) := load_objects n (f_words f) (alloc_offset h) t l in
  let* (g, t) := release_objects n (f_words f) (alloc_offset h) g t in
  let* played := last_played l in
  Ok (g, t, l, played).

End Load.
