(* ===== verification/SnapshotProofs.v ===== *)
(** * Correctness of snapshots

    First the lines of a block that are copied and the blocks that are
    marked; then the invariant of the asynchronous stage, which holds
    whatever the interleaving of the snapshot threads with the writes and
    the page faults of the program; then restoring. *)

From stdpp Require Import base numbers list gmap strings sorting.
From S2P Require Import Prelude Pmem Bitmap Heap GlobalAlloc GlobalAllocProofs FreeList ObjectAlloc Snapshot.

(** ** The lines of a block *)

Lemma elem_copy_rounds n src x :
  x ∈ copy_rounds n src <-> exists k, 0 <= k < 4 * Z.of_nat n /\ x = src + 64 * k.
Proof.
  revert src. induction n as [|n IH]; intros src; cbn [copy_rounds].
  - split; [intros Hx; by apply elem_of_nil in Hx|]. intros (k & Hk & _). lia.
  - cbn [app]. rewrite !elem_of_cons, IH. split.
    + intros [->|[->|[->|[->|(k & Hk & ->)]]]]; [exists 0|exists 1|exists 2|exists 3|exists (k + 4)]; lia.
    + intros (k & Hk & ->). destruct (Z.lt_ge_cases k 4); [|do 4 right; exists (k - 4); lia].
      assert (k = 0 \/ k = 1 \/ k = 2 \/ k = 3) as [->|[->|[->| ->]]] by lia; lia.
Qed.

(** The lines of one page: all, or only the first. *)
Definition page_lines (bit : bool) (src : Z) : list Z :=
  if bit then nonTemporalPageCopy src else nonTemporalCacheLineCopy src.

Lemma elem_page_lines bit src x :
  x ∈ page_lines bit src <-> exists k, 0 <= k < 64 /\ x = src + 64 * k /\ (bit = false -> k = 0).
Proof.
  unfold page_lines, nonTemporalPageCopy, nonTemporalCacheLineCopy. destruct bit.
  - rewrite elem_copy_rounds. change (4 * Z.of_nat 16) with 64. naive_solver.
  - rewrite list_elem_of_singleton. split; [intros ->; exists 0; lia|]. intros (k & _ & -> & Hk). rewrite Hk by done. lia.
Qed.

Lemma land_1_odd bit : negb (Z.land bit 1 =? 0) = Z.odd bit.
Proof.
  rewrite <- Z.bit0_odd. change 1 with (Z.ones 1) at 1. rewrite Z.land_ones by lia. change (2 ^ 1) with 2.
  rewrite Z.bit0_eqb. destruct (Z.eqb_spec (bit mod 2) 0), (Z.eqb_spec (bit mod 2) 1); try done; exfalso; dlia.
Qed.

Lemma elem_word_lines n bit src x :
  x ∈ word_lines n bit src <->
  exists p, 0 <= p < Z.of_nat n /\ x ∈ page_lines (Z.testbit bit p) (src + BitmapGranularity * p).
Proof.
  revert bit src. induction n as [|n IH]; intros bit src; cbn [word_lines].
  - split; [intros Hx; by apply elem_of_nil in Hx|]. intros (p & Hp & _). lia.
  - rewrite elem_of_app, IH, land_1_odd. fold (page_lines (Z.odd bit) src). change BitmapGranularity with 4096. split.
    + intros [Hx|(p & Hp & Hx)].
      * exists 0. split; [lia|]. rewrite Z.bit0_odd, Z.mul_0_r, Z.add_0_r. done.
      * exists (p + 1). split; [lia|]. rewrite Z.shiftr_spec in Hx by lia.
        by replace (src + 4096 * (p + 1)) with (src + 4096 + 4096 * p) by lia.
    + intros (p & Hp & Hx). destruct (Z.eq_dec p 0) as [->|].
      * left. by rewrite Z.bit0_odd, Z.mul_0_r, Z.add_0_r in Hx.
      * right. exists (p - 1). split; [lia|]. rewrite Z.shiftr_spec by lia.
        replace (src + 4096 + 4096 * (p - 1)) with (src + 4096 * p) by lia. by replace (p - 1 + 1) with p by lia.
Qed.

(** Page [p] of the heap is set in the bitmap stored at [bitmap]. *)
Definition page_bit (nvm : words) (bitmap p : Z) : bool := Z.testbit (wget nvm (bitmap + 8 * (p / 64))) (p mod 64).

Lemma elem_block_words n nvm bitmap src x :
  x ∈ block_words n nvm bitmap src <->
  exists p, 0 <= p < 64 * Z.of_nat n /\ x ∈ page_lines (page_bit nvm bitmap p) (src + BitmapGranularity * p).
Proof.
  revert bitmap src. induction n as [|n IH]; intros bitmap src; cbn [block_words].
  - split; [intros Hx; by apply elem_of_nil in Hx|]. intros (p & Hp & _). lia.
  - rewrite elem_of_app, IH, elem_word_lines. unfold page_bit. change BitmapGranularity with 4096. split.
    + intros [(p & Hp & Hx)|(p & Hp & Hx)].
      * exists p. split; [lia|]. rewrite Z.div_small, Z.mod_small by lia. by rewrite Z.mul_0_r, Z.add_0_r.
      * exists (p + 64). split; [lia|].
        replace ((p + 64) / 64) with (p / 64 + 1) by dlia. replace ((p + 64) mod 64) with (p mod 64) by dlia.
        replace (bitmap + 8 * (p / 64 + 1)) with (bitmap + 8 + 8 * (p / 64)) by lia.
        by replace (src + 4096 * (p + 64)) with (src + 64 * 4096 + 4096 * p) by lia.
    + intros (p & Hp & Hx). destruct (Z.lt_ge_cases p 64).
      * left. exists p. split; [lia|]. by rewrite Z.div_small, Z.mod_small, Z.mul_0_r, Z.add_0_r in Hx by lia.
      * right. exists (p - 64). split; [lia|].
        replace ((p - 64) / 64) with (p / 64 - 1) by dlia. replace ((p - 64) mod 64) with (p mod 64) by dlia.
        replace (bitmap + 8 + 8 * (p / 64 - 1)) with (bitmap + 8 * (p / 64)) by lia.
        by replace (src + 64 * 4096 + 4096 * (p - 64)) with (src + 4096 * p) by lia.
Qed.

(** The lines of block [b]: of every page its first line, of the pages of
    the bitmap all lines. *)
Lemma elem_block_lines h nvm b x :
  0 <= b ->
  x ∈ block_lines h nvm b <->
  exists q k, b * 512 <= q < b * 512 + 512 /\ 0 <= k < 64 /\ x = BaseAddress + BitmapGranularity * q + 64 * k /\
    (page_bit nvm (bitmap_offset h) q = false -> k = 0).
Proof.
  intros Hb. unfold block_lines. change BitmapStepSize with 8. change (Z.to_nat 8) with 8%nat.
  rewrite elem_block_words. change (64 * Z.of_nat 8) with 512. change BlockSize with 2097152. change BitmapGranularity with 4096.
  assert (Ebit : forall p, 0 <= p < 512 -> page_bit nvm (bitmap_offset h + 8 * (b * 8)) p = page_bit nvm (bitmap_offset h) (b * 512 + p)).
  { intros p Hp. unfold page_bit. replace ((b * 512 + p) / 64) with (b * 8 + p / 64) by dlia.
    replace ((b * 512 + p) mod 64) with (p mod 64) by dlia. do 2 f_equal. lia. }
  split.
  - intros (p & Hp & Hx). rewrite Ebit in Hx by lia. apply elem_page_lines in Hx as (k & Hk & -> & Hf).
    exists (b * 512 + p), k. split; [lia|]. split; [lia|]. split; [lia|done].
  - intros (q & k & Hq & Hk & -> & Hf). exists (q - b * 512). split; [lia|]. rewrite Ebit by lia.
    replace (b * 512 + (q - b * 512)) with q by lia. apply elem_page_lines. exists k. split; [lia|]. split; [lia|done].
Qed.

Lemma block_lines_block h nvm b x : 0 <= b -> x ∈ block_lines h nvm b -> block_of x = b.
Proof.
  intros Hb (q & k & Hq & Hk & -> & _)%elem_block_lines; [|done]. unfold block_of.
  change BitmapGranularity with 4096. change BlockSize with 2097152. dlia.
Qed.

(** ** Marking *)

Lemma any_word_ext n nvm a : any_word n nvm a = true <-> exists k, 0 <= k < Z.of_nat n /\ 0 < wget nvm (a + 8 * k).
Proof.
  revert a. induction n as [|n IH]; intros a; cbn [any_word].
  - split; [done|]. intros (k & Hk & _). lia.
  - rewrite orb_true_iff, Z.ltb_lt, IH. split.
    + intros [Ha|(k & Hk & Ha)]; [exists 0|exists (k + 1)]; (split; [lia|]).
      * by rewrite Z.mul_0_r, Z.add_0_r.
      * by replace (a + 8 * (k + 1)) with (a + 8 + 8 * k) by lia.
    + intros (k & Hk & Ha). destruct (Z.eq_dec k 0) as [->|]; [left|right; exists (k - 1); split; [lia|]].
      * by rewrite Z.mul_0_r, Z.add_0_r in Ha.
      * by replace (a + 8 + 8 * (k - 1)) with (a + 8 * k) by lia.
Qed.

(** Block [b] has a page in the bitmap. *)
Definition block_used (h : snapshot_header_t) (nvm : words) (b : Z) : bool := any_word 8 nvm (bitmap_offset h + 64 * b).

Lemma elem_blocks_in b k c :
  0 <= k -> c ∈ blocks_in (BaseAddress + b * BlockSize) (k * BlockSize) <-> b <= c < b + k.
Proof.
  intros Hk. unfold blocks_in, block_of. rewrite elem_of_list_to_set, elem_of_seqZ.
  replace (BaseAddress + b * BlockSize - BaseAddress) with (b * BlockSize) by lia. by rewrite !Z.div_mul by done.
Qed.

(** The loop with [k] used blocks pending before block [b]. *)
Lemma mark_loop_spec n b k h nvm ctx ro :
  0 <= k <= b ->
  exists ctx' ro', mark_loop n b nvm (bitmap_offset h + 64 * b) ctx ro (BaseAddress + (b - k) * BlockSize) (k * BlockSize) = (ctx', ro') /\
    (forall c, ctx' !! c = if bool_decide (b <= c < b + Z.of_nat n)
                           then Some (if block_used h nvm c then UsedHugePage else FreeHugePage) else ctx !! c) /\
    (forall c, c ∈ ro' <-> c ∈ ro \/ b - k <= c < b \/ (b <= c < b + Z.of_nat n /\ block_used h nvm c = true)).
Proof.
  assert (Hflush : forall k b ro c, 0 <= k <= b -> c ∈ (if 0 <? k * BlockSize then ro ∪ blocks_in (BaseAddress + (b - k) * BlockSize) (k * BlockSize) else ro) <-> c ∈ ro \/ b - k <= c < b).
  { intros k0 b0 ro0 c Hk0. change BlockSize with 2097152 at 1. destruct (Z.ltb_spec 0 (k0 * 2097152)).
    - rewrite elem_of_union, elem_blocks_in by lia. intuition lia.
    - intuition lia. }
  revert b k ctx ro. induction n as [|n IH]; intros b k ctx ro Hk; cbn [mark_loop].
  - eexists _, _. split; [done|]. split.
    + intros c. rewrite bool_decide_false by lia. done.
    + intros c. rewrite Hflush by done. intuition lia.
  - fold (block_used h nvm b).
    replace (bitmap_offset h + 64 * b + 64) with (bitmap_offset h + 64 * (b + 1)) by lia.
    destruct (block_used h nvm b) eqn:Eu.
    + destruct (IH (b + 1) (k + 1) (<[b := UsedHugePage]> ctx) ro ltac:(lia)) as (ctx' & ro' & E & Hc & Hr).
      replace (b + 1 - (k + 1)) with (b - k) in E by lia. rewrite Z.mul_add_distr_r, Z.mul_1_l in E. rewrite E.
      eexists _, _. split; [done|]. split.
      * intros c. rewrite Hc. destruct (Z.eq_dec b c) as [<-|Hne].
        -- rewrite bool_decide_false, bool_decide_true, Eu by lia. apply lookup_insert_eq.
        -- rewrite lookup_insert_ne by done. erewrite bool_decide_ext; [done|lia].
      * intros c. rewrite Hr. destruct (Z.eq_dec b c) as [<-|Hne]; [rewrite Eu; intuition lia|intuition lia].
    + set (ro1 := if 0 <? k * BlockSize then _ else ro).
      destruct (IH (b + 1) 0 (<[b := FreeHugePage]> ctx) ro1 ltac:(lia)) as (ctx' & ro' & E & Hc & Hr).
      rewrite Z.sub_0_r, Z.mul_0_l in E. rewrite E. eexists _, _. split; [done|]. split.
      * intros c. rewrite Hc. destruct (Z.eq_dec b c) as [<-|Hne].
        -- rewrite bool_decide_false, bool_decide_true, Eu by lia. apply lookup_insert_eq.
        -- rewrite lookup_insert_ne by done. erewrite bool_decide_ext; [done|lia].
      * intros c. rewrite Hr. unfold ro1. rewrite Hflush by done. destruct (Z.eq_dec b c) as [<-|Hne]; [|intuition lia].
        rewrite Eu. intuition lia || congruence.
Qed.

Lemma mark_spec h nvm blocks ctx ro :
  0 <= blocks -> markPagesReadOnly h nvm blocks = (ctx, ro) ->
  (forall c, ctx !! c = if bool_decide (0 <= c < blocks) then Some (if block_used h nvm c then UsedHugePage else FreeHugePage) else None) /\
  (forall c, c ∈ ro <-> 0 <= c < blocks /\ block_used h nvm c = true).
Proof.
  intros Hb E. unfold markPagesReadOnly in E.
  destruct (mark_loop_spec (Z.to_nat blocks) 0 0 h nvm ∅ ∅ ltac:(lia)) as (ctx' & ro' & E' & Hc & Hr).
  rewrite Z.mul_0_r, Z.sub_0_r, Z.mul_0_l, !Z.add_0_r in E'. rewrite E in E'. injection E' as <- <-.
  rewrite Z2Nat.id in * by done. split.
  - intros c. by rewrite Hc.
  - intros c. rewrite Hr. split; [|auto]. intros [?|[?|?]]; [done|lia|done].
Qed.

(** ** The asynchronous stage *)

Section Async.
Variables (h : snapshot_header_t) (nvm : words) (blocks : Z) (m0 : gmap Z line).
Notation lines_of := (block_lines h nvm).

(** A thread that owns a block, and how far it is. *)
Inductive phase := PCopy (todo : list Z) | PProtect | PSave.

Definition hold_w (w : worker) : option (Z * phase) :=
  match w_pc w with
  | WClaim _ | WDone => None
  | WCopy sp todo => Some (w_offset w + sp, PCopy todo)
  | WProtect sp => Some (w_offset w + sp, PProtect)
  | WSave sp => Some (w_offset w + sp, PSave)
  end.
Definition hold_a (t : apc) : option (Z * phase) :=
  match t with
  | ARun | AFault _ | AWait _ => None
  | ACopy b todo => Some (b, PCopy todo)
  | AProtect b => Some (b, PProtect)
  | ASave b => Some (b, PSave)
  end.

Definition used0 (b : Z) : Prop := 0 <= b < blocks /\ block_used h nvm b = true.
Definition agrees (s : snap) (b : Z) : Prop := forall x, block_of x = b -> heap_line (sn_mem s) x = heap_line m0 x.
Definition saved (s : snap) (x : Z) : Prop := sn_data s !! file_offset h x = Some (heap_line m0 x).

Definition phase_ok (s : snap) (b : Z) (p : phase) : Prop :=
  match p with
  | PCopy todo => b ∈ sn_ro s /\ agrees s b /\ (forall x, x ∈ todo -> x ∈ lines_of b) /\
                  (forall x, x ∈ lines_of b -> x ∈ todo \/ saved s x)
  | PProtect => forall x, x ∈ lines_of b -> saved s x
  | PSave => b ∉ sn_ro s /\ forall x, x ∈ lines_of b -> saved s x
  end.

(** [H] lists what the threads own. *)
Record hinv (s : snap) (H : list (option (Z * phase))) : Prop := {
  hi_once : forall i j b p q, H !! i = Some (Some (b, p)) -> H !! j = Some (Some (b, q)) -> i = j;
  hi_locked : forall b, context_at s b = LockedHugePage <-> exists i p, H !! i = Some (Some (b, p));
  hi_phase : forall i b p, H !! i = Some (Some (b, p)) -> used0 b /\ phase_ok s b p;
  hi_used : forall b, context_at s b = UsedHugePage -> used0 b /\ b ∈ sn_ro s /\ agrees s b;
  hi_saved : forall b, used0 b -> context_at s b = SavedHugePage -> forall x, x ∈ lines_of b -> saved s x;
  hi_values : forall b, used0 b -> context_at s b = UsedHugePage \/ context_at s b = LockedHugePage \/ context_at s b = SavedHugePage;
  hi_ro : forall b, b ∈ sn_ro s -> used0 b /\ context_at s b <> SavedHugePage
}.

Lemma context_at_with s b v c : context_at (with_context s b v) c = if decide (b = c) then v else context_at s c.
Proof. unfold context_at, with_context. cbn [sn_context]. rewrite lookup_insert. by case_decide. Qed.

Lemma values_distinct :
  UsedHugePage <> LockedHugePage /\ UsedHugePage <> SavedHugePage /\ LockedHugePage <> SavedHugePage /\ FreeHugePage <> LockedHugePage
  /\ FreeHugePage <> UsedHugePage.
Proof. done. Qed.

(** The value of [context] for a block only changes from used to locked to
    saved. *)
Lemma CAS_ok s b old new s' : CAS s b old new = Some s' -> context_at s b = old /\ s' = with_context s b new.
Proof. unfold CAS. destruct (Z.eqb_spec (context_at s b) old); naive_solver. Qed.

Lemma CAS_fail s b old new : CAS s b old new = None -> context_at s b <> old.
Proof. unfold CAS. destruct (Z.eqb_spec (context_at s b) old); naive_solver. Qed.

Lemma claim_inv s H i b :
  hinv s H -> H !! i = Some None -> context_at s b = UsedHugePage ->
  hinv (with_context s b LockedHugePage) (<[i := Some (b, PCopy (lines_of b))]> H).
Proof.
  intros [H1 H2 H3 H4 H5 H6 H7] Hi Hb. destruct values_distinct as (V1 & V2 & V3 & V4 & V5).
  pose proof (lookup_lt_Some _ _ _ Hi) as Hlt. destruct (H4 b Hb) as (Hu & Hro & Hag).
  assert (Hno : forall j p, H !! j <> Some (Some (b, p))).
  { intros j p Hj. assert (context_at s b = LockedHugePage) by (apply H2; eauto). congruence. }
  constructor.
  - intros j k c p q Hj Hk. apply list_lookup_insert_Some in Hj as [(<- & [= <- <-] & _)|[Hij Hj]];
      apply list_lookup_insert_Some in Hk as [(<- & Ek & _)|[Hik Hk]]; [done| |injection Ek as <- <-|by eapply H1].
    + by destruct (Hno k q).
    + by destruct (Hno j p).
  - intros c. rewrite context_at_with. case_decide as E.
    + subst c. split; [|done]. intros _. exists i, (PCopy (lines_of b)). by apply list_lookup_insert_eq.
    + rewrite H2. split; intros (j & p & Hj).
      * exists j, p. rewrite list_lookup_insert_ne; [done|]. intros <-. congruence.
      * apply list_lookup_insert_Some in Hj as [(<- & [= <- <-] & _)|[_ Hj]]; [done|eauto].
  - intros j c p [(<- & [= <- <-] & _)|[_ Hj]]%list_lookup_insert_Some.
    + split; [done|]. split; [done|]. split; [done|]. split; auto.
    + by destruct (H3 j c p Hj) as [? Hp].
  - intros c. rewrite context_at_with. case_decide; [done|apply H4].
  - intros c Hc. rewrite context_at_with. case_decide; [done|by apply H5].
  - intros c Hc. rewrite context_at_with. case_decide; auto.
  - intros c Hc. destruct (H7 c Hc). rewrite context_at_with. split; [done|]. case_decide; congruence.
Qed.

(** A thread moves on with the block it owns. *)
Lemma hold_inv s s' H i b p p' :
  hinv s H -> H !! i = Some (Some (b, p)) -> sn_mem s' = sn_mem s -> sn_context s' = sn_context s ->
  phase_ok s' b p' -> (forall x, saved s x -> saved s' x) ->
  (forall c, c ∈ sn_ro s' -> c ∈ sn_ro s) -> (forall c, c <> b -> c ∈ sn_ro s -> c ∈ sn_ro s') ->
  hinv s' (<[i := Some (b, p')]> H).
Proof.
  intros [H1 H2 H3 H4 H5 H6 H7] Hi Em Ec Hp Hsv Hro Hro'. pose proof (lookup_lt_Some _ _ _ Hi) as Hlt.
  assert (Ectx : forall c, context_at s' c = context_at s c) by (intros c; unfold context_at; by rewrite Ec).
  assert (Hag : forall c, agrees s c -> agrees s' c) by (intros c Hc x Hx; rewrite Em; by apply Hc).
  assert (Hother : forall j c q, H !! j = Some (Some (c, q)) -> j <> i -> c <> b).
  { intros j c q Hj Hji ->. by apply Hji, (H1 j i b q p). }
  assert (Hphase : forall c q, c <> b -> phase_ok s c q -> phase_ok s' c q).
  { intros c [todo| |] Hcb; cbn [phase_ok]; [intros (? & ? & ? & Hx)|intros Hx|intros (? & Hx)].
    - split; [auto|]. split; [auto|]. split; [done|]. intros x Hin. destruct (Hx x Hin); auto.
    - intros x Hin. auto.
    - split; [intros ?; auto|]. intros x Hin. auto. }
  constructor.
  - intros j k c q r Hj Hk. apply list_lookup_insert_Some in Hj as [(<- & [= <- <-] & _)|[Hij Hj]];
      apply list_lookup_insert_Some in Hk as [(<- & Ek & _)|[Hik Hk]]; [done| |injection Ek as <- <-|by eapply H1].
    + by eapply H1.
    + by eapply H1.
  - intros c. rewrite Ectx, H2. split; intros (j & q & Hj).
    + destruct (decide (i = j)) as [<-|Hne].
      * rewrite Hi in Hj. injection Hj as <- <-. exists i, p'. by apply list_lookup_insert_eq.
      * exists j, q. by rewrite list_lookup_insert_ne.
    + apply list_lookup_insert_Some in Hj as [(<- & [= <- <-] & _)|[_ Hj]]; eauto.
  - intros j c q [(<- & [= <- <-] & _)|[Hij Hj]]%list_lookup_insert_Some.
    + split; [by apply (H3 i b p)|done].
    + destruct (H3 j c q Hj) as [Hu Hq]. split; [done|]. apply Hphase; [by eapply Hother|done].
  - intros c Hc. rewrite Ectx in Hc. destruct (H4 c Hc) as (? & ? & ?). split; [done|]. split; [|auto].
    apply Hro'; [|done]. intros ->. destruct values_distinct as (V1 & _).
    assert (context_at s b = LockedHugePage) by (apply H2; eauto). congruence.
  - intros c Hc Hs x Hx. rewrite Ectx in Hs. by eapply Hsv, H5.
  - intros c Hc. rewrite Ectx. auto.
  - intros c Hc. rewrite Ectx. auto.
Qed.

Lemma copy_inv s H i b x todo :
  hinv s H -> H !! i = Some (Some (b, PCopy (x :: todo))) ->
  hinv (copy_line h s x) (<[i := Some (b, PCopy todo)]> H).
Proof.
  intros Hinv Hi. destruct (hi_phase _ _ Hinv i b _ Hi) as [Hu (Hro & Hag & Hin & Hsv)].
  assert (Hx : block_of x = b) by (apply (block_lines_block h nvm); [apply Hu|apply Hin; left]).
  assert (Hsaved : saved (copy_line h s x) x) by (unfold saved, copy_line; cbn [sn_data]; rewrite lookup_insert_eq; by rewrite Hag).
  assert (Hkeep : forall y, saved s y -> saved (copy_line h s x) y).
  { intros y Hy. destruct (decide (x = y)) as [<-|Hne]; [done|]. unfold saved, copy_line. cbn [sn_data].
    rewrite lookup_insert_ne; [done|]. unfold file_offset. lia. }
  eapply hold_inv; [exact Hinv|exact Hi|done|done| |exact Hkeep|done|done].
  split; [done|]. split; [done|]. split; [intros y Hy; apply Hin; by right|].
  intros y Hy. destruct (Hsv y Hy) as [[->|?]%elem_of_cons|?]; auto.
Qed.

Lemma copied_inv s H i b : hinv s H -> H !! i = Some (Some (b, PCopy [])) -> hinv s (<[i := Some (b, PProtect)]> H).
Proof.
  intros Hinv Hi. destruct (hi_phase _ _ Hinv i b _ Hi) as [Hu (Hro & Hag & Hin & Hsv)].
  eapply hold_inv; [exact Hinv|exact Hi|done|done| |done|done|done]. intros x Hx. destruct (Hsv x Hx) as [Hn|]; [by apply elem_of_nil in Hn|done].
Qed.

Lemma unprotect_inv s H i b :
  hinv s H -> H !! i = Some (Some (b, PProtect)) -> hinv (unprotect s b) (<[i := Some (b, PSave)]> H).
Proof.
  intros Hinv Hi. destruct (hi_phase _ _ Hinv i b _ Hi) as [Hu Hsv].
  eapply hold_inv; [exact Hinv|exact Hi|done|done| |done|..]; cbn [unprotect sn_ro].
  - split; [|exact Hsv]. cbn [unprotect sn_ro]. rewrite not_elem_of_difference. right. by apply elem_of_singleton.
  - intros c [? _]%elem_of_difference. done.
  - intros c Hc Hro. apply elem_of_difference. split; [done|]. by rewrite elem_of_singleton.
Qed.

Lemma save_inv s H i b :
  hinv s H -> H !! i = Some (Some (b, PSave)) ->
  context_at s b = LockedHugePage /\ hinv (with_context s b SavedHugePage) (<[i := None]> H).
Proof.
  intros [H1 H2 H3 H4 H5 H6 H7] Hi. destruct (H3 i b _ Hi) as [Hu [Hnro Hsv]].
  pose proof (lookup_lt_Some _ _ _ Hi) as Hlt. destruct values_distinct as (V1 & V2 & V3 & V4 & V5).
  split; [apply H2; eauto|].
  assert (Hsub : forall j c q, <[i := None]> H !! j = Some (Some (c, q)) -> H !! j = Some (Some (c, q)) /\ c <> b).
  { intros j c q [(_ & ? & _)|[Hij Hj]]%list_lookup_insert_Some; [done|]. split; [done|]. intros ->. by apply Hij, (H1 i j b PSave q). }
  constructor.
  - intros j k c q r [Hj _]%Hsub [Hk _]%Hsub. by eapply H1.
  - intros c. rewrite context_at_with. case_decide as E.
    + subst c. split; [by intros ?|]. by intros (j & q & [_ ?]%Hsub).
    + rewrite H2. split; intros (j & q & Hj); [|exists j, q; by apply Hsub].
      exists j, q. rewrite list_lookup_insert_ne; [done|]. intros <-. congruence.
  - intros j c q [Hj _]%Hsub. by apply (H3 j c q).
  - intros c. rewrite context_at_with. case_decide; [by intros ?|apply H4].
  - intros c Hc. rewrite context_at_with. case_decide as E; [subst c; intros _; exact Hsv|by apply H5].
  - intros c Hc. rewrite context_at_with. case_decide; auto.
  - intros c Hc. destruct (H7 c Hc). rewrite context_at_with. split; [done|]. case_decide as E; [subst c; by destruct Hnro|done].
Qed.

Lemma write_inv s H x l : hinv s H -> block_of x ∉ sn_ro s -> hinv (write_line s x l) H.
Proof.
  intros [H1 H2 H3 H4 H5 H6 H7] Hx.
  assert (Hag : forall c, c ∈ sn_ro s -> agrees s c -> agrees (write_line s x l) c).
  { intros c Hc Ha y Hy. unfold write_line, heap_line. cbn [sn_mem]. rewrite lookup_insert_ne; [by apply Ha|].
    intros <-. by rewrite Hy in Hx. }
  constructor; try done.
  - intros i b p Hi. destruct (H3 i b p Hi) as [Hu Hp]. split; [done|]. destruct p; [|done|done].
    destruct Hp as (Hro & Ha & Hp). split; [done|]. split; [by apply Hag|done].
  - intros b Hb. destruct (H4 b Hb) as (? & ? & ?). split; [done|]. split; [done|by apply Hag].
Qed.

(** ** Interleavings *)

Record config := Config { cf_snap : snap; cf_workers : list worker; cf_apps : list apc }.

Definition in_heap_line (x : Z) : Prop := BaseAddress <= x < BaseAddress + MaxMemorySize.

(** A step of any snapshot thread or of any thread of the program. *)
Inductive sstep : config -> config -> Prop :=
| step_worker s ws ts i w s' w' :
    ws !! i = Some w -> snapshotWorker h nvm s w = Ok (s', w') ->
    sstep (Config s ws ts) (Config s' (<[i := w']> ws) ts)
| step_program s ws ts j t write s' t' :
    ts !! j = Some t -> in_heap_line (fst write) -> pageFaultHandler h nvm s t write = Ok (s', t') ->
    sstep (Config s ws ts) (Config s' ws (<[j := t']> ts)).

Definition holders (c : config) : list (option (Z * phase)) := (hold_w <$> cf_workers c) ++ (hold_a <$> cf_apps c).

(** Blocks a worker has passed. *)
Definition passed (w : worker) : Z :=
  match w_pc w with
  | WClaim sp | WCopy sp _ | WProtect sp | WSave sp => sp
  | WDone => w_length w
  end.

Definition app_ok (s : snap) (t : apc) : Prop :=
  match t with
  | AFault addr => in_heap_line addr /\ used0 (block_of addr)
  | AWait b => used0 b /\ context_at s b <> UsedHugePage
  | _ => True
  end.

Record cinv (c : config) : Prop := {
  ci_hinv : hinv (cf_snap c) (holders c);
  ci_passed : forall i w b, cf_workers c !! i = Some w -> w_offset w <= b < w_offset w + passed w ->
    context_at (cf_snap c) b <> UsedHugePage;
  ci_apps : forall j t, cf_apps c !! j = Some t -> app_ok (cf_snap c) t
}.

Lemma fault_block addr :
  in_heap_line addr ->
  BaseAddress <= mask_down addr BlockSize < BaseAddress + MaxMemorySize /\
  Z.shiftr (mask_down addr BlockSize - BaseAddress) 21 = block_of addr.
Proof.
  unfold in_heap_line, block_of. intros Hr. change BlockSize with (2 ^ 21) at 1 2 3.
  rewrite mask_down_spec by (change MaxMemorySize with 1099511627776 in *; change BaseAddress with 1099511627776 in *; lia).
  rewrite Z.shiftr_div_pow2 by lia. change BlockSize with 2097152. change (2 ^ 21) with 2097152.
  change MaxMemorySize with 1099511627776 in *. change BaseAddress with 1099511627776 in *. dlia.
Qed.

Definition still_claimed (s s' : snap) : Prop := forall b, context_at s b <> UsedHugePage -> context_at s' b <> UsedHugePage.

Lemma still_claimed_with s b v : v <> UsedHugePage -> still_claimed s (with_context s b v).
Proof. intros Hv c Hc. rewrite context_at_with. by case_decide. Qed.

Lemma still_claimed_same s s' : sn_context s' = sn_context s -> still_claimed s s'.
Proof. intros E c. unfold context_at. by rewrite E. Qed.

Lemma app_ok_still s s' t : still_claimed s s' -> app_ok s t -> app_ok s' t.
Proof. intros Hs. destruct t; try done. intros [? ?]. split; [done|by apply Hs]. Qed.

(** A worker's step keeps the invariant if it does for what it owns. *)
Lemma worker_move s ws ts i w s' w' :
  cinv (Config s ws ts) -> ws !! i = Some w -> w_offset w' = w_offset w -> still_claimed s s' ->
  hinv s' (<[i := hold_w w']> (holders (Config s ws ts))) ->
  (forall b, w_offset w + passed w <= b < w_offset w + passed w' -> context_at s' b <> UsedHugePage) ->
  cinv (Config s' (<[i := w']> ws) ts).
Proof.
  intros [Hh Hp Ha] Hi Eo Hst Hh' Hnew. pose proof (lookup_lt_Some _ _ _ Hi) as Hlt. constructor; cbn [cf_snap cf_workers cf_apps].
  - unfold holders in *. cbn [cf_workers cf_apps] in *. rewrite list_fmap_insert, insert_app_l in * by (by rewrite ?length_fmap).
    done.
  - intros k v b [(<- & <- & _)|[_ Hk]]%list_lookup_insert_Some Hb; [|by eapply Hst, Hp].
    rewrite Eo in Hb. destruct (Z.lt_ge_cases b (w_offset w + passed w)); [|apply Hnew; lia].
    apply Hst. eapply (Hp i w); [done|lia].
  - intros j t Hj. eapply app_ok_still; [done|]. by eapply Ha.
Qed.

Lemma program_move s ws ts j t s' t' :
  cinv (Config s ws ts) -> ts !! j = Some t -> still_claimed s s' ->
  hinv s' (<[(length ws + j)%nat := hold_a t']> (holders (Config s ws ts))) -> app_ok s' t' ->
  cinv (Config s' ws (<[j := t']> ts)).
Proof.
  intros [Hh Hp Ha] Hj Hst Hh' Hok. constructor; cbn [cf_snap cf_workers cf_apps].
  - unfold holders in *. cbn [cf_workers cf_apps] in *. rewrite list_fmap_insert.
    rewrite <- (length_fmap hold_w ws) in Hh'. by rewrite insert_app_r in Hh'.
  - intros k v b Hk Hb. by eapply Hst, Hp.
  - intros k u [(<- & <- & _)|[_ Hk]]%list_lookup_insert_Some; [done|]. eapply app_ok_still; [done|]. by eapply Ha.
Qed.

Lemma holders_worker s ws ts i w : ws !! i = Some w -> holders (Config s ws ts) !! i = Some (hold_w w).
Proof.
  intros Hi. unfold holders. cbn [cf_workers cf_apps]. apply lookup_app_l_Some. by rewrite list_lookup_fmap, Hi.
Qed.

Lemma holders_program s ws ts j t : ts !! j = Some t -> holders (Config s ws ts) !! (length ws + j)%nat = Some (hold_a t).
Proof.
  intros Hj. unfold holders. cbn [cf_workers cf_apps]. rewrite lookup_app_r by (rewrite length_fmap; lia).
  rewrite length_fmap, list_lookup_fmap. replace (length ws + j - length ws)%nat with j by lia. by rewrite Hj.
Qed.

(** Replacing what a thread owns by the same keeps the list. *)
Lemma holders_same (H : list (option (Z * phase))) k o : H !! k = Some o -> <[k := o]> H = H.
Proof. apply list_insert_id. Qed.

Lemma worker_inv s ws ts i w :
  cinv (Config s ws ts) -> ws !! i = Some w ->
  exists s' w', snapshotWorker h nvm s w = Ok (s', w') /\ cinv (Config s' (<[i := w']> ws) ts).
Proof.
  intros Hc Hi. pose proof (holders_worker s ws ts i w Hi) as Hh. pose proof (ci_hinv _ Hc) as Hinv. cbn [cf_snap] in Hinv.
  unfold snapshotWorker, at_pc. destruct w as [o n [sp|sp [|x todo]|sp|sp|]]; cbn [w_pc w_offset w_length at_pc hold_w] in *.
  - destruct (Z.ltb_spec sp n) as [Hlt|Hge].
    + destruct (CAS s (o + sp) UsedHugePage LockedHugePage) as [s'|] eqn:E.
      * apply CAS_ok in E as [E ->]. eexists _, _. split; [done|]. eapply worker_move; [done|done|done| | |].
        -- by apply still_claimed_with.
        -- cbn [hold_w w_pc w_offset]. by apply claim_inv.
        -- cbn [passed w_pc w_offset]. intros; lia.
      * apply CAS_fail in E. eexists _, _. split; [done|]. eapply worker_move; [done|done|done|by apply still_claimed_same| |].
        -- cbn [hold_w w_pc]. by rewrite holders_same.
        -- cbn [passed w_pc w_offset]. intros b Hb. by replace b with (o + sp) by lia.
    + eexists _, _. split; [done|]. eapply worker_move; [done|done|done|by apply still_claimed_same| |].
      * cbn [hold_w w_pc]. by rewrite holders_same.
      * cbn [passed w_pc w_offset w_length]. intros; lia.
  - eexists _, _. split; [done|]. eapply worker_move; [done|done|done|by apply still_claimed_same| |cbn [passed w_pc w_offset]; intros; lia].
    by apply copied_inv.
  - eexists _, _. split; [done|]. eapply worker_move; [done|done|done|by apply still_claimed_same| |cbn [passed w_pc w_offset]; intros; lia].
    by apply copy_inv.
  - eexists _, _. split; [done|]. eapply worker_move; [done|done|done|by apply still_claimed_same| |cbn [passed w_pc w_offset]; intros; lia].
    by apply unprotect_inv.
  - destruct (save_inv _ _ _ _ Hinv Hh) as [El Hs]. unfold CAS. rewrite El, Z.eqb_refl. eexists _, _. split; [done|].
    eapply worker_move; [done|done|done|by apply still_claimed_with|done|]. cbn [passed w_pc w_offset].
    intros b Hb. replace b with (o + sp) by lia. rewrite context_at_with, decide_True by done. done.
  - eexists _, _. split; [done|]. eapply worker_move; [done|done|done|by apply still_claimed_same| |cbn [passed w_pc w_offset]; intros; lia].
    cbn [hold_w w_pc]. by rewrite holders_same.
Qed.

Lemma program_inv s ws ts j t write :
  cinv (Config s ws ts) -> ts !! j = Some t -> in_heap_line (fst write) ->
  exists s' t', pageFaultHandler h nvm s t write = Ok (s', t') /\ cinv (Config s' ws (<[j := t']> ts)).
Proof.
  intros Hc Hj Hw. pose proof (holders_program s ws ts j t Hj) as Hh. pose proof (ci_hinv _ Hc) as Hinv. cbn [cf_snap] in Hinv.
  pose proof (ci_apps _ Hc j t Hj) as Hok. cbn [cf_snap] in Hok.
  unfold pageFaultHandler. destruct t as [|addr|b|b [|x todo]|b|b]; cbn [hold_a] in *.
  - destruct write as [x l]. cbn [fst] in Hw. case_bool_decide as Hx.
    + eexists _, _. split; [done|]. eapply program_move; [done|done|by apply still_claimed_same| |].
      * cbn [hold_a]. by rewrite holders_same.
      * split; [done|]. by apply (hi_ro _ _ Hinv).
    + eexists _, _. split; [done|]. eapply program_move; [done|done|by apply still_claimed_same| |done].
      cbn [hold_a]. rewrite holders_same by done. by apply write_inv.
  - destruct Hok as [Hin Hu]. destruct (fault_block addr Hin) as [Hr Eb].
    rewrite (proj2 (Z.leb_le _ _)), (proj2 (Z.ltb_lt _ _)) by lia. cbn [andb]. rewrite Eb.
    destruct (CAS s (block_of addr) UsedHugePage LockedHugePage) as [s'|] eqn:E.
    + apply CAS_ok in E as [E ->]. eexists _, _. split; [done|]. eapply program_move; [done|done|by apply still_claimed_with| |done].
      cbn [hold_a]. by apply claim_inv.
    + apply CAS_fail in E. eexists _, _. split; [done|]. eapply program_move; [done|done|by apply still_claimed_same| |done].
      cbn [hold_a]. by rewrite holders_same.
  - eexists _, _. split; [done|]. eapply program_move; [done|done|by apply still_claimed_same| |by destruct (context_at s b =? SavedHugePage)].
    destruct (context_at s b =? SavedHugePage); cbn [hold_a]; by rewrite holders_same.
  - eexists _, _. split; [done|]. eapply program_move; [done|done|by apply still_claimed_same| |done]. by apply copied_inv.
  - eexists _, _. split; [done|]. eapply program_move; [done|done|by apply still_claimed_same| |done]. by apply copy_inv.
  - eexists _, _. split; [done|]. eapply program_move; [done|done|by apply still_claimed_same| |done]. by apply unprotect_inv.
  - destruct (save_inv _ _ _ _ Hinv Hh) as [El Hs]. unfold CAS. rewrite El, Z.eqb_refl. eexists _, _. split; [done|].
    eapply program_move; [done|done|by apply still_claimed_with|done|done].
Qed.

(** ** Reachable states *)

(** The state after [markPagesReadOnly], with any number of threads of the
    program. *)
Definition start (ws : list worker) (threads : nat) : config :=
  let (ctx, ro) := markPagesReadOnly h nvm blocks in Config (Snap m0 ro ctx ∅) ws (replicate threads ARun).

Definition reachable (c : config) : Prop :=
  exists ws threads, saveModifiedPages blocks = Ok ws /\ rtc sstep (start ws threads) c.

Hypothesis blocks_pos : 0 <= blocks.

Lemma shares ws : saveModifiedPages blocks = Ok ws ->
  (forall i w, ws !! i = Some w -> w_pc w = WClaim 0) /\
  forall b, 0 <= b < blocks -> exists i w, ws !! i = Some w /\ w_offset w <= b < w_offset w + w_length w.
Proof.
  unfold saveModifiedPages, SnapshotThreads. destruct (Z.eqb_spec (blocks mod 4) 0) as [Hm|]; [|done]. intros E%Ok_inj. rewrite <- E. split.
  - intros i w. rewrite list_lookup_fmap. intros (k & Hk & ->)%fmap_Some. done.
  - intros b Hb. set (n := blocks / 4). assert (Hn : blocks = 4 * n) by (unfold n; dlia).
    assert (Hq : 0 <= b / n < 4) by (split; [apply Z.div_pos; lia|apply Z.div_lt_upper_bound; lia]).
    assert (Hd : n * (b / n) <= b < n * (b / n) + n) by (pose proof (Z.div_mod b n); pose proof (Z.mod_pos_bound b n); lia).
    exists (Z.to_nat (b / n)). eexists. split.
    + rewrite list_lookup_fmap, lookup_seq_lt by lia. done.
    + cbn [w_offset w_length]. rewrite Nat.add_0_l, Z2Nat.id by lia. lia.
Qed.

Lemma start_inv ws threads : saveModifiedPages blocks = Ok ws -> cinv (start ws threads).
Proof.
  intros Hws. destruct (shares ws Hws) as [Hpc _]. unfold start.
  destruct (markPagesReadOnly h nvm blocks) as [ctx ro] eqn:E. destruct (mark_spec _ _ _ _ _ blocks_pos E) as [Hctx Hro].
  destruct values_distinct as (V1 & V2 & V3 & V4 & V5).
  assert (Hat : forall b, context_at (Snap m0 ro ctx ∅) b =
     if bool_decide (0 <= b < blocks) then if block_used h nvm b then UsedHugePage else FreeHugePage else 0x4646464646464646).
  { intros b. unfold context_at. cbn [sn_context]. rewrite Hctx. by case_bool_decide. }
  assert (Hnone : forall i b p, holders (Config (Snap m0 ro ctx ∅) ws (replicate threads ARun)) !! i = Some (Some (b, p)) -> False).
  { intros i b p. unfold holders. cbn [cf_workers cf_apps]. rewrite lookup_app_Some, !list_lookup_fmap.
    intros [(w & Hw & Eh)%fmap_Some|[_ (t & Ht & Eh)%fmap_Some]].
    - unfold hold_w in Eh. by rewrite (Hpc _ _ Hw) in Eh.
    - by apply lookup_replicate in Ht as [-> _]. }
  assert (Hused : forall b, context_at (Snap m0 ro ctx ∅) b = UsedHugePage -> used0 b).
  { intros b. rewrite Hat. case_bool_decide; [|done]. destruct (block_used h nvm b) eqn:Eu; [done|congruence]. }
  constructor; cbn [cf_snap cf_workers cf_apps].
  - constructor; cbn [sn_ro].
    + intros i j b p q Hi. by destruct (Hnone i b p).
    + intros b. split; [|by intros (i & p & ?%Hnone)]. rewrite Hat. case_bool_decide; [|done]. destruct (block_used h nvm b); congruence.
    + intros i b p Hi. by destruct (Hnone i b p).
    + intros b Hb%Hused. split; [done|]. split; [by apply Hro|done].
    + intros b [Hb Hu] Hs. rewrite Hat, bool_decide_true, Hu in Hs by done. congruence.
    + intros b [Hb Hu]. rewrite Hat, bool_decide_true, Hu by done. auto.
    + intros b Hb%Hro. split; [done|]. destruct Hb as [Hb Hu]. rewrite Hat, bool_decide_true, Hu by done. done.
  - intros i w b Hw. unfold passed. rewrite (Hpc _ _ Hw). lia.
  - intros j t [-> _]%lookup_replicate. done.
Qed.

Lemma sstep_inv c c' : cinv c -> sstep c c' -> cinv c'.
Proof.
  intros Hc Hs. destruct Hs as [s ws ts i w s' w' Hi E|s ws ts j t write s' t' Hj Hw E].
  - destruct (worker_inv s ws ts i w Hc Hi) as (s1 & w1 & E1 & ?). by rewrite E in E1; injection E1 as <- <-.
  - destruct (program_inv s ws ts j t write Hc Hj Hw) as (s1 & t1 & E1 & ?). by rewrite E in E1; injection E1 as <- <-.
Qed.

Lemma reachable_cinv c : reachable c -> cinv c.
Proof.
  intros (ws & threads & Hws & Hr). pose proof (start_inv ws threads Hws) as Hi. revert Hi.
  induction Hr as [|c1 c2 c3 Hs _ IH]; [done|]. intros Hi. by eapply IH, sstep_inv.
Qed.

(** Workers keep their shares. *)
Lemma sstep_shares c c' i w :
  sstep c c' -> cf_workers c !! i = Some w ->
  exists w', cf_workers c' !! i = Some w' /\ w_offset w' = w_offset w /\ w_length w' = w_length w.
Proof.
  intros Hs Hi. destruct Hs as [s ws ts k v s' v' Hk E|]; cbn [cf_workers] in *; [|by exists w].
  destruct (decide (k = i)) as [->|Hne]; [|exists w; by rewrite list_lookup_insert_ne].
  rewrite Hk in Hi. injection Hi as ->. exists v'. split; [apply list_lookup_insert_eq; by eapply lookup_lt_Some|].
  unfold snapshotWorker, CAS, at_pc in E.
  destruct (w_pc w) as [sp|sp [|x todo]|sp|sp|]; repeat case_match; simplify_eq/=; done.
Qed.

Lemma reachable_shares c b :
  reachable c -> 0 <= b < blocks -> exists i w, cf_workers c !! i = Some w /\ w_offset w <= b < w_offset w + w_length w.
Proof.
  intros (ws & threads & Hws & Hr) Hb. destruct (proj2 (shares ws Hws) b Hb) as (i & w & Hi & Hw).
  assert (Hstart : cf_workers (start ws threads) !! i = Some w) by (unfold start; by destruct (markPagesReadOnly _ _ _)).
  clear Hi. revert w Hw Hstart. induction Hr as [c|c1 c2 c3 Hs _ IH]; intros w Hw Hi; [by exists i, w|].
  destruct (sstep_shares _ _ _ _ Hs Hi) as (w' & Hi' & E1 & E2). apply (IH w'); [by rewrite E1, E2|done].
Qed.

(** When the workers are done and no handler is in the middle of a block,
    every block in use has been saved. *)
Lemma finished_saved c b x :
  reachable c -> (forall i w, cf_workers c !! i = Some w -> w_pc w = WDone) ->
  no_fault_handlers (cf_snap c) blocks = true -> used0 b -> x ∈ lines_of b -> saved (cf_snap c) x.
Proof.
  intros Hr Hdone Hno Hu Hx. pose proof (reachable_cinv c Hr) as [Hh Hp _].
  destruct (reachable_shares c b Hr (proj1 Hu)) as (i & w & Hi & Hw).
  assert (Hnu : context_at (cf_snap c) b <> UsedHugePage) by (apply (Hp i w); [done|]; unfold passed; by rewrite (Hdone i w Hi)).
  destruct (hi_values _ _ Hh b Hu) as [?|[Hl|Hs]]; [done| |by eapply hi_saved].
  exfalso. unfold no_fault_handlers in Hno.
  assert (Hin : List.In b (seqZ 0 blocks)) by (apply list_elem_of_In, elem_of_seqZ; destruct Hu; lia).
  apply (proj1 (List.forallb_forall _ _) Hno) in Hin. by rewrite Hl, Z.eqb_refl in Hin.
Qed.

(** ** Progress *)

Lemma length_word_lines n bit src : (length (word_lines n bit src) <= 64 * n)%nat.
Proof.
  revert bit src. induction n as [|n IH]; intros bit src; cbn [word_lines]; [done|]. rewrite length_app.
  specialize (IH (Z.shiftr bit 1) (src + BitmapGranularity)). destruct (negb _); simpl length; lia.
Qed.

Lemma length_block_words n bitmap src : (length (block_words n nvm bitmap src) <= 4096 * n)%nat.
Proof.
  revert bitmap src. induction n as [|n IH]; intros bitmap src; cbn [block_words]; [simpl; lia|]. rewrite length_app.
  specialize (IH (bitmap + 8) (src + 64 * BitmapGranularity)). pose proof (length_word_lines 64 (wget nvm bitmap) src). lia.
Qed.

Lemma length_block_lines b : Z.of_nat (length (lines_of b)) <= 32768.
Proof. pose proof (length_block_words 8 (bitmap_offset h + 8 * (b * BitmapStepSize)) (BaseAddress + b * BlockSize)). unfold block_lines. change (Z.to_nat BitmapStepSize) with 8%nat. lia. Qed.

(** Steps a worker has left, at most. *)
Definition steps_left (w : worker) : Z :=
  let after sp := Z.max 0 (w_length w - sp) * 32772 + 1 in
  match w_pc w with
  | WClaim sp => after sp
  | WCopy sp todo => after (sp + 1) + Z.of_nat (length todo) + 3
  | WProtect sp => after (sp + 1) + 2
  | WSave sp => after (sp + 1) + 1
  | WDone => 0
  end.

Lemma steps_left_nonneg w : 0 <= steps_left w.
Proof. unfold steps_left. destruct (w_pc w); lia. Qed.

Lemma worker_progress s w s' w' :
  snapshotWorker h nvm s w = Ok (s', w') -> w_pc w = WDone \/ steps_left w' < steps_left w.
Proof.
  destruct w as [o n pc]. unfold snapshotWorker, CAS, at_pc, steps_left. cbn [w_pc w_offset w_length].
  destruct pc as [sp|sp [|x todo]|sp|sp|]; intros E; [right|right|right|right|right|by left].
  - pose proof (length_block_lines (o + sp)). destruct (Z.ltb_spec sp n); [|apply Ok_inj in E; injection E as <- <-; cbn [w_pc]; lia].
    destruct (_ =? _); apply Ok_inj in E; injection E as <- <-; cbn [w_pc w_length]; lia.
  - apply Ok_inj in E. injection E as <- <-. cbn [w_pc w_length length]. lia.
  - apply Ok_inj in E. injection E as <- <-. cbn [w_pc w_length length]. lia.
  - apply Ok_inj in E. injection E as <- <-. cbn [w_pc w_length]. lia.
  - destruct (_ =? _); [|done]. apply Ok_inj in E. injection E as <- <-. cbn [w_pc w_length]. lia.
Qed.

(** Steps a fault handler has left, at most, once the block it waits for is
    saved. *)
Definition handler_left (t : apc) : Z :=
  match t with
  | ARun => 0
  | AWait _ => 1
  | ASave _ => 1
  | AProtect _ => 2
  | ACopy _ todo => Z.of_nat (length todo) + 3
  | AFault _ => 32772
  end.

Lemma handler_left_nonneg t : 0 <= handler_left t.
Proof. destruct t; cbn; lia. Qed.

Lemma handler_progress s t write s' t' :
  pageFaultHandler h nvm s t write = Ok (s', t') -> t <> ARun ->
  handler_left t' < handler_left t \/ exists b, t = AWait b /\ t' = AWait b /\ context_at s b <> SavedHugePage.
Proof.
  intros E Hrun. unfold pageFaultHandler, CAS in E. destruct t as [|addr|b|b [|x todo]|b|b]; [done|..].
  - res_inv E. left. destruct (_ =? UsedHugePage); apply Ok_inj in E; injection E as <- <-; cbn [handler_left]; [|lia].
    pose proof (length_block_lines (Z.shiftr (mask_down addr BlockSize - BaseAddress) 21)). lia.
  - apply Ok_inj in E. injection E as <- <-. destruct (Z.eqb_spec (context_at s b) SavedHugePage); [left; cbn; lia|right; eauto].
  - apply Ok_inj in E. injection E as <- <-. left. cbn [handler_left length]. lia.
  - apply Ok_inj in E. injection E as <- <-. left. cbn [handler_left length]. lia.
  - apply Ok_inj in E. injection E as <- <-. left. cbn [handler_left]. lia.
  - destruct (_ =? LockedHugePage); [|done]. apply Ok_inj in E. injection E as <- <-. left. cbn [handler_left]. lia.
Qed.

(** A handler waits for a block that is saved or that a thread owns. *)
Lemma waits_for_owner c j b :
  cinv c -> cf_apps c !! j = Some (AWait b) ->
  context_at (cf_snap c) b = SavedHugePage \/ exists i p, holders c !! i = Some (Some (b, p)).
Proof.
  intros Hc Hj. destruct (ci_apps _ Hc j _ Hj) as [Hu Hnu]. pose proof (ci_hinv _ Hc) as Hh.
  destruct (hi_values _ _ Hh b Hu) as [?|[Hl|?]]; [done| |by left]. right. by apply (hi_locked _ _ Hh).
Qed.

(** No owner, no locked block. *)
Lemma no_owner c :
  cinv c -> (forall i w, cf_workers c !! i = Some w -> w_pc w = WDone) ->
  (forall j t, cf_apps c !! j = Some t -> hold_a t = None) ->
  (forall i b p, holders c !! i <> Some (Some (b, p))) /\ no_fault_handlers (cf_snap c) blocks = true.
Proof.
  intros Hc Hw Ha. assert (Hno : forall i b p, holders c !! i <> Some (Some (b, p))).
  { intros i b p Hi. unfold holders in Hi. apply lookup_app_Some in Hi as [Hi|[_ Hi]];
      rewrite list_lookup_fmap in Hi; apply fmap_Some in Hi as (x & Hx & E).
    - unfold hold_w in E. by rewrite (Hw _ _ Hx) in E.
    - by rewrite (Ha _ _ Hx) in E. }
  split; [done|]. apply List.forallb_forall. intros b _. apply negb_true_iff, Z.eqb_neq. intros Hl.
  apply (hi_locked _ _ (ci_hinv _ Hc)) in Hl as (i & p & Hi). by destruct (Hno i b p).
Qed.

(** ** Completion *)

Definition total_left (ws : list worker) : Z := foldr (fun w n => steps_left w + n) 0 ws.

Lemma total_left_nonneg ws : 0 <= total_left ws.
Proof. induction ws as [|w ws IH]; [done|]. cbn [total_left foldr]. fold (total_left ws). pose proof (steps_left_nonneg w). lia. Qed.

Lemma total_left_insert ws i w w' : ws !! i = Some w -> total_left (<[i := w']> ws) = total_left ws - steps_left w + steps_left w'.
Proof.
  revert i. induction ws as [|v ws IH]; intros [|i]; simpl; [done|done|intros [= ->]; lia|].
  intros Hi. rewrite (IH i Hi). lia.
Qed.

(** Left alone, the snapshot threads finish. *)
Lemma workers_finish c :
  cinv c -> exists c', rtc sstep c c' /\ (forall i w, cf_workers c' !! i = Some w -> w_pc w = WDone) /\ cf_apps c' = cf_apps c.
Proof.
  remember (Z.to_nat (total_left (cf_workers c))) as n eqn:En. revert c En.
  induction n as [n IH] using lt_wf_ind. intros [s ws ts] -> Hc. cbn [cf_workers cf_apps] in *.
  destruct (decide (Forall (fun w => steps_left w = 0) ws)) as [Hall|Hsome].
  - exists (Config s ws ts). split; [apply rtc_refl|]. split; [|done]. cbn [cf_workers]. intros i w Hi.
    pose proof (Forall_lookup_1 _ _ _ _ Hall Hi) as H0. cbn beta in H0. unfold steps_left in H0. destruct (w_pc w); lia || done.
  - apply not_Forall_Exists in Hsome; [|apply _]. apply Exists_exists in Hsome as (w & [i Hi]%list_elem_of_lookup & Hw).
    destruct (worker_inv s ws ts i w Hc Hi) as (s' & w' & E & Hc').
    destruct (worker_progress s w s' w' E) as [Hd|Hlt]; [exfalso; apply Hw; unfold steps_left; by rewrite Hd|].
    pose proof (total_left_insert ws i w w' Hi). pose proof (total_left_nonneg ws). pose proof (total_left_nonneg (<[i := w']> ws)).
    destruct (IH (Z.to_nat (total_left (<[i := w']> ws)))) with (c := Config s' (<[i := w']> ws) ts) as (c' & Hr & Hd & Ha);
      [lia|done|done|].
    exists c'. split; [|done]. eapply rtc_l; [by eapply step_worker|done].
Qed.

Definition handlers_left (ts : list apc) : Z := foldr (fun t n => handler_left t + n) 0 ts.

Lemma handlers_left_nonneg ts : 0 <= handlers_left ts.
Proof. induction ts as [|t ts IH]; [done|]. cbn [handlers_left foldr]. fold (handlers_left ts). pose proof (handler_left_nonneg t). lia. Qed.

Lemma handlers_left_insert ts j t t' : ts !! j = Some t -> handlers_left (<[j := t']> ts) = handlers_left ts - handler_left t + handler_left t'.
Proof.
  revert j. induction ts as [|v ts IH]; intros [|j]; simpl; [done|done|intros [= ->]; lia|].
  intros Hj. rewrite (IH j Hj). lia.
Qed.

Definition is_waiting (t : apc) : bool := match t with AWait _ => true | _ => false end.

(** A handler that can go on, when all snapshot threads have finished. *)
Lemma handler_ready s ws ts :
  cinv (Config s ws ts) -> (forall i w, ws !! i = Some w -> w_pc w = WDone) -> ~ Forall (fun t => t = ARun) ts ->
  exists j t, ts !! j = Some t /\ t <> ARun /\ forall b, t = AWait b -> context_at s b = SavedHugePage.
Proof.
  intros Hc Hw Hnot. destruct (decide (Forall (fun t => t = ARun \/ is_waiting t) ts)) as [Hall|Hsome].
  - apply not_Forall_Exists in Hnot; [|intros t; destruct t; (by left) || (by right)].
    apply Exists_exists in Hnot as (t & [j Hj]%list_elem_of_lookup & Ht). exists j, t. split; [done|]. split; [done|].
    intros b ->. destruct (waits_for_owner _ j b Hc Hj) as [?|(i & p & Hi)]; [done|]. exfalso.
    destruct (no_owner (Config s ws ts) Hc Hw) as [Hno _]; [|by apply (Hno i b p)].
    intros k u Hk. destruct (Forall_lookup_1 _ _ _ _ Hall Hk) as [->|?]; [done|by destruct u].
  - apply not_Forall_Exists in Hsome; [|intros t; destruct t; (by left; left) || (by left; right) || (right; by intros [?|?])].
    apply Exists_exists in Hsome as (t & [j Hj]%list_elem_of_lookup & Ht). exists j, t. split; [done|].
    split; [intros ->; apply Ht; by left|]. intros b ->. destruct Ht. by right.
Qed.

(** Left alone, the fault handlers finish after the snapshot threads. *)
Lemma handlers_finish c :
  cinv c -> (forall i w, cf_workers c !! i = Some w -> w_pc w = WDone) ->
  exists c', rtc sstep c c' /\ cf_workers c' = cf_workers c /\ Forall (fun t => t = ARun) (cf_apps c') /\ cinv c'.
Proof.
  remember (Z.to_nat (handlers_left (cf_apps c))) as n eqn:En. revert c En.
  induction n as [n IH] using lt_wf_ind. intros [s ws ts] -> Hc Hw. cbn [cf_workers cf_apps] in *.
  destruct (decide (Forall (fun t => t = ARun) ts)) as [Hall|Hsome].
  { exists (Config s ws ts). split; [apply rtc_refl|done]. }
  destruct (handler_ready s ws ts Hc Hw Hsome) as (j & t & Hj & Hrun & Hwait).
  assert (Hin : in_heap_line (fst (BaseAddress, zero_line))) by (unfold in_heap_line; cbn [fst]; change MaxMemorySize with 1099511627776; lia).
  destruct (program_inv s ws ts j t (BaseAddress, zero_line) Hc Hj Hin) as (s' & t' & E & Hc').
  destruct (handler_progress s t _ s' t' E Hrun) as [Hlt|(b & -> & _ & Hns)]; [|by destruct Hns; apply Hwait].
  pose proof (handlers_left_insert ts j t t' Hj). pose proof (handlers_left_nonneg (<[j := t']> ts)).
  destruct (IH (Z.to_nat (handlers_left (<[j := t']> ts)))) with (c := Config s' ws (<[j := t']> ts)) as (c' & Hr & Hrest);
    [lia|done|done|done|].
  exists c'. split; [|done]. eapply rtc_l; [by eapply step_program|done].
Qed.

(** From every state the stage can be completed. *)
Lemma stage_completes c :
  cinv c -> exists c', rtc sstep c c' /\ (forall i w, cf_workers c' !! i = Some w -> w_pc w = WDone) /\
    Forall (fun t => t = ARun) (cf_apps c') /\ no_fault_handlers (cf_snap c') blocks = true.
Proof.
  intros Hc. destruct (workers_finish c Hc) as (c1 & Hr1 & Hw1 & _).
  assert (Hc1 : cinv c1) by (clear -Hc Hr1 blocks_pos; induction Hr1 as [|x y z Hs _ IH]; [done|]; by apply IH, (sstep_inv x)).
  destruct (handlers_finish c1 Hc1 Hw1) as (c2 & Hr2 & Ew & Ha & Hc2). exists c2.
  assert (Hw2 : forall i w, cf_workers c2 !! i = Some w -> w_pc w = WDone) by (rewrite Ew; done).
  split; [by etrans|]. split; [done|]. split; [done|]. apply no_owner; [done|done|].
  intros j t Hj. by rewrite (Forall_lookup_1 _ _ _ _ Ha Hj).
Qed.

Lemma snapshot_completes ws :
  saveModifiedPages blocks = Ok ws -> exists c, reachable c /\ (forall i w, cf_workers c !! i = Some w -> w_pc w = WDone) /\
    no_fault_handlers (cf_snap c) blocks = true.
Proof.
  intros Hws. destruct (stage_completes (start ws 0) (start_inv ws 0 Hws)) as (c & Hr & Hd & _ & Hn).
  exists c. split; [by exists ws, 0%nat|done].
Qed.

End Async.

(** The bitmap of the blocks holds unsigned words. *)
Definition bitmap_words (h : snapshot_header_t) (nvm : words) (blocks : Z) : Prop :=
  forall i, 0 <= i < 8 * blocks -> 0 <= wget nvm (bitmap_offset h + 8 * i).

Lemma page_block_used h nvm blocks q :
  bitmap_words h nvm blocks -> 0 <= q < 512 * blocks -> page_bit nvm (bitmap_offset h) q = true ->
  block_used h nvm (q / 512) = true.
Proof.
  intros Hpos Hq Hbit. apply any_word_ext. exists (q / 64 - 8 * (q / 512)). split; [dlia|].
  replace (bitmap_offset h + 64 * (q / 512) + 8 * (q / 64 - 8 * (q / 512))) with (bitmap_offset h + 8 * (q / 64)) by lia.
  specialize (Hpos (q / 64) ltac:(dlia)). unfold page_bit in Hbit.
  destruct (Z.eq_dec (wget nvm (bitmap_offset h + 8 * (q / 64))) 0) as [E|]; [|lia]. by rewrite E, Z.testbit_0_l in Hbit.
Qed.

(** [C28] A snapshot is consistent.  Whatever the interleaving of the four
    snapshot threads with the threads of the program, which go on writing to
    the heap and take page faults: when the snapshot threads are done and no
    fault handler is in the middle of a block, the file holds every cache
    line of every page of the bitmap as it was when the pages were marked. *)
Theorem snapshot_consistent h nvm blocks m0 c q k :
  0 <= blocks -> reachable h nvm blocks m0 c ->
  (forall i w, cf_workers c !! i = Some w -> w_pc w = WDone) -> no_fault_handlers (cf_snap c) blocks = true ->
  0 <= q < 512 * blocks -> 0 <= k < 64 -> page_bit nvm (bitmap_offset h) q = true ->
  bitmap_words h nvm blocks ->
  let x := BaseAddress + BitmapGranularity * q + 64 * k in
  sn_data (cf_snap c) !! file_offset h x = Some (heap_line m0 x).
Proof.
  intros Hb Hr Hd Hn Hq Hk Hbit Hpos x. set (b := q / 512). assert (Hbq : b * 512 <= q < b * 512 + 512) by (unfold b; dlia).
  assert (0 <= b) by (unfold b; dlia).
  apply (finished_saved h nvm blocks m0 Hb c b x Hr Hd Hn).
  - split; [unfold b; dlia|]. by apply (page_block_used h nvm blocks q).
  - apply elem_block_lines; [lia|]. exists q, k. split; [done|]. split; [done|]. split; [done|]. congruence.
Qed.

(** [C29] The asynchronous stage finishes.  In every reachable state: each
    snapshot thread can take its next step without tripping an assertion, and
    each step brings it closer to its end, whatever the others do; the same
    holds for a fault handler, except while it waits for a block, and a
    handler that waits for a block waits for one that is saved or that
    another thread is saving; when the snapshot threads have ended and no
    handler owns a block, no block is locked, so that waitForFaultHandlers
    returns; and if the program starts no more writes, the threads that are
    there reach such a state, with every handler ended. *)
Theorem snapshot_progress h nvm blocks m0 c :
  0 <= blocks -> reachable h nvm blocks m0 c ->
  (forall i w, cf_workers c !! i = Some w -> exists s' w', snapshotWorker h nvm (cf_snap c) w = Ok (s', w') /\
     (w_pc w = WDone \/ 0 <= steps_left w' < steps_left w)) /\
  (forall j t write, cf_apps c !! j = Some t -> in_heap_line (fst write) ->
     exists s' t', pageFaultHandler h nvm (cf_snap c) t write = Ok (s', t') /\
       (t = ARun \/ 0 <= handler_left t' < handler_left t \/ exists b, t = AWait b /\ t' = t /\ context_at (cf_snap c) b <> SavedHugePage)) /\
  (forall j b, cf_apps c !! j = Some (AWait b) -> context_at (cf_snap c) b = SavedHugePage \/
     exists i p, holders c !! i = Some (Some (b, p))) /\
  ((forall i w, cf_workers c !! i = Some w -> w_pc w = WDone) -> (forall j t, cf_apps c !! j = Some t -> hold_a t = None) ->
     no_fault_handlers (cf_snap c) blocks = true) /\
  exists c', rtc (sstep h nvm) c c' /\ (forall i w, cf_workers c' !! i = Some w -> w_pc w = WDone) /\
    Forall (fun t => t = ARun) (cf_apps c') /\ no_fault_handlers (cf_snap c') blocks = true.
Proof.
  intros Hb Hr. pose proof (reachable_cinv h nvm blocks m0 Hb c Hr) as Hc. split; [|split; [|split; [|split]]].
  - intros i w Hi. destruct c as [s ws ts]. cbn [cf_snap cf_workers] in *.
    destruct (worker_inv h nvm blocks m0 s ws ts i w Hc Hi) as (s' & w' & E & _). exists s', w'. split; [done|].
    destruct (worker_progress h nvm s w s' w' E); [by left|right]. pose proof (steps_left_nonneg w'). lia.
  - intros j t write Hj Hw. destruct c as [s ws ts]. cbn [cf_snap cf_apps] in *.
    destruct (program_inv h nvm blocks m0 s ws ts j t write Hc Hj Hw) as (s' & t' & E & _). exists s', t'. split; [done|].
    destruct (decide (t = ARun)) as [?|Hne]; [by left|right]. pose proof (handler_left_nonneg t').
    destruct (handler_progress h nvm s t write s' t' E Hne) as [?|(b & -> & -> & ?)]; [left; lia|right; eauto].
  - intros j b. by apply (waits_for_owner h nvm blocks m0).
  - intros Hw Ha. by apply (no_owner h nvm blocks m0 c Hc Hw Ha).
  - by apply (stage_completes h nvm blocks m0).
Qed.

(** ** A concrete run

    One thread writes to block 0 at once; the others find the block locked
    or saved. *)
Inductive move := MWorker (i : nat) | MProgram (j : nat) (write : Z * line).

Definition play_move (h : snapshot_header_t) (nvm : words) (c : config) (m : move) : option config :=
  match m with
  | MWorker i =>
      match cf_workers c !! i with
      | Some w => match snapshotWorker h nvm (cf_snap c) w with
                  | Ok (s, w) => Some (Config s (<[i := w]> (cf_workers c)) (cf_apps c))
                  | _ => None
                  end
      | None => None
      end
  | MProgram j write =>
      if (BaseAddress <=? fst write) && (fst write <? BaseAddress + MaxMemorySize) then
        match cf_apps c !! j with
        | Some t => match pageFaultHandler h nvm (cf_snap c) t write with
                    | Ok (s, t) => Some (Config s (cf_workers c) (<[j := t]> (cf_apps c)))
                    | _ => None
                    end
        | None => None
        end
      else None
  end.

Fixpoint play (h : snapshot_header_t) (nvm : words) (ms : list move) (c : config) : option config :=
  match ms with [] => Some c | m :: ms => match play_move h nvm c m with Some c => play h nvm ms c | None => None end end.

Lemma play_steps h nvm ms c c' : play h nvm ms c = Some c' -> rtc (sstep h nvm) c c'.
Proof.
  revert c. induction ms as [|m ms IH]; intros c; cbn [play]; [by intros [= ->]|].
  destruct (play_move h nvm c m) as [c1|] eqn:E; [|done]. intros Hp. eapply rtc_l; [|by apply IH].
  destruct c as [s ws ts]. destruct m as [i|j write]; cbn [play_move cf_workers cf_apps cf_snap] in E.
  - destruct (ws !! i) as [w|] eqn:Ei; [|done]. destruct (snapshotWorker h nvm s w) as [[s' w']| | |] eqn:Es; try done.
    injection E as <-. by apply (step_worker h nvm s ws ts i w).
  - destruct ((BaseAddress <=? fst write) && _) eqn:Er; [|done].
    apply andb_true_iff in Er as [E1%Z.leb_le E2%Z.ltb_lt].
    destruct (ts !! j) as [t|] eqn:Ej; [|done]. destruct (pageFaultHandler h nvm s t write) as [[s' t']| | |] eqn:Es; try done.
    injection E as <-. by apply (step_program h nvm s ws ts j t write).
Qed.

Definition demo_header : snapshot_header_t := Header 1 0 0 4096 0 0 64 2048 3072 4096.
Definition demo_words : words := {[64 := 3]}.
Definition demo_line : line := Line 1 2 0 1 0 64 5 6 7.
Definition demo_mem : gmap Z line := {[BaseAddress + 64 := demo_line]}.
Definition demo_workers : list worker := res_get [] (saveModifiedPages 4).
Definition demo_start : config := start demo_header demo_words 4 demo_mem demo_workers 2.
Definition demo_moves : list move :=
  [MWorker 0; MProgram 1 (BaseAddress + 64, zero_line); MProgram 1 (BaseAddress + 64, zero_line)] ++
  replicate 650 (MWorker 0) ++ replicate 4 (MProgram 1 (BaseAddress + 64, zero_line)) ++
  concat (replicate 3 [MWorker 1; MWorker 2; MWorker 3]).
Definition demo_end : config := default demo_start (play demo_header demo_words demo_moves demo_start).

Lemma demo_reach : reachable demo_header demo_words 4 demo_mem demo_end.
Proof.
  exists demo_workers, 2%nat. split; [by vm_compute|]. apply (play_steps _ _ demo_moves). by vm_compute.
Qed.

Lemma demo_done : (forall i w, cf_workers demo_end !! i = Some w -> w_pc w = WDone) /\ no_fault_handlers (cf_snap demo_end) 4 = true.
Proof.
  split; [|by vm_compute]. assert (E : w_pc <$> cf_workers demo_end = replicate 4 WDone) by (by vm_compute).
  intros i w Hi. assert (Hj : (w_pc <$> cf_workers demo_end) !! i = Some (w_pc w)) by (by rewrite list_lookup_fmap, Hi).
  rewrite E in Hj. by apply lookup_replicate in Hj as [? _].
Qed.

Lemma snapshot_consistent_witness :
  heap_line (sn_mem (cf_snap demo_end)) (BaseAddress + 64) = zero_line /\
  sn_data (cf_snap demo_end) !! (4096 + 64) = Some demo_line.
Proof.
  split; [by vm_compute|]. destruct demo_done as [Hd Hn].
  pose proof (snapshot_consistent demo_header demo_words 4 demo_mem demo_end 0 1 ltac:(lia) demo_reach Hd Hn ltac:(lia) ltac:(lia) eq_refl) as Hs.
  apply Hs. intros i _. unfold demo_words, wget. destruct (decide (bitmap_offset demo_header + 8 * i = 64)) as [->|Hne]; [done|].
  rewrite lookup_singleton_ne by done. done.
Defined.

Lemma snapshot_progress_witness :
  exists s' w', snapshotWorker demo_header demo_words (cf_snap demo_start) (Worker 1 1 (WClaim 0)) = Ok (s', w') /\
    steps_left w' < steps_left (Worker 1 1 (WClaim 0)).
Proof.
  assert (Hr : reachable demo_header demo_words 4 demo_mem demo_start).
  { exists demo_workers, 2%nat. split; [by vm_compute|apply rtc_refl]. }
  destruct (snapshot_progress demo_header demo_words 4 demo_mem demo_start ltac:(lia) Hr) as (Hw & _).
  destruct (Hw 1%nat (Worker 1 1 (WClaim 0)) eq_refl) as (s' & w' & E & [?|[_ ?]]); [done|]. by exists s', w'.
Defined.
