(* ===== verification/SnapshotLoad.v ===== *)
(** * Loading snapshots

    Saving the tables of the allocators and loading them again, restoring
    the heap, and the theorem that ties allocator and snapshot together:
    the data of every live chunk survives. *)

From stdpp Require Import base numbers list gmap strings sorting.
From S2P Require Import Prelude Pmem Bitmap Heap GlobalAlloc GlobalAllocProofs FreeList FreeListTiling FreeListProofs ObjectAlloc ObjectAllocProofs Snapshot SnapshotProofs.

(** The bitmap has four million cells. *)
#[local] Opaque loadBitmap saveBitmap.

(** ** Restoring the heap *)

Lemma restore_lines f xs m x :
  heap_line (foldl (restore_line f) m xs) x =
  if bool_decide (x ∈ xs) then heap_line (f_data f) (file_offset (f_header f) x) else heap_line m x.
Proof.
  revert m. induction xs as [|y xs IH]; intros m; cbn [foldl].
  - rewrite bool_decide_false; [done|]. intros Hx. by apply elem_of_nil in Hx.
  - rewrite IH. case_bool_decide as Hx; [rewrite bool_decide_true; [done|by right]|].
    unfold restore_line. unfold heap_line at 1. destruct (decide (y = x)) as [->|Hne].
    + rewrite lookup_insert_eq, bool_decide_true; [done|left].
    + rewrite lookup_insert_ne, bool_decide_false; [done| |done]. intros [->|?]%elem_of_cons; done.
Qed.

Lemma all_zero_spec n nvm a :
  (forall k, 0 <= k < Z.of_nat n -> 0 <= wget nvm (a + 8 * k)) -> all_zero n nvm a = negb (any_word n nvm a).
Proof.
  revert a. induction n as [|n IH]; intros a Hp; cbn [all_zero any_word]; [done|]. rewrite IH.
  2: { intros k Hk. replace (a + 8 + 8 * k) with (a + 8 * (k + 1)) by lia. apply Hp. lia. }
  specialize (Hp 0 ltac:(lia)). rewrite Z.mul_0_r, Z.add_0_r in Hp. destruct (Z.eqb_spec (wget nvm a) 0), (Z.ltb_spec 0 (wget nvm a)); try done; lia.
Qed.

(** What restoring does to the line at [x]. *)
Definition restored (f : snapshot_file) (x : Z) : bool :=
  block_used (f_header f) (f_words f) (block_of x) && bool_decide (x ∈ block_lines (f_header f) (f_words f) (block_of x)).

Lemma restoreWorker_spec f n offset m x :
  bitmap_words (f_header f) (f_words f) (offset + Z.of_nat n) -> 0 <= offset ->
  heap_line (restoreWorker f n offset m) x =
  if bool_decide (offset <= block_of x < offset + Z.of_nat n) && restored f x
  then heap_line (f_data f) (file_offset (f_header f) x) else heap_line m x.
Proof.
  revert offset m. induction n as [|n IH]; intros offset m Hp Ho; cbn [restoreWorker].
  { rewrite bool_decide_false by lia. done. }
  rewrite IH by (try lia; intros i Hi; apply Hp; lia).
  replace (bitmap_offset (f_header f) + 8 * (offset * BitmapStepSize)) with (bitmap_offset (f_header f) + 64 * offset)
    by (change BitmapStepSize with 8; lia).
  rewrite all_zero_spec.
  2: { intros k Hk. replace (bitmap_offset (f_header f) + 64 * offset + 8 * k) with (bitmap_offset (f_header f) + 8 * (8 * offset + k)) by lia.
       apply Hp. lia. }
  fold (block_used (f_header f) (f_words f) offset).
  assert (Hblk : x ∈ block_lines (f_header f) (f_words f) offset -> block_of x = offset) by (by apply block_lines_block).
  destruct (decide (block_of x = offset)) as [E|Hne].
  - rewrite (bool_decide_false (offset + 1 <= _ < _)), (bool_decide_true (offset <= _ < _)) by lia. cbn [andb]. unfold restored. rewrite E.
    destruct (block_used _ _ _); cbn [negb andb]; [|done]. by rewrite restore_lines.
  - assert (Hm : heap_line (if negb (block_used (f_header f) (f_words f) offset) then m
       else foldl (restore_line f) m (block_lines (f_header f) (f_words f) offset)) x = heap_line m x).
    { destruct (negb _); [done|]. rewrite restore_lines, bool_decide_false; [done|]. auto. }
    rewrite Hm. erewrite bool_decide_ext; [done|lia].
Qed.

Lemma restore_threads_spec n f share index m x :
  bitmap_words (f_header f) (f_words f) (index + Z.of_nat n * share) -> 0 <= index -> 0 <= share ->
  heap_line (restore_threads n f share index m) x =
  if bool_decide (index <= block_of x < index + Z.of_nat n * share) && restored f x
  then heap_line (f_data f) (file_offset (f_header f) x) else heap_line m x.
Proof.
  intros Hp Hi Hs. revert index m Hi Hp. induction n as [|n IH]; intros index m Hi Hp; cbn [restore_threads].
  { rewrite bool_decide_false by lia. done. }
  rewrite IH by (first [lia|intros i ?; apply Hp; lia]).
  rewrite restoreWorker_spec by (first [lia|intros i ?; apply Hp; lia]). rewrite Z2Nat.id by done.
  destruct (restored f x); rewrite ?andb_false_r, ?andb_true_r; [|done].
  repeat case_bool_decide; try done; lia.
Qed.

(** ** Saving the tables *)

Lemma save_free_low fuel m f nvm ptr len nvm' len' a :
  save_free fuel m f nvm ptr len = Ok (nvm', len') -> a < ptr -> wget nvm' a = wget nvm a.
Proof.
  revert f nvm ptr len. induction fuel as [|fuel IH]; intros f nvm ptr len E Ha; cbn [save_free] in E; [done|].
  destruct (f =? 0); [apply Ok_inj in E; by injection E as <- _|].
  apply res_bind_Ok in E as (l & _ & E). rewrite (IH _ _ _ _ E) by lia. rewrite !wget_wset. repeat (case_decide; [lia|]). done.
Qed.

Lemma ga_save_low g nvm ptr nvm' a : ga_save g nvm ptr = Ok nvm' -> a < ptr -> wget nvm' a = wget nvm a.
Proof.
  intros E Ha. unfold ga_save in E. apply res_bind_Ok in E as ([nvm1 len] & E1 & E). apply Ok_inj in E as <-.
  rewrite wget_wset, decide_False by lia. rewrite (save_free_low _ _ _ _ _ _ _ _ a E1) by lia.
  rewrite !wget_wset. repeat (case_decide; [lia|]). done.
Qed.

(** An object that can be saved and loaded on a machine with [cores] cores. *)
Record so_ok (cores : Z) (o : sobject) : Prop := {
  ok_id : length (oa_id (so_alloc o)) = 16%nat /\ Forall is_byte (oa_id (so_alloc o));
  ok_cores : total_cores (so_alloc o) = cores /\ 0 <= cores /\ Z.to_nat cores = length (free_lists (so_alloc o));
  ok_lists : Forall saveable (free_lists (so_alloc o))
}.

Lemma so_load_save cores o this nvm ptr :
  so_ok cores o ->
  oa_load (oa_init (oa_id (so_alloc o)) cores) (oa_save (so_alloc o) this nvm ptr) ptr = Ok (so_alloc o) /\
  forall a, a < ptr \/ ptr + oa_snapshotSize (so_alloc o) <= a -> wget (oa_save (so_alloc o) this nvm ptr) a = wget nvm a.
Proof. intros [[? ?] (Ec & ? & ?) ?]. rewrite <- Ec in *. by apply oa_load_save. Qed.

Lemma oa_snapshotSize_pos cores o : so_ok cores o -> 32 <= oa_snapshotSize (so_alloc o).
Proof. intros [_ (Ec & ? & _) _]. unfold oa_snapshotSize. rewrite Ec. change fl_snapshotSize with 144. lia. Qed.

Lemma objects_size_pos cores objs : Forall (so_ok cores) objs -> 0 <= objects_size objs.
Proof.
  induction 1 as [|o objs Ho _ IH]; [done|]. cbn [objects_size foldr]. fold (objects_size objs).
  pose proof (oa_snapshotSize_pos _ _ Ho). unfold object_size. lia.
Qed.

Lemma save_objects_other cores objs nvm ptr a :
  Forall (so_ok cores) objs -> a < ptr \/ ptr + objects_size objs <= a -> wget (save_objects objs nvm ptr) a = wget nvm a.
Proof.
  intros Ho. revert nvm ptr. induction Ho as [|o objs Ho Hos IH]; intros nvm ptr Ha; cbn [save_objects]; [done|].
  cbn [objects_size foldr] in Ha. fold (objects_size objs) in Ha. unfold object_size in Ha.
  pose proof (oa_snapshotSize_pos _ _ Ho). pose proof (objects_size_pos _ _ Hos). rewrite IH by lia.
  rewrite (proj2 (so_load_save cores o (so_this o) _ (ptr + 24) Ho)) by lia. rewrite !wget_wset. repeat (case_decide; [lia|]). done.
Qed.

Lemma load_lists_ext fls nvm nvm' ptr :
  (forall a, ptr <= a < ptr + fl_snapshotSize * Zlength fls -> wget nvm' a = wget nvm a) ->
  load_lists fls nvm' ptr = load_lists fls nvm ptr.
Proof.
  revert ptr. induction fls as [|fl fls IH]; intros ptr Ha; cbn [load_lists]; [done|].
  rewrite Zlength_cons in Ha. pose proof (Zlength_nonneg fls). change fl_snapshotSize with 144 in *. f_equal.
  - apply fl_load_ext. change fl_snapshotSize with 144. intros a ?. apply Ha. lia.
  - apply IH. intros a ?. apply Ha. lia.
Qed.

Lemma oa_load_ext uuid cores nvm nvm' ptr :
  0 <= cores -> (forall a, ptr <= a < ptr + (32 + cores * fl_snapshotSize) -> wget nvm' a = wget nvm a) ->
  oa_load (oa_init uuid cores) nvm' ptr = oa_load (oa_init uuid cores) nvm ptr /\ snapshot_uuid nvm' ptr = snapshot_uuid nvm ptr.
Proof.
  intros Hc Ha. change fl_snapshotSize with 144 in Ha. assert (Eu : snapshot_uuid nvm' ptr = snapshot_uuid nvm ptr).
  { unfold snapshot_uuid. by rewrite !Ha by lia. }
  split; [|done]. unfold oa_load. rewrite Eu, Ha by lia. erewrite load_lists_ext; [done|].
  intros a Hr. apply Ha. cbn [oa_init free_lists] in Hr. unfold Zlength in Hr. rewrite length_fmap, length_seq in Hr.
  change fl_snapshotSize with 144 in Hr. lia.
Qed.

(** ** Loading the tables *)

Section Load.
Context `{Uuid}.
Variable cores : Z.

(** One object more in the tables. *)
Definition add_object (tl : atable * loaded) (o : sobject) : atable * loaded :=
  let (t, l) := tl in
  let k := uuid_unparse (oa_id (so_alloc o)) in
  (ATable (<[so_this o := so_alloc o]> (at_objects t)) (map_insert (allocators t) k (so_this o)) (allocatorsMemory t) (sizeof_ObjectAlloc t),
   Loaded (map_insert (ld_objects l) k (so_ptr o)) (map_insert (ld_last_commit l) k (so_last_commit o))
     (map_insert (ld_log_heads l) k (so_tail o))).

Lemma load_objects_spec objs nvm nvm' ptr t l :
  Forall (so_ok cores) objs ->
  (forall a, ptr <= a < ptr + objects_size objs -> wget nvm' a = wget (save_objects objs nvm ptr) a) ->
  load_objects cores (length objs) nvm' ptr t l = Ok (foldl add_object (t, l) objs).
Proof.
  intros Ho. revert nvm ptr t l. induction Ho as [|o objs Ho Hos IH]; intros nvm ptr t l Ha; cbn [length load_objects foldl]; [done|].
  cbn [objects_size foldr save_objects] in Ha. fold (objects_size objs) in Ha. unfold object_size in Ha.
  set (nvm1 := wset (wset (wset nvm ptr _) _ _) _ _) in *. set (nvm2 := oa_save _ _ nvm1 _) in *.
  pose proof (oa_snapshotSize_pos _ _ Ho) as Hpos. pose proof (objects_size_pos _ _ Hos).
  destruct (so_load_save cores o (so_this o) nvm1 (ptr + 24) Ho) as [Hload Hout]. fold nvm2 in Hload, Hout.
  assert (Hin : forall a, ptr <= a < ptr + 24 + oa_snapshotSize (so_alloc o) -> wget nvm' a = wget nvm2 a).
  { intros a Hr. rewrite Ha by lia. apply (save_objects_other cores); [done|lia]. }
  destruct (ok_cores _ _ Ho) as (Ec & Hc0 & Elen).
  destruct (oa_load_ext (oa_id (so_alloc o)) cores nvm2 nvm' (ptr + 24) Hc0) as [El Eu].
  { intros a Hr. apply Hin. unfold oa_snapshotSize. rewrite Ec. lia. }
  assert (Hu2 : snapshot_uuid nvm2 (ptr + 24) = oa_id (so_alloc o)).
  { unfold oa_load in Hload. case_bool_decide as E; [|done]. by rewrite <- E. }
  rewrite Eu, Hu2, El, Hload. cbn [res_bind]. unfold restoreAllocator at 1. cbn [at_objects].
  assert (Hthis : wget nvm' (ptr + 24 + 24) = so_this o).
  { rewrite Hin by lia. unfold nvm2, oa_save. rewrite save_lists_other; [|apply Ho|left; lia].
    rewrite wget_wset, decide_True by lia. done. }
  rewrite Hthis, lookup_insert_eq. cbn [res_bind allocators allocatorsMemory sizeof_ObjectAlloc at_objects].
  assert (H3 : forall a, ptr <= a < ptr + 24 -> wget nvm' a = wget nvm1 a) by (intros a Hr; rewrite Hin by lia; apply Hout; lia).
  rewrite !H3 by lia. unfold nvm1. rewrite !wget_wset. repeat (first [rewrite decide_True by lia|rewrite decide_False by lia]).
  apply (IH nvm2). intros a Hr. apply Ha. lia.
Qed.

Definition key (o : sobject) : string := uuid_unparse (oa_id (so_alloc o)).

(** The tables hold the object [o]. *)
Definition object_loaded (tl : atable * loaded) (o : sobject) : Prop :=
  at_objects (fst tl) !! so_this o = Some (so_alloc o) /\ allocators (fst tl) !! key o = Some (so_this o) /\
  ld_objects (snd tl) !! key o = Some (so_ptr o) /\ ld_last_commit (snd tl) !! key o = Some (so_last_commit o) /\
  ld_log_heads (snd tl) !! key o = Some (so_tail o).

(** No entry of the tables belongs to [o]. *)
Definition object_absent (tl : atable * loaded) (o : sobject) : Prop :=
  allocators (fst tl) !! key o = None /\ ld_objects (snd tl) !! key o = None /\
  ld_last_commit (snd tl) !! key o = None /\ ld_log_heads (snd tl) !! key o = None.

Lemma map_insert_eq {V} (m : gmap string V) k v : m !! k = None -> map_insert m k v !! k = Some v.
Proof. intros E. unfold map_insert. rewrite E. apply lookup_insert_eq. Qed.

Lemma map_insert_ne {V} (m : gmap string V) k v k' : k <> k' -> map_insert m k v !! k' = m !! k'.
Proof. intros Hk. unfold map_insert. destruct (m !! k); [done|]. by apply lookup_insert_ne. Qed.

Lemma add_object_loaded tl o : object_absent tl o -> object_loaded (add_object tl o) o.
Proof.
  destruct tl as [t l]. intros (H1 & H2 & H3 & H4). unfold object_loaded, add_object. cbn [fst snd at_objects allocators ld_objects ld_last_commit ld_log_heads].
  rewrite lookup_insert_eq, !map_insert_eq by done. done.
Qed.

Lemma add_object_other tl o o' :
  key o <> key o' -> so_this o <> so_this o' ->
  (object_loaded tl o' -> object_loaded (add_object tl o) o') /\ (object_absent tl o' -> object_absent (add_object tl o) o').
Proof.
  destruct tl as [t l]. intros Hk Ht. unfold object_loaded, object_absent, add_object.
  cbn [fst snd at_objects allocators ld_objects ld_last_commit ld_log_heads]. fold (key o).
  rewrite lookup_insert_ne, !map_insert_ne by done. done.
Qed.

Lemma add_objects objs tl :
  NoDup (key <$> objs) -> NoDup (so_this <$> objs) -> Forall (object_absent tl) objs ->
  Forall (object_loaded (foldl add_object tl objs)) objs /\
  forall o', key o' ∉ key <$> objs -> so_this o' ∉ so_this <$> objs -> object_loaded tl o' -> object_loaded (foldl add_object tl objs) o'.
Proof.
  revert tl. induction objs as [|o objs IH]; intros tl Hk Ht Ha; cbn [foldl fmap list_fmap] in *; [done|].
  apply NoDup_cons in Hk as [Hko Hk], Ht as [Hto Ht]. apply Forall_cons in Ha as [Hao Ha].
  destruct (IH (add_object tl o) Hk Ht) as [Hall Hkeep].
  { apply Forall_forall. intros o' Ho'. rewrite Forall_forall in Ha. apply add_object_other; [..|by apply Ha].
    - intros E. apply Hko. rewrite E. by apply list_elem_of_fmap_2.
    - intros E. apply Hto. rewrite E. by apply list_elem_of_fmap_2. }
  split.
  - constructor; [|done]. apply Hkeep; [done|done|]. by apply add_object_loaded.
  - intros o' Hk' Ht' Hl. apply Hkeep; [set_solver|set_solver|]. apply add_object_other; [set_solver|set_solver|done].
Qed.

(** [C30] The tables of a snapshot can be loaded back.  With the layout of
    [prepareSnapshot], and if the list of free regions fits into the space
    that [GlobalAlloc::snapshotSize] reserves for it (16 regions), saving
    succeeds, and a new process that loads the file gets the same heap with
    the same free regions, the same bitmap, and for every object its
    allocator, its address, its last commit and the tail of its log. *)
Theorem snapshot_tables_roundtrip mmap_at dir objs dir' h g l nvm t0 :
  prepareSnapshot dir objs = Ok (dir', h) -> ga_inv g l -> Zlength l <= 16 ->
  Forall (so_ok cores) objs -> NoDup (key <$> objs) -> NoDup (so_this <$> objs) ->
  mmap_at BaseAddress (heap_end (ga_mem g) - BaseAddress) = true -> allocators t0 = ∅ ->
  exists nvm' g' t l', saveAllocationTables h g objs nvm = Ok nvm' /\
    ga_load mmap_at nvm' (global_offset h) (bitmap_offset h) = Ok g' /\ ga_inv g' l /\
    (forall a, a ∈ l -> size_at (ga_mem g') a = size_at (ga_mem g) a) /\ heap_end (ga_mem g') = heap_end (ga_mem g) /\
    (forall q, 0 <= q < total_pages -> page_set (ga_bitmap g') q = page_set (ga_bitmap g) q) /\
    load_objects cores (Z.to_nat (object_count h)) nvm' (alloc_offset h) t0 (Loaded ∅ ∅ ∅) = Ok (t, l') /\
    Forall (object_loaded (t, l')) objs.
Proof.
  intros Hprep Hga Hl Ho Hk Ht Hm Ha.
  assert (Hlay : bitmap_offset h = 64 /\ global_offset h = 64 + bitmapSize /\ alloc_offset h = global_offset h + 272 /\ object_count h = Zlength objs).
  { unfold prepareSnapshot in Hprep. apply res_bind_Ok in Hprep as (? & _ & Hprep). destruct (negb _); [|done].
    apply res_bind_Ok in Hprep as (? & _ & Hprep). apply Ok_inj in Hprep. by injection Hprep as <- <-. }
  destruct Hlay as (Eb & Eg & Ea & Ec). unfold saveAllocationTables.
  destruct (saveBitmap_spec (ga_bitmap g) nvm (bitmap_offset h)) as (nvm1 & -> & Hbit & _). cbn [res_bind].
  destruct (ga_save_spec g l nvm1 (global_offset h) Hga) as (nvm2 & -> & Hsv & Hlow). cbn [res_bind].
  set (nvm3 := save_objects objs nvm2 (alloc_offset h)).
  assert (Hlow3 : forall a, a < alloc_offset h -> wget nvm3 a = wget nvm2 a).
  { intros a Hlt. apply (save_objects_other cores); [done|by left]. }
  assert (Hcell : forall i, 0 <= i < bitmap_cells -> wget nvm3 (bitmap_offset h + 8 * i) = cell (ga_bitmap g) i).
  { intros i Hi. change bitmap_cells with 4194304 in *. change bitmapSize with 33554432 in *. rewrite Hlow3, Hlow by lia. by apply Hbit. }
  destruct (ga_load_spec mmap_at g l nvm3 (global_offset h) (bitmap_offset h) Hga) as (g' & Eg' & Hga' & Hsz & Hend & _ & Ebm); [|done|].
  { eapply ga_saved_ext; [exact Hsv|]. intros x Hx. apply Hlow3. lia. }
  destruct (add_objects objs (t0, Loaded ∅ ∅ ∅) Hk Ht) as [Hall _].
  { apply Forall_forall. intros o _. unfold object_absent. cbn [fst snd ld_objects ld_last_commit ld_log_heads]. rewrite Ha. repeat split; apply lookup_empty. }
  destruct (foldl add_object (t0, Loaded ∅ ∅ ∅) objs) as [t l'] eqn:Et.
  exists nvm3, g', t, l'. split; [reflexivity|]. split; [exact Eg'|]. split; [exact Hga'|].
  split; [exact Hsz|]. split; [exact Hend|]. split; [|split; [|exact Hall]].
  - intros q Hq. assert (Hr : 0 <= q / 64 < bitmap_cells).
    { clear -Hq. change bitmap_cells with 4194304. change total_pages with 268435456 in Hq. dlia. }
    unfold page_set. rewrite Ebm. apply (f_equal (fun c => Z.testbit c (q mod 64))). etransitivity; [exact (loadBitmap_spec ∅ nvm3 _ _ Hr)|exact (Hcell _ Hr)].
  - rewrite Ec, <- Et. unfold Zlength. rewrite Nat2Z.id. apply (load_objects_spec objs nvm2); [exact Ho|intros; reflexivity].
Qed.

End Load.

(** ** Live data *)

(** The bitmap in the file is the one of the allocator. *)
Lemma tables_bitmap cores h g objs nvm nvm' :
  saveAllocationTables h g objs nvm = Ok nvm' -> Forall (so_ok cores) objs ->
  bitmap_offset h + bitmapSize <= global_offset h <= alloc_offset h ->
  forall i, 0 <= i < bitmap_cells -> wget nvm' (bitmap_offset h + 8 * i) = cell (ga_bitmap g) i.
Proof.
  intros E Ho Hlay i Hi. unfold saveAllocationTables in E.
  destruct (saveBitmap_spec (ga_bitmap g) nvm (bitmap_offset h)) as (nvm1 & E1 & Hbit & _). rewrite E1 in E. cbn [res_bind] in E.
  apply res_bind_Ok in E as (nvm2 & E2 & E). apply Ok_inj in E. rewrite <- E.
  change bitmapSize with 33554432 in Hlay. rewrite <- (Hbit i Hi). change bitmap_cells with 4194304 in Hi.
  rewrite (save_objects_other cores); [|exact Ho|left; lia]. apply (ga_save_low _ _ _ _ _ E2). lia.
Qed.

(** Restoring gives back every line of every page of the bitmap. *)
Lemma restore_snapshot h nvm blocks m0 c m1 q k :
  0 <= blocks -> reachable h nvm blocks m0 c ->
  (forall i w, cf_workers c !! i = Some w -> w_pc w = WDone) -> no_fault_handlers (cf_snap c) blocks = true ->
  bitmap_words h nvm blocks -> 0 <= q < 512 * blocks -> 0 <= k < 64 -> page_bit nvm (bitmap_offset h) q = true ->
  let x := BaseAddress + BitmapGranularity * q + 64 * k in
  heap_line (restore_threads (Z.to_nat SnapshotThreads) (SnapshotFile h nvm (sn_data (cf_snap c))) (blocks / SnapshotThreads) 0 m1) x
  = heap_line m0 x.
Proof.
  intros Hb Hr Hd Hn Hpos Hq Hk Hbit x.
  assert (H4 : blocks mod 4 = 0).
  { destruct Hr as (ws & ? & E & _). unfold saveModifiedPages, SnapshotThreads in E. by destruct (Z.eqb_spec (blocks mod 4) 0). }
  assert (Hbx : block_of x = q / 512).
  { unfold block_of, x. change BitmapGranularity with 4096. change BlockSize with 2097152. dlia. }
  assert (Hin : x ∈ block_lines h nvm (q / 512)).
  { apply elem_block_lines; [dlia|]. exists q, k. split; [dlia|]. split; [done|]. split; [done|]. congruence. }
  pose proof (page_block_used h nvm blocks q Hpos Hq Hbit) as Hu.
  change (Z.to_nat SnapshotThreads) with 4%nat. change SnapshotThreads with 4.
  rewrite restore_threads_spec; cbn [f_header f_words f_data]; [|intros i Hi; apply Hpos; dlia|lia|dlia].
  unfold restored. cbn [f_header f_words]. rewrite Hbx, Hu, !bool_decide_true by (first [done|dlia]). cbn [andb].
  assert (Hs : saved h m0 (cf_snap c) x).
  { apply (finished_saved h nvm blocks m0 Hb c (q / 512) x Hr Hd Hn); [|done]. split; [dlia|done]. }
  unfold heap_line at 1. by rewrite Hs.
Qed.

(** A cache line of the heap is line [k] of page [q]. *)
Lemma line_page e blocks x :
  blocks = (e - BaseAddress) / 2097152 -> e mod 2097152 = 0 -> e <= BaseAddress + 1099511627776 ->
  BaseAddress <= x < e -> x mod 64 = 0 ->
  exists q k, x = BaseAddress + BitmapGranularity * q + 64 * k /\ 0 <= k < 64 /\ 0 <= q < 512 * blocks /\ 0 <= blocks <= 524288.
Proof.
  change BaseAddress with 1099511627776. change BitmapGranularity with 4096. intros Eb He Hmax Hx Hm.
  exists ((x - 1099511627776) / 4096), ((x - 1099511627776) mod 4096 / 64).
  assert (Hb : e = 1099511627776 + 2097152 * blocks) by dlia. clear Eb He. split; [dlia|]. split; [dlia|]. split; [dlia|lia].
Qed.

(** The lines of the pages in the bitmap of the frozen program. *)
Lemma page_restored cores h g objs nvm nvm' blocks c m1 x :
  heap_ok (ga_mem g) -> cells_wf (ga_bitmap g) -> allocatedBlocks g = Ok blocks -> Forall (so_ok cores) objs ->
  bitmap_offset h + bitmapSize <= global_offset h <= alloc_offset h ->
  saveAllocationTables h g objs nvm = Ok nvm' -> reachable h nvm' blocks (lines (ga_mem g)) c ->
  (forall i w, cf_workers c !! i = Some w -> w_pc w = WDone) -> no_fault_handlers (cf_snap c) blocks = true ->
  BaseAddress <= x < heap_end (ga_mem g) -> x mod 64 = 0 ->
  page_set (ga_bitmap g) ((x - BaseAddress) / BitmapGranularity) = true ->
  heap_line (restore_threads (Z.to_nat SnapshotThreads) (SnapshotFile h nvm' (sn_data (cf_snap c))) (blocks / SnapshotThreads) 0 m1) x
  = line_at (ga_mem g) x.
Proof.
  intros Hheap Hwf Eblk Hobjs Hlay Esave Hr Hd Hn Hx Hmod Hset. pose proof (ho_max _ Hheap) as Hmax.
  rewrite allocatedBlocks_spec in Eblk by done. apply Ok_inj in Eblk. destruct (heap_end_aligned _ Hheap) as [Hal _].
  pose proof (tables_bitmap cores h g objs nvm nvm' Esave Hobjs Hlay) as Hcell.
  change BlockSize with 2097152 in *. change MaxMemorySize with 1099511627776 in *.
  destruct (line_page (heap_end (ga_mem g)) blocks x) as (q & k & -> & Hk & Hq & Hblocks); [exact (eq_sym Eblk)|done|clear -Hmax; change BaseAddress with 1099511627776 in *; lia|lia|done|].
  assert (Hcells : forall j, 0 <= j < 8 * blocks -> wget nvm' (bitmap_offset h + 8 * j) = cell (ga_bitmap g) j).
  { intros j Hj. apply Hcell. change bitmap_cells with 4194304. lia. }
  apply (restore_snapshot h nvm' blocks (lines (ga_mem g)) c m1 q k); [lia|exact Hr|exact Hd|exact Hn| |exact Hq|exact Hk|].
  - intros j Hj. rewrite Hcells by done. apply Hwf.
  - unfold page_bit. rewrite Hcells by (clear -Hq; dlia). change (page_set (ga_bitmap g) q = true).
    rewrite <- Hset. f_equal. clear -Hk Hq. change BitmapGranularity with 4096. change BaseAddress with 1099511627776. dlia.
Qed.

Lemma live_chunk_pages g l o Cs i C chunk s x :
  oa_inv g l o Cs -> Cs !! i = Some C -> C !! chunk = Some (s, true) -> chunk <= x < chunk + s ->
  BaseAddress <= x < heap_end (ga_mem g) /\ page_set (ga_bitmap g) ((x - BaseAddress) / BitmapGranularity) = true.
Proof.
  intros Ho HC Hc Hx. destruct (lookup_lt_is_Some_2 (free_lists o) i) as [fl Hfl].
  { rewrite <- (proj2 (proj2 (oi_cores _ _ _ _ Ho))). by eapply lookup_lt_Some. }
  destruct (oi_lists _ _ _ _ Ho i fl C Hfl HC) as [[B Hinv] _ _ _ Hlive].
  destruct (ti_chunk _ _ _ _ (fi_tiling _ _ _ _ Hinv) _ _ _ Hc) as [_ [Hlo Hhi] Hblk _ _ _ _ _ _]. pose proof (off_range chunk).
  assert (Hin : BaseAddress <= x < heap_end (ga_mem g)) by (change BlockSize with 2097152 in *; lia). split; [done|].
  apply (Hlive chunk s _ Hc); clear -Hx Hin; [change BaseAddress with 1099511627776 in *; change BitmapGranularity with 4096; dlia|].
  unfold overlaps. change BitmapGranularity with 4096 in *. rewrite andb_true_iff, Z.leb_le, Z.ltb_lt.
  change BaseAddress with 1099511627776 in *. dlia.
Qed.

(** [C31] The data survives a snapshot.  Let the program be frozen with heap
    [g], the tables be saved, and the copying threads and fault handlers end
    in any interleaving with writes of the program.  Then, after the restore
    threads of a new process have run, every cache line of every page that was
    set in the bitmap has the contents it had when the program was frozen.
    In particular this holds for the live chunks of every object whose heap
    satisfies the invariant of its allocator.  The statement is about the
    restore threads; the pass of [load] that gives free blocks back to the
    global allocator comes after them. *)
Theorem live_data_survives cores h g objs nvm nvm' blocks c m1 :
  heap_ok (ga_mem g) -> cells_wf (ga_bitmap g) -> allocatedBlocks g = Ok blocks -> Forall (so_ok cores) objs ->
  bitmap_offset h + bitmapSize <= global_offset h <= alloc_offset h ->
  saveAllocationTables h g objs nvm = Ok nvm' -> reachable h nvm' blocks (lines (ga_mem g)) c ->
  (forall i w, cf_workers c !! i = Some w -> w_pc w = WDone) -> no_fault_handlers (cf_snap c) blocks = true ->
  let restored := restore_threads (Z.to_nat SnapshotThreads) (SnapshotFile h nvm' (sn_data (cf_snap c))) (blocks / SnapshotThreads) 0 m1 in
  (forall x, BaseAddress <= x < heap_end (ga_mem g) -> x mod 64 = 0 ->
     page_set (ga_bitmap g) ((x - BaseAddress) / BitmapGranularity) = true -> heap_line restored x = line_at (ga_mem g) x) /\
  (forall l o Cs i C chunk s x, oa_inv g l o Cs -> Cs !! i = Some C -> C !! chunk = Some (s, true) ->
     chunk <= x < chunk + s -> x mod 64 = 0 -> heap_line restored x = line_at (ga_mem g) x).
Proof.
  intros Hheap Hwf Eblk Hobjs Hlay Esave Hr Hd Hn restored.
  assert (Hpages : forall x, BaseAddress <= x < heap_end (ga_mem g) -> x mod 64 = 0 ->
     page_set (ga_bitmap g) ((x - BaseAddress) / BitmapGranularity) = true -> heap_line restored x = line_at (ga_mem g) x).
  { intros x Hx Hmod Hset. by apply (page_restored cores h g objs nvm nvm' blocks c m1). }
  split; [done|]. intros l o Cs i C chunk s x Ho HC Hc Hx Hmod.
  destruct (live_chunk_pages g l o Cs i C chunk s x Ho HC Hc Hx) as [Hin Hset]. by apply Hpages.
Qed.

(** ** Concrete instances *)

Definition demo_sobject (o : oalloc) : sobject := SObject 3 128 4096 8192 o.

Lemma demo_ga_inv : ga_inv demo_galloc [BaseAddress].
Proof. apply (ge_inv _ _ _ (ga_init_inv demo_mmap demo_galloc eq_refl)). Qed.

Lemma demo_so_ok : so_ok 2 (demo_sobject demo_object).
Proof.
  constructor; cbn [demo_sobject so_alloc].
  - split; [done|]. apply Forall_forall. intros x [-> _]%elem_of_replicate. done.
  - done.
  - apply Forall_forall. intros fl Hfl%list_elem_of_In.
    assert (E : List.forallb saveableb (free_lists demo_object) = true) by (by vm_compute).
    by apply saveableb_ok, (proj1 (List.forallb_forall _ _) E).
Qed.

Definition demo_prepared : list (list Z) * snapshot_header_t :=
  res_get ([], demo_header) (prepareSnapshot [] [demo_sobject demo_object]).

Lemma snapshot_tables_roundtrip_witness :
  exists nvm' g' t l', saveAllocationTables (snd demo_prepared) demo_galloc [demo_sobject demo_object] ∅ = Ok nvm' /\
    ga_load demo_mmap nvm' (global_offset (snd demo_prepared)) (bitmap_offset (snd demo_prepared)) = Ok g' /\
    ga_inv g' [BaseAddress] /\ object_loaded (t, l') (demo_sobject demo_object).
Proof.
  destruct (snapshot_tables_roundtrip 2 demo_mmap [] [demo_sobject demo_object] (fst demo_prepared) (snd demo_prepared)
    demo_galloc [BaseAddress] ∅ (ATable ∅ ∅ 0 64)) as (nvm' & g' & t & l' & E1 & E2 & E3 & _ & _ & _ & _ & E4).
  - vm_compute. reflexivity.
  - exact demo_ga_inv.
  - vm_compute. intros ?. discriminate.
  - apply Forall_singleton. exact demo_so_ok.
  - apply NoDup_singleton.
  - apply NoDup_singleton.
  - vm_compute. reflexivity.
  - reflexivity.
  - exists nvm', g', t, l'. apply Forall_inv in E4. exact (conj E1 (conj E2 (conj E3 E4))).
Defined.

(** A live chunk, a snapshot of it, and what is restored. *)
Lemma live_data_survives_witness :
  exists g o ptr nvm' c, oa_alloc demo_mmap demo_galloc demo_object 7 100 = Ok (g, o, ptr) /\
    saveAllocationTables (snd demo_prepared) g [demo_sobject demo_object] ∅ = Ok nvm' /\
    heap_line (restore_threads 4 (SnapshotFile (snd demo_prepared) nvm' (sn_data (cf_snap c))) 32 0 ∅) (ptr - 8)
    = line_at (ga_mem g) (ptr - 8).
Proof.
  destruct demo_inv as [l Hl]. set (i := Z.to_nat (getOffset demo_object 7)).
  destruct (oa_alloc_spec demo_mmap demo_mmap_below demo_galloc l demo_object (replicate 2 ∅) 7 100 ∅ Hl) as
    [[_ E]|(g & l' & o & C & ptr & E & Hinv & Hac & _)];
    [change BlockSize with 2097152; lia|vm_compute; reflexivity|intros c s Hc; exfalso; by rewrite lookup_empty in Hc|exfalso; revert E; vm_compute; discriminate|].
  assert (Eblk : allocatedBlocks g = Ok 128).
  { assert (Er : res_get (demo_galloc, demo_object, 0) (oa_alloc demo_mmap demo_galloc demo_object 7 100) = (g, o, ptr)) by (by rewrite E).
    change g with (fst (fst (g, o, ptr))). rewrite <- Er. vm_compute. reflexivity. }
  destruct (saveBitmap_spec (ga_bitmap g) ∅ (bitmap_offset (snd demo_prepared))) as (nvm1 & Es1 & _).
  destruct (ga_save_spec g l' nvm1 (global_offset (snd demo_prepared)) (oi_ga _ _ _ _ Hinv)) as (nvm2 & Es2 & _).
  set (nvm' := save_objects [demo_sobject demo_object] nvm2 (alloc_offset (snd demo_prepared))).
  assert (Es : saveAllocationTables (snd demo_prepared) g [demo_sobject demo_object] ∅ = Ok nvm').
  { unfold saveAllocationTables. rewrite Es1. cbn [res_bind]. rewrite Es2. reflexivity. }
  destruct (snapshot_completes (snd demo_prepared) nvm' 128 (lines (ga_mem g)) ltac:(lia) (res_get [] (saveModifiedPages 128)) eq_refl)
    as (c & Hr & Hd & Hn).
  exists g, o, ptr, nvm', c. split; [exact E|]. split; [exact Es|].
  pose proof (ac_new _ _ _ _ Hac) as Hnew.
  refine (proj2 (live_data_survives 2 (snd demo_prepared) g [demo_sobject demo_object] ∅ nvm' 128 c ∅ _ _ Eblk _ _ _ _ _ _)
    l' o (<[i := C]> (replicate 2 ∅)) i C (ptr - 8) (chunk_size_of 100) (ptr - 8) Hinv _ _ _ _).
  - apply (oi_ga _ _ _ _ Hinv).
  - apply (oi_wf _ _ _ _ Hinv).
  - apply Forall_singleton. exact demo_so_ok.
  - vm_compute. split; intros ?; discriminate.
  - exact Es.
  - exact Hr.
  - exact Hd.
  - exact Hn.
  - apply list_lookup_insert_eq. vm_compute. lia.
  - exact Hnew.
  - change (chunk_size_of 100) with 128. lia.
  - destruct (oi_cores _ _ _ _ Hinv) as (_ & _ & Elen).
    assert (HiC : (<[i := C]> (replicate 2 ∅) : list chunks) !! i = Some C) by (apply list_lookup_insert_eq; vm_compute; lia).
    destruct (lookup_lt_is_Some_2 (free_lists o) i) as [fl Hfl]; [rewrite <- Elen; by eapply lookup_lt_Some|].
    destruct (oi_lists _ _ _ _ Hinv i fl C Hfl HiC) as [[B Hfi] _ _ _ _].
    exact (proj1 (ck_aligned _ _ _ _ _ _ _ (ti_chunk _ _ _ _ (fi_tiling _ _ _ _ Hfi) _ _ _ Hnew))).
Defined.
