(* ===== verification/Freeze.v ===== *)
(** * Freezing the program for a snapshot (snapshot.cpp, thread.cpp)

    A snapshot sets the [snapshot_lock] of every object and then reads the
    counter [tx_buffer[0]] of every thread until one pass finds them all 0;
    from then on no thread may write a log until the locks are cleared.  Here
    the operations of Snapshot.v meet the threads of Tx.v.  The counter of a
    thread is 0 in two short windows although the thread is about to write a
    log; the theorem says that no other thread does. *)

From stdpp Require Import base numbers list gmap strings.
From S2P Require Import Prelude Pmem Savitar NvLog Snapshot Tx TxProofs.

Section freeze.
Variable call_log : Z -> Z -> list Z -> list (list Z).
Variable obj_uuid : Z -> list Z.
Variable log_len : Z.

(** Steps of the program while the locks are set: calls go to the objects
    [objs] of the manager, and only the snapshot clears locks.  Every step
    belongs to a thread. *)
Inductive frozen_step (objs : list Z) : system -> nat -> output -> system -> Prop :=
| frozen_worker sh ts i t act sh' t' out :
    ts !! i = Some t -> action_ok act -> (act = AExit -> stack t = []) ->
    (forall c, act = ACall c -> c_obj c ∈ objs) ->
    worker_step act sh t = Ok (sh', t', out) ->
    frozen_step objs (System sh ts) i out (System sh' (<[i := t']> ts))
| frozen_persister sh ts i t sh' t' out :
    ts !! i = Some t -> persister_step call_log obj_uuid log_len sh t = Ok (sh', t', out) ->
    frozen_step objs (System sh ts) i out (System sh' (<[i := t']> ts))
| frozen_create sh ts :
    frozen_step objs (System sh ts) (length ts) None (System sh (ts ++ [thread_create])).

(** The log operations of a run, with the threads that made them. *)
Inductive frozen_run (objs : list Z) : system -> list (nat * (Z * log_op)) -> system -> Prop :=
| frozen_nil s : frozen_run objs s [] s
| frozen_cons s1 i out s2 tr s3 :
    frozen_step objs s1 i out s2 -> frozen_run objs s2 tr s3 ->
    frozen_run objs s1 (match out with Some e => (i, e) :: tr | None => tr end) s3.

(** The worker is neither between [tx_buffer[0]--] and its commit, nor
    between the last test of the lock and [tx_buffer[0] = 1]. *)
Definition settled (w : wpc) : Prop :=
  match w with WCommit _ _ | WUnblock _ => False | _ => True end.

(** A pass of [waitForRunningTransactions] over the counters, thread by
    thread, while the program goes on: [us] are the threads in the states in
    which they were read. *)
Inductive scan (objs : list Z) : system -> list tstate -> system -> Prop :=
| scan_start s : scan objs s [] s
| scan_step s us s1 i out s2 : scan objs s us s1 -> frozen_step objs s1 i out s2 -> scan objs s us s2
| scan_read s us s1 t : scan objs s us s1 -> threads s1 !! length us = Some t -> scan objs s (us ++ [t]) s1.

(** ** Quiet threads *)

(** No open call, and a call that is being opened will meet the lock. *)
Definition quiet (objs : list Z) (t : tstate) : Prop :=
  stack t = [] /\
  match worker t with
  | WRun | WTerm => True
  | WInc c | WZero c | WCheck c | WBlock c | WBlocked c => c_obj c ∈ objs
  | _ => False
  end.

(** A thread that opens a call opens it on an object of the manager. *)
Definition known (objs : list Z) (t : tstate) : Prop :=
  forall c, opening (worker t) = Some c -> c_obj c ∈ objs.

Lemma frozen_is_step objs s i out s' :
  frozen_step objs s i out s' -> step call_log obj_uuid log_len s out s'.
Proof. destruct 1; [by eapply step_worker|by eapply step_persister|apply step_create]. Qed.

Lemma counter_quiet objs sh t :
  inv call_log obj_uuid sh t -> known objs t -> tx0 t = 0 -> settled (worker t) -> quiet objs t.
Proof.
  intros Hi Hk H0 Hs. pose proof (inv_tx0 _ _ _ _ Hi) as E. rewrite H0 in E.
  assert (Hnil : stack t = []).
  { destruct (stack t) as [|c st]; [done|]. cbn [length] in E. assert (0 <= counted (worker t)) by (by destruct (worker t)). lia. }
  split; [done|]. rewrite Hnil in E. pose proof (inv_spinning _ _ _ _ Hi) as Hsp.
  destruct (worker t) eqn:Ew; try done; try (apply Hk; by rewrite Ew); by destruct (Hsp I).
Qed.

Lemma quiet_worker objs act sh t sh' t' out :
  inv call_log obj_uuid sh t -> quiet objs t -> list_to_set objs ⊆ snapshot_locks sh ->
  (forall c, act = ACall c -> c_obj c ∈ objs) -> worker_step act sh t = Ok (sh', t', out) ->
  quiet objs t' /\ sh' = sh /\ out = None.
Proof.
  intros Hi [Hst Hq] Hl Hact E. pose proof (inv_tx0 _ _ _ _ Hi) as H0. unfold worker_step in E.
  destruct (worker t) eqn:Ew; try done; cbn [counted] in H0.
  - destruct act as [c| |].
    + res_inv E. apply Ok_inj in E. injection E as <- <- <-. split; [|done]. split; [done|]. by apply Hact.
    + by rewrite bool_decide_true in E.
    + res_inv E. apply Ok_inj in E. injection E as <- <- <-. done.
  - apply Ok_inj in E. injection E as <- <- <-. done.
  - apply Ok_inj in E. injection E as <- <- <-. done.
  - rewrite H0, Hst, bool_decide_true in E by set_solver. apply Ok_inj in E. by injection E as <- <- <-.
  - apply Ok_inj in E. injection E as <- <- <-. done.
  - rewrite bool_decide_true in E by set_solver. apply Ok_inj in E. injection E as <- <- <-.
    split; [|done]. split; [done|]. by rewrite Ew.
  - apply Ok_inj in E. injection E as <- <- <-. split; [|done]. split; [done|]. by rewrite Ew.
Qed.

Lemma quiet_persister objs sh t sh' t' out :
  inv call_log obj_uuid sh t -> quiet objs t -> persister_step call_log obj_uuid log_len sh t = Ok (sh', t', out) ->
  quiet objs t' /\ sh' = sh /\ out = None.
Proof.
  intros Hi Hq E. pose proof (proj1 Hq) as Hst. destruct (inv_persister _ _ _ _ Hi) as [_ Hp]. rewrite Hst in Hp. unfold persister_step in E.
  destruct (persister t) eqn:Ep.
  all: try (destruct Hp as [Hp _]; cbn [length] in Hp; lia).
  all: repeat case_match; try discriminate E; apply Ok_inj in E; injection E as <- <- <-; (split; [exact Hq|by split]).
Qed.

Lemma worker_step_locks act sh t sh' t' out :
  worker_step act sh t = Ok (sh', t', out) -> snapshot_locks sh' = snapshot_locks sh.
Proof.
  unfold worker_step. intros E. repeat case_match; try discriminate E; try (res_inv E); try discriminate E;
    apply Ok_inj in E; by injection E as <- <- <-.
Qed.

Lemma persister_step_locks sh t sh' t' out :
  persister_step call_log obj_uuid log_len sh t = Ok (sh', t', out) -> snapshot_locks sh' = snapshot_locks sh.
Proof.
  unfold persister_step. intros E. repeat case_match; try discriminate E; try (res_inv E); try discriminate E;
    apply Ok_inj in E; by injection E as <- <- <-.
Qed.

Lemma known_step objs s who out s' i t' :
  (forall j t, threads s !! j = Some t -> known objs t) -> frozen_step objs s who out s' ->
  threads s' !! i = Some t' -> known objs t'.
Proof.
  intros Hk Hs. destruct Hs as [sh ts j t act sh' t1 out Hj _ _ Hact E|sh ts j t sh' t1 out Hj E|sh ts]; cbn [threads] in *; intros Hi.
  - apply list_lookup_insert_Some in Hi as [(<- & <- & _)|[_ Hi]]; [|by eapply Hk].
    specialize (Hk _ _ Hj). intros c Hc. unfold worker_step in E.
    destruct (worker t) eqn:Ew; [destruct act as [c0| |]|..]; try (res_inv E); repeat case_match; try done;
      try (apply Ok_inj in E; injection E as <- <- <-); cbn in Hc; rewrite ?Ew in Hc; try done;
      try (injection Hc as <-); try (by apply Hact); apply Hk; by rewrite Ew.
  - apply list_lookup_insert_Some in Hi as [(<- & <- & _)|[_ Hi]]; [|by eapply Hk].
    specialize (Hk _ _ Hj). assert (Ew : worker t1 = worker t); [|intros c; rewrite Ew; apply Hk].
    unfold persister_step in E. destruct (persister t); try (res_inv E); repeat case_match; try done;
      apply Ok_inj in E; by injection E as <- <- <-.
  - apply lookup_app_Some in Hi as [Hi|[_ Hi]]; [by eapply Hk|]. apply list_lookup_singleton_Some in Hi as [_ <-]. by intros c [=].
Qed.

(** While the locks are set: every thread satisfies its invariant, opens
    calls only on objects of the manager, and the threads of [P] are quiet. *)
Record frozen (objs : list Z) (P : nat -> Prop) (s : system) : Prop := {
  fr_inv : sys_inv call_log obj_uuid s;
  fr_locks : list_to_set objs ⊆ snapshot_locks (sys s);
  fr_known : forall i t, threads s !! i = Some t -> known objs t;
  fr_quiet : forall i t, P i -> threads s !! i = Some t -> quiet objs t
}.

(** A step keeps the quiet threads quiet, and a quiet thread writes nothing. *)
Lemma frozen_preserved objs P s i out s' :
  frozen objs P s -> frozen_step objs s i out s' ->
  frozen objs P s' /\ (P i -> out = None /\ sys s' = sys s).
Proof.
  intros [Hi Hl Hk Hq] Hs.
  assert (Hi' : sys_inv call_log obj_uuid s') by (eapply step_sys_inv; [exact Hi|exact (frozen_is_step _ _ _ _ _ Hs)]).
  pose proof (proj1 Hi) as Hti.
  assert (Hk' : forall i t, threads s' !! i = Some t -> known objs t) by (intros ? t; by eapply known_step).
  destruct Hs as [sh ts j t act sh' t1 out Hj Hok Hex Hact E|sh ts j t sh' t1 out Hj E|sh ts]; cbn [threads sys] in *.
  - assert (Hw : P j -> quiet objs t1 /\ sh' = sh /\ out = None) by (intros; eapply quiet_worker; eauto).
    split; [|intros Hp; by destruct (Hw Hp) as (_ & -> & ->)]. split; [done| |done|]; cbn [threads sys].
    + by rewrite (worker_step_locks _ _ _ _ _ _ E).
    + intros k t' Hp Hk2. apply list_lookup_insert_Some in Hk2 as [(<- & <- & _)|[_ Hk2]]; [by apply Hw|by eapply Hq].
  - assert (Hw : P j -> quiet objs t1 /\ sh' = sh /\ out = None) by (intros; eapply quiet_persister; eauto).
    split; [|intros Hp; by destruct (Hw Hp) as (_ & -> & ->)]. split; [done| |done|]; cbn [threads sys].
    + by rewrite (persister_step_locks _ _ _ _ _ E).
    + intros k t' Hp Hk2. apply list_lookup_insert_Some in Hk2 as [(<- & <- & _)|[_ Hk2]]; [by apply Hw|by eapply Hq].
  - split; [|done]. split; [done|done|done|]; cbn [threads sys].
    intros k t Hp Hk2. apply lookup_app_Some in Hk2 as [Hk2|[_ Hk2]]; [by eapply Hq|].
    apply list_lookup_singleton_Some in Hk2 as [_ <-]. by split.
Qed.

(** The threads that were read with a counter of 0 outside the two windows. *)
Definition read_settled (us : list tstate) (i : nat) : Prop := exists u, us !! i = Some u /\ settled (worker u).

Lemma scan_frozen objs s us s' :
  scan objs s us s' -> frozen objs (fun _ => False) s -> areThereTransactionsRunning (tx0 <$> us) = false ->
  frozen objs (read_settled us) s'.
Proof.
  induction 1 as [s|s us s1 i out s2 _ IH Hs|s us s1 t _ IH Ht]; intros Hf Hcs.
  - destruct Hf as [Hi Hl Hk _]. split; [done..|]. by intros i t (u & Hu & _).
  - by eapply frozen_preserved; [exact (IH Hf Hcs)|].
  - unfold areThereTransactionsRunning in Hcs. rewrite fmap_app, existsb_app in Hcs. apply orb_false_iff in Hcs as [Hcs H0].
    cbn in H0. rewrite orb_false_r, negb_false_iff, Z.eqb_eq in H0. destruct (IH Hf Hcs) as [Hi Hl Hk Hq].
    split; [done..|]. intros i t' (u & Hu & Hset) Ht'. apply lookup_app_Some in Hu as [Hu|[Hge Hu]]; [by eapply Hq; [by exists u|]|].
    apply list_lookup_singleton_Some in Hu as [Hlen <-]. assert (i = length us) as -> by lia. rewrite Ht in Ht'. injection Ht' as <-.
    eapply counter_quiet; eauto. by apply (proj1 Hi (length us)).
Qed.

Lemma frozen_no_log objs P s tr s' :
  frozen_run objs s tr s' -> frozen objs P s ->
  (forall i e, (i, e) ∈ tr -> ~ P i) /\ ((forall i, P i) -> tr = [] /\ logs (sys s') = logs (sys s)).
Proof.
  induction 1 as [s|s1 i out s2 tr s3 Hs _ IH]; intros Hf; [split; [intros i e Hin; by apply elem_of_nil in Hin|done]|].
  destruct (frozen_preserved _ _ _ _ _ _ Hf Hs) as [Hf2 Hsame]. destruct (IH Hf2) as [Hwho Hall]. split.
  - intros k e Hin Hp. destruct out as [e'|]; [|by eapply Hwho]. apply elem_of_cons in Hin as [[= -> ->]|Hin]; [|by eapply Hwho].
    by destruct (Hsame Hp).
  - intros HP. destruct (Hsame (HP i)) as [-> <-]. by apply Hall.
Qed.

(** [C27] Freezing.  After the locks of the manager's objects are set, let a
    pass over the threads read every counter as 0, thread by thread while the
    program goes on; calls go to objects of the manager and the locks stay
    set.  Then every append and every commit that follows is made by a thread
    that was read in one of two windows: between the decrement of the counter
    and the commit of its call, or between its last test of the lock and
    setting the counter again; all other threads, also those created later,
    write nothing.  If no thread was read in these windows, the logs do not
    change at all: the tables that the snapshot saves next belong to one
    state of the logs.  That the first window is a real one is
    [freeze_misses_commit]. *)
Theorem frozen_threads_stay_quiet objs locks sh ts us s1 tr s2 :
  reachable call_log obj_uuid log_len (System (Shared (logs sh) (blockNewTransactions objs locks)) ts) ->
  (forall i t, ts !! i = Some t -> known objs t) ->
  scan objs (System (Shared (logs sh) (blockNewTransactions objs locks)) ts) us s1 ->
  length us = length (threads s1) -> areThereTransactionsRunning (tx0 <$> us) = false ->
  frozen_run objs s1 tr s2 ->
  (forall i e, (i, e) ∈ tr -> exists u, us !! i = Some u /\
     ((exists c off, worker u = WCommit c off) \/ exists c, worker u = WUnblock c)) /\
  (Forall (fun u => settled (worker u)) us -> tr = [] /\ logs (sys s2) = logs (sys s1)).
Proof.
  intros Hr Hk Hs Hlen Hcs Hrun.
  assert (Hf : frozen objs (fun i => forall u, us !! i = Some u -> settled (worker u)) s1).
  { destruct (scan_frozen _ _ _ _ Hs) as [Hi Hl Hkn Hq]; [|done|].
    - split; [by eapply reachable_inv|cbn; unfold blockNewTransactions; set_solver|done|done].
    - split; [done..|]. intros i t Hp Hi2. apply (Hq i t); [|done].
      destruct (lookup_lt_is_Some_2 us i) as [u Hu]; [rewrite Hlen; by eapply lookup_lt_Some|]. exists u. auto. }
  destruct (frozen_no_log _ _ _ _ _ Hrun Hf) as [Hwho Hall]. split.
  - intros i e Hin. specialize (Hwho i e Hin). destruct (us !! i) as [u|] eqn:Hu; [|by destruct Hwho].
    exists u. split; [done|]. destruct (worker u) eqn:Ew; try (by destruct Hwho; intros u' [= <-]; rewrite Ew); eauto.
  - intros Hset. apply Hall. intros i u Hu. exact (Forall_lookup_1 _ _ _ _ Hset Hu).
Qed.

End freeze.

(** ** Concrete executions *)

(** A call on object 7 up to the decrement of the counter: logged, popped,
    not yet committed. *)
Definition popped_moves : list move :=
  demo_call 7 ++ replicate 6 MPersister ++ replicate 3 (MWorker AReturn).
Definition popped_state : shared * tstate :=
  res_get (Shared ∅ ∅, thread_create) (play demo_call_log demo_uuid 1024 popped_moves (Shared ∅ ∅) thread_create).

(** The same with the commit. *)
Definition closed_moves : list move := popped_moves ++ [MWorker AReturn].
Definition closed_state : shared * tstate :=
  res_get (Shared ∅ ∅, thread_create) (play demo_call_log demo_uuid 1024 closed_moves (Shared ∅ ∅) thread_create).

Lemma popped_moves_ok : Forall move_ok popped_moves.
Proof. unfold popped_moves, demo_call. simpl. moves_ok. Qed.

Lemma locked_reachable sh t locks :
  reachable demo_call_log demo_uuid 1024 (System sh [t]) ->
  reachable demo_call_log demo_uuid 1024 (System (Shared (logs sh) locks) [t]).
Proof. intros (tr & Hr). eapply run_snoc; [exact Hr|]. apply step_snapshot. Qed.

Lemma frozen_threads_stay_quiet_witness :
  exists s1 s2 tr, frozen_run demo_call_log demo_uuid 1024 [7] s1 tr s2 /\ s1 <> s2 /\
    tr = [] /\ logs (sys s2) = logs (sys s1).
Proof.
  set (sh := Shared (logs (fst closed_state)) (blockNewTransactions [7] ∅)). set (t := snd closed_state).
  set (t1 := snd (fst (res_get (sh, t, None) (worker_step (ACall (Call 7 1 [])) sh t)))).
  exists (System sh [t]), (System sh [t1]), [].
  assert (Hrun : frozen_run demo_call_log demo_uuid 1024 [7] (System sh [t]) [] (System sh [t1])).
  { refine (frozen_cons _ _ _ _ _ 0 None _ [] _ _ (frozen_nil _ _ _ _ _)).
    apply (frozen_worker _ _ _ _ sh [t] 0 t (ACall (Call 7 1 [])) sh t1 None); [done| |done| |vm_compute; reflexivity].
    - split; [split; by_eval|apply Nat.leb_le; reflexivity].
    - intros c [= <-]. by apply list_elem_of_here. }
  split; [exact Hrun|]. split; [by vm_compute|].
  refine (proj2 (frozen_threads_stay_quiet demo_call_log demo_uuid 1024 [7] ∅ (fst closed_state) [t] [t] (System sh [t]) [] (System sh [t1]) _ _ _ _ _ _) _).
  - apply locked_reachable. apply (play_reachable _ _ _ closed_moves (Shared ∅ ∅) thread_create); [apply create_reachable| |vm_compute; reflexivity].
    unfold closed_moves. apply Forall_app. split; [apply popped_moves_ok|by repeat constructor].
  - intros i t' Hi c Hc. apply list_lookup_singleton_Some in Hi as [_ <-]. by vm_compute in Hc.
  - change [t] with ([] ++ [t]) at 2. apply scan_read; [apply scan_start|done].
  - reflexivity.
  - reflexivity.
  - exact Hrun.
  - constructor; [exact I|constructor].
Defined.

(** Freezing can miss a commit.  [Savitar_thread_wait] decrements the
    counter before it commits; if the pass over the counters falls in
    between, the snapshot proceeds although a call is about to commit: its
    tables record a last commit number that the log then exceeds, and the
    call, whose effects are in the saved heap, is replayed by a recovery
    from this snapshot. *)
Theorem freeze_misses_commit :
  exists s t sh' t', reachable demo_call_log demo_uuid 1024 s /\ threads s = [t] /\
    snapshot_locks (sys s) = blockNewTransactions [7] ∅ /\ areThereTransactionsRunning [tx0 t] = false /\
    worker_step AReturn (sys s) t = Ok (sh', t', Some (7, OpCommit sizeof_RedoLog)) /\
    snd (get_log (sys s) 7) = 0 /\ snd (get_log sh' 7) = 1.
Proof.
  set (sh := Shared (logs (fst popped_state)) (blockNewTransactions [7] ∅)). set (t := snd popped_state).
  exists (System sh [t]), t.
  destruct (worker_step AReturn sh t) as [[[sh' t'] out]| | |] eqn:E; [|by vm_compute in E..].
  exists sh', t'. split.
  { apply locked_reachable. apply (play_reachable _ _ _ popped_moves (Shared ∅ ∅) thread_create);
      [apply create_reachable|apply popped_moves_ok|vm_compute; reflexivity]. }
  vm_compute in E. apply Ok_inj in E. injection E as <- <- <-. by vm_compute.
Qed.
