(* ===== verification/SyncLog.v ===== *)
(** * Synchronous semantic logging (thread.cpp built with SYNC_SL)

    In this build there is no persister thread: [Savitar_thread_notify] logs
    the call itself and [Savitar_thread_wait] does not wait.  Every execution
    of this build is one of the asynchronous build (Tx.v), so what TxProofs.v
    shows holds for both. *)

From stdpp Require Import base numbers list gmap strings.
From S2P Require Import Prelude Pmem Savitar NvLog Tx TxProofs.

Section sync.
Variable call_log : Z -> Z -> list Z -> list (list Z).
Variable obj_uuid : Z -> list Z.
Variable log_len : Z.

(** [Savitar_persister_log(active_tx_id)] *)
Definition Savitar_persister_log (active : nat) (sh : shared) (t : tstate) : res (shared * tstate * output) :=
  let nv_object := obj_ptr (buffer t !!! active) in
  let vectors :=
    if (0 <? active)%nat then
      let nested_tx_tag := nested_tag (tx_buffer t !!! active) in
      let parent := obj_ptr (buffer t !!! (active - 1)%nat) in
      [le_bytes 8 nested_tx_tag; obj_uuid parent]
    else call_log nv_object (method_tag (buffer t !!! active)) (arg_ptrs (buffer t !!! active)) in
  let* r := alog_append log_len (get_log sh nv_object) vectors in
  Ok (set_log sh nv_object (fst r), set_tag (set_tx t (active + 1) (snd r)) active 0, Some (nv_object, OpAppend vectors)).

(** A step of a thread: like [worker_step], but [Savitar_thread_notify] logs
    before it returns and [Savitar_thread_wait] does not spin.  The fields
    of the persister are not used. *)
Definition sync_step (act : action) (sh : shared) (t : tstate) : res (shared * tstate * output) :=
  match worker t with
  | WTag c =>
      let k := Z.to_nat (tx0 t - 1) in
      let t := set_worker (set_stack (set_tag t k (c_tag c)) (stack t ++ [c])) WRun in
      Savitar_persister_log k sh t
  | WSpin => Ok (sh, set_worker t WPop, None)
  | _ => worker_step act sh t
  end.

Inductive sync_sys_step : system -> output -> system -> Prop :=
| sync_worker sh ts i t act sh' t' out :
    ts !! i = Some t -> action_ok act -> (act = AExit -> stack t = []) ->
    sync_step act sh t = Ok (sh', t', out) ->
    sync_sys_step (System sh ts) out (System sh' (<[i := t']> ts))
| sync_create sh ts : sync_sys_step (System sh ts) None (System sh (ts ++ [thread_create]))
| sync_snapshot sh ts locks : sync_sys_step (System sh ts) None (System (Shared (logs sh) locks) ts).

Inductive sync_run : system -> list (Z * log_op) -> system -> Prop :=
| sync_nil s : sync_run s [] s
| sync_cons s1 out s2 tr s3 :
    sync_sys_step s1 out s2 -> sync_run s2 tr s3 ->
    sync_run s1 (match out with Some e => e :: tr | None => tr end) s3.

(** ** Simulation by the asynchronous build *)

(** The asynchronous thread that does what a synchronous one did: its
    persister is idle at the slot of the inner-most open call. *)
Definition idle (t : tstate) : tstate := set_persister t PHead (Nat.pred (length (stack t))).

(** Every open call has been logged. *)
Definition all_logged (t : tstate) : Prop :=
  forall k, (k < length (stack t))%nat -> tx_buffer t !!! S k <> 0.

Definition sim (s s' : system) : Prop :=
  sys s' = sys s /\ threads s' = idle <$> threads s /\ Forall all_logged (threads s) /\ sys_inv call_log obj_uuid s'.

(** Several steps of one persister. *)
Inductive psteps : shared -> tstate -> list (Z * log_op) -> shared -> tstate -> Prop :=
| psteps_nil sh t : psteps sh t [] sh t
| psteps_cons sh t sh1 t1 out tr sh2 t2 :
    persister_step call_log obj_uuid log_len sh t = Ok (sh1, t1, out) -> psteps sh1 t1 tr sh2 t2 ->
    psteps sh t (match out with Some e => e :: tr | None => tr end) sh2 t2.

Lemma psteps_run sh t tr sh' t' ts i :
  psteps sh t tr sh' t' -> ts !! i = Some t ->
  run call_log obj_uuid log_len (System sh ts) tr (System sh' (<[i := t']> ts)).
Proof.
  intros H. revert ts. induction H as [sh t|sh t sh1 t1 out tr sh2 t2 E _ IH]; intros ts Hi.
  - rewrite list_insert_id by done. apply run_nil.
  - eapply run_cons; [by eapply step_persister|]. rewrite <- (list_insert_insert_eq ts i t2 t1). apply IH.
    apply list_lookup_insert_eq. by eapply lookup_lt_Some.
Qed.

Lemma run_app s1 tr1 s2 tr2 s3 :
  run call_log obj_uuid log_len s1 tr1 s2 -> run call_log obj_uuid log_len s2 tr2 s3 ->
  run call_log obj_uuid log_len s1 (tr1 ++ tr2) s3.
Proof.
  induction 1 as [s|s1 out s2 tr s2' Hst _ IH]; intros H2; [done|].
  destruct out; cbn [app]; eapply (run_cons _ _ _ _ _ _ _ _ Hst); by apply IH.
Qed.

Lemma psteps_app sh t sh1 t1 tr sh2 t2 :
  psteps sh t [] sh1 t1 -> psteps sh1 t1 tr sh2 t2 -> psteps sh t tr sh2 t2.
Proof.
  intros H. remember [] as tr0 eqn:E0. revert E0. induction H as [|sh t sh3 t3 out tr0 sh4 t4 E _ IH]; intros E0 H2; [done|].
  destruct out; [done|]. eapply (psteps_cons _ _ _ _ None); [exact E|]. by apply IH.
Qed.

Ltac pstep :=
  unfold persister_step, tag_at, tx0, set_persister; cbn [persister active_tx_id buffer tx_buffer stack worker].

(** The persister logs the call in slot [n]. *)
Lemma psteps_log sh b tx st w n l off :
  (n < length b)%nat -> method_tag (b !!! n) <> 0 -> method_tag (b !!! n) <> UINT64_MAX ->
  (n = 0%nat \/ tx !!! n <> 0) ->
  let o := obj_ptr (b !!! n) in
  let t := Thread b tx st w PHead n in
  alog_append log_len (get_log sh o) (log_vectors call_log obj_uuid t n) = Ok (l, off) ->
  psteps sh t [(o, OpAppend (log_vectors call_log obj_uuid t n))] (set_log sh o l) (set_tag (set_tx t (n + 1) off) n 0).
Proof.
  intros Hn H0 Hm Hp o t E. unfold t in *.
  eapply (psteps_cons _ _ _ _ None).
  { pstep. rewrite (proj2 (Nat.ltb_lt _ _) Hn). by rewrite (proj2 (Z.eqb_neq _ _) H0). }
  eapply (psteps_cons _ _ _ _ None). { pstep. by rewrite (proj2 (Z.eqb_neq _ _) Hm). }
  eapply (psteps_cons _ _ _ _ None).
  { pstep. destruct (Nat.ltb_spec 0 n); [|done]. destruct Hp as [->|Hp]; [lia|]. cbn [andb]. by rewrite (proj2 (Z.eqb_neq _ _) Hp). }
  eapply (psteps_cons _ _ _ _ (Some _) []). { pstep. fold o. change (log_vectors _ _ _ n) with (log_vectors call_log obj_uuid (Thread b tx st w PHead n) n). rewrite E. reflexivity. }
  eapply (psteps_cons _ _ _ _ None). { reflexivity. }
  eapply (psteps_cons _ _ _ _ None). { reflexivity. }
  apply psteps_nil.
Qed.

(** From the slot of the previous call up to the new one, and down again. *)
Lemma psteps_up sh b tx st w n :
  (S n < length b)%nat -> method_tag (b !!! n) = 0 -> tx !!! 0%nat = Z.of_nat (S (S n)) -> (n < 15)%nat ->
  psteps sh (Thread b tx st w PHead n) [] sh (Thread b tx st w PHead (S n)).
Proof.
  intros Hn H0 Htx H15.
  assert (Hu : u64 (tx !!! 0%nat - 1) = Z.of_nat (S n)) by (rewrite Htx, u64_small; lia).
  eapply (psteps_cons _ _ _ _ None).
  { pstep. rewrite (proj2 (Nat.ltb_lt _ _)) by lia. by rewrite H0. }
  eapply (psteps_cons _ _ _ _ None). { pstep. rewrite Htx. by rewrite (proj2 (Z.eqb_neq _ _)) by lia. }
  eapply (psteps_cons _ _ _ _ None). { pstep. rewrite Hu. by rewrite (proj2 (Z.ltb_ge _ _)) by lia. }
  eapply (psteps_cons _ _ _ _ None). { pstep. rewrite Hu. by rewrite (proj2 (Z.ltb_lt _ _)) by lia. }
  rewrite Nat.add_1_r. apply psteps_nil.
Qed.

Lemma psteps_down sh b tx st w n :
  (S n < length b)%nat -> method_tag (b !!! S n) = 0 -> tx !!! 0%nat = Z.of_nat (S n) -> (n < 15)%nat ->
  psteps sh (Thread b tx st w PHead (S n)) [] sh (Thread b tx st w PHead n).
Proof.
  intros Hn H0 Htx H15.
  assert (Hu : u64 (tx !!! 0%nat - 1) = Z.of_nat n) by (rewrite Htx, u64_small; lia).
  eapply (psteps_cons _ _ _ _ None).
  { pstep. rewrite (proj2 (Nat.ltb_lt _ _)) by lia. by rewrite H0. }
  eapply (psteps_cons _ _ _ _ None). { pstep. rewrite Htx. by rewrite (proj2 (Z.eqb_neq _ _)) by lia. }
  eapply (psteps_cons _ _ _ _ None). { pstep. rewrite Hu. by rewrite (proj2 (Z.ltb_lt _ _)) by lia. }
  replace (S n - 1)%nat with n by lia. apply psteps_nil.
Qed.

(** *** Steps of the worker *)

(** A worker does not look at its persister. *)
Lemma worker_step_idle act sh t sh' t' out p a :
  worker_step act sh t = Ok (sh', t', out) ->
  worker_step act sh (set_persister t p a) = Ok (sh', set_persister t' p a, out).
Proof.
  destruct t as [b tx st w p0 a0]. unfold worker_step, tx0, tag_at. cbn [set_persister worker buffer tx_buffer stack].
  intros E. repeat case_match; try discriminate E; try (res_inv E); try discriminate E;
    try (apply Ok_inj in E; injection E as <- <- <-); try reflexivity.
  all: repeat match goal with H : ?x = Ok _ |- context [?x] => rewrite H; cbn [res_bind] end; reflexivity.
Qed.

Lemma open_tag_zero sh t k :
  inv call_log obj_uuid sh (idle t) -> all_logged t -> (k < length (stack t))%nat -> tag_at t k = 0.
Proof.
  intros Hi Hl Hk. destruct (lookup_lt_is_Some_2 _ _ Hk) as [c Hc].
  destruct (inv_slots _ _ _ _ Hi k c Hc) as (_ & _ & [[_ H0]|(_ & _ & _ & [?|(_ & ? & _)])]); [|done..].
  by destruct (Hl k Hk).
Qed.

Lemma all_logged_set t t' :
  all_logged t -> stack t' = stack t ->
  (forall k, (k < length (stack t))%nat -> tx_buffer t' !!! S k = tx_buffer t !!! S k) -> all_logged t'.
Proof. intros Hl Hst Htx k Hk. rewrite Hst in Hk. rewrite Htx by done. by apply Hl. Qed.

(** Steps other than logging and popping keep the open calls. *)
Lemma plain_step_logged act sh t sh' t' out :
  inv call_log obj_uuid sh (idle t) -> all_logged t -> worker_step act sh t = Ok (sh', t', out) ->
  (forall c, worker t <> WTag c) -> worker t <> WPop -> stack t' = stack t /\ all_logged t'.
Proof.
  intros Hi Hl E Htag Hpop. pose proof (inv_tx0 _ _ _ _ Hi) as H0. cbn in H0. unfold tx0 in H0. cbn [idle set_persister tx_buffer] in H0.
  pose proof (inv_tx _ _ _ _ Hi) as Hlen. cbn [idle set_persister tx_buffer] in Hlen.
  assert (Hst : stack t' = stack t).
  { unfold worker_step in E. repeat case_match; try discriminate E; try (res_inv E); try discriminate E;
      try (by destruct (Htag c)); try done; apply Ok_inj in E; by injection E as <- <- <-. }
  split; [done|]. apply (all_logged_set t); [done|done|]. intros k Hk. unfold worker_step, tx0 in E.
  destruct (worker t) eqn:Ew; [destruct act|..]; try done; try (by destruct (Htag c)); repeat case_match; try discriminate E; try (res_inv E); try discriminate E;
    apply Ok_inj in E; injection E as <- <- <-; cbn [set_worker set_tx set_slot set_tag set_log tx_buffer buffer stack]; try done;
    try (by rewrite list_lookup_total_insert_ne by lia).
  cbn [counted] in H0. rewrite list_lookup_total_insert_ne by lia. done.
Qed.

Definition trace (out : output) : list (Z * log_op) := match out with Some e => [e] | None => [] end.

(** Running one worker step and then its persister. *)
Lemma worker_then_persister act sh ts i t sh1 t1 tr sh2 t2 :
  ts !! i = Some t -> action_ok act -> (act = AExit -> stack t = []) ->
  worker_step act sh t = Ok (sh1, t1, None) -> psteps sh1 t1 tr sh2 t2 ->
  run call_log obj_uuid log_len (System sh ts) tr (System sh2 (<[i := t2]> ts)).
Proof.
  intros Hi Hact Hex E Hp. eapply (run_cons _ _ _ _ None); [by eapply step_worker|].
  rewrite <- (list_insert_insert_eq ts i t2 t1). eapply psteps_run; [done|].
  apply list_lookup_insert_eq. by eapply lookup_lt_Some.
Qed.

(** The step that opens a call and logs it. *)
Lemma tag_sim act sh t c sh' t' out :
  inv call_log obj_uuid sh (idle t) -> all_logged t -> worker t = WTag c -> sync_step act sh t = Ok (sh', t', out) ->
  all_logged t' /\ exists sh1 t1, worker_step act sh (idle t) = Ok (sh1, t1, None) /\ psteps sh1 t1 (trace out) sh' (idle t').
Proof.
  intros Hi Hl Hw E. pose proof (inv_tx0 _ _ _ _ Hi) as H0. pose proof (inv_depth _ _ _ _ Hi) as Hd.
  pose proof (inv_buffer _ _ _ _ Hi) as Hb. pose proof (inv_tx _ _ _ _ Hi) as Htx.
  destruct (inv_opening _ _ _ _ Hi c) as ([[Hc0 Hcm] _] & _ & _); [cbn; by rewrite Hw|].
  pose proof (fun k => open_tag_zero sh t k Hi Hl) as Htags.
  unfold sync_step in E. rewrite Hw in E. destruct t as [b tx st w p a]. cbn in Hw. subst w.
  unfold tx0, tag_at in *. cbn [idle set_persister worker stack buffer tx_buffer counted opening set_worker set_stack set_tag set_slot] in *.
  set (n := length st) in *. assert (En : Z.to_nat (tx !!! 0%nat - 1) = n) by lia. rewrite En in E.
  unfold set_worker, set_stack, set_tag at 1, set_slot at 1 in E. cbn [buffer tx_buffer stack worker persister active_tx_id] in E.
  set (b1 := <[n := MethodCall (obj_ptr (b !!! n)) (c_tag c) (arg_ptrs (b !!! n))]> b) in E.
  assert (Hb1 : b1 !!! n = MethodCall (obj_ptr (b !!! n)) (c_tag c) (arg_ptrs (b !!! n))).
  { apply list_lookup_total_insert_eq. lia. }
  unfold Savitar_persister_log in E. cbn [buffer tx_buffer] in E.
  set (v := if (0 <? n)%nat then _ else _) in E.
  destruct (alog_append log_len _ v) as [[l off]| | |] eqn:Ea; try discriminate E.
  cbn [res_bind fst snd] in E. apply Ok_inj in E. injection E as <- <- <-.
  assert (Hoff : off <> 0).
  { apply alog_append_inv in Ea as (_ & _ & _ & ->). unfold alog_tail. pose proof (total_nonneg (fst (get_log sh (obj_ptr (b1 !!! n))))).
    change sizeof_RedoLog with 64. lia. }
  split.
  { intros k Hk. cbn [set_tag set_slot set_tx tx_buffer stack] in *. rewrite length_app in Hk. cbn [length] in Hk. fold n in Hk.
    destruct (decide (k = n)) as [->|].
    - rewrite Nat.add_1_r, list_lookup_total_insert_eq by lia. done.
    - rewrite list_lookup_total_insert_ne by lia. apply Hl. cbn [stack]. fold n. lia. }
  assert (Hlog : psteps sh (Thread b1 tx (st ++ [c]) WRun PHead n) [(obj_ptr (b1 !!! n), OpAppend v)]
    (set_log sh (obj_ptr (b1 !!! n)) l) (set_tag (set_tx (Thread b1 tx (st ++ [c]) WRun PHead n) (n + 1) off) n 0)).
  { apply (psteps_log sh b1 tx (st ++ [c]) WRun n l off); rewrite ?Hb1; cbn [method_tag]; [unfold b1; rewrite length_insert; lia|lia|lia| |].
    - destruct n as [|m] eqn:Em; [by left|right]. apply Hl. cbn [stack]. fold n. lia.
    - rewrite Hb1 in Ea. exact Ea. }
  eexists _, _. split; [unfold worker_step, tx0, idle, set_persister; cbn [worker tx_buffer]; rewrite En; reflexivity|].
  unfold idle. cbn [set_tag set_slot set_tx set_worker set_stack set_persister stack buffer tx_buffer worker persister active_tx_id trace] in *.
  rewrite length_app. cbn [length]. fold n b1. rewrite Nat.add_1_r. cbn [Nat.pred]. rewrite Nat.add_1_r in Hlog.
  destruct n as [|m] eqn:Em; [exact Hlog|]. cbn [Nat.pred].
  eapply psteps_app; [|exact Hlog]. apply psteps_up; [unfold b1; rewrite length_insert; lia| |lia|lia].
  unfold b1. rewrite list_lookup_total_insert_ne by lia. apply Htags. lia.
Qed.

(** The step that closes a call; the persister goes back to its parent. *)
Lemma pop_sim act sh t sh' t' out :
  inv call_log obj_uuid sh (idle t) -> all_logged t -> worker t = WPop -> worker_step act sh t = Ok (sh', t', out) ->
  all_logged t' /\ out = None /\ psteps sh' (set_persister t' PHead (Nat.pred (length (stack t)))) [] sh' (idle t').
Proof.
  intros Hi Hl Hw E. pose proof (inv_tx0 _ _ _ _ Hi) as H0. pose proof (inv_depth _ _ _ _ Hi) as Hd.
  pose proof (inv_buffer _ _ _ _ Hi) as Hb. pose proof (inv_tx _ _ _ _ Hi) as Htx.
  pose proof (fun k => open_tag_zero sh t k Hi Hl) as Htags.
  unfold worker_step in E. rewrite Hw in E. destruct t as [b tx st w p a]. cbn in Hw. subst w.
  unfold tx0, tag_at in *. cbn [idle set_persister worker stack buffer tx_buffer counted opening] in *.
  res_inv E. case_match; [|discriminate E]. apply Ok_inj in E. injection E as <- <- <-.
  unfold idle, set_persister, set_worker, set_stack, set_tx. cbn [buffer tx_buffer stack worker persister active_tx_id].
  rewrite length_take. set (n := length st) in *. replace ((n - 1) `min` n)%nat with (n - 1)%nat by lia.
  split; [|split; [done|]].
  - intros k Hk. cbn [stack tx_buffer] in *. rewrite length_take in Hk. rewrite list_lookup_total_insert_ne by lia. apply Hl. cbn. lia.
  - destruct n as [|[|m]] eqn:En; [apply psteps_nil..|]. replace (S (S m) - 1)%nat with (S m) by lia. cbn [Nat.pred].
    apply psteps_down; [lia|apply Htags; lia|rewrite list_lookup_total_insert_eq by lia; lia|lia].
Qed.

(** One step of the synchronous build is a step of the asynchronous worker
    followed by steps of its persister. *)
Lemma sync_step_sim act sh ts i t sh' t' out :
  ts !! i = Some t -> action_ok act -> (act = AExit -> stack t = []) -> sync_step act sh t = Ok (sh', t', out) ->
  inv call_log obj_uuid sh (idle t) -> all_logged t ->
  all_logged t' /\
  run call_log obj_uuid log_len (System sh (idle <$> ts)) (trace out) (System sh' (<[i := idle t']> (idle <$> ts))).
Proof.
  intros Hi Hact Hex E Hinv Hl.
  assert (Hii : (idle <$> ts) !! i = Some (idle t)) by (by rewrite list_lookup_fmap, Hi).
  assert (Hplain : worker_step act sh t = Ok (sh', t', out) -> (forall c, worker t <> WTag c) -> worker t <> WPop ->
    all_logged t' /\ run call_log obj_uuid log_len (System sh (idle <$> ts)) (trace out) (System sh' (<[i := idle t']> (idle <$> ts)))).
  { intros Ew Htag Hpop. destruct (plain_step_logged _ _ _ _ _ _ Hinv Hl Ew Htag Hpop) as [Hst Hl']. split; [done|].
    replace (trace out) with (match out with Some e => e :: [] | None => [] end) by (by destruct out).
    eapply run_cons; [|apply run_nil]. eapply step_worker; [done|done|done|].
    unfold idle. rewrite Hst. by apply worker_step_idle. }
  unfold sync_step in E. destruct (worker t) eqn:Ew; try (apply Hplain; by rewrite ?Ew).
  - destruct (tag_sim act sh t c sh' t' out Hinv Hl Ew) as [Hl' (sh1 & t1 & E1 & Hp)].
    { unfold sync_step. by rewrite Ew. }
    split; [done|]. by eapply worker_then_persister.
  - apply Ok_inj in E. injection E as <- <- <-. apply Hplain; [|done..].
    assert (Hne : stack t <> []) by (apply (inv_spinning _ _ _ _ Hinv); cbn; by rewrite Ew).
    pose proof (inv_tx0 _ _ _ _ Hinv) as H0.
    change (tx0 (idle t)) with (tx0 t) in H0. change (stack (idle t)) with (stack t) in H0. change (worker (idle t)) with (worker t) in H0.
    rewrite Ew in H0. cbn [counted] in H0.
    unfold worker_step. rewrite Ew. rewrite (open_tag_zero sh t _ Hinv Hl); [done|]. destruct (stack t); [done|]. cbn [length] in *. lia.
  - destruct (pop_sim act sh t sh' t' out Hinv Hl Ew E) as (Hl' & -> & Hp). split; [done|].
    eapply worker_then_persister; [exact Hii|done|done|by apply worker_step_idle|exact Hp].
Qed.

Lemma sync_sim_step s out s2 s' :
  sync_sys_step s out s2 -> sim s s' ->
  exists s2', run call_log obj_uuid log_len s' (trace out) s2' /\ sim s2 s2'.
Proof.
  intros Hs (Esys & Ets & Hlog & Hinv). destruct s' as [sh0 ts0]. cbn [sys threads] in *. subst sh0 ts0.
  assert (Hkeep : forall tr s2', run call_log obj_uuid log_len (System (sys s) (idle <$> threads s)) tr s2' -> sys_inv call_log obj_uuid s2').
  { intros tr s2' Hr. by eapply run_sys_inv. }
  destruct Hs as [sh ts i t act sh' t' out Hi Hact Hex E|sh ts|sh ts locks]; cbn [sys threads] in *.
  - assert (Hii : (idle <$> ts) !! i = Some (idle t)) by (by rewrite list_lookup_fmap, Hi).
    destruct (sync_step_sim act sh ts i t sh' t' out Hi Hact Hex E (proj1 Hinv _ _ Hii)) as [Hl' Hr]; [by eapply Forall_lookup_1|].
    eexists. split; [exact Hr|]. split; [done|]. split; [cbn [threads]; by rewrite list_fmap_insert|]. split; [by apply Forall_insert|by eapply Hkeep].
  - eexists. assert (Hr : run call_log obj_uuid log_len (System sh (idle <$> ts)) [] (System sh ((idle <$> ts) ++ [thread_create]))).
    { eapply (run_cons _ _ _ _ None); [apply step_create|apply run_nil]. }
    split; [exact Hr|]. split; [done|]. split; [cbn [threads]; by rewrite fmap_app|]. split; [|by eapply Hkeep].
    apply Forall_app. split; [done|]. apply Forall_singleton. intros k Hk. cbn in Hk. lia.
  - eexists. assert (Hr : run call_log obj_uuid log_len (System sh (idle <$> ts)) [] (System (Shared (logs sh) locks) (idle <$> ts))).
    { eapply (run_cons _ _ _ _ None); [apply step_snapshot|apply run_nil]. }
    split; [exact Hr|]. split; [done|]. split; [done|]. split; [done|by eapply Hkeep].
Qed.

Lemma sync_run_sim s tr s2 s' :
  sync_run s tr s2 -> sim s s' -> exists s2', run call_log obj_uuid log_len s' tr s2' /\ sim s2 s2'.
Proof.
  intros H. revert s'. induction H as [s|s1 out s2 tr s3 Hs _ IH]; intros s' Hsim.
  - exists s'. split; [apply run_nil|done].
  - destruct (sync_sim_step _ _ _ _ Hs Hsim) as (s2' & Hr1 & Hsim2). destruct (IH _ Hsim2) as (s3' & Hr2 & Hsim3).
    exists s3'. split; [|done]. replace (match out with Some e => e :: tr | None => tr end) with (trace out ++ tr) by (by destruct out).
    by eapply run_app.
Qed.

(** [C17] Synchronous and asynchronous logging agree.  Every execution of the
    build without persister threads is, with the same log operations in the
    same order, an execution of the build with persister threads; it ends
    with the same logs, and every thread has the same open calls and the
    same log offsets for them. *)
Theorem sync_refines_async tr s :
  sync_run system_init tr s ->
  exists s', run call_log obj_uuid log_len system_init tr s' /\ logs (sys s') = logs (sys s) /\
    Forall2 (fun t t' => buffer t' = buffer t /\ tx_buffer t' = tx_buffer t /\ stack t' = stack t) (threads s) (threads s').
Proof.
  intros H. destruct (sync_run_sim _ _ _ system_init H) as (s' & Hr & Esys & Ets & _).
  { split; [done|]. split; [done|]. split; [by apply Forall_nil|]. apply (reachable_inv _ _ log_len). exists []. apply run_nil. }
  exists s'. split; [done|]. split; [by rewrite Esys|]. rewrite Ets. apply Forall2_fmap_r, Forall_Forall2_diag, Forall_true. done.
Qed.

(** Executions of one synchronous thread, by evaluation. *)
Fixpoint sync_play (acts : list action) (sh : shared) (t : tstate) : res (shared * tstate * list (Z * log_op)) :=
  match acts with
  | [] => Ok (sh, t, [])
  | act :: acts =>
      let* r := sync_step act sh t in
      let '(sh, t, out) := r in
      let* s := sync_play acts sh t in
      let '(sh, t, tr) := s in
      Ok (sh, t, match out with Some e => e :: tr | None => tr end)
  end.

Lemma sync_play_run acts sh t sh' t' tr :
  Forall action_ok acts -> Forall (fun a => a <> AExit) acts -> sync_play acts sh t = Ok (sh', t', tr) ->
  sync_run (System sh [t]) tr (System sh' [t']).
Proof.
  intros Hok. revert sh t tr. induction Hok as [|act acts Ha Has IH]; intros sh t tr Hne E; cbn [sync_play] in E.
  - apply Ok_inj in E. injection E as <- <- <-. apply sync_nil.
  - apply Forall_cons in Hne as [Hn Hne]. res_inv E. destruct r as [[sh1 t1] out]. res_inv E. destruct r as [[sh2 t2] tr2].
    apply Ok_inj in E. injection E as -> -> <-. eapply sync_cons; [|by eapply IH].
    by apply (sync_worker sh [t] 0 t act sh1 t1 out).
Qed.

End sync.

(** A call on object 7 that calls object 9; both return. *)
Definition sync_acts : list action :=
  [ACall (Call 7 1 []); AReturn; AReturn; AReturn; AReturn; ACall (Call 9 1 [])] ++ replicate 12 AReturn.

Lemma sync_refines_async_witness :
  exists tr s s', sync_run demo_call_log demo_uuid 1024 system_init tr s /\ length tr = 4%nat /\
    run demo_call_log demo_uuid 1024 system_init tr s' /\ logs (sys s') = logs (sys s).
Proof.
  destruct (sync_play demo_call_log demo_uuid 1024 sync_acts (Shared ∅ ∅) thread_create) as [[[sh t] tr]| | |] eqn:E; [|by vm_compute in E..].
  assert (Hr : sync_run demo_call_log demo_uuid 1024 system_init tr (System sh [t])).
  { eapply (sync_cons _ _ _ _ None); [apply (sync_create _ _ _ (Shared ∅ ∅) [])|].
    eapply sync_play_run; [| |exact E]; [|by repeat constructor].
    repeat (apply Forall_cons; split; [first [exact I|split; [split; by_eval|apply Nat.leb_le; reflexivity]]|]); apply Forall_nil; exact I. }
  assert (Hlen : length tr = 4%nat).
  { vm_compute in E. apply Ok_inj in E. by injection E as _ _ <-. }
  destruct (sync_refines_async demo_call_log demo_uuid 1024 tr (System sh [t]) Hr) as (s' & H1 & H2 & _).
  exists tr, (System sh [t]), s'. split; [exact Hr|]. split; [exact Hlen|]. split; [exact H1|exact H2].
Defined.
