(* ===== verification/Create.v ===== *)
(** * Taking a snapshot (Snapshot::create)

    The stages of [create] around the copying threads of Snapshot.v: naming
    and laying out the file, writing the tables while the program stands
    still, and closing.  Theorems: numbering and layout of snapshot files. *)

From stdpp Require Import base numbers list gmap strings sorting.
From S2P Require Import Prelude Pmem Bitmap Heap GlobalAlloc GlobalAllocProofs FreeList ObjectAlloc Cores Snapshot SnapshotProofs.

(** ** The stages of create *)

(** Lines 129-136: the file, extended off the critical path with a slack of
    [MinPoolSize]. *)
Definition create_prepare (dir : list (list Z)) (objs : list sobject) (g : galloc)
    : res (list (list Z) * snapshot_header_t) :=
  let* (dir, h) := prepareSnapshot dir objs in
  let* allocated := allocatedBlocks g in
  Ok (dir, extendSnapshot h (allocated + MinPoolSize / BlockSize)).

(** Lines 144-146, with the program frozen: the tables and the marks that
    the asynchronous stage starts from. *)
Definition create_freeze (h : snapshot_header_t) (g : galloc) (objs : list sobject) (nvm : words)
    : res (words * Z * (gmap Z Z * gset Z)) :=
  let* blocks := allocatedBlocks g in
  let* nvm := saveAllocationTables h g objs nvm in
  Ok (nvm, blocks, markPagesReadOnly h nvm blocks).

(** Microseconds between two readings (seconds, nanoseconds) of the clock. *)
Definition latency (t1 t2 : Z * Z) : Z :=
  u64 ((fst t2 - fst t1) * 1000000000 + (snd t2 - snd t1)) / 1000.

(** Lines 157-169, after the copying threads and the fault handlers. *)
Definition create_finish (dir : list (list Z)) (h : snapshot_header_t) (now : Z) (t1 t2 t3 : Z * Z)
    : res (snapshot_header_t * Z) :=
  let h := Header (identifier h) (object_count h) now (h_size h) (u32 (latency t1 t2)) (u32 (latency t2 t3))
             (bitmap_offset h) (global_offset h) (alloc_offset h) (data_offset h) in
  let* id := lastSnapshotID dir in
  Ok (h, u32 (id - 1)).

(** ** Names of snapshot files *)

Lemma split_last_dot_none f : DOT ∉ f -> split_last_dot f = None.
Proof.
  induction f as [|c f IH]; [done|]. intros Hn%not_elem_of_cons. cbn [split_last_dot]. rewrite IH by tauto.
  by rewrite (proj2 (Z.eqb_neq _ _)) by (intros ->; tauto).
Qed.

Lemma split_last_dot_app s e : DOT ∉ e -> split_last_dot (s ++ DOT :: e) = Some (s, DOT :: e).
Proof.
  intros He. induction s as [|c s IH]; cbn [app split_last_dot].
  - by rewrite split_last_dot_none.
  - by rewrite IH.
Qed.

Lemma decimal_digits n : 0 <= n -> exists d ds, CpuInfoText.decimal n = d :: ds /\ Forall (fun c => 48 <= c <= 57) (d :: ds).
Proof.
  intros Hn. destruct (CpuInfoText.decimal_spec n Hn) as (Hne & Hd & _).
  destruct (CpuInfoText.decimal n) as [|d ds]; [done|]. by exists d, ds.
Qed.

Lemma path_parts n : 0 <= n -> stem_extension (snapshot_path n) = (snapshot_stem, DOT :: CpuInfoText.decimal n).
Proof.
  intros Hn. unfold stem_extension, snapshot_path. rewrite split_last_dot_app; [done|].
  destruct (decimal_digits n Hn) as (d & ds & -> & Hd). intros Hin. rewrite Forall_forall in Hd. specialize (Hd _ Hin). unfold DOT in Hd. lia.
Qed.

Lemma stoi_decimal n : 0 <= n <= INT_MAX -> stoi (CpuInfoText.decimal n) = Ok n.
Proof.
  intros Hn. unfold stoi. rewrite CpuInfoText.strtol_decimal by lia.
  destruct (decimal_digits n) as (d & ds & -> & Hd); [lia|]. apply Forall_cons in Hd as [Hd _].
  assert (Hsp : CpuInfo.skip_spaces (d :: ds) = d :: ds).
  { unfold CpuInfo.skip_spaces. cbn [CpuInfo.span]. unfold CpuInfo.is_space, CpuInfo.SPACE.
    rewrite (proj2 (Z.eqb_neq d 32)), (proj2 (Z.leb_gt d 13)) by lia. by rewrite andb_false_r. }
  rewrite Hsp, !(proj2 (Z.eqb_neq _ _)) by lia. cbn [orb]. unfold CpuInfo.is_digit.
  rewrite !(proj2 (Z.leb_le _ _)) by lia. done.
Qed.

Lemma existing_path n : 0 <= n <= INT_MAX -> existing_loop [snapshot_path n] = Ok [n].
Proof.
  intros Hn. cbn [existing_loop]. rewrite path_parts by lia. rewrite bool_decide_true by done.
  rewrite bool_decide_false by done. cbn [negb]. change (drop 1 (DOT :: CpuInfoText.decimal n)) with (CpuInfoText.decimal n). rewrite stoi_decimal by done. cbn [res_bind].
  do 2 f_equal. unfold u32, INT_MAX in *. rewrite Z.mod_small; [done|lia].
Qed.

Lemma existing_app d1 d2 :
  existing_loop (d1 ++ d2) = let* l1 := existing_loop d1 in let* l2 := existing_loop d2 in Ok (l1 ++ l2).
Proof.
  induction d1 as [|f d1 IH]; cbn [app existing_loop]; [by destruct (existing_loop d2)|].
  destruct (stem_extension f) as [stem ext]. destruct (bool_decide _); [|exact IH].
  destruct (negb _); [|done]. destruct (stoi _); cbn [res_bind]; [|done..]. rewrite IH.
  destruct (existing_loop d1); cbn [res_bind]; [|done..]. by destruct (existing_loop d2).
Qed.

Lemma sorted_last (l : list Z) m : StronglySorted Z.le l -> list.last l = Some m -> forall x, x ∈ l -> x <= m.
Proof.
  induction 1 as [|y l Hs IH Hy]; [done|]. intros Hl x Hx. destruct l as [|z l].
  - injection Hl as <-. apply elem_of_cons in Hx as [->|Hx]; [lia|by apply elem_of_nil in Hx].
  - rewrite list.last_cons_cons in Hl. apply elem_of_cons in Hx as [->|Hx]; [|by apply IH].
    rewrite Forall_forall in Hy. apply Hy. apply last_Some in Hl as (l' & ->). apply elem_of_app. right. left.
Qed.

(** The last identifier is the greatest one. *)
Lemma last_id_max l : l <> [] -> exists m, list.last (merge_sort Z.le l) = Some m /\ m ∈ l /\ forall x, x ∈ l -> x <= m.
Proof.
  intros Hl. pose proof (merge_sort_Permutation Z.le l) as Hp. destruct (list.last (merge_sort Z.le l)) as [m|] eqn:E.
  - exists m. split; [done|]. split.
    + rewrite <- Hp. apply last_Some in E as (l' & ->). apply elem_of_app. right. left.
    + intros x Hx. apply (sorted_last (merge_sort Z.le l)); [|done|by rewrite Hp].
      apply (StronglySorted_merge_sort Z.le).
  - apply last_None in E. rewrite E in Hp. by apply Permutation_nil in Hp.
Qed.

Lemma last_id_bound dir id : lastSnapshotID dir = Ok id ->
  exists ids, existing_loop dir = Ok ids /\ forall x, x ∈ ids -> x <= id.
Proof.
  unfold lastSnapshotID, getExistingSnapshots. destruct (existing_loop dir) as [ids| | |] eqn:E; cbn [res_bind]; [|done..].
  intros H%Ok_inj. exists ids. split; [done|]. destruct ids as [|i ids]; [intros x Hx; by apply elem_of_nil in Hx|].
  destruct (last_id_max (i :: ids)) as (m & Em & _ & Hm); [done|]. rewrite Em in H. cbn in H. by subst.
Qed.

(** A new name is free and becomes the last one. *)
Lemma next_snapshot dir id : lastSnapshotID dir = Ok id -> 0 <= id < INT_MAX ->
  snapshot_path (id + 1) ∉ dir /\ lastSnapshotID (dir ++ [snapshot_path (id + 1)]) = Ok (id + 1).
Proof.
  intros Hid Hr. destruct (last_id_bound dir id Hid) as (ids & E & Hmax). split.
  - intros Hin. apply list_elem_of_split in Hin as (d1 & d2 & ->). rewrite existing_app in E.
    destruct (existing_loop d1) as [l1| | |]; cbn [res_bind] in E; [|done..].
    change (snapshot_path (id + 1) :: d2) with ([snapshot_path (id + 1)] ++ d2) in E. rewrite existing_app, existing_path in E by lia.
    cbn [res_bind] in E. destruct (existing_loop d2) as [l2| | |]; cbn [res_bind] in E; [|done..].
    apply Ok_inj in E. subst. specialize (Hmax (id + 1)). assert (id + 1 <= id); [apply Hmax; set_solver|lia].
  - unfold lastSnapshotID, getExistingSnapshots. rewrite existing_app, E, existing_path by lia. cbn [res_bind]. f_equal.
    destruct (last_id_max (ids ++ [id + 1])) as (m & -> & Hin & Hm); [by destruct ids|]. cbn.
    assert (id + 1 <= m) by (apply Hm; set_solver). apply elem_of_app in Hin as [Hin|Hin]; [specialize (Hmax m Hin); lia|].
    by apply list_elem_of_singleton in Hin.
Qed.

(** ** Layout *)

Lemma objects_size_nonneg objs : Forall (fun o => 0 <= oa_snapshotSize (so_alloc o)) objs -> 0 <= objects_size objs.
Proof.
  induction 1 as [|o objs Ho _ IH]; [done|]. change (objects_size (o :: objs)) with (object_size o + objects_size objs).
  unfold object_size. lia.
Qed.

(** Where the lines of a block are in the file. *)
Lemma line_in_file h nvm b x n :
  x ∈ block_lines h nvm b -> 0 <= b < n ->
  data_offset h <= file_offset h x /\ file_offset h x + 64 <= data_offset h + n * BlockSize.
Proof.
  intros Hx Hb. apply elem_block_lines in Hx as (q & k & Hq & Hk & -> & _); [|lia]. unfold file_offset.
  change BlockSize with 2097152. change BitmapGranularity with 4096. lia.
Qed.

(** [C32] Numbering and layout of snapshot files.  If the last snapshot in the
    directory is [id], [create] makes a new file named after [id + 1], which
    becomes the last one and whose header carries that number; the space
    that the header reserves for itself, the bitmap, the tables of the global
    allocator and of the objects, and the data follow one another without
    overlap, the data at a cache line (that the tables keep to their space is
    not claimed here); and every line of the blocks [b < n + 128] lies inside
    the file, where [n] is the number of blocks when the file was extended:
    the heap may grow by one pool of 256 MB before the program is frozen, and
    lines of blocks beyond that are not covered.  The value that
    [create] returns is the number of the snapshot before. *)
Theorem snapshot_file_layout dir objs g id n nvm :
  lastSnapshotID dir = Ok id -> 0 <= id < INT_MAX -> allocatedBlocks g = Ok n ->
  Forall (fun o => 0 <= oa_snapshotSize (so_alloc o)) objs ->
  exists h, create_prepare dir objs g = Ok (dir ++ [snapshot_path (id + 1)], h) /\
    snapshot_path (id + 1) ∉ dir /\ lastSnapshotID (dir ++ [snapshot_path (id + 1)]) = Ok (identifier h) /\ identifier h = id + 1 /\
    bitmap_offset h = sizeof_header /\ global_offset h = bitmap_offset h + bitmapSize /\
    alloc_offset h = global_offset h + ga_snapshotSize /\ alloc_offset h + objects_size objs <= data_offset h /\
    data_offset h mod 64 = 0 /\
    (forall b x, 0 <= b < n + 128 -> x ∈ block_lines h nvm b ->
       data_offset h <= file_offset h x /\ file_offset h x + 64 <= h_size h) /\
    (forall now t1 t2 t3, exists h', create_finish (dir ++ [snapshot_path (id + 1)]) h now t1 t2 t3 = Ok (h', id)).
Proof.
  intros Hid Hr Hn Ho. destruct (next_snapshot dir id Hid Hr) as [Hfresh Hlast].
  assert (Hu : u32 (id + 1) = id + 1) by (unfold u32, INT_MAX in *; apply Z.mod_small; lia).
  unfold create_prepare, prepareSnapshot. rewrite Hid. cbn [res_bind]. rewrite Hu, bool_decide_false by done. cbn [negb].
  rewrite Hlast. cbn [res_bind]. rewrite Hn. cbn [res_bind].
  eexists. split; [reflexivity|]. unfold extendSnapshot. cbn [identifier object_count bitmap_offset global_offset alloc_offset data_offset h_size].
  set (size0 := sizeof_header + bitmapSize + ga_snapshotSize + objects_size objs).
  pose proof (objects_size_nonneg objs Ho) as Hpos.
  destruct (align_up_spec size0 64) as [Hal [Hge _]]; [lia|unfold size0; change sizeof_header with 64; change bitmapSize with 33554432; change ga_snapshotSize with 272; lia|].
  split; [done|]. split; [done|]. split; [done|]. split; [done|]. split; [done|]. split; [done|].
  split; [unfold size0 in *; lia|]. split; [done|]. split.
  - intros b x Hb Hx. change (MinPoolSize / BlockSize) with 128. exact (line_in_file _ nvm b x (n + 128) Hx Hb).
  - intros now t1 t2 t3. eexists. unfold create_finish. rewrite Hlast. cbn [res_bind].
    replace (u32 (id + 1 - 1)) with id by (unfold u32, INT_MAX in *; rewrite Z.mod_small; lia). reflexivity.
Qed.

(** The directory of the first snapshot, with a heap of one pool. *)
Lemma snapshot_file_layout_witness :
  lastSnapshotID [CpuInfo.chars "snapshot.1"; CpuInfo.chars "snapshot.10"; CpuInfo.chars "catalog"] = Ok 10 /\
  exists h, create_prepare [CpuInfo.chars "snapshot.1"; CpuInfo.chars "snapshot.10"; CpuInfo.chars "catalog"] [] demo_galloc
    = Ok ([CpuInfo.chars "snapshot.1"; CpuInfo.chars "snapshot.10"; CpuInfo.chars "catalog"; CpuInfo.chars "snapshot.11"], h) /\
    identifier h = 11.
Proof.
  split; [by vm_compute|].
  destruct (snapshot_file_layout [CpuInfo.chars "snapshot.1"; CpuInfo.chars "snapshot.10"; CpuInfo.chars "catalog"] [] demo_galloc 10 128 ∅)
    as (h & E & _ & _ & Eid & _); [by vm_compute|by vm_compute|by vm_compute|constructor|].
  exists h. split; [exact E|exact Eid].
Defined.
