(* ===== verification/Runtime.v ===== *)
(** * Threads and signals (thread.cpp, context.cpp)

    Creation and end of worker and logger threads, the start and the end of
    the program, and the signal handler that starts snapshots and forwards
    page faults to them. *)

From stdpp Require Import base numbers list gmap strings.
From S2P Require Import Prelude Pmem Savitar NvLog Cores Bitmap Heap Snapshot SnapshotProofs Tx TxProofs.

(** ** Threads and their processors *)

(** The tenants of the cores, the threads registered with the manager, and
    the processors of the logger threads that have not ended. *)
Record runtime := Runtime {
  rt_cores : cores;
  rt_threads : gmap Z Z;
  rt_loggers : list Z
}.

(** [Savitar_thread_create]: two processors of one core; the logger runs on
    the first.  [cfg] is the address of the configuration. *)
Definition Savitar_thread_create (rt : runtime) (thread cfg : Z) : runtime * Z :=
  let '(c, core_ids) := Savitar_core_alloc (rt_cores rt) in
  (Runtime c (<[thread := cfg]> (rt_threads rt)) (rt_loggers rt ++ [fst core_ids]), snd core_ids).

(** The end of [routine_wrapper] for logger [i] and for a worker. *)
Definition logger_exit (rt : runtime) (i : nat) : res runtime :=
  match rt_loggers rt !! i with
  | None => Segfault
  | Some core_id =>
      let* c := Savitar_core_free (rt_cores rt) core_id in
      Ok (Runtime c (rt_threads rt) (delete i (rt_loggers rt)))
  end.
Definition worker_exit (rt : runtime) (thread : Z) (sh : shared) (t : tstate) : res (runtime * tstate) :=
  let* r := worker_step AExit sh t in
  Ok (Runtime (rt_cores rt) (delete thread (rt_threads rt)) (rt_loggers rt), snd (fst r)).

(** One read of [Savitar_core_finalize] at core [i]: it goes on to the next
    core when the counter is 0 and reads it again otherwise; [None] past the
    last core. *)
Definition Savitar_core_finalize (c : cores) (i : nat) : option nat :=
  if (i <? Z.to_nat (Z.shiftr (available_cores c) 1))%nat
  then Some (if core_tenants c !!! i =? 0 then S i else i)
  else None.

(** Creations and ends, in any order. *)
Inductive rt_step : runtime -> runtime -> Prop :=
| rt_create rt thread cfg :
    Zlength (rt_loggers rt) < 65535 -> rt_step rt (fst (Savitar_thread_create rt thread cfg))
| rt_logger_exit rt i rt' : logger_exit rt i = Ok rt' -> rt_step rt rt'
| rt_worker_exit rt thread sh t rt' t' : worker_exit rt thread sh t = Ok (rt', t') -> rt_step rt rt'.

(** The finalizer at core [i], between the steps of the other threads;
    [creating] tells whether those may still create threads. *)
Inductive fin_step (creating : bool) : runtime * nat -> runtime * nat -> Prop :=
| fin_read rt i j : Savitar_core_finalize (rt_cores rt) i = Some j -> fin_step creating (rt, i) (rt, j)
| fin_logger_exit rt i k rt' : logger_exit rt k = Ok rt' -> fin_step creating (rt, i) (rt', i)
| fin_worker_exit rt i thread sh t rt' t' :
    worker_exit rt thread sh t = Ok (rt', t') -> fin_step creating (rt, i) (rt', i)
| fin_create rt i thread cfg :
    creating = true -> Zlength (rt_loggers rt) < 65535 ->
    fin_step creating (rt, i) (fst (Savitar_thread_create rt thread cfg), i).

(** ** Process *)

Definition SIGUSR1 : Z := 10.
Definition SIGSEGV : Z := 11.

(** Whether [Snapshot::instance] is set, whether the snapshot thread runs,
    and the status the process has exited with. *)
Record process := Process {
  pr_instance : bool;
  pr_snapshot_thread : bool;
  pr_exit : option Z
}.

Definition anyActiveSnapshot (p : process) : bool := pr_instance p.
Definition getInstance (p : process) : res unit := assert! pr_instance p in Ok tt.
Definition Snapshot_constructor (p : process) : res process :=
  assert! negb (pr_instance p) in Ok (Process true (pr_snapshot_thread p) (pr_exit p)).
Definition Snapshot_destructor (p : process) : process := Process false (pr_snapshot_thread p) (pr_exit p).

(** The end of [snapshot_worker], after [create] returned. *)
Definition snapshot_worker_end (p : process) : process :=
  let p := Snapshot_destructor p in Process (pr_instance p) false (pr_exit p).

(** [signal_handler]; a thread that faulted at [addr] continues in
    [pageFaultHandler] if a snapshot is active. *)
Definition signal_handler (sig addr : Z) (p : process) : res (process * option apc) :=
  assert! (sig =? SIGSEGV) || (sig =? SIGUSR1) in
  if sig =? SIGSEGV then
    if negb (anyActiveSnapshot p) then Ok (Process (pr_instance p) (pr_snapshot_thread p) (Some 1), None)
    else let* _ := getInstance p in Ok (p, Some (AFault addr))
  else if negb (anyActiveSnapshot p) then
    let* p := Snapshot_constructor p in Ok (Process (pr_instance p) true (pr_exit p), None)
  else Ok (p, None).

(** The end of [Savitar_main], with [status] from the main thread and the
    finalizer at core [i]: [None] while it waits for a snapshot or for
    threads. *)
Definition Savitar_main_end (p : process) (c : cores) (i : nat) (status : Z) : option process :=
  if anyActiveSnapshot p && pr_snapshot_thread p then None
  else match Savitar_core_finalize c i with
       | None => Some (Process (pr_instance p) (pr_snapshot_thread p) (Some status))
       | Some _ => None
       end.

(** ** Tenants count the loggers *)

Definition hosts (c : cores) (k : nat) (p : Z) : bool := bool_decide (find_core (core_ht_map c) p 0 = Some k).
Definition tenants (c : cores) (k : nat) (live : list Z) : Z := Zlength (List.filter (hosts c k) live).

Record rt_ok (rt : runtime) : Prop := {
  ro_wf : cores_wf (rt_cores rt);
  ro_live : forall p, p ∈ rt_loggers rt -> exists k pair, core_ht_map (rt_cores rt) !! k = Some pair /\ p = fst pair;
  ro_max : Zlength (rt_loggers rt) <= 65535;
  ro_count : forall k v, core_tenants (rt_cores rt) !! k = Some v -> v = tenants (rt_cores rt) k (rt_loggers rt)
}.

Lemma tenants_app c k l1 l2 : tenants c k (l1 ++ l2) = tenants c k l1 + tenants c k l2.
Proof. unfold tenants. by rewrite List.filter_app, Zlength_app. Qed.

Lemma tenants_one c k p : tenants c k [p] = if hosts c k p then 1 else 0.
Proof. unfold tenants. cbn. by destruct (hosts c k p). Qed.

Lemma tenants_le c k l : 0 <= tenants c k l <= Zlength l.
Proof.
  induction l as [|p l IH]; [done|]. change (p :: l) with ([p] ++ l). rewrite tenants_app, tenants_one, Zlength_app.
  change (Zlength [p]) with 1. destruct (hosts c k p); lia.
Qed.

Lemma hosts_pair c k pair j :
  cores_wf c -> core_ht_map c !! k = Some pair -> hosts c j (fst pair) = bool_decide (j = k).
Proof.
  intros Hw Hk. unfold hosts. rewrite (find_core_spec _ (fst pair) k pair); [|rewrite (cw_procs _ Hw); apply NoDup_seqZ|done|by left].
  cbn [Nat.add]. apply bool_decide_ext. split; congruence.
Qed.

Lemma wf_set_tenants c k v : cores_wf c -> 0 <= v < 2 ^ 16 -> cores_wf (set_tenants c k v).
Proof. intros [? ? ? ? ?] Hv. split; cbn; try done; rewrite ?length_insert; try done. by apply Forall_insert. Qed.

Lemma create_ok rt thread cfg :
  rt_ok rt -> Zlength (rt_loggers rt) < 65535 -> rt_ok (fst (Savitar_thread_create rt thread cfg)).
Proof.
  intros [Hw Hl Hm Hc] Hmax. unfold Savitar_thread_create. destruct (alloc_lookup _ Hw) as (v & pair & Hv & Hp & _ & ->).
  set (k := least_occupied (rt_cores rt)) in *. cbn [fst].
  pose proof (Hc _ _ Hv) as Ev. pose proof (tenants_le (rt_cores rt) k (rt_loggers rt)).
  assert (Hu : u16 (v + 1) = v + 1) by (apply u16_small; lia).
  split; cbn [rt_cores rt_loggers]; rewrite ?Zlength_app; change (Zlength [fst pair]) with 1.
  - rewrite Hu. apply wf_set_tenants; [done|lia].
  - intros p [Hin|Hin]%elem_of_app; [by apply Hl|]. apply list_elem_of_singleton in Hin as ->. by exists k, pair.
  - lia.
  - intros j w Hj. change (tenants (set_tenants _ _ _)) with (tenants (rt_cores rt)).
    rewrite tenants_app, tenants_one, (hosts_pair _ k) by done. cbn in Hj.
    apply list_lookup_insert_Some in Hj as [(<- & <- & _)|[Hne Hj]].
    + rewrite bool_decide_true by done. lia.
    + rewrite bool_decide_false by done. rewrite (Hc _ _ Hj). lia.
Qed.

Lemma delete_tenants c k l i p : l !! i = Some p -> tenants c k (delete i l) = tenants c k l - (if hosts c k p then 1 else 0).
Proof.
  intros Hi. rewrite <- (take_drop_middle l i p Hi) at 2. change (p :: drop (S i) l) with ([p] ++ drop (S i) l).
  rewrite !tenants_app, tenants_one, delete_take_drop, tenants_app. lia.
Qed.

Lemma logger_exit_ok rt i p : rt_ok rt -> rt_loggers rt !! i = Some p -> exists rt', logger_exit rt i = Ok rt' /\ rt_ok rt'.
Proof.
  intros [Hw Hl Hm Hc] Hi. unfold logger_exit. rewrite Hi.
  destruct (Hl p) as (k & pair & Hk & ->); [by eapply list_elem_of_lookup_2|].
  pose proof (cw_procs _ Hw) as Hprocs.
  assert (Hin : fst pair ∈ processors (core_ht_map (rt_cores rt))).
  { apply list_elem_of_In, in_flat_map. exists pair. split; [apply list_elem_of_In; by eapply list_elem_of_lookup_2|]. by left. }
  rewrite Hprocs in Hin. apply elem_of_seqZ in Hin. unfold Savitar_core_free.
  rewrite (proj2 (Z.leb_le _ _)), (proj2 (Z.ltb_lt _ _)) by lia.
  rewrite (find_core_spec _ (fst pair) k pair); [|rewrite Hprocs; apply NoDup_seqZ|done|by left]. cbn [Nat.add res_bind].
  destruct (lookup_lt_is_Some_2 (core_tenants (rt_cores rt)) k) as [v Hv].
  { rewrite (cw_tenants _ Hw), <- (cw_map _ Hw). by eapply lookup_lt_Some. }
  rewrite (list_lookup_total_correct _ _ _ Hv). pose proof (Hc _ _ Hv) as Ev.
  pose proof (delete_tenants (rt_cores rt) k (rt_loggers rt) i (fst pair) Hi) as Ed.
  rewrite (hosts_pair _ k) in Ed by done. rewrite bool_decide_true in Ed by done.
  pose proof (tenants_le (rt_cores rt) k (delete i (rt_loggers rt))). pose proof (tenants_le (rt_cores rt) k (rt_loggers rt)).
  assert (Hu : u16 (v - 1) = v - 1) by (apply u16_small; lia).
  eexists. split; [done|]. split; cbn [rt_cores rt_loggers].
  - rewrite Hu. apply wf_set_tenants; [done|lia].
  - intros q Hq. apply Hl. rewrite delete_take_drop in Hq. rewrite <- (take_drop_middle _ _ _ Hi). set_solver.
  - unfold Zlength in *. rewrite length_delete by done. lia.
  - intros j w Hj. change (tenants (set_tenants _ _ _)) with (tenants (rt_cores rt)). cbn in Hj.
    rewrite (delete_tenants _ _ _ _ _ Hi), (hosts_pair _ k) by done.
    apply list_lookup_insert_Some in Hj as [(<- & <- & _)|[Hne Hj]].
    + rewrite bool_decide_true by done. lia.
    + rewrite bool_decide_false by done. rewrite (Hc _ _ Hj). lia.
Qed.

Lemma rt_steps_ok rt rt' : rtc rt_step rt rt' -> rt_ok rt -> rt_ok rt'.
Proof.
  induction 1 as [|rt rt1 rt2 Hs _ IH]; [done|]. intros Hok. apply IH.
  destruct Hs as [rt thread cfg Hmax|rt i rt1 E|rt thread sh t rt1 t' E].
  - by apply create_ok.
  - destruct (rt_loggers rt !! i) as [p|] eqn:Hi; [|unfold logger_exit in E; by rewrite Hi in E].
    destruct (logger_exit_ok rt i p Hok Hi) as (rt2' & E2 & ?). rewrite E in E2. by apply Ok_inj in E2 as ->.
  - unfold worker_exit in E. apply res_bind_Ok in E as (r & _ & E). apply Ok_inj in E. injection E as <- _. by destruct Hok.
Qed.

(** Without loggers the finalizer does not wait. *)
Lemma finalize_free rt i :
  rt_ok rt -> rt_loggers rt = [] ->
  exists j, rtc (fin_step false) (rt, i) (rt, j) /\ Savitar_core_finalize (rt_cores rt) j = None.
Proof.
  intros [Hwf _ _ Hc] El. set (h := Z.to_nat (Z.shiftr (available_cores (rt_cores rt)) 1)).
  remember (h - i)%nat as d eqn:Ed. revert i Ed. induction d as [|d IH]; intros i Ed.
  - exists i. split; [done|]. unfold Savitar_core_finalize. fold h. by rewrite (proj2 (Nat.ltb_ge _ _)) by lia.
  - destruct (IH (S i)) as (j & Hj & Hdone); [lia|]. exists j. split; [|done]. eapply rtc_l; [|exact Hj].
    apply fin_read. unfold Savitar_core_finalize. fold h. rewrite (proj2 (Nat.ltb_lt _ _)) by lia.
    destruct (lookup_lt_is_Some_2 (core_tenants (rt_cores rt)) i) as [v Hv]; [rewrite (cw_tenants _ Hwf); fold h; lia|].
    rewrite (list_lookup_total_correct _ _ _ Hv), (Hc _ _ Hv), El. done.
Qed.

(** The cores that the finalizer has passed stay empty while threads only
    end. *)
Definition passed (s : runtime * nat) : Prop :=
  rt_ok (fst s) /\ forall k, (k < snd s)%nat -> tenants (rt_cores (fst s)) k (rt_loggers (fst s)) = 0.

Lemma logger_exit_tenants rt i rt' k :
  logger_exit rt i = Ok rt' ->
  0 <= tenants (rt_cores rt') k (rt_loggers rt') <= tenants (rt_cores rt) k (rt_loggers rt).
Proof.
  intros E. split; [apply tenants_le|]. unfold logger_exit in E. destruct (rt_loggers rt !! i) as [p|] eqn:Hi; [|done].
  apply res_bind_Ok in E as (c' & Ec & E). apply Ok_inj in E as <-. cbn [rt_cores rt_loggers].
  assert (Em : core_ht_map c' = core_ht_map (rt_cores rt)).
  { unfold Savitar_core_free in Ec. destruct (_ <=? _); [|done]. destruct (_ <? _); [|done].
    destruct (find_core _ _ _); [|done]. by apply Ok_inj in Ec as <-. }
  assert (Et : forall l, tenants c' k l = tenants (rt_cores rt) k l) by (intros l; unfold tenants, hosts; by rewrite Em).
  rewrite Et, (delete_tenants _ _ _ _ _ Hi). destruct (hosts _ _ _); lia.
Qed.

Lemma fin_steps_passed s s' : rtc (fin_step false) s s' -> passed s -> passed s'.
Proof.
  induction 1 as [|s s1 s2 Hs _ IH]; [done|]. intros Hp. apply IH. clear IH.
  destruct Hs as [rt i j E|rt i k rt1 E|rt i thread sh t rt1 t' E|rt i thread cfg Hb _]; [| | |done]; destruct Hp as [Hok Hp]; cbn [fst snd] in *.
  - split; [done|]. intros k Hk. cbn [fst snd] in *. unfold Savitar_core_finalize in E.
    destruct (Nat.ltb_spec i (Z.to_nat (Z.shiftr (available_cores (rt_cores rt)) 1))) as [Hi|]; [|done].
    injection E as <-. destruct (Z.eqb_spec (core_tenants (rt_cores rt) !!! i) 0) as [Ez|]; [|by apply Hp].
    destruct (decide (k = i)) as [->|]; [|apply Hp; lia].
    destruct (lookup_lt_is_Some_2 (core_tenants (rt_cores rt)) i) as [v Hv]; [rewrite (cw_tenants _ (ro_wf _ Hok)); lia|].
    rewrite (list_lookup_total_correct _ _ _ Hv) in Ez. by rewrite <- (ro_count _ Hok _ _ Hv).
  - split; cbn [fst snd]; [eapply rt_steps_ok; [apply rtc_once; by eapply rt_logger_exit|done]|].
    intros j Hj. pose proof (logger_exit_tenants _ _ _ j E). specialize (Hp j Hj). lia.
  - split; cbn [fst snd]; [eapply rt_steps_ok; [apply rtc_once; by eapply rt_worker_exit|done]|].
    unfold worker_exit in E. apply res_bind_Ok in E as (r & _ & E). apply Ok_inj in E. by injection E as <- _.
Qed.

(** Fresh counters. *)
Lemma rt_ok_start c : cores_wf c -> Forall (fun v => v = 0) (core_tenants c) -> rt_ok (Runtime c ∅ []).
Proof.
  intros Hw H0. split; cbn; [done| |done|].
  - intros p Hp. by apply elem_of_nil in Hp.
  - intros k v Hk. by apply (Forall_lookup_1 _ _ _ _ H0 Hk).
Qed.

(** [C38] The end of the program waits for the loggers.  Start from fresh
    counters, let threads be created and end in any order (with at most 65,535
    loggers at a time), then run [Savitar_core_finalize], which waits for one
    core after the other, while threads go on to end but none is created.
    Then every logger that ends finds its core; if the finalizer has got past
    its last core, every logger has ended; and when every logger has ended,
    the finalizer gets there by its own steps.  (If a thread is created while
    the finalizer runs, it may miss it: [finalize_misses_logger].) *)
Theorem finalize_waits_for_loggers c rt rt' i :
  cores_wf c -> Forall (fun v => v = 0) (core_tenants c) -> rtc rt_step (Runtime c ∅ []) rt ->
  rtc (fin_step false) (rt, 0%nat) (rt', i) ->
  (forall k p, rt_loggers rt' !! k = Some p -> exists rt2, logger_exit rt' k = Ok rt2) /\
  (Savitar_core_finalize (rt_cores rt') i = None -> rt_loggers rt' = []) /\
  (rt_loggers rt' = [] ->
     exists j, rtc (fin_step false) (rt', i) (rt', j) /\ Savitar_core_finalize (rt_cores rt') j = None).
Proof.
  intros Hw H0 Hr Hf.
  assert (Hok0 : rt_ok rt) by (eapply rt_steps_ok; [exact Hr|by apply rt_ok_start]).
  destruct (fin_steps_passed _ _ Hf) as [Hok Hp]; [split; [done|cbn; lia]|]. cbn [fst snd] in *.
  split; [intros k p Hk; destruct (logger_exit_ok rt' k p Hok Hk) as (rt2 & ? & _); by exists rt2|].
  split; [|by apply finalize_free]. intros Hdone. destruct Hok as [Hwf Hl _ _].
  destruct (rt_loggers rt') as [|p live] eqn:El; [done|exfalso].
  destruct (Hl p) as (k & pair & Hk & ->); [left|].
  unfold Savitar_core_finalize in Hdone. destruct (Nat.ltb_spec i (Z.to_nat (Z.shiftr (available_cores (rt_cores rt')) 1))); [done|].
  assert (Hki : (k < i)%nat) by (apply lookup_lt_Some in Hk; rewrite (cw_map _ Hwf) in Hk; lia).
  specialize (Hp k Hki). change (fst pair :: live) with ([fst pair] ++ live) in Hp.
  rewrite tenants_app, tenants_one, (hosts_pair _ k), bool_decide_true in Hp by done.
  pose proof (tenants_le (rt_cores rt') k live). lia.
Qed.

(** ** The end of a logger *)

Section logger.
Variable call_log : Z -> Z -> list Z -> list (list Z).
Variable obj_uuid : Z -> list Z.
Variable log_len : Z.

(** A worker that ended has no open call and has left its signal. *)
Definition term_ok (t : tstate) : Prop := Tx.worker t = WTerm -> stack t = [] /\ tag_at t 0 = UINT64_MAX.

Lemma worker_term_ok act sh t sh' t' out :
  inv call_log obj_uuid sh t -> term_ok t -> (act = AExit -> stack t = []) ->
  worker_step act sh t = Ok (sh', t', out) -> term_ok t'.
Proof.
  intros Hi Ht Hex E Hw. pose proof (inv_buffer _ _ _ _ Hi) as Hb. unfold worker_step in E.
  destruct (Tx.worker t) eqn:Ew; [destruct act|..]; repeat case_match; try discriminate E; try (res_inv E); try discriminate E;
    apply Ok_inj in E; injection E as <- <- <-; cbn in Hw; try (rewrite Ew in Hw; discriminate Hw); try discriminate Hw.
  - split; [by apply Hex|]. unfold tag_at. cbn. by rewrite list_lookup_total_insert_eq by lia.
  - by apply Ht.
Qed.

Lemma persister_term_ok sh t sh' t' out :
  inv call_log obj_uuid sh t -> term_ok t -> persister_step call_log obj_uuid log_len sh t = Ok (sh', t', out) -> term_ok t'.
Proof.
  intros Hi Ht E Hw. destruct (inv_persister _ _ _ _ Hi) as [_ Hp]. unfold persister_step in E.
  destruct (persister t) eqn:Ep.
  all: repeat case_match; try discriminate E; try (res_inv E); try discriminate E; apply Ok_inj in E; injection E as <- <- <-;
    cbn in Hw; try (exact (Ht Hw)).
  destruct (Ht Hw) as [Hst _]. rewrite Hst in Hp. cbn in Hp. lia.
Qed.

Lemma step_term_ok s out s' :
  sys_inv call_log obj_uuid s -> Forall term_ok (threads s) -> step call_log obj_uuid log_len s out s' -> Forall term_ok (threads s').
Proof.
  intros [Hi _] Ht Hs. destruct Hs as [sh ts i t act sh' t' out Hj _ Hex E|sh ts i t sh' t' out Hj E|sh ts|sh ts locks]; cbn [threads sys] in *.
  - apply Forall_insert; [done|]. eapply worker_term_ok; [by apply (Hi i)|by eapply Forall_lookup_1|exact Hex|exact E].
  - apply Forall_insert; [done|]. eapply persister_term_ok; [by apply (Hi i)|by eapply Forall_lookup_1|exact E].
  - apply Forall_app. split; [done|]. apply Forall_singleton. by intros [=].
  - done.
Qed.

Lemma run_term_ok s tr s' :
  run call_log obj_uuid log_len s tr s' -> sys_inv call_log obj_uuid s -> Forall term_ok (threads s) -> Forall term_ok (threads s').
Proof. induction 1 as [|s1 out s2 tr s3 Hs _ IH]; [done|]. intros Hi Ht. apply IH; [by eapply step_sys_inv|by eapply step_term_ok]. Qed.

(** The persister is at its end after [n] steps, with the logs untouched. *)
Definition exits (n : nat) (sh : shared) (t : tstate) : Prop :=
  exists t', persister_run call_log obj_uuid log_len n sh t = Ok (sh, t') /\ persister t' = PExit.

Lemma exits_step n sh t t1 :
  persister_step call_log obj_uuid log_len sh t = Ok (sh, t1, None) -> exits n sh t1 -> exits (S n) sh t.
Proof. intros E (t' & Hr & Hp). exists t'. cbn [persister_run]. by rewrite E. Qed.

Lemma exits_done n sh t : persister t = PExit -> exits n sh t.
Proof.
  intros Hp. induction n as [|n IH]; [by exists t|]. apply (exits_step _ _ _ t); [|done]. unfold persister_step. by rewrite Hp.
Qed.

(** From the tag of an ended worker. *)
Lemma exits_term n sh b tx st w a :
  (a < length b)%nat -> method_tag (b !!! a) = UINT64_MAX -> exits (2 + n) sh (Thread b tx st w PHead a).
Proof.
  intros Ha Hm. eapply exits_step.
  { unfold persister_step, tag_at, set_persister. cbn [persister active_tx_id buffer]. by rewrite (proj2 (Nat.ltb_lt _ _) Ha), Hm. }
  eapply exits_step; [unfold persister_step, tag_at, set_persister; cbn [persister active_tx_id buffer]; by rewrite Hm|]. by apply exits_done.
Qed.

Lemma exits_head n sh b tx st w a :
  length b = 15%nat -> (a < 15)%nat -> method_tag (b !!! 0%nat) = UINT64_MAX -> tx !!! 0%nat = 0 ->
  (method_tag (b !!! a) = 0 \/ method_tag (b !!! a) = UINT64_MAX) -> exits (4 + n) sh (Thread b tx st w PHead a).
Proof.
  intros Hb Ha H0 Htx [Hm|Hm]; [|apply (exits_term (2 + n)); [lia|done]].
  eapply exits_step.
  { unfold persister_step, tag_at, set_persister. cbn [persister active_tx_id buffer]. rewrite (proj2 (Nat.ltb_lt _ _)) by lia. by rewrite Hm. }
  eapply exits_step; [unfold persister_step, tx0, set_persister; cbn [persister tx_buffer active_tx_id]; by rewrite Htx|].
  apply (exits_term n); [cbn [buffer]; lia|done].
Qed.

Lemma overrun_faults sh t :
  length (buffer t) = 15%nat -> tx0 t = 0 -> active_tx_id t = 14%nat -> persister t = PGt \/ persister t = PLt ->
  exists m, (m <= 3)%nat /\ persister_run call_log obj_uuid log_len m sh t = Segfault.
Proof.
  destruct t as [b tx st w p a]. unfold tx0. cbn [buffer tx_buffer active_tx_id persister]. intros Hb Htx -> [-> | ->].
  - exists 3%nat. split; [lia|]. cbn [persister_run]. unfold persister_step, tx0, set_persister.
    cbn [persister active_tx_id tx_buffer]. rewrite Htx. change (u64 (0 - 1) <? Z.of_nat 14) with false.
    cbn [res_bind fst snd persister active_tx_id tx_buffer]. rewrite Htx. change (Z.of_nat 14 <? u64 (0 - 1)) with true.
    cbn [res_bind fst snd persister active_tx_id tx_buffer buffer]. by rewrite Hb.
  - exists 2%nat. split; [lia|]. cbn [persister_run]. unfold persister_step, tx0, set_persister.
    cbn [persister active_tx_id tx_buffer]. rewrite Htx. change (Z.of_nat 14 <? u64 (0 - 1)) with true.
    cbn [res_bind fst snd persister active_tx_id tx_buffer buffer]. by rewrite Hb.
Qed.

(** [C18] A logger thread ends, or faults.  Once its worker has ended, a
    persister leaves its loop within 8 of its own steps and touches no log on
    the way; unless it stands at the end of its fifteen slots
    ([active_tx_id] 15, or 14 after the first of the two comparisons with
    [tx_buffer[0] - 1], which has wrapped around): then it reads past the
    slots within 3 steps. *)
Theorem persister_exits s i t :
  Tx.reachable call_log obj_uuid log_len s -> threads s !! i = Some t -> Tx.worker t = WTerm ->
  (exists t', persister_run call_log obj_uuid log_len 8 (sys s) t = Ok (sys s, t') /\ persister t' = PExit) \/
  ((active_tx_id t = 15%nat \/ (active_tx_id t = 14%nat /\ (persister t = PGt \/ persister t = PLt))) /\
   exists m, (m <= 3)%nat /\ persister_run call_log obj_uuid log_len m (sys s) t = Segfault).
Proof.
  intros Hr Ht Hw. pose proof (reachable_inv _ _ _ _ Hr) as [Hinv _]. pose proof (Hinv i t Ht) as Hi.
  assert (Hterm : term_ok t).
  { destruct Hr as [tr Hr]. eapply (Forall_lookup_1 _ (threads s)); [|exact Ht]. eapply run_term_ok; [exact Hr| |by apply Forall_nil].
    apply (reachable_inv _ _ log_len). exists []. apply run_nil. }
  destruct (Hterm Hw) as [Hst H0]. pose proof (inv_tx0 _ _ _ _ Hi) as Htx. rewrite Hst, Hw in Htx.
  pose proof (inv_buffer _ _ _ _ Hi) as Hb. pose proof (inv_free _ _ _ _ Hi) as Hfree. rewrite Hst in Hfree.
  destruct (inv_persister _ _ _ _ Hi) as [Ha15 Hp]. rewrite Hst in Hp. change (tx0 t = 0) in Htx.
  destruct (decide (persister t = PExit)) as [Ex|Nx]; [left; by apply exits_done|].
  destruct (decide (active_tx_id t = 15%nat)) as [E15|N15].
  { right. split; [by left|]. exists 1%nat. split; [lia|]. cbn [persister_run]. unfold persister_step.
    destruct (persister t) eqn:Ep; try done; try (exfalso; cbn in Hp; lia). by rewrite E15, Hb. }
  destruct (decide (active_tx_id t = 14%nat /\ (persister t = PGt \/ persister t = PLt))) as [[E14 Epc]|N14].
  { right. split; [by right|]. by apply overrun_faults. }
  left. change (exits 8 (sys s) t).
  assert (Hfree' : forall k, (k < 15)%nat -> tag_at t k = 0 \/ tag_at t k = UINT64_MAX).
  { intros k Hk. destruct (Hfree k) as [?|[_ ?]]; [cbn; lia|by left|by right]. } clear Hfree Hterm Hinv Ht Hr.
  destruct t as [b tx st w p a]. unfold tx0, tag_at in *. cbn [Tx.worker persister active_tx_id buffer tx_buffer stack counted length] in *.
  destruct p; try (cbn in Hp; lia).
  - apply (exits_head 4); [done|lia|done|lia|apply Hfree'; lia].
  - eapply exits_step; [unfold persister_step, tx0, set_persister; cbn [persister tx_buffer active_tx_id]; by rewrite Htx|].
    apply (exits_head 3); [done|lia|done|lia|by right].
  - eapply exits_step.
    { unfold persister_step, tx0, set_persister; cbn [persister tx_buffer active_tx_id]. rewrite Htx. change (u64 (0 - 1)) with 18446744073709551615.
      by rewrite (proj2 (Z.ltb_ge 18446744073709551615 (Z.of_nat a))) by lia. }
    eapply exits_step.
    { unfold persister_step, tx0, set_persister; cbn [persister tx_buffer active_tx_id]. rewrite Htx. change (u64 (0 - 1)) with 18446744073709551615.
      by rewrite (proj2 (Z.ltb_lt (Z.of_nat a) 18446744073709551615)) by lia. }
    assert (a <> 14%nat) by naive_solver. apply (exits_head 2); [done|lia|done|lia|apply Hfree'; lia].
  - eapply exits_step.
    { unfold persister_step, tx0, set_persister; cbn [persister tx_buffer active_tx_id]. rewrite Htx. change (u64 (0 - 1)) with 18446744073709551615.
      by rewrite (proj2 (Z.ltb_lt (Z.of_nat a) 18446744073709551615)) by lia. }
    assert (a <> 14%nat) by naive_solver. apply (exits_head 3); [done|lia|done|lia|apply Hfree'; lia].
  - destruct Hp as [_ Hp]. destruct (Hfree' a) as [?|Hm]; [lia|done|].
    eapply exits_step; [unfold persister_step, tag_at, set_persister; cbn [persister active_tx_id buffer]; by rewrite Hm|]. by apply exits_done.
  - done.
Qed.

End logger.

(** ** Page faults after the end of a snapshot *)

(** A thread faults on a block of which a copying thread then finishes the
    copy; all copying threads finish. *)
Definition late_moves : list SnapshotProofs.move :=
  [SnapshotProofs.MWorker 0; MProgram 1 (BaseAddress + 64, zero_line)] ++
  replicate 650 (SnapshotProofs.MWorker 0) ++
  concat (replicate 3 [SnapshotProofs.MWorker 1; SnapshotProofs.MWorker 2; SnapshotProofs.MWorker 3]).
Definition late_end : config := default demo_start (SnapshotProofs.play demo_header demo_words late_moves demo_start).

(** A page fault can outlive its snapshot.  The snapshot ends when no
    handler is copying; a thread that has faulted but not yet entered the
    handler is not waited for.  Its block is writable again, but once the
    snapshot object is deleted the handler takes the fault for an ordinary
    segmentation fault and ends the program. *)
Theorem late_fault_exits :
  exists c x, SnapshotProofs.reachable demo_header demo_words 4 demo_mem c /\
    w_pc <$> cf_workers c = replicate 4 WDone /\ no_fault_handlers (cf_snap c) 4 = true /\
    cf_apps c !! 1%nat = Some (AFault x) /\ block_of x ∉ sn_ro (cf_snap c) /\
    forall p, exists p', signal_handler SIGSEGV x (snapshot_worker_end p) = Ok (p', None) /\ pr_exit p' = Some 1.
Proof.
  exists late_end, (BaseAddress + 64). split.
  { exists demo_workers, 2%nat. split; [by vm_compute|]. apply (play_steps _ _ late_moves). by vm_compute. }
  split; [by vm_compute|]. split; [by vm_compute|]. split; [by vm_compute|].
  split; [by vm_compute|]. intros p. eexists. split; [reflexivity|done].
Qed.

(** ** Concrete instances *)

Definition idle_cores : cores := Cores 4 [0; 0] [(0, 2); (1, 3)] 2.

Lemma idle_cores_wf : cores_wf idle_cores.
Proof. destruct demo_cores_wf as [H1 H2 H3 H4 H5]. split; [exact H1|exact H2|exact H3|exact H4|]. by repeat constructor. Qed.

Definition one_logger : runtime := fst (Savitar_thread_create (Runtime idle_cores ∅ []) 7 8).

Lemma finalize_waits_for_loggers_witness :
  Savitar_core_finalize (rt_cores one_logger) 0 = Some 0%nat /\
  (Savitar_core_finalize (rt_cores one_logger) 0 = None -> rt_loggers one_logger = []).
Proof.
  split; [by vm_compute|].
  apply (finalize_waits_for_loggers idle_cores one_logger one_logger 0).
  - apply idle_cores_wf.
  - by repeat constructor.
  - apply rtc_once. apply (rt_create (Runtime idle_cores ∅ []) 7 8). by vm_compute.
  - apply rtc_refl.
Defined.

(** A thread created on a core that the finalizer has passed is missed. *)
Lemma finalize_misses_logger :
  exists rt i, rtc (fin_step true) (Runtime idle_cores ∅ [], 0%nat) (rt, i) /\
    Savitar_core_finalize (rt_cores rt) i = None /\ rt_loggers rt <> [].
Proof.
  exists one_logger, 2%nat. split; [|split; [by vm_compute|by vm_compute]].
  eapply rtc_l; [by apply (fin_read _ _ _ 1%nat); vm_compute|].
  eapply rtc_l; [apply (fin_create true (Runtime idle_cores ∅ []) 1 7 8); [done|by vm_compute]|].
  apply rtc_once, fin_read. by vm_compute.
Qed.

(** A thread that ends at once. *)
Definition ended : tstate := set_worker (set_tag thread_create 0 UINT64_MAX) WTerm.

Lemma ended_reachable : Tx.reachable demo_call_log demo_uuid 1024 (System (Shared ∅ ∅) [ended]).
Proof.
  destruct (create_reachable demo_call_log demo_uuid 1024) as [tr Hr]. eapply run_snoc; [exact Hr|].
  apply (Tx.step_worker demo_call_log demo_uuid 1024 (Shared ∅ ∅) [thread_create] 0 thread_create AExit (Shared ∅ ∅) ended None);
    [done|exact I|done|by vm_compute].
Qed.

Lemma persister_exits_witness :
  (exists t', persister_run demo_call_log demo_uuid 1024 8 (Shared ∅ ∅) ended = Ok (Shared ∅ ∅, t') /\ persister t' = PExit) \/
  ((active_tx_id ended = 15%nat \/ (active_tx_id ended = 14%nat /\ (persister ended = PGt \/ persister ended = PLt))) /\
   exists m, (m <= 3)%nat /\ persister_run demo_call_log demo_uuid 1024 m (Shared ∅ ∅) ended = Segfault).
Proof.
  apply (persister_exits demo_call_log demo_uuid 1024 (System (Shared ∅ ∅) [ended]) 0 ended);
    [apply ended_reachable|reflexivity|reflexivity].
Defined.
