(* ===== verification/Tools.v ===== *)
(** * Inspection tools (tools/dump_log.cpp, tools/dump_snapshot.cpp)

    What the two tools print, as values: the entries of a redo log found by
    scanning it cache line by cache line, and the contents of a snapshot. *)

From stdpp Require Import base numbers list gmap strings.
From S2P Require Import Prelude Pmem Savitar NvLog Recover Tx Manager Bitmap Heap GlobalAlloc FreeList ObjectAlloc Snapshot.

(** ** dump_log *)

(** A printed line: offset, commit number, and the method tag or the parent
    of a nested call. *)
Inductive dumped :=
| DumpCall (offset commit method_tag : Z)
| DumpNested (offset commit : Z) (parent : string) (parent_offset : Z).

Section DumpLog.
Context {P : Type} `{PmemOps P} `{Uuid}.

Record log_dump := LogDump {
  ld_size_mb : Z; ld_head : Z; ld_tail : Z; ld_exceeded : option Z; ld_last_commit : Z; ld_lines : list dumped
}.

(** The scanning loop; every iteration advances by a cache line. *)
Fixpoint dump_loop (fuel : nat) (log : P) (offset : Z) : res (list dumped) :=
  if (offset <? get_field log off_tail) && (offset <? get_field log off_size) then
    match fuel with
    | O => NoFuel
    | S fuel =>
        let* magic := ld64 log (offset + 8) in
        if negb (magic =? REDO_LOG_MAGIC) then dump_loop fuel log (offset + 64)
        else
          let* commit := ld64 log offset in
          let* method_tag := ld64 log (offset + 16) in
          let* line :=
            (if is_nested method_tag then
               let* uuid := ld_uuid log (offset + 24) in
               Ok (DumpNested offset commit (uuid_unparse uuid) (nested_offset method_tag))
             else Ok (DumpCall offset commit method_tag)) in
          let* lines := dump_loop fuel log (offset + 64) in
          Ok (line :: lines)
    end
  else Ok [].

Definition dump_fuel (log : P) : nat := Z.to_nat (get_field log off_size / 64 + 1).

Definition dump_log (files : gmap string P) (uuid : list Z) : res (gmap string P * log_dump) :=
  let* r := Savitar_log_open files uuid in
  match snd r with
  | None => AssertFail
  | Some path =>
      match fst r !! path with
      | None => Segfault
      | Some log =>
          let size := get_field log off_size in
          let tail := get_field log off_tail in
          let* lines := dump_loop (dump_fuel log) log sizeof_RedoLog in
          Ok (fst r, LogDump (size / 1024 / 1024) (get_field log off_head) tail
                (if size <? tail then Some (tail - size) else None) (get_field log off_last_commit) lines)
      end
  end.

End DumpLog.

(** ** dump_snapshot *)

(** The loop over the objects: textual uuid, object pointer, last commit. *)
Fixpoint dump_objects `{Uuid} (n : nat) (nvm : words) (ptr : Z) : list (string * Z * Z) :=
  match n with
  | O => []
  | S n =>
      let commit := wget nvm ptr in
      let obj := wget nvm (ptr + 16) in
      let ptr := ptr + 24 in
      let uuid := snapshot_uuid nvm ptr in
      let allocTotalCores := wget nvm (ptr + 16) in
      let allocSnapshotSize := 16 + 8 + 8 + fl_snapshotSize * allocTotalCores in
      (uuid_unparse uuid, obj, commit) :: dump_objects n nvm (ptr + allocSnapshotSize)
  end.

(** The loop over the bits of a word; the statement [bit >> 1] leaves [bit]
    as it is. *)
Fixpoint dump_word (n : nat) (bit modifiedPages : Z) : Z :=
  match n with
  | O => modifiedPages
  | S n => dump_word n bit (if negb (Z.land bit 1 =? 0) then modifiedPages + 1 else modifiedPages)
  end.

(** The loop over the words of the bitmap: at most [n] words. *)
Fixpoint dump_pages (n : nat) (nvm : words) (bitmap modifiedPages totalPages allocatedPages : Z) : Z :=
  match n with
  | O => modifiedPages
  | S n =>
      let modifiedPages := dump_word 64 (wget nvm bitmap) modifiedPages in
      let totalPages := totalPages + 64 in
      if totalPages =? allocatedPages then modifiedPages
      else dump_pages n nvm (bitmap + 8) modifiedPages totalPages allocatedPages
  end.

Record snapshot_dump := SnapshotDump {
  sd_id : Z; sd_size_mb : Z; sd_objects : list (string * Z * Z); sd_modified : Z; sd_allocated_mb : Z
}.

Definition dump_snapshot `{Uuid} (h : snapshot_header_t) (nvm : words) : snapshot_dump :=
  let allocated := wget nvm (global_offset h) in
  let allocatedPages := allocated / BitmapGranularity in
  SnapshotDump (identifier h) (Z.shiftr (h_size h) 20)
    (dump_objects (Z.to_nat (object_count h)) nvm (alloc_offset h))
    (dump_pages (Z.to_nat bitmapSize) nvm (bitmap_offset h) 0 0 allocatedPages)
    (Z.shiftr allocated 20).

(** The page counter of the tool counts the lowest page of every word 64
    times and no other page. *)
Lemma dump_word_lowest n bit m : dump_word n bit m = m + Z.of_nat n * Z.b2z (Z.odd bit).
Proof.
  revert m. induction n as [|n IH]; intros m; cbn [dump_word]; [lia|]. rewrite IH.
  assert (E : Z.land bit 1 = Z.b2z (Z.odd bit)) by (change 1 with (Z.ones 1) at 1; rewrite Z.land_ones by lia; by rewrite Zmod_odd; destruct (Z.odd bit)).
  rewrite E. destruct (Z.odd bit); cbn; lia.
Qed.

(** ** dump_log lists the log *)

Section DumpLog_proofs.
Context {P : Type} `{PmemLaws P} `{Uuid}.
Implicit Types log : P.

(** What is printed for the entries [es] from offset [off] on. *)
Definition dump_entry (off : Z) (e : entry) : dumped :=
  if is_nested (entry_tag e)
  then DumpNested off (e_commit e) (uuid_unparse (take 16 (entry_args e))) (nested_offset (entry_tag e))
  else DumpCall off (e_commit e) (entry_tag e).
Fixpoint dump_entries (off : Z) (es : list entry) : list dumped :=
  match es with
  | [] => []
  | e :: es => dump_entry off e :: dump_entries (off + esize e) es
  end.

(** Entries as they are logged; the lines of an entry after its first do not
    look like the start of an entry. *)
Record dumpable log (off : Z) (e : entry) : Prop := {
  du_body : (8 <= length (e_body e))%nat;
  du_commit : is_u64 (e_commit e);
  du_nested : is_nested (entry_tag e) = true -> Zlength (entry_args e) = 16;
  du_plain : forall k, 0 < k -> 64 * k < esize e -> rd64 (pm_load log) (off + 64 * k + 8) <> REDO_LOG_MAGIC
}.
Fixpoint all_dumpable log (off : Z) (es : list entry) : Prop :=
  match es with
  | [] => True
  | e :: es => dumpable log off e /\ all_dumpable log (off + esize e) es
  end.

(** Lines that are not the start of an entry are skipped. *)
Lemma dump_skip m fuel log off :
  0 <= off -> off + 64 * Z.of_nat m <= get_field log off_tail -> off + 64 * Z.of_nat m <= get_field log off_size ->
  get_field log off_size = pm_len log ->
  (forall k, 0 <= k < Z.of_nat m -> rd64 (pm_load log) (off + 64 * k + 8) <> REDO_LOG_MAGIC) ->
  dump_loop (m + fuel) log off = dump_loop fuel log (off + 64 * Z.of_nat m).
Proof.
  revert off. induction m as [|m IH]; intros off Hoff Ht Hs Hlen Hno.
  { cbn [Nat.add]. f_equal. lia. }
  cbn [Nat.add dump_loop]. rewrite (proj2 (Z.ltb_lt _ _)), (proj2 (Z.ltb_lt _ _)) by lia. cbn [andb].
  rewrite ld64_ok by lia. cbn [res_bind].
  specialize (Hno 0 ltac:(lia)) as Hz. rewrite Z.mul_0_r, Z.add_0_r in Hz. rewrite (proj2 (Z.eqb_neq _ _) Hz). cbn [negb].
  rewrite IH; [f_equal; lia|lia|lia|lia|done|]. intros k Hk. replace (off + 64 + 64 * k) with (off + 64 * (k + 1)) by lia. apply Hno. lia.
Qed.

Lemma dump_loop_spec es fuel log off :
  entries_at (pm_load log) off es -> all_dumpable log off es -> 0 <= off ->
  get_field log off_tail = off + total es -> get_field log off_size = pm_len log -> off + total es <= pm_len log ->
  (Z.to_nat (total es / 64) <= fuel)%nat ->
  dump_loop fuel log off = Ok (dump_entries off es).
Proof.
  revert fuel off. induction es as [|e es IH]; intros fuel off He Hd Hoff Ht Hs Hl Hf; cbn [dump_entries].
  { change (total []) with 0 in Ht. destruct fuel; cbn [dump_loop]; rewrite (proj2 (Z.ltb_ge _ _)) by lia; done. }
  destruct Hd as [[Hb Hc Hn Hp] Hd]. change (total (e :: es)) with (esize e + total es) in *.
  pose proof (total_nonneg es). pose proof (esize_spec e) as [Hal _]. pose proof (esize_ge e) as Hge.
  destruct (entry_words log off e es He Hb Hc Hoff) as (E1 & E2 & E3 & E4); [lia|].
  set (m := Z.to_nat (esize e / 64 - 1)). assert (Em : esize e = 64 + 64 * Z.of_nat m) by (unfold m, CACHE_LINE_WIDTH in *; dlia).
  assert (Ef : exists fuel', fuel = S (m + fuel') /\ (Z.to_nat (total es / 64) <= fuel')%nat).
  { exists (fuel - 1 - m)%nat. rewrite Em in Hf.
    replace ((64 + 64 * Z.of_nat m + total es) / 64) with (1 + Z.of_nat m + total es / 64) in Hf by dlia.
    assert (0 <= total es / 64) by dlia. lia. }
  destruct Ef as (fuel' & -> & Hf'). cbn [dump_loop].
  rewrite (proj2 (Z.ltb_lt _ _)), (proj2 (Z.ltb_lt _ _)) by lia. cbn [andb].
  rewrite E2. cbn [res_bind]. rewrite Z.eqb_refl. cbn [negb]. rewrite E1, E3. cbn [res_bind].
  assert (Hline : (if is_nested (entry_tag e)
    then let* uuid := ld_uuid log (off + 24) in Ok (DumpNested off (e_commit e) (uuid_unparse uuid) (nested_offset (entry_tag e)))
    else Ok (DumpCall off (e_commit e) (entry_tag e))) = Ok (dump_entry off e)).
  { unfold dump_entry. destruct (is_nested (entry_tag e)) eqn:En; [|done]. by rewrite E4 by auto. }
  rewrite Hline. cbn [res_bind].
  rewrite dump_skip; [|lia|lia|lia|done|].
  - replace (off + 64 + 64 * Z.of_nat m) with (off + esize e) by lia. destruct He as (_ & _ & _ & He).
    rewrite (IH fuel' (off + esize e)); [done|done|done|lia|lia|done|lia|done].
  - intros k Hk. replace (off + 64 + 64 * k) with (off + 64 * (k + 1)) by lia. apply Hp; lia.
Qed.

(** The log dump is the log: on a log file that holds the entries [es],
    the tool prints one line per entry, in the order of the log, with the
    entry's offset, its commit number and its method tag, or for a nested
    call the parent's uuid and the offset of the parent's entry, provided no
    argument happens to contain the magic number where a cache line would
    start an entry; it always ends. *)
Theorem dump_log_lists_entries log es n :
  log_repr log es n -> all_dumpable log sizeof_RedoLog es ->
  dump_loop (dump_fuel log) log sizeof_RedoLog = Ok (dump_entries sizeof_RedoLog es).
Proof.
  intros [Hl Hs Hh Ht Hf Hc Hn He _] Hd. apply dump_loop_spec; try done.
  - unfold dump_fuel. rewrite Hs. pose proof (total_nonneg es). unfold sizeof_RedoLog in *. dlia.
Qed.

End DumpLog_proofs.

(** A log with one committed call. *)
Lemma dump_log_lists_entries_witness :
  dump_loop (dump_fuel demo_log1) demo_log1 64 = Ok [DumpCall 64 1 1].
Proof.
  apply (dump_log_lists_entries demo_log1 demo_entries 1).
  - apply demo_log1_facts.
  - split; [|exact I]. split.
    + cbn. lia.
    + split; by_eval.
    + by_eval.
    + intros k Hk Hlt. exfalso. assert (E : esize (Entry 1 (le_bytes 8 1 ++ [104; 105; 0])) = 64) by by_eval. rewrite E in Hlt. lia.
Defined.

(** Two pages of one word are set, the tool counts 64; another page, none. *)
Lemma dump_pages_miscounts :
  dump_pages 1 {[0 := 3]} 0 0 0 64 = 64 /\ dump_pages 1 {[0 := 2]} 0 0 0 64 = 0.
Proof. by vm_compute. Qed.
