(* ===== verification/Startup.v ===== *)
(** * Start and shutdown of the manager (NVManager::NVManager, ~NVManager)

    The constructor ties the components together: it reads the catalog,
    loads the last snapshot, recreates the objects, looks for aborted nested
    transactions after an unclean shutdown, and recovers every object.
    Theorem: a restart without snapshot and without nested entries brings
    every object back to the state of its committed calls, in whatever order
    the recovery threads work. *)

From stdpp Require Import base numbers list gmap strings.
From S2P Require Import Prelude Pmem Savitar NvLog Recover Containers Catalog Manager Heap GlobalAlloc ObjectAlloc Snapshot.

Section Startup.
Context {P : Type} `{PmemOps P} `{Uuid} {St : Type} `{PersistentClass St} `{NestedWait St}.

(** [object_at heap ptr]: the object at [ptr] of a restored heap (the layout
    of C++ objects); [fresh cat entry]: the object its class's factory makes
    from a catalog entry; [St] is the state of the objects of all classes. *)
Variable mmap_at : Z -> Z -> bool.
Variable cores : Z.
Variable object_at : gmap Z line -> Z -> pobject * St.
Variable fresh : P -> Z -> St.
(** [top()] of an emptied heap, and the order in which the recovery threads
    do their work. *)
Variable empty_top : Z -> Z.
Variable order : list string -> list string.

(** The mapped logs of the objects. *)
Definition logs_of (w : @world P) : gmap string P :=
  omap (fun o => po_log o ≫= fun path => files w !! path) (objects w).

(** [Play] with [dry] set, of the object named [o]. *)
Definition play_dry (sts : gmap string St) (o : string) (tag ptr : Z) (rd : Z -> Z) (len : Z) : res Z :=
  match sts !! o with
  | None => Segfault
  | Some st => let* r := obj_Play tag ptr true rd len st in Ok (snd r)
  end.

(** [recoveryWorker] of one object. *)
Definition recoveryWorker (ctx : RecoveryContext.t) (logs : gmap string P) (uuid_str : string)
    (s : @world P * gmap string St) : res (@world P * gmap string St) :=
  let '(w, sts) := s in
  match objects w !! uuid_str, logs !! uuid_str, sts !! uuid_str with
  | Some o, Some log, Some st =>
      let* r := Recover ctx logs uuid_str log (po_last_played o) st in
      let '(st, last, _) := r in
      let o := set_recovering (set_last_played o last) false in
      Ok (with_objects w (<[uuid_str := o]> (objects w)), <[uuid_str := st]> sts)
  | _, _, _ => Segfault
  end.

(** The recovery threads.  A thread reads and writes its own object and log;
    it depends on the others only where it waits for a parent, and there the
    others appear in [await].  [keys] is the order of their work. *)
Fixpoint recoverAll (ctx : RecoveryContext.t) (logs : gmap string P) (keys : list string)
    (s : @world P * gmap string St) : res (@world P * gmap string St) :=
  match keys with
  | [] => Ok s
  | k :: keys => let* s := recoveryWorker ctx logs k s in recoverAll ctx logs keys s
  end.

(** [snapshot->load(id, this)]: the objects of the snapshot, their states,
    and the recovery context. *)
Definition load_snapshot (snapshots : Z -> option snapshot_file) (id : Z) (t : atable) (w : @world P)
    : res (@world P * gmap string St * RecoveryContext.t) :=
  match snapshots id with
  | None => AssertFail
  | Some f =>
      let* (g, _, l, played) := load mmap_at cores f t (Loaded ∅ ∅ ∅) in
      let heap := lines (ga_mem g) in
      let objs := map_imap (fun k ptr => Some (set_last_played (fst (object_at heap ptr)) (default 0 (played !! k)))) (ld_objects l) in
      let sts := (fun ptr => snd (object_at heap ptr)) <$> ld_objects l in
      Ok (World (files w) objs (dom (ld_objects l) ∪ Manager.allocators w) (factory w) (program_threads w), sts,
          RecoveryContext.Context ∅ (ld_log_heads l))
  end.

(** States of the objects that the snapshot does not have. *)
Definition start_states (cat : P) (ex_objects : list (string * Z)) (sts : gmap string St) : gmap string St :=
  foldl (fun sts e => match sts !! fst e with Some _ => sts | None => <[fst e := fresh cat (snd e)]> sts end) sts ex_objects.

(** The constructor; [last] is the uninitialised [last_played_commit_id] of
    new objects. *)
Definition NVManager (dir : list (list Z)) (snapshots : Z -> option snapshot_file) (t : atable) (w : @world P) (last : Z)
    : res (@world P * gmap string St) :=
  let* r := NVCatalog (files w) CATALOG_FILE_NAME in
  let w := with_files w (fst r) in
  let ex_objects := snd r in
  if bool_decide (ex_objects = []) then Ok (w, ∅)
  else
    let* id := lastSnapshotID dir in
    let* s := (if 0 <? id then load_snapshot snapshots id t w else Ok (w, ∅, RecoveryContext.init)) in
    let '(w, sts, ctx) := s in
    match files w !! catalog_path CATALOG_FILE_NAME with
    | None => Segfault
    | Some cat =>
        let sts := start_states cat ex_objects sts in
        let* w := recoverObjects w ex_objects last in
        let cflags := getFlags cat in
        let* _ := (if Z.land cflags CatalogFlagCleanShutdown =? 0
                   then emulateRecoveryAndFixRedoLogs (play_dry sts) empty_top (logs_of w) else Ok tt) in
        let* r := recoverAll ctx (logs_of w) (order (map_to_list (objects w)).*1) (w, sts) in
        let cat := setFlags cat (Z.ldiff (getFlags cat) CatalogFlagCleanShutdown) in
        Ok (with_files (fst r) (<[catalog_path CATALOG_FILE_NAME := cat]> (files (fst r))), snd r)
    end.

(** The destructor marks a clean shutdown. *)
Definition NVManager_destructor (w : @world P) : res (@world P) :=
  match files w !! catalog_path CATALOG_FILE_NAME with
  | None => Segfault
  | Some cat =>
      let cat := setFlags cat (Z.lor (getFlags cat) CatalogFlagCleanShutdown) in
      Ok (with_files w (<[catalog_path CATALOG_FILE_NAME := cat]> (files w)))
  end.

End Startup.

(** ** A restart *)

Section Startup_proofs.
Context {P : Type} `{PmemLaws P} `{UuidLaws} {St : Type} `{PersistentClass St} `{NestedWait St}.
Implicit Types (w : @world P) (log : P).

(** [Savitar_log_open] clears the lock. *)
Definition opened log : P := set_field log off_snapshot_lock 0.

Definition key (e : centry) : string := uuid_unparse (ce_uuid e).
Definition log_path (e : centry) : string := String.append PMEM_PATH (String.append (key e) ".log").

(** The object that start-up makes for a catalog entry whose log exists. *)
Definition started (f : PersistentFactory.t) (e : centry) : pobject :=
  PObject (ce_uuid e) (default 0 (PersistentFactory.vTable_map f !! ce_type e)) false true (Some (log_path e)) 0 None.

Lemma log_path_eq e : uuid_is_null (ce_uuid e) = false -> Savitar_log_path (ce_uuid e) = Ok (log_path e).
Proof. intros Hn. unfold Savitar_log_path. by rewrite Hn. Qed.

Lemma length_append s1 s2 : String.length (String.append s1 s2) = (String.length s1 + String.length s2)%nat.
Proof. induction s1 as [|c s1 IH]; [done|]. exact (f_equal S IH). Qed.

Lemma append_inj_l s1 s2 p : String.append s1 p = String.append s2 p -> s1 = s2.
Proof.
  intros E. assert (El : String.length s1 = String.length s2).
  { apply (f_equal String.length) in E. rewrite !length_append in E. lia. }
  revert s2 E El. induction s1 as [|c s1 IH]; intros [|c2 s2] E El; cbn in *; try done.
  injection E as -> E. f_equal. apply IH; [done|lia].
Qed.

Lemma log_path_inj e1 e2 : log_path e1 = log_path e2 -> key e1 = key e2.
Proof. unfold log_path. intros E%(inj (String.append PMEM_PATH)). by apply append_inj_l in E. Qed.

Lemma recoverObject_opens w cat e addr last log :
  files w !! catalog_path CATALOG_FILE_NAME = Some cat ->
  bytes_at (pm_load cat) addr (entry_bytes e) -> centry_ok e -> object_ok (factory w) e ->
  objects w !! key e = None -> files w !! log_path e = Some log -> log_valid log ->
  recoverObject w (key e) addr last =
    Ok (World (<[log_path e := opened log]> (files w)) (<[key e := started (factory w) e]> (objects w))
          ({[key e]} ∪ Manager.allocators w) (factory w) (program_threads w)).
Proof.
  intros Hcat Hb (Hu & Ht & Ha) ((Hm & Hv) & Hnull & Hbytes) Hnone Hlog [Hs Hc]. unfold recoverObject. rewrite Hcat.
  unfold entry_bytes in Hb. apply bytes_at_app in Hb as [Hb1 Hb2]. apply bytes_at_app in Hb2 as [Hb2 _].
  replace (addr + Zlength (ce_uuid e)) with (addr + ent_type) in Hb2 by (unfold Zlength, ent_type; rewrite Hu; done).
  apply bytes_at_rd64 in Hb2; [|done]. change (get_field cat (addr + ent_type) = ce_type e) in Hb2. rewrite Hb2.
  apply bytes_at_rd in Hb1. rewrite Hu in Hb1. rewrite Hb1, Hnone.
  unfold PersistentFactory.create, PersistentFactory.vTableUpdate, started.
  destruct Hm as [m ->], Hv as [vt ->]. cbn [res_bind default]. unfold BaseFactory, PersistentObject_constructor.
  cbn [Manager.allocators files]. fold (key e). rewrite bool_decide_true by set_solver.
  unfold Savitar_log_exists, Savitar_log_open. rewrite (log_path_eq e Hnull). cbn [res_bind].
  rewrite Hlog, bool_decide_true by done. cbn [res_bind]. rewrite Hs, Z.eqb_refl, Hc, Z.eqb_refl.
  reflexivity.
Qed.

Lemma opened_image log es : log_image log es -> log_image (opened log) es.
Proof.
  intros [Hh Ht Hf He]. unfold opened. split.
  - by rewrite get_set_field_ne by (unfold off_head, off_snapshot_lock; lia).
  - by rewrite get_set_field_ne by (unfold off_tail, off_snapshot_lock; lia).
  - unfold set_field. by rewrite pm_store_len.
  - eapply entries_at_ext; [|exact He]. intros a Ha. unfold set_field. apply pm_store_other.
    rewrite Zlength_le_bytes. unfold in_range, off_snapshot_lock, sizeof_RedoLog in *. lia.
Qed.

(** The world after the objects [objs] have been recreated. *)
Fixpoint all_started (logs : centry -> P) (objs : list centry) (w : @world P) : @world P :=
  match objs with
  | [] => w
  | e :: objs =>
      all_started logs objs
        (World (<[log_path e := opened (logs e)]> (files w)) (<[key e := started (factory w) e]> (objects w))
           ({[key e]} ∪ Manager.allocators w) (factory w) (program_threads w))
  end.

(** The catalogued objects have different keys, none of them the catalog. *)
Definition distinct (objs : list centry) : Prop :=
  NoDup (key <$> objs) /\ forall e, e ∈ objs -> log_path e <> catalog_path CATALOG_FILE_NAME.

Lemma recoverObjects_opens logs objs k w cat last :
  files w !! catalog_path CATALOG_FILE_NAME = Some cat ->
  (forall i e, objs !! i = Some e -> bytes_at (pm_load cat) (entry_addr (Z.of_nat (k + i))) (entry_bytes e)) ->
  Forall centry_ok objs -> Forall (object_ok (factory w)) objs -> distinct objs ->
  (forall e, e ∈ objs -> objects w !! key e = None /\ files w !! log_path e = Some (logs e) /\ log_valid (logs e)) ->
  recoverObjects w (imap (fun i e => (key e, entry_addr (Z.of_nat (k + i)))) objs) last = Ok (all_started logs objs w).
Proof.
  revert k w. induction objs as [|e objs IH]; intros k w Hcat Hent Hok Hobj [Hnd Hpath] Hlogs; [done|].
  apply Forall_cons in Hok as [He Hok], Hobj as [Ho Hobj]. cbn [fmap list_fmap] in Hnd. apply NoDup_cons in Hnd as [Hnin Hnd].
  cbn [imap recoverObjects]. destruct (Hlogs e) as (Hnone & Hlog & Hval); [left|].
  rewrite (recoverObject_opens w cat e _ last (logs e)); [|done|by apply (Hent 0%nat)|done..]. cbn [res_bind all_started].
  rewrite <- (IH (S k)).
  - f_equal. apply imap_ext. intros i x _. cbn. do 3 f_equal. lia.
  - cbn [files]. rewrite lookup_insert_ne; [done|]. apply Hpath. left.
  - intros i e' Hi. replace (S k + i)%nat with (k + S i)%nat by lia. by apply Hent.
  - done.
  - done.
  - split; [done|]. intros e' He'. apply Hpath. by right.
  - intros e' He'. cbn [objects files]. assert (Hne : key e <> key e') by (intros E; apply Hnin; rewrite E; by apply list_elem_of_fmap_2).
    rewrite !lookup_insert_ne; [apply Hlogs; by right| |done]. intros E. by apply Hne, log_path_inj.
Qed.

Lemma all_started_spec logs objs w :
  NoDup (key <$> objs) ->
  factory (all_started logs objs w) = factory w /\
  (forall k, objects (all_started logs objs w) !! k =
     match list_find (fun e => key e = k) objs with Some (_, e) => Some (started (factory w) e) | None => objects w !! k end) /\
  (forall e, e ∈ objs -> files (all_started logs objs w) !! log_path e = Some (opened (logs e))) /\
  (forall p, (forall e, e ∈ objs -> log_path e <> p) -> files (all_started logs objs w) !! p = files w !! p).
Proof.
  revert w. induction objs as [|e objs IH]; intros w Hnd; cbn [all_started].
  { split; [done|]. split; [done|]. split; [|done]. intros e He. by apply elem_of_nil in He. }
  cbn [fmap list_fmap] in Hnd. apply NoDup_cons in Hnd as [Hnin Hnd].
  set (w1 := World _ _ _ _ _). destruct (IH w1 Hnd) as (Hf & Ho & Hl & Hp).
  split; [by rewrite Hf|]. split; [|split].
  - intros k. rewrite Ho. cbn [list_find]. destruct (decide (key e = k)) as [<-|Hne].
    + rewrite (proj2 (list_find_None _ objs)); [by cbn; rewrite lookup_insert_eq|].
      apply Forall_forall. intros e' He' E. apply Hnin. rewrite <- E. by apply list_elem_of_fmap_2.
    + destruct (list_find (fun e0 => key e0 = k) objs) as [[i e']|]; [done|]. cbn. by rewrite lookup_insert_ne.
  - intros e' [->|He']%elem_of_cons; [|by apply Hl]. rewrite Hp.
    + cbn. by rewrite lookup_insert_eq.
    + intros e2 He2 E. apply Hnin. rewrite <- (log_path_inj _ _ E). by apply list_elem_of_fmap_2.
  - intros p Hno. rewrite Hp by (intros e' He'; apply Hno; by right). cbn. rewrite lookup_insert_ne; [done|]. apply Hno. left.
Qed.

(** *** Recovering every object *)

(** The log [log] holds the readable entries [es], and its [n] committed
    calls, played in commit order, take an object from [st] to [st']. *)
Definition replays (logs : gmap string P) log (es : list entry) (st st' : St) (n : Z) : Prop :=
  exists l evs, log_image log es /\ entries_ok log sizeof_RedoLog es /\
    l ≡ₚ filter (fun r => 0 < _commit_id r) (records sizeof_RedoLog es) /\ in_order 0 n l /\ 0 <= n < 2 ^ 64 - 1 /\
    play_all logs log l st = Ok (st', evs).

Lemma Recover_replays logs k log es st st' n :
  replays logs log es st st' n -> padded_but_last es ->
  exists evs, Recover RecoveryContext.init logs k log 0 st = Ok (st', n, evs).
Proof.
  intros (l & evs & Hi & Hok & Hl & Ho & Hn & Hp) Hpad. exists evs.
  rewrite (replay_commit_order RecoveryContext.init logs k log [] es 0 n l st); [|done|done|exact Hok|done|exact Hl|done|lia|lia|lia].
  by rewrite Hp.
Qed.

Definition finished (o : pobject) (n : Z) : pobject := set_recovering (set_last_played o n) false.

Lemma recoverAll_spec logs keys w sts (final : string -> St * Z) :
  NoDup keys ->
  (forall k, k ∈ keys -> exists o log st, objects w !! k = Some o /\ po_last_played o = 0 /\ logs !! k = Some log /\
     sts !! k = Some st /\ exists es, replays logs log es st (fst (final k)) (snd (final k)) /\ padded_but_last es) ->
  exists w' sts', recoverAll RecoveryContext.init logs keys (w, sts) = Ok (w', sts') /\ files w' = files w /\
    (forall k, k ∉ keys -> objects w' !! k = objects w !! k /\ sts' !! k = sts !! k) /\
    forall k, k ∈ keys -> sts' !! k = Some (fst (final k)) /\
      objects w' !! k = (fun o => finished o (snd (final k))) <$> objects w !! k.
Proof.
  revert w sts. induction keys as [|k keys IH]; intros w sts Hnd Hk.
  { exists w, sts. split; [done|]. split; [done|]. split; [done|]. intros k Hin. by apply elem_of_nil in Hin. }
  apply NoDup_cons in Hnd as [Hnin Hnd]. destruct (Hk k) as (o & log & st & Ho & H0' & Hlog & Hst & es & Hr & Hpad); [left|].
  cbn [recoverAll recoveryWorker]. rewrite Ho, Hlog, Hst, H0'. destruct (Recover_replays logs k log es st _ _ Hr Hpad) as (evs & ->). cbn [res_bind].
  fold (finished o (snd (final k))). set (w1 := with_objects w _). set (sts1 := <[k := _]> sts).
  destruct (IH w1 sts1 Hnd) as (w' & sts' & -> & Hf & Hout & Hin).
  { intros k' Hk'. assert (k <> k') by (intros ->; done). destruct (Hk k') as (o' & log' & st' & ? & ? & ? & ? & ?); [by right|].
    exists o', log', st'. cbn. unfold sts1. rewrite !lookup_insert_ne by done. done. }
  exists w', sts'. split; [done|]. split; [by rewrite Hf|]. split.
  - intros k' Hk'. apply not_elem_of_cons in Hk' as [Hne Hk']. destruct (Hout k' Hk') as [-> ->]. cbn. unfold sts1.
    by rewrite !lookup_insert_ne by done.
  - intros k' [->|Hk']%elem_of_cons.
    + destruct (Hout k Hnin) as [-> ->]. cbn. unfold sts1. rewrite !lookup_insert_eq, Ho. done.
    + destruct (Hin k' Hk') as [-> ->]. split; [done|]. cbn. rewrite lookup_insert_ne; [done|]. by intros ->.
Qed.

(** *** The constructor *)

Lemma ldiff_u64 a b : is_u64 a -> is_u64 (Z.ldiff a b).
Proof.
  intros [Ha Hlt]. split; [apply Z.ldiff_nonneg; by left|]. change (2 ^ 64) with 18446744073709551616 in *.
  destruct (Z.eq_dec (Z.ldiff a b) 0) as [->|Hne]; [done|]. assert (0 <= Z.ldiff a b) by (apply Z.ldiff_nonneg; by left).
  apply (Z.log2_lt_pow2 _ 64); [lia|]. apply Z.lt_nge. intros Hge.
  pose proof (Z.bit_log2 (Z.ldiff a b)) as Hb. rewrite Z.ldiff_spec in Hb. specialize (Hb ltac:(lia)).
  apply andb_true_iff in Hb as [Hb _]. assert (Hz : Z.testbit a (Z.log2 (Z.ldiff a b)) = false); [|congruence].
  destruct (Z.eq_dec a 0) as [->|]; [apply Z.bits_0|]. apply Z.bits_above_log2; [done|].
  assert (Z.log2 a < 64) by (apply Z.log2_lt_pow2; [lia|exact Hlt]). lia.
Qed.

Variable mmap_at : Z -> Z -> bool.
Variable cores : Z.
Variable object_at : gmap Z line -> Z -> pobject * St.
Variable fresh : P -> Z -> St.
Variable empty_top : Z -> Z.

Lemma start_states_spec cat objs k sts :
  NoDup (key <$> objs) -> (forall e, e ∈ objs -> sts !! key e = None) ->
  forall i e, objs !! i = Some e ->
  start_states fresh cat (imap (fun i e => (key e, entry_addr (Z.of_nat (k + i)))) objs) sts !! key e = Some (fresh cat (entry_addr (Z.of_nat (k + i)))).
Proof.
  assert (Hkeep : forall (l : list (string * Z)) sts0 x v, sts0 !! x = Some v -> start_states fresh cat l sts0 !! x = Some v).
  { induction l as [|[y a] l IH]; intros sts0 x v Hx; [done|]. cbn. apply IH. destruct (sts0 !! y) eqn:Ey; [done|].
    rewrite lookup_insert_ne; [done|]. intros ->. by rewrite Hx in Ey. }
  revert k sts. induction objs as [|e0 objs IH]; intros k sts Hnd Hnone i e Hi; [done|].
  cbn [fmap list_fmap] in Hnd. apply NoDup_cons in Hnd as [Hnin Hnd].
  change (imap _ (e0 :: objs)) with ((key e0, entry_addr (Z.of_nat (k + 0))) :: imap (fun i e => (key e, entry_addr (Z.of_nat (k + S i)))) objs).
  cbn [start_states foldl fst snd]. rewrite Hnone by left. destruct i as [|i].
  - injection Hi as ->. apply Hkeep. by rewrite lookup_insert_eq.
  - cbn in Hi. replace (k + S i)%nat with (S k + i)%nat by lia.
    set (sts1 := <[key e0 := _]> sts). assert (Hn1 : forall e', e' ∈ objs -> sts1 !! key e' = None).
    { intros e' He'. unfold sts1. rewrite lookup_insert_ne; [apply Hnone; by right|]. intros E. apply Hnin. rewrite E. by apply list_elem_of_fmap_2. }
    rewrite <- (IH (S k) sts1 Hnd Hn1 i e Hi).
    unfold start_states. f_equal. f_equal. apply imap_ext. intros j x _. cbn. do 3 f_equal. lia.
Qed.

(** The objects of the catalog and their logs at a restart: the catalog is
    readable, its classes are registered and its uuids are different; each log
    file passes the checks of [Savitar_log_open] and, once opened, holds the
    readable entries [entries], whose committed calls take the object that its
    class makes from the catalog entry to the state and commit number
    [final]. *)
Record restartable w cat (objs : list centry) (logs : centry -> P) (entries : centry -> list entry)
    (final : centry -> St * Z) : Prop := {
  rs_objects : objects w = ∅;
  rs_cat : files w !! catalog_path CATALOG_FILE_NAME = Some cat;
  rs_readable : readable cat objs;
  rs_flags : is_u64 (getFlags cat);
  rs_some : objs <> [];
  rs_classes : Forall (object_ok (factory w)) objs;
  rs_distinct : NoDup (ce_uuid <$> objs);
  rs_logs : forall e, e ∈ objs -> files w !! log_path e = Some (logs e) /\ log_valid (logs e);
  rs_replays : forall i e, objs !! i = Some e ->
    replays (list_to_map ((fun e => (key e, opened (logs e))) <$> objs)) (opened (logs e)) (entries e)
      (fresh cat (entry_addr (Z.of_nat i))) (fst (final e)) (snd (final e))
}.

Definition opened_logs (objs : list centry) (logs : centry -> P) : gmap string P :=
  list_to_map ((fun e => (key e, opened (logs e))) <$> objs).

Lemma restart_distinct w cat objs logs entries final : restartable w cat objs logs entries final -> distinct objs.
Proof.
  intros [_ _ [_ _ _ Hok _] _ _ Hcl Hnd Hlogs _]. split.
  - assert (Hinj : forall e1 e2, e1 ∈ objs -> e2 ∈ objs -> key e1 = key e2 -> ce_uuid e1 = ce_uuid e2).
    { intros e1 e2 H1' H2' E. rewrite Forall_forall in Hok, Hcl.
      destruct (Hok e1 H1') as [? _], (Hok e2 H2') as [? _], (Hcl e1 H1') as (_ & _ & ?), (Hcl e2 H2') as (_ & _ & ?).
      by apply uuid_unparse_inj. }
    clear -Hnd Hinj. induction objs as [|e objs IH]; [constructor|]. cbn in *. apply NoDup_cons in Hnd as [Hnin Hnd].
    constructor; [|apply IH; [done|intros; apply Hinj; [by right|by right|done]]].
    intros (e' & E & He')%list_elem_of_fmap. apply Hnin. rewrite (Hinj e e'); [by apply list_elem_of_fmap_2|left|by right|done].
  - intros e He. rewrite Forall_forall in Hcl. destruct (Hcl e He) as (_ & Hn & _). by apply (log_path_not_catalog (ce_uuid e)), log_path_eq.
Qed.

Lemma list_find_key (objs : list centry) i e : NoDup (key <$> objs) -> objs !! i = Some e -> list_find (fun e' => key e' = key e) objs = Some (i, e).
Proof.
  intros Hnd Hi. apply list_find_Some. split; [done|]. split; [done|]. intros j e' Hj Hlt E.
  assert (Hj' : (key <$> objs) !! j = Some (key e)) by (rewrite list_lookup_fmap, Hj; cbn; by rewrite E).
  assert (Hi' : (key <$> objs) !! i = Some (key e)) by (by rewrite list_lookup_fmap, Hi).
  pose proof (NoDup_lookup _ _ _ _ Hnd Hj' Hi'). lia.
Qed.

Lemma opened_logs_lookup objs logs i e : NoDup (key <$> objs) -> objs !! i = Some e -> opened_logs objs logs !! key e = Some (opened (logs e)).
Proof.
  intros Hnd Hi. apply elem_of_list_to_map_1.
  - by rewrite <- list_fmap_compose.
  - apply list_elem_of_fmap. exists e. split; [done|]. by eapply list_elem_of_lookup_2.
Qed.

Lemma started_logs objs logs w :
  NoDup (key <$> objs) -> objects w = ∅ -> logs_of (all_started logs objs w) = opened_logs objs logs.
Proof.
  intros Hnd Hempty. destruct (all_started_spec logs objs w Hnd) as (_ & Ho & Hl & _). apply map_eq. intros k.
  unfold logs_of. rewrite lookup_omap, Ho, Hempty. destruct (list_find (fun e => key e = k) objs) as [[i e]|] eqn:Ef.
  - apply list_find_Some in Ef as (Hi & <- & _). rewrite (opened_logs_lookup objs logs i e) by done.
    cbn. apply Hl. by eapply list_elem_of_lookup_2.
  - rewrite lookup_empty. cbn. symmetry. apply not_elem_of_list_to_map_1. rewrite <- list_fmap_compose.
    intros (e & -> & He)%list_elem_of_fmap. apply list_find_None in Ef. rewrite Forall_forall in Ef. by apply (Ef e He).
Qed.

Lemma aentries_plain o log off es (sts : gmap string St) st :
  sts !! o = Some st -> entries_ok log off es ->
  (forall x, x ∈ es -> is_nested (entry_tag x) = false /\ entry_tag x <> 0) ->
  aentries_ok (play_dry sts) o log off es.
Proof.
  intros Hst. revert off. induction es as [|e es IH]; intros off Hok Hplain; [done|].
  destruct Hok as [[Ht _ Hc Hdry] Hok]. destruct (Hplain e) as [Hn Hz]; [left|]. rewrite Hn in Hdry.
  split; [|apply IH; [done|]; intros; apply Hplain; by right].
  split; [done|done|]. rewrite Hn. split; [done|]. unfold play_dry. by rewrite Hst, Hdry.
Qed.

(** The check for aborted transactions passes when no entry is nested. *)
Lemma restart_check w cat objs logs entries final :
  restartable w cat objs logs entries final -> NoDup (key <$> objs) ->
  (forall e, e ∈ objs -> padded_but_last (entries e)) ->
  (forall e x, e ∈ objs -> x ∈ entries e -> is_nested (entry_tag x) = false /\ entry_tag x <> 0) ->
  (forall x, empty_top x <> u64 (x + 1)) ->
  emulateRecoveryAndFixRedoLogs (play_dry (start_states fresh cat (listing objs) ∅)) empty_top (opened_logs objs logs) = Ok tt.
Proof.
  intros Hrs Hnd Hpad Hplain Htop. set (view := list_to_map ((fun e => (key e, entries e)) <$> objs) : gmap string (list entry)).
  assert (Hin : forall o es, view !! o = Some es -> exists e, e ∈ objs /\ es = entries e).
  { intros o es Hes. apply elem_of_list_to_map_2, list_elem_of_fmap in Hes as (e & E & He). injection E as _ ->. eauto. }
  apply (emulate_plain _ empty_top _ view); [| |done| |].
  - intros o log Hlog. apply elem_of_list_to_map_2, list_elem_of_fmap in Hlog as (e & E & He). injection E as -> ->.
    apply list_elem_of_lookup in He as [i Hi]. destruct (rs_replays _ _ _ _ _ _ Hrs i e Hi) as (l & evs & Himg & Hok & _).
    exists (entries e). split; [|split; [exact Himg|]].
    + apply elem_of_list_to_map_1; [by rewrite <- list_fmap_compose|]. apply list_elem_of_fmap.
      exists e. split; [done|]. by eapply list_elem_of_lookup_2.
    + eapply aentries_plain; [|exact Hok|intros x Hx; apply (Hplain e); [by eapply list_elem_of_lookup_2|done]].
      exact (start_states_spec cat objs 0 ∅ Hnd (fun e _ => lookup_empty _) i e Hi).
  - unfold view, opened_logs. rewrite !dom_list_to_map_L, <- !list_fmap_compose. done.
  - intros o es Hes. destruct (Hin o es Hes) as (e & He & ->). by apply Hpad.
  - intros o es x Hes Hx. destruct (Hin o es Hes) as (e & He & ->). by apply (Hplain e).
Qed.


End Startup_proofs.

(** ** A concrete restart

    A vector with two calls, the second committed first, after a power
    failure. *)
Definition demo_entry : centry := CEntry demo_id 7 0.
Definition demo_restart : @world CacheMem.t :=
  World (<[log_path demo_entry := demo_image]> (files demo_world2)) ∅ ∅ (factory demo_world2) ∅.
Definition demo_fresh (cat : CacheMem.t) (entry : Z) : PersistentVector.t := PersistentVector.Vector [].
Definition demo_final (e : centry) : PersistentVector.t * Z := (PersistentVector.Vector [152; 88], 2).
Definition demo_restored (heap : gmap Z line) (ptr : Z) : pobject * PersistentVector.t := (demo_object, PersistentVector.Vector []).

Lemma demo_restartable :
  restartable demo_fresh demo_restart demo_cat_added [demo_entry] (fun _ => demo_image) (fun _ => demo_calls_entries) demo_final.
Proof.
  split.
  - reflexivity.
  - unfold demo_restart. cbn [files]. rewrite lookup_insert_ne; [reflexivity|by_eval].
  - apply demo_cat_readable.
  - split; by_eval.
  - done.
  - apply Forall_cons; split; [|apply Forall_nil; exact I]. split; [split; by eexists|]. split; [reflexivity|apply demo_id_bytes].
  - apply NoDup_singleton.
  - intros e He. apply list_elem_of_singleton in He as ->. split; [apply lookup_insert_eq|split; by_eval].
  - intros i e Hi. apply list_lookup_singleton_Some in Hi as [-> <-].
    destruct demo_image_facts as [Himg _]. pose proof (opened_image demo_image _ Himg) as Hop.
    exists [MkCommitRecord 152 1 1; MkCommitRecord 88 2 1], [EvPlay 1 152; EvPlay 1 88].
    split; [exact Hop|]. split; [|split; [apply Permutation_swap|split; [reflexivity|split; [by_eval|]]]].
    + destruct Hop as [_ _ Hf He]. apply entries_ok_logged; [exact He|apply demo_calls_logged| |by_eval|exact Hf].
      repeat (apply Forall_cons; split; [split; by_eval|]). apply Forall_nil; exact I.
    + by vm_compute.
Qed.

