(* ===== verification/Report.v ===== *)
(** * What the allocators report about themselves (ckpt_alloc.cpp)

    [print], [printState] and [printChunk] walk the buckets and the chunks of
    a free list.  A report is the list of values printed, in the order in
    which they are printed; the surrounding text is constant. *)

From stdpp Require Import base numbers list gmap.
From S2P Require Import Prelude Bitmap Heap GlobalAlloc FreeList GlobalAllocProofs FreeListTiling FreeListProofs FreeListDealloc ObjectAlloc ObjectAllocProofs.

(** ** Operations *)

Record bucket_line := BucketLine {
  bl_index : nat;
  bl_head : Z;
  bl_bytes : Z;
  bl_chunks : Z
}.

(** [while (chunk != NULL) { bytes += chunk->size; chunk = chunk->next; chunks++; }] *)
Fixpoint bucket_walk (fuel : nat) (m : mem) (chunk bytes n : Z) : res (Z * Z) :=
  match fuel with
  | O => NoFuel
  | S fuel =>
      if chunk =? 0 then Ok (bytes, n)
      else
        let* l := hget m chunk in
        bucket_walk fuel m (next l) (u64 (bytes + size l)) (u64 (n + 1))
  end.

(** The loop of [print] over the buckets from [i] on. *)
Fixpoint bucket_lines (m : mem) (i : nat) (heads : list Z) : res (list bucket_line) :=
  match heads with
  | [] => Ok []
  | h :: heads =>
      let* (bytes, n) := bucket_walk (list_fuel m) m h 0 0 in
      let* ls := bucket_lines m (S i) heads in
      Ok (BucketLine i h bytes n :: ls)
  end.

Record list_report := ListReport {
  lr_id : Z;
  lr_total_allocated : Z;
  lr_chain_lookups : Z;
  lr_global_allocs : Z;
  lr_buckets : list bucket_line
}.

(** [FreeList::print]: nothing for a list that never asked for a block. *)
Definition fl_print (m : mem) (fl : flist) (detailed : bool) : res (option list_report) :=
  if global_allocs fl =? 0 then Ok None
  else
    let* ls := if detailed then bucket_lines m 0 (take TOTAL_ALLOC_BUCKETS (buckets fl)) else Ok [] in
    Ok (Some (ListReport (my_id fl) (total_allocated fl) (chain_lookups fl) (global_allocs fl) ls)).

(** [FreeList::printState]: identifier, counters and the buckets that are
    not empty. *)
Fixpoint state_lines (m : mem) (i : nat) (heads : list Z) : res (list (nat * Z * Z)) :=
  match heads with
  | [] => Ok []
  | h :: heads =>
      if h =? 0 then state_lines m (S i) heads
      else
        let* (bytes, n) := bucket_walk (list_fuel m) m h 0 0 in
        let* ls := state_lines m (S i) heads in
        Ok ((i, bytes, n) :: ls)
  end.
Definition printState (m : mem) (fl : flist) : res (Z * Z * Z * list (nat * Z * Z)) :=
  let* ls := state_lines m 0 (take TOTAL_ALLOC_BUCKETS (buckets fl)) in
  Ok (my_id fl, total_allocated fl, global_allocs fl, ls).

(** [FreeList::printChunk]: the header of the chunk, then in-use mark, back
    offset in bytes and size of the chunk and of its two neighbours on either
    side; [None] where there is none. *)
Definition chunk_cell (m : mem) (chunk : Z) : res (option (bool * Z * Z)) :=
  if chunk =? 0 then Ok None
  else
    let* l := hget m chunk in
    Ok (Some (negb (used l =? 0), prev_offset l * 64, size l)).

Record chunk_report := ChunkReport {
  cr_prev_offset : Z;
  cr_free_list_id : Z;
  cr_last : Z;
  cr_used : Z;
  cr_size : Z;
  cr_layout : list (option (bool * Z * Z))
}.

Definition printChunk (m : mem) (c : Z) : res chunk_report :=
  let* l := hget m c in
  let* p := prevChunk m c in
  let* pp := if negb (p =? 0) then prevChunk m p else Ok 0 in
  let* n := nextChunk m c in
  let* nn := if negb (n =? 0) then nextChunk m n else Ok 0 in
  let* c1 := chunk_cell m pp in
  let* c2 := chunk_cell m p in
  let* c3 := chunk_cell m c in
  let* c4 := chunk_cell m n in
  let* c5 := chunk_cell m nn in
  Ok (ChunkReport (prev_offset l) (free_list_id l) (last l) (used l) (size l) [c1; c2; c3; c4; c5]).

(** [ObjectAlloc::print]: the reports of the lists [0] to [total_cores - 1]. *)
Fixpoint print_lists (m : mem) (fls : list flist) (detailed : bool) : res (list (option list_report)) :=
  match fls with
  | [] => Ok []
  | fl :: fls =>
      let* r := fl_print m fl detailed in
      let* rs := print_lists m fls detailed in
      Ok (r :: rs)
  end.
Definition oa_print (m : mem) (o : oalloc) (detailed : bool) : res (list (option list_report)) :=
  print_lists m (take (Z.to_nat (total_cores o)) (free_lists o)) detailed.

(** ** Free bytes *)

Definition free_map (C : chunks) : gmap Z Z := omap (fun su : Z * bool => if snd su then None else Some (fst su)) C.

Lemma free_map_lookup C c s : free_map C !! c = Some s <-> C !! c = Some (s, false).
Proof. unfold free_map. rewrite lookup_omap. destruct (C !! c) as [[t [|]]|]; simpl; naive_solver. Qed.

(** Every byte of the chunks is in use or free. *)
Lemma bytes_partition (C : chunks) : bytes_total (fst <$> C) = bytes_total (used_map C) + bytes_total (free_map C).
Proof.
  induction C as [|c [s u] C Hc IH] using map_ind.
  { rewrite fmap_empty. unfold used_map, free_map. by rewrite !omap_empty. }
  rewrite fmap_insert, bytes_insert by (rewrite lookup_fmap, Hc; done). cbn [fst]. rewrite IH.
  assert (Hu : used_map C !! c = None) by (unfold used_map; rewrite lookup_omap, Hc; done).
  assert (Hf : free_map C !! c = None) by (unfold free_map; rewrite lookup_omap, Hc; done).
  destruct u.
  - assert (E1 : used_map (<[c := (s, true)]> C) = <[c := s]> (used_map C)) by (by apply omap_insert_Some).
    assert (E2 : free_map (<[c := (s, true)]> C) = free_map C).
    { unfold free_map. rewrite omap_insert_None by done. by apply delete_id. }
    rewrite E1, E2, bytes_insert by done. lia.
  - assert (E1 : free_map (<[c := (s, false)]> C) = <[c := s]> (free_map C)) by (by apply omap_insert_Some).
    assert (E2 : used_map (<[c := (s, false)]> C) = used_map C).
    { unfold used_map. rewrite omap_insert_None by done. by apply delete_id. }
    rewrite E1, E2, bytes_insert by done. lia.
Qed.

(** The bytes of a list of chunks. *)
Definition bytes_of (m : mem) (l : list Z) : Z := foldr (fun a n => size (line_at m a) + n) 0 l.

Lemma bytes_of_app m l k : bytes_of m (l ++ k) = bytes_of m l + bytes_of m k.
Proof. induction l as [|a l IH]; [done|]. unfold bytes_of in *. cbn [app foldr]. rewrite IH. lia. Qed.

(** The sum does not depend on the order. *)
#[export] Instance bytes_of_proper m : Proper (Permutation ==> eq) (bytes_of m).
Proof. intros l k H. unfold bytes_of. induction H; cbn [foldr]; lia. Qed.

Lemma bytes_of_map m (l : list Z) : forall U : gmap Z Z,
  NoDup l -> (forall a, a ∈ l <-> is_Some (U !! a)) -> (forall a s, U !! a = Some s -> size (line_at m a) = s) ->
  bytes_of m l = bytes_total U.
Proof.
  induction l as [|a l IH]; intros U Hnd Hin Hs.
  - assert (U = ∅) as ->; [|done]. apply map_empty. intros i. destruct (U !! i) eqn:E; [|done].
    assert (Hi : i ∈ []) by (apply Hin; eauto). by apply elem_of_nil in Hi.
  - apply NoDup_cons in Hnd as [Ha Hnd]. destruct (proj1 (Hin a)) as [s Hsa]; [left|].
    rewrite (bytes_delete U a s Hsa). unfold bytes_of. cbn [foldr]. rewrite (Hs a s Hsa). f_equal. apply IH; [done|..].
    + intros b. destruct (decide (b = a)) as [->|Hne].
      * rewrite lookup_delete_eq. split; [done|by intros [? ?]].
      * rewrite lookup_delete_ne by done. rewrite <- Hin, elem_of_cons. naive_solver.
    + intros b t [_ Hb]%lookup_delete_Some. by apply Hs.
Qed.

Lemma bytes_of_nonneg m l : (forall a, a ∈ l -> 0 < size (line_at m a)) -> 0 <= bytes_of m l.
Proof.
  induction l as [|a l IH]; intros H; [done|]. unfold bytes_of in *. cbn [foldr].
  specialize (IH (fun b Hb => H b (list_elem_of_further _ _ _ Hb))). specialize (H a (list_elem_of_here _ _)). lia.
Qed.

(** ** The walk over a bucket *)

Lemma bucket_walk_spec fuel m h l1 l2 bytes n :
  dll m h (l1 ++ l2) -> (length l2 < fuel)%nat -> (forall a, a ∈ l2 -> 0 < size (line_at m a)) ->
  0 <= bytes -> 0 <= n -> bytes + bytes_of m l2 < 2 ^ 64 -> n + Z.of_nat (length l2) < 2 ^ 64 ->
  bucket_walk fuel m (list_head l2) bytes n = Ok (bytes + bytes_of m l2, n + Z.of_nat (length l2)).
Proof.
  revert l1 fuel bytes n. induction l2 as [|a l2 IH]; intros l1 fuel bytes n Hd Hf Hpos Hb Hn Hbb Hnn;
    (destruct fuel as [|fuel]; [simpl in Hf; lia|]); cbn [bucket_walk list_head].
  - rewrite Z.eqb_refl. unfold bytes_of. cbn. by rewrite !Z.add_0_r.
  - destruct (dll_split _ _ _ _ _ Hd) as (Hacc & Ha0 & _). rewrite (proj2 (Z.eqb_neq _ _) Ha0).
    rewrite hget_ok by done. cbn [res_bind]. rewrite (dll_next m h l1 a l2 Hd).
    assert (Hpa : 0 < size (line_at m a)) by (apply Hpos; left).
    assert (Hpl : forall b, b ∈ l2 -> 0 < size (line_at m b)) by (intros; apply Hpos; by right).
    pose proof (bytes_of_nonneg m l2 Hpl) as Hnn2.
    unfold bytes_of in Hbb. cbn [foldr length] in *. fold (bytes_of m l2) in Hbb.
    unfold u64. rewrite !Z.mod_small by lia.
    rewrite (IH (l1 ++ [a])); [|by rewrite <- app_assoc|lia|done|lia|lia|lia|lia].
    unfold bytes_of. cbn [foldr length]. f_equal. f_equal; lia.
Qed.

Section report.
Context (m : mem) (fl : flist) (C : chunks) (B : list (list Z)).
Hypothesis Hinv : fl_inv m fl C B.

Lemma free_bytes : bytes_of m (concat B) = bytes_total (free_map C).
Proof.
  destruct Hinv as [Ht Hbk Hlk _]. apply bytes_of_map; [apply Hbk|..].
  - intros a. rewrite Hlk. split; intros [s Hs]; exists s; by apply free_map_lookup.
  - intros a s Hs%free_map_lookup. apply (ti_chunk _ _ _ _ Ht _ _ _ Hs).
Qed.

Lemma all_bound : 0 <= bytes_total (fst <$> C) <= MaxMemorySize.
Proof.
  pose proof (fi_tiling _ _ _ _ Hinv) as Ht. pose proof (ho_max _ (ti_heap _ _ _ _ Ht)) as Hmax.
  assert (0 <= bytes_total (fst <$> C) <= (BaseAddress + MaxMemorySize) - BaseAddress); [|lia].
  eapply bytes_bound; [done|change MaxMemorySize with 1099511627776; lia|..].
  - intros c s Hc. rewrite lookup_fmap in Hc. apply fmap_Some in Hc as ([t u] & Hc & ->).
    destruct (ti_chunk _ _ _ _ Ht _ _ _ Hc) as [(_ & _ & ?) [? ?] ? _ _ _ _ _ _].
    pose proof (off_range c). cbn [fst]. lia.
  - intros c s d t Hc Hd. rewrite lookup_fmap in Hc, Hd. apply fmap_Some in Hc as ([t1 u1] & Hc & ->).
    apply fmap_Some in Hd as ([t2 u2] & Hd & ->). by eapply Ht.
Qed.

(** One bucket, as it is. *)
Lemma bucket_exact b h l :
  buckets fl !! b = Some h -> B !! b = Some l ->
  bucket_walk (list_fuel m) m h 0 0 = Ok (bytes_of m l, Z.of_nat (length l)).
Proof.
  intros Hh Hl. pose proof Hinv as [Ht [Hlen Hd Hnd Hs] Hlk _]. pose proof (Hd b h l Hh Hl) as Hdl.
  assert (Hpos : forall a, a ∈ l -> 0 < size (line_at m a)) by (intros a Ha; by apply (Hs b l)).
  assert (Hndl : NoDup l) by (rewrite (concat_split _ _ _ Hl) in Hnd; by apply NoDup_app in Hnd as (? & _)).
  rewrite (dll_head _ _ _ Hdl).
  assert (Hsum : 0 <= bytes_of m l <= MaxMemorySize).
  { pose proof all_bound as Hb. rewrite bytes_partition in Hb. pose proof (used_bound _ _ _ _ Ht).
    rewrite <- free_bytes in Hb. rewrite (concat_split _ _ _ Hl), bytes_of_app in Hb.
    assert (Hrest : forall a, a ∈ rest B b -> 0 < size (line_at m a)).
    { intros a Ha. assert (Ha' : a ∈ concat B) by (rewrite (concat_split _ _ _ Hl), elem_of_app; by right).
      apply elem_of_concat in Ha' as (k & Hk & HB). apply list_elem_of_lookup in HB as [j Hj]. by apply (Hs j k). }
    pose proof (bytes_of_nonneg m l Hpos). pose proof (bytes_of_nonneg _ _ Hrest). lia. }
  assert (Hlen2 : Z.of_nat (length l) <= bytes_of m l).
  { clear -Hpos. induction l as [|a l IH]; [done|]. unfold bytes_of in *. cbn [foldr length].
    specialize (IH (fun b Hb => Hpos b (list_elem_of_further _ _ _ Hb))). specialize (Hpos a (list_elem_of_here _ _)). lia. }
  change MaxMemorySize with 1099511627776 in *.
  rewrite (bucket_walk_spec _ m h [] l); [by rewrite !Z.add_0_l|done|by apply list_fuel_bound|done|lia..].
Qed.

Lemma bucket_lines_spec i heads ls :
  (forall j h l, heads !! j = Some h -> ls !! j = Some l ->
     buckets fl !! (i + j)%nat = Some h /\ B !! (i + j)%nat = Some l) ->
  length heads = length ls ->
  exists rs, bucket_lines m i heads = Ok rs /\ bl_bytes <$> rs = bytes_of m <$> ls /\
    bl_chunks <$> rs = (fun l => Z.of_nat (length l)) <$> ls /\ bl_head <$> rs = heads /\
    bl_index <$> rs = seq i (length heads).
Proof.
  revert i ls. induction heads as [|h heads IH]; intros i [|l ls] Hj Hlen; try done.
  { by exists []. }
  cbn [bucket_lines]. destruct (Hj 0%nat h l) as [Hh Hl]; [done|done|]. rewrite Nat.add_0_r in Hh, Hl.
  rewrite (bucket_exact i h l Hh Hl). cbn [res_bind].
  destruct (IH (S i) ls) as (rs & -> & E1 & E2 & E3 & E4).
  { intros j h' l' Hh' Hl'. replace (S i + j)%nat with (i + S j)%nat by lia. by apply Hj. }
  { by injection Hlen. }
  cbn [res_bind]. eexists. split; [done|]. cbn. by rewrite E1, E2, E3, E4.
Qed.

(** The detailed report of a free list in use: one line per bucket, with the
    number of its chunks and of their bytes. *)
Lemma print_exact :
  global_allocs fl <> 0 ->
  exists r, fl_print m fl true = Ok (Some r) /\ lr_id r = my_id fl /\ lr_total_allocated r = total_allocated fl /\
    bl_head <$> lr_buckets r = buckets fl /\ bl_index <$> lr_buckets r = seq 0 14 /\
    bl_bytes <$> lr_buckets r = bytes_of m <$> B /\
    bl_chunks <$> lr_buckets r = (fun l => Z.of_nat (length l)) <$> B.
Proof.
  intros Hg. destruct (bo_len _ _ _ (fi_buckets _ _ _ _ Hinv)) as [Hl1 Hl2].
  unfold fl_print. rewrite (proj2 (Z.eqb_neq _ _) Hg). unfold TOTAL_ALLOC_BUCKETS. rewrite take_ge by lia.
  destruct (bucket_lines_spec 0 (buckets fl) B) as (rs & -> & ? & ? & ? & ?); [by intros|lia|]. cbn [res_bind].
  eexists. split; [done|]. cbn. rewrite Hl1 in *. done.
Qed.

Lemma sum_concat (ls : list (list Z)) : foldr Z.add 0 (bytes_of m <$> ls) = bytes_of m (concat ls).
Proof. induction ls as [|l ls IH]; [done|]. cbn [fmap list_fmap foldr concat]. by rewrite IH, bytes_of_app. Qed.

(** The report accounts for every byte: what it says is allocated and what
    it counts in the buckets adds up to the chunks of the list. *)
Lemma print_accounts r :
  total_allocated fl = bytes_total (used_map C) -> fl_print m fl true = Ok (Some r) ->
  lr_total_allocated r + foldr Z.add 0 (bl_bytes <$> lr_buckets r) = bytes_total (fst <$> C).
Proof.
  intros Ht E. assert (Hg : global_allocs fl <> 0) by (intros E0; unfold fl_print in E; rewrite E0 in E; done).
  destruct (print_exact Hg) as (r' & E' & _ & Er & _ & _ & Eb & _). rewrite E in E'. apply Ok_inj in E' as [= <-].
  by rewrite Er, Eb, sum_concat, free_bytes, bytes_partition, Ht.
Qed.

(** [printState] shows the same numbers, without the empty buckets. *)
Lemma printState_exact : exists ls, printState m fl = Ok (my_id fl, total_allocated fl, global_allocs fl, ls) /\
  foldr Z.add 0 ((fun x => snd (fst x)) <$> ls) = bytes_total (free_map C).
Proof.
  destruct (bo_len _ _ _ (fi_buckets _ _ _ _ Hinv)) as [Hl1 Hl2].
  unfold printState, TOTAL_ALLOC_BUCKETS. rewrite take_ge by lia.
  assert (Hgen : forall heads ls i, length heads = length ls ->
    (forall j h l, heads !! j = Some h -> ls !! j = Some l -> buckets fl !! (i + j)%nat = Some h /\ B !! (i + j)%nat = Some l) ->
    exists rs, state_lines m i heads = Ok rs /\ foldr Z.add 0 ((fun x => snd (fst x)) <$> rs) = bytes_of m (concat ls)).
  { induction heads as [|h heads IH]; intros [|l ls] i Hlen Hj; try done; [by exists []|].
    destruct (Hj 0%nat h l) as [Hh Hl]; [done|done|]. rewrite Nat.add_0_r in Hh, Hl.
    destruct (IH ls (S i)) as (rs & E & Es); [by injection Hlen| |].
    { intros j h' l' Hh' Hl'. replace (S i + j)%nat with (i + S j)%nat by lia. by apply Hj. }
    cbn [state_lines concat]. rewrite bytes_of_app, <- Es. destruct (Z.eqb_spec h 0) as [->|Hne].
    - exists rs. split; [done|]. pose proof (bo_dll _ _ _ (fi_buckets _ _ _ _ Hinv) _ _ _ Hh Hl) as Hd.
      destruct l as [|a l]; [done|]. apply dll_head in Hd as Ha. cbn in Ha. subst a.
      by destruct (dll_split m 0 [] 0 l Hd) as (_ & ? & _).
    - rewrite (bucket_exact i h l Hh Hl). cbn [res_bind]. rewrite E. cbn [res_bind]. by eexists. }
  destruct (Hgen (buckets fl) B 0%nat) as (ls & -> & Es); [lia|by intros|]. exists ls. split; [done|].
  by rewrite Es, free_bytes.
Qed.

(** [printChunk] of any chunk of the list finds its neighbours. *)
Lemma printChunk_ok c s u :
  C !! c = Some (s, u) ->
  exists r, printChunk m c = Ok r /\ cr_size r = s /\ cr_used r = b2z u /\ cr_free_list_id r = my_id fl /\
    cr_layout r !! 2%nat = Some (Some (u, cr_prev_offset r * 64, s)).
Proof.
  intros Hc. pose proof (fi_tiling _ _ _ _ Hinv) as Ht.
  assert (Hcell : forall a t v, C !! a = Some (t, v) -> chunk_cell m a = Ok (Some (v, prev_offset (line_at m a) * 64, t))).
  { intros a t v Ha. unfold chunk_cell. pose proof (tiling_pos _ _ _ _ _ _ _ Ht Ha).
    rewrite (proj2 (Z.eqb_neq _ _)) by lia. rewrite hget_ok by (by eapply chunk_accessible). cbn [res_bind].
    destruct (ti_chunk _ _ _ _ Ht _ _ _ Ha) as [_ _ _ -> -> _ _ _ _]. by destruct v. }
  assert (Hcell0 : chunk_cell m 0 = Ok None) by done.
  assert (Hprev : forall a t v, C !! a = Some (t, v) -> exists p cl, prevChunk m a = Ok p /\ chunk_cell m p = Ok cl /\
    (p = 0 \/ exists t' v', C !! p = Some (t', v'))).
  { intros a t v Ha. destruct (prevChunk_spec _ _ _ _ _ _ Ht Ha) as (p & Ep & Hp).
    destruct Hp as [_|p t' v' Hp _ _]; eexists _, _; (split; [done|]); split; eauto. }
  assert (Hnext : forall a t v, C !! a = Some (t, v) -> exists p cl, nextChunk m a = Ok p /\ chunk_cell m p = Ok cl /\
    (p = 0 \/ exists t' v', C !! p = Some (t', v'))).
  { intros a t v Ha. destruct (nextChunk_spec _ _ _ _ _ _ _ Ht Ha) as (p & Ep & Hp).
    destruct Hp as [_|p t' v' Hp _ _]; eexists _, _; (split; [done|]); split; eauto. }
  assert (Hpp : forall p, (p = 0 \/ exists t' v', C !! p = Some (t', v')) ->
    exists q cl, (if negb (p =? 0) then prevChunk m p else Ok 0) = Ok q /\ chunk_cell m q = Ok cl).
  { intros p [->|(t & v & Hp)]; [by eexists _, _|]. destruct (Hprev _ _ _ Hp) as (q & cl & E & ? & _).
    pose proof (tiling_pos _ _ _ _ _ _ _ Ht Hp). rewrite (proj2 (Z.eqb_neq p 0)) by lia. by eexists _, _. }
  assert (Hnn : forall p, (p = 0 \/ exists t' v', C !! p = Some (t', v')) ->
    exists q cl, (if negb (p =? 0) then nextChunk m p else Ok 0) = Ok q /\ chunk_cell m q = Ok cl).
  { intros p [->|(t & v & Hp)]; [by eexists _, _|]. destruct (Hnext _ _ _ Hp) as (q & cl & E & ? & _).
    pose proof (tiling_pos _ _ _ _ _ _ _ Ht Hp). rewrite (proj2 (Z.eqb_neq p 0)) by lia. by eexists _, _. }
  destruct (Hprev _ _ _ Hc) as (p & clp & Ep & Eclp & Hp). destruct (Hnext _ _ _ Hc) as (n & cln & En & Ecln & Hn).
  destruct (Hpp p Hp) as (pp & clpp & Epp & Eclpp). destruct (Hnn n Hn) as (nn & clnn & Enn & Eclnn).
  unfold printChunk. rewrite hget_ok by (by eapply chunk_accessible). cbn [res_bind].
  rewrite Ep. cbn [res_bind]. rewrite Epp. cbn [res_bind]. rewrite En. cbn [res_bind]. rewrite Enn. cbn [res_bind].
  rewrite Eclpp, Eclp, (Hcell _ _ _ Hc), Ecln, Eclnn. cbn [res_bind]. eexists. split; [done|].
  destruct (ti_chunk _ _ _ _ Ht _ _ _ Hc) as [_ _ _ Es Eu Ei _ _ _]. cbn. by rewrite Es, Eu, Ei.
Qed.

End report.

(** The report of a whole object: whatever was allocated and freed before,
    printing never fails, and for every list that has blocks the printed
    totals add up to the chunks of the list. *)
Theorem report_accounts_for_heap g l o Cs :
  oa_inv g l o Cs ->
  exists rs, oa_print (ga_mem g) o true = Ok rs /\
    Forall2 (fun r C => forall x, r = Some x ->
      lr_total_allocated x + foldr Z.add 0 (bl_bytes <$> lr_buckets x) = bytes_total (fst <$> C)) rs Cs.
Proof.
  intros [_ _ (_ & Hc & HCs) Hl _ _]. unfold oa_print. rewrite take_ge by lia. clear Hc.
  assert (Hl' : Forall2 (fun fl C => exists i, list_ok (ga_mem g) l (ga_bitmap g) i fl C) (free_lists o) Cs).
  { apply Forall2_same_length_lookup_2; [done|]. eauto. }
  clear Hl HCs. induction Hl' as [|fl C fls Cs [i [[B Hinv] _ _ Htot _]] _ IH]; [by exists []|]. cbn [print_lists].
  assert (Hr : exists r, fl_print (ga_mem g) fl true = Ok r).
  { destruct (Z.eq_dec (global_allocs fl) 0) as [E|E]; [unfold fl_print; rewrite E; by eexists|].
    destruct (print_exact _ _ _ _ Hinv E) as (r & -> & _). by eexists. }
  destruct Hr as [r Er]. rewrite Er. destruct IH as (rs & -> & HF). cbn [res_bind]. eexists. split; [done|].
  constructor; [|done]. intros x ->. by eapply print_accounts.
Qed.

Lemma report_accounts_for_heap_witness :
  exists rs, oa_print (ga_mem demo_galloc) demo_object true = Ok rs.
Proof.
  destruct demo_inv as [l Hl]. destruct (report_accounts_for_heap _ _ _ _ Hl) as (rs & E & _). by exists rs.
Defined.
