(* ===== verification/Lifetime.v ===== *)
(** * Construction and destruction (stl_alloc.hpp, nv_object.cpp, nv_factory.hpp,
    ckpt_alloc.cpp, snapshot.cpp, context.cpp)

    The allocator that containers of the standard library use on top of
    [ObjectAlloc]; what [delete] does to a persistent object; the
    destructors of the allocators; opening and closing a snapshot file; and
    the start of [Savitar_main]. *)

From stdpp Require Import base numbers list gmap strings.
From S2P Require Import Prelude Pmem Savitar NvLog Recover Cores Catalog Manager Bitmap Heap GlobalAlloc GlobalAllocProofs FreeList FreeListTiling FreeListProofs FreeListDealloc ObjectAlloc ObjectAllocProofs Snapshot Tx Runtime Startup.

(** ** STLAlloc *)
Module STLAlloc.

(** The field [alloc]: the address of an object allocator, [None] for NULL.
    Copies and conversions from another element type copy the pointer. *)
Definition t : Type := option Z.
Definition default_constructor : t := None.
Definition constructor (a : Z) : t := Some a.
Definition convert (b : t) : t := b.

Section ops.
Variable mmap_at : Z -> Z -> bool.

(** The allocators of the process by address. *)
Definition heap : Type := galloc * gmap Z oalloc.

(** [allocate(n)] for elements of [sizeof_T] bytes, called by thread [self];
    [None] is [bad_alloc]. *)
Definition allocate (h : heap) (a : t) (self sizeof_T n : Z) : res (heap * option Z) :=
  match a with
  | None => AssertFail
  | Some p =>
      match snd h !! p with
      | None => Segfault
      | Some o =>
          let* (g, o, ptr) := oa_alloc mmap_at (fst h) o self (u64 (n * sizeof_T)) in
          let h := (g, <[p := o]> (snd h)) in
          if negb (ptr =? 0) then Ok (h, Some ptr) else Ok (h, None)
      end
  end.

Definition deallocate (h : heap) (a : t) (ptr : Z) : res heap :=
  match a with
  | None => AssertFail
  | Some p =>
      match snd h !! p with
      | None => Segfault
      | Some o => let* (g, o) := oa_dealloc (fst h) o ptr in Ok (g, <[p := o]> (snd h))
      end
  end.

End ops.

(** [operator ==] and [operator !=], for any two element types. *)
Definition eqb (a b : t) : bool := bool_decide (a = b).
Definition neqb (a b : t) : bool := negb (eqb a b).

(** What a container needs of its allocator: memory that one copy allocated
    can be returned through any copy that compares equal, and allocation
    returns memory or stops at the refused [mmap], it never throws. *)
Lemma equal_copies_interchange mmap_at g l tbl p o Cs self sizeof_T n C a b :
  (forall x s, mmap_at x s = true -> x + s <= BaseAddress + MaxMemorySize) ->
  a = constructor p -> eqb a (convert b) = true -> tbl !! p = Some o -> oa_inv g l o Cs ->
  let sz := chunk_size_of (n * sizeof_T) in
  0 <= n * sizeof_T <= BlockSize - 8 -> Cs !! Z.to_nat (getOffset o self) = Some C ->
  (forall c s, C !! c = Some (s, false) -> sz <= s -> cut_ok (ga_mem g) c s sz = true) ->
  (allocate mmap_at (g, tbl) a self sizeof_T n = AssertFail /\ mmap_at (heap_end (ga_mem g)) MinPoolSize = false) \/
  exists h ptr, allocate mmap_at (g, tbl) a self sizeof_T n = Ok (h, Some ptr) /\
    exists h', deallocate h b ptr = Ok h' /\ exists o' Cs', snd h' = <[p := o']> tbl /\ exists l', oa_inv (fst h') l' o' Cs'.
Proof.
  intros Hmm -> Heq Ho Hinv sz Hn HC Hcut. unfold eqb, convert, constructor in Heq. apply bool_decide_eq_true in Heq as <-.
  unfold allocate, deallocate, constructor. cbn [fst snd]. rewrite Ho.
  assert (Hu : u64 (n * sizeof_T) = n * sizeof_T).
  { unfold u64. apply Z.mod_small. change BlockSize with 2097152 in Hn. lia. }
  rewrite Hu. set (i := Z.to_nat (getOffset o self)) in *.
  destruct (oa_alloc_spec mmap_at Hmm g l o Cs self (n * sizeof_T) C Hinv Hn HC Hcut)
    as [[E Em]|(g' & l' & o' & C' & ptr & E & Hinv' & Hac & _)]; rewrite E; cbn [res_bind]; [by left|right].
  pose proof (ac_new _ _ _ _ Hac) as Hnew.
  assert (HC' : <[i := C']> Cs !! i = Some C') by (apply list_lookup_insert_eq; by eapply lookup_lt_Some).
  destruct (oi_cores _ _ _ _ Hinv') as (_ & _ & Elen).
  destruct (lookup_lt_is_Some_2 (free_lists o') i) as [fl Hfl]; [rewrite <- Elen; by eapply lookup_lt_Some|].
  destruct (oi_lists _ _ _ _ Hinv' i fl C' Hfl HC') as [[B Hfli] _ _ _ _].
  pose proof (tiling_pos _ _ _ _ _ _ _ (fi_tiling _ _ _ _ Hfli) Hnew) as Hpos.
  rewrite (proj2 (Z.eqb_neq ptr 0)) by lia. cbn [negb]. eexists _, _. split; [done|]. cbn [snd fst].
  rewrite lookup_insert_eq.
  destruct (oa_dealloc_spec g' l' o' _ i C' (ptr - 8) _ Hinv' HC' Hnew) as (g2 & o2 & C2 & E2 & Hinv2 & _).
  replace (ptr - 8 + 8) with ptr in E2 by lia. rewrite E2. cbn [res_bind]. eexists. split; [done|].
  exists o2. eexists. split; [cbn; by rewrite insert_insert_eq|]. by exists l'.
Qed.

(** The default copy, which compares equal to no other, must not be used. *)
Lemma default_copy_asserts mmap_at h self sizeof_T n : allocate mmap_at h default_constructor self sizeof_T n = AssertFail.
Proof. done. Qed.

(** The byte count is computed modulo 2^64: a request for 2^61 + 1 words is
    one for 8 bytes. *)
Lemma allocate_wraps mmap_at h a self : allocate mmap_at h a self 8 (2 ^ 61 + 1) = allocate mmap_at h a self 8 1.
Proof. done. Qed.

End STLAlloc.

(** ** The life of a persistent object *)
Section Life.
Context {P : Type} `{PmemOps P} `{Uuid}.

(** The manager's world and the logs that are mapped. *)
Record life := Life { lf_world : @world P; lf_mapped : gset string }.

Definition mapped_log (lf : life) (path : string) : res P :=
  if bool_decide (path ∈ lf_mapped lf) then
    match files (lf_world lf) !! path with Some log => Ok log | None => Segfault end
  else Segfault.

(** It reads the object's uuid from the log, for the message it prints. *)
Definition Savitar_log_close (lf : life) (path : string) : res life :=
  let* log := mapped_log lf path in
  Ok (Life (lf_world lf) (lf_mapped lf ∖ {[path]})).

Definition isRecovering (o : pobject) : bool := po_recovering o.
Definition isWaitingForSnapshot (lf : life) (o : pobject) : res bool :=
  match po_log o with
  | None => Segfault
  | Some path => let* log := mapped_log lf path in Ok (negb (get_field log off_snapshot_lock =? 0))
  end.

(** An object whose fields have their initial values. *)
Definition blank (vtable last : Z) : pobject := PObject (replicate 16 0) vtable false false None last None.

(** [PersistentObject(bool dummy)]; [tid] is what [uuid_generate] returns. *)
Definition PersistentObject_dummy (lf : life) (dummy : bool) (tid : list Z) (vtable last : Z) : res (life * pobject) :=
  if negb dummy then
    let* (w, o) := PersistentObject_constructor (lf_world lf) tid vtable last None in
    Ok (Life w (lf_mapped lf ∪ match po_log o with Some path => {[path]} | None => ∅ end), o)
  else Ok (lf, blank vtable last).

(** [~PersistentObject]; the object is the entry [key] of the manager's
    table, and stays there. *)
Definition PersistentObject_destructor (lf : life) (key : string) (o : pobject) : res life :=
  match po_log o with
  | None => Ok lf
  | Some path =>
      let* lf := Savitar_log_close lf path in
      let* w := destroy (lf_world lf) key in
      Ok (Life w (lf_mapped lf))
  end.

(** [operator delete]; no memory is freed. *)
Definition operator_delete (lf : life) (key : string) (o : pobject) : res life :=
  match po_log o with
  | None => Ok lf
  | Some _ =>
      let* w := destroy (lf_world lf) key in
      Ok (Life w (lf_mapped lf))
  end.

(** The expression [delete obj]. *)
Definition delete_object (lf : life) (key : string) (o : pobject) : res life :=
  let* lf := PersistentObject_destructor lf key o in
  operator_delete lf key o.

(** [registerFactory<T>]: the v-table pointer is read off a dummy object. *)
Definition registerFactory_of (lf : life) (classID : Z) (RecoveryFactory : string) (vtable last : Z) (tid : list Z)
    : res PersistentFactory.t :=
  let* (lf, t) := PersistentObject_dummy lf true tid vtable last in
  let vTable_ptr := po_vtable t in
  let* lf := delete_object lf EmptyString t in
  PersistentFactory.registerFactory (factory (lf_world lf)) classID RecoveryFactory vTable_ptr.

(** Registering a class leaves no trace of the dummy object. *)
Lemma register_dummy lf classID RF vtable last tid :
  registerFactory_of lf classID RF vtable last tid = PersistentFactory.registerFactory (factory (lf_world lf)) classID RF vtable.
Proof. done. Qed.

(** [Factory] with the mappings of the logs: creating or opening the log of a
    new object maps it; an object of the table is handed out as it is. *)
Definition Factory_mapped (lf : life) (type_id vtable : Z) (id : list Z) (last : Z) : res (life * pobject) :=
  let* (w, o) := Factory (lf_world lf) type_id vtable id last in
  let mapped := match objects (lf_world lf) !! uuid_unparse id, po_log o with
                | None, Some path => {[path]}
                | _, _ => ∅
                end in
  Ok (Life w (lf_mapped lf ∪ mapped), o).

(** An object constructed without an identifier gets a new one, for which
    there is no allocator: the constructor fails its assertion. *)
Lemma anonymous_object_fails lf tid vtable last :
  uuid_unparse tid ∉ Manager.allocators (lf_world lf) -> PersistentObject_dummy lf false tid vtable last = AssertFail.
Proof. intros Hn. unfold PersistentObject_dummy, PersistentObject_constructor. cbn [negb]. by rewrite bool_decide_false. Qed.

(** An object in use: it is in the table, assigned, and its log is mapped. *)
Record in_use (lf : life) (key : string) (o : pobject) (path : string) : Prop := {
  iu_object : objects (lf_world lf) !! key = Some o;
  iu_assigned : po_assigned o = true;
  iu_log : po_log o = Some path;
  iu_mapped : path ∈ lf_mapped lf;
  iu_file : is_Some (files (lf_world lf) !! path)
}.

(** The destructor releases the object: it can be claimed again and its log
    stays in persistent memory; but the log is not mapped again, so that the
    first call on the claimed object touches unmapped memory. *)
Lemma destructor_releases lf key o path :
  in_use lf key o path ->
  exists lf', PersistentObject_destructor lf key o = Ok lf' /\ files (lf_world lf') = files (lf_world lf) /\
    objects (lf_world lf') !! key = Some (set_assigned o false) /\ path ∉ lf_mapped lf' /\
    forall lf2 o2, lf_mapped lf2 = lf_mapped lf' -> po_log o2 = Some path -> isWaitingForSnapshot lf2 o2 = Segfault.
Proof.
  intros [Ho Ha El Hm [log Hf]]. unfold PersistentObject_destructor, Savitar_log_close, mapped_log, destroy. rewrite El.
  rewrite bool_decide_true by done. rewrite Hf. cbn [res_bind lf_world]. rewrite Ho, Ha. cbn [res_bind].
  eexists. split; [done|]. cbn. split; [done|]. split; [by rewrite lookup_insert_eq|]. split; [set_solver|].
  intros lf2 o2 Em El2. unfold isWaitingForSnapshot, mapped_log. rewrite El2, Em, bool_decide_false by set_solver. done.
Qed.

(** [delete] of an object in use releases it twice, and the second time
    fails the assertion. *)
Lemma delete_asserts lf key o path : in_use lf key o path -> delete_object lf key o = AssertFail.
Proof.
  intros Hu. destruct (destructor_releases _ _ _ _ Hu) as (lf' & E & _ & Ho' & _ & _).
  unfold delete_object. rewrite E. cbn [res_bind]. unfold operator_delete, destroy.
  rewrite (iu_log _ _ _ _ Hu), Ho'. done.
Qed.

End Life.

Section Ownership.
Context {P : Type} `{PmemLaws P} `{UuidLaws}.

(** [C21] Ownership of an object, from [Factory] to its destructor.  Once
    [Factory] has handed out an object whose log is mapped, asking for the
    same uuid again fails the assertion of [findRecovered], and [delete]
    fails the assertion of [NVManager::destroy].  After the destructor alone
    the same uuid can be claimed again: [Factory] then creates no file and no
    catalog entry and returns the object with the same log; but the log is no
    longer mapped, so that the first use of it is an invalid access. *)
Theorem object_ownership (lf lf1 : @life P) type_id vtable id last o path :
  Factory_mapped lf type_id vtable id last = Ok (lf1, o) ->
  po_log o = Some path -> path ∈ lf_mapped lf1 -> is_Some (files (lf_world lf1) !! path) ->
  exists o1, objects (lf_world lf1) !! uuid_unparse id = Some o1 /\
    (forall type_id' vtable' last', Factory_mapped lf1 type_id' vtable' id last' = AssertFail) /\
    delete_object lf1 (uuid_unparse id) o1 = AssertFail /\
    exists lf2, PersistentObject_destructor lf1 (uuid_unparse id) o1 = Ok lf2 /\
      forall type_id' vtable' last', exists lf3 o3,
        Factory_mapped lf2 type_id' vtable' id last' = Ok (lf3, o3) /\
        po_uuid o3 = po_uuid o /\ po_log o3 = Some path /\ files (lf_world lf3) = files (lf_world lf1) /\
        isWaitingForSnapshot lf3 o3 = Segfault.
Proof.
  intros Hf Hlog Hm Hfile. unfold Factory_mapped in Hf. apply res_bind_Ok in Hf as ([w1 o'] & Hf & E).
  apply Ok_inj in E. injection E as E1 <-.
  destruct (factory_claims _ _ _ _ _ _ _ Hf) as ((o1 & Ho1 & Ha & Hu & Hl) & Hagain).
  assert (Ew : lf_world lf1 = w1) by (by rewrite <- E1). rewrite <- Ew in Ho1, Hagain. rewrite Hlog in Hl.
  assert (Hiu : in_use lf1 (uuid_unparse id) o1 path) by done.
  exists o1. split; [done|]. split; [intros; unfold Factory_mapped; by rewrite Hagain|].
  split; [by eapply delete_asserts|].
  destruct (destructor_releases _ _ _ _ Hiu) as (lf2 & Ed & Efiles & Ho2 & Hnm & Hseg).
  exists lf2. split; [done|]. intros. unfold Factory_mapped.
  rewrite (factory_reclaims _ (uuid_unparse id) _ _ _ _ (set_assigned o1 false)) by done. cbn [res_bind].
  eexists _, _. split; [done|]. rewrite Ho2. cbn [lf_world]. split; [exact Hu|]. split; [exact Hl|]. split; [exact Efiles|].
  apply Hseg; [cbn; set_solver|exact Hl].
Qed.

End Ownership.

Definition demo_life : @life CacheMem.t := Life demo_world ∅.
Definition demo_path : string := String.append PMEM_PATH (String.append (HexUuid.unparse demo_id) ".log").
Definition demo_life1 : @life CacheMem.t := Life demo_world1 (∅ ∪ {[demo_path]}).

Lemma object_ownership_witness :
  exists o1, objects demo_world1 !! uuid_unparse demo_id = Some o1 /\
    delete_object demo_life1 (uuid_unparse demo_id) o1 = AssertFail.
Proof.
  destruct (object_ownership demo_life demo_life1 1 77 demo_id 0 Manager.demo_object demo_path) as (o1 & Ho & _ & Hd & _).
  - by vm_compute.
  - reflexivity.
  - cbn. set_solver.
  - exists (res_get demo_log (match files demo_world1 !! demo_path with Some l => Ok l | None => Segfault end)). by vm_compute.
  - by exists o1.
Defined.

(** ** Destructors of the allocators *)

(** Mappings of the process: [munmap] of a mapping made by [mmap]. *)
Definition munmap (maps : list (Z * Z)) (r : Z * Z) : list (Z * Z) := filter (fun r' => r' <> r) maps.

(** [~GlobalAlloc]: every region of the heap, then the region that holds the
    object allocators.  [instance] is set to NULL. *)
Definition MaxAllocatorMemorySize : Z := Z.shiftl 2 20.
Definition GlobalAlloc_destructor (maps : list (Z * Z)) (g : galloc) (t : atable) : list (Z * Z) * option galloc :=
  let maps := foldl munmap maps (mapped_regions (ga_mem g)) in
  (munmap maps (allocatorsMemory t, MaxAllocatorMemorySize), None).

(** [~ObjectAlloc]: the descriptors of the free lists; their blocks stay
    with the object. *)
Definition ObjectAlloc_destructor (o : oalloc) : oalloc := ObjectAlloc (oa_id o) (total_cores o) [].

Lemma munmap_all rs maps r : r ∈ foldl munmap maps rs <-> r ∈ maps /\ r ∉ rs.
Proof.
  revert maps. induction rs as [|r' rs IH]; intros maps; cbn [foldl].
  - split; [intros; split; [done|apply not_elem_of_nil]|by intros [? _]].
  - rewrite IH. unfold munmap. rewrite list_elem_of_filter, not_elem_of_cons. naive_solver.
Qed.

(** The destructor gives back exactly what the allocator had mapped. *)
Lemma destructor_unmaps maps g t r :
  r ∈ fst (GlobalAlloc_destructor maps g t) <->
  r ∈ maps /\ r ∉ mapped_regions (ga_mem g) /\ r <> (allocatorsMemory t, MaxAllocatorMemorySize).
Proof.
  unfold GlobalAlloc_destructor. cbn [fst]. unfold munmap at 1. rewrite list_elem_of_filter, munmap_all. naive_solver.
Qed.

(** ** Opening and closing a snapshot file *)

(** The fields of [Snapshot]: the descriptor, the bytes mapped at [view],
    and whether [context] is allocated. *)
Record snap_env := SnapEnv { se_fd : Z; se_view : option Z; se_context : bool }.
Definition snap_env_init : snap_env := SnapEnv 0 None false.

(** [loadSnapshot]: the header is mapped first, for the size of the file;
    [fd] is what [open] returns for an existing file. *)
Definition loadSnapshot (files : gmap (list Z) snapshot_file) (fd id : Z) (e : snap_env) : res (snap_env * snapshot_file) :=
  match files !! snapshot_path id with
  | None => AssertFail
  | Some f =>
      assert! 0 <? fd in
      let snapshotSize := h_size (f_header f) in
      Ok (SnapEnv fd (Some snapshotSize) (se_context e), f)
  end.

(** [cleanEnvironment] reads the size from the mapping it removes. *)
Definition cleanEnvironment (e : snap_env) : res snap_env :=
  match se_view e with None => Segfault | Some _ => Ok snap_env_init end.

(** [load] with its file: the environment it leaves is the initial one. *)
Definition load_file `{Uuid} (mmap_at : Z -> Z -> bool) (cores : Z) (files : gmap (list Z) snapshot_file) (fd id : Z)
    (e : snap_env) (t : atable) (l : loaded) : res (snap_env * (galloc * atable * loaded * gmap string Z)) :=
  let* (e, f) := loadSnapshot files fd id e in
  let* r := load mmap_at cores f t l in
  let* e := cleanEnvironment e in
  Ok (e, r).

Lemma load_file_clean `{Uuid} mmap_at cores files fd id e t l f r :
  files !! snapshot_path id = Some f -> 0 < fd -> load mmap_at cores f t l = Ok r ->
  load_file mmap_at cores files fd id e t l = Ok (snap_env_init, r).
Proof.
  intros Hf Hfd Hl. unfold load_file, loadSnapshot. rewrite Hf, (proj2 (Z.ltb_lt _ _)) by done.
  cbn [res_bind]. by rewrite Hl.
Qed.

(** ** The start of the program *)
Section Main.
Context {P : Type} `{PmemOps P} `{Uuid} {St : Type} `{PersistentClass St} `{NestedWait St}.
Variable mmap_at : Z -> Z -> bool.
Variable cores_found : Z.
Variable object_at : gmap Z line -> Z -> pobject * St.
Variable fresh : P -> Z -> St.
Variable empty_top : Z -> Z.
Variable order : list string -> list string.

(** [Savitar_main] up to the creation of the thread that runs the program's
    [main]: the processors, then recovery, then the signal handlers. *)
Definition Savitar_main_start (no_ht_pinning : bool) (core_info : list Z)
    (dir : list (list Z)) (snapshots : Z -> option snapshot_file) (t : atable) (w : @world P) (last main_thread cfg : Z)
    : res (runtime * (@world P * gmap string St) * gset Z) :=
  let* c := Savitar_core_init no_ht_pinning core_info in
  let* s := NVManager mmap_at cores_found object_at fresh empty_top order dir snapshots t w last in
  let handlers : gset Z := {[SIGSEGV; SIGUSR1]} in
  let (rt, _) := Savitar_thread_create (Runtime c ∅ []) main_thread cfg in
  Ok (rt, s, handlers).

(** The program starts with one logger thread, both handlers installed and
    the recovered objects; when [main] has returned, no snapshot runs and
    that logger has ended, [Savitar_main] returns what [main] returned. *)
Lemma main_returns_status no_ht core_info dir snapshots t w last thread cfg c s :
  Savitar_core_init no_ht core_info = Ok c -> cores_wf c -> Forall (fun v => v = 0) (core_tenants c) ->
  NVManager mmap_at cores_found object_at fresh empty_top order dir snapshots t w last = Ok s ->
  exists rt, Savitar_main_start no_ht core_info dir snapshots t w last thread cfg = Ok (rt, s, {[SIGSEGV; SIGUSR1]}) /\
    length (rt_loggers rt) = 1%nat /\ rt_threads rt !! thread = Some cfg /\
    exists rt', logger_exit rt 0 = Ok rt' /\
      forall p status, pr_instance p = false ->
        exists j, rtc (fin_step false) (rt', 0%nat) (rt', j) /\
          Savitar_main_end p (rt_cores rt') j status = Some (Process false (pr_snapshot_thread p) (Some status)).
Proof.
  intros Ec Hw Hzero Es. unfold Savitar_main_start. rewrite Ec. cbn [res_bind]. rewrite Es. cbn [res_bind].
  assert (Hl0 : Zlength (rt_loggers (Runtime c ∅ [])) < 65535) by done.
  pose proof (create_ok _ thread cfg (rt_ok_start c Hw Hzero) Hl0) as Hok.
  destruct (alloc_lookup c Hw) as (v & pair & _ & _ & _ & Ea).
  unfold Savitar_thread_create in Hok |- *. cbn [rt_cores] in Hok |- *. rewrite Ea in Hok |- *. cbn [fst] in Hok.
  eexists. split; [done|]. split; [done|]. split; [by apply lookup_insert_eq|].
  destruct (logger_exit_ok _ 0 (fst pair) Hok eq_refl) as (rt' & E & Hok'). exists rt'. split; [exact E|].
  intros p status Hp. unfold Savitar_main_end, anyActiveSnapshot. rewrite Hp. cbn [andb].
  destruct (finalize_free rt' 0 Hok') as (j & Hj & Ej); [|exists j; split; [exact Hj|rewrite Ej; by destruct p]].
  unfold logger_exit in E. cbn [rt_loggers app lookup list_lookup] in E. apply res_bind_Ok in E as (c' & _ & E).
  by apply Ok_inj in E as <-.
Qed.

End Main.
