(* ===== verification/NestedRecovery.v ===== *)
(** * Concurrent recovery of nested calls (nv_object.cpp, thread.cpp,
    recovery_context.hpp)

    Every object is recovered by a thread of its own.  A call that was made
    by a method of another object is not played by the thread of the object
    it was made on: that thread announces the call it has reached and waits,
    until the thread that plays the outer call has played it again.  This
    file models the threads with their accesses to the fields they share, one
    access a step where another thread can come in between.  NestedProofs
    proves that every object sees its calls one at a time and in commit
    order, and that no set of threads blocks. *)

From stdpp Require Import base numbers list gmap.
From S2P Require Import Prelude Pmem Savitar NvLog Recover.

(** ** Threads *)

(** The calls to the runtime that the method of a non-nested entry makes when
    it is played: entering and leaving methods of persistent objects. *)
Inductive action :=
| ANotify (object : Z)
| AWait (object : Z).

(** A committed entry of a log, in commit order: a call to play, or a nested
    call with its parent and the commit number of the parent's entry. *)
Inductive record :=
| Own (body : list action)
| Nested (parent expected_commit_id : Z).

(** The fields of a persistent object that recovery threads share. *)
Record robj := RObj {
  ro_last_played : Z;
  ro_recovering : bool;
  ro_wait_parent : option Z;
  ro_wait_commit_id : Z
}.

(** Where the recovery thread of an object is. *)
Inductive rpc :=
| RNext                                                   (* the loop over the records *)
| RRun (todo : list action)                               (* inside Play *)
| RSpin (parent : option Z) (object : Z) (todo : list action)  (* while (!me->isWaitingForParent(parent)) *)
| RTest (parent object : Z) (todo : list action)          (* between the two tests of isWaitingForParent *)
| RAnnounce (parent expected : Z)                         (* between the two writes of waitForParent *)
| RWait (parent expected : Z)                             (* while (parent->last_played_commit_id < ...) *)
| RAssert (parent expected : Z)                           (* assert(parent->isRecovering()) *)
| RDone.

(** Entering ([ev_start]) and leaving a method of [ev_obj], inside entry
    number [ev_id] of object [ev_root]. *)
Record revent := Ev { ev_start : bool; ev_root : Z; ev_id : Z; ev_obj : Z }.

(** Recovery threads are named by their object. *)
Record rsys := RSys {
  rs_objs : gmap Z robj;
  rs_pc : gmap Z rpc;
  rs_ctx : RecoveryContext.t;
  rs_trace : list revent
}.

(** Before recovery nothing is played and every object is recovering. *)
Definition get_obj (s : rsys) (o : Z) : robj := default (RObj 0 true None 0) (rs_objs s !! o).
Definition get_pc (s : rsys) (o : Z) : rpc := default RNext (rs_pc s !! o).
Definition rs_init : rsys := RSys ∅ ∅ RecoveryContext.init [].

Definition set_obj (s : rsys) (o : Z) (r : robj) : rsys := RSys (<[o := r]> (rs_objs s)) (rs_pc s) (rs_ctx s) (rs_trace s).
Definition set_pc (s : rsys) (o : Z) (p : rpc) : rsys := RSys (rs_objs s) (<[o := p]> (rs_pc s)) (rs_ctx s) (rs_trace s).
Definition set_ctx (s : rsys) (c : RecoveryContext.t) : rsys := RSys (rs_objs s) (rs_pc s) c (rs_trace s).
Definition emit (s : rsys) (e : revent) : rsys := RSys (rs_objs s) (rs_pc s) (rs_ctx s) (rs_trace s ++ [e]).

(** [waitForParent]: the object first names the parent, then the commit. *)
Definition waitForParent_object (r : robj) (parent : Z) : robj :=
  RObj (ro_last_played r) (ro_recovering r) (Some parent) (ro_wait_commit_id r).
Definition waitForParent_commit (r : robj) (expected : Z) : robj :=
  RObj (ro_last_played r) (ro_recovering r) (ro_wait_parent r) expected.

(** [isWaitingForParent]: the two tests, each on what it reads.  The commit
    number of the parent does not change between the two reads of the second
    test: the parent is the thread that tests or waits for it. *)
Definition isWaitingForParent_object (r : robj) (object : Z) : bool := bool_decide (ro_wait_parent r = Some object).
Definition isWaitingForParent_commit (r : robj) (object_last_played : Z) : bool :=
  u64 (object_last_played + 1) =? ro_wait_commit_id r.

Definition played (r : robj) : robj :=
  RObj (u64 (ro_last_played r + 1)) (ro_recovering r) (ro_wait_parent r) (ro_wait_commit_id r).
Definition recovered (r : robj) : robj :=
  RObj (ro_last_played r) false (ro_wait_parent r) (ro_wait_commit_id r).

(** The end of [Savitar_thread_notify] for a recovering object: the spinning
    is over, the object becomes the parent of further calls. *)
Definition enter (s : rsys) (self o : Z) (todo : list action) : res rsys :=
  let* ctx := RecoveryContext.pushParentObject (rs_ctx s) self o in
  let id := u64 (ro_last_played (get_obj s self) + 1) in
  Ok (set_pc (emit (set_ctx s ctx) (Ev true self id o)) self (RRun todo)).

(** One step of the thread that recovers [self].  An object that no longer
    recovers is logged to instead, through buffers that recovery threads do
    not have. *)
Definition recovery_step (recs : Z -> list record) (s : rsys) (self : Z) : res rsys :=
  let me := get_obj s self in
  match get_pc s self with
  | RNext =>
      match recs self !! Z.to_nat (ro_last_played me) with
      | None => Ok (set_pc (set_obj s self (recovered me)) self RDone)
      | Some (Own body) => Ok (set_pc s self (RRun body))
      | Some (Nested parent expected) => Ok (set_pc (set_obj s self (waitForParent_object me parent)) self (RAnnounce parent expected))
      end
  | RAnnounce p e => Ok (set_pc (set_obj s self (waitForParent_commit me e)) self (RWait p e))
  | RRun [] => Ok (set_pc (set_obj s self (played me)) self RNext)
  | RRun (ANotify o :: todo) =>
      if ro_recovering (get_obj s o) then
        let (ctx, parent) := RecoveryContext.popParentObject (rs_ctx s) self in
        Ok (set_pc (set_ctx s ctx) self (RSpin parent o todo))
      else Segfault
  | RSpin None o todo => enter s self o todo
  | RSpin (Some p) o todo =>
      if isWaitingForParent_object (get_obj s o) p then Ok (set_pc s self (RTest p o todo)) else Ok s
  | RTest p o todo =>
      if isWaitingForParent_commit (get_obj s o) (ro_last_played (get_obj s p)) then enter s self o todo
      else Ok (set_pc s self (RSpin (Some p) o todo))
  | RRun (AWait o :: todo) =>
      if ro_recovering (get_obj s o) then
        let (ctx, _) := RecoveryContext.popParentObject (rs_ctx s) self in
        let id := u64 (ro_last_played me + 1) in
        Ok (set_pc (emit (set_ctx s ctx) (Ev false self id o)) self (RRun todo))
      else Segfault
  | RWait p e =>
      if ro_last_played (get_obj s p) <? e then Ok (set_pc s self (RAssert p e))
      else Ok (set_pc (set_obj s self (played me)) self RNext)
  | RAssert p e => assert! ro_recovering (get_obj s p) in Ok (set_pc s self (RWait p e))
  | RDone => Ok s
  end.

Definition rstep (recs : Z -> list record) (s s' : rsys) : Prop :=
  exists self, recovery_step recs s self = Ok s'.
Definition recovering_from (recs : Z -> list record) (s : rsys) : Prop := rtc (rstep recs) rs_init s.

(** Executions by evaluation: a schedule of threads. *)
Fixpoint rplay (recs : Z -> list record) (sched : list Z) (s : rsys) : res rsys :=
  match sched with
  | [] => Ok s
  | self :: sched => let* s := recovery_step recs s self in rplay recs sched s
  end.

Lemma rplay_rtc recs sched s s' : rplay recs sched s = Ok s' -> rtc (rstep recs) s s'.
Proof.
  revert s. induction sched as [|x sched IH]; intros s E; cbn [rplay] in E; [apply Ok_inj in E as ->; constructor|].
  apply res_bind_Ok in E as (s1 & E1 & E). eapply rtc_l; [by exists x|by apply IH].
Qed.

(** ** Histories

    The calls that were committed before the crash, one after the other: a
    call is the list of objects whose methods it ran through, each called by
    the one before it. *)
Definition history : Type := list (list Z).

(** What playing a call does: enter every object, then leave them. *)
Definition body (c : list Z) : list action := (ANotify <$> c) ++ (AWait <$> reverse c).

(** Commits of [o] before call number [j]. *)
Definition commits (H : history) (j : nat) (o : Z) : nat := length (filter (fun c => o ∈ c) (take j H)).

(** The entry that call [j] leaves in the log of [o]. *)
Definition record_in (H : history) (j : nat) (o : Z) : option record :=
  c ← H !! j;
  match list_find (fun x => x = o) c with
  | None => None
  | Some (O, _) => Some (Own (body c))
  | Some (S i, _) => p ← c !! i; Some (Nested p (Z.of_nat (commits H (S j) p)))
  end.
Definition entries_of (H : history) (o : Z) : list record := omap (fun j => record_in H j o) (seq 0 (length H)).

(** What [o] sees of call [j], and of the whole history. *)
Definition call_events (H : history) (j : nat) (o : Z) : list revent :=
  match H !! j with
  | Some ((root :: _) as c) =>
      let id := Z.of_nat (commits H (S j) root) in
      if bool_decide (o ∈ c) then [Ev true root id o; Ev false root id o] else []
  | _ => []
  end.
Definition serial_events (H : history) (o : Z) : list revent :=
  concat ((fun j => call_events H j o) <$> seq 0 (length H)).

(** No method is entered again before it is left; commit numbers do not
    overflow. *)
Record history_ok (H : history) : Prop := {
  hy_calls : Forall (fun c => c <> [] /\ NoDup c) H;
  hy_bound : Zlength H < UINT64_MAX
}.

(** An object compares the parent and the commit number of a waiting child one
    after the other.  It cannot mistake an old announcement for its own if,
    before a later call that [p] makes on [o] inside its entry [e], no other
    object calls [o] inside an entry of its own with the same number. *)
Definition unambiguous (H : history) : Prop := forall o n0 n1 n2 p p' e0 e,
  (n0 < n2)%nat -> (n1 < n2)%nat -> entries_of H o !! n0 = Some (Nested p e0) ->
  entries_of H o !! n1 = Some (Nested p' e) -> entries_of H o !! n2 = Some (Nested p e) -> p' = p.

(** The events of one object. *)
Definition events_of (o : Z) (tr : list revent) : list revent := filter (fun e => ev_obj e = o) tr.

(** ** Progress *)

#[global] Instance action_eq_dec : EqDecision action.
Proof. solve_decision. Defined.
#[global] Instance rpc_eq_dec : EqDecision rpc.
Proof. solve_decision. Defined.

(** Recovery is over. *)
Definition all_recovered (H : history) (s : rsys) : Prop := Forall (fun c => Forall (fun o => get_pc s o = RDone) c) H.

(** What the thread of [x] has left to do; the turns of its waiting loop do
    not count. *)
Definition weight (r : record) : nat := match r with Own b => 2 * length b + 2 | Nested _ _ => 3 end.
Definition weights (l : list record) : nat := sum_list_with weight l.
Definition work_at (l : list record) (n : nat) (pc : rpc) : nat :=
  match pc with
  | RDone => 0
  | RNext => 1 + weights (drop n l)
  | RRun todo => 2 + 2 * length todo + weights (drop (S n) l)
  | RSpin _ _ todo | RTest _ _ todo => 3 + 2 * length todo + weights (drop (S n) l)
  | RAnnounce _ _ => 3 + weights (drop (S n) l)
  | RWait _ _ | RAssert _ _ => 2 + weights (drop (S n) l)
  end.
Definition work (recs : Z -> list record) (s : rsys) (x : Z) : nat :=
  work_at (recs x) (Z.to_nat (ro_last_played (get_obj s x))) (get_pc s x).

(** Thread [x], alone, gets something done in at most two steps. *)
Definition advances (recs : Z -> list record) (s : rsys) (x : Z) : Prop :=
  exists n s', (n <= 2)%nat /\ rplay recs (replicate n x) s = Ok s' /\ (work recs s' x < work recs s x)%nat.
