(* ===== verification/NestedProofs.v ===== *)
(** * Correctness of the concurrent recovery of nested calls

    For a history in which every call runs through a chain of objects: the
    events of an object are always a prefix of its events in the history, and
    as long as recovery is not finished some thread can make progress, if no
    announcement can be mistaken for another ([unambiguous]).  The invariant relates the position of the thread that plays a call to the
    threads of the objects the call has entered. *)

From stdpp Require Import base numbers list gmap.
From S2P Require Import Prelude Pmem Savitar NvLog Recover NestedRecovery.

(** ** Lists of events *)

Lemma seq_split j n : (j < n)%nat -> seq 0 n = seq 0 j ++ j :: seq (S j) (n - S j).
Proof. intros Hj. replace n with (j + S (n - S j))%nat at 1 by lia. by rewrite seq_app. Qed.

(** One more element at [j], where nothing follows. *)
Lemma concat_snoc {A} (f g : nat -> list A) n j e :
  (j < n)%nat -> (forall k, (k < n)%nat -> k <> j -> g k = f k) -> g j = f j ++ [e] ->
  (forall k, (j < k < n)%nat -> f k = []) ->
  concat (g <$> seq 0 n) = concat (f <$> seq 0 n) ++ [e].
Proof.
  intros Hj Hsame Hg Hnil. rewrite (seq_split j n) by done. rewrite !fmap_app, !concat_app, !fmap_cons. cbn [concat].
  assert (E1 : g <$> seq 0 j = f <$> seq 0 j).
  { apply list_fmap_ext. intros i k [-> Hk]%lookup_seq. apply Hsame; lia. }
  assert (Ef : concat (f <$> seq (S j) (n - S j)) = []).
  { apply concat_nil_Forall, Forall_fmap, Forall_forall. intros k Hk. apply elem_of_seq in Hk. apply Hnil. lia. }
  assert (E2 : g <$> seq (S j) (n - S j) = f <$> seq (S j) (n - S j)).
  { apply list_fmap_ext. intros i k [-> Hk]%lookup_seq. apply Hsame; lia. }
  rewrite E1, E2, Ef, Hg, !app_nil_r. by rewrite app_assoc.
Qed.

(** Prefixes of every part, each complete if anything follows. *)
Lemma concat_prefix {A} (f g : nat -> list A) i n :
  (forall k, (i <= k < i + n)%nat -> f k `prefix_of` g k) ->
  (forall k k', (i <= k < k')%nat -> (k' < i + n)%nat -> f k' <> [] -> f k = g k) ->
  concat (f <$> seq i n) `prefix_of` concat (g <$> seq i n).
Proof.
  revert i. induction n as [|n IH]; intros i Hp Hfull; [done|]. cbn [seq fmap list_fmap concat].
  destruct (decide (Forall (fun k => f k = []) (seq (S i) n))) as [Hnil|Hnot].
  - assert (E : concat (f <$> seq (S i) n) = []) by (by apply concat_nil_Forall, Forall_fmap). rewrite E, app_nil_r.
    destruct (Hp i ltac:(lia)) as [l ->]. rewrite <- app_assoc. by apply prefix_app_r.
  - apply not_Forall_Exists in Hnot; [|apply _]. apply Exists_exists in Hnot as (k & Hk & Hne). apply elem_of_seq in Hk.
    rewrite (Hfull i k) by (lia || done). apply prefix_app. apply IH; [intros; apply Hp; lia|].
    intros k1 k2 Hk1 Hk2. apply Hfull; lia.
Qed.

(** ** Accesses to the state *)

Lemma get_pc_set s x p : get_pc (set_pc s x p) x = p.
Proof. unfold get_pc, set_pc. cbn. by rewrite lookup_insert_eq. Qed.

Lemma get_obj_set s x r p : get_obj (set_pc (set_obj s x r) x p) x = r.
Proof. unfold get_obj, set_pc, set_obj. cbn. by rewrite lookup_insert_eq. Qed.

Lemma pop_spec c x :
  let r := RecoveryContext.popParentObject c x in
  snd r = RecoveryContext.parentObjects c !! x /\ RecoveryContext.parentObjects (fst r) !! x = None /\
  forall y, y <> x -> RecoveryContext.parentObjects (fst r) !! y = RecoveryContext.parentObjects c !! y.
Proof.
  unfold RecoveryContext.popParentObject. destruct (RecoveryContext.parentObjects c !! x) eqn:E; cbn; [|done].
  split; [done|]. split; [by rewrite lookup_delete_eq|]. intros y Hy. by rewrite lookup_delete_ne.
Qed.

Lemma push_spec c x o :
  RecoveryContext.parentObjects c !! x = None ->
  exists c', RecoveryContext.pushParentObject c x o = Ok c' /\ RecoveryContext.parentObjects c' !! x = Some o /\
    forall y, y <> x -> RecoveryContext.parentObjects c' !! y = RecoveryContext.parentObjects c !! y.
Proof.
  intros E. unfold RecoveryContext.pushParentObject. rewrite bool_decide_true by done. eexists. split; [done|]. cbn.
  split; [by rewrite lookup_insert_eq|]. intros y Hy. by rewrite lookup_insert_ne.
Qed.

(** ** Histories and their logs *)

Section history.
Context (H : history) (Hok : history_ok H) (Hun : unambiguous H).

Lemma call_ok j c : H !! j = Some c -> c <> [] /\ NoDup c.
Proof. intros Hj. exact (Forall_lookup_1 _ _ _ _ (hy_calls _ Hok) Hj). Qed.

Lemma commits_S j c o : H !! j = Some c -> commits H (S j) o = (commits H j o + (if decide (o ∈ c) then 1 else 0))%nat.
Proof.
  intros Hj. unfold commits. rewrite (take_S_r _ _ _ Hj), filter_app, length_app. f_equal.
  rewrite filter_cons. case_decide; by rewrite filter_nil.
Qed.

Lemma commits_in j c o : H !! j = Some c -> o ∈ c -> commits H (S j) o = S (commits H j o).
Proof. intros Hj Ho. rewrite (commits_S _ _ _ Hj), decide_True by done. lia. Qed.

Lemma commits_mono j j' o : (j <= j')%nat -> (commits H j o <= commits H j' o)%nat.
Proof.
  intros Hle. unfold commits. replace j' with (j + (j' - j))%nat by lia.
  rewrite <- (take_drop j (take (j + (j' - j)) H)), filter_app, length_app, take_take, Nat.min_l by lia. lia.
Qed.

Lemma commits_lt j j' c o : H !! j = Some c -> o ∈ c -> (j < j')%nat -> (commits H j o < commits H j' o)%nat.
Proof. intros Hj Ho Hlt. pose proof (commits_mono (S j) j' o ltac:(lia)). rewrite (commits_in _ _ _ Hj Ho) in *. lia. Qed.

(** A commit number of an object determines the call. *)
Lemma commits_inj j j' c c' o :
  H !! j = Some c -> o ∈ c -> H !! j' = Some c' -> o ∈ c' -> commits H j o = commits H j' o -> j = j' /\ c = c'.
Proof.
  intros Hj Ho Hj' Ho' E. assert (j = j') as <-; [|by simplify_eq].
  destruct (Nat.lt_trichotomy j j') as [Hlt|[?|Hlt]]; [|done|].
  - pose proof (commits_lt _ _ _ _ Hj Ho Hlt). lia.
  - pose proof (commits_lt _ _ _ _ Hj' Ho' Hlt). lia.
Qed.

Lemma commits_le j o : (commits H j o <= length H)%nat.
Proof. unfold commits. etransitivity; [apply length_filter|]. rewrite length_take. lia. Qed.

(** The two kinds of entries of a call. *)
Lemma find_position (c : list Z) i o : NoDup c -> c !! i = Some o -> list_find (fun x => x = o) c = Some (i, o).
Proof.
  intros Hnd Hi. apply list_find_Some. split; [done|]. split; [done|]. intros i2 x Hi2 Hlt ->.
  pose proof (NoDup_lookup _ _ _ _ Hnd Hi Hi2). lia.
Qed.

Lemma record_root j c o : H !! j = Some c -> c !! O = Some o -> record_in H j o = Some (Own (body c)).
Proof.
  intros Hj Ho. unfold record_in. rewrite Hj. cbn [mbind option_bind].
  by rewrite (find_position c 0 o) by (apply (call_ok _ _ Hj) || done).
Qed.

Lemma record_nested j c i p o :
  H !! j = Some c -> c !! i = Some p -> c !! S i = Some o ->
  record_in H j o = Some (Nested p (Z.of_nat (commits H (S j) p))).
Proof.
  intros Hj Hp Ho. unfold record_in. rewrite Hj. cbn [mbind option_bind].
  rewrite (find_position c (S i) o) by (apply (call_ok _ _ Hj) || done). by rewrite Hp.
Qed.

Lemma record_none j c o : H !! j = Some c -> o ∉ c -> record_in H j o = None.
Proof.
  intros Hj Ho. unfold record_in. rewrite Hj. cbn [mbind option_bind].
  destruct (list_find _ _) as [[i x]|] eqn:E; [|done]. apply list_find_Some in E as (Hi & -> & _).
  by apply list_elem_of_lookup_2 in Hi.
Qed.

Lemma record_some j c o : H !! j = Some c -> o ∈ c -> is_Some (record_in H j o).
Proof.
  intros Hj [i Hi]%list_elem_of_lookup. destruct i as [|i]; [rewrite (record_root _ _ _ Hj Hi); eauto|].
  destruct (lookup_lt_is_Some_2 c i) as [p Hp]; [apply lookup_lt_Some in Hi; lia|].
  rewrite (record_nested _ _ _ _ _ Hj Hp Hi). eauto.
Qed.

(** The log of an object up to call [k]. *)
Lemma log_prefix o k :
  (k <= length H)%nat -> let l := omap (fun j => record_in H j o) (seq 0 k) in
  length l = commits H k o /\
  (forall j c r, (j < k)%nat -> H !! j = Some c -> record_in H j o = Some r -> l !! commits H j o = Some r) /\
  (forall n r, l !! n = Some r -> exists j c, (j < k)%nat /\ H !! j = Some c /\ o ∈ c /\ commits H j o = n /\ record_in H j o = Some r).
Proof.
  induction k as [|k IH]; intros Hk l.
  { split; [done|]. split; [lia|done]. }
  destruct (IH ltac:(lia)) as (Hlen & Hin & Hout). destruct (lookup_lt_is_Some_2 H k) as [c Hc]; [lia|].
  unfold l. rewrite seq_S, omap_app. cbn [omap list_omap Nat.add]. set (l0 := omap _ (seq 0 k)) in *.
  destruct (decide (o ∈ c)) as [Ho|Ho].
  - destruct (record_some _ _ _ Hc Ho) as [r Hr]. rewrite Hr. split; [rewrite length_app, (commits_in _ _ _ Hc Ho); cbn; lia|]. split.
    + intros j c' r' Hj Hj' Hr'. destruct (decide (j = k)) as [->|Hne].
      * rewrite Hr in Hr'. injection Hr' as <-. rewrite <- Hlen. by apply list_lookup_middle.
      * apply lookup_app_l_Some. apply (Hin j c'); [lia|done|done].
    + intros n r' Hn. apply lookup_app_Some in Hn as [Hn|[Hge Hn]].
      * destruct (Hout _ _ Hn) as (j & c' & ? & ?). exists j, c'. split; [lia|done].
      * apply list_lookup_singleton_Some in Hn as [Hn <-]. exists k, c. repeat split; try done; lia.
  - rewrite (record_none _ _ _ Hc Ho), app_nil_r. split; [rewrite (commits_S _ _ _ Hc), decide_False by done; lia|]. split.
    + intros j c' r' Hj Hj' Hr'. destruct (decide (j = k)) as [->|Hne]; [by rewrite (record_none _ _ _ Hc Ho) in Hr'|].
      apply (Hin j c'); [lia|done|done].
    + intros n r' Hn. destruct (Hout _ _ Hn) as (j & c' & ? & ?). exists j, c'. split; [lia|done].
Qed.

Lemma entries_length o : length (entries_of H o) = commits H (length H) o.
Proof. by destruct (log_prefix o (length H)) as (? & _). Qed.

Lemma entries_lookup o j c r : H !! j = Some c -> record_in H j o = Some r -> entries_of H o !! commits H j o = Some r.
Proof.
  intros Hj Hr. destruct (log_prefix o (length H)) as (_ & Hin & _); [done|].
  apply (Hin j c); [by eapply lookup_lt_Some|done|done].
Qed.

Lemma entries_inv o n r :
  entries_of H o !! n = Some r -> exists j c, H !! j = Some c /\ o ∈ c /\ commits H j o = n /\ record_in H j o = Some r.
Proof.
  intros Hn. destruct (log_prefix o (length H)) as (_ & _ & Hout); [done|].
  destruct (Hout _ _ Hn) as (j & c & _ & ?). eauto.
Qed.

(** The entry before which [o] stands, by kind. *)
Lemma entry_own o n b : entries_of H o !! n = Some (Own b) -> exists j c, H !! j = Some c /\ c !! O = Some o /\ commits H j o = n /\ b = body c.
Proof.
  intros (j & c & Hj & [i Hi]%list_elem_of_lookup & Hn & Hr)%entries_inv. exists j, c. destruct i as [|i].
  - rewrite (record_root _ _ _ Hj Hi) in Hr. by injection Hr as <-.
  - destruct (lookup_lt_is_Some_2 c i) as [p Hp]; [apply lookup_lt_Some in Hi; lia|].
    by rewrite (record_nested _ _ _ _ _ Hj Hp Hi) in Hr.
Qed.

Lemma entry_nested o n p e :
  entries_of H o !! n = Some (Nested p e) ->
  exists j c i, H !! j = Some c /\ c !! i = Some p /\ c !! S i = Some o /\ commits H j o = n /\ e = Z.of_nat (commits H (S j) p).
Proof.
  intros (j & c & Hj & [i Hi]%list_elem_of_lookup & Hn & Hr)%entries_inv. destruct i as [|i].
  - by rewrite (record_root _ _ _ Hj Hi) in Hr.
  - destruct (lookup_lt_is_Some_2 c i) as [q Hq]; [apply lookup_lt_Some in Hi; lia|].
    rewrite (record_nested _ _ _ _ _ Hj Hq Hi) in Hr. injection Hr as <- <-. by exists j, c, i.
Qed.

(** ** The body of a call *)

Lemma length_body c : length (body c) = (2 * length c)%nat.
Proof. unfold body. rewrite length_app, !length_fmap, length_reverse. lia. Qed.

Lemma body_notify c k o : body c !! k = Some (ANotify o) <-> c !! k = Some o.
Proof.
  unfold body. rewrite lookup_app, list_lookup_fmap. split.
  - destruct (c !! k) eqn:E; cbn [fmap option_fmap option_map]; [by intros [= ->]|].
    rewrite list_lookup_fmap. by intros (x & _ & ?)%fmap_Some.
  - by intros ->.
Qed.

Lemma body_wait c k o : body c !! k = Some (AWait o) -> exists i, c !! i = Some o /\ (k = 2 * length c - 1 - i)%nat.
Proof.
  unfold body. rewrite lookup_app, list_lookup_fmap. destruct (c !! k) eqn:E; cbn [fmap option_fmap option_map]; [done|].
  apply lookup_ge_None in E. rewrite list_lookup_fmap, length_fmap. intros (x & Hx & [= ->])%fmap_Some.
  pose proof (lookup_lt_Some _ _ _ Hx) as Hlt. rewrite length_reverse in Hlt.
  rewrite reverse_lookup in Hx by done. eexists. split; [exact Hx|lia].
Qed.

(** ** The invariant *)

Definition last_of (s : rsys) (o : Z) : Z := ro_last_played (get_obj s o).
Definition L (s : rsys) (o : Z) : nat := Z.to_nat (last_of s o).
Definition slot (s : rsys) (x : Z) : option Z := RecoveryContext.parentObjects (rs_ctx s) !! x.

(** The thread of [o] waits for entry [e] of [p], or is about to. *)
Definition waiting (s : rsys) (o p e : Z) : Prop :=
  get_pc s o = RAnnounce p e \/ get_pc s o = RWait p e \/ get_pc s o = RAssert p e.

(** The first [k] objects of call [j] are entered: their threads wait for
    their callers. *)
Definition entered (s : rsys) (j : nat) (c : list Z) (k : nat) : Prop :=
  forall i p o, c !! i = Some p -> c !! S i = Some o -> (S i < k)%nat ->
    waiting s o p (Z.of_nat (commits H (S j) p)) /\ commits H j o = L s o.

(** The thread of [x] plays call [j] and has done [k] actions of its body. *)
Definition plays (s : rsys) (x : Z) (j : nat) (c : list Z) (k : nat) : Prop :=
  H !! j = Some c /\ c !! O = Some x /\ commits H j x = L s x /\ (k <= 2 * length c)%nat /\ entered s j c k.

(** The parent that the recovery context holds after [k] actions. *)
Definition slot_at (c : list Z) (k : nat) : option Z :=
  match k with O => None | S k' => if (k <=? length c)%nat then c !! k' else None end.

(** [o] has announced that it waits for [p]: at an entry that it has played
    since, or at the one where it still waits. *)
Definition announced (s : rsys) (o p : Z) : Prop :=
  exists n e, (n <= L s o)%nat /\ entries_of H o !! n = Some (Nested p e) /\ (n = L s o -> waiting s o p e).

(** Commit number [e] was announced by [o]. *)
Definition numbered (s : rsys) (o e : Z) : Prop :=
  exists n p, (n <= L s o)%nat /\ entries_of H o !! n = Some (Nested p e) /\ (n = L s o -> waiting s o p e).

Definition pc_ok (s : rsys) (x : Z) : Prop :=
  match get_pc s x with
  | RNext => slot s x = None
  | RDone => slot s x = None /\ entries_of H x !! L s x = None
  | RRun todo => exists j c k, plays s x j c k /\ todo = drop k (body c) /\ slot s x = slot_at c k
  | RSpin parent o todo => exists j c k, plays s x j c k /\ c !! k = Some o /\ todo = drop (S k) (body c) /\
                             parent = slot_at c k /\ slot s x = None
  | RTest p o todo => exists j c k, plays s x j c k /\ c !! k = Some o /\ todo = drop (S k) (body c) /\
                        Some p = slot_at c k /\ slot s x = None /\ announced s o p
  | RAnnounce p e =>
      slot s x = None /\ entries_of H x !! L s x = Some (Nested p e) /\ ro_wait_parent (get_obj s x) = Some p
  | RWait p e | RAssert p e =>
      slot s x = None /\ entries_of H x !! L s x = Some (Nested p e) /\
      ro_wait_parent (get_obj s x) = Some p /\ ro_wait_commit_id (get_obj s x) = e
  end.

(** How many actions of call [j] are done. *)
Definition position (pc : rpc) (len : nat) : nat :=
  match pc with
  | RRun todo => 2 * len - length todo
  | RSpin _ _ todo | RTest _ _ todo => 2 * len - S (length todo)
  | _ => 0
  end.
Definition consumed (s : rsys) (j : nat) : nat :=
  match H !! j with
  | Some ((x :: _) as c) =>
      if (commits H j x <? L s x)%nat then 2 * length c
      else if (commits H j x =? L s x)%nat then position (get_pc s x) (length c) else 0
  | _ => 0
  end.

(** The events of call [j] at object [o] so far, and of all calls. *)
Definition done_events (s : rsys) (j : nat) (o : Z) : list revent :=
  match H !! j with
  | Some ((root :: _) as c) =>
      let id := Z.of_nat (commits H (S j) root) in
      match list_find (fun x => x = o) c with
      | None => []
      | Some (i, _) =>
          (if (i <? consumed s j)%nat then [Ev true root id o] else []) ++
          (if (2 * length c - i <=? consumed s j)%nat then [Ev false root id o] else [])
      end
  | _ => []
  end.
Definition all_events (s : rsys) (o : Z) : list revent := concat ((fun j => done_events s j o) <$> seq 0 (length H)).

Record rinv (s : rsys) : Prop := {
  ri_last : forall o, 0 <= last_of s o <= Z.of_nat (length H);
  ri_down : forall j c i p o, H !! j = Some c -> c !! i = Some p -> c !! S i = Some o ->
              (commits H j o < L s o)%nat -> (commits H j p < L s p)%nat;
  ri_pc : forall x, pc_ok s x;
  ri_recovering : forall x, ro_recovering (get_obj s x) = match get_pc s x with RDone => false | _ => true end;
  ri_parent : forall o p, ro_wait_parent (get_obj s o) = Some p -> announced s o p;
  ri_commit : forall o, ro_wait_commit_id (get_obj s o) = 0 \/ numbered s o (ro_wait_commit_id (get_obj s o));
  ri_enter : forall j c i o, H !! j = Some c -> c !! i = Some o -> (i < consumed s j)%nat -> (commits H j o <= L s o)%nat;
  ri_trace : forall o, events_of o (rs_trace s) = all_events s o
}.

(** ** Consequences *)

(** As long as the outer-most call is not played, no entry of the call is. *)
Lemma not_played s j c x i o :
  rinv s -> H !! j = Some c -> c !! O = Some x -> (L s x <= commits H j x)%nat -> c !! i = Some o ->
  (L s o <= commits H j o)%nat.
Proof.
  intros Hi Hj Hx Hle. revert o. induction i as [|i IH]; intros o Ho; [by simplify_eq|].
  destruct (lookup_lt_is_Some_2 c i) as [p Hp]; [apply lookup_lt_Some in Ho; lia|].
  specialize (IH p Hp). destruct (Nat.le_gt_cases (L s o) (commits H j o)) as [?|Hgt]; [done|].
  pose proof (ri_down _ Hi _ _ _ _ _ Hj Hp Ho Hgt). lia.
Qed.

Lemma not_done s j c x i o :
  rinv s -> H !! j = Some c -> c !! O = Some x -> (L s x <= commits H j x)%nat -> c !! i = Some o ->
  ro_recovering (get_obj s o) = true.
Proof.
  intros Hi Hj Hx Hle Ho. pose proof (not_played _ _ _ _ _ _ Hi Hj Hx Hle Ho) as Hlo.
  rewrite (ri_recovering _ Hi). pose proof (ri_pc _ Hi o) as Hpc. unfold pc_ok in Hpc.
  destruct (get_pc s o); try done. destruct Hpc as [_ Hn]. exfalso.
  destruct (record_some _ _ o Hj) as [r Hr]; [by eapply list_elem_of_lookup_2|].
  pose proof (entries_lookup _ _ _ _ Hj Hr) as Hl. apply lookup_lt_Some in Hl. apply lookup_ge_None in Hn. lia.
Qed.

(** Once call [j'] has entered [o], all earlier calls of [o] are played. *)
Lemma earlier_played s j j' c c' x o i :
  rinv s -> (j < j')%nat -> H !! j = Some c -> c !! O = Some x -> o ∈ c -> H !! j' = Some c' -> c' !! i = Some o ->
  (i < consumed s j')%nat -> (commits H j x < L s x)%nat.
Proof.
  intros Hi Hlt Hj Hx Ho Hj' Ho' Hc. pose proof (ri_enter _ Hi _ _ _ _ Hj' Ho' Hc) as Hle.
  pose proof (commits_lt _ _ _ _ Hj Ho Hlt) as Hcl. apply list_elem_of_lookup in Ho as [k Hk].
  destruct (Nat.le_gt_cases (L s x) (commits H j x)) as [Hx'|?]; [|lia].
  pose proof (not_played _ _ _ _ _ _ Hi Hj Hx Hx' Hk). lia.
Qed.

(** ** Steps *)

(** A step of thread [x] leaves the fields, the program counter and the slot
    of all others. *)
Definition only (s s' : rsys) (x : Z) : Prop :=
  forall y, y <> x -> get_obj s' y = get_obj s y /\ get_pc s' y = get_pc s y /\ slot s' y = slot s y.

Lemma only_last s s' x y : only s s' x -> y <> x -> last_of s' y = last_of s y.
Proof. intros Ho Hy. unfold last_of. by destruct (Ho y Hy) as (-> & _). Qed.

Lemma consumed_other s s' x j c y : only s s' x -> H !! j = Some c -> c !! O = Some y -> y <> x -> consumed s' j = consumed s j.
Proof.
  intros Ho Hj Hy Hne. unfold consumed. rewrite Hj. destruct c as [|z c]; [done|]. injection Hy as ->.
  unfold L. rewrite (only_last _ _ _ _ Ho Hne). by destruct (Ho y Hne) as (_ & -> & _).
Qed.

Lemma done_events_same s s' j o : consumed s' j = consumed s j -> done_events s' j o = done_events s j o.
Proof. intros E. unfold done_events. by rewrite E. Qed.

(** A waiting thread stays where it is until its parent's entry is played. *)
Definition keeps_waiting (s s' : rsys) (x : Z) : Prop :=
  forall p e, waiting s x p e ->
    waiting s' x p e /\ last_of s' x = last_of s x \/ e <= last_of s p /\ (L s x < L s' x)%nat.

Lemma plays_unplayed s x j c k i o :
  rinv s -> plays s x j c k -> c !! i = Some o -> last_of s o < Z.of_nat (commits H (S j) o).
Proof.
  intros Hi (Hj & Hx & Hl & _ & _) Ho.
  pose proof (not_played _ _ _ _ _ _ Hi Hj Hx ltac:(lia) Ho). rewrite (commits_in _ _ _ Hj) by (by eapply list_elem_of_lookup_2).
  pose proof (ri_last _ Hi o). unfold L in *. lia.
Qed.

Lemma plays_kept s s' x y j c k :
  rinv s -> only s s' x -> keeps_waiting s s' x -> y <> x -> plays s y j c k -> plays s' y j c k.
Proof.
  intros Hi Ho Hk Hy Hp. pose proof Hp as (Hj & Hx & Hl & Hle & He). split; [done|]. split; [done|].
  split; [unfold L; by rewrite (only_last _ _ _ _ Ho Hy)|]. split; [done|]. intros i p o Hpi Hoi Hlt.
  destruct (He i p o Hpi Hoi Hlt) as [Hw Hc]. destruct (decide (o = x)) as [->|Hne].
  - pose proof (plays_unplayed _ _ _ _ _ _ _ Hi Hp Hpi). destruct (Hk _ _ Hw) as [[? El]|[? _]]; [|lia].
    split; [done|]. unfold L in *. by rewrite El.
  - unfold waiting, L. rewrite (only_last _ _ _ _ Ho Hne). by destruct (Ho o Hne) as (_ & -> & _).
Qed.

(** Announcements stay valid. *)
Lemma waiting_kept s s' x o n p e :
  only s s' x -> keeps_waiting s s' x -> (forall o, (L s o <= L s' o)%nat) ->
  (n <= L s o)%nat -> (n = L s o -> waiting s o p e) -> (n <= L s' o)%nat /\ (n = L s' o -> waiting s' o p e).
Proof.
  intros Ho Hk HL Hn Hw. pose proof (HL o). split; [lia|]. intros ->. specialize (Hw ltac:(lia)).
  destruct (decide (o = x)) as [->|Hne].
  - destruct (Hk _ _ Hw) as [[? _]|[_ ?]]; [done|lia].
  - unfold waiting in *. by destruct (Ho o Hne) as (_ & -> & _).
Qed.

Lemma announced_kept s s' x o p :
  only s s' x -> keeps_waiting s s' x -> (forall o, (L s o <= L s' o)%nat) -> announced s o p -> announced s' o p.
Proof.
  intros Ho Hk HL (n & e & Hn & He & Hw). exists n, e. destruct (waiting_kept _ _ _ _ _ _ _ Ho Hk HL Hn Hw). done.
Qed.

Lemma numbered_kept s s' x o e :
  only s s' x -> keeps_waiting s s' x -> (forall o, (L s o <= L s' o)%nat) -> numbered s o e -> numbered s' o e.
Proof.
  intros Ho Hk HL (n & p & Hn & He & Hw). exists n, p. destruct (waiting_kept _ _ _ _ _ _ _ Ho Hk HL Hn Hw). done.
Qed.

Lemma entered_self s s' x j c k :
  only s s' x -> H !! j = Some c -> c !! O = Some x -> entered s j c k -> entered s' j c k.
Proof.
  intros Ho Hj Hx He i p o Hpi Hoi Hlt. destruct (He i p o Hpi Hoi Hlt) as [Hw Hc].
  assert (Hne : o <> x). { intros ->. by pose proof (NoDup_lookup _ _ _ _ (proj2 (call_ok _ _ Hj)) Hx Hoi). }
  unfold waiting, L. rewrite (only_last _ _ _ _ Ho Hne). by destruct (Ho o Hne) as (_ & -> & _).
Qed.

Lemma others_ok s s' x y :
  rinv s -> only s s' x -> keeps_waiting s s' x -> (forall o, (L s o <= L s' o)%nat) -> y <> x -> pc_ok s' y.
Proof.
  intros Hi Ho Hk HL Hy. pose proof (ri_pc _ Hi y) as Hpc. unfold pc_ok in *.
  destruct (Ho y Hy) as (Eo & Epc & Esl). rewrite Epc, Esl, Eo.
  assert (EL : L s' y = L s y) by (unfold L; by rewrite (only_last _ _ _ _ Ho Hy)). rewrite EL.
  destruct (get_pc s y) as [|todo|parent o todo|p o todo| | | |]; try done.
  - destruct Hpc as (j & c & k & Hp & ?). exists j, c, k. split; [by eapply plays_kept|done].
  - destruct Hpc as (j & c & k & Hp & ?). exists j, c, k. split; [by eapply plays_kept|done].
  - destruct Hpc as (j & c & k & Hp & ? & ? & ? & ? & Ha). exists j, c, k. split; [by eapply plays_kept|].
    do 4 (split; [done|]). by eapply announced_kept.
Qed.

(** What a step of thread [x] has to establish. *)
Lemma rinv_step s s' x :
  rinv s -> only s s' x -> keeps_waiting s s' x ->
  (last_of s' x = last_of s x \/ last_of s' x = last_of s x + 1 /\ is_Some (entries_of H x !! L s x)) ->
  (forall j c i p, H !! j = Some c -> c !! i = Some p -> c !! S i = Some x -> commits H j x = L s x ->
     last_of s' x <> last_of s x -> (commits H j p < L s p)%nat) ->
  pc_ok s' x ->
  ro_recovering (get_obj s' x) = (match get_pc s' x with RDone => false | _ => true end) ->
  (forall p, ro_wait_parent (get_obj s' x) = Some p -> ro_wait_parent (get_obj s x) = Some p \/ announced s' x p) ->
  (ro_wait_commit_id (get_obj s' x) = ro_wait_commit_id (get_obj s x) \/ numbered s' x (ro_wait_commit_id (get_obj s' x))) ->
  (forall j c i o, H !! j = Some c -> c !! O = Some x -> c !! i = Some o -> (consumed s j <= i < consumed s' j)%nat ->
     (commits H j o <= L s o)%nat) ->
  (forall o, events_of o (rs_trace s') = all_events s' o) ->
  rinv s'.
Proof.
  intros Hi Ho Hk Hl Hdown Hpc Hrec Hwp Hwc Hen Htr.
  assert (Hr : forall o, 0 <= last_of s' o <= Z.of_nat (length H) /\ last_of s o <= last_of s' o).
  { intros o. pose proof (ri_last _ Hi o). destruct (decide (o = x)) as [->|Hne]; [|rewrite (only_last _ _ _ _ Ho Hne); lia].
    destruct Hl as [->|[-> [r Hr]]]; [lia|]. apply lookup_lt_Some in Hr. rewrite entries_length in Hr.
    pose proof (commits_le (length H) x). unfold L in *. lia. }
  assert (HL : forall o, (L s o <= L s' o)%nat) by (intros o; destruct (Hr o); unfold L; lia).
  constructor; [apply Hr| | | | | | |done].
  - intros j c i p o Hj Hp Hox Hlt. destruct (decide (commits H j o < L s o)%nat) as [Hlt'|Hnot].
    + pose proof (ri_down _ Hi _ _ _ _ _ Hj Hp Hox Hlt'). specialize (HL p). lia.
    + destruct (decide (o = x)) as [->|Hne]; [|unfold L in *; rewrite (only_last _ _ _ _ Ho Hne) in Hlt; lia].
      pose proof (ri_last _ Hi x). destruct Hl as [El|[El _]]; [unfold L in *; rewrite El in Hlt; lia|].
      assert (Hc : commits H j x = L s x) by (unfold L in *; lia). specialize (HL p).
      pose proof (Hdown _ _ _ _ Hj Hp Hox Hc ltac:(lia)). lia.
  - intros y. destruct (decide (y = x)) as [->|Hne]; [done|]. by eapply others_ok.
  - intros y. destruct (decide (y = x)) as [->|Hne]; [done|]. destruct (Ho y Hne) as (-> & -> & _). apply Hi.
  - intros o p Hp. destruct (decide (o = x)) as [->|Hne].
    + destruct (Hwp p Hp) as [Hp'|]; [|done]. eapply announced_kept; [done..|]. by apply Hi.
    + destruct (Ho o Hne) as (E & _ & _). rewrite E in Hp. eapply announced_kept; [done..|]. by apply Hi.
  - intros o. assert (Hold : ro_wait_commit_id (get_obj s o) = 0 \/ numbered s' o (ro_wait_commit_id (get_obj s o))).
    { destruct (ri_commit _ Hi o); [by left|right]. by eapply numbered_kept. }
    destruct (decide (o = x)) as [->|Hne]; [|by destruct (Ho o Hne) as (-> & _ & _)].
    destruct Hwc as [->|]; [done|by right].
  - intros j c i o Hj Hio Hlt. destruct (Nat.lt_ge_cases i (consumed s j)) as [Hlt'|Hge].
    + pose proof (ri_enter _ Hi _ _ _ _ Hj Hio Hlt'). specialize (HL o). lia.
    + destruct (call_ok _ _ Hj) as [Hne _]. destruct c as [|z c]; [done|]. destruct (decide (z = x)) as [->|Hzx].
      * pose proof (Hen j (x :: c) i o Hj eq_refl Hio ltac:(lia)). specialize (HL o). lia.
      * rewrite (consumed_other _ _ _ _ _ _ Ho Hj eq_refl Hzx) in Hlt. lia.
Qed.

(** Steps that do not move a call. *)
Lemma trace_kept s s' x :
  rinv s -> only s s' x -> rs_trace s' = rs_trace s ->
  (forall j c, H !! j = Some c -> c !! O = Some x -> consumed s' j = consumed s j) ->
  forall o, events_of o (rs_trace s') = all_events s' o.
Proof.
  intros Hi Ho Et Hc o. rewrite Et, (ri_trace _ Hi). unfold all_events. f_equal. apply list_fmap_ext. intros k j Hk.
  symmetry. apply done_events_same. apply lookup_seq in Hk as [-> Hk]. destruct (lookup_lt_is_Some_2 H k) as [c Hj]; [lia|].
  cbn [Nat.add] in *. destruct (call_ok _ _ Hj) as [Hne _]. destruct c as [|z c]; [done|]. destruct (decide (z = x)) as [->|Hzx].
  - by apply (Hc k (x :: c)).
  - by eapply consumed_other.
Qed.

Lemma done_events_at s j c x i o :
  H !! j = Some c -> c !! O = Some x -> c !! i = Some o ->
  done_events s j o =
    (if (i <? consumed s j)%nat then [Ev true x (Z.of_nat (commits H (S j) x)) o] else []) ++
    (if (2 * length c - i <=? consumed s j)%nat then [Ev false x (Z.of_nat (commits H (S j) x)) o] else []).
Proof.
  intros Hj Hx Ho. unfold done_events. rewrite Hj. pose proof (find_position c i o (proj2 (call_ok _ _ Hj)) Ho) as Hf.
  destruct c as [|z c]; [done|]. injection Hx as ->. by rewrite Hf.
Qed.

Lemma done_events_out s j c o : H !! j = Some c -> o ∉ c -> done_events s j o = [].
Proof.
  intros Hj Ho. unfold done_events. rewrite Hj. destruct c as [|z c]; [done|].
  destruct (list_find _ _) as [[i y]|] eqn:E; [|done]. apply list_find_Some in E as (Hi & -> & _).
  by apply list_elem_of_lookup_2 in Hi.
Qed.

(** Calls after one that is being played have not entered its objects. *)
Lemma later_nothing s x j c k j' o :
  rinv s -> plays s x j c k -> o ∈ c -> (j < j' < length H)%nat -> done_events s j' o = [].
Proof.
  intros Hi (Hj & Hx & Hl & _ & _) Ho Hlt. destruct (lookup_lt_is_Some_2 H j') as [c' Hj']; [lia|].
  destruct (decide (o ∈ c')) as [Ho'|]; [|by eapply done_events_out].
  destruct (call_ok _ _ Hj') as [Hne _]. destruct (c' !! O) as [z|] eqn:Hz; [|by destruct c'].
  apply list_elem_of_lookup in Ho' as [i Hio]. rewrite (done_events_at s j' c' z i o) by done.
  destruct (Nat.ltb_spec i (consumed s j')) as [Hc|Hc].
  - pose proof (earlier_played _ _ _ _ _ _ _ _ Hi (proj1 Hlt) Hj Hx Ho Hj' Hio Hc). lia.
  - apply lookup_lt_Some in Hio as Hlen. by rewrite (proj2 (Nat.leb_gt _ _)) by lia.
Qed.

(** The trace after action [k] of call [j]. *)
Lemma trace_emit s s' x j c k b o :
  rinv s -> only s s' x -> plays s x j c k -> rs_trace s' = rs_trace s ++ [Ev b x (Z.of_nat (commits H (S j) x)) o] ->
  consumed s j = k -> consumed s' j = S k ->
  (forall j' c', H !! j' = Some c' -> c' !! O = Some x -> j' <> j -> consumed s' j' = consumed s j') ->
  body c !! k = Some (if b then ANotify o else AWait o) ->
  forall o', events_of o' (rs_trace s') = all_events s' o'.
Proof.
  intros Hi Hon Hp Et Ek Ek' Hsame Hb o'. pose proof Hp as (Hj & Hx & Hl & _ & _). unfold events_of. rewrite Et, filter_app.
  fold (events_of o' (rs_trace s)). rewrite (ri_trace _ Hi), filter_cons, filter_nil. cbn [ev_obj].
  assert (Hjs : forall j', (j' < length H)%nat -> j' <> j -> done_events s' j' o' = done_events s j' o').
  { intros j' Hlt Hne. apply done_events_same. destruct (lookup_lt_is_Some_2 H j') as [c' Hj']; [lia|].
    destruct (call_ok _ _ Hj') as [Hnil _]. destruct c' as [|z c']; [done|]. destruct (decide (z = x)) as [->|Hzx].
    - by apply (Hsame j' (x :: c')).
    - by eapply consumed_other. }
  assert (Hpos : exists i, c !! i = Some o /\ if b then i = k else (k = 2 * length c - 1 - i)%nat).
  { destruct b; [exists k; split; [by apply body_notify|done]|by apply body_wait]. }
  destruct Hpos as (i & Hio & Hik). apply lookup_lt_Some in Hj as Hjl. apply lookup_lt_Some in Hio as Hil.
  destruct (decide (o = o')) as [<-|Hne].
  - symmetry. apply (concat_snoc _ _ _ j); [done|done| |].
    + rewrite !(done_events_at _ j c x i o) by done. rewrite Ek, Ek'. destruct b.
      * subst i. rewrite (proj2 (Nat.ltb_ge k k)), (proj2 (Nat.ltb_lt k (S k))) by lia.
        rewrite !(proj2 (Nat.leb_gt _ _)) by lia. done.
      * rewrite !(proj2 (Nat.ltb_lt _ _)) by lia. rewrite (proj2 (Nat.leb_gt _ k)), (proj2 (Nat.leb_le _ (S k))) by lia. done.
    + intros j' Hj'. eapply later_nothing; [done|done|by eapply list_elem_of_lookup_2|done].
  - rewrite app_nil_r. unfold all_events. f_equal. apply list_fmap_ext. intros n j' [-> Hn]%lookup_seq. cbn [Nat.add].
    destruct (decide (n = j)) as [->|Hnj]; [|symmetry; apply Hjs; lia].
    destruct (decide (o' ∈ c)) as [[i' Hi']%list_elem_of_lookup|Ho']; [|by rewrite !(done_events_out _ j c o')].
    rewrite !(done_events_at _ j c x i' o') by done. rewrite Ek, Ek'. apply lookup_lt_Some in Hi' as Hil'.
    assert (Hii : i' <> i) by (intros ->; congruence). destruct b.
    + subst i. destruct (Nat.ltb_spec i' k), (Nat.ltb_spec i' (S k)); try lia; rewrite !(proj2 (Nat.leb_gt _ _)) by lia; done.
    + rewrite !(proj2 (Nat.ltb_lt _ _)) by lia.
      destruct (Nat.leb_spec (2 * length c - i') k), (Nat.leb_spec (2 * length c - i') (S k)); try lia; done.
Qed.

Lemma consumed_root s j c x :
  H !! j = Some c -> c !! O = Some x ->
  consumed s j = if (commits H j x <? L s x)%nat then (2 * length c)%nat
                 else if (commits H j x =? L s x)%nat then position (get_pc s x) (length c) else 0%nat.
Proof. intros Hj Hx. unfold consumed. rewrite Hj. destruct c as [|z c]; [done|]. by injection Hx as ->. Qed.

(** Steps that play nothing. *)
Lemma rinv_quiet s s' x :
  rinv s -> only s s' x -> last_of s' x = last_of s x -> rs_trace s' = rs_trace s ->
  (forall p e, waiting s x p e -> waiting s' x p e) ->
  (forall j c, H !! j = Some c -> c !! O = Some x -> commits H j x = L s x ->
     position (get_pc s' x) (length c) = position (get_pc s x) (length c)) ->
  pc_ok s' x ->
  ro_recovering (get_obj s' x) = (match get_pc s' x with RDone => false | _ => true end) ->
  (forall p, ro_wait_parent (get_obj s' x) = Some p -> ro_wait_parent (get_obj s x) = Some p \/ announced s' x p) ->
  (ro_wait_commit_id (get_obj s' x) = ro_wait_commit_id (get_obj s x) \/ numbered s' x (ro_wait_commit_id (get_obj s' x))) ->
  rinv s'.
Proof.
  intros Hi Ho El Et Hk Hpos Hpc Hrec Hwp Hwc.
  assert (Hc : forall j c, H !! j = Some c -> c !! O = Some x -> consumed s' j = consumed s j).
  { intros j c Hj Hx. rewrite !(consumed_root _ _ _ _ Hj Hx). unfold L. rewrite El. fold (L s x).
    destruct (_ <? _)%nat; [done|]. destruct (Nat.eqb_spec (commits H j x) (L s x)); [|done]. by apply (Hpos j). }
  apply (rinv_step s s' x); try done.
  - intros p e Hwt. left. split; [by apply Hk|done].
  - by left.
  - intros j c i o Hj Hx _ Hlt. rewrite (Hc j c) in Hlt by done. lia.
  - by eapply trace_kept.
Qed.

(** Steps of a call: action [k] of call [j] is done. *)
Lemma rinv_emit s s' x j c k b o todo :
  rinv s -> only s s' x -> plays s x j c k -> last_of s' x = last_of s x -> get_obj s' x = get_obj s x ->
  rs_trace s' = rs_trace s ++ [Ev b x (Z.of_nat (commits H (S j) x)) o] ->
  (forall p e, ~ waiting s x p e) -> get_pc s x <> RDone ->
  position (get_pc s x) (length c) = k -> get_pc s' x = RRun todo -> todo = drop (S k) (body c) ->
  body c !! k = Some (if b then ANotify o else AWait o) ->
  entered s j c (S k) -> slot s' x = slot_at c (S k) ->
  ((k < length c)%nat -> commits H j o <= L s o)%nat ->
  rinv s'.
Proof.
  intros Hi Ho Hp El Eo Et Hnw Hnd Epos Epc Etodo Hb He Hsl Hen. pose proof Hp as (Hj & Hx & Hl & Hle & _).
  assert (Hk : (k < 2 * length c)%nat) by (rewrite <- length_body; by eapply lookup_lt_Some).
  assert (HL : L s' x = L s x) by (unfold L; by rewrite El).
  assert (Ec : consumed s j = k).
  { rewrite (consumed_root _ _ _ _ Hj Hx), Hl, Nat.ltb_irrefl, Nat.eqb_refl. done. }
  assert (Ec' : consumed s' j = S k).
  { rewrite (consumed_root _ _ _ _ Hj Hx), HL, Hl, Nat.ltb_irrefl, Nat.eqb_refl, Epc. cbn [position].
    rewrite Etodo, length_drop, length_body. lia. }
  assert (Hother : forall j' c', H !! j' = Some c' -> c' !! O = Some x -> j' <> j -> consumed s' j' = consumed s j').
  { intros j' c' Hj' Hx' Hne. rewrite !(consumed_root _ _ _ _ Hj' Hx'), HL. destruct (_ <? _)%nat; [done|].
    destruct (Nat.eqb_spec (commits H j' x) (L s x)) as [E|]; [|done]. exfalso. apply Hne.
    apply (commits_inj j' j c' c x); [done|by eapply list_elem_of_lookup_2|done|by eapply list_elem_of_lookup_2|lia]. }
  apply (rinv_step s s' x); try done.
  - intros p e Hw. by destruct (Hnw p e).
  - by left.
  - unfold pc_ok. rewrite Epc. exists j, c, (S k). split; [|done]. split; [done|]. split; [done|]. split; [by rewrite HL|].
    split; [lia|]. by apply (entered_self s s' x).
  - rewrite Epc, Eo, (ri_recovering _ Hi). by destruct (get_pc s x).
  - rewrite Eo. by left.
  - rewrite Eo. by left.
  - intros j' c' i o' Hj' Hx' Ho' Hlt. destruct (decide (j' = j)) as [->|Hne]; [|rewrite (Hother j' c') in Hlt by done; lia].
    rewrite Hj in Hj'. injection Hj' as <-. assert (i = k) as -> by lia. apply lookup_lt_Some in Ho' as Hlt'.
    apply body_notify in Ho'. rewrite Hb in Ho'. destruct b; [injection Ho' as <-; by apply Hen|done].
  - by eapply trace_emit.
Qed.

Lemma last_L s x : rinv s -> last_of s x = Z.of_nat (L s x).
Proof. intros Hi. pose proof (ri_last _ Hi x). unfold L. lia. Qed.

Lemma next_commit s x : rinv s -> u64 (last_of s x + 1) = Z.of_nat (S (L s x)).
Proof.
  intros Hi. pose proof (ri_last _ Hi x). pose proof (hy_bound _ Hok). unfold Zlength, UINT64_MAX in *.
  rewrite (last_L _ _ Hi) in *. unfold u64. rewrite Z.mod_small by lia. lia.
Qed.

Ltac only_tac := intros y Hy; unfold get_obj, get_pc, slot, set_pc, set_obj, set_ctx, emit; cbn;
  rewrite ?lookup_insert_ne by done; auto.

(** [RNext]: the next entry is a call to play. *)
Lemma start_step s x b :
  rinv s -> get_pc s x = RNext -> entries_of H x !! L s x = Some (Own b) -> rinv (set_pc s x (RRun b)).
Proof.
  intros Hi Epc (j & c & Hj & Hx & Hl & ->)%entry_own. pose proof (ri_pc _ Hi x) as Hpc. unfold pc_ok in Hpc. rewrite Epc in Hpc.
  apply (rinv_quiet s _ x); try done.
  - only_tac.
  - intros p e [?|[?|?]]; congruence.
  - intros j' c' Hj' Hx' Hl'. rewrite get_pc_set, Epc. cbn [position]. rewrite length_body.
    destruct (commits_inj j' j c' c x) as [_ ->]; [done|by eapply list_elem_of_lookup_2|done|by eapply list_elem_of_lookup_2|lia|lia].
  - unfold pc_ok. rewrite get_pc_set. exists j, c, O. split; [|done]. do 4 (split; [done || lia|]). intros i p o _ _ ?. lia.
  - rewrite get_pc_set. pose proof (ri_recovering _ Hi x) as E. by rewrite Epc in E.
  - by left.
  - by left.
Qed.

(** [RNext]: the next entry is a nested call; its parent is announced. *)
Lemma announce_step s x p e :
  rinv s -> get_pc s x = RNext -> entries_of H x !! L s x = Some (Nested p e) ->
  rinv (set_pc (set_obj s x (waitForParent_object (get_obj s x) p)) x (RAnnounce p e)).
Proof.
  intros Hi Epc He. pose proof (ri_pc _ Hi x) as Hpc. unfold pc_ok in Hpc. rewrite Epc in Hpc. set (s' := set_pc _ _ _).
  assert (El : last_of s' x = last_of s x) by (unfold last_of, s'; by rewrite get_obj_set).
  assert (Ep : get_pc s' x = RAnnounce p e) by apply get_pc_set.
  assert (EL : L s' x = L s x) by (unfold L; by rewrite El).
  apply (rinv_quiet s s' x); try done.
  - unfold s'. only_tac.
  - intros p' e' [?|[?|?]]; congruence.
  - intros j c Hj Hx Hl. by rewrite Ep, Epc.
  - unfold pc_ok. rewrite Ep, EL. unfold s'. rewrite get_obj_set. done.
  - rewrite Ep. unfold s'. rewrite get_obj_set. pose proof (ri_recovering _ Hi x) as E. by rewrite Epc in E.
  - unfold s' at 1. rewrite get_obj_set. cbn. intros p' [= <-]. right. exists (L s x), e. rewrite EL. split; [done|].
    split; [done|]. intros _. by left.
  - unfold s' at 1. rewrite get_obj_set. by left.
Qed.

(** [RAnnounce]: the commit is announced. *)
Lemma wait_step s x p e :
  rinv s -> get_pc s x = RAnnounce p e ->
  rinv (set_pc (set_obj s x (waitForParent_commit (get_obj s x) e)) x (RWait p e)).
Proof.
  intros Hi Epc. pose proof (ri_pc _ Hi x) as Hpc. unfold pc_ok in Hpc. rewrite Epc in Hpc. set (s' := set_pc _ _ _).
  destruct Hpc as (Hsl & He & Hp).
  assert (El : last_of s' x = last_of s x) by (unfold last_of, s'; by rewrite get_obj_set).
  assert (Ep : get_pc s' x = RWait p e) by apply get_pc_set.
  assert (EL : L s' x = L s x) by (unfold L; by rewrite El).
  apply (rinv_quiet s s' x); try done.
  - unfold s'. only_tac.
  - intros p' e' [?|[?|?]]; [|congruence..]. assert (p' = p /\ e' = e) as [-> ->] by (split; congruence). by right; left.
  - intros j c Hj Hx Hl. by rewrite Ep, Epc.
  - unfold pc_ok. rewrite Ep, EL. unfold s'. rewrite get_obj_set. done.
  - rewrite Ep. unfold s'. rewrite get_obj_set. pose proof (ri_recovering _ Hi x) as E. by rewrite Epc in E.
  - unfold s' at 1. rewrite get_obj_set. by left.
  - right. unfold s' at 2. rewrite get_obj_set. cbn. exists (L s x), p. rewrite EL. split; [done|]. split; [done|].
    intros _. by right; left.
Qed.

(** [RNext]: no entry is left. *)
Lemma done_step s x :
  rinv s -> get_pc s x = RNext -> entries_of H x !! L s x = None ->
  rinv (set_pc (set_obj s x (recovered (get_obj s x))) x RDone).
Proof.
  intros Hi Epc He. pose proof (ri_pc _ Hi x) as Hpc. unfold pc_ok in Hpc. rewrite Epc in Hpc.
  assert (El : last_of (set_pc (set_obj s x (recovered (get_obj s x))) x RDone) x = last_of s x).
  { unfold last_of. by rewrite get_obj_set. }
  apply (rinv_quiet s _ x); try done.
  - only_tac.
  - intros p' e' [?|[?|?]]; congruence.
  - intros j c Hj Hx Hl. by rewrite get_pc_set, Epc.
  - unfold pc_ok. rewrite get_pc_set. unfold L. by rewrite El.
  - by rewrite get_pc_set, get_obj_set.
  - rewrite get_obj_set. by left.
  - rewrite get_obj_set. by left.
Qed.

(** The two halves of the waiting loop. *)
Definition in_loop (p e : Z) (pc : rpc) : Prop := pc = RWait p e \/ pc = RAssert p e.

Lemma loop_step s x p e pc :
  rinv s -> in_loop p e (get_pc s x) -> in_loop p e pc -> rinv (set_pc s x pc).
Proof.
  intros Hi Hw Hnew. pose proof (ri_pc _ Hi x) as Hpc.
  assert (Hw' : waiting (set_pc s x pc) x p e) by (unfold waiting; rewrite get_pc_set; by right).
  apply (rinv_quiet s _ x); try done.
  - only_tac.
  - intros p' e' Hw2. assert (p' = p /\ e' = e) as [-> ->]; [|done].
    destruct Hw as [E|E], Hw2 as [?|[?|?]]; rewrite E in *; by simplify_eq.
  - intros j c Hj Hx Hl. rewrite get_pc_set. by destruct Hw as [-> | ->], Hnew as [-> | ->].
  - unfold pc_ok in *. rewrite get_pc_set. by destruct Hw as [E|E], Hnew as [-> | ->]; rewrite E in Hpc.
  - rewrite get_pc_set. pose proof (ri_recovering _ Hi x) as E. by destruct Hw as [E2|E2], Hnew as [-> | ->]; rewrite E2 in E.
  - by left.
  - by left.
Qed.

(** An entry is played. *)
Lemma played_step s x :
  rinv s -> slot s x = None -> is_Some (entries_of H x !! L s x) -> get_pc s x <> RDone ->
  (forall p e, waiting s x p e -> e <= last_of s p) ->
  (forall j c i p, H !! j = Some c -> c !! i = Some p -> c !! S i = Some x -> commits H j x = L s x -> (commits H j p < L s p)%nat) ->
  (forall j c, H !! j = Some c -> c !! O = Some x -> commits H j x = L s x -> position (get_pc s x) (length c) = (2 * length c)%nat) ->
  rinv (set_pc (set_obj s x (played (get_obj s x))) x RNext).
Proof.
  intros Hi Hsl Hsome Hnd Hw Hdown Hpos. set (s' := set_pc _ _ _).
  assert (El : last_of s' x = last_of s x + 1).
  { unfold last_of at 1, s'. rewrite get_obj_set. cbn. fold (last_of s x). rewrite (next_commit _ _ Hi), (last_L _ _ Hi). lia. }
  assert (EL : L s' x = S (L s x)) by (pose proof (ri_last _ Hi x); unfold L; rewrite El; lia).
  assert (Hon : only s s' x) by only_tac.
  assert (Hc : forall j c, H !! j = Some c -> c !! O = Some x -> consumed s' j = consumed s j).
  { intros j c Hj Hx. rewrite !(consumed_root _ _ _ _ Hj Hx), EL. unfold s'. rewrite get_pc_set. cbn [position].
    destruct (Nat.ltb_spec (commits H j x) (L s x)), (Nat.ltb_spec (commits H j x) (S (L s x))); try lia.
    - rewrite (proj2 (Nat.eqb_eq _ _)) by lia. symmetry. apply (Hpos j); [done|done|lia].
    - rewrite (proj2 (Nat.eqb_neq (commits H j x) (L s x))) by lia. by destruct (_ =? _)%nat. }
  apply (rinv_step s s' x); try done.
  - intros p e Hwt. right. split; [by apply Hw|lia].
  - by right.
  - intros j c i p Hj Hp Hx Hl _. by eapply Hdown.
  - unfold pc_ok, s'. by rewrite get_pc_set.
  - unfold s'. rewrite get_pc_set, get_obj_set. cbn. rewrite (ri_recovering _ Hi). by destruct (get_pc s x).
  - unfold s' at 1. rewrite get_obj_set. by left.
  - unfold s' at 1. rewrite get_obj_set. by left.
  - intros j c i o Hj Hx _ Hlt. rewrite (Hc j c) in Hlt by done. lia.
  - by eapply trace_kept.
Qed.

(** The end of a call. *)
Lemma finish_step s x :
  rinv s -> get_pc s x = RRun [] -> rinv (set_pc (set_obj s x (played (get_obj s x))) x RNext).
Proof.
  intros Hi Epc. pose proof (ri_pc _ Hi x) as Hpc. unfold pc_ok in Hpc. rewrite Epc in Hpc.
  destruct Hpc as (j & c & k & (Hj & Hx & Hl & Hle & _) & Hk & Hsl).
  assert (k = 2 * length c)%nat as ->.
  { apply (f_equal length) in Hk. rewrite length_drop, length_body in Hk. cbn in Hk. lia. }
  assert (Hlen : (0 < length c)%nat) by (by eapply lookup_lt_Some).
  assert (Hown : entries_of H x !! L s x = Some (Own (body c))).
  { rewrite <- Hl. apply (entries_lookup _ _ _ _ Hj). by apply record_root. }
  apply played_step; try done.
  - rewrite Hsl. unfold slot_at. destruct (2 * length c)%nat eqn:E; [done|]. by rewrite (proj2 (Nat.leb_gt _ _)) by lia.
  - by rewrite Epc.
  - intros p e [?|[?|?]]; congruence.
  - intros j' c' i p Hj' Hp Hx' Hl'. exfalso.
    destruct (commits_inj j' j c' c x) as [_ ->]; [done|by eapply list_elem_of_lookup_2|done|by eapply list_elem_of_lookup_2|lia|].
    by pose proof (NoDup_lookup _ _ _ _ (proj2 (call_ok _ _ Hj)) Hx Hx').
  - intros j' c' Hj' Hx' Hl'. rewrite Epc. cbn. lia.
Qed.

(** The end of the waiting loop. *)
Lemma resume_step s x p e :
  rinv s -> get_pc s x = RWait p e -> e <= last_of s p -> rinv (set_pc (set_obj s x (played (get_obj s x))) x RNext).
Proof.
  intros Hi Epc Hle. pose proof (ri_pc _ Hi x) as Hpc. unfold pc_ok in Hpc. rewrite Epc in Hpc.
  destruct Hpc as (Hsl & He & _ & _). pose proof He as (j & c & i & Hj & Hp & Hx & Hl & Ee)%entry_nested.
  apply played_step; try done.
  - by rewrite Epc.
  - intros p' e' [E|[E|E]]; rewrite Epc in E; by simplify_eq.
  - intros j' c' i' p' Hj' Hp' Hx' Hl'.
    destruct (commits_inj j' j c' c x) as [-> ->]; [done|by eapply list_elem_of_lookup_2|done|by eapply list_elem_of_lookup_2|lia|].
    pose proof (NoDup_lookup _ _ _ _ (proj2 (call_ok _ _ Hj)) Hx Hx') as [= ->]. simplify_eq.
    rewrite (commits_in _ _ _ Hj) in Hle by (by eapply list_elem_of_lookup_2). rewrite (last_L _ _ Hi) in Hle. lia.
  - intros j' c' Hj' Hx' Hl'. exfalso.
    destruct (commits_inj j' j c' c x) as [-> ->]; [done|by eapply list_elem_of_lookup_2|done|by eapply list_elem_of_lookup_2|lia|].
    by pose proof (NoDup_lookup _ _ _ _ (proj2 (call_ok _ _ Hj)) Hx Hx').
Qed.

Lemma drop_body (c : list Z) k a todo : a :: todo = drop k (body c) -> body c !! k = Some a /\ todo = drop (S k) (body c).
Proof.
  intros E. split.
  - replace k with (k + 0)%nat by lia. rewrite <- lookup_drop, <- E. done.
  - rewrite <- Nat.add_1_r, <- drop_drop, <- E. done.
Qed.

(** [Savitar_thread_notify], up to the spinning. *)
Lemma notify_step s x o todo :
  rinv s -> get_pc s x = RRun (ANotify o :: todo) ->
  ro_recovering (get_obj s o) = true /\
  let r := RecoveryContext.popParentObject (rs_ctx s) x in
  rinv (set_pc (set_ctx s (fst r)) x (RSpin (snd r) o todo)).
Proof.
  intros Hi Epc. pose proof (ri_pc _ Hi x) as Hpc. unfold pc_ok in Hpc. rewrite Epc in Hpc.
  destruct Hpc as (j & c & k & Hp & Hk & Hsl). pose proof Hp as (Hj & Hx & Hl & Hle & He).
  apply drop_body in Hk as [Hb Htodo]. apply body_notify in Hb as Hck.
  split; [apply (not_done s j c x k o Hi Hj Hx); [lia|done]|].
  destruct (pop_spec (rs_ctx s) x) as (Epar & Hnone & Hoth). set (r := RecoveryContext.popParentObject (rs_ctx s) x) in *.
  cbv zeta. set (s' := set_pc _ _ _). assert (Hon : only s s' x) by (unfold s'; only_tac).
  apply (rinv_quiet s s' x); try done.
  - intros p e [?|[?|?]]; congruence.
  - intros j' c' _ _ _. unfold s'. rewrite get_pc_set, Epc. done.
  - unfold pc_ok, s'. rewrite get_pc_set. exists j, c, k. split; [|split; [done|split; [done|split; [|done]]]].
    + do 4 (split; [done|]). by apply (entered_self s s' x).
    + rewrite Epar. exact Hsl.
  - unfold s'. rewrite get_pc_set. pose proof (ri_recovering _ Hi x) as E. by rewrite Epc in E.
  - by left.
  - by left.
Qed.

(** The two tests of [isWaitingForParent]. *)
Lemma test_object_step s x p o todo :
  rinv s -> get_pc s x = RSpin (Some p) o todo -> isWaitingForParent_object (get_obj s o) p = true ->
  rinv (set_pc s x (RTest p o todo)).
Proof.
  intros Hi Epc Ht%bool_decide_eq_true. pose proof (ri_pc _ Hi x) as Hpc. unfold pc_ok in Hpc. rewrite Epc in Hpc.
  destruct Hpc as (j & c & k & Hp & Hck & Htodo & Hpar & Hsl). pose proof (ri_parent _ Hi _ _ Ht) as Ha.
  set (s' := set_pc _ _ _). assert (Hon : only s s' x) by (unfold s'; only_tac).
  assert (Ep : get_pc s' x = RTest p o todo) by apply get_pc_set.
  assert (Hk : forall q e, waiting s x q e -> waiting s' x q e) by (intros q e [?|[?|?]]; congruence).
  apply (rinv_quiet s s' x); try done.
  - intros j' c' _ _ _. by rewrite Ep, Epc.
  - unfold pc_ok. rewrite Ep. exists j, c, k. pose proof Hp as (Hj & Hx & Hl & Hle & He).
    split; [do 4 (split; [done|]); by apply (entered_self s s' x)|]. do 4 (split; [done|]).
    eapply announced_kept; [exact Hon| |done|exact Ha]. intros q e Hw. left. split; [by apply Hk|done].
  - rewrite Ep. pose proof (ri_recovering _ Hi x) as E. by rewrite Epc in E.
  - by left.
  - by left.
Qed.

Lemma retest_step s x p o todo :
  rinv s -> get_pc s x = RTest p o todo -> rinv (set_pc s x (RSpin (Some p) o todo)).
Proof.
  intros Hi Epc. pose proof (ri_pc _ Hi x) as Hpc. unfold pc_ok in Hpc. rewrite Epc in Hpc.
  destruct Hpc as (j & c & k & Hp & Hck & Htodo & Hpar & Hsl & _).
  set (s' := set_pc _ _ _). assert (Hon : only s s' x) by (unfold s'; only_tac).
  assert (Ep : get_pc s' x = RSpin (Some p) o todo) by apply get_pc_set.
  apply (rinv_quiet s s' x); try done.
  - intros q e [?|[?|?]]; congruence.
  - intros j' c' _ _ _. by rewrite Ep, Epc.
  - unfold pc_ok. rewrite Ep. exists j, c, k. pose proof Hp as (Hj & Hx & Hl & Hle & He).
    split; [do 4 (split; [done|]); by apply (entered_self s s' x)|done].
  - rewrite Ep. pose proof (ri_recovering _ Hi x) as E. by rewrite Epc in E.
  - by left.
  - by left.
Qed.

(** The callers of a call that is entered up to them stand at its entries. *)
Lemma caller_stands s x j c k p : plays s x j c (S k) -> c !! k = Some p -> commits H j p = L s p.
Proof.
  intros (Hj & Hx & Hl & Hle & He) Hp. destruct k as [|k]; [by simplify_eq|].
  destruct (lookup_lt_is_Some_2 c k) as [q Hq]; [apply lookup_lt_Some in Hp; lia|].
  by destruct (He k q p Hq Hp ltac:(lia)).
Qed.

(** The object that a call enters next stands at the entry of this call. *)
Lemma child_ready s x j c k p o :
  rinv s -> plays s x j c (S k) -> c !! k = Some p -> c !! S k = Some o -> announced s o p ->
  isWaitingForParent_commit (get_obj s o) (ro_last_played (get_obj s p)) = true ->
  waiting s o p (Z.of_nat (commits H (S j) p)) /\ commits H j o = L s o.
Proof.
  intros Hi Hpl Hp Ho (n0 & e0 & Hn0 & He0 & Hw0) Ht%Z.eqb_eq. pose proof (caller_stands _ _ _ _ _ _ Hpl Hp) as Hlp.
  destruct Hpl as (Hj & Hx & Hl & _ & _). fold (last_of s p) in Ht. rewrite (next_commit _ _ Hi) in Ht.
  assert (Ecp : commits H (S j) p = S (L s p)) by (rewrite (commits_in _ _ _ Hj), Hlp by (by eapply list_elem_of_lookup_2); done).
  pose proof (entries_lookup _ _ _ _ Hj (record_nested _ _ _ _ _ Hj Hp Ho)) as He. rewrite Ecp in He |- *.
  pose proof (not_played _ _ _ _ _ _ Hi Hj Hx ltac:(lia) Ho) as Hle.
  destruct (ri_commit _ Hi o) as [E|(n1 & p1 & Hn1 & He1 & Hw1)]; [lia|]. rewrite <- Ht in He1, Hw1.
  destruct (decide (n1 = commits H j o)) as [->|Hne1].
  { assert (Hlo : commits H j o = L s o) by lia. split; [|done]. rewrite He in He1. injection He1 as <-. by apply Hw1. }
  destruct (decide (n0 = commits H j o)) as [->|Hne0].
  { assert (Hlo : commits H j o = L s o) by lia. split; [|done]. rewrite He in He0. injection He0 as <-. by apply Hw0. }
  exfalso. assert (p1 = p) as -> by (apply (Hun o n0 n1 (commits H j o) p p1 e0 (Z.of_nat (S (L s p)))); (done || lia)).
  apply entry_nested in He1 as (j' & c' & i & Hj' & Hp' & Ho' & Hl' & Ee).
  rewrite (commits_in _ _ _ Hj') in Ee by (by eapply list_elem_of_lookup_2).
  destruct (commits_inj j' j c' c p) as [-> ->]; [done|by eapply list_elem_of_lookup_2|done|by eapply list_elem_of_lookup_2|lia|].
  done.
Qed.

(** The end of [Savitar_thread_notify]: the test of the loop has succeeded. *)
Lemma enter_rinv s x j c k o todo :
  rinv s -> plays s x j c k -> c !! k = Some o -> todo = drop (S k) (body c) -> slot s x = None ->
  (forall p e, ~ waiting s x p e) -> get_pc s x <> RDone -> position (get_pc s x) (length c) = k ->
  (forall k' p, k = S k' -> c !! k' = Some p -> waiting s o p (Z.of_nat (commits H (S j) p)) /\ commits H j o = L s o) ->
  exists s', enter s x o todo = Ok s' /\ rinv s'.
Proof.
  intros Hi Hp Hck Htodo Hsl Hnw Hnd Hpos Hchild. pose proof Hp as (Hj & Hx & Hl & Hle & He).
  apply lookup_lt_Some in Hck as Hklen.
  unfold enter. destruct (push_spec (rs_ctx s) x o Hsl) as (ctx & -> & Hnew & Hoth). cbn [res_bind].
  eexists. split; [done|]. fold (last_of s x). rewrite (next_commit _ _ Hi), <- Hl, <- (commits_in _ _ _ Hj) by (by eapply list_elem_of_lookup_2).
  set (s' := set_pc _ _ _). assert (Hon : only s s' x) by (unfold s'; only_tac).
  apply (rinv_emit s s' x j c k true o todo); try done.
  - unfold s'. by rewrite get_pc_set.
  - by apply body_notify.
  - intros i p q Hpi Hqi Hlt. destruct (decide (S i = k)) as [<-|Hne]; [|apply (He i p q); [done|done|lia]].
    rewrite Hck in Hqi. injection Hqi as <-. by apply (Hchild i).
  - cbn [slot_at]. rewrite (proj2 (Nat.leb_le _ _)) by lia. by rewrite Hck.
  - intros _. destruct k as [|k]; [simplify_eq; lia|].
    destruct (lookup_lt_is_Some_2 c k) as [p Hpk]; [lia|]. destruct (Hchild k p eq_refl Hpk). lia.
Qed.

Lemma spin_position (c : list Z) k o todo : c !! k = Some o -> todo = drop (S k) (body c) -> (2 * length c - S (length todo))%nat = k.
Proof. intros Hk%lookup_lt_Some ->. rewrite length_drop, length_body. lia. Qed.

(** The outer-most call has no parent to wait for. *)
Lemma enter_root s x o todo :
  rinv s -> get_pc s x = RSpin None o todo -> exists s', enter s x o todo = Ok s' /\ rinv s'.
Proof.
  intros Hi Epc. pose proof (ri_pc _ Hi x) as Hpc. unfold pc_ok in Hpc. rewrite Epc in Hpc.
  destruct Hpc as (j & c & k & Hp & Hck & Htodo & Hpar & Hsl). apply lookup_lt_Some in Hck as Hlt.
  apply (enter_rinv s x j c k); try done.
  - intros p e [?|[?|?]]; congruence.
  - by rewrite Epc.
  - rewrite Epc. by eapply spin_position.
  - intros k' p -> Hk'. cbn [slot_at] in Hpar. rewrite (proj2 (Nat.leb_le _ _)), Hk' in Hpar by lia. done.
Qed.

Lemma enter_nested s x p o todo :
  rinv s -> get_pc s x = RTest p o todo ->
  isWaitingForParent_commit (get_obj s o) (ro_last_played (get_obj s p)) = true ->
  exists s', enter s x o todo = Ok s' /\ rinv s'.
Proof.
  intros Hi Epc Ht. pose proof (ri_pc _ Hi x) as Hpc. unfold pc_ok in Hpc. rewrite Epc in Hpc.
  destruct Hpc as (j & c & k & Hp & Hck & Htodo & Hpar & Hsl & Ha). apply lookup_lt_Some in Hck as Hlt.
  apply (enter_rinv s x j c k); try done.
  - intros q e [?|[?|?]]; congruence.
  - by rewrite Epc.
  - rewrite Epc. by eapply spin_position.
  - intros k' q -> Hk'. cbn [slot_at] in Hpar. rewrite (proj2 (Nat.leb_le _ _)), Hk' in Hpar by lia. injection Hpar as <-.
    by apply (child_ready s x j c k' p o).
Qed.

(** [Savitar_thread_wait]. *)
Lemma leave_step s x o todo :
  rinv s -> get_pc s x = RRun (AWait o :: todo) ->
  ro_recovering (get_obj s o) = true /\
  let r := RecoveryContext.popParentObject (rs_ctx s) x in
  rinv (set_pc (emit (set_ctx s (fst r)) (Ev false x (u64 (ro_last_played (get_obj s x) + 1)) o)) x (RRun todo)).
Proof.
  intros Hi Epc. pose proof (ri_pc _ Hi x) as Hpc. unfold pc_ok in Hpc. rewrite Epc in Hpc.
  destruct Hpc as (j & c & k & Hp & Hk & Hsl). pose proof Hp as (Hj & Hx & Hl & Hle & He).
  apply drop_body in Hk as [Hb Htodo]. destruct (body_wait _ _ _ Hb) as (i & Hio & Ek). apply lookup_lt_Some in Hio as Hilen.
  split; [apply (not_done s j c x i o Hi Hj Hx); [lia|done]|].
  destruct (pop_spec (rs_ctx s) x) as (Epar & Hnone & Hoth). set (r := RecoveryContext.popParentObject (rs_ctx s) x) in *. cbv zeta.
  fold (last_of s x). rewrite (next_commit _ _ Hi), <- Hl, <- (commits_in _ _ _ Hj) by (by eapply list_elem_of_lookup_2).
  set (s' := set_pc _ _ _). assert (Hon : only s s' x) by (unfold s'; only_tac).
  apply (rinv_emit s s' x j c k false o todo); try done.
  - intros p e [?|[?|?]]; congruence.
  - by rewrite Epc.
  - rewrite Epc. cbn [position length]. rewrite Htodo, length_drop, length_body. lia.
  - unfold s'. by rewrite get_pc_set.
  - intros n p q Hpi Hqi Hlt. apply (He n p q); [done|done|]. apply lookup_lt_Some in Hqi. lia.
  - cbn [slot_at]. rewrite (proj2 (Nat.leb_gt _ _)) by lia. done.
  - lia.
Qed.

(** Every step keeps the invariant, and the only one that can fail is the
    assertion of the waiting loop. *)
Lemma recovery_step_inv s x :
  rinv s ->
  (exists s', recovery_step (entries_of H) s x = Ok s' /\ rinv s') \/
  (exists p e, get_pc s x = RAssert p e /\ ro_recovering (get_obj s p) = false /\
     recovery_step (entries_of H) s x = AssertFail).
Proof.
  intros Hi. pose proof (ri_pc _ Hi x) as Hpc. unfold recovery_step. fold (last_of s x). fold (L s x).
  destruct (get_pc s x) as [|todo|parent o todo|p o todo|p e|p e|p e|] eqn:Epc.
  - left. destruct (entries_of H x !! L s x) as [[b|p e]|] eqn:Ee; eexists; (split; [done|]).
    + by apply start_step.
    + by apply announce_step.
    + by apply done_step.
  - left. destruct todo as [|[o|o] todo].
    + eexists. split; [done|]. by apply finish_step.
    + destruct (notify_step s x o todo Hi Epc) as [-> Hinv]. destruct (RecoveryContext.popParentObject (rs_ctx s) x) as [ctx par].
      eexists. split; [done|]. exact Hinv.
    + destruct (leave_step s x o todo Hi Epc) as [-> Hinv]. destruct (RecoveryContext.popParentObject (rs_ctx s) x) as [ctx par].
      eexists. split; [done|]. exact Hinv.
  - left. destruct parent as [p|]; [|by apply enter_root].
    destruct (isWaitingForParent_object _ _) eqn:Et; [|by exists s]. eexists. split; [done|]. by apply test_object_step.
  - left. destruct (isWaitingForParent_commit _ _) eqn:Et; [by apply (enter_nested s x p)|].
    eexists. split; [done|]. by apply retest_step.
  - left. eexists. split; [done|]. by apply wait_step.
  - left. destruct (Z.ltb_spec (ro_last_played (get_obj s p)) e) as [Hlt|Hge]; eexists; (split; [done|]).
    + apply (loop_step s x p e); [done|by left|by right].
    + by apply (resume_step s x p e).
  - destruct (ro_recovering (get_obj s p)) eqn:Er.
    + left. eexists. split; [done|]. apply (loop_step s x p e); [done|by right|by left].
    + right. by exists p, e.
  - left. by exists s.
Qed.

Lemma rinv_init : rinv rs_init.
Proof.
  assert (Hc : forall j, consumed rs_init j = O).
  { intros j. unfold consumed. destruct (H !! j) as [[|x c]|]; [done| |done]. change (L rs_init x) with O.
    destruct (_ <? _)%nat eqn:E; [apply Nat.ltb_lt in E; lia|]. by destruct (_ =? _)%nat. }
  constructor; try done.
  - intros o. change (last_of rs_init o) with 0. lia.
  - intros j c i p o _ _ _ Hlt. change (L rs_init o) with O in Hlt. lia.
  - by left.
  - intros j c i o _ _ Hlt. rewrite Hc in Hlt. lia.
  - intros o. unfold all_events. symmetry. apply concat_nil_Forall, Forall_fmap, Forall_forall. intros j _. cbn.
    unfold done_events. rewrite Hc. destruct (H !! j) as [[|x c]|]; [done| |done].
    destruct (list_find _ _) as [[i y]|] eqn:E; [|done]. apply list_find_Some in E as (Hi & _ & _). apply lookup_lt_Some in Hi.
    by rewrite (proj2 (Nat.leb_gt _ _)) by lia.
Qed.

Lemma recovering_inv s : recovering_from (entries_of H) s -> rinv s.
Proof.
  intros Hr. unfold recovering_from in Hr. remember rs_init as s0 eqn:E0. assert (Hi : rinv s0) by (rewrite E0; apply rinv_init).
  clear E0. induction Hr as [|s1 s2 s3 [x Hx] _ IH]; [done|]. apply IH.
  destruct (recovery_step_inv s1 x Hi) as [(s' & E & ?)|(p & e & _ & _ & E)]; rewrite Hx in E; [by apply Ok_inj in E as ->|done].
Qed.

(** ** Order *)

Lemma call_events_at j c x o : H !! j = Some c -> c !! O = Some x ->
  call_events H j o = if bool_decide (o ∈ c) then [Ev true x (Z.of_nat (commits H (S j) x)) o; Ev false x (Z.of_nat (commits H (S j) x)) o] else [].
Proof. intros Hj Hx. unfold call_events. rewrite Hj. destruct c as [|z c]; [done|]. by injection Hx as ->. Qed.

Lemma root_of j c : H !! j = Some c -> exists x, c !! O = Some x.
Proof. intros Hj. destruct (call_ok _ _ Hj) as [Hne _]. destruct c as [|x c]; [done|]. by exists x. Qed.

Lemma done_prefix s j o : (j < length H)%nat -> done_events s j o `prefix_of` call_events H j o.
Proof.
  intros Hlt. destruct (lookup_lt_is_Some_2 H j Hlt) as [c Hj]. destruct (root_of _ _ Hj) as [x Hx].
  rewrite (call_events_at _ _ _ _ Hj Hx). case_bool_decide as Ho; [|by rewrite (done_events_out _ _ _ _ Hj Ho)].
  apply list_elem_of_lookup in Ho as [i Hi]. rewrite (done_events_at _ _ _ _ _ _ Hj Hx Hi). apply lookup_lt_Some in Hi.
  destruct (Nat.ltb_spec i (consumed s j)), (Nat.leb_spec (2 * length c - i) (consumed s j)); try lia.
  - done.
  - by eexists.
  - by eexists.
Qed.

(** A call whose outer-most entry is played is complete. *)
Lemma done_full s j c x o :
  H !! j = Some c -> c !! O = Some x -> (commits H j x < L s x)%nat -> done_events s j o = call_events H j o.
Proof.
  intros Hj Hx Hlt. assert (Ec : consumed s j = (2 * length c)%nat).
  { rewrite (consumed_root _ _ _ _ Hj Hx). by rewrite (proj2 (Nat.ltb_lt _ _)) by lia. }
  rewrite (call_events_at _ _ _ _ Hj Hx). case_bool_decide as Ho; [|by rewrite (done_events_out _ _ _ _ Hj Ho)].
  apply list_elem_of_lookup in Ho as [i Hi]. rewrite (done_events_at _ _ _ _ _ _ Hj Hx Hi), Ec. apply lookup_lt_Some in Hi.
  by rewrite (proj2 (Nat.ltb_lt _ _)), (proj2 (Nat.leb_le _ _)) by lia.
Qed.

Lemma events_prefix s o : rinv s -> events_of o (rs_trace s) `prefix_of` serial_events H o.
Proof.
  intros Hi. rewrite (ri_trace _ Hi). apply concat_prefix; [intros; apply done_prefix; lia|].
  intros j j' Hjj Hlt Hne. destruct (lookup_lt_is_Some_2 H j) as [c Hj]; [lia|]. destruct (lookup_lt_is_Some_2 H j') as [c' Hj']; [lia|].
  destruct (root_of _ _ Hj) as [x Hx]. destruct (decide (o ∈ c)) as [Ho|Ho].
  - destruct (decide (o ∈ c')) as [Ho'|Ho']; [|by rewrite (done_events_out _ _ _ _ Hj' Ho') in Hne].
    destruct (root_of _ _ Hj') as [y Hy]. apply list_elem_of_lookup in Ho' as [i Hio].
    rewrite (done_events_at _ _ _ _ _ _ Hj' Hy Hio) in Hne. apply lookup_lt_Some in Hio as Hil.
    apply (done_full _ _ _ _ _ Hj Hx). eapply (earlier_played s j j'); try done; [lia|].
    destruct (Nat.ltb_spec i (consumed s j')); [done|]. by rewrite (proj2 (Nat.leb_gt _ _)) in Hne by lia.
  - rewrite (done_events_out _ _ _ _ Hj Ho), (call_events_at _ _ _ _ Hj Hx). by rewrite bool_decide_false.
Qed.

Lemma events_complete s o : rinv s -> all_recovered H s -> events_of o (rs_trace s) = serial_events H o.
Proof.
  intros Hi Hall. rewrite (ri_trace _ Hi). unfold all_events, serial_events. f_equal. apply list_fmap_ext.
  intros n j [-> Hn]%lookup_seq. cbn [Nat.add]. destruct (lookup_lt_is_Some_2 H n) as [c Hj]; [lia|].
  destruct (root_of _ _ Hj) as [x Hx]. apply (done_full _ _ _ _ _ Hj Hx).
  pose proof (Forall_lookup_1 _ _ _ _ Hall Hj) as Hc. pose proof (Forall_lookup_1 _ _ _ _ Hc Hx) as Ed.
  pose proof (ri_pc _ Hi x) as Hpc. unfold pc_ok in Hpc. rewrite Ed in Hpc. destruct Hpc as [_ Hnone%lookup_ge_None].
  pose proof (entries_lookup _ _ _ _ Hj (record_root _ _ _ Hj Hx)) as Hl%lookup_lt_Some. lia.
Qed.

(** ** Progress *)

Local Abbreviation recs := (entries_of H).

(** A step changes nothing but the state of its own thread; it finishes some
    work, or is a turn of a waiting loop. *)
Lemma step_only s x s' : recovery_step recs s x = Ok s' -> only s s' x.
Proof.
  unfold recovery_step, enter. intros E.
  destruct (pop_spec (rs_ctx s) x) as (_ & _ & Hpop).
  assert (Hpush : forall o ctx, RecoveryContext.pushParentObject (rs_ctx s) x o = Ok ctx -> forall y, y <> x ->
    RecoveryContext.parentObjects ctx !! y = RecoveryContext.parentObjects (rs_ctx s) !! y).
  { intros o ctx Ep y Hy. unfold RecoveryContext.pushParentObject in Ep. case_bool_decide; [|done]. apply Ok_inj in Ep as <-.
    cbn. by rewrite lookup_insert_ne. }
  repeat case_match; try discriminate E; try (apply res_bind_Ok in E as (ctx & Ep & E); specialize (Hpush _ _ Ep));
    apply Ok_inj in E as <-; intros y Hy; unfold get_obj, get_pc, slot, set_pc, set_obj, set_ctx, emit; cbn;
    rewrite ?lookup_insert_ne by done; auto.
Qed.

Lemma weights_next x n r : recs x !! n = Some r -> weights (drop n (recs x)) = (weight r + weights (drop (S n) (recs x)))%nat.
Proof. intros E. unfold weights. by rewrite (drop_S _ _ _ E). Qed.

Lemma work_moved s s' x pc : get_obj s' x = get_obj s x -> get_pc s' x = pc -> work recs s' x = work_at (recs x) (L s x) pc.
Proof. intros Eo Ep. unfold work. by rewrite Eo, Ep. Qed.

Lemma work_played s x : rinv s -> work recs (set_pc (set_obj s x (played (get_obj s x))) x RNext) x = work_at (recs x) (S (L s x)) RNext.
Proof.
  intros Hi. unfold work. rewrite get_pc_set, get_obj_set. cbn [played ro_last_played]. fold (last_of s x).
  by rewrite (next_commit _ _ Hi), Nat2Z.id.
Qed.

Lemma enter_work s x o todo s' :
  work recs s x = work_at (recs x) (L s x) (RSpin None o todo) -> enter s x o todo = Ok s' -> (work recs s' x < work recs s x)%nat.
Proof.
  intros Ew E. unfold enter in E. apply res_bind_Ok in E as (ctx & _ & E). apply Ok_inj in E as <-.
  rewrite (work_moved s _ x (RRun todo)) by (done || apply get_pc_set). rewrite Ew. cbn [work_at]. lia.
Qed.

(** Why a thread gets nothing done: it spins on the announcement of the
    object it calls, or on the entry of its parent. *)
Inductive idle (s : rsys) : rpc -> Prop :=
| idle_done : idle s RDone
| idle_spin p o todo : idle s (RSpin (Some p) o todo)
| idle_test p o todo : isWaitingForParent_commit (get_obj s o) (last_of s p) = false -> idle s (RTest p o todo)
| idle_wait p e : last_of s p < e -> idle s (RWait p e)
| idle_assert p e : idle s (RAssert p e).

Lemma step_work s x s' :
  rinv s -> recovery_step recs s x = Ok s' ->
  (work recs s' x < work recs s x)%nat \/ idle s (get_pc s x) /\ work recs s' x = work recs s x.
Proof.
  intros Hi E. assert (Ew : work recs s x = work_at (recs x) (L s x) (get_pc s x)) by done. unfold recovery_step in E.
  fold (last_of s x) in E. fold (L s x) in E.
  assert (Hmv : forall ctx tr pc, work recs (set_pc (RSys (rs_objs s) (rs_pc s) ctx tr) x pc) x = work_at (recs x) (L s x) pc)
    by (intros; apply work_moved; [done|apply get_pc_set]).
  destruct (get_pc s x) as [|todo|parent o todo|p o todo|p e|p e|p e|] eqn:Epc; rewrite Ew.
  - left. destruct (recs x !! L s x) as [[b|p e]|] eqn:Ee; apply Ok_inj in E as <-.
    + rewrite (work_moved s _ x (RRun b)) by (done || apply get_pc_set). cbn [work_at]. rewrite (weights_next _ _ _ Ee). cbn [weight]. lia.
    + unfold work. rewrite get_pc_set, get_obj_set. cbn [waitForParent_object ro_last_played work_at]. fold (last_of s x). fold (L s x).
      rewrite (weights_next _ _ _ Ee). cbn [weight]. lia.
    + unfold work. rewrite get_pc_set. cbn [work_at]. lia.
  - left. destruct todo as [|[o|o] todo].
    + apply Ok_inj in E as <-. rewrite work_played by done. cbn [work_at length]. lia.
    + destruct (ro_recovering _); [|done]. destruct (RecoveryContext.popParentObject (rs_ctx s) x) as [ctx par]. apply Ok_inj in E as <-.
      unfold set_ctx. rewrite Hmv. cbn [work_at length]. lia.
    + destruct (ro_recovering _); [|done]. destruct (RecoveryContext.popParentObject (rs_ctx s) x) as [ctx par]. apply Ok_inj in E as <-.
      unfold set_ctx, emit. rewrite Hmv. cbn [work_at length]. lia.
  - destruct parent as [p|]; [|left; rewrite <- Ew; by eapply enter_work].
    right. split; [constructor|]. destruct (isWaitingForParent_object _ _); apply Ok_inj in E as <-; [|done].
    by rewrite (work_moved s _ x (RTest p o todo)) by (done || apply get_pc_set).
  - destruct (isWaitingForParent_commit _ _) eqn:Et; [left; rewrite <- Ew; by eapply enter_work|].
    apply Ok_inj in E as <-. right. split; [by constructor|].
    by rewrite (work_moved s _ x (RSpin (Some p) o todo)) by (done || apply get_pc_set).
  - left. apply Ok_inj in E as <-. unfold work. rewrite get_pc_set, get_obj_set.
    cbn [waitForParent_commit ro_last_played work_at]. fold (last_of s x). fold (L s x). lia.
  - destruct (Z.ltb_spec (ro_last_played (get_obj s p)) e); apply Ok_inj in E as <-.
    + right. split; [by constructor|]. by rewrite (work_moved s _ x (RAssert p e)) by (done || apply get_pc_set).
    + left. rewrite work_played by done. cbn [work_at]. lia.
  - destruct (ro_recovering _); [|done]. apply Ok_inj in E as <-. right. split; [constructor|].
    by rewrite (work_moved s _ x (RWait p e)) by (done || apply get_pc_set).
  - apply Ok_inj in E as <-. right. split; [constructor|]. done.
Qed.

Lemma work_mono s x s' y : rinv s -> recovery_step recs s x = Ok s' -> (work recs s' y <= work recs s y)%nat.
Proof.
  intros Hi E. destruct (decide (y = x)) as [->|Hne].
  - destruct (step_work _ _ _ Hi E) as [?|[_ ->]]; lia.
  - destruct (step_only _ _ _ E y Hne) as (Eo & Ep & _). unfold work. by rewrite Eo, Ep.
Qed.

(** Calls that are recorded everywhere, and the first that is not. *)
Lemma commits_pred j o n : commits H j o = S n -> exists j' c', (j' < j)%nat /\ H !! j' = Some c' /\ o ∈ c' /\ commits H j' o = n.
Proof.
  revert n. induction j as [|j IH]; intros n E; [done|]. destruct (H !! j) as [c|] eqn:Hj.
  - rewrite (commits_S _ _ _ Hj) in E. destruct (decide (o ∈ c)).
    + exists j, c. repeat split; try done; lia.
    + destruct (IH n) as (j' & c' & ? & ?); [lia|]. exists j', c'. split; [lia|done].
  - apply lookup_ge_None in Hj. destruct (IH n) as (j' & c' & ? & ?).
    { unfold commits in *. rewrite !take_ge in * by lia. done. }
    exists j', c'. split; [lia|done].
Qed.

Definition absorbed (s : rsys) (j : nat) : Prop :=
  match H !! j with Some c => Forall (fun o => (commits H j o < L s o)%nat) c | None => True end.
#[local] Instance absorbed_dec s j : Decision (absorbed s j).
Proof. unfold absorbed. destruct (H !! j); apply _. Defined.

Lemma first_open s :
  (forall j, (j < length H)%nat -> absorbed s j) \/
  exists j c i o, H !! j = Some c /\ c !! i = Some o /\ (L s o <= commits H j o)%nat /\
    (forall i' p, (i' < i)%nat -> c !! i' = Some p -> (commits H j p < L s p)%nat) /\
    (forall q, (commits H j q <= L s q)%nat).
Proof.
  destruct (list_find (fun j => ~ absorbed s j) (seq 0 (length H))) as [[j0 j]|] eqn:Ef.
  - right. apply list_find_Some in Ef as (Hj0 & Hna & Hbefore). apply lookup_seq in Hj0 as [-> Hlt]. cbn [Nat.add] in *.
    destruct (lookup_lt_is_Some_2 H j0 Hlt) as [c Hj].
    assert (Hna2 : ~ Forall (fun o => (commits H j0 o < L s o)%nat) c) by (intros Hf; apply Hna; unfold absorbed, history in *; by rewrite Hj).
    destruct (list_find (fun o => (L s o <= commits H j0 o)%nat) c) as [[i o]|] eqn:Eo.
    + apply list_find_Some in Eo as (Hio & Hle & Hmin). exists j0, c, i, o. split; [done|]. split; [done|]. split; [done|]. split.
      * intros i' p Hlt' Hp. specialize (Hmin i' p Hp Hlt'). lia.
      * intros q. destruct (commits H j0 q) as [|n] eqn:Eq; [lia|].
        destruct (commits_pred _ _ _ Eq) as (j' & c' & Hjj & Hj' & Hq & <-).
        assert (Ha : absorbed s j').
        { destruct (decide (absorbed s j')) as [?|Hn']; [done|exfalso].
          apply (Hbefore j' j'); [apply lookup_seq; lia|done|done]. }
        unfold absorbed in Ha. rewrite Hj' in Ha. rewrite Forall_forall in Ha. specialize (Ha q Hq). lia.
    + exfalso. apply Hna2. apply list_find_None in Eo. eapply Forall_impl; [exact Eo|]. intros o Ho. cbn in Ho. lia.
  - left. intros j Hj. apply list_find_None in Ef. rewrite Forall_forall in Ef.
    destruct (decide (absorbed s j)) as [?|Hn]; [done|]. exfalso. apply (Ef j); [apply elem_of_seq; lia|done].
Qed.

(** A thread that has not finished and stands at entry [j]: where it is. *)
Lemma stands_root s j c x :
  rinv s -> H !! j = Some c -> c !! O = Some x -> commits H j x = L s x ->
  get_pc s x = RNext \/ (exists todo, get_pc s x = RRun todo) \/
  exists k o todo, plays s x j c k /\ c !! k = Some o /\
    (get_pc s x = RSpin (slot_at c k) o todo \/ exists p, slot_at c k = Some p /\ get_pc s x = RTest p o todo).
Proof.
  intros Hi Hj Hx Hl. pose proof (ri_pc _ Hi x) as Hpc. unfold pc_ok in Hpc.
  pose proof (entries_lookup _ _ _ _ Hj (record_root _ _ _ Hj Hx)) as He. rewrite Hl in He.
  assert (Hsame : forall j' c' k, plays s x j' c' k -> j' = j /\ c' = c).
  { intros j' c' k (Hj' & Hx' & Hl' & _). apply (commits_inj j' j c' c x);
      [done|by eapply list_elem_of_lookup_2|done|by eapply list_elem_of_lookup_2|lia]. }
  destruct (get_pc s x) as [|todo|parent o todo|p o todo|p e|p e|p e|] eqn:Epc.
  - by left.
  - right; left. eauto.
  - right; right. destruct Hpc as (j' & c' & k & Hp & Hk & _ & -> & _). destruct (Hsame _ _ _ Hp) as [-> ->].
    exists k, o, todo. auto.
  - right; right. destruct Hpc as (j' & c' & k & Hp & Hk & _ & Hpar & _). destruct (Hsame _ _ _ Hp) as [-> ->].
    exists k, o, todo. eauto 6.
  - destruct Hpc as (_ & E & _). by rewrite He in E.
  - destruct Hpc as (_ & E & _). by rewrite He in E.
  - destruct Hpc as (_ & E & _). by rewrite He in E.
  - destruct Hpc as (_ & E). by rewrite He in E.
Qed.

Lemma stands_nested s j c i p o :
  rinv s -> H !! j = Some c -> c !! i = Some p -> c !! S i = Some o -> commits H j o = L s o ->
  get_pc s o = RNext \/ waiting s o p (Z.of_nat (commits H (S j) p)).
Proof.
  intros Hi Hj Hp Ho Hl. pose proof (ri_pc _ Hi o) as Hpc. unfold pc_ok in Hpc.
  pose proof (entries_lookup _ _ _ _ Hj (record_nested _ _ _ _ _ Hj Hp Ho)) as He. rewrite Hl in He.
  assert (Hno : forall j' c' k, ~ plays s o j' c' k).
  { intros j' c' k (Hj' & Hx' & Hl' & _). pose proof (entries_lookup _ _ _ _ Hj' (record_root _ _ _ Hj' Hx')) as He'.
    by rewrite Hl', He in He'. }
  unfold waiting. destruct (get_pc s o) as [|todo|parent q todo|q r todo|q e|q e|q e|] eqn:Epc; [by left|..].
  - destruct Hpc as (j' & c' & k & Hpl & _). by destruct (Hno _ _ _ Hpl).
  - destruct Hpc as (j' & c' & k & Hpl & _). by destruct (Hno _ _ _ Hpl).
  - destruct Hpc as (j' & c' & k & Hpl & _). by destruct (Hno _ _ _ Hpl).
  - destruct Hpc as (_ & E & _). rewrite He in E. injection E as <- <-. auto.
  - destruct Hpc as (_ & E & _). rewrite He in E. injection E as <- <-. auto.
  - destruct Hpc as (_ & E & _). rewrite He in E. injection E as <- <-. auto.
  - destruct Hpc as (_ & E). by rewrite He in E.
Qed.

Lemma advance_one s x : rinv s -> ~ idle s (get_pc s x) -> advances recs s x.
Proof.
  intros Hi Hn. destruct (recovery_step_inv s x Hi) as [(s' & E & _)|(p & e & Epc & _ & _)].
  - exists 1%nat, s'. split; [lia|]. split; [cbn; by rewrite E|].
    destruct (step_work _ _ _ Hi E) as [?|[Hid _]]; [done|by destruct Hn].
  - exfalso. apply Hn. rewrite Epc. constructor.
Qed.

(** A step after which the thread is not idle. *)
Lemma advance_two s x s1 :
  rinv s -> recovery_step recs s x = Ok s1 -> ~ idle s1 (get_pc s1 x) -> advances recs s x.
Proof.
  intros Hi E1 Hn. destruct (recovery_step_inv s x Hi) as [(s1' & E1' & Hi1)|(p & e & _ & _ & E1')]; [|congruence].
  assert (s1' = s1) as -> by congruence. pose proof (work_mono _ _ _ x Hi E1) as Hw.
  destruct (recovery_step_inv s1 x Hi1) as [(s2 & E2 & _)|(p & e & Epc & _ & _)].
  - exists 2%nat, s2. split; [lia|]. split; [cbn; rewrite E1; cbn; by rewrite E2|].
    destruct (step_work _ _ _ Hi1 E2) as [?|[Hid _]]; [lia|by destruct Hn].
  - exfalso. apply Hn. rewrite Epc. constructor.
Qed.

(** A thread whose parent's entry is played leaves its loop, or fails the
    assertion. *)
Lemma advance_waiting s x p e :
  rinv s -> waiting s x p e -> e <= last_of s p -> advances recs s x \/ recovery_step recs s x = AssertFail.
Proof.
  intros Hi [Epc|[Epc|Epc]] Hle.
  - left. apply advance_one; [done|]. rewrite Epc. intros Hid. inversion Hid.
  - left. apply advance_one; [done|]. rewrite Epc. intros Hid. inversion Hid. lia.
  - destruct (ro_recovering (get_obj s p)) eqn:Er; [left|right; unfold recovery_step; by rewrite Epc, Er].
    apply (advance_two s x (set_pc s x (RWait p e)) Hi); [unfold recovery_step; by rewrite Epc, Er|].
    rewrite get_pc_set. intros Hid. inversion Hid as [| | |p0 e0 Hlt|].
    change (last_of (set_pc s x (RWait p e)) p) with (last_of s p) in Hlt. lia.
Qed.

Lemma next_advances s x : rinv s -> get_pc s x = RNext -> advances recs s x.
Proof. intros Hi Epc. apply advance_one; [done|]. rewrite Epc. intros Hid. inversion Hid. Qed.

(** A call whose next object waits for it goes on. *)
Lemma caller_advances s x j c k p o todo :
  rinv s -> plays s x j c (S k) -> c !! k = Some p -> waiting s o p (Z.of_nat (commits H (S j) p)) ->
  get_pc s x = RSpin (Some p) o todo \/ get_pc s x = RTest p o todo ->
  exists y, advances recs s y.
Proof.
  intros Hi Hpl Hp [Eo|Hw] Epc; [exists o; apply advance_one; [done|]; rewrite Eo; intros Hid; inversion Hid|]. exists x.
  assert (isWaitingForParent_object (get_obj s o) p = true /\ isWaitingForParent_commit (get_obj s o) (last_of s p) = true)
    as [E1 E2].
  { pose proof (ri_pc _ Hi o) as Hpc. unfold pc_ok in Hpc. pose proof (caller_stands _ _ _ _ _ _ Hpl Hp) as Hlp.
    destruct Hpl as (Hj & _). rewrite (commits_in _ _ _ Hj), Hlp in Hw by (by eapply list_elem_of_lookup_2).
    unfold isWaitingForParent_object, isWaitingForParent_commit. rewrite (next_commit _ _ Hi).
    destruct Hw as [E|E]; rewrite E in Hpc; destruct Hpc as (_ & _ & -> & ->); by rewrite bool_decide_true, Z.eqb_refl. }
  destruct Epc as [Epc|Epc].
  - apply (advance_two s x (set_pc s x (RTest p o todo)) Hi); [unfold recovery_step; by rewrite Epc, E1|].
    rewrite get_pc_set. intros Hid. inversion Hid as [| |p0 o0 t0 Ht| |].
    change (isWaitingForParent_commit (get_obj s o) (last_of s p) = false) in Ht. congruence.
  - apply advance_one; [done|]. rewrite Epc. intros Hid. inversion Hid. congruence.
Qed.

(** The first call that is not recorded everywhere can be moved on. *)
Lemma root_advances s j c x :
  rinv s -> H !! j = Some c -> c !! O = Some x -> (L s x <= commits H j x)%nat -> (forall q, (commits H j q <= L s q)%nat) ->
  exists y, advances recs s y.
Proof.
  intros Hi Hj Hx Hle Hall. pose proof (Hall x). assert (Hl : commits H j x = L s x) by lia.
  assert (Heq : forall i o, c !! i = Some o -> commits H j o = L s o).
  { intros i o Ho. pose proof (not_played _ _ _ _ _ _ Hi Hj Hx Hle Ho). specialize (Hall o). lia. }
  destruct (stands_root _ _ _ _ Hi Hj Hx Hl) as [Epc|[[todo Epc]|(k & o & todo & Hp & Hk & Epc)]].
  - exists x. by apply next_advances.
  - exists x. apply advance_one; [done|]. rewrite Epc. intros Hid. inversion Hid.
  - apply lookup_lt_Some in Hk as Hkl. destruct k as [|k].
    { exists x. destruct Epc as [Epc|(p & ? & _)]; [|done]. apply advance_one; [done|]. rewrite Epc. intros Hid. inversion Hid. }
    destruct (lookup_lt_is_Some_2 c k) as [p Hpk]; [lia|]. cbn [slot_at] in Epc. rewrite (proj2 (Nat.leb_le _ _)), Hpk in Epc by lia.
    destruct (stands_nested s j c k p o Hi Hj Hpk Hk (Heq _ _ Hk)) as [En|Hw].
    + exists o. by apply next_advances.
    + apply (caller_advances s x j c k p o todo); try done. destruct Epc as [?|(q & [= <-] & ?)]; auto.
Qed.

Lemma recovery_progresses s :
  rinv s -> all_recovered H s \/ (exists x, advances recs s x) \/ (exists x, recovery_step recs s x = AssertFail).
Proof.
  intros Hi. destruct (first_open s) as [Habs|(j & c & i & o & Hj & Ho & Hle & Hmin & Hall)].
  - destruct (decide (all_recovered H s)) as [|Hnot]; [by left|right; left]. unfold all_recovered in Hnot.
    apply not_Forall_Exists in Hnot; [|apply _]. apply Exists_exists in Hnot as (c & Hc & Hnot).
    apply not_Forall_Exists in Hnot; [|apply _]. apply Exists_exists in Hnot as (x & Hx & Hnd).
    assert (Hend : forall j c', H !! j = Some c' -> x ∈ c' -> commits H j x <> L s x).
    { intros j c' Hj Hx'. pose proof (Habs j ltac:(by eapply lookup_lt_Some)) as Ha. unfold absorbed, history in *.
      rewrite Hj in Ha. rewrite Forall_forall in Ha. specialize (Ha x Hx'). lia. }
    assert (Hnone : entries_of H x !! L s x = None).
    { destruct (entries_of H x !! L s x) as [r|] eqn:E; [|done]. apply entries_inv in E as (j & c' & Hj & Hx' & Hl & _).
      by destruct (Hend j c' Hj Hx'). }
    exists x. apply next_advances; [done|]. pose proof (ri_pc _ Hi x) as Hpc. unfold pc_ok in Hpc.
    destruct (get_pc s x) as [|todo|parent o todo|p o todo|p e|p e|p e|] eqn:Epc; try done.
    + destruct Hpc as (j & c' & k & (Hj & Hx' & Hl & _) & _). destruct (Hend j c' Hj); [by eapply list_elem_of_lookup_2|done].
    + destruct Hpc as (j & c' & k & (Hj & Hx' & Hl & _) & _). destruct (Hend j c' Hj); [by eapply list_elem_of_lookup_2|done].
    + destruct Hpc as (j & c' & k & (Hj & Hx' & Hl & _) & _). destruct (Hend j c' Hj); [by eapply list_elem_of_lookup_2|done].
    + destruct Hpc as (_ & E & _). by rewrite Hnone in E.
    + destruct Hpc as (_ & E & _). by rewrite Hnone in E.
    + destruct Hpc as (_ & E & _). by rewrite Hnone in E.
  - right. pose proof (Hall o). destruct i as [|i]; [left; by eapply root_advances|].
    destruct (lookup_lt_is_Some_2 c i) as [p Hp]; [apply lookup_lt_Some in Ho; lia|].
    destruct (stands_nested s j c i p o Hi Hj Hp Ho ltac:(lia)) as [En|Hw]; [left; exists o; by apply next_advances|].
    specialize (Hmin i p ltac:(lia) Hp). rewrite (commits_in _ _ _ Hj) in Hw by (by eapply list_elem_of_lookup_2).
    destruct (advance_waiting s o p _ Hi Hw) as [?|?]; [rewrite (last_L _ _ Hi); lia|left; eauto|right; eauto].
Qed.

End history.

(** [C10] Recovery of nested calls is serial.  Take a history in which each
    call runs through a chain of different objects ([history_ok]: no object
    is entered again before it is left, and fewer than 2^64 - 1 calls), and
    in which no announcement can be taken for another ([unambiguous]: before a
    later call of [p] on [o], made inside entry [e] of [p], no other object
    calls [o] inside its own entry number [e]).  Recover all objects at once,
    with any interleaving of the threads' accesses to the shared fields; the
    two writes of waitForParent and the two tests of isWaitingForParent are
    separate steps.  At every moment each object has gone through a prefix of
    its calls in the history, in commit order, each left before the next is
    entered; when all threads have finished it has gone through all of them.
    Without the second condition this fails ([torn_test_breaks_order]). *)
Theorem nested_replay_serial H s :
  history_ok H -> unambiguous H -> recovering_from (entries_of H) s ->
  forall o, events_of o (rs_trace s) `prefix_of` serial_events H o /\
    (all_recovered H s -> events_of o (rs_trace s) = serial_events H o).
Proof.
  intros Hok Hun Hr o. pose proof (recovering_inv H Hok Hun s Hr) as Hi.
  split; [by apply events_prefix|by apply events_complete].
Qed.


(** ** Concrete recoveries *)

(** Two objects call a third one in turn, then a call runs through all. *)
Definition demo_nested : history := [[1; 2]; [3; 2]; [1; 2; 3]].
Definition demo_schedule : list Z := concat (replicate 40 [2; 3; 1]).

Lemma demo_history_ok : history_ok demo_nested.
Proof.
  split; [|by vm_compute].
  apply (bool_decide_eq_true (Forall (fun c => c <> [] /\ NoDup c) demo_nested)). by vm_compute.
Qed.

Lemma demo_unambiguous : unambiguous demo_nested.
Proof.
  intros o n0 n1 n2 p p' e0 e Hn0 Hn1 E0 E1 E2.
  assert (Ho : o = 1 \/ o = 2 \/ o = 3).
  { apply (entries_inv _ demo_history_ok) in E2 as (j & c & Hj & Hoc & _).
    destruct j as [|[|[|j]]]; [..|done]; injection Hj as <-; rewrite !elem_of_cons, elem_of_nil in Hoc; tauto. }
  assert (Hl : entries_of demo_nested o =
    if o =? 1 then [Own (body [1; 2]); Own (body [1; 2; 3])]
    else if o =? 2 then [Nested 1 1; Nested 3 1; Nested 1 2] else [Own (body [3; 2]); Nested 2 3])
    by (by destruct Ho as [->|[->| ->]]; vm_compute).
  rewrite Hl in E0, E1, E2. destruct Ho as [->|[->| ->]]; cbn in *;
    destruct n2 as [|[|[|n2]]], n0 as [|[|[|n0]]], n1 as [|[|[|n1]]]; cbn in *; simplify_eq; lia.
Qed.

Lemma nested_replay_serial_witness :
  exists s, all_recovered demo_nested s /\
    events_of 2 (rs_trace s) = [Ev true 1 1 2; Ev false 1 1 2; Ev true 3 1 2; Ev false 3 1 2; Ev true 1 2 2; Ev false 1 2 2].
Proof.
  destruct (rplay (entries_of demo_nested) demo_schedule rs_init) as [s| | |] eqn:E; [|by vm_compute in E..].
  assert (Hr : recovering_from (entries_of demo_nested) s) by (eapply rplay_rtc; exact E).
  exists s. vm_compute in E. apply Ok_inj in E.
  assert (Ha : all_recovered demo_nested s) by (unfold all_recovered, demo_nested; rewrite <- E; by repeat constructor).
  split; [done|]. rewrite (proj2 (nested_replay_serial _ s demo_history_ok demo_unambiguous Hr 2) Ha). by vm_compute.
Defined.


(** The two fields that [isWaitingForParent] compares are not read together.
    If the object moves on to its next entry in between, the stale parent and
    the new commit number can match: object 1 then enters object 2 for its
    second call before object 3 has made the call that comes first. *)
Lemma torn_test_breaks_order :
  exists s, recovering_from (entries_of [[3]; [1; 2]; [3; 2]; [1; 2]]) s /\
    events_of 2 (rs_trace s) = [Ev true 1 1 2; Ev false 1 1 2; Ev true 1 2 2] /\
    serial_events [[3]; [1; 2]; [3; 2]; [1; 2]] 2 =
      [Ev true 1 1 2; Ev false 1 1 2; Ev true 3 2 2; Ev false 3 2 2; Ev true 1 2 2; Ev false 1 2 2].
Proof.
  destruct (rplay (entries_of [[3]; [1; 2]; [3; 2]; [1; 2]]) (replicate 6 3 ++ [2; 2] ++ replicate 14 1 ++ [2; 2; 2; 1]) rs_init)
    as [s| | |] eqn:E; [|by vm_compute in E..].
  exists s. split; [eapply rplay_rtc; exact E|]. vm_compute in E. apply Ok_inj in E as <-. by vm_compute.
Qed.

(** The waiting loop reads the commit number of the parent before it asserts
    that the parent is recovering: the parent may finish in between. *)
Lemma waiting_assertion_race :
  exists s, recovering_from (entries_of [[1; 2]]) s /\ recovery_step (entries_of [[1; 2]]) s 2 = AssertFail.
Proof.
  destruct (rplay (entries_of [[1; 2]]) ([2; 2] ++ replicate 5 1 ++ [2] ++ replicate 5 1) rs_init) as [s| | |] eqn:E; [|by vm_compute in E..].
  exists s. split; [eapply rplay_rtc; exact E|]. vm_compute in E. apply Ok_inj in E as <-. by vm_compute.
Qed.

(** [Savitar_thread_wait] clears the parent of the thread, so that a second
    nested call of a method is not synchronised: object 1 calls 2 and then 3,
    and enters 3 although 3 has not played its first entry. *)
Definition two_children (o : Z) : list record :=
  if o =? 1 then [Own [ANotify 1; ANotify 2; AWait 2; ANotify 3; AWait 3; AWait 1]]
  else if o =? 2 then [Nested 1 1]
  else if o =? 3 then [Own [ANotify 3; AWait 3]; Nested 1 1] else [].

Lemma second_child_unsynchronised :
  exists s, recovering_from two_children s /\ last_of s 3 = 0 /\ events_of 3 (rs_trace s) = [Ev true 1 1 3; Ev false 1 1 3].
Proof.
  destruct (rplay two_children ([2; 2] ++ replicate 10 1) rs_init) as [s| | |] eqn:E; [|by vm_compute in E..].
  exists s. split; [eapply rplay_rtc; exact E|]. vm_compute in E. apply Ok_inj in E as <-. by vm_compute.
Qed.
