(* ===== verification/Factories.v ===== *)
(** * Construction of the persistent containers

    The constructors and factories of the five classes of
    benchmark/persistent with the memory they take: a new allocator for the
    object, a chunk for the object itself and one for every container inside
    it.  Manager.v leaves the memory out; [Factory_refines] shows that the
    factories here do to the manager, the files and the catalog what
    [Manager.Factory] does. *)

From stdpp Require Import base numbers list gmap strings.
From S2P Require Import Prelude Pmem Savitar NvLog Recover Containers Catalog Bitmap Heap GlobalAlloc ObjectAlloc GlobalAllocProofs ObjectAllocProofs Manager.

Section Factories.
Context {P : Type} `{PmemOps P} `{Uuid}.
Variable mmap_at : Z -> Z -> bool.
(** The number of cores allocators are made for, and the calling thread. *)
Variable cores self : Z.

Record cworld := CWorld { cw_world : @world P; cw_heap : galloc; cw_table : atable }.

(** A class: its identifier, its size and the sizes of what its constructor
    allocates, in order. *)
Record container := Container { cc_classID : Z; cc_sizeof : Z; cc_parts : list Z }.

(** [alloc->alloc(size)] with the allocator at an address. *)
Definition alloc_on (c : cworld) (a size : Z) : res (cworld * Z) :=
  match at_objects (cw_table c) !! a with
  | None => Segfault
  | Some o =>
      let* (g, o, ptr) := oa_alloc mmap_at (cw_heap c) o self size in
      let t := cw_table c in
      Ok (CWorld (cw_world c) g
            (ATable (<[a := o]> (at_objects t)) (ObjectAlloc.allocators t) (allocatorsMemory t) (sizeof_ObjectAlloc t)), ptr)
  end.

Fixpoint alloc_parts (c : cworld) (a : Z) (sizes : list Z) : res (cworld * list Z) :=
  match sizes with
  | [] => Ok (c, [])
  | size :: sizes =>
      let* (c, p) := alloc_on c a size in
      let* (c, ps) := alloc_parts c a sizes in
      Ok (c, p :: ps)
  end.

(** The constructor of a class: [PersistentObject(id)], then the containers,
    from the allocator that [findAllocator] finds. *)
Definition container_new (k : container) (c : cworld) (id : list Z) (vtable last : Z) : res (cworld * pobject * list Z) :=
  match findAllocator (cw_table c) id with
  | None => AssertFail
  | Some a =>
      let* (w, o) := PersistentObject_constructor (cw_world c) id vtable last None in
      let* (c, parts) := alloc_parts (CWorld w (cw_heap c) (cw_table c)) a (cc_parts k) in
      Ok (c, o, parts)
  end.

(** [BaseFactory]: also the addresses of the object and of its parts. *)
Definition container_BaseFactory (k : container) (c : cworld) (id : list Z) (vtable last : Z)
  : res (cworld * pobject * (Z * list Z)) :=
  let '(t, a) := newAllocator (cw_table c) id cores in
  let w := cw_world c in
  let w := World (files w) (objects w) ({[uuid_unparse id]} ∪ allocators w) (factory w) (program_threads w) in
  let* (c, temp) := alloc_on (CWorld w (cw_heap c) t) a (cc_sizeof k) in
  let* (c, o, parts) := container_new k c id vtable last in
  Ok (c, o, (temp, parts)).

(** [RecoveryFactory]: the identifier comes from the catalog entry. *)
Definition container_RecoveryFactory (k : container) (c : cworld) (cat : P) (entry vtable last : Z)
  : res (cworld * pobject * (Z * list Z)) :=
  container_BaseFactory k c (rd_bytes (pm_load cat) entry 16) vtable last.

(** [Factory]; the addresses are those of a new object. *)
Definition container_Factory (k : container) (c : cworld) (id : list Z) (vtable last : Z)
  : res (cworld * pobject * option (Z * list Z)) :=
  let* (w, r) := findRecovered (cw_world c) id in
  match r with
  | Some o => Ok (CWorld w (cw_heap c) (cw_table c), o, None)
  | None =>
      let* (c, o, mem) := container_BaseFactory k (CWorld w (cw_heap c) (cw_table c)) id vtable last in
      let* w := createNew (cw_world c) (cc_classID k) o in
      Ok (CWorld w (cw_heap c) (cw_table c), set_assigned o true, Some mem)
  end.

(** The classes, for sizes of the compiler's choice: [sizeof_X] of the class
    and of the containers of the standard library. *)
Definition vector_class (sizeof_PersistentVector sizeof_vector : Z) : container :=
  Container PersistentVector.classID sizeof_PersistentVector [sizeof_vector].
Definition map_class (sizeof_PersistentOrderedMap sizeof_map : Z) : container :=
  Container PersistentOrderedMap.classID sizeof_PersistentOrderedMap [sizeof_map].
Definition unordered_map_class (sizeof_PersistentMap sizeof_MapType : Z) : container :=
  Container PersistentMap.classID sizeof_PersistentMap [sizeof_MapType].
Definition hash_map_class (classID sizeof_PersistentHashMap sizeof_MapType : Z) : container :=
  Container classID sizeof_PersistentHashMap (replicate (Z.to_nat PersistentHashMap.Buckets) sizeof_MapType).
Definition priority_queue_class (sizeof_PersistentPriorityQueue sizeof_VectorType sizeof_QueueType : Z) : container :=
  Container PersistentPriorityQueue.classID sizeof_PersistentPriorityQueue [sizeof_VectorType; sizeof_QueueType].

(** ** Proofs *)

(** The manager's view of the allocators is their table. *)
Definition consistent (c : cworld) : Prop := allocators (cw_world c) = dom (ObjectAlloc.allocators (cw_table c)).

Lemma alloc_on_world c a size c' p : alloc_on c a size = Ok (c', p) ->
  cw_world c' = cw_world c /\ ObjectAlloc.allocators (cw_table c') = ObjectAlloc.allocators (cw_table c).
Proof.
  unfold alloc_on. destruct (at_objects (cw_table c) !! a) as [o|]; [|done]. intros Hr. res_inv Hr.
  destruct r as [[g o'] ptr]. by simplify_eq.
Qed.
Lemma alloc_parts_world c a sizes c' ps : alloc_parts c a sizes = Ok (c', ps) ->
  cw_world c' = cw_world c /\ ObjectAlloc.allocators (cw_table c') = ObjectAlloc.allocators (cw_table c) /\ length ps = length sizes.
Proof.
  revert c c' ps. induction sizes as [|size sizes IH]; intros c c' ps Hr; cbn in Hr; [by simplify_eq|].
  res_inv Hr. destruct r as [c1 p]. res_inv Hr. destruct r as [c2 ps']. simplify_eq.
  apply alloc_on_world in Hr0 as [E1 E2]. apply IH in Hr1 as (E3 & E4 & E5). cbn. split_and!; congruence.
Qed.

Lemma container_new_world k c id vtable last c' o ps : container_new k c id vtable last = Ok (c', o, ps) ->
  PersistentObject_constructor (cw_world c) id vtable last None = Ok (cw_world c', o) /\
  ObjectAlloc.allocators (cw_table c') = ObjectAlloc.allocators (cw_table c) /\ length ps = length (cc_parts k).
Proof.
  unfold container_new. destruct (findAllocator (cw_table c) id) as [a|]; [|done]. intros Hr. res_inv Hr. destruct r as [w o'].
  res_inv Hr. destruct r as [c1 ps']. simplify_eq. apply alloc_parts_world in Hr1 as (E1 & E2 & E3). cbn in *. by rewrite E1.
Qed.

Lemma dom_map_insert {V} (m : gmap string V) k v : dom (map_insert m k v) = {[k]} ∪ dom m.
Proof.
  unfold map_insert. destruct (m !! k) as [v'|] eqn:E; [|by rewrite dom_insert_L].
  assert (k ∈ dom m) by (by apply elem_of_dom_2 in E). set_solver.
Qed.

Lemma BaseFactory_refines k c id vtable last c' o mem : consistent c ->
  container_BaseFactory k c id vtable last = Ok (c', o, mem) ->
  BaseFactory (cw_world c) id vtable last None = Ok (cw_world c', o) /\ consistent c' /\
  is_Some (findAllocator (cw_table c') id) /\ length mem.2 = length (cc_parts k).
Proof.
  intros Hc Hr. unfold container_BaseFactory in Hr. cbn [newAllocator] in Hr. res_inv Hr. destruct r as [c1 temp].
  res_inv Hr. destruct r as [[c2 o2] ps]. simplify_eq. apply alloc_on_world in Hr0 as [E1 E2].
  apply container_new_world in Hr1 as (E3 & E4 & E5). cbn in E1, E2. rewrite E1 in E3. split; [exact E3|].
  assert (Hw : allocators (cw_world c') = {[uuid_unparse id]} ∪ allocators (cw_world c)).
  { unfold PersistentObject_constructor in E3. res_inv E3. res_inv E3. res_inv E3. injection E3 as Ew _. by rewrite <- Ew. }
  assert (Ht : dom (ObjectAlloc.allocators (cw_table c')) = {[uuid_unparse id]} ∪ allocators (cw_world c)).
  { rewrite E4, E2, dom_map_insert. by rewrite Hc. }
  split; [unfold consistent; congruence|]. split; [|done].
  unfold findAllocator. apply elem_of_dom. rewrite Ht. set_solver.
Qed.

(** The factory of a class, with its memory, does to the manager what
    [Manager.Factory] does; every allocator the manager knows stays in the
    table, and a new object has one with a chunk for each of its parts. *)
Theorem Factory_refines k c id vtable last c' o mem : consistent c ->
  container_Factory k c id vtable last = Ok (c', o, mem) ->
  Factory (cw_world c) (cc_classID k) vtable id last = Ok (cw_world c', o) /\ consistent c' /\
  match mem with
  | Some (_, parts) => is_Some (findAllocator (cw_table c') id) /\ length parts = length (cc_parts k)
  | None => cw_heap c' = cw_heap c /\ cw_table c' = cw_table c
  end.
Proof.
  intros Hc Hr. unfold container_Factory in Hr. res_inv Hr. destruct r as [w r]. unfold Factory. rewrite Hr0. cbn [res_bind snd fst].
  assert (Hw : allocators w = allocators (cw_world c)).
  { unfold findRecovered in Hr0. destruct (objects (cw_world c) !! _) as [o'|]; [res_inv Hr0|]; by simplify_eq. }
  destruct r as [o'|]; [simplify_eq; split; [done|]; split; [unfold consistent; cbn; congruence|done]|].
  res_inv Hr. destruct r as [[c1 o1] mem1]. res_inv Hr. simplify_eq.
  apply BaseFactory_refines in Hr1 as (E1 & E2 & E3 & E4); [|unfold consistent; cbn; congruence].
  cbn [cw_world] in E1. rewrite E1. cbn [res_bind fst snd]. rewrite Hr2. cbn [res_bind].
  assert (Hw' : allocators r = allocators (cw_world c1)).
  { unfold createNew in Hr2. destruct (files (cw_world c1) !! _) as [cat|]; [|done]. res_inv Hr2. res_inv Hr2. by simplify_eq. }
  split; [done|]. split; [unfold consistent in *; cbn; congruence|]. destruct mem1 as [temp parts]. done.
Qed.
End Factories.

(** ** Concrete instances *)

Definition demo_cworld : @cworld CacheMem.t := CWorld demo_world demo_galloc (ATable ∅ ∅ 4096 128).

(** A new vector: the object is at the front of a block and the vector inside
    it in the last 64 bytes. *)
Example vector_Factory_memory :
  (let* (c, o, mem) := container_Factory demo_mmap 2 7 (vector_class 200 32) demo_cworld demo_id 77 0 in
   match mem with Some (p, [q]) => Ok (q - p) | _ => AssertFail end) = Ok (BlockSize - 64).
Proof. vm_compute. reflexivity. Qed.

Lemma Factory_refines_demo :
  exists c o mem, container_Factory demo_mmap 2 7 (vector_class 200 32) demo_cworld demo_id 77 0 = Ok (c, o, mem) /\
    Factory demo_world 1 77 demo_id 0 = Ok (cw_world c, o).
Proof.
  pose (dflt := (demo_cworld, demo_object, None : option (Z * list Z))).
  pose (r := res_get dflt (container_Factory demo_mmap 2 7 (vector_class 200 32) demo_cworld demo_id 77 0)).
  assert (Hr : container_Factory demo_mmap 2 7 (vector_class 200 32) demo_cworld demo_id 77 0 = Ok (fst (fst r), snd (fst r), snd r))
    by (vm_compute; reflexivity).
  clearbody r. clear dflt. destruct r as [[c o] mem]. cbn [fst snd] in Hr.
  assert (Hc : consistent demo_cworld) by (unfold consistent; cbn; by rewrite dom_empty_L).
  destruct (Factory_refines demo_mmap 2 7 (vector_class 200 32) demo_cworld demo_id 77 0 c o mem Hc Hr) as [HF _].
  exists c, o, mem. split; [exact Hr|exact HF].
Qed.
