(* ===== verification/KvTree.v ===== *)
(** * The key-value store of the experiments (motivation/pmemkv-0.3x-volatile)

    The copy of PMemKV that was changed to run without logging: the engine
    [kvtree2], a B+ tree whose inner nodes and key copies are volatile and
    whose leaves live in a pool, and the interface in front of it.

    A tree owns its nodes ([unique_ptr]), so it is a value of [node]; raw
    pointers into it ([parent], the result of [LeafSearch]) are node
    addresses, and following one means finding the node of that address on
    the path from the top ([crumb]s), with [Segfault] if it is not there.
    The buffer of a slot has one owner too and is kept in it ([kvptr]).
    Arrays of keys and children hold the first [keycount] entries only; the
    others are never read.  The pool decides which allocations succeed
    ([can_alloc]); [make_persistent] gives zeroed memory or throws, which is
    the [None] of the results. *)

From stdpp Require Import base numbers list gmap.
From S2P Require Import Prelude Containers.

Definition INNER_KEYS : nat := 4.
Definition INNER_KEYS_MIDPOINT : nat := 2.
Definition INNER_KEYS_UPPER : nat := 3.
Definition LEAF_KEYS : nat := 48.
Definition LEAF_KEYS_MIDPOINT : nat := 24.

Inductive KVStatus := FAILED | NOT_FOUND | OK.

(** ** Strings *)

(** [std::string::compare]; bytes compare as unsigned characters. *)
Fixpoint compare_bytes (a b : list Z) : comparison :=
  match a, b with
  | [], [] => Eq
  | [], _ :: _ => Lt
  | _ :: _, [] => Gt
  | x :: a, y :: b => match x ?= y with Eq => compare_bytes a b | c => c end
  end.

(** [strcmp] on the [c_str()] of two strings. *)
Definition strcmp (a b : list Z) : comparison := compare_bytes (c_str a) (c_str b).

Definition is_le (c : comparison) : bool := match c with Gt => false | _ => true end.
Definition is_lt (c : comparison) : bool := match c with Lt => true | _ => false end.
Definition is_gt (c : comparison) : bool := match c with Gt => true | _ => false end.
Definition is_eq (c : comparison) : bool := match c with Eq => true | _ => false end.

(** [std::sort] and [std::list::sort] with the comparison [lt]. *)
Fixpoint insert_by {A} (lt : A -> A -> bool) (x : A) (l : list A) : list A :=
  match l with
  | [] => [x]
  | y :: l' => if lt y x then y :: insert_by lt x l' else x :: l
  end.
Definition sort_by {A} (lt : A -> A -> bool) (l : list A) : list A := foldr (insert_by lt) [] l.

(** ** Pearson hash *)

Definition PEARSON_LOOKUP_TABLE : list Z :=
  [251; 175; 119; 215; 81; 14; 79; 191; 103; 49; 181; 143; 186; 157; 0;
   232; 31; 32; 55; 60; 152; 58; 17; 237; 174; 70; 160; 144; 220; 90; 57;
   223; 59; 3; 18; 140; 111; 166; 203; 196; 134; 243; 124; 95; 222; 179;
   197; 65; 180; 48; 36; 15; 107; 46; 233; 130; 165; 30; 123; 161; 209; 23;
   97; 16; 40; 91; 219; 61; 100; 10; 210; 109; 250; 127; 22; 138; 29; 108;
   244; 67; 207; 9; 178; 204; 74; 98; 126; 249; 167; 116; 34; 77; 193;
   200; 121; 5; 20; 113; 71; 35; 128; 13; 182; 94; 25; 226; 227; 199; 75;
   27; 41; 245; 230; 224; 43; 225; 177; 26; 155; 150; 212; 142; 218; 115;
   241; 73; 88; 105; 39; 114; 62; 255; 192; 201; 145; 214; 168; 158; 221;
   148; 154; 122; 12; 84; 82; 163; 44; 139; 228; 236; 205; 242; 217; 11;
   187; 146; 159; 64; 86; 239; 195; 42; 106; 198; 118; 112; 184; 172; 87;
   2; 173; 117; 176; 229; 247; 253; 137; 185; 99; 164; 102; 147; 45; 66;
   231; 52; 141; 211; 194; 206; 246; 238; 56; 110; 78; 248; 63; 240; 189;
   93; 92; 51; 53; 183; 19; 171; 72; 50; 33; 104; 101; 69; 8; 252; 83; 120;
   76; 135; 85; 54; 202; 125; 188; 213; 96; 235; 136; 208; 162; 129; 190;
   132; 156; 38; 47; 1; 7; 254; 24; 4; 216; 131; 89; 21; 28; 133; 37; 153;
   149; 80; 170; 68; 6; 169; 234; 151].

(** A [char] as an [int]: it is signed. *)
Definition schar (b : Z) : Z := if b <? 128 then b else b - 256.

(** [hash = PEARSON_LOOKUP_TABLE[hash ^ data[--i]]], from the last byte; an
    index outside the table is [Segfault]. *)
Fixpoint pearson_loop (rev_data : list Z) (hash : Z) : res Z :=
  match rev_data with
  | [] => Ok hash
  | c :: rev_data =>
      let i := Z.lxor hash (schar c) in
      if i <? 0 then Segfault
      else match PEARSON_LOOKUP_TABLE !! Z.to_nat i with
           | Some hash => pearson_loop rev_data hash
           | None => Segfault
           end
  end.

Definition PearsonHash (data : list Z) : res Z :=
  let* hash := pearson_loop (rev data) (Zlength data mod 256) in
  Ok (if hash =? 0 then 1 else hash).

(** ** Slots *)

(** The pointer [kv] of a slot: null, a buffer it owns, or freed memory. *)
Inductive kvptr := Null | Buf (bytes : list Z) | Freed.

Definition deref (kv : kvptr) : res (list Z) := match kv with Buf b => Ok b | _ => Segfault end.

(** [*(uint32_t * )(p + o)] and [*(uint8_t * )(p + 8)] *)
Definition get_ks (p : list Z) : Z := le_value (take 4 p).
Definition get_vs (p : list Z) : Z := le_value (take 4 (drop 4 p)).
Definition get_ph (p : list Z) : Z := nth 8 p 0.

(** Bytes [bs] at offset [o] of a buffer. *)
Definition put_bytes (o : nat) (bs p : list Z) : list Z := take o p ++ bs ++ drop (o + length bs) p.
Definition set_ks (p : list Z) (v : Z) : list Z := put_bytes 0 (le_bytes 4 v) p.
Definition set_vs (p : list Z) (v : Z) : list Z := put_bytes 4 (le_bytes 4 v) p.
Definition set_ph (p : list Z) (v : Z) : list Z := put_bytes 8 [v] p.

(** The C strings [key()] and [val()] point to. *)
Definition slot_key (p : list Z) : list Z := c_str (drop 9 p).
Definition slot_val (p : list Z) : list Z := c_str (drop (9 + Z.to_nat (get_ks p) + 1) p).
(** [memcpy(value, kv.val(), vs)] *)
Definition slot_val_n (p : list Z) (vs : Z) : list Z := take (Z.to_nat vs) (drop (9 + Z.to_nat (get_ks p) + 1) p).

Definition slot_empty (kv : kvptr) : bool := match kv with Null => true | _ => false end.

Definition slot_clear (kv : kvptr) : res kvptr :=
  if slot_empty kv then Ok kv
  else
    let* p := deref kv in
    let p := set_ph p 0 in
    let p := set_ks p 0 in
    let p := set_vs p 0 in
    Ok Null.

Record kvleaf := KVLeaf { slots : list kvptr; leaf_next : Z }.
Record pool := Pool { leaves : gmap Z kvleaf; head : Z; next_leaf : Z }.

(** ** Nodes *)

Record leafnode := LeafNode {
  ln_addr : Z;
  ln_parent : Z;
  hashes : list Z;
  lkeys : list (list Z);
  leaf : Z
}.

Inductive node :=
| NLeaf (l : leafnode)
| NInner (addr parent : Z) (ikeys : list (list Z)) (children : list node).

Definition addr_of (n : node) : Z := match n with NLeaf l => ln_addr l | NInner a _ _ _ => a end.
Definition parent_of (n : node) : Z := match n with NLeaf l => ln_parent l | NInner _ p _ _ => p end.
Definition set_parent (p : Z) (n : node) : node :=
  match n with
  | NLeaf l => NLeaf (LeafNode (ln_addr l) p (hashes l) (lkeys l) (leaf l))
  | NInner a _ ks cs => NInner a p ks cs
  end.

(** [new KVLeafNode()] *)
Definition new_leafnode (a parent lf : Z) : leafnode :=
  LeafNode a parent (replicate LEAF_KEYS 0) (replicate LEAF_KEYS []) lf.

(** [KVInnerNode::assert_invariants] *)
Definition assert_invariants (ks : list (list Z)) (cs : list node) : bool :=
  (length ks <=? INNER_KEYS)%nat && forallb (fun k => negb (length k =? 0)%nat) ks && (length ks <? length cs)%nat &&
  (length cs <=? length ks + 1)%nat.

(** An inner node on the path to a node: the children before and after it. *)
Record crumb := Crumb {
  c_addr : Z;
  c_parent : Z;
  c_keys : list (list Z);
  c_before : list node;
  c_after : list node
}.
Definition plug (n : node) (c : crumb) : node :=
  NInner (c_addr c) (c_parent c) (c_keys c) (c_before c ++ n :: c_after c).
Definition rebuild (path : list crumb) (n : node) : node := foldl plug n path.

(** The rest of the object is [kvtree]; [next_addr] is the address of the
    next node [new] makes. *)
Record kvtree := KVTree {
  tree_top : option node;
  leaves_prealloc : list Z;
  pmpool : pool;
  pmpath : list Z;
  pmsize : Z;
  next_addr : Z
}.
Definition with_top (t : kvtree) (top : option node) (fresh : Z) : kvtree :=
  KVTree top (leaves_prealloc t) (pmpool t) (pmpath t) (pmsize t) fresh.
Definition with_pool (t : kvtree) (pa : list Z) (pl : pool) : kvtree :=
  KVTree (tree_top t) pa pl (pmpath t) (pmsize t) (next_addr t).

(** ** Searching *)

(** The children of an inner node up to the first whose key is not below
    [key]; [go] goes on from there. *)
Definition scan_children {R} (go : node -> crumb -> res R) (a p : Z) (ks : list (list Z)) (key : list Z)
  : list node -> list (list Z) -> list node -> res R :=
  fix scan (before : list node) (ks' : list (list Z)) (cs' : list node) {struct cs'} :=
    match cs' with
    | [] => Segfault
    | c :: cs' =>
        match ks' with
        | [] => go c (Crumb a p ks before cs')
        | k :: ks' =>
            if is_le (strcmp key k) then go c (Crumb a p ks before cs') else scan (before ++ [c]) ks' cs'
        end
    end.

(** From a node down to the leaf for [key]; the path is innermost first. *)
Fixpoint LeafSearch_from (n : node) (key : list Z) (path : list crumb) : res (list crumb * leafnode) :=
  match n with
  | NLeaf l => Ok (path, l)
  | NInner a p ks cs =>
      assert! assert_invariants ks cs in
      scan_children (fun c cr => LeafSearch_from c key (cr :: path)) a p ks key [] ks cs
  end.

Definition LeafSearch (t : kvtree) (key : list Z) : res (option (list crumb * leafnode)) :=
  match tree_top t with
  | None => Ok None
  | Some n => let* r := LeafSearch_from n key [] in Ok (Some r)
  end.

(** [for (int slot = LEAF_KEYS; slot--;)] up to the slot that has the hash
    and the key. *)
Fixpoint find_slot (n : nat) (l : leafnode) (hash : Z) (key : list Z) : option nat :=
  match n with
  | O => None
  | S slot =>
      if (nth slot (hashes l) 0 =? hash) && is_eq (strcmp (nth slot (lkeys l) []) key) then Some slot
      else find_slot slot l hash key
  end.

(** The loop of [LeafFillSlotForKey]: the last empty slot seen and the slot
    of the key. *)
Fixpoint scan_slots (n : nat) (l : leafnode) (hash : Z) (key : list Z) (last_empty_slot : option nat)
  : option nat * option nat :=
  match n with
  | O => (last_empty_slot, None)
  | S slot =>
      let slot_hash := nth slot (hashes l) 0 in
      if slot_hash =? 0 then scan_slots slot l hash key (Some slot)
      else if (slot_hash =? hash) && is_eq (strcmp (nth slot (lkeys l) []) key)
           then (last_empty_slot, Some slot)
           else scan_slots slot l hash key last_empty_slot
  end.

(** The loop of [LeafFillEmptySlot]. *)
Fixpoint find_empty_slot (n : nat) (l : leafnode) : option nat :=
  match n with
  | O => None
  | S slot => if nth slot (hashes l) 0 =? 0 then Some slot else find_empty_slot slot l
  end.

Definition pool_slot (pl : pool) (lf : Z) (slot : nat) : res kvptr :=
  match leaves pl !! lf with
  | Some L => match slots L !! slot with Some kv => Ok kv | None => Segfault end
  | None => Segfault
  end.
Definition set_pool_slot (pl : pool) (lf : Z) (slot : nat) (kv : kvptr) : pool :=
  Pool (alter (fun L => KVLeaf (<[slot := kv]> (slots L)) (leaf_next L)) lf (leaves pl)) (head pl) (next_leaf pl).

(** ** Inner nodes *)

(** [while (idx < keycount && inner->keys[idx].compare( *split_key) <= 0) idx++] *)
Fixpoint insert_idx (ks : list (list Z)) (split_key : list Z) : nat :=
  match ks with
  | [] => O
  | k :: ks => if is_le (compare_bytes k split_key) then S (insert_idx ks split_key) else O
  end.

(** [node] is the node at the end of [path]; the result is the new top. *)
Fixpoint InnerUpdateAfterSplit (path : list crumb) (nd new_node : node) (split_key : list Z) (fresh : Z)
  : res (node * Z) :=
  if parent_of nd =? 0 then
    assert! (match path with [] => true | _ => false end) in
    let ks := [split_key] in
    let cs := [set_parent fresh nd; set_parent fresh new_node] in
    assert! assert_invariants ks cs in
    Ok (NInner fresh 0 ks cs, fresh + 1)
  else
    match path with
    | [] => Segfault
    | inner :: path =>
        if c_addr inner =? parent_of nd then
          let cs := c_before inner ++ nd :: c_after inner in
          let idx := insert_idx (c_keys inner) split_key in
          let ks := take idx (c_keys inner) ++ split_key :: drop idx (c_keys inner) in
          let cs := take (S idx) cs ++ new_node :: drop (S idx) cs in
          if (length ks <=? INNER_KEYS)%nat then
            assert! assert_invariants ks cs in
            Ok (rebuild path (NInner (c_addr inner) (c_parent inner) ks cs), fresh)
          else
            let ni_ks := take INNER_KEYS_MIDPOINT (drop INNER_KEYS_UPPER ks) in
            let ni_cs := map (set_parent fresh) (drop INNER_KEYS_UPPER cs) in
            let new_split_key := nth INNER_KEYS_MIDPOINT ks [] in
            let in_ks := take INNER_KEYS_MIDPOINT ks in
            let in_cs := take INNER_KEYS_UPPER cs in
            assert! assert_invariants in_ks in_cs in
            assert! assert_invariants ni_ks ni_cs in
            InnerUpdateAfterSplit path (NInner (c_addr inner) (c_parent inner) in_ks in_cs)
              (NInner fresh (c_parent inner) ni_ks ni_cs) new_split_key (fresh + 1)
        else Segfault
    end.

(** ** The key-value methods *)

Section Engine.
(** Whether [pmemobj_alloc] of that many bytes succeeds. *)
Variable can_alloc : pool -> Z -> bool.

Definition sizeof_KVLeaf : Z := 784.

(** [make_persistent<KVLeaf>]: value-initialized, or [transaction_alloc_error]. *)
Definition make_leaf (pl : pool) : option (Z * pool) :=
  if can_alloc pl sizeof_KVLeaf then
    let a := next_leaf pl in
    Some (a, Pool (<[a := KVLeaf (replicate LEAF_KEYS Null) 0]> (leaves pl)) (head pl) (a + 1))
  else None.

(** A leaf for a new node: a preallocated one, or a new one in front of the
    list of leaves.  [None]: the exception. *)
Definition take_leaf (pa : list Z) (pl : pool) : option (Z * list Z * pool) :=
  match last pa with
  | Some lf => Some (lf, removelast pa, pl)
  | None =>
      let old_head := head pl in
      match make_leaf pl with
      | Some (a, pl) =>
          let pl := Pool (leaves pl) a (next_leaf pl) in
          let pl := Pool (alter (fun L => KVLeaf (slots L) old_head) a (leaves pl)) (head pl) (next_leaf pl) in
          Some (a, pa, pl)
      | None => None
      end
  end.

(** [KVSlot::set] on the slot of a leaf; [false]: the allocation threw.  The
    old buffer is freed first, and [kv] keeps pointing to it until the new
    one is there. *)
Definition slot_set (pl : pool) (lf : Z) (slot : nat) (hash : Z) (key value : list Z) : res (bool * pool) :=
  let* kv := pool_slot pl lf slot in
  let* pl := (if slot_empty kv then Ok pl
              else let* p := deref kv in Ok (set_pool_slot pl lf slot Freed)) in
  let ksize := Zlength key in
  let vsize := Zlength value in
  let size := ksize + vsize + 2 + 4 + 4 + 1 in
  if can_alloc pl size then
    let p := replicate (Z.to_nat size) 0 in
    let p := set_ph p hash in
    let p := set_ks p (u32 ksize) in
    let p := set_vs p (u32 vsize) in
    let p := put_bytes 9 key p in
    let p := put_bytes (9 + length key + 1) value p in
    Ok (true, set_pool_slot pl lf slot (Buf p))
  else Ok (false, pl).

Definition LeafFillSpecificSlot (l : leafnode) (pl : pool) (hash : Z) (key value : list Z) (slot : nat)
  : res (bool * leafnode * pool) :=
  let l' := if nth slot (hashes l) 0 =? 0
            then LeafNode (ln_addr l) (ln_parent l) (<[slot := hash]> (hashes l)) (<[slot := key]> (lkeys l)) (leaf l)
            else l in
  let* (ok, pl) := slot_set pl (leaf l) slot hash key value in
  Ok (ok, l', pl).

(** [None]: the leaf has no slot for the key. *)
Definition LeafFillSlotForKey (l : leafnode) (pl : pool) (hash : Z) (key value : list Z)
  : res (option (bool * leafnode * pool)) :=
  let '(last_empty_slot, key_match_slot) := scan_slots LEAF_KEYS l hash key None in
  match (match key_match_slot with Some s => Some s | None => last_empty_slot end) with
  | Some slot => let* r := LeafFillSpecificSlot l pl hash key value slot in Ok (Some r)
  | None => Ok None
  end.

Definition LeafFillEmptySlot (l : leafnode) (pl : pool) (hash : Z) (key value : list Z)
  : res (bool * leafnode * pool) :=
  match find_empty_slot LEAF_KEYS l with
  | Some slot => LeafFillSpecificSlot l pl hash key value slot
  | None => Ok (true, l, pl)
  end.

(** The loop of [LeafSplitFull]: slots whose key sorts above [split_key] move
    to the new leaf. *)
Fixpoint move_slots (n : nat) (split_key : list Z) (l nl : leafnode) (pl : pool)
  : res (leafnode * leafnode * pool) :=
  match n with
  | O => Ok (l, nl, pl)
  | S slot =>
      let key := nth slot (lkeys l) [] in
      if is_gt (strcmp key split_key) then
        let* a := pool_slot pl (leaf nl) slot in
        let* b := pool_slot pl (leaf l) slot in
        let pl := set_pool_slot pl (leaf nl) slot b in
        let pl := set_pool_slot pl (leaf l) slot a in
        let nl := LeafNode (ln_addr nl) (ln_parent nl) (<[slot := nth slot (hashes l) 0]> (hashes nl))
                    (<[slot := key]> (lkeys nl)) (leaf nl) in
        let l := LeafNode (ln_addr l) (ln_parent l) (<[slot := 0]> (hashes l)) (<[slot := []]> (lkeys l)) (leaf l) in
        move_slots slot split_key l nl pl
      else move_slots slot split_key l nl pl
  end.

(** [false]: the exception; the new node dies with its [unique_ptr]. *)
Definition LeafSplitFull (t : kvtree) (path : list crumb) (l : leafnode) (hash : Z) (key value : list Z)
  : res (bool * kvtree) :=
  let keys := sort_by (fun lhs rhs => is_lt (strcmp lhs rhs)) (take LEAF_KEYS (lkeys l) ++ [key]) in
  let split_key := nth LEAF_KEYS_MIDPOINT keys [] in
  let na := next_addr t in
  match take_leaf (leaves_prealloc t) (pmpool t) with
  | None => Ok (false, with_top t (tree_top t) (na + 1))
  | Some (lf, pa, pl) =>
      let nl := new_leafnode na (ln_parent l) lf in
      let* (l, nl, pl) := move_slots LEAF_KEYS split_key l nl pl in
      let right := is_gt (strcmp key split_key) in
      let* (ok, target, pl) := LeafFillEmptySlot (if right then nl else l) pl hash key value in
      let l := if right then l else target in
      let nl := if right then target else nl in
      let t := with_pool t pa pl in
      if ok : bool then
        let* (top, fresh) := InnerUpdateAfterSplit path (NLeaf l) (NLeaf nl) split_key (na + 1) in
        Ok (true, with_top t (Some top) fresh)
      else Ok (false, with_top t (Some (rebuild path (NLeaf l))) (na + 1))
  end.

Definition status (ok : bool) : KVStatus := if ok then OK else FAILED.

Definition Put (t : kvtree) (key value : list Z) : res (KVStatus * kvtree) :=
  let* hash := PearsonHash key in
  let* r := LeafSearch t key in
  match r with
  | None =>
      let na := next_addr t in
      match take_leaf (leaves_prealloc t) (pmpool t) with
      | None => Ok (FAILED, with_top t (tree_top t) (na + 1))
      | Some (lf, pa, pl) =>
          let* (ok, l, pl) := LeafFillSpecificSlot (new_leafnode na 0 lf) pl hash key value 0 in
          Ok (status ok, with_top (with_pool t pa pl) (if ok : bool then Some (NLeaf l) else tree_top t) (na + 1))
      end
  | Some (path, l) =>
      let* r := LeafFillSlotForKey l (pmpool t) hash key value in
      match r with
      | Some (ok, l, pl) =>
          Ok (status ok, with_top (with_pool t (leaves_prealloc t) pl) (Some (rebuild path (NLeaf l))) (next_addr t))
      | None =>
          let* (ok, t) := LeafSplitFull t path l hash key value in
          Ok (status ok, t)
      end
  end.

Definition Remove (t : kvtree) (key : list Z) : res (KVStatus * kvtree) :=
  let* r := LeafSearch t key in
  match r with
  | None => Ok (OK, t)
  | Some (path, l) =>
      let* hash := PearsonHash key in
      match find_slot LEAF_KEYS l hash key with
      | Some slot =>
          let l := LeafNode (ln_addr l) (ln_parent l) (<[slot := 0]> (hashes l)) (<[slot := []]> (lkeys l)) (leaf l) in
          let* kv := pool_slot (pmpool t) (leaf l) slot in
          let* kv := slot_clear kv in
          Ok (OK, with_top (with_pool t (leaves_prealloc t) (set_pool_slot (pmpool t) (leaf l) slot kv))
                    (Some (rebuild path (NLeaf l))) (next_addr t))
      | None => Ok (OK, t)
      end
  end.

(** [Get] with a [std::string]: the status and what is appended. *)
Definition Get (t : kvtree) (key : list Z) : res (KVStatus * list Z) :=
  let* r := LeafSearch t key in
  match r with
  | None => Ok (NOT_FOUND, [])
  | Some (_, l) =>
      let* hash := PearsonHash key in
      match find_slot LEAF_KEYS l hash key with
      | Some slot =>
          let* kv := pool_slot (pmpool t) (leaf l) slot in
          let* p := deref kv in
          Ok (OK, slot_val p)
      | None => Ok (NOT_FOUND, [])
      end
  end.

(** [Get] with a buffer: the status and the bytes that are copied to
    [value].  [key] is the memory the pointer leads to, which a NUL follows.
    The sizes meet in a comparison of unsigned 32-bit numbers. *)
Definition Get_buffer (t : kvtree) (limit keybytes : Z) (key : list Z) : res (KVStatus * list Z) :=
  let* r := LeafSearch t (c_str key) in
  match r with
  | None => Ok (NOT_FOUND, [])
  | Some (_, l) =>
      let* hash := (if (keybytes <? 0) || (Zlength key <? keybytes) then Segfault
                    else PearsonHash (take (Z.to_nat keybytes) key)) in
      match find_slot LEAF_KEYS l hash (c_str key) with
      | Some slot =>
          let* kv := pool_slot (pmpool t) (leaf l) slot in
          let* p := deref kv in
          let vs := get_vs p in
          if vs <? u32 (limit - keybytes - 64) then Ok (OK, slot_val_n p vs) else Ok (FAILED, [])
      | None => Ok (NOT_FOUND, [])
      end
  end.

End Engine.

(** ** Recovery *)

(** A persistent leaf into a new node, from slot [n - 1] down; the second
    component is [max_key]. *)
Fixpoint recover_slots (n : nat) (L : kvleaf) (l : leafnode) (max_key : option (list Z))
  : res (leafnode * option (list Z)) :=
  match n with
  | O => Ok (l, max_key)
  | S slot =>
      match slots L !! slot with
      | None => Segfault
      | Some kv =>
          if slot_empty kv then recover_slots slot L l max_key
          else
            let* p := deref kv in
            let hash := get_ph p in
            let l := LeafNode (ln_addr l) (ln_parent l) (<[slot := hash]> (hashes l)) (lkeys l) (leaf l) in
            if hash =? 0 then recover_slots slot L l max_key
            else
              let key := slot_key p in
              let max_key := match max_key with
                             | Some m => if is_lt (strcmp m key) then Some key else Some m
                             | None => Some key
                             end in
              let l := LeafNode (ln_addr l) (ln_parent l) (hashes l) (<[slot := key]> (lkeys l)) (leaf l) in
              recover_slots slot L l max_key
      end
  end.

(** The list of leaves of the pool from [lf]: the recovered nodes with their
    highest keys, the leaves without keys, and the next free address. *)
Fixpoint recover_leaves (fuel : nat) (pl : pool) (lf fresh : Z)
  : res (list (leafnode * list Z) * list Z * Z) :=
  if lf =? 0 then Ok ([], [], fresh)
  else match fuel with
       | O => NoFuel
       | S fuel =>
           match leaves pl !! lf with
           | None => Segfault
           | Some L =>
               let* (l, max_key) := recover_slots LEAF_KEYS L (new_leafnode fresh 0 lf) None in
               let* (rs, pa, fresh) := recover_leaves fuel pl (leaf_next L) (fresh + 1) in
               match max_key with
               | None => Ok (rs, lf :: pa, fresh)
               | Some m => Ok ((l, m) :: rs, pa, fresh)
               end
           end
       end.

(** The rightmost leaf of a tree and the path to it. *)
Definition last_child {R} (go : node -> crumb -> res R) (a p : Z) (ks : list (list Z))
  : list node -> list node -> res R :=
  fix scan (before cs' : list node) {struct cs'} :=
    match cs' with
    | [] => Segfault
    | c :: cs' => match cs' with
                  | [] => go c (Crumb a p ks before [])
                  | _ :: _ => scan (before ++ [c]) cs'
                  end
    end.
Fixpoint rightmost (n : node) (path : list crumb) : res (list crumb * leafnode) :=
  match n with
  | NLeaf l => Ok (path, l)
  | NInner a p ks cs => last_child (fun c cr => rightmost c (cr :: path)) a p ks [] cs
  end.

(** The loop over adjacent pairs of leaves.  [prevnode] is the node that was
    added last, at the right end of the tree. *)
Fixpoint recover_inner (top : node) (prevnode : Z) (max_key : list Z) (rs : list (leafnode * list Z)) (fresh : Z)
  : res (node * Z) :=
  match rs with
  | [] => Ok (top, fresh)
  | (nextnode, next_max) :: rs =>
      let* (path, prev) := rightmost top [] in
      if ln_addr prev =? prevnode then
        let split_key := c_str max_key in
        let next := set_parent (ln_parent prev) (NLeaf nextnode) in
        let* (top, fresh) := InnerUpdateAfterSplit path (NLeaf prev) next split_key fresh in
        recover_inner top (ln_addr nextnode) next_max rs fresh
      else Segfault
  end.

Definition Recover (t : kvtree) : res kvtree :=
  let* (rs, pa, fresh) := recover_leaves (S (size (leaves (pmpool t)))) (pmpool t) (head (pmpool t)) (next_addr t) in
  let rs := sort_by (fun lhs rhs : leafnode * list Z => is_lt (strcmp (snd lhs) (snd rhs))) rs in
  let t := with_pool t (leaves_prealloc t ++ pa) (pmpool t) in
  match rs with
  | [] => Ok (with_top t None fresh)
  | (l, max_key) :: rs =>
      let* (top, fresh) := recover_inner (NLeaf l) (ln_addr l) max_key rs fresh in
      Ok (with_top t (Some top) fresh)
  end.

(** ** Analysis *)

Record KVTreeAnalysis := Analysis {
  leaf_empty : Z;
  leaf_prealloc : Z;
  leaf_total : Z;
  an_path : list Z;
  an_size : Z
}.

Fixpoint analyze_leaves (fuel : nat) (pl : pool) (lf : Z) (a : KVTreeAnalysis) : res KVTreeAnalysis :=
  if lf =? 0 then Ok a
  else match fuel with
       | O => NoFuel
       | S fuel =>
           match leaves pl !! lf with
           | None => Segfault
           | Some L =>
               let empty := true in
               let a := Analysis (if empty then leaf_empty a + 1 else leaf_empty a) (leaf_prealloc a) (leaf_total a + 1)
                          (an_path a) (an_size a) in
               analyze_leaves fuel pl (leaf_next L) a
           end
       end.

Definition Analyze (t : kvtree) : res KVTreeAnalysis :=
  analyze_leaves (S (size (leaves (pmpool t)))) (pmpool t) (head (pmpool t))
    (Analysis 0 (Zlength (leaves_prealloc t)) 0 (pmpath t) (pmsize t)).
