(* ===== verification/KvOrder.v ===== *)
(** * Keys, hashes and buffers of the key-value store

    Facts about the byte-level parts of KvTree.v: the order of keys, sorting
    with it, the Pearson hash of ASCII keys, and the layout of the buffer of
    a slot. *)

From stdpp Require Import base numbers list gmap sorting.
From S2P Require Import Prelude Containers KvTree.

(** ** The order of keys *)

Definition klt (a b : list Z) : Prop := compare_bytes a b = Lt.
Definition kle (a b : list Z) : Prop := compare_bytes a b <> Gt.

Lemma compare_bytes_refl a : compare_bytes a a = Eq.
Proof. induction a as [|x a IH]; cbn; [done|]. by rewrite Z.compare_refl. Qed.

Lemma compare_bytes_eq a b : compare_bytes a b = Eq -> a = b.
Proof.
  revert b. induction a as [|x a IH]; intros [|y b]; cbn; try done.
  destruct (Z.compare_spec x y); try done. intros. f_equal; auto.
Qed.

Lemma compare_bytes_antisym a b : compare_bytes b a = CompOpp (compare_bytes a b).
Proof.
  revert b. induction a as [|x a IH]; intros [|y b]; cbn; try done.
  rewrite (Z.compare_antisym x y). by destruct (x ?= y); cbn.
Qed.

Lemma klt_trans a b c : klt a b -> klt b c -> klt a c.
Proof.
  unfold klt. revert b c. induction a as [|x a IH]; intros [|y b] [|z c]; cbn; try done.
  destruct (Z.compare_spec x y), (Z.compare_spec y z); subst; try done; intros.
  - rewrite Z.compare_refl. eauto.
  - by replace (y ?= z) with Lt by (symmetry; by apply Z.compare_lt_iff).
  - by replace (x ?= z) with Lt by (symmetry; by apply Z.compare_lt_iff).
  - replace (x ?= z) with Lt by (symmetry; apply Z.compare_lt_iff; lia). done.
Qed.

Lemma klt_irrefl a : ~ klt a a.
Proof. unfold klt. by rewrite compare_bytes_refl. Qed.
Lemma klt_kle a b : klt a b -> kle a b.
Proof. unfold klt, kle. by intros ->. Qed.
Lemma kle_refl a : kle a a.
Proof. unfold kle. by rewrite compare_bytes_refl. Qed.
Lemma kle_lt_eq a b : kle a b <-> klt a b \/ a = b.
Proof.
  unfold kle, klt. split.
  - destruct (compare_bytes a b) eqn:E; try naive_solver. right. by apply compare_bytes_eq.
  - intros [->| ->]; [done|]. by rewrite compare_bytes_refl.
Qed.
Lemma nlt_kle a b : ~ klt a b <-> kle b a.
Proof. unfold klt, kle. rewrite (compare_bytes_antisym a b). destruct (compare_bytes a b); cbn; intuition congruence. Qed.
Lemma nle_klt a b : ~ kle a b <-> klt b a.
Proof. unfold klt, kle. rewrite (compare_bytes_antisym a b). destruct (compare_bytes a b); cbn; intuition congruence. Qed.
Lemma klt_kle_trans a b c : klt a b -> kle b c -> klt a c.
Proof. rewrite kle_lt_eq. intros ? [?| ->]; eauto using klt_trans. Qed.
Lemma kle_klt_trans a b c : kle a b -> klt b c -> klt a c.
Proof. rewrite kle_lt_eq. intros [?| ->] ?; eauto using klt_trans. Qed.
Lemma kle_trans a b c : kle a b -> kle b c -> kle a c.
Proof. rewrite (kle_lt_eq b). intros ? [?| ->]; eauto using klt_kle, kle_klt_trans. Qed.

#[export] Instance klt_dec a b : Decision (klt a b).
Proof. unfold klt. apply _. Defined.
#[export] Instance kle_dec a b : Decision (kle a b).
Proof. unfold kle. apply _. Defined.

Lemma bool_decide_iff (b : bool) P `{Decision P} : (b = true <-> P) -> b = bool_decide P.
Proof. intros HP. case_bool_decide; destruct b; naive_solver. Qed.

Lemma is_lt_spec a b : is_lt (compare_bytes a b) = bool_decide (klt a b).
Proof. apply bool_decide_iff. unfold klt. by destruct (compare_bytes a b). Qed.
Lemma is_le_spec a b : is_le (compare_bytes a b) = bool_decide (kle a b).
Proof. apply bool_decide_iff. unfold kle. by destruct (compare_bytes a b). Qed.
Lemma is_gt_spec a b : is_gt (compare_bytes a b) = bool_decide (klt b a).
Proof. apply bool_decide_iff. unfold klt. rewrite (compare_bytes_antisym a b). by destruct (compare_bytes a b). Qed.
Lemma is_eq_spec a b : is_eq (compare_bytes a b) = bool_decide (a = b).
Proof.
  apply bool_decide_iff. split; [|intros ->; by rewrite compare_bytes_refl].
  destruct (compare_bytes a b) eqn:E; try done. by intros _; apply compare_bytes_eq.
Qed.

Create HintDb kv discriminated.
#[export] Hint Resolve klt_trans klt_kle_trans kle_klt_trans klt_kle kle_refl kle_trans : kv.

(** ** Keys and values the store can hold *)

(** Not empty, ASCII without NUL, a length of 32 bits. *)
Definition key_ok (k : list Z) : Prop := k <> [] /\ Forall (fun b => 0 < b < 128) k /\ Zlength k < 2 ^ 32.
Definition value_ok (v : list Z) : Prop := Forall (fun b => 0 < b < 256) v /\ Zlength v < 2 ^ 32.

Definition nul_free (s : list Z) : Prop := Forall (fun b => b <> 0) s.

Lemma c_str_id k : nul_free k -> c_str k = k.
Proof.
  induction 1 as [|b k Hb _ IH]; cbn; [done|].
  destruct (b =? 0) eqn:E; [lia|]. by rewrite IH.
Qed.
Lemma c_str_app_0 k r : nul_free k -> c_str (k ++ 0 :: r) = k.
Proof.
  induction 1 as [|b k Hb _ IH]; cbn; [done|].
  destruct (b =? 0) eqn:E; [lia|]. by rewrite IH.
Qed.
Lemma key_ok_nz k : key_ok k -> nul_free k.
Proof. intros (_ & H & _). eapply Forall_impl; [done|]. cbn. lia. Qed.
Lemma value_ok_nz v : value_ok v -> nul_free v.
Proof. intros (H & _). eapply Forall_impl; [done|]. cbn. lia. Qed.
Lemma c_str_key k : key_ok k -> c_str k = k.
Proof. intros. by apply c_str_id, key_ok_nz. Qed.
Lemma c_str_nil : c_str [] = [].
Proof. done. Qed.
#[export] Hint Resolve key_ok_nz value_ok_nz c_str_key : kv.


Lemma strcmp_nul_free a b : nul_free a -> nul_free b -> strcmp a b = compare_bytes a b.
Proof. intros Ha Hb. unfold strcmp. by rewrite !c_str_id. Qed.

(** ** The hash of a key *)

Definition ph (k : list Z) : Z := match PearsonHash k with Ok h => h | _ => 0 end.

Lemma table_lookup i : 0 <= i < 256 -> exists h, PEARSON_LOOKUP_TABLE !! Z.to_nat i = Some h /\ 0 <= h < 256.
Proof.
  intros Hi. destruct (lookup_lt_is_Some_2 PEARSON_LOOKUP_TABLE (Z.to_nat i)) as [h Hh]; [cbn; lia|].
  exists h. split; [done|].
  assert (HT : Forall (fun h => 0 <= h < 256) PEARSON_LOOKUP_TABLE)
    by (repeat constructor; lia).
  exact (Forall_lookup_1 _ _ _ _ HT Hh).
Qed.

Lemma lxor_byte a b : 0 <= a < 256 -> 0 <= b < 256 -> 0 <= Z.lxor a b < 256.
Proof.
  intros Ha Hb. split; [apply Z.lxor_nonneg; lia|].
  destruct (Z.eq_dec (Z.lxor a b) 0) as [->|]; [lia|].
  change 256 with (2 ^ 8). apply Z.log2_lt_pow2; [pose proof (Z.lxor_nonneg a b); lia|].
  assert (Hl : forall x, 0 <= x < 256 -> Z.log2 x < 8).
  { intros x Hx. destruct (Z.eq_dec x 0) as [->|]; [by cbn|]. apply Z.log2_lt_pow2; cbn; lia. }
  eapply Z.le_lt_trans; [apply Z.log2_lxor; lia|]. apply Z.max_lub_lt; auto.
Qed.

Lemma pearson_loop_ok data hash : Forall (fun b => 0 < b < 128) data -> 0 <= hash < 256 ->
  exists h, pearson_loop data hash = Ok h /\ 0 <= h < 256.
Proof.
  intros Hd. revert hash. induction Hd as [|c data Hc _ IH]; intros hash Hh; cbn; [eauto|].
  unfold schar. destruct (c <? 128) eqn:E; [|lia].
  destruct (lxor_byte hash c) as [H1 H2]; [lia..|].
  destruct (Z.lxor hash c <? 0) eqn:E2; [lia|].
  destruct (table_lookup (Z.lxor hash c)) as (h & -> & ?); [done|]. by apply IH.
Qed.

Lemma PearsonHash_ok k : key_ok k -> PearsonHash k = Ok (ph k) /\ 0 < ph k < 256.
Proof.
  intros (_ & Hk & _). unfold ph, PearsonHash.
  destruct (pearson_loop_ok (rev k) (Zlength k mod 256)) as (h & -> & Hh).
  - by apply Forall_rev.
  - by apply Z.mod_pos_bound.
  - cbn. split; [done|]. destruct (h =? 0) eqn:E; lia.
Qed.
Lemma ph_hash k : key_ok k -> PearsonHash k = Ok (ph k).
Proof. apply PearsonHash_ok. Qed.
Lemma ph_pos k : key_ok k -> 0 < ph k.
Proof. apply PearsonHash_ok. Qed.

(** ** The buffer of a slot *)

Definition encode (h : Z) (k v : list Z) : list Z :=
  le_bytes 4 (Zlength k) ++ le_bytes 4 (Zlength v) ++ h :: k ++ 0 :: v ++ [0].

Lemma put_bytes_app o bs a x c : length a = o -> length x = length bs ->
  put_bytes o bs (a ++ x ++ c) = a ++ bs ++ c.
Proof.
  intros <- Hx. unfold put_bytes. rewrite take_app_length. f_equal. f_equal.
  rewrite <- Hx, <- drop_drop, drop_app_length, drop_app_length. done.
Qed.

Lemma put_bytes_0 bs x c : length x = length bs -> put_bytes 0 bs (x ++ c) = bs ++ c.
Proof. intros Hx. exact (put_bytes_app 0 bs [] x c eq_refl Hx). Qed.

Lemma replicate_buffer (k v : list Z) :
  replicate (Z.to_nat (Zlength k + Zlength v + 2 + 4 + 4 + 1)) 0 =
  replicate 4 0 ++ replicate 4 0 ++ [0] ++ replicate (length k) 0 ++ 0 :: replicate (length v) 0 ++ [0].
Proof.
  replace (Z.to_nat _) with (4 + (4 + (1 + (length k + (1 + (length v + 1))))))%nat by (unfold Zlength; lia).
  by rewrite !replicate_add.
Qed.

Lemma slot_set_bytes h k v : Zlength k < 2 ^ 32 -> Zlength v < 2 ^ 32 ->
  put_bytes (9 + length k + 1) v (put_bytes 9 k
    (set_vs (set_ks (set_ph (replicate (Z.to_nat (Zlength k + Zlength v + 2 + 4 + 4 + 1)) 0) h)
       (u32 (Zlength k))) (u32 (Zlength v)))) = encode h k v.
Proof.
  intros Hk Hv. pose proof (Zlength_nonneg k). pose proof (Zlength_nonneg v).
  rewrite replicate_buffer. unfold set_ph, set_ks, set_vs, u32. rewrite !Z.mod_small by lia.
  rewrite app_assoc, put_bytes_app by done. rewrite <- app_assoc.
  rewrite put_bytes_0 by done.
  rewrite put_bytes_app by done.
  rewrite 2!app_assoc. rewrite put_bytes_app by (by rewrite ?length_replicate).
  change (0 :: replicate (length v) 0 ++ [0]) with ([0] ++ replicate (length v) 0 ++ [0]).
  rewrite 2!(app_assoc _ _ (replicate (length v) 0 ++ [0])).
  rewrite put_bytes_app; [|rewrite !length_app, !length_le_bytes; cbn; lia|by rewrite length_replicate].
  unfold encode. by rewrite <- !app_assoc.
Qed.

Lemma get_ks_encode h k v : Zlength k < 2 ^ 32 -> get_ks (encode h k v) = Zlength k.
Proof.
  intros. pose proof (Zlength_nonneg k). unfold get_ks, encode. rewrite take_app_length' by done.
  rewrite le_value_le_bytes. apply Z.mod_small. cbn. lia.
Qed.
Lemma get_vs_encode h k v : Zlength v < 2 ^ 32 -> get_vs (encode h k v) = Zlength v.
Proof.
  intros. pose proof (Zlength_nonneg v). unfold get_vs, encode. rewrite drop_app_length' by done.
  rewrite take_app_length' by done. rewrite le_value_le_bytes. apply Z.mod_small. cbn. lia.
Qed.
Lemma get_ph_encode h k v : get_ph (encode h k v) = h.
Proof. done. Qed.

Lemma drop_encode h k v : drop 9 (encode h k v) = k ++ 0 :: v ++ [0].
Proof. done. Qed.
Lemma slot_key_encode h k v : key_ok k -> slot_key (encode h k v) = k.
Proof. intros. unfold slot_key. rewrite drop_encode. apply c_str_app_0. auto with kv. Qed.

Lemma drop_val_encode h k v : key_ok k ->
  drop (9 + Z.to_nat (get_ks (encode h k v)) + 1) (encode h k v) = v ++ [0].
Proof.
  intros (_ & _ & Hk). rewrite get_ks_encode by done. unfold Zlength. rewrite Nat2Z.id.
  rewrite <- !drop_drop, drop_encode, drop_app_length. done.
Qed.
Lemma slot_val_encode h k v : key_ok k -> value_ok v -> slot_val (encode h k v) = v.
Proof. intros. unfold slot_val. rewrite drop_val_encode by done. apply c_str_app_0. auto with kv. Qed.
Lemma slot_val_n_encode h k v : key_ok k -> Zlength v < 2 ^ 32 ->
  slot_val_n (encode h k v) (get_vs (encode h k v)) = v.
Proof.
  intros. unfold slot_val_n. rewrite drop_val_encode, get_vs_encode by done.
  rewrite take_app_length'; [done|]. unfold Zlength. lia.
Qed.

(** ** Sorting *)

Section Sort.
Context {A : Type} (f : A -> list Z).
Let by_key (a b : A) : bool := is_lt (strcmp (f a) (f b)).

Lemma insert_by_perm lt (x : A) l : insert_by lt x l ≡ₚ x :: l.
Proof.
  induction l as [|y l IH]; cbn; [done|]. destruct (lt y x); [|done].
  rewrite IH. apply Permutation_swap.
Qed.
Lemma sort_by_perm lt (l : list A) : sort_by lt l ≡ₚ l.
Proof. induction l as [|x l IH]; cbn; [done|]. by rewrite insert_by_perm, IH. Qed.

Lemma insert_by_sorted x l : nul_free (f x) -> Forall (fun a => nul_free (f a)) l ->
  StronglySorted (fun a b => kle (f a) (f b)) l ->
  StronglySorted (fun a b => kle (f a) (f b)) (insert_by by_key x l).
Proof.
  intros Hx Hl Hs. induction Hs as [|y l Hs IH Hy]; [cbn; repeat constructor|].
  apply Forall_cons in Hl as [Hny Hl]. cbn. unfold by_key at 1. rewrite strcmp_nul_free, is_lt_spec by done.
  case_bool_decide as E.
  - constructor; [by apply IH|]. rewrite insert_by_perm. constructor; [by apply klt_kle|done].
  - apply nlt_kle in E. constructor; [by constructor|]. constructor; [done|].
    eapply Forall_impl; [done|]. cbn. eauto with kv.
Qed.
Lemma sort_by_sorted l : Forall (fun a => nul_free (f a)) l ->
  StronglySorted (fun a b => kle (f a) (f b)) (sort_by by_key l).
Proof.
  induction 1 as [|x l Hx Hl IH]; [constructor|].
  apply (insert_by_sorted x (sort_by by_key l)); [done| |done]. by rewrite sort_by_perm.
Qed.
End Sort.

Lemma StronglySorted_lookup {A} (R : A -> A -> Prop) l i j x y : StronglySorted R l ->
  l !! i = Some x -> l !! j = Some y -> (i < j)%nat -> R x y.
Proof.
  intros Hs. revert i j. induction Hs as [|a l Hs IH Ha]; intros [|i] [|j] Hi Hj Hij; try done; try lia.
  - cbn in *. simplify_eq. exact (Forall_lookup_1 _ _ _ _ Ha Hj).
  - cbn in *. eapply IH; eauto. lia.
Qed.

Lemma split_key_spec keys : length keys = S LEAF_KEYS -> NoDup keys -> Forall nul_free keys ->
  let s := nth LEAF_KEYS_MIDPOINT (sort_by (fun l r => is_lt (strcmp l r)) keys) [] in
  s ∈ keys /\ exists k, k ∈ keys /\ klt s k.
Proof.
  intros Hl Hnd Hn s. set (srt := sort_by _ keys) in *.
  assert (Hp : srt ≡ₚ keys) by apply sort_by_perm.
  assert (Hss : StronglySorted (fun a b => kle a b) srt) by exact (sort_by_sorted id keys Hn).
  assert (Hlen : length srt = S LEAF_KEYS) by (by rewrite Hp).
  destruct (lookup_lt_is_Some_2 srt LEAF_KEYS_MIDPOINT) as [x Hx]; [rewrite Hlen; unfold LEAF_KEYS, LEAF_KEYS_MIDPOINT; lia|].
  destruct (lookup_lt_is_Some_2 srt LEAF_KEYS) as [y Hy]; [rewrite Hlen; lia|].
  assert (s = x) as -> by (unfold s; by apply nth_lookup_Some).
  split; [rewrite <- Hp; by eapply list_elem_of_lookup_2|].
  exists y. split; [rewrite <- Hp; by eapply list_elem_of_lookup_2|].
  assert (Hle : kle x y) by (eapply (StronglySorted_lookup _ srt); eauto; unfold LEAF_KEYS_MIDPOINT, LEAF_KEYS; lia).
  apply kle_lt_eq in Hle as [?|<-]; [done|]. exfalso.
  assert (HN : NoDup srt) by (by rewrite Hp).
  pose proof (NoDup_lookup srt _ _ x HN Hx Hy). done.
Qed.
