(* ===== verification/KvShape.v ===== *)
(** * The tree of the key-value store as a sorted list of leaves

    [flat] lists the leaves of a tree from left to right, each with the
    separator to its left.  [LeafSearch] finds the leaf whose separators
    enclose a key, and [InnerUpdateAfterSplit] inserts a leaf into the list,
    whatever it does to the inner nodes; the assertions of the code hold. *)

From stdpp Require Import base numbers list gmap sorting.
From S2P Require Import Prelude Containers KvTree KvOrder.

Definition bound : Type := option (list Z).
Definition blt (b : bound) (k : list Z) : Prop := match b with None => True | Some s => klt s k end.
Definition bblt (a b : bound) : Prop := match b with None => False | Some k => blt a k end.
Definition kleb (k : list Z) (b : bound) : Prop := match b with None => False | Some s => kle k s end.

(** A leaf without its parent pointer. *)
Definition strip (l : leafnode) : leafnode := LeafNode (ln_addr l) 0 (hashes l) (lkeys l) (leaf l).

Fixpoint flat (n : node) (lo : bound) : list (bound * leafnode) :=
  match n with
  | NLeaf l => [(lo, strip l)]
  | NInner _ _ ks cs => concat (zip_with (fun f b => f b) (map flat cs) (lo :: (Some <$> ks)))
  end.
Definition flats (cs : list node) (bs : list bound) : list (bound * leafnode) := concat (zip_with flat cs bs).
Definition bounds (lo : bound) (ks : list (list Z)) : list bound := lo :: (Some <$> ks).

Definition sorted_los (es : list (bound * leafnode)) : Prop :=
  StronglySorted (fun e1 e2 => bblt e1.1 e2.1) es.
Definition sep_ok (k : list Z) : Prop := k <> [] /\ nul_free k.

Inductive wf : Z -> node -> Prop :=
| wf_leaf l : wf (ln_parent l) (NLeaf l)
| wf_inner a p ks cs : a <> 0 -> length cs = S (length ks) -> (length ks <= INNER_KEYS)%nat -> Forall sep_ok ks ->
    Forall (wf a) cs -> wf p (NInner a p ks cs).

(** A path whose inner nodes are well formed but for the child in the hole:
    [p] is the parent of the outermost node and [q] that of the hole. *)
Fixpoint wf_path (p : Z) (path : list crumb) (q : Z) : Prop :=
  match path with
  | [] => q = p
  | c :: path =>
      q = c_addr c /\ c_addr c <> 0 /\ (length (c_before c) + length (c_after c) = length (c_keys c))%nat /\
      (length (c_keys c) <= INNER_KEYS)%nat /\ Forall sep_ok (c_keys c) /\ Forall (wf (c_addr c)) (c_before c) /\
      Forall (wf (c_addr c)) (c_after c) /\ wf_path p path (c_parent c)
  end.

(** What a path has left of the hole, the bound at the hole, and what it has
    on its right. *)
Fixpoint pctx (path : list crumb) (lo0 : bound) : list (bound * leafnode) * bound * list (bound * leafnode) :=
  match path with
  | [] => ([], lo0, [])
  | c :: path =>
      let '(A, lo, B) := pctx path lo0 in
      let n := length (c_before c) in
      let bs := bounds lo (c_keys c) in
      (A ++ flats (c_before c) (take n bs), nth n bs None, flats (c_after c) (drop (S n) bs) ++ B)
  end.

Lemma node_ind' (P : node -> Prop) :
  (forall l, P (NLeaf l)) -> (forall a p ks cs, Forall P cs -> P (NInner a p ks cs)) -> forall n, P n.
Proof.
  intros Hl Hi. fix IH 1. intros [l|a p ks cs]; [apply Hl|]. apply Hi.
  induction cs as [|c cs IHcs]; constructor; [apply IH|apply IHcs].
Qed.

Lemma flat_inner a p ks cs lo : flat (NInner a p ks cs) lo = flats cs (bounds lo ks).
Proof. cbn [flat]. unfold flats. by rewrite zip_with_fmap_l. Qed.
Lemma flat_leaf l lo : flat (NLeaf l) lo = [(lo, strip l)].
Proof. done. Qed.
Lemma flat_set_parent p n lo : flat (set_parent p n) lo = flat n lo.
Proof. by destruct n. Qed.
Lemma wf_set_parent p q n : wf p n -> wf q (set_parent q n).
Proof. inversion 1; subst; cbn; [apply (wf_leaf (LeafNode _ q _ _ _))|by constructor]. Qed.
Lemma wf_parent p n : wf p n -> parent_of n = p.
Proof. by inversion 1. Qed.

Lemma flats_app cs1 cs2 bs1 bs2 : length cs1 = length bs1 ->
  flats (cs1 ++ cs2) (bs1 ++ bs2) = flats cs1 bs1 ++ flats cs2 bs2.
Proof. intros. unfold flats. by rewrite zip_with_app, concat_app. Qed.
Lemma flats_cons c cs b bs : flats (c :: cs) (b :: bs) = flat c b ++ flats cs bs.
Proof. done. Qed.
Lemma flats_set_parent p cs bs : flats (map (set_parent p) cs) bs = flats cs bs.
Proof.
  revert bs. induction cs as [|c cs IH]; intros [|b bs]; try done.
  cbn [map]. by rewrite !flats_cons, flat_set_parent, IH.
Qed.

Lemma flat_head p n lo : wf p n -> exists l tl, flat n lo = (lo, l) :: tl.
Proof.
  revert p lo. induction n as [l|a q ks cs IH] using node_ind'; intros p lo Hwf.
  - rewrite flat_leaf. eauto.
  - inversion Hwf as [|? ? ? ? ? Hlen _ _ Hcs]; subst. destruct cs as [|c cs]; [done|].
    rewrite flat_inner. unfold bounds. rewrite flats_cons.
    apply Forall_cons in IH as [IH _]. apply Forall_cons in Hcs as [Hc _].
    destruct (IH _ lo Hc) as (l & tl & ->). eauto.
Qed.
Lemma flats_los p cs bs b : Forall (wf p) cs -> length cs = length bs -> b ∈ bs ->
  exists l, (b, l) ∈ flats cs bs.
Proof.
  intros Hcs. revert bs. induction Hcs as [|c cs Hc _ IH]; intros [|b' bs] Hl Hb; try done; [by apply elem_of_nil in Hb|].
  rewrite flats_cons. apply elem_of_cons in Hb as [->|Hb].
  - destruct (flat_head _ _ b' Hc) as (l & tl & ->). exists l. set_solver.
  - destruct (IH bs) as [l Hin]; [cbn in Hl; lia|done|]. exists l. set_solver.
Qed.

Lemma assert_invariants_ok ks cs : (length ks <= INNER_KEYS)%nat -> Forall sep_ok ks -> length cs = S (length ks) ->
  assert_invariants ks cs = true.
Proof.
  intros Hk Hs Hl. unfold assert_invariants. rewrite Hl. rewrite !andb_true_iff. repeat split.
  - by apply Nat.leb_le.
  - apply forallb_forall. intros k Hin. rewrite Forall_forall in Hs.
    destruct (Hs k) as [Hne _]; [by apply list_elem_of_In|]. by destruct k.
  - apply Nat.ltb_lt. lia.
  - apply Nat.leb_le. lia.
Qed.

(** ** Paths *)

Lemma rebuild_cons c path n : rebuild (c :: path) n = rebuild path (plug n c).
Proof. done. Qed.
Lemma rebuild_snoc path c n : rebuild (path ++ [c]) n = plug (rebuild path n) c.
Proof. unfold rebuild. by rewrite foldl_app. Qed.

Lemma length_bounds lo ks : length (bounds lo ks) = S (length ks).
Proof. unfold bounds. cbn. by rewrite length_fmap. Qed.

Lemma bounds_split lo ks n : (n <= length ks)%nat ->
  bounds lo ks = take n (bounds lo ks) ++ nth n (bounds lo ks) None :: drop (S n) (bounds lo ks).
Proof.
  intros Hn. destruct (lookup_lt_is_Some_2 (bounds lo ks) n) as [b Hb]; [rewrite length_bounds; lia|].
  assert (nth n (bounds lo ks) None = b) as -> by (by apply nth_lookup_Some).
  symmetry. by apply take_drop_middle.
Qed.

(** Inserting a key is inserting a bound one position further. *)
Lemma bounds_insert lo ks n s : (n <= length ks)%nat ->
  bounds lo (take n ks ++ s :: drop n ks) =
  take n (bounds lo ks) ++ nth n (bounds lo ks) None :: Some s :: drop (S n) (bounds lo ks).
Proof.
  revert lo ks. induction n as [|n IH]; intros lo [|k ks] Hn; cbn in Hn; try done; [lia|].
  cbn [take drop app]. change (bounds ?b (?k :: ?l)) with (b :: bounds (Some k) l).
  rewrite IH by lia. done.
Qed.

Lemma flat_plug c lo n : (length (c_before c) + length (c_after c) = length (c_keys c))%nat ->
  flat (plug n c) lo =
  flats (c_before c) (take (length (c_before c)) (bounds lo (c_keys c))) ++
  flat n (nth (length (c_before c)) (bounds lo (c_keys c)) None) ++
  flats (c_after c) (drop (S (length (c_before c))) (bounds lo (c_keys c))).
Proof.
  intros Hl. unfold plug. rewrite flat_inner.
  rewrite (bounds_split lo (c_keys c) (length (c_before c))) at 1 by lia.
  rewrite flats_app by (rewrite length_take, length_bounds; lia). by rewrite flats_cons.
Qed.

Lemma wf_plug c p q n : wf_path p [c] q -> wf q n -> wf p (plug n c).
Proof.
  intros (-> & ? & Hl & ? & ? & ? & ? & <-) Hn. constructor; [done| |done..|].
  - rewrite length_app. cbn. lia.
  - apply Forall_app_2; [done|]. by constructor.
Qed.

Lemma wf_path_cons p c path q :
  wf_path p (c :: path) q <-> wf_path (c_parent c) [c] q /\ wf_path p path (c_parent c).
Proof. cbn. naive_solver. Qed.
Lemma wf_path_app p p1 p2 q :
  wf_path p (p1 ++ p2) q <-> exists r, wf_path r p1 q /\ wf_path p p2 r.
Proof.
  revert q. induction p1 as [|c p1 IH]; intros q; cbn [app].
  - cbn. naive_solver.
  - rewrite wf_path_cons, IH. setoid_rewrite (wf_path_cons _ c p1). naive_solver.
Qed.

Lemma rebuild_wf p path q n : wf_path p path q -> wf q n -> wf p (rebuild path n).
Proof.
  revert q n. induction path as [|c path IH]; intros q n Hp Hn; [by cbn in Hp; subst|].
  apply wf_path_cons in Hp as [Hc Hp]. rewrite rebuild_cons. eapply IH; [done|]. by eapply wf_plug.
Qed.

Lemma flat_rebuild p path q n lo0 A lo B : wf_path p path q -> pctx path lo0 = (A, lo, B) ->
  flat (rebuild path n) lo0 = A ++ flat n lo ++ B.
Proof.
  revert q n A lo B. induction path as [|c path IH]; intros q n A lo B Hp Hc.
  - cbn in *. simplify_eq. by rewrite app_nil_r.
  - rewrite rebuild_cons. cbn in Hc. destruct (pctx path lo0) as [[A' lo'] B'] eqn:E. simplify_eq.
    apply wf_path_cons in Hp as [(_ & _ & Hl & _) Hp].
    rewrite (IH _ _ _ _ _ Hp eq_refl), flat_plug by done. by rewrite <- !app_assoc.
Qed.

Lemma pctx_snoc path c lo0 A lo B :
  pctx path (nth (length (c_before c)) (bounds lo0 (c_keys c)) None) = (A, lo, B) ->
  pctx (path ++ [c]) lo0 =
  (flats (c_before c) (take (length (c_before c)) (bounds lo0 (c_keys c))) ++ A, lo,
   B ++ flats (c_after c) (drop (S (length (c_before c))) (bounds lo0 (c_keys c)))).
Proof.
  revert A lo B. induction path as [|c' path IH]; intros A lo B Hc.
  - cbn in *. simplify_eq. by rewrite !app_nil_r.
  - cbn in Hc. destruct (pctx path _) as [[A' lo'] B'] eqn:E. simplify_eq.
    cbn. rewrite (IH _ _ _ eq_refl). by rewrite <- !app_assoc.
Qed.

Lemma sorted_los_app es1 es2 : sorted_los (es1 ++ es2) <->
  sorted_los es1 /\ sorted_los es2 /\ (forall e1 e2, e1 ∈ es1 -> e2 ∈ es2 -> bblt e1.1 e2.1).
Proof.
  unfold sorted_los. split.
  - intros H. split_and!; eauto using StronglySorted_app_1_l, StronglySorted_app_1_r.
    intros e1 e2 H1 H2. exact (StronglySorted_app_1_elem_of _ _ _ _ _ H H1 H2).
  - intros (? & ? & ?). by apply StronglySorted_app_2.
Qed.

(** ** Search *)

Lemma sorted_los_first lo l tl b k : sorted_los ((b, l) :: tl) -> kleb k b -> lo = b ->
  Forall (fun e => kleb k e.1) ((lo, l) :: tl).
Proof.
  intros Hs Hk ->. apply StronglySorted_inv in Hs as [_ Hs]. constructor; [done|].
  eapply Forall_impl; [done|]. intros [b' l'] Hb. cbn in *. destruct b as [b|], b' as [b'|]; try done. cbn in *. eauto with kv.
Qed.

(** What the search in one inner node finds: a child, with the bounds around
    it on both sides of the key. *)
Lemma scan_children_spec {R} (go : node -> crumb -> res R) a p ks key lo before kb ks' cs' cs :
  cs = before ++ cs' -> ks = kb ++ ks' -> length before = length kb -> length cs' = S (length ks') ->
  nul_free key -> Forall sep_ok ks -> Forall (fun b => blt b key) (bounds lo kb) ->
  exists c before' after', cs = before' ++ c :: after' /\
    scan_children go a p ks key before ks' cs' = go c (Crumb a p ks before' after') /\
    blt (nth (length before') (bounds lo ks) None) key /\
    match drop (S (length before')) (bounds lo ks) with [] => True | b :: _ => kleb key b end.
Proof.
  intros Hcs Hks Hlb Hlc Hkey Hsep. revert before kb ks' Hcs Hks Hlb Hlc.
  induction cs' as [|c cs' IH]; intros before kb ks' Hcs Hks Hlb Hlc Hlt; [done|].
  assert (Hnth : blt (nth (length before) (bounds lo ks) None) key).
  { destruct (lookup_lt_is_Some_2 (bounds lo kb) (length before)) as [b Hb]; [rewrite length_bounds; lia|].
    assert (nth (length before) (bounds lo ks) None = b) as ->.
    { apply nth_lookup_Some. rewrite Hks. unfold bounds. rewrite fmap_app. by apply (lookup_app_l_Some (bounds lo kb)). }
    exact (Forall_lookup_1 _ _ _ _ Hlt Hb). }
  assert (Hdrop : drop (S (length before)) (bounds lo ks) = Some <$> ks').
  { rewrite Hks, Hlb. unfold bounds. rewrite fmap_app. cbn [drop].
    rewrite <- (length_fmap Some kb). apply drop_app_length. }
  destruct ks' as [|k ks']; cbn [scan_children].
  - exists c, before, cs'. rewrite Hdrop. done.
  - rewrite strcmp_nul_free, is_le_spec; [|done|].
    2:{ rewrite Hks in Hsep. by apply Forall_app in Hsep as [_ [[_ ?] _]%Forall_cons]. }
    case_bool_decide as Hle.
    + exists c, before, cs'. rewrite Hdrop. done.
    + apply nle_klt in Hle. apply (IH (before ++ [c]) (kb ++ [k])).
      * by rewrite <- app_assoc.
      * by rewrite <- app_assoc.
      * rewrite !length_app. cbn. lia.
      * cbn in Hlc. lia.
      * unfold bounds. rewrite fmap_app. cbn. apply Forall_cons in Hlt as [? ?]. constructor; [done|].
        apply Forall_app_2; [done|]. by constructor.
Qed.

Lemma LeafSearch_from_spec n p lo key path0 : wf p n -> nul_free key -> sorted_los (flat n lo) -> blt lo key ->
  exists path l A lo' B, LeafSearch_from n key path0 = Ok (path ++ path0, l) /\ rebuild path (NLeaf l) = n /\
    wf_path p path (ln_parent l) /\ pctx path lo = (A, lo', B) /\ blt lo' key /\ Forall (fun e => kleb key e.1) B.
Proof.
  revert p lo path0. induction n as [l|a q ks cs IH] using node_ind'; intros p lo path0 Hwf Hkey Hs Hlo.
  { inversion Hwf; subst. by exists [], l, [], lo, []. }
  inversion Hwf as [|? ? ? ? Ha Hlen Hk Hsep Hcs]; subst. cbn [LeafSearch_from].
  rewrite assert_invariants_ok by done.
  destruct (scan_children_spec (fun c cr => LeafSearch_from c key (cr :: path0)) a q ks key lo [] [] ks cs cs)
    as (c & before & after & Hsplit & -> & Hb & Hd); [done..|repeat constructor; done|].
  subst cs. apply Forall_app in IH as [_ [IH _]%Forall_cons]. apply Forall_app in Hcs as [Hwb [Hwc Hwa]%Forall_cons].
  set (cr := Crumb a q ks before after). rewrite length_app in Hlen. cbn in Hlen.
  change (NInner a q ks (before ++ c :: after)) with (plug c cr) in *.
  rewrite flat_plug in Hs by (cbn; lia). cbn [c_before c_after c_keys cr] in Hs.
  apply sorted_los_app in Hs as (_ & Hs & _). apply sorted_los_app in Hs as (Hsc & Hsa & _).
  destruct (IH a _ (cr :: path0) Hwc Hkey Hsc Hb) as (path & l & A & lo' & B & -> & <- & Hwp & Hctx & Hlo' & HB).
  exists (path ++ [cr]), l. eexists _, lo', _. split_and!.
  - by rewrite <- app_assoc.
  - apply rebuild_snoc.
  - apply wf_path_app. exists a. split; [done|]. cbn. split_and!; try done. lia.
  - by apply pctx_snoc.
  - done.
  - apply Forall_app_2; [done|]. cbn [c_before c_after c_keys cr].
    destruct (drop (S (length before)) (bounds lo ks)) as [|b bs]; [by destruct after|].
    destruct after as [|c' after]; [done|]. rewrite flats_cons in *.
    apply Forall_cons in Hwa as [Hwc' _]. destruct (flat_head _ _ b Hwc') as (l' & tl & Hfl).
    rewrite Hfl in *. by eapply (sorted_los_first b).
Qed.

(** The rightmost leaf has nothing on its right. *)
Lemma last_child_spec {R} (go : node -> crumb -> res R) a p ks before cs' : cs' <> [] ->
  exists c before', before ++ cs' = before' ++ [c] /\ last_child go a p ks before cs' = go c (Crumb a p ks before' []).
Proof.
  revert before. induction cs' as [|c cs' IH]; intros before Hne; [done|].
  destruct cs' as [|c' cs']; cbn [last_child]; [by exists c, before|].
  destruct (IH (before ++ [c])) as (c'' & before' & Heq & Hgo); [done|].
  exists c'', before'. split; [by rewrite <- Heq, <- app_assoc|exact Hgo].
Qed.

Lemma rightmost_spec n p lo path0 : wf p n ->
  exists path l A lo', rightmost n path0 = Ok (path ++ path0, l) /\ rebuild path (NLeaf l) = n /\
    wf_path p path (ln_parent l) /\ pctx path lo = (A, lo', []).
Proof.
  revert p lo path0. induction n as [l|a q ks cs IH] using node_ind'; intros p lo path0 Hwf.
  { inversion Hwf; subst. by exists [], l, [], lo. }
  inversion Hwf as [|? ? ? ? Ha Hlen Hk Hsep Hcs]; subst. cbn [rightmost].
  destruct (last_child_spec (fun c cr => rightmost c (cr :: path0)) a q ks [] cs) as (c & before & Heq & ->);
    [by destruct cs|].
  cbn in Heq. subst cs. apply Forall_app in IH as [_ [IH _]%Forall_cons]. apply Forall_app in Hcs as [Hwb [Hwc _]%Forall_cons].
  set (cr := Crumb a q ks before []). rewrite length_app in Hlen. cbn in Hlen.
  destruct (IH a (nth (length before) (bounds lo ks) None) (cr :: path0) Hwc) as (path & l & A & lo' & -> & <- & Hwp & Hctx).
  exists (path ++ [cr]), l. eexists _, lo'. split_and!.
  - by rewrite <- app_assoc.
  - apply rebuild_snoc.
  - apply wf_path_app. exists a. split; [done|]. cbn. split_and!; try done. lia.
  - by rewrite (pctx_snoc path cr _ _ _ _ Hctx).
Qed.

(** ** Insertion *)

Lemma insert_idx_spec ks s n : (n <= length ks)%nat -> Forall (fun k => klt k s) (take n ks) ->
  match drop n ks with [] => True | k :: _ => klt s k end -> insert_idx ks s = n.
Proof.
  revert n. induction ks as [|k ks IH]; intros [|n] Hn Hf Hd; cbn in Hn, Hf, Hd; try done; try lia.
  - cbn [insert_idx]. rewrite is_le_spec, bool_decide_eq_false_2; [done|]. by apply nle_klt.
  - apply Forall_cons in Hf as [Hk Hf]. cbn [insert_idx].
    rewrite is_le_spec, bool_decide_eq_true_2 by (by apply klt_kle). f_equal. apply IH; [lia|done..].
Qed.

(** The position [InnerUpdateAfterSplit] looks for is the one of the node
    that was split. *)
Lemma insert_idx_before c lo nd new s : wf_path (c_parent c) [c] (parent_of nd) ->
  wf (parent_of nd) nd -> wf (parent_of nd) new ->
  let n := length (c_before c) in
  let bs := bounds lo (c_keys c) in
  sorted_los (flats (c_before c) (take n bs) ++ flat nd (nth n bs None) ++ flat new (Some s) ++
              flats (c_after c) (drop (S n) bs)) ->
  insert_idx (c_keys c) s = n.
Proof.
  intros (-> & _ & Hl & _ & _ & Hwb & Hwa & _) Hnd Hnew n bs Hs.
  destruct (flat_head _ _ (Some s) Hnew) as (l & tl & Hfl). rewrite Hfl in Hs.
  assert (Hn : (n < length bs)%nat) by (unfold bs; rewrite length_bounds; unfold n; lia).
  assert (HS : take (S n) bs = take n bs ++ [nth n bs None]).
  { destruct (lookup_lt_is_Some_2 bs n Hn) as [b Hb]. rewrite (take_S_r _ _ _ Hb). f_equal. f_equal.
    symmetry. by apply nth_lookup_Some. }
  rewrite app_assoc in Hs. apply sorted_los_app in Hs as (_ & Hs2 & Hlt).
  apply insert_idx_spec; [unfold n; lia| |].
  - apply Forall_lookup_2. intros i k Hi. apply lookup_take_Some in Hi as [Hi Hlt'].
    destruct (flats_los (c_addr c) (c_before c ++ [nd]) (take (S n) bs) (Some k)) as [l' Hin].
    + apply Forall_app_2; [done|]. by constructor.
    + rewrite length_app, length_take. cbn [length]. unfold n in *. lia.
    + apply (list_elem_of_lookup_2 _ (S i)), lookup_take_Some. split; [|lia].
      change (bs !! S i) with ((Some <$> c_keys c) !! i). by rewrite list_lookup_fmap, Hi.
    + rewrite HS, flats_app in Hin by (rewrite length_take; unfold n in *; lia). cbn in Hin. rewrite app_nil_r in Hin.
      exact (Hlt _ (Some s, l) Hin (list_elem_of_here _ _)).
  - assert (Hd : drop (S n) bs = Some <$> drop n (c_keys c)) by (unfold bs, bounds; cbn [drop]; by rewrite fmap_drop).
    destruct (drop n (c_keys c)) as [|k ks'] eqn:Ek; [done|].
    destruct (c_after c) as [|c' after] eqn:Ea.
    { apply (f_equal length) in Ek. rewrite length_drop in Ek. cbn in Ek, Hl. unfold n in Ek. lia. }
    apply Forall_cons in Hwa as [Hwc' _]. destruct (flat_head _ _ (Some k) Hwc') as (l' & tl' & Hfl').
    rewrite Hd, fmap_cons in Hs2. rewrite flats_cons, Hfl' in Hs2.
    apply StronglySorted_inv in Hs2 as [_ Hs2]. rewrite Forall_forall in Hs2.
    apply (Hs2 (Some k, l')). set_solver.
Qed.

(** The children and keys of the inner node after the insertion. *)
Lemma inserted_children c nd new :
  let n := length (c_before c) in
  let cs := c_before c ++ nd :: c_after c in
  take (S n) cs ++ new :: drop (S n) cs = c_before c ++ nd :: new :: c_after c.
Proof.
  cbn zeta. replace (c_before c ++ nd :: c_after c) with ((c_before c ++ [nd]) ++ c_after c) by (by rewrite <- app_assoc).
  rewrite take_app_length', drop_app_length' by (rewrite length_app; cbn; lia).
  by rewrite <- app_assoc.
Qed.

Lemma flats_inserted c lo nd new s : (length (c_before c) + length (c_after c) = length (c_keys c))%nat ->
  let n := length (c_before c) in
  let bs := bounds lo (c_keys c) in
  flats (c_before c ++ nd :: new :: c_after c) (bounds lo (take n (c_keys c) ++ s :: drop n (c_keys c))) =
  flats (c_before c) (take n bs) ++ flat nd (nth n bs None) ++ flat new (Some s) ++ flats (c_after c) (drop (S n) bs).
Proof.
  intros Hl n bs. rewrite bounds_insert by (unfold n; lia). fold bs.
  rewrite flats_app by (rewrite length_take; unfold bs; rewrite length_bounds; unfold n; lia).
  by rewrite !flats_cons.
Qed.

(** A node with one key too many becomes two with the same leaves. *)
Lemma split_inner a p fresh lo ks cs : length ks = 5%nat -> length cs = S (length ks) -> Forall sep_ok ks ->
  Forall (wf a) cs -> a <> 0 -> fresh <> 0 ->
  let in_ks := take INNER_KEYS_MIDPOINT ks in
  let in_cs := take INNER_KEYS_UPPER cs in
  let ni_ks := take INNER_KEYS_MIDPOINT (drop INNER_KEYS_UPPER ks) in
  let ni_cs := map (set_parent fresh) (drop INNER_KEYS_UPPER cs) in
  let s := nth INNER_KEYS_MIDPOINT ks [] in
  assert_invariants in_ks in_cs = true /\ assert_invariants ni_ks ni_cs = true /\
  wf p (NInner a p in_ks in_cs) /\ wf p (NInner fresh p ni_ks ni_cs) /\ sep_ok s /\
  flats cs (bounds lo ks) = flat (NInner a p in_ks in_cs) lo ++ flat (NInner fresh p ni_ks ni_cs) (Some s).
Proof.
  intros Hk Hc Hs Hw Ha Hf. rewrite Hk in Hc.
  destruct ks as [|k0 [|k1 [|k2 [|k3 [|k4 [|]]]]]]; try done.
  destruct cs as [|c0 [|c1 [|c2 [|c3 [|c4 [|c5 [|]]]]]]]; try done.
  rewrite !Forall_cons in Hs. rewrite !Forall_cons in Hw. destruct Hs as (? & ? & ? & ? & ? & _), Hw as (? & ? & ? & ? & ? & ? & _).
  cbn [take drop INNER_KEYS_MIDPOINT INNER_KEYS_UPPER nth map]. split_and!.
  1,2: apply assert_invariants_ok; cbn; unfold INNER_KEYS; auto; lia.
  1,2: constructor; cbn; unfold INNER_KEYS; try lia;
    repeat first [apply Forall_nil_2 | apply Forall_cons_2]; eauto using wf_set_parent.
  - done.
  - rewrite !flat_inner. unfold bounds. cbn [fmap list_fmap]. rewrite !flats_cons, !flat_set_parent.
    by rewrite <- !app_assoc.
Qed.

Lemma inserted_wf c nd new s : wf_path (c_parent c) [c] (parent_of nd) -> wf (parent_of nd) nd -> wf (parent_of nd) new ->
  sep_ok s ->
  let n := length (c_before c) in
  let ks := take n (c_keys c) ++ s :: drop n (c_keys c) in
  let cs := c_before c ++ nd :: new :: c_after c in
  length ks = S (length (c_keys c)) /\ length cs = S (length ks) /\ Forall sep_ok ks /\ Forall (wf (c_addr c)) cs.
Proof.
  intros (Hpar & _ & Hl & _ & Hsep & Hwb & Hwa & _) Hnd Hnew Hs n ks cs. rewrite Hpar in *.
  assert (Hks : length ks = S (length (c_keys c))) by (unfold ks, n; rewrite length_app, length_take; cbn; rewrite length_drop; lia).
  split_and!; [done|unfold cs; rewrite length_app; cbn; lia|..].
  - apply Forall_app_2; [by apply Forall_take|]. constructor; [done|by apply Forall_drop].
  - apply Forall_app_2; [done|]. by repeat constructor.
Qed.

Lemma InnerUpdate_spec path nd new s fresh A lo B :
  pctx path None = (A, lo, B) -> wf_path 0 path (parent_of nd) -> wf (parent_of nd) nd -> wf (parent_of nd) new ->
  0 < fresh -> sep_ok s -> sorted_los (A ++ flat nd lo ++ flat new (Some s) ++ B) ->
  exists top fresh', InnerUpdateAfterSplit path nd new s fresh = Ok (top, fresh') /\ wf 0 top /\ fresh <= fresh' /\
    flat top None = A ++ flat nd lo ++ flat new (Some s) ++ B.
Proof.
  revert nd new s fresh A lo B. induction path as [|c path IH]; intros nd new s fresh A lo B Hctx Hp Hnd Hnew Hfr Hs Hsort.
  - cbn in Hctx, Hp. simplify_eq. cbn [InnerUpdateAfterSplit]. rewrite Hp in *. cbn [Z.eqb].
    rewrite assert_invariants_ok by (cbn; unfold INNER_KEYS; auto; lia).
    eexists _, _. split; [done|]. split; [|split; [lia|]].
    + constructor; cbn; unfold INNER_KEYS; auto; try lia. repeat constructor; by eapply wf_set_parent.
    + rewrite flat_inner. unfold bounds. cbn [fmap list_fmap]. rewrite !flats_cons, !flat_set_parent. by rewrite !app_nil_r.
  - cbn in Hctx. destruct (pctx path None) as [[A' lo'] B'] eqn:E. simplify_eq.
    apply wf_path_cons in Hp as [Hc Hp].
    assert (Hidx : insert_idx (c_keys c) s = length (c_before c)).
    { eapply (insert_idx_before c lo' nd new s); [done..|].
      rewrite <- !app_assoc in Hsort. apply sorted_los_app in Hsort as (_ & Hsort & _).
      rewrite !app_assoc in Hsort. apply sorted_los_app in Hsort as (Hsort & _ & _). by rewrite <- !app_assoc in Hsort. }
    destruct (inserted_wf c nd new s Hc Hnd Hnew Hs) as (Hks & Hcs & Hsks & Hwcs).
    destruct Hc as (Hpar & Ha & Hl & Hk & _). cbn [InnerUpdateAfterSplit]. rewrite Hpar. destruct (c_addr c =? 0) eqn:E0; [lia|].
    rewrite Z.eqb_refl, Hidx. rewrite inserted_children.
    pose proof (flats_inserted c lo' nd new s Hl) as Hfl. cbn zeta in Hfl.
    set (ks := take (length (c_before c)) (c_keys c) ++ s :: drop (length (c_before c)) (c_keys c)) in *.
    set (cs := c_before c ++ nd :: new :: c_after c) in *.
    assert (Hall : A' ++ flats cs (bounds lo' ks) ++ B' =
      (A' ++ flats (c_before c) (take (length (c_before c)) (bounds lo' (c_keys c)))) ++
      flat nd (nth (length (c_before c)) (bounds lo' (c_keys c)) None) ++ flat new (Some s) ++
      flats (c_after c) (drop (S (length (c_before c))) (bounds lo' (c_keys c))) ++ B').
    { rewrite Hfl. by rewrite <- !app_assoc. }
    clearbody ks cs. destruct (length ks <=? INNER_KEYS)%nat eqn:E4.
    + apply Nat.leb_le in E4. rewrite assert_invariants_ok by done. eexists _, _. split; [done|].
      assert (Hwn : wf (c_parent c) (NInner (c_addr c) (c_parent c) ks cs)) by (by constructor).
      split; [by eapply rebuild_wf|]. split; [lia|].
      rewrite (flat_rebuild _ _ _ _ _ _ _ _ Hp E), flat_inner. apply Hall.
    + apply Nat.leb_gt in E4. assert (Hk5 : length ks = 5%nat) by (unfold INNER_KEYS in *; lia).
      destruct (split_inner (c_addr c) (c_parent c) fresh lo' ks cs) as (H1 & H2 & H3 & H4 & H5 & Hsp); [done..|lia|].
      rewrite H1, H2. rewrite Hsp in Hall. edestruct IH as (top & fresh' & -> & Hwt & Hfr' & Hft);
        [done|exact Hp|exact H3|exact H4|lia|exact H5| |].
      { rewrite <- app_assoc in Hall. by rewrite Hall. }
      exists top, fresh'. split; [done|]. split; [done|]. split; [lia|].
      rewrite Hft. rewrite <- app_assoc in Hall. apply Hall.
Qed.
