(* ===== verification/KvLeaf.v ===== *)
(** * The leaves of the key-value store as arrays of optional pairs

    The three copies of a slot (hash and key in the volatile node, buffer in
    the pool) represent one [cell]: nothing, or a key with its value.  Every
    operation on a leaf of KvTree.v is an update of the array of cells. *)

From stdpp Require Import base numbers list gmap sorting.
From S2P Require Import Prelude Containers KvTree KvOrder KvShape.

Abbreviation cell := (option (list Z * list Z)).
Definition cell_hash (c : cell) : Z := match c with None => 0 | Some (k, _) => ph k end.
Definition cell_key (c : cell) : list Z := match c with None => [] | Some (k, _) => k end.
Definition cell_kv (c : cell) : kvptr := match c with None => Null | Some (k, v) => Buf (encode (ph k) k v) end.
Definition cell_ok (c : cell) : Prop := match c with None => True | Some (k, v) => key_ok k /\ value_ok v end.

(** The keys of a leaf. *)
Definition ckeys (cells : list cell) : list (list Z) := omap (fmap fst) cells.

Definition leaf_is (l : leafnode) (cells : list cell) : Prop :=
  hashes l = cell_hash <$> cells /\ lkeys l = cell_key <$> cells.
Definition has_cells (pl : pool) (lf : Z) (cells : list cell) : Prop :=
  exists L, leaves pl !! lf = Some L /\ slots L = cell_kv <$> cells.
Definition cells_ok (cells : list cell) : Prop :=
  length cells = LEAF_KEYS /\ Forall cell_ok cells /\ NoDup (ckeys cells).

(** A pool that differs from another in the slots of some leaves only. *)
Definition same_but (ids : list Z) (pl pl' : pool) : Prop :=
  head pl' = head pl /\ next_leaf pl' = next_leaf pl /\
  (forall i, i ∉ ids -> leaves pl' !! i = leaves pl !! i) /\
  (forall i, leaf_next <$> leaves pl' !! i = leaf_next <$> leaves pl !! i).

Lemma elem_of_ckeys k cells : k ∈ ckeys cells <-> exists v, Some (k, v) ∈ cells.
Proof.
  unfold ckeys. rewrite list_elem_of_omap. split.
  - intros (c & Hin & Hc). destruct c as [[k' v]|]; cbn in Hc; simplify_eq. eauto.
  - intros [v Hin]. by exists (Some (k, v)).
Qed.
Lemma ckeys_app c1 c2 : ckeys (c1 ++ c2) = ckeys c1 ++ ckeys c2.
Proof. unfold ckeys. apply omap_app. Qed.

Lemma same_but_refl ids pl : same_but ids pl pl.
Proof. done. Qed.
Lemma same_but_trans ids pl1 pl2 pl3 : same_but ids pl1 pl2 -> same_but ids pl2 pl3 -> same_but ids pl1 pl3.
Proof.
  intros (H1 & H2 & H3 & H4) (H1' & H2' & H3' & H4'). split_and!; [congruence..| |].
  - intros i Hi. by rewrite H3', H3.
  - intros i. by rewrite H4', H4.
Qed.
Lemma same_but_weaken ids ids' pl pl' : ids ⊆ ids' -> same_but ids pl pl' -> same_but ids' pl pl'.
Proof. intros Hs (H1 & H2 & H3 & H4). split_and!; [done..| |done]. intros i Hi. apply H3. set_solver. Qed.
Lemma same_but_cells ids pl pl' lf cells : same_but ids pl pl' -> lf ∉ ids -> has_cells pl lf cells -> has_cells pl' lf cells.
Proof. intros (_ & _ & H & _) Hn (L & HL & HS). exists L. by rewrite H. Qed.

(** ** Slots of the pool *)

Lemma pool_slot_cells pl lf cells i c : has_cells pl lf cells -> cells !! i = Some c -> pool_slot pl lf i = Ok (cell_kv c).
Proof. intros (L & HL & HS) Hc. unfold pool_slot. by rewrite HL, HS, list_lookup_fmap, Hc. Qed.

Lemma set_pool_slot_same pl lf i kv : same_but [lf] pl (set_pool_slot pl lf i kv).
Proof.
  split_and!; cbn; [done..| |].
  - intros j Hj. apply lookup_alter_ne. set_solver.
  - intros j. destruct (decide (j = lf)) as [->|].
    + rewrite lookup_alter_eq. by destruct (leaves pl !! lf).
    + by rewrite lookup_alter_ne.
Qed.
Lemma set_pool_slot_cells pl lf i cells c : has_cells pl lf cells -> has_cells (set_pool_slot pl lf i (cell_kv c)) lf (<[i := c]> cells).
Proof.
  intros (L & HL & HS). eexists. cbn. rewrite lookup_alter_eq, HL. split; [done|]. cbn. by rewrite HS, list_fmap_insert.
Qed.
Lemma set_pool_slot_twice pl lf i a b : set_pool_slot (set_pool_slot pl lf i a) lf i b = set_pool_slot pl lf i b.
Proof.
  unfold set_pool_slot. cbn. f_equal. apply map_eq. intros j. destruct (decide (j = lf)) as [->|].
  - rewrite !lookup_alter_eq. destruct (leaves pl !! lf) as [L|]; [|done]. cbn. by rewrite list_insert_insert_eq.
  - by rewrite !lookup_alter_ne.
Qed.

(** ** Scanning the slots *)

(** Two lookups of one slot. *)
Ltac same_cell := intros; try intro; simplify_eq; cbn in *; try done; congruence.

Section Scan.
Context (l : leafnode) (cells : list cell) (key : list Z).
Context (Hl : leaf_is l cells) (Hok : Forall cell_ok cells) (Hkey : key_ok key).

Lemma leaf_hash i c : cells !! i = Some c -> nth i (hashes l) 0 = cell_hash c.
Proof. intros Hc. destruct Hl as [-> _]. apply nth_lookup_Some. by rewrite list_lookup_fmap, Hc. Qed.
Lemma leaf_key i c : cells !! i = Some c -> nth i (lkeys l) [] = cell_key c.
Proof. intros Hc. destruct Hl as [_ ->]. apply nth_lookup_Some. by rewrite list_lookup_fmap, Hc. Qed.

Lemma cell_ok_lookup i c : cells !! i = Some c -> cell_ok c.
Proof. intros Hc. exact (Forall_lookup_1 _ _ _ _ Hok Hc). Qed.
Lemma cell_key_nul_free i c : cells !! i = Some c -> nul_free (cell_key c).
Proof. intros Hc%cell_ok_lookup. destruct c as [[k v]|]; [|constructor]. destruct Hc. auto with kv. Qed.

Lemma cell_hash_0 i c : cells !! i = Some c -> (cell_hash c =? 0) = bool_decide (c = None).
Proof.
  intros Hc%cell_ok_lookup. apply bool_decide_iff. rewrite Z.eqb_eq. destruct c as [[k v]|]; [|done].
  cbn in *. destruct Hc as [Hk _]. pose proof (ph_pos k Hk). split; [lia|done].
Qed.

(** The test of the loops: hash and key are those of the cell. *)
Lemma cell_match i c : cells !! i = Some c ->
  (nth i (hashes l) 0 =? ph key) && is_eq (strcmp (nth i (lkeys l) []) key) =
  bool_decide (fst <$> c = Some key).
Proof.
  intros Hc. rewrite (leaf_hash _ _ Hc), (leaf_key _ _ Hc).
  rewrite strcmp_nul_free, is_eq_spec by eauto using cell_key_nul_free with kv.
  apply bool_decide_iff. rewrite andb_true_iff, Z.eqb_eq, bool_decide_eq_true.
  destruct c as [[k v]|]; cbn; [naive_solver|]. pose proof (ph_pos key Hkey). naive_solver lia.
Qed.

Lemma find_slot_spec n : (n <= length cells)%nat ->
  match find_slot n l (ph key) key with
  | Some i => (i < n)%nat /\ exists v, cells !! i = Some (Some (key, v))
  | None => forall i v, (i < n)%nat -> cells !! i <> Some (Some (key, v))
  end.
Proof.
  induction n as [|n IH]; intros Hn; cbn [find_slot]; [intros; lia|].
  destruct (lookup_lt_is_Some_2 cells n) as [c Hc]; [lia|]. rewrite (cell_match _ _ Hc).
  case_bool_decide as Hm.
  - split; [lia|]. destruct c as [[k v]|]; cbn in Hm; simplify_eq. eauto.
  - specialize (IH ltac:(lia)). destruct (find_slot n l (ph key) key) as [i|].
    + destruct IH as [? ?]. split; [lia|done].
    + intros i v Hi Hi'. destruct (decide (i = n)) as [->|]; [|eapply IH; eauto; lia]. same_cell.
Qed.

Lemma scan_slots_spec n e : (n <= length cells)%nat ->
  match scan_slots n l (ph key) key e with
  | (_, Some i) => (i < n)%nat /\ exists v, cells !! i = Some (Some (key, v))
  | (e', None) =>
      (forall i v, (i < n)%nat -> cells !! i <> Some (Some (key, v))) /\
      match e' with
      | Some i => e = Some i \/ cells !! i = Some None
      | None => e = None /\ forall i, (i < n)%nat -> cells !! i <> Some None
      end
  end.
Proof.
  revert e. induction n as [|n IH]; intros e Hn; cbn [scan_slots].
  { split; [intros; lia|]. destruct e; [by left|]. split; [done|intros; lia]. }
  destruct (lookup_lt_is_Some_2 cells n) as [c Hc]; [lia|].
  assert (Hlt : forall P : nat -> Prop, P n -> (forall i, (i < n)%nat -> P i) -> forall i, (i < S n)%nat -> P i).
  { intros P H1 H2 i Hi. destruct (decide (i = n)) as [->|]; [done|]. apply H2. lia. }
  pose proof (cell_match _ _ Hc) as Hcm. rewrite (leaf_hash _ _ Hc) in Hcm |- *. cbv zeta.
  rewrite (cell_hash_0 _ _ Hc). destruct (bool_decide_reflect (c = None)) as [H0|H0].
  - specialize (IH (Some n) ltac:(lia)). destruct (scan_slots n l (ph key) key (Some n)) as [e' [i|]]; cbv beta iota in IH.
    + destruct IH as [? ?]. split; [lia|done].
    + destruct IH as [IH1 IH2]. split.
      * intros i v Hi. revert v. apply (Hlt (fun i => forall v, cells !! i <> Some (Some (key, v)))); [same_cell| |done]; eauto.
      * destruct e' as [i|]; naive_solver.
  - rewrite Hcm. case_bool_decide as Hm.
    + split; [lia|]. destruct c as [[k v]|]; cbn in Hm; simplify_eq. eauto.
    + specialize (IH e ltac:(lia)). destruct (scan_slots n l (ph key) key e) as [e' [i|]]; cbv beta iota in IH.
      * destruct IH as [? ?]. split; [lia|done].
      * destruct IH as [IH1 IH2]. split.
        { intros i v Hi. revert v. apply (Hlt (fun i => forall v, cells !! i <> Some (Some (key, v)))); [same_cell| |done]; eauto. }
        destruct e' as [i|]; [done|]. destruct IH2 as [-> IH2]. split; [done|]. apply Hlt; [same_cell|done].
Qed.

Lemma find_empty_slot_spec n : (n <= length cells)%nat ->
  match find_empty_slot n l with
  | Some i => (i < n)%nat /\ cells !! i = Some None
  | None => forall i, (i < n)%nat -> cells !! i <> Some None
  end.
Proof.
  induction n as [|n IH]; intros Hn; cbn [find_empty_slot]; [intros; lia|].
  destruct (lookup_lt_is_Some_2 cells n) as [c Hc]; [lia|].
  rewrite (leaf_hash _ _ Hc), (cell_hash_0 _ _ Hc). case_bool_decide as H0; [subst; split; [lia|done]|].
  specialize (IH ltac:(lia)). destruct (find_empty_slot n l) as [i|].
  - destruct IH. split; [lia|done].
  - intros i Hi. destruct (decide (i = n)) as [->|]; [congruence|]. apply IH. lia.
Qed.
End Scan.

(** ** Updating a slot *)

Lemma leaf_is_insert l cells i c a p lf : leaf_is l cells ->
  leaf_is (LeafNode a p (<[i := cell_hash c]> (hashes l)) (<[i := cell_key c]> (lkeys l)) lf) (<[i := c]> cells).
Proof. intros [Hh Hk]. split; cbn; by rewrite ?Hh, ?Hk, list_fmap_insert. Qed.

(** [l'] is [l] with other slots. *)
Definition same_leaf (l l' : leafnode) : Prop :=
  ln_addr l' = ln_addr l /\ ln_parent l' = ln_parent l /\ leaf l' = leaf l.

Section Fill.
Context (can_alloc : pool -> Z -> bool).

Lemma slot_set_spec pl lf i cells c k v : has_cells pl lf cells -> cells !! i = Some c -> key_ok k -> value_ok v ->
  exists ok pl', slot_set can_alloc pl lf i (ph k) k v = Ok (ok, pl') /\ same_but [lf] pl pl' /\
    ((forall pl n, can_alloc pl n = true) -> ok = true) /\
    (ok = true -> has_cells pl' lf (<[i := Some (k, v)]> cells)).
Proof.
  intros Hc Hi (_ & _ & Hk) (_ & Hv). unfold slot_set. rewrite (pool_slot_cells _ _ _ _ _ Hc Hi). cbn [res_bind].
  pose proof (set_pool_slot_cells pl lf i cells (Some (k, v)) Hc) as Hnew. cbn [cell_kv] in Hnew.
  destruct c as [[k' v']|]; cbn [cell_kv slot_empty deref res_bind]; rewrite slot_set_bytes by done.
  - destruct (can_alloc (set_pool_slot pl lf i Freed) _) eqn:E; eexists _, _; split; try done; rewrite ?set_pool_slot_twice.
    + split_and!; [apply set_pool_slot_same|done|done].
    + split_and!; [apply set_pool_slot_same|intros Ha; by rewrite Ha in E|done].
  - destruct (can_alloc pl _) eqn:E; eexists _, _; split; try done.
    + split_and!; [apply set_pool_slot_same|done|done].
    + split_and!; [done..|intros Ha; by rewrite Ha in E|done].
Qed.

Lemma LeafFillSpecificSlot_spec l pl cells i c k v : leaf_is l cells -> Forall cell_ok cells ->
  has_cells pl (leaf l) cells -> cells !! i = Some c -> c = None \/ (exists v', c = Some (k, v')) -> key_ok k -> value_ok v ->
  exists ok l' pl', LeafFillSpecificSlot can_alloc l pl (ph k) k v i = Ok (ok, l', pl') /\
    same_leaf l l' /\ same_but [leaf l] pl pl' /\ ((forall pl n, can_alloc pl n = true) -> ok = true) /\
    (ok = true -> leaf_is l' (<[i := Some (k, v)]> cells) /\ has_cells pl' (leaf l) (<[i := Some (k, v)]> cells)).
Proof.
  intros Hl Hok Hc Hi Hcase Hk Hv. unfold LeafFillSpecificSlot.
  destruct (slot_set_spec pl (leaf l) i cells c k v Hc Hi Hk Hv) as (ok & pl' & -> & Hs & Ha & Hp). cbn [res_bind].
  eexists ok, _, pl'. split; [done|]. split; [by destruct (_ =? 0)|]. split_and!; [done..|].
  intros Hok'. split; [|by apply Hp]. rewrite (leaf_hash _ _ Hl _ _ Hi), (cell_hash_0 _ Hok _ _ Hi).
  destruct Hcase as [->|[v' ->]]; cbn.
  - by apply (leaf_is_insert l cells i (Some (k, v))).
  - destruct Hl as [Hh Hkk]. split; rewrite ?Hh, ?Hkk, list_fmap_insert; symmetry;
      apply list_insert_id; by rewrite list_lookup_fmap, Hi.
Qed.
End Fill.

Lemma slot_clear_spec c : slot_clear (cell_kv c) = Ok (cell_kv None).
Proof. by destruct c as [[k v]|]. Qed.

(** ** Splitting a leaf *)

(** The cells that stay in a leaf split at [s] and those that leave it. *)
Definition keep_le (s : list Z) (c : cell) : cell :=
  match c with Some (k, _) => if decide (klt s k) then None else c | None => None end.
Definition keep_gt (s : list Z) (c : cell) : cell :=
  match c with Some (k, _) => if decide (klt s k) then c else None | None => None end.

Lemma keep_gt_cell s c : klt s (cell_key c) -> keep_le s c = None /\ keep_gt s c = c.
Proof. destruct c as [[k v]|]; [|done]. cbn. intros. by rewrite !decide_True. Qed.
Lemma keep_le_cell s c : ~ klt s (cell_key c) -> keep_le s c = c /\ keep_gt s c = None.
Proof. destruct c as [[k v]|]; [|done]. cbn. intros. by rewrite !decide_False. Qed.

Lemma take_S_fmap {A} (f : A -> A) l n x X : l !! n = Some x ->
  (f <$> take (S n) l) ++ X = (f <$> take n l) ++ f x :: X.
Proof. intros Hx. by rewrite (take_S_r _ _ _ Hx), fmap_app, <- app_assoc. Qed.
Lemma drop_insert_eq {A} (l : list A) n x : (n < length l)%nat -> drop n (<[n := x]> l) = x :: drop (S n) l.
Proof.
  intros Hn. rewrite (drop_S (<[n := x]> l) x n) by (by apply list_lookup_insert_eq).
  f_equal. apply drop_insert_lt. lia.
Qed.

Lemma move_slots_spec s n l nl pl cl cn : leaf_is l cl -> leaf_is nl cn -> Forall cell_ok cl -> nul_free s ->
  has_cells pl (leaf l) cl -> has_cells pl (leaf nl) cn -> leaf l <> leaf nl ->
  length cn = length cl -> (n <= length cl)%nat -> Forall (fun c => c = None) (take n cn) ->
  exists l' nl' pl', move_slots n s l nl pl = Ok (l', nl', pl') /\
    same_leaf l l' /\ same_leaf nl nl' /\ same_but [leaf l; leaf nl] pl pl' /\
    leaf_is l' ((keep_le s <$> take n cl) ++ drop n cl) /\ has_cells pl' (leaf l) ((keep_le s <$> take n cl) ++ drop n cl) /\
    leaf_is nl' ((keep_gt s <$> take n cl) ++ drop n cn) /\ has_cells pl' (leaf nl) ((keep_gt s <$> take n cl) ++ drop n cn).
Proof.
  intros Hl Hnl Hok Hs Hp Hnp Hne Hlen. revert l nl pl cl cn Hl Hnl Hok Hp Hnp Hne Hlen.
  induction n as [|n IH]; intros l nl pl cl cn Hl Hnl Hok Hp Hnp Hne Hlen Hn Hnone; cbn [move_slots].
  { exists l, nl, pl. split_and!; try done. }
  destruct (lookup_lt_is_Some_2 cl n) as [c Hc]; [lia|].
  assert (Hcn : cn !! n = Some None).
  { destruct (lookup_lt_is_Some_2 cn n) as [c' Hc']; [lia|]. rewrite Hc'. f_equal.
    apply (Forall_lookup_1 _ _ n _ Hnone). by rewrite lookup_take_lt by lia. }
  rewrite (leaf_key _ _ Hl _ _ Hc), (leaf_hash _ _ Hl _ _ Hc).
  rewrite strcmp_nul_free, is_gt_spec by eauto using cell_key_nul_free.
  destruct (bool_decide_reflect (klt s (cell_key c))) as [Hgt|Hgt].
  - rewrite (pool_slot_cells _ _ _ _ _ Hnp Hcn), (pool_slot_cells _ _ _ _ _ Hp Hc). cbn [res_bind].
    set (pl1 := set_pool_slot pl (leaf nl) n (cell_kv c)).
    set (pl2 := set_pool_slot pl1 (leaf l) n (cell_kv None)).
    pose proof (set_pool_slot_same pl (leaf nl) n (cell_kv c)) as S1. fold pl1 in S1.
    pose proof (set_pool_slot_same pl1 (leaf l) n (cell_kv None)) as S2. fold pl2 in S2.
    edestruct (IH (LeafNode (ln_addr l) (ln_parent l) (<[n := 0]> (hashes l)) (<[n := []]> (lkeys l)) (leaf l))
                  (LeafNode (ln_addr nl) (ln_parent nl) (<[n := cell_hash c]> (hashes nl)) (<[n := cell_key c]> (lkeys nl)) (leaf nl))
                  pl2 (<[n := None]> cl) (<[n := c]> cn))
      as (l' & nl' & pl' & -> & (A1 & A2 & A3) & (B1 & B2 & B3) & HS & L1 & P1 & L2 & P2).
    + by apply (leaf_is_insert l cl n None).
    + by apply leaf_is_insert.
    + by apply Forall_insert.
    + apply set_pool_slot_cells. eapply same_but_cells; [exact S1|set_solver|done].
    + eapply same_but_cells; [exact S2|set_solver|]. by apply set_pool_slot_cells.
    + done.
    + by rewrite !length_insert.
    + rewrite length_insert. lia.
    + rewrite take_insert_ge by lia. rewrite (take_S_r _ _ _ Hcn) in Hnone. by apply Forall_app in Hnone as [? _].
    + cbn in *. exists l', nl', pl'.
      apply keep_gt_cell in Hgt as [G1 G2]. rewrite !(take_S_fmap _ _ _ _ _ Hc), G1, G2.
      rewrite take_insert_ge, !drop_insert_eq in * by lia. split_and!; try done.
      eapply same_but_trans; [eapply same_but_weaken, S1; set_solver|].
      eapply same_but_trans; [eapply same_but_weaken, S2; set_solver|done].
  - edestruct (IH l nl pl cl cn) as (l' & nl' & pl' & -> & HA & HB & HS & L1 & P1 & L2 & P2); try done; [lia| |].
    + rewrite (take_S_r _ _ _ Hcn) in Hnone. by apply Forall_app in Hnone as [? _].
    + apply keep_le_cell in Hgt as [G1 G2]. exists l', nl', pl'. rewrite !(take_S_fmap _ _ _ _ _ Hc), G1, G2.
      rewrite (drop_S _ _ _ Hc), (drop_S _ _ _ Hcn) in *. split_and!; done.
Qed.
