(* ===== verification/KvRefine.v ===== *)
(** * The key-value store refines a finite map

    The representation of a store by its leaves in key order ([rep]), what
    they hold ([models]), and that every operation, reopening included,
    keeps the representation and acts on the map as the operation of its
    name does. *)

From stdpp Require Import base numbers list gmap sorting.
From S2P Require Import Prelude Containers KvTree KvOrder KvShape KvLeaf.

(** ** The pool *)

Fixpoint chain (lv : gmap Z kvleaf) (a : Z) (ids : list Z) : Prop :=
  match ids with
  | [] => a = 0
  | i :: ids => a = i /\ i <> 0 /\ exists L, lv !! i = Some L /\ chain lv (leaf_next L) ids
  end.

Definition empty_cells : list cell := replicate LEAF_KEYS None.

(** The list of leaves has those in use and the preallocated ones, which
    are empty. *)
Definition pool_ok (pl : pool) (used pa : list Z) : Prop :=
  exists ids, chain (leaves pl) (head pl) ids /\ ids ≡ₚ used ++ pa /\ NoDup ids /\
    Forall (fun i => 0 < i < next_leaf pl) ids /\ 0 < next_leaf pl /\
    Forall (fun i => has_cells pl i empty_cells) pa.

Lemma chain_ext lv lv' a ids : (forall i, i ∈ ids -> leaf_next <$> lv' !! i = leaf_next <$> lv !! i) ->
  chain lv a ids -> chain lv' a ids.
Proof.
  revert a. induction ids as [|i ids IH]; intros a Hn; cbn; [done|]. intros (-> & Hi & L & HL & Hc).
  split; [done|]. split; [done|]. specialize (Hn i ltac:(set_solver)) as Hni. rewrite HL in Hni.
  destruct (lv' !! i) as [L'|]; [|done]. cbn in Hni. exists L'. split; [done|].
  injection Hni as ->. apply IH; [|done]. intros j Hj. apply Hn. set_solver.
Qed.

Lemma pool_ok_same ids pl pl' used pa : same_but ids pl pl' -> (forall i, i ∈ pa -> i ∉ ids) ->
  pool_ok pl used pa -> pool_ok pl' used pa.
Proof.
  intros HS Hd (js & Hc & Hp & Hn & Hb & Hpos & Hpa). exists js. pose proof HS as (H1 & H2 & H3 & H4).
  rewrite H1, H2. split_and!; try done.
  - eapply chain_ext; [|done]. intros. apply H4.
  - apply Forall_forall. intros i Hi. rewrite Forall_forall in Hpa. eapply same_but_cells; eauto.
Qed.

Lemma pool_ok_perm pl used used' pa : used ≡ₚ used' -> pool_ok pl used pa -> pool_ok pl used' pa.
Proof. intros Hp (js & ? & Hperm & ?). exists js. by rewrite <- Hp. Qed.

Lemma pool_ok_disjoint pl used pa i : pool_ok pl used pa -> i ∈ used -> i ∉ pa.
Proof.
  intros (js & _ & Hp & Hn & _) Hi Hi'. rewrite Hp in Hn. apply NoDup_app in Hn as (_ & Hd & _). by eapply Hd.
Qed.
Lemma pool_ok_NoDup pl used pa : pool_ok pl used pa -> NoDup used.
Proof. intros (js & _ & Hp & Hn & _). rewrite Hp in Hn. by apply NoDup_app in Hn as (? & _). Qed.

Lemma take_leaf_spec can_alloc pl used pa : pool_ok pl used pa ->
  match take_leaf can_alloc pa pl with
  | None => exists n, can_alloc pl n = false
  | Some (lf, pa', pl') =>
      pool_ok pl' (lf :: used) pa' /\ has_cells pl' lf empty_cells /\ (forall i, i ∈ used -> leaves pl' !! i = leaves pl !! i)
  end.
Proof.
  intros (js & Hc & Hp & Hn & Hb & Hpos & Hpa). unfold take_leaf. destruct (last pa) as [lf|] eqn:El.
  - apply last_Some in El as [pa' ->]. rewrite removelast_last. apply Forall_app in Hpa as [Hpa Hlf].
    split; [|split; [by apply Forall_cons in Hlf as [? _]|done]].
    exists js. split_and!; try done. rewrite Hp. solve_Permutation.
  - unfold make_leaf. destruct (can_alloc pl sizeof_KVLeaf) eqn:Ea; [|eauto]. cbn.
    apply last_None in El as ->. set (a := next_leaf pl) in *.
    assert (Hfresh : forall i, i ∈ js -> i <> a).
    { intros i Hi ->. rewrite Forall_forall in Hb. specialize (Hb _ Hi). lia. }
    split_and!.
    + exists (a :: js). cbn. split_and!; try done.
      * lia.
      * rewrite lookup_alter_eq, lookup_insert_eq. eexists. split; [done|]. cbn. eapply chain_ext; [|done].
        intros i Hi. by rewrite lookup_alter_ne, lookup_insert_ne by (symmetry; auto).
      * rewrite Hp. by rewrite app_comm_cons.
      * constructor; [|done]. intros Hi. by apply (Hfresh a).
      * constructor; [lia|]. eapply Forall_impl; [done|]. cbn. lia.
      * lia.
    + eexists. cbn. rewrite lookup_alter_eq, lookup_insert_eq. done.
    + intros i Hi. cbn. assert (i <> a) by (apply Hfresh; rewrite Hp; set_solver).
      by rewrite lookup_alter_ne, lookup_insert_ne.
Qed.

(** ** The representation *)

(** A leaf with the separator on its left and its cells. *)
Definition entry : Type := bound * leafnode * list cell.
Definition e_lo (e : entry) : bound := e.1.1.
Definition e_leaf (e : entry) : Z := leaf e.1.2.

Definition entry_ok (pl : pool) (e : entry) : Prop :=
  leaf_is e.1.2 e.2 /\ cells_ok e.2 /\ has_cells pl (e_leaf e) e.2 /\ Forall (blt (e_lo e)) (ckeys e.2).
Definition entry_lt (e1 e2 : entry) : Prop :=
  bblt (e_lo e1) (e_lo e2) /\ Forall (fun k => kleb k (e_lo e2)) (ckeys e1.2).

Record rep (t : kvtree) (es : list entry) : Prop := {
  rep_top : match tree_top t with None => es = [] | Some n => wf 0 n /\ flat n None = es.*1 end;
  rep_leaves : Forall (entry_ok (pmpool t)) es;
  rep_sorted : StronglySorted entry_lt es;
  rep_pool : pool_ok (pmpool t) (e_leaf <$> es) (leaves_prealloc t);
  rep_addr : 0 < next_addr t
}.

Definition holds (es : list entry) (k v : list Z) : Prop := exists e, e ∈ es /\ Some (k, v) ∈ e.2.
Definition models (es : list entry) (m : gmap (list Z) (list Z)) : Prop :=
  forall k v, m !! k = Some v <-> holds es k v.

Lemma StronglySorted_fmap {A B} (R : B -> B -> Prop) (S : A -> A -> Prop) (f : A -> B) l :
  (forall x y, S x y -> R (f x) (f y)) -> StronglySorted S l -> StronglySorted R (f <$> l).
Proof.
  intros HR. induction 1 as [|x l _ IH Hx]; cbn; constructor; [done|].
  apply Forall_fmap. eapply Forall_impl; [done|]. apply HR.
Qed.

Lemma rep_sorted_los t es : rep t es -> sorted_los es.*1.
Proof. intros H. eapply StronglySorted_fmap, (rep_sorted _ _ H). by intros x y [? _]. Qed.

(** The leaf the search for [key] ends at, and the leaves on both sides. *)
Record routed (t : kvtree) (es : list entry) (key : list Z) (path : list crumb) (l : leafnode)
  (esA : list entry) (lo : bound) (cells : list cell) (esB : list entry) : Prop := {
  rt_es : es = esA ++ (lo, strip l, cells) :: esB;
  rt_top : tree_top t = Some (rebuild path (NLeaf l));
  rt_path : wf_path 0 path (ln_parent l);
  rt_ctx : pctx path None = (esA.*1, lo, esB.*1);
  rt_lo : blt lo key;
  rt_hi : Forall (fun e => kleb key (e_lo e)) esB
}.

Lemma LeafSearch_spec t es key : rep t es -> nul_free key ->
  match tree_top t with
  | None => LeafSearch t key = Ok None /\ es = []
  | Some _ => exists path l esA lo cells esB,
      LeafSearch t key = Ok (Some (path, l)) /\ routed t es key path l esA lo cells esB
  end.
Proof.
  intros Hrep Hkey. pose proof (rep_top _ _ Hrep) as Ht. unfold LeafSearch. destruct (tree_top t) as [n|] eqn:En; [|done].
  destruct Ht as [Hwf Hfl]. pose proof (rep_sorted_los _ _ Hrep) as Hs. rewrite <- Hfl in Hs.
  destruct (LeafSearch_from_spec n 0 None key [] Hwf Hkey Hs) as (path & l & A & lo & B & -> & Hr & Hp & Hc & Hlo & HB); [done|].
  rewrite app_nil_r. rewrite <- Hr, (flat_rebuild _ _ _ _ _ _ _ _ Hp Hc), flat_leaf in Hfl. symmetry in Hfl.
  apply fmap_app_inv in Hfl as (esA & es' & -> & Hfl & ->). symmetry in Hfl.
  apply fmap_cons_inv in Hfl as ([[lo' l'] cells] & esB & Heq & -> & ->). cbn in Heq. simplify_eq.
  exists path, l, esA, lo', cells, esB. split; [done|]. split; try done.
  rewrite Forall_fmap in HB. exact HB.
Qed.

Lemma rep_app_inv pl es1 e es2 : Forall (entry_ok pl) (es1 ++ e :: es2) -> StronglySorted entry_lt (es1 ++ e :: es2) ->
  Forall (entry_ok pl) es1 /\ entry_ok pl e /\ Forall (entry_ok pl) es2 /\
  StronglySorted entry_lt es1 /\ Forall (fun e1 => entry_lt e1 e) es1 /\ Forall (entry_lt e) es2 /\
  StronglySorted entry_lt es2 /\ (forall e1 e2, e1 ∈ es1 -> e2 ∈ es2 -> entry_lt e1 e2).
Proof.
  intros Hf Hs. apply Forall_app in Hf as [? [? ?]%Forall_cons]. apply StronglySorted_app in Hs as (H12 & ? & Hs).
  apply StronglySorted_inv in Hs as [? ?]. split_and!; try done.
  - apply Forall_forall. intros. apply H12; set_solver.
  - intros. apply H12; set_solver.
Qed.

(** A key lives in the leaf its search ends at. *)
Lemma routed_key t es key path l esA lo cells esB e : rep t es -> routed t es key path l esA lo cells esB ->
  e ∈ esA \/ e ∈ esB -> key ∉ ckeys e.2.
Proof.
  intros Hrep Hr He Hk. pose proof (rep_leaves _ _ Hrep) as Hl. pose proof (rep_sorted _ _ Hrep) as Hs.
  rewrite (rt_es _ _ _ _ _ _ _ _ _ Hr) in *. destruct (rep_app_inv _ _ _ _ Hl Hs) as (_ & _ & HB & _ & HA & _).
  destruct He as [He|He].
  - rewrite Forall_forall in HA. destruct (HA _ He) as [_ Hle]. rewrite Forall_forall in Hle. specialize (Hle _ Hk).
    pose proof (rt_lo _ _ _ _ _ _ _ _ _ Hr) as Hlo. unfold e_lo in Hle. cbn in Hle, Hlo.
    destruct lo as [lo|]; [|done]. cbn in *. by apply (nlt_kle lo key) in Hle.
  - pose proof (rt_hi _ _ _ _ _ _ _ _ _ Hr) as Hhi. rewrite Forall_forall in Hhi, HB.
    specialize (Hhi _ He). destruct (HB _ He) as (_ & _ & _ & Hb). rewrite Forall_forall in Hb. specialize (Hb _ Hk).
    destruct (e_lo e) as [b|]; [|done]. cbn in *. by apply (nlt_kle b key) in Hhi.
Qed.

Lemma holds_app es1 es2 k v : holds (es1 ++ es2) k v <-> holds es1 k v \/ holds es2 k v.
Proof. unfold holds. setoid_rewrite elem_of_app. naive_solver. Qed.
Lemma holds_cons e es k v : holds (e :: es) k v <-> Some (k, v) ∈ e.2 \/ holds es k v.
Proof. unfold holds. setoid_rewrite elem_of_cons. naive_solver. Qed.

Lemma holds_around t es key path l esA lo cells esB v : rep t es -> routed t es key path l esA lo cells esB ->
  ~ holds esA key v /\ ~ holds esB key v.
Proof.
  intros Hrep Hr. split; intros (e & He & Hc); eapply routed_key; eauto; apply elem_of_ckeys; eauto.
Qed.

Lemma holds_routed t es key path l esA lo cells esB v : rep t es -> routed t es key path l esA lo cells esB ->
  holds es key v <-> Some (key, v) ∈ cells.
Proof.
  intros Hrep Hr. destruct (holds_around _ _ _ _ _ _ _ _ _ v Hrep Hr). rewrite (rt_es _ _ _ _ _ _ _ _ _ Hr).
  rewrite holds_app, holds_cons. tauto.
Qed.

Lemma routed_entry t es key path l esA lo cells esB : rep t es -> routed t es key path l esA lo cells esB ->
  leaf_is l cells /\ cells_ok cells /\ has_cells (pmpool t) (leaf l) cells.
Proof.
  intros Hrep Hr. pose proof (rep_leaves _ _ Hrep) as Hl. rewrite (rt_es _ _ _ _ _ _ _ _ _ Hr) in Hl.
  apply Forall_app in Hl as [_ [(H1 & H2 & H3 & _) _]%Forall_cons]. done.
Qed.

Lemma routed_find t es m key path l esA lo cells esB : rep t es -> models es m -> key_ok key ->
  routed t es key path l esA lo cells esB ->
  match find_slot LEAF_KEYS l (ph key) key with
  | Some i => exists v, cells !! i = Some (Some (key, v)) /\ value_ok v /\ m !! key = Some v
  | None => m !! key = None
  end.
Proof.
  intros Hrep Hm Hk Hr. destruct (routed_entry _ _ _ _ _ _ _ _ _ Hrep Hr) as (Hl & (Hlen & Hok & _) & _).
  pose proof (find_slot_spec l cells key Hl Hok Hk LEAF_KEYS ltac:(lia)) as Hf.
  destruct (find_slot _ _ _ _) as [i|].
  - destruct Hf as (_ & v & Hv). exists v. split; [done|]. split; [by destruct (cell_ok_lookup _ Hok _ _ Hv)|].
    apply Hm, (holds_routed _ _ _ _ _ _ _ _ _ _ Hrep Hr). by eapply list_elem_of_lookup_2.
  - destruct (m !! key) as [v|] eqn:E; [|done]. exfalso.
    apply Hm, (holds_routed _ _ _ _ _ _ _ _ _ _ Hrep Hr) in E. apply list_elem_of_lookup in E as [i Hi].
    apply (Hf i v); [|done]. apply lookup_lt_Some in Hi. lia.
Qed.

Lemma models_empty m : models [] m -> m = ∅.
Proof.
  intros Hm. apply map_eq. intros k. rewrite lookup_empty. destruct (m !! k) as [v|] eqn:E; [|done].
  apply Hm in E as (e & He & _). by apply elem_of_nil in He.
Qed.

Definition get_result (m : gmap (list Z) (list Z)) (key : list Z) : KVStatus * list Z :=
  match m !! key with Some v => (OK, v) | None => (NOT_FOUND, []) end.

Lemma Get_spec t es m key : rep t es -> models es m -> key_ok key -> Get t key = Ok (get_result m key).
Proof.
  intros Hrep Hm Hk. unfold Get, get_result. pose proof (LeafSearch_spec t es key Hrep (key_ok_nz _ Hk)) as Hs.
  destruct (tree_top t) as [n|].
  - destruct Hs as (path & l & esA & lo & cells & esB & -> & Hr). cbn [res_bind]. rewrite (ph_hash _ Hk). cbn [res_bind].
    pose proof (routed_find _ _ _ _ _ _ _ _ _ _ Hrep Hm Hk Hr) as Hf.
    destruct (routed_entry _ _ _ _ _ _ _ _ _ Hrep Hr) as (_ & _ & Hp).
    destruct (find_slot _ _ _ _) as [i|]; [|by rewrite Hf].
    destruct Hf as (v & Hv & Hvok & ->). rewrite (pool_slot_cells _ _ _ _ _ Hp Hv).
    cbn [res_bind cell_kv deref]. by rewrite slot_val_encode.
  - destruct Hs as [-> ->]. by rewrite (models_empty _ Hm), lookup_empty.
Qed.

(** What the buffer of a caller gets: the value if it fits, by the code's
    measure. *)
Definition buffer_result (m : gmap (list Z) (list Z)) (limit : Z) (key : list Z) : KVStatus * list Z :=
  match m !! key with
  | Some v => if Zlength v <? u32 (limit - Zlength key - 64) then (OK, v) else (FAILED, [])
  | None => (NOT_FOUND, [])
  end.

Lemma Get_buffer_spec t es m limit key rest : rep t es -> models es m -> key_ok key -> c_str (key ++ rest) = key ->
  Get_buffer t limit (Zlength key) (key ++ rest) = Ok (buffer_result m limit key).
Proof.
  intros Hrep Hm Hk Hz. unfold Get_buffer, buffer_result. rewrite Hz.
  pose proof (LeafSearch_spec t es key Hrep (key_ok_nz _ Hk)) as Hs. destruct (tree_top t) as [n|].
  - destruct Hs as (path & l & esA & lo & cells & esB & -> & Hr). cbn [res_bind].
    pose proof (Zlength_nonneg key). pose proof (Zlength_nonneg rest). rewrite Zlength_app.
    destruct (Zlength key <? 0) eqn:E1; [lia|]. destruct (Zlength key + Zlength rest <? Zlength key) eqn:E2; [lia|]. cbn [orb].
    rewrite take_app_length' by (unfold Zlength; lia). rewrite (ph_hash _ Hk). cbn [res_bind].
    pose proof (routed_find _ _ _ _ _ _ _ _ _ _ Hrep Hm Hk Hr) as Hf.
    destruct (routed_entry _ _ _ _ _ _ _ _ _ Hrep Hr) as (_ & _ & Hp).
    destruct (find_slot _ _ _ _) as [i|]; [|by rewrite Hf].
    destruct Hf as (v & Hv & [_ Hvl] & ->). rewrite (pool_slot_cells _ _ _ _ _ Hp Hv). cbn [res_bind cell_kv deref].
    cbv zeta. rewrite slot_val_n_encode, get_vs_encode by done. by destruct (Zlength v <? u32 _).
  - destruct Hs as [-> ->]. by rewrite (models_empty _ Hm), lookup_empty.
Qed.

(** ** Updates *)

Lemma bound_le_lt (a lo b : bound) : bblt a lo -> lo = b \/ bblt lo b -> bblt a b.
Proof.
  intros Ha [<-|Hb]; [done|]. destruct b as [b|]; [|done]. destruct lo as [lo|]; [|done]. destruct a as [a|]; [|done].
  cbn in *. eauto with kv.
Qed.
Lemma bound_le_kle k (lo b : bound) : kleb k lo -> lo = b \/ bblt lo b -> kleb k b.
Proof.
  intros Ha [<-|Hb]; [done|]. destruct b as [b|]; [|done]. destruct lo as [lo|]; [|done]. cbn in *. eauto with kv.
Qed.

(** Other leaves in the place of one. *)
Lemma rep_replace t es t' n' esA e0 esB mid : rep t es -> es = esA ++ e0 :: esB ->
  tree_top t' = Some n' -> wf 0 n' -> flat n' None = esA.*1 ++ mid.*1 ++ esB.*1 ->
  (forall e, e ∈ esA ++ esB -> entry_ok (pmpool t) e -> entry_ok (pmpool t') e) ->
  Forall (entry_ok (pmpool t')) mid -> StronglySorted entry_lt mid ->
  Forall (fun e => (e_lo e0 = e_lo e \/ bblt (e_lo e0) (e_lo e)) /\ Forall (entry_lt e) esB) mid ->
  pool_ok (pmpool t') (e_leaf <$> esA ++ mid ++ esB) (leaves_prealloc t') -> 0 < next_addr t' ->
  rep t' (esA ++ mid ++ esB).
Proof.
  intros Hrep -> Ht' Hwf Hfl Hother Hmid Hsmid Hlo Hpool Hfr.
  destruct (rep_app_inv _ _ _ _ (rep_leaves _ _ Hrep) (rep_sorted _ _ Hrep)) as (HlA & _ & HlB & HsA & HAe & _ & HsB & HAB).
  rewrite Forall_forall in HlA, HlB, HAe, Hlo. split; try done.
  - rewrite Ht'. split; [done|]. by rewrite !fmap_app.
  - repeat apply Forall_app_2; [|done|]; apply Forall_forall; intros; apply Hother; auto; set_solver.
  - repeat apply StronglySorted_app_2; try done.
    + intros e1 e2 H1 [H2|H2]%elem_of_app; [|by apply HAB]. destruct (Hlo _ H2) as [Hle _], (HAe _ H1) as [Hb Hk].
      split; [eapply bound_le_lt; [exact Hb|exact Hle]|]. eapply Forall_impl; [exact Hk|].
      intros k Hk'. eapply bound_le_kle; [exact Hk'|exact Hle].
    + intros e e2 He He2. destruct (Hlo _ He) as [_ Hlt]. rewrite Forall_forall in Hlt. by apply Hlt.
Qed.

(** Keys that may be in the leaf a key is routed to. *)
Definition between (lo : bound) (esB : list entry) (k : list Z) : Prop :=
  blt lo k /\ Forall (fun e => kleb k (e_lo e)) esB.

Lemma routed_between t es key path l esA lo cells esB k : rep t es -> routed t es key path l esA lo cells esB ->
  k ∈ ckeys cells \/ k = key -> between lo esB k.
Proof.
  intros Hrep Hr Hk. pose proof (rep_leaves _ _ Hrep) as Hl. pose proof (rep_sorted _ _ Hrep) as Hs.
  rewrite (rt_es _ _ _ _ _ _ _ _ _ Hr) in Hl, Hs.
  destruct (rep_app_inv _ _ _ _ Hl Hs) as (_ & (_ & _ & _ & Hb) & _ & _ & _ & HeB & _).
  destruct Hk as [Hk| ->]; [|exact (conj (rt_lo _ _ _ _ _ _ _ _ _ Hr) (rt_hi _ _ _ _ _ _ _ _ _ Hr))].
  split; [rewrite Forall_forall in Hb; by apply Hb|]. rewrite Forall_forall in HeB |- *. intros e He.
  destruct (HeB _ He) as [_ Hk']. rewrite Forall_forall in Hk'. by apply Hk'.
Qed.

Lemma between_entry_lt lo esB e : Forall (between lo esB) (ckeys e.2) ->
  Forall (fun e2 => bblt (e_lo e) (e_lo e2)) esB -> Forall (entry_lt e) esB.
Proof.
  intros Hk Hlt. rewrite Forall_forall in Hk. rewrite Forall_forall in Hlt |- *. intros e2 He2. split; [by apply Hlt|].
  apply Forall_forall. intros k Hin. destruct (Hk _ Hin) as [_ Hb]. rewrite Forall_forall in Hb. by apply Hb.
Qed.

Lemma routed_below t es key path l esA lo cells esB : rep t es -> routed t es key path l esA lo cells esB ->
  Forall (fun e2 => bblt lo (e_lo e2)) esB.
Proof.
  intros Hrep Hr. pose proof (rep_leaves _ _ Hrep) as Hl. pose proof (rep_sorted _ _ Hrep) as Hs.
  rewrite (rt_es _ _ _ _ _ _ _ _ _ Hr) in Hl, Hs. destruct (rep_app_inv _ _ _ _ Hl Hs) as (_ & _ & _ & _ & _ & HeB & _).
  eapply Forall_impl; [exact HeB|]. by intros e [? _].
Qed.

(** The leaves of the others are not the one a key is routed to. *)
Lemma routed_others t es key path l esA lo cells esB e : rep t es -> routed t es key path l esA lo cells esB ->
  e ∈ esA ++ esB -> e_leaf e <> leaf l.
Proof.
  intros Hrep Hr Hin Heq. pose proof (pool_ok_NoDup _ _ _ (rep_pool _ _ Hrep)) as Hnd.
  rewrite (rt_es _ _ _ _ _ _ _ _ _ Hr) in Hnd. rewrite <- Permutation_middle in Hnd. rewrite fmap_cons in Hnd.
  apply NoDup_cons in Hnd as [Hn _]. apply Hn. change (e_leaf (lo, strip l, cells)) with (leaf l).
  rewrite <- Heq. by apply list_elem_of_fmap_2.
Qed.

(** Other cells in the leaf a key is routed to, with no keys but the old
    ones and the key itself. *)
Lemma rep_update t es key path l esA lo cells esB l' cells' pl' : rep t es ->
  routed t es key path l esA lo cells esB -> same_leaf l l' -> leaf_is l' cells' -> cells_ok cells' ->
  has_cells pl' (leaf l) cells' -> same_but [leaf l] (pmpool t) pl' ->
  (forall k, k ∈ ckeys cells' -> k ∈ ckeys cells \/ k = key) ->
  rep (with_top (with_pool t (leaves_prealloc t) pl') (Some (rebuild path (NLeaf l'))) (next_addr t))
      (esA ++ [(lo, strip l', cells')] ++ esB).
Proof.
  intros Hrep Hr (Ha & Hpar & Hlf) Hl' Hc' Hp' HS Hkeys.
  pose proof (rep_pool _ _ Hrep) as Hpool. rewrite (rt_es _ _ _ _ _ _ _ _ _ Hr) in Hpool.
  assert (Hbt : Forall (between lo esB) (ckeys cells')).
  { apply Forall_forall. intros k Hk. eapply routed_between; eauto. }
  eapply rep_replace; [exact Hrep|exact (rt_es _ _ _ _ _ _ _ _ _ Hr)|done|..]; cbn [pmpool with_top with_pool leaves_prealloc next_addr].
  - eapply rebuild_wf; [exact (rt_path _ _ _ _ _ _ _ _ _ Hr)|]. rewrite <- Hpar. constructor.
  - by rewrite (flat_rebuild _ _ _ _ _ _ _ _ (rt_path _ _ _ _ _ _ _ _ _ Hr) (rt_ctx _ _ _ _ _ _ _ _ _ Hr)).
  - intros e Hin (? & ? & Hc & ?). split_and!; try done. eapply same_but_cells; [done| |done].
    intros Heq%list_elem_of_singleton. by eapply routed_others.
  - apply Forall_singleton. split_and!; [done..|unfold e_leaf; cbn; by rewrite Hlf|].
    eapply Forall_impl; [exact Hbt|]. by intros k [? _].
  - repeat constructor.
  - apply Forall_singleton. split; [by left|]. eapply between_entry_lt; [exact Hbt|]. by eapply routed_below.
  - rewrite fmap_app, fmap_cons in Hpool. rewrite !fmap_app. cbn [fmap list_fmap].
    change (e_leaf (lo, strip l', cells')) with (leaf l'). rewrite Hlf.
    eapply pool_ok_same; [done| |done]. intros i Hi Heq%list_elem_of_singleton. subst i.
    eapply pool_ok_disjoint; [exact Hpool| |exact Hi]. cbn. set_solver.
  - exact (rep_addr _ _ Hrep).
Qed.

(** The map after the cells around a key have changed for the key only. *)
Lemma models_update t es m key path l esA lo cells esB es' ov : rep t es -> models es m ->
  routed t es key path l esA lo cells esB ->
  (forall k v, holds es' k v <-> (k <> key /\ Some (k, v) ∈ cells) \/ (k = key /\ ov = Some v)) ->
  models (esA ++ es' ++ esB) (partial_alter (fun _ => ov) key m).
Proof.
  intros Hrep Hm Hr He' k v. destruct (holds_around _ _ _ _ _ _ _ _ _ v Hrep Hr).
  rewrite !holds_app, He'. destruct (decide (k = key)) as [->|Hne].
  - rewrite lookup_partial_alter_eq. naive_solver.
  - rewrite lookup_partial_alter_ne by done. rewrite (Hm k v), (rt_es _ _ _ _ _ _ _ _ _ Hr), holds_app, holds_cons. naive_solver.
Qed.

(** ** Cells *)

Lemma ckeys_NoDup cells : NoDup (ckeys cells) <->
  forall i j k v v', cells !! i = Some (Some (k, v)) -> cells !! j = Some (Some (k, v')) -> i = j.
Proof.
  induction cells as [|c cells IH]; [split; [intros _ i j ? ? ? H; by rewrite lookup_nil in H|constructor]|].
  assert (Hc : ckeys (c :: cells) = match fst <$> c with Some k => k :: ckeys cells | None => ckeys cells end) by (by destruct c).
  rewrite Hc. destruct c as [[k0 v0]|]; cbn.
  - rewrite NoDup_cons, IH, elem_of_ckeys. split.
    + intros [Hn Hd] [|i] [|j] k v v' Hi Hj; cbn in *; simplify_eq; try done.
      * exfalso. apply Hn. exists v'. by eapply list_elem_of_lookup_2.
      * exfalso. apply Hn. exists v. by eapply list_elem_of_lookup_2.
      * f_equal. by eapply Hd.
    + intros H. split.
      * intros [v [i Hi]%list_elem_of_lookup]. by specialize (H 0%nat (S i) k0 v0 v eq_refl Hi).
      * intros i j k v v' Hi Hj. by specialize (H (S i) (S j) k v v' Hi Hj); simplify_eq.
  - rewrite IH. split.
    + intros H [|i] [|j] k v v' Hi Hj; cbn in *; simplify_eq. f_equal. by eapply H.
    + intros H i j k v v' Hi Hj. by specialize (H (S i) (S j) k v v' Hi Hj); simplify_eq.
Qed.

(** A slot that only [key] may use gets another cell that only [key] may
    use. *)
Lemma insert_cells cells i c c' key : cells_ok cells -> cells !! i = Some c -> cell_ok c' ->
  (forall j v, cells !! j = Some (Some (key, v)) -> j = i) ->
  (c = None \/ exists v, c = Some (key, v)) -> (c' = None \/ exists v, c' = Some (key, v)) ->
  cells_ok (<[i := c']> cells) /\
  forall k v, Some (k, v) ∈ <[i := c']> cells <-> (k <> key /\ Some (k, v) ∈ cells) \/ (k = key /\ snd <$> c' = Some v).
Proof.
  intros (Hlen & Hok & Hnd) Hi Hc' Honly Hc Hc''. rewrite ckeys_NoDup in Hnd.
  assert (Hlt : (i < length cells)%nat) by (by eapply lookup_lt_Some).
  assert (Hin : forall j x, <[i := c']> cells !! j = Some x <-> (j = i /\ x = c') \/ (j <> i /\ cells !! j = Some x)).
  { intros j x. destruct (decide (j = i)) as [->|].
    - rewrite list_lookup_insert_eq by done. naive_solver.
    - rewrite list_lookup_insert_ne by done. naive_solver. }
  split; [split_and!|].
  - by rewrite length_insert.
  - by apply Forall_insert.
  - apply ckeys_NoDup. intros j1 j2 k v v'. rewrite !Hin. intros [[-> E1]|[? E1]] [[-> E2]|[? E2]]; try done; [..|by eapply Hnd].
    + exfalso. destruct Hc'' as [->|[v0 ->]]; simplify_eq. by apply Honly in E2.
    + exfalso. destruct Hc'' as [->|[v0 ->]]; simplify_eq. by apply Honly in E1.
  - intros k v. rewrite !list_elem_of_lookup. setoid_rewrite Hin. split.
    + intros (j & [[-> <-]|[Hj E]]).
      * right. destruct Hc'' as [?|[v0 ?]]; simplify_eq. done.
      * left. split; [|eauto]. intros ->. by apply Honly in E.
    + intros [[Hne (j & E)]|[-> Hv]].
      * exists j. right. split; [|done]. intros ->. destruct Hc as [->|[v0 ->]]; simplify_eq.
      * exists i. left. destruct Hc'' as [->|[v0 ->]]; cbn in Hv; simplify_eq. done.
Qed.
