(* ===== verification/KvOps.v ===== *)
(** * [Put] and [Remove] of the key-value store

    Every branch of the two operations against the representation of
    KvRefine.v: an empty tree, a leaf with a slot for the key, and a full
    leaf that has to be split. *)

From stdpp Require Import base numbers list gmap sorting.
From S2P Require Import Prelude Containers KvTree KvOrder KvShape KvLeaf KvRefine.

Abbreviation kvmap := (gmap (list Z) (list Z)).

(** A store with the contents [m]. *)
Definition store_is (t : kvtree) (m : kvmap) : Prop := exists es, rep t es /\ models es m.

Lemma routed_only cells key i v : cells_ok cells -> cells !! i = Some (Some (key, v)) ->
  forall j v', cells !! j = Some (Some (key, v')) -> j = i.
Proof. intros (_ & _ & Hnd) Hi j v' Hj. rewrite ckeys_NoDup in Hnd. by eapply Hnd. Qed.

Lemma cells_keys_of (cells cells' : list cell) key ov :
  (forall k v, Some (k, v) ∈ cells' <-> (k <> key /\ Some (k, v) ∈ cells) \/ (k = key /\ ov = Some v)) ->
  forall k, k ∈ ckeys cells' -> k ∈ ckeys cells \/ k = key.
Proof. intros H k [v Hk]%elem_of_ckeys. apply H in Hk as [[_ ?]|[-> _]]; [left; apply elem_of_ckeys; eauto|by right]. Qed.

(** The cells of the routed leaf replaced by cells that differ for the key. *)
Lemma store_update t es m key path l esA lo cells esB l' cells' pl' ov : rep t es -> models es m ->
  routed t es key path l esA lo cells esB -> same_leaf l l' -> leaf_is l' cells' -> cells_ok cells' ->
  has_cells pl' (leaf l) cells' -> same_but [leaf l] (pmpool t) pl' ->
  (forall k v, Some (k, v) ∈ cells' <-> (k <> key /\ Some (k, v) ∈ cells) \/ (k = key /\ ov = Some v)) ->
  store_is (with_top (with_pool t (leaves_prealloc t) pl') (Some (rebuild path (NLeaf l'))) (next_addr t))
    (partial_alter (fun _ => ov) key m).
Proof.
  intros Hrep Hm Hr Hsl Hl' Hc' Hp' HS Hk. exists (esA ++ [(lo, strip l', cells')] ++ esB). split.
  - eapply rep_update; eauto. by eapply cells_keys_of.
  - eapply models_update; eauto. intros k v. rewrite holds_cons, <- Hk. cbn. unfold holds.
    setoid_rewrite elem_of_nil. naive_solver.
Qed.

Lemma Remove_spec t m key : store_is t m -> key_ok key ->
  exists t', Remove t key = Ok (OK, t') /\ store_is t' (delete key m).
Proof.
  intros (es & Hrep & Hm) Hk. unfold Remove. pose proof (LeafSearch_spec t es key Hrep (key_ok_nz _ Hk)) as Hs.
  destruct (tree_top t) as [n|].
  - destruct Hs as (path & l & esA & lo & cells & esB & -> & Hr). cbn [res_bind]. rewrite (ph_hash _ Hk). cbn [res_bind].
    pose proof (routed_find _ _ _ _ _ _ _ _ _ _ Hrep Hm Hk Hr) as Hf.
    destruct (routed_entry _ _ _ _ _ _ _ _ _ Hrep Hr) as (Hl & Hc & Hp).
    destruct (find_slot _ _ _ _) as [i|].
    + destruct Hf as (v & Hv & _ & _). cbv zeta. cbn [leaf].
      rewrite (pool_slot_cells _ _ _ _ _ Hp Hv). cbn [res_bind]. rewrite slot_clear_spec. cbn [res_bind]. eexists. split; [done|].
      destruct (insert_cells cells i _ None key Hc Hv) as [Hc' Hk']; eauto using routed_only; [done|].
      apply (store_update t es m key path l esA lo cells esB _ (<[i := None]> cells) _ None Hrep Hm Hr); try done.
      * by apply (leaf_is_insert l cells i None).
      * by apply set_pool_slot_cells.
      * apply set_pool_slot_same.
    + eexists. split; [done|]. exists es. split; [done|]. by rewrite delete_id.
  - destruct Hs as [-> ->]. eexists. split; [done|]. exists []. split; [done|].
    pose proof (models_empty _ Hm) as ->. by rewrite delete_empty.
Qed.

Section Put.
Context (can_alloc : pool -> Z -> bool).
Let never_fails : Prop := forall pl n, can_alloc pl n = true.

(** What [Put] promises: the pair is in the store, or an allocation failed. *)
Definition put_ok (m : kvmap) (key value : list Z) (st : KVStatus) (t' : kvtree) : Prop :=
  (never_fails -> st = OK) /\ (st = OK /\ store_is t' (<[key := value]> m) \/ st = FAILED).

Lemma Put_fill t es m key value path l esA lo cells esB i c :
  rep t es -> models es m -> key_ok key -> value_ok value -> routed t es key path l esA lo cells esB ->
  cells !! i = Some c -> c = None \/ (exists v, c = Some (key, v)) ->
  (forall j v, cells !! j = Some (Some (key, v)) -> j = i) ->
  exists ok l' pl', LeafFillSpecificSlot can_alloc l (pmpool t) (ph key) key value i = Ok (ok, l', pl') /\
    put_ok m key value (status ok)
      (with_top (with_pool t (leaves_prealloc t) pl') (Some (rebuild path (NLeaf l'))) (next_addr t)).
Proof.
  intros Hrep Hm Hk Hv Hr Hi Hc Honly. destruct (routed_entry _ _ _ _ _ _ _ _ _ Hrep Hr) as (Hl & Hcs & Hp).
  destruct (LeafFillSpecificSlot_spec can_alloc l (pmpool t) cells i c key value) as (ok & l' & pl' & -> & Hsl & HS & Ha & Hok);
    try done; [by destruct Hcs as (_ & ? & _)|].
  exists ok, l', pl'. split; [done|]. split; [intros ->%Ha; done|]. destruct ok; [|by right]. left. split; [done|].
  destruct (Hok eq_refl) as [Hl' Hp'].
  destruct (insert_cells cells i c (Some (key, value)) key Hcs Hi) as [Hc' Hk']; [by split|eauto..|].
  by eapply (store_update t es m key path l esA lo cells esB l' _ pl' (Some value)).
Qed.

(** ** The first leaf *)

Lemma empty_cells_ok : cells_ok empty_cells.
Proof.
  split_and!; [done|by apply Forall_replicate|]. apply ckeys_NoDup. intros i j k v v' H. unfold empty_cells in H.
  by apply lookup_replicate in H as [? _].
Qed.
Lemma new_leafnode_is a p lf : leaf_is (new_leafnode a p lf) empty_cells.
Proof. split; cbn [hashes lkeys new_leafnode]; unfold empty_cells; by rewrite fmap_replicate. Qed.

Lemma rep_single t n l cells m key v : tree_top t = Some n -> n = NLeaf l -> ln_parent l = 0 -> leaf_is l cells -> cells_ok cells ->
  has_cells (pmpool t) (leaf l) cells -> pool_ok (pmpool t) [leaf l] (leaves_prealloc t) -> 0 < next_addr t ->
  (forall k v', Some (k, v') ∈ cells <-> k = key /\ v' = v) -> m = ∅ -> store_is t (<[key := v]> m).
Proof.
  intros Ht -> Hpar Hl Hc Hp Hpool Hfr Hk ->. exists [(None, strip l, cells)]. split.
  - split; [rewrite Ht|..]; try done.
    + split; [|done]. rewrite <- Hpar. constructor.
    + apply Forall_singleton. split_and!; try done. by apply Forall_forall.
    + repeat constructor.
  - intros k v'. rewrite holds_cons, Hk. unfold holds. setoid_rewrite elem_of_nil.
    rewrite lookup_insert_Some, lookup_empty. naive_solver.
Qed.

Lemma Put_head t m key value : tree_top t = None -> store_is t m -> key_ok key -> value_ok value ->
  exists st t', Put can_alloc t key value = Ok (st, t') /\ put_ok m key value st t'.
Proof.
  intros Ht (es & Hrep & Hm) Hk Hv. unfold Put. rewrite (ph_hash _ Hk). cbn [res_bind].
  pose proof (LeafSearch_spec t es key Hrep (key_ok_nz _ Hk)) as Hs. rewrite Ht in Hs. destruct Hs as [-> ->]. cbn [res_bind].
  pose proof (take_leaf_spec can_alloc _ _ _ (rep_pool _ _ Hrep)) as Hl.
  destruct (take_leaf can_alloc _ _) as [[[lf pa] pl]|].
  2:{ eexists _, _. split; [done|]. split; [|by right]. destruct Hl as [n Hn]. intros Ha. by rewrite Ha in Hn. }
  destruct Hl as (Hpool & Hcells & _). cbv zeta.
  destruct (LeafFillSpecificSlot_spec can_alloc (new_leafnode (next_addr t) 0 lf) pl empty_cells 0 None key value)
    as (ok & l' & pl' & -> & (Ha & Hpar & Hlf) & HS & Hal & Hok); try done.
  { apply empty_cells_ok. } { by left. }
  cbn [res_bind]. eexists _, _. split; [done|]. split; [intros ->%Hal; done|]. destruct ok; [|by right]. left. split; [done|].
  destruct (Hok eq_refl) as [Hl' Hp'].
  destruct (insert_cells empty_cells 0 None (Some (key, value)) key empty_cells_ok) as [Hc' Hk']; [done|by split| |by left|by right; eauto|].
  { intros j v H. unfold empty_cells in H. by apply lookup_replicate in H as [? _]. }
  cbn in Hpar, Hlf. eapply (rep_single _ _ l'); try done; cbn [pmpool with_top with_pool leaves_prealloc next_addr].
  - by rewrite Hlf.
  - rewrite Hlf. eapply pool_ok_same; [exact HS| |exact Hpool]. intros i Hi Heq%list_elem_of_singleton. subst i.
    eapply pool_ok_disjoint; [exact Hpool| |exact Hi]. cbn. set_solver.
  - pose proof (rep_addr _ _ Hrep). lia.
  - intros k v'. rewrite Hk'. unfold empty_cells. split.
    + intros [[_ [j Hj]%list_elem_of_lookup]|[-> [=]]]; [by apply lookup_replicate in Hj as [? _]|done].
    + intros [-> ->]. by right.
  - by apply models_empty.
Qed.

(** ** A full leaf *)

Lemma full_keys cells : (forall i, cells !! i <> Some None) -> cell_key <$> cells = ckeys cells.
Proof.
  induction cells as [|c cells IH]; intros Hf; [done|]. rewrite fmap_cons, IH by (intros i; exact (Hf (S i))).
  destruct c as [[k v]|]; [done|]. by specialize (Hf 0%nat).
Qed.

Lemma elem_of_keep_le s (cells : list cell) k v : Some (k, v) ∈ keep_le s <$> cells <-> Some (k, v) ∈ cells /\ kle k s.
Proof.
  rewrite list_elem_of_fmap, <- nlt_kle. split.
  - intros ([[k' v']|] & Hc & Hin); [|done]. cbn in Hc. destruct (decide _); simplify_eq. done.
  - intros [Hin Hle]. exists (Some (k, v)). split; [|done]. cbn. by rewrite decide_False.
Qed.
Lemma elem_of_keep_gt s (cells : list cell) k v : Some (k, v) ∈ keep_gt s <$> cells <-> Some (k, v) ∈ cells /\ klt s k.
Proof.
  rewrite list_elem_of_fmap. split.
  - intros ([[k' v']|] & Hc & Hin); [|done]. cbn in Hc. destruct (decide _); simplify_eq. done.
  - intros [Hin Hle]. exists (Some (k, v)). split; [|done]. cbn. by rewrite decide_True.
Qed.

(** A filter on cells keeps them well formed. *)
Lemma cells_ok_fmap f (cells : list cell) : (forall c : cell, f c = None \/ f c = c) -> cells_ok cells -> cells_ok (f <$> cells).
Proof.
  intros Hf (Hlen & Hok & Hnd). split_and!.
  - by rewrite length_fmap.
  - apply Forall_fmap. eapply Forall_impl; [exact Hok|]. intros c Hc. cbn. by destruct (Hf c) as [-> | ->].
  - rewrite ckeys_NoDup in Hnd |- *. intros i j k v v'. rewrite !list_lookup_fmap_Some.
    intros (c & Hc & Hi) (c' & Hc' & Hj). destruct (Hf c) as [E|E], (Hf c') as [E'|E']; try congruence.
    rewrite E in Hc. rewrite E' in Hc'. subst. by eapply Hnd.
Qed.
Lemma keep_le_or s c : keep_le s c = None \/ keep_le s c = c.
Proof. destruct c as [[k v]|]; cbn; [|by left]. destruct (decide _); auto. Qed.
Lemma keep_gt_or s c : keep_gt s c = None \/ keep_gt s c = c.
Proof. destruct c as [[k v]|]; cbn; [|by left]. destruct (decide _); auto. Qed.

Lemma sorted_los_split A lo l l' s nl B : sorted_los (A ++ (lo, l) :: B) -> blt lo s ->
  Forall (fun e => bblt (Some s) e.1) B -> sorted_los (A ++ (lo, l') :: (Some s, nl) :: B).
Proof.
  intros Hs Hlo HB. apply sorted_los_app in Hs as (HA & Hs & HAB). apply StronglySorted_inv in Hs as [Hs Hl].
  apply sorted_los_app. split_and!; [done| |].
  - constructor; [by constructor|]. by constructor.
  - intros e1 e2 H1 H2. rewrite !elem_of_cons in H2. destruct H2 as [->|[->|H2]].
    + exact (HAB e1 (lo, l) H1 ltac:(set_solver)).
    + pose proof (HAB e1 (lo, l) H1 ltac:(set_solver)) as H. cbn in *.
      destruct lo as [lo|]; [|done]. destruct (e1.1) as [b|]; cbn in *; eauto with kv.
    + apply HAB; [done|]. set_solver.
Qed.

(** The key a full leaf is split at: between the bounds of the leaf, with a
    key on both sides. *)
Lemma routed_split_key t es key path l esA lo cells esB : rep t es -> key_ok key ->
  routed t es key path l esA lo cells esB -> (forall i, cells !! i <> Some None) -> key ∉ ckeys cells ->
  let keys := take LEAF_KEYS (lkeys l) ++ [key] in
  let s := nth LEAF_KEYS_MIDPOINT (sort_by (fun lhs rhs => is_lt (strcmp lhs rhs)) keys) [] in
  sep_ok s /\ (s ∈ ckeys cells \/ s = key) /\ (exists k, (k ∈ ckeys cells \/ k = key) /\ klt s k) /\
  blt lo s /\ Forall (fun e => bblt (Some s) (e_lo e)) esB.
Proof.
  intros Hrep Hk Hr Hfull Hnew. destruct (routed_entry _ _ _ _ _ _ _ _ _ Hrep Hr) as ([_ Hkeys] & (Hlen & Hok & Hnd) & _).
  rewrite Hkeys, take_ge by (rewrite length_fmap; lia). rewrite full_keys by done. cbn zeta.
  assert (Hkok : forall k, k ∈ ckeys cells ++ [key] -> key_ok k).
  { intros k [[v Hin]%elem_of_ckeys| ->%list_elem_of_singleton]%elem_of_app; [|done].
    rewrite Forall_forall in Hok. by destruct (Hok _ Hin). }
  destruct (split_key_spec (ckeys cells ++ [key])) as (Hs & k & Hkin & Hlt).
  { rewrite length_app, <- full_keys, length_fmap, Hlen by done. done. }
  { apply NoDup_app. split_and!; [done| |apply NoDup_singleton]. intros k Hkin ->%list_elem_of_singleton. done. }
  { apply Forall_forall. auto with kv. }
  set (s := nth _ _ _) in *. clearbody s.
  assert (Hcase : forall k, k ∈ ckeys cells ++ [key] -> k ∈ ckeys cells \/ k = key) by (intros ? ?; set_solver).
  destruct (routed_between _ _ _ _ _ _ _ _ _ s Hrep Hr (Hcase _ Hs)) as [Hlo _].
  destruct (routed_between _ _ _ _ _ _ _ _ _ k Hrep Hr (Hcase _ Hkin)) as [_ Hhi].
  split_and!; eauto.
  - destruct (Hkok _ Hs) as [? _]. split; [done|]. auto with kv.
  - eapply Forall_impl; [exact Hhi|]. intros e He. cbv beta in He |- *. destruct (e_lo e); [|done]. cbn in *. eauto with kv.
Qed.

(** The pool and the other leaves after a split. *)
Lemma split_pool t es key path l esA lo cells esB s lf pa pl1 pl3 l1 c1 nl c2 :
  rep t es -> routed t es key path l esA lo cells esB -> pool_ok pl1 (lf :: (e_leaf <$> es)) pa ->
  same_but [leaf l; lf] pl1 pl3 -> leaf l1 = leaf l -> leaf nl = lf ->
  pool_ok pl3 (e_leaf <$> esA ++ [(lo, strip l1, c1); (Some s, strip nl, c2)] ++ esB) pa.
Proof.
  intros Hrep Hr Hpool HS Hlf Hnlf. pose proof (rt_es _ _ _ _ _ _ _ _ _ Hr) as Hes. eapply pool_ok_same; [exact HS| |].
  - intros i Hi Heq. eapply pool_ok_disjoint; [exact Hpool| |exact Hi].
    rewrite Hes, fmap_app, fmap_cons. change (e_leaf (lo, strip l, cells)) with (leaf l). set_solver.
  - eapply pool_ok_perm; [|exact Hpool]. rewrite Hes, !fmap_app, fmap_cons. cbn.
    change (e_leaf (lo, strip l, cells)) with (leaf l).
    change (e_leaf (lo, strip l1, c1)) with (leaf l1). change (e_leaf (Some s, strip nl, c2)) with (leaf nl).
    rewrite Hlf, Hnlf. solve_Permutation.
Qed.

Lemma split_others t es key path l esA lo cells esB lf pa pl1 pl3 e :
  rep t es -> routed t es key path l esA lo cells esB -> pool_ok pl1 (lf :: (e_leaf <$> es)) pa ->
  (forall i, i ∈ e_leaf <$> es -> leaves pl1 !! i = leaves (pmpool t) !! i) -> same_but [leaf l; lf] pl1 pl3 ->
  e ∈ esA ++ esB -> entry_ok (pmpool t) e -> entry_ok pl3 e.
Proof.
  intros Hrep Hr Hpool Hsame HS Hin (? & ? & (L & HL & HLs) & ?). split_and!; try done.
  assert (Hu : e_leaf e ∈ e_leaf <$> es) by (apply list_elem_of_fmap_2; rewrite (rt_es _ _ _ _ _ _ _ _ _ Hr); set_solver).
  eapply same_but_cells; [exact HS| |exists L; by rewrite Hsame].
  intros Heq. rewrite !elem_of_cons in Heq. destruct Heq as [Heq|[Heq|Heq]].
  - by eapply routed_others.
  - apply pool_ok_NoDup in Hpool. apply NoDup_cons in Hpool as [Hn _]. by rewrite Heq in Hu.
  - by apply elem_of_nil in Heq.
Qed.

(** The store after a split, from the two leaves it ends with. *)
Lemma store_split t es m key value path l esA lo cells esB s lf pa pl1 l1 c1 nl c2 pl3 fresh :
  rep t es -> models es m -> routed t es key path l esA lo cells esB ->
  sep_ok s -> blt lo s -> Forall (fun e => bblt (Some s) (e_lo e)) esB ->
  pool_ok pl1 (lf :: (e_leaf <$> es)) pa -> (forall i, i ∈ e_leaf <$> es -> leaves pl1 !! i = leaves (pmpool t) !! i) ->
  same_but [leaf l; lf] pl1 pl3 -> same_leaf l l1 -> ln_parent nl = ln_parent l -> leaf nl = lf ->
  leaf_is l1 c1 -> cells_ok c1 -> has_cells pl3 (leaf l) c1 ->
  leaf_is nl c2 -> cells_ok c2 -> has_cells pl3 lf c2 ->
  (forall k v, Some (k, v) ∈ c1 -> kle k s) -> (forall k v, Some (k, v) ∈ c2 -> klt s k) ->
  (forall k v, Some (k, v) ∈ c1 \/ Some (k, v) ∈ c2 <->
     (k <> key /\ Some (k, v) ∈ cells) \/ (k = key /\ Some value = Some v)) ->
  0 < fresh ->
  exists top fresh', InnerUpdateAfterSplit path (NLeaf l1) (NLeaf nl) s fresh = Ok (top, fresh') /\
    store_is (with_top (with_pool t pa pl3) (Some top) fresh') (<[key := value]> m).
Proof.
  intros Hrep Hm Hr Hsep Hlo HsB Hpool Hsame HS (Ha & Hpar & Hlf) Hnpar Hnlf Hl1 Hc1 Hp1 Hl2 Hc2 Hp2 Hle Hgt Hk Hfr.
  pose proof (rt_es _ _ _ _ _ _ _ _ _ Hr) as Hes.
  assert (Hbt : forall k v, Some (k, v) ∈ c1 \/ Some (k, v) ∈ c2 -> between lo esB k).
  { intros k v Hin. eapply routed_between; [exact Hrep|exact Hr|]. apply Hk in Hin as [[_ ?]|[? _]]; [|by right].
    left. apply elem_of_ckeys. eauto. }
  destruct (InnerUpdate_spec path (NLeaf l1) (NLeaf nl) s fresh esA.*1 lo esB.*1) as (top & fresh' & -> & Hwf & Hfr' & Hfl); try done.
  { exact (rt_ctx _ _ _ _ _ _ _ _ _ Hr). }
  { cbn. rewrite Hpar. exact (rt_path _ _ _ _ _ _ _ _ _ Hr). }
  { constructor. }
  { cbn. rewrite Hpar, <- Hnpar. constructor. }
  { rewrite !flat_leaf. eapply (sorted_los_split _ _ (strip l)); [|done|by apply Forall_fmap].
    pose proof (rep_sorted_los _ _ Hrep) as Hs. rewrite Hes, fmap_app, fmap_cons in Hs. exact Hs. }
  exists top, fresh'. split; [done|].
  exists (esA ++ [(lo, strip l1, c1); (Some s, strip nl, c2)] ++ esB). split.
  - eapply rep_replace; [exact Hrep|exact Hes|done|done|exact Hfl|..]; cbn [pmpool with_top with_pool leaves_prealloc next_addr].
    + intros e. by eapply split_others.
    + apply Forall_cons. split; [|apply Forall_singleton]; (split_and!; [done|done|unfold e_leaf; cbn; by rewrite ?Hlf, ?Hnlf|]).
      * apply Forall_forall. intros k [v Hin]%elem_of_ckeys. by destruct (Hbt k v) as [? _]; [left|].
      * apply Forall_forall. intros k [v Hin]%elem_of_ckeys. by eapply Hgt.
    + constructor; [repeat constructor|]. apply Forall_singleton. split; [done|].
      apply Forall_forall. intros k [v Hin]%elem_of_ckeys. by eapply Hle.
    + apply Forall_cons. split; [|apply Forall_singleton]; (split; [first [by left|by right]|]).
      * apply (between_entry_lt lo); [|by eapply routed_below].
        apply Forall_forall. intros k [v Hin]%elem_of_ckeys. eauto.
      * apply (between_entry_lt lo); [|done]. apply Forall_forall. intros k [v Hin]%elem_of_ckeys. eauto.
    + by eapply split_pool.
    + lia.
  - apply (models_update t es m key path l esA lo cells esB _ (Some value) Hrep Hm Hr).
    intros k v. rewrite !holds_cons. cbn. rewrite <- Hk. unfold holds. setoid_rewrite elem_of_nil. naive_solver.
Qed.

(** The target of the new pair has an empty slot. *)
Lemma fill_empty_spec l pl cells key value : leaf_is l cells -> cells_ok cells -> has_cells pl (leaf l) cells ->
  key_ok key -> value_ok value -> key ∉ ckeys cells -> None ∈ cells ->
  exists ok l' pl', LeafFillEmptySlot can_alloc l pl (ph key) key value = Ok (ok, l', pl') /\
    same_leaf l l' /\ same_but [leaf l] pl pl' /\ (never_fails -> ok = true) /\
    (ok = true -> exists cells', leaf_is l' cells' /\ cells_ok cells' /\ has_cells pl' (leaf l) cells' /\
       forall k v, Some (k, v) ∈ cells' <-> (k <> key /\ Some (k, v) ∈ cells) \/ (k = key /\ Some value = Some v)).
Proof.
  intros Hl Hc Hp Hk Hv Hnew Hnone. pose proof Hc as (Hlen & Hok & _). unfold LeafFillEmptySlot.
  pose proof (find_empty_slot_spec l cells Hl Hok LEAF_KEYS ltac:(lia)) as Hf.
  destruct (find_empty_slot LEAF_KEYS l) as [i|].
  2:{ exfalso. apply list_elem_of_lookup in Hnone as [i Hi]. apply (Hf i); [|done]. apply lookup_lt_Some in Hi. lia. }
  destruct Hf as [_ Hi].
  destruct (LeafFillSpecificSlot_spec can_alloc l pl cells i None key value) as (ok & l' & pl' & -> & Hsl & HS & Ha & Hr);
    try done; [by left|].
  exists ok, l', pl'. split_and!; try done. intros Hok'. destruct (Hr Hok') as [Hl' Hp'].
  exists (<[i := Some (key, value)]> cells).
  destruct (insert_cells cells i None (Some (key, value)) key Hc Hi) as [Hc' Hk']; [by split| |by left|by right; eauto|done].
  intros j v Hj. exfalso. apply Hnew, elem_of_ckeys. exists v. by eapply list_elem_of_lookup_2.
Qed.

Lemma not_kept_le s (cells : list cell) k : k ∈ ckeys cells -> klt s k -> None ∈ keep_le s <$> cells.
Proof. intros [v Hin]%elem_of_ckeys Hlt. apply list_elem_of_fmap. exists (Some (k, v)). cbn. by rewrite decide_True. Qed.
Lemma not_kept_gt s (cells : list cell) k : k ∈ ckeys cells -> kle k s -> None ∈ keep_gt s <$> cells.
Proof.
  intros [v Hin]%elem_of_ckeys Hle%nlt_kle. apply list_elem_of_fmap. exists (Some (k, v)). cbn. by rewrite decide_False.
Qed.

(** Facts about a split of the leaf a key is routed to: [moved] says what the
    loop over the slots leaves, [can_split] what is known before it. *)
Record can_split (t : kvtree) (es : list entry) (l : leafnode) (lo : bound) (cells : list cell) (esB : list entry)
  (key s : list Z) (lf : Z) (pa : list Z) (pl1 : pool) : Prop := {
  cs_sep : sep_ok s;
  cs_in : s ∈ ckeys cells \/ s = key;
  cs_above : exists k, (k ∈ ckeys cells \/ k = key) /\ klt s k;
  cs_lo : blt lo s;
  cs_hi : Forall (fun e => bblt (Some s) (e_lo e)) esB;
  cs_pool : pool_ok pl1 (lf :: (e_leaf <$> es)) pa;
  cs_empty : has_cells pl1 lf empty_cells;
  cs_same : forall i, i ∈ e_leaf <$> es -> leaves pl1 !! i = leaves (pmpool t) !! i
}.
Record moved (l : leafnode) (cells : list cell) (s : list Z) (lf : Z) (pl1 : pool) (l1 nl : leafnode) (pl2 : pool) : Prop := {
  mv_leaf : same_leaf l l1;
  mv_parent : ln_parent nl = ln_parent l;
  mv_new : leaf nl = lf;
  mv_ne : leaf l <> lf;
  mv_same : same_but [leaf l; lf] pl1 pl2;
  mv_l1 : leaf_is l1 (keep_le s <$> cells);
  mv_p1 : has_cells pl2 (leaf l) (keep_le s <$> cells);
  mv_l2 : leaf_is nl (keep_gt s <$> cells);
  mv_p2 : has_cells pl2 lf (keep_gt s <$> cells);
  mv_ok1 : cells_ok (keep_le s <$> cells);
  mv_ok2 : cells_ok (keep_gt s <$> cells)
}.

Section Split.
Context (t : kvtree) (es : list entry) (m : kvmap) (key value : list Z) (path : list crumb) (l : leafnode)
  (esA : list entry) (lo : bound) (cells : list cell) (esB : list entry).
Context (Hrep : rep t es) (Hm : models es m) (Hk : key_ok key) (Hv : value_ok value)
  (Hr : routed t es key path l esA lo cells esB) (Hnew : key ∉ ckeys cells).
Context (s : list Z) (lf : Z) (pa : list Z) (pl1 : pool) (Hcs : can_split t es l lo cells esB key s lf pa pl1).

Lemma split_moved : exists l1 nl pl2,
  move_slots LEAF_KEYS s l (new_leafnode (next_addr t) (ln_parent l) lf) pl1 = Ok (l1, nl, pl2) /\ moved l cells s lf pl1 l1 nl pl2.
Proof.
  destruct (routed_entry _ _ _ _ _ _ _ _ _ Hrep Hr) as (Hl & Hc & Hp). pose proof Hc as (Hlen & Hcok & _).
  assert (Hlu : leaf l ∈ e_leaf <$> es).
  { rewrite (rt_es _ _ _ _ _ _ _ _ _ Hr), fmap_app, fmap_cons. change (e_leaf (lo, strip l, cells)) with (leaf l). set_solver. }
  assert (Hne : leaf l <> lf).
  { intros Heq. pose proof (cs_pool _ _ _ _ _ _ _ _ _ _ _ Hcs) as Hpool.
    apply pool_ok_NoDup, NoDup_cons in Hpool as [Hn _]. by rewrite Heq in Hlu. }
  destruct (move_slots_spec s LEAF_KEYS l (new_leafnode (next_addr t) (ln_parent l) lf) pl1 cells empty_cells)
    as (l1 & nl & pl2 & -> & Hsl & (_ & Hnpar & Hnlf) & HS & Hl1 & Hp1 & Hl2 & Hp2); try done.
  { apply (cs_sep _ _ _ _ _ _ _ _ _ _ _ Hcs). }
  { destruct Hp as (L & HL & ?). exists L. by rewrite (cs_same _ _ _ _ _ _ _ _ _ _ _ Hcs). }
  { exact (cs_empty _ _ _ _ _ _ _ _ _ _ _ Hcs). }
  { by rewrite Hlen. }
  { by apply Forall_take, Forall_replicate. }
  rewrite take_ge, drop_ge, app_nil_r in Hl1, Hp1 by (by rewrite ?Hlen).
  rewrite take_ge, drop_ge, app_nil_r in Hl2, Hp2 by (by rewrite ?Hlen).
  exists l1, nl, pl2. split; [done|]. split; try done; apply cells_ok_fmap; auto using keep_le_or, keep_gt_or.
Qed.

Context (l1 nl : leafnode) (pl2 : pool) (Hmv : moved l cells s lf pl1 l1 nl pl2).

(** The last part of [LeafSplitFull], with the leaves after the new pair was
    put into one of them. *)
Lemma split_finish l1' c1 nl' c2 pl3 : same_leaf l1 l1' -> same_leaf nl nl' -> same_but [leaf l; lf] pl2 pl3 ->
  leaf_is l1' c1 -> cells_ok c1 -> has_cells pl3 (leaf l) c1 -> leaf_is nl' c2 -> cells_ok c2 -> has_cells pl3 lf c2 ->
  (forall k v, Some (k, v) ∈ c1 -> kle k s) -> (forall k v, Some (k, v) ∈ c2 -> klt s k) ->
  (forall k v, Some (k, v) ∈ c1 \/ Some (k, v) ∈ c2 <->
     (k <> key /\ Some (k, v) ∈ cells) \/ (k = key /\ Some value = Some v)) ->
  exists top fresh, InnerUpdateAfterSplit path (NLeaf l1') (NLeaf nl') s (next_addr t + 1) = Ok (top, fresh) /\
    store_is (with_top (with_pool t pa pl3) (Some top) fresh) (<[key := value]> m).
Proof.
  intros (A1 & A2 & A3) (B1 & B2 & B3) HS. destruct Hmv as [(C1 & C2 & C3) Hpar Hnl _ HS' _ _ _ _ _ _], Hcs as [? _ _ ? ? ? _ ?].
  pose proof (rep_addr _ _ Hrep). intros.
  apply (store_split t es m key value path l esA lo cells esB s lf pa pl1 l1' c1 nl' c2 pl3 (next_addr t + 1)); try done.
  - by eapply same_but_trans.
  - split_and!; congruence.
  - congruence.
  - congruence.
  - lia.
Qed.

Lemma split_right : klt s key ->
  exists ok nl' pl3, LeafFillEmptySlot can_alloc nl pl2 (ph key) key value = Ok (ok, nl', pl3) /\
    (never_fails -> ok = true) /\
    (ok = true -> exists top fresh, InnerUpdateAfterSplit path (NLeaf l1) (NLeaf nl') s (next_addr t + 1) = Ok (top, fresh) /\
       store_is (with_top (with_pool t pa pl3) (Some top) fresh) (<[key := value]> m)).
Proof.
  intros Hright. destruct Hmv as [Hsl Hpar Hnl Hne HS Hl1 Hp1 Hl2 Hp2 Hok1 Hok2].
  destruct (fill_empty_spec nl pl2 (keep_gt s <$> cells) key value)
    as (ok & nl' & pl3 & -> & Hsn & HS3 & Hal & Hres); try done.
  { by rewrite Hnl. }
  { intros [v [Hin _]%elem_of_keep_gt]%elem_of_ckeys. apply Hnew, elem_of_ckeys. eauto. }
  { destruct (cs_in _ _ _ _ _ _ _ _ _ _ _ Hcs) as [Hs| ->]; [|by apply klt_irrefl in Hright].
    eapply not_kept_gt; [exact Hs|apply kle_refl]. }
  exists ok, nl', pl3. split_and!; try done. intros Hok. destruct (Hres Hok) as (c2 & Hl2' & Hc2' & Hp2' & Hk2).
  rewrite Hnl in HS3, Hp2'. eapply split_finish; try done.
  - eapply same_but_weaken; [|exact HS3]. set_solver.
  - eapply same_but_cells; [exact HS3| |done]. set_solver.
  - by intros k v [_ ?]%elem_of_keep_le.
  - intros k v. rewrite Hk2, elem_of_keep_gt. naive_solver.
  - intros k v. rewrite Hk2, elem_of_keep_gt, elem_of_keep_le, <- nlt_kle.
    destruct (decide (klt s k)), (decide (k = key)); naive_solver.
Qed.

Lemma split_left : ~ klt s key ->
  exists ok l1' pl3, LeafFillEmptySlot can_alloc l1 pl2 (ph key) key value = Ok (ok, l1', pl3) /\
    (never_fails -> ok = true) /\
    (ok = true -> exists top fresh, InnerUpdateAfterSplit path (NLeaf l1') (NLeaf nl) s (next_addr t + 1) = Ok (top, fresh) /\
       store_is (with_top (with_pool t pa pl3) (Some top) fresh) (<[key := value]> m)).
Proof.
  intros Hleft. destruct Hmv as [Hsl Hpar Hnl Hne HS Hl1 Hp1 Hl2 Hp2 Hok1 Hok2]. pose proof Hsl as (_ & _ & Hlf).
  destruct (fill_empty_spec l1 pl2 (keep_le s <$> cells) key value)
    as (ok & l1' & pl3 & -> & Hsn & HS3 & Hal & Hres); try done.
  { by rewrite Hlf. }
  { intros [v [Hin _]%elem_of_keep_le]%elem_of_ckeys. apply Hnew, elem_of_ckeys. eauto. }
  { destruct (cs_above _ _ _ _ _ _ _ _ _ _ _ Hcs) as (kg & [Hkg| ->] & Hlt); [by eapply not_kept_le|done]. }
  exists ok, l1', pl3. split_and!; try done. intros Hok. destruct (Hres Hok) as (c1 & Hl1' & Hc1' & Hp1' & Hk1).
  rewrite Hlf in HS3, Hp1'. eapply split_finish; try done.
  - eapply same_but_weaken; [|exact HS3]. set_solver.
  - eapply same_but_cells; [exact HS3| |done]. set_solver.
  - intros k v. rewrite Hk1, elem_of_keep_le. apply nlt_kle in Hleft. naive_solver.
  - by intros k v [_ ?]%elem_of_keep_gt.
  - intros k v. rewrite Hk1, elem_of_keep_gt, elem_of_keep_le, <- nlt_kle.
    destruct (decide (klt s k)), (decide (k = key)); naive_solver.
Qed.
End Split.

Lemma Put_split t es m key value path l esA lo cells esB :
  rep t es -> models es m -> key_ok key -> value_ok value -> routed t es key path l esA lo cells esB ->
  (forall i, cells !! i <> Some None) -> key ∉ ckeys cells ->
  exists ok t', LeafSplitFull can_alloc t path l (ph key) key value = Ok (ok, t') /\ put_ok m key value (status ok) t'.
Proof.
  intros Hrep Hm Hk Hv Hr Hfull Hnew. unfold LeafSplitFull. cbv zeta.
  destruct (routed_split_key _ _ _ _ _ _ _ _ _ Hrep Hk Hr Hfull Hnew) as (Hsep & Hs & Hab & Hlo & HsB).
  set (s := nth LEAF_KEYS_MIDPOINT _ _) in *. clearbody s.
  pose proof (take_leaf_spec can_alloc _ _ _ (rep_pool _ _ Hrep)) as Htl.
  destruct (take_leaf can_alloc _ _) as [[[lf pa] pl1]|].
  2:{ eexists _, _. split; [done|]. split; [|by right]. destruct Htl as [n Hn]. intros Ha. by rewrite Ha in Hn. }
  destruct Htl as (Hpool & Hcells & Hsame).
  assert (Hcs : can_split t es l lo cells esB key s lf pa pl1) by (by split).
  edestruct split_moved as (l1 & nl & pl2 & -> & Hmv); [eassumption..|].
  cbn [res_bind]. rewrite strcmp_nul_free, is_gt_spec by (first [apply Hsep|by apply key_ok_nz]).
  destruct (bool_decide_reflect (klt s key)) as [Hside|Hside].
  - edestruct split_right as (ok & nl' & pl3 & -> & Hal & Hok); [eassumption..|]. cbn [res_bind].
    destruct ok; [|eexists _, _; split; [done|]; split; [intros ?%Hal; done|by right]].
    destruct (Hok eq_refl) as (top & fresh & -> & Hst). eexists _, _. split; [done|]. split; [done|by left].
  - edestruct split_left as (ok & l1' & pl3 & -> & Hal & Hok); [eassumption..|]. cbn [res_bind].
    destruct ok; [|eexists _, _; split; [done|]; split; [intros ?%Hal; done|by right]].
    destruct (Hok eq_refl) as (top & fresh & -> & Hst). eexists _, _. split; [done|]. split; [done|by left].
Qed.

Lemma Put_spec t m key value : store_is t m -> key_ok key -> value_ok value ->
  exists st t', Put can_alloc t key value = Ok (st, t') /\ put_ok m key value st t'.
Proof.
  intros Hst Hk Hv. destruct (tree_top t) as [n|] eqn:Ht; [|by apply Put_head].
  destruct Hst as (es & Hrep & Hm). pose proof (LeafSearch_spec t es key Hrep (key_ok_nz _ Hk)) as Hs. rewrite Ht in Hs.
  destruct Hs as (path & l & esA & lo & cells & esB & Hls & Hr).
  unfold Put. rewrite (ph_hash _ Hk), Hls. cbn [res_bind]. unfold LeafFillSlotForKey.
  destruct (routed_entry _ _ _ _ _ _ _ _ _ Hrep Hr) as (Hl & Hc & _). pose proof Hc as (Hlen & Hok & _).
  pose proof (scan_slots_spec l cells key Hl Hok Hk LEAF_KEYS None ltac:(lia)) as Hscan.
  assert (Hlast : forall x i, (forall i, (i < LEAF_KEYS)%nat -> cells !! i <> Some x) -> cells !! i <> Some x).
  { intros x i H Hi. apply (H i); [|done]. apply lookup_lt_Some in Hi. lia. }
  destruct (scan_slots LEAF_KEYS l (ph key) key None) as [e [i|]]; cbv beta iota in Hscan.
  - destruct Hscan as (_ & v & Hi).
    destruct (Put_fill t es m key value path l esA lo cells esB i (Some (key, v))) as (ok & l' & pl' & -> & Hput);
      eauto using routed_only.
  - destruct Hscan as [Hno He].
    assert (Hnew : forall j v, cells !! j <> Some (Some (key, v))) by (intros j v; apply Hlast; auto).
    destruct e as [i|].
    + destruct He as [?|Hi]; [done|].
      destruct (Put_fill t es m key value path l esA lo cells esB i None) as (ok & l' & pl' & -> & Hput); eauto.
      intros j v Hj. by apply Hnew in Hj.
    + destruct He as [_ He]. cbn [res_bind].
      destruct (Put_split t es m key value path l esA lo cells esB) as (ok & t' & -> & Hput); eauto.
      intros [v [j Hj]%list_elem_of_lookup]%elem_of_ckeys. by apply Hnew in Hj.
Qed.
End Put.
