(* ===== verification/KvRecover.v ===== *)
(** * Reopening the key-value store

    [Recover] walks the leaves of the pool in the order they were made,
    rebuilds the volatile copy of each, sorts them by their highest keys and
    adds them to a new tree one by one.  The tree it makes holds what the
    old one held. *)

From stdpp Require Import base numbers list gmap sorting.
From S2P Require Import Prelude Containers KvTree KvOrder KvShape KvLeaf KvRefine KvOps.

(** ** One leaf *)

Definition is_max (mx : option (list Z)) (keys : list (list Z)) : Prop :=
  match mx with None => keys = [] | Some m => m ∈ keys /\ forall k, k ∈ keys -> kle k m end.

Lemma is_max_cons mx keys k : nul_free k -> Forall nul_free keys -> is_max mx keys ->
  is_max (match mx with
          | Some m => if is_lt (strcmp m k) then Some k else Some m
          | None => Some k
          end) (k :: keys).
Proof.
  intros Hk Hks. destruct mx as [m|]; cbn.
  - intros [Hm Hle]. rewrite Forall_forall in Hks. rewrite strcmp_nul_free, is_lt_spec by auto.
    case_bool_decide as Hlt; cbn.
    + split; [set_solver|]. intros k' [->|Hin]%elem_of_cons; eauto with kv.
    + apply nlt_kle in Hlt. split; [set_solver|]. intros k' [->|Hin]%elem_of_cons; eauto with kv.
  - intros ->. split; [set_solver|]. intros k' ->%list_elem_of_singleton. apply kle_refl.
Qed.

Lemma ckeys_cons_Some k v cells : ckeys (Some (k, v) :: cells) = k :: ckeys cells.
Proof. done. Qed.
Lemma ckeys_cons_None cells : ckeys (None :: cells) = ckeys cells.
Proof. done. Qed.

Lemma ckeys_nul_free cells : Forall cell_ok cells -> Forall nul_free (ckeys cells).
Proof.
  intros Hok. apply Forall_forall. intros k [v Hin]%elem_of_ckeys. rewrite Forall_forall in Hok.
  destruct (Hok _ Hin) as [? _]. auto with kv.
Qed.

Lemma recover_slots_spec n L cells l mx : slots L = cell_kv <$> cells -> Forall cell_ok cells -> (n <= length cells)%nat ->
  leaf_is l (replicate n None ++ drop n cells) -> is_max mx (ckeys (drop n cells)) ->
  exists l' mx', recover_slots n L l mx = Ok (l', mx') /\ same_leaf l l' /\ leaf_is l' cells /\ is_max mx' (ckeys cells).
Proof.
  intros HL Hok. revert l mx. induction n as [|n IH]; intros l mx Hn Hl Hmx.
  { rewrite drop_0 in *. exists l, mx. done. }
  destruct (lookup_lt_is_Some_2 cells n) as [c Hc]; [lia|]. pose proof (drop_S _ _ _ Hc) as Hd.
  cbn [recover_slots]. rewrite HL, list_lookup_fmap, Hc. cbn [fmap option_fmap option_map].
  rewrite replicate_S_end, <- app_assoc in Hl. cbn [app] in Hl.
  pose proof (Forall_lookup_1 _ _ _ _ Hok Hc) as Hcok. destruct c as [[k v]|]; cbn [cell_kv slot_empty].
  - cbn [deref res_bind]. rewrite get_ph_encode. destruct Hcok as [Hk Hv].
    destruct (ph k =? 0) eqn:E; [pose proof (ph_pos k Hk); lia|]. rewrite slot_key_encode by done.
    edestruct IH as (l' & mx' & -> & (? & ? & ?) & Hl' & Hmx').
    + lia.
    + pose proof (leaf_is_insert l _ n (Some (k, v)) (ln_addr l) (ln_parent l) (leaf l) Hl) as Hins.
      rewrite insert_app_r_alt, length_replicate, Nat.sub_diag in Hins by (rewrite length_replicate; lia).
      cbn [insert list_insert] in Hins. rewrite <- Hd in Hins. exact Hins.
    + rewrite Hd, ckeys_cons_Some. apply is_max_cons; [auto with kv| |done].
      apply ckeys_nul_free. by apply Forall_drop.
    + by exists l', mx'.
  - apply IH; [lia| |by rewrite Hd, ckeys_cons_None]. by rewrite Hd.
Qed.

(** ** All leaves *)

(** A recovered leaf with its highest key and its cells. *)
Definition rleaf : Type := leafnode * list Z * list cell.

Section Leaves.
Context (pl : pool) (has : Z -> list cell -> Prop).

(** [has i cells] says what the leaf [i] of the pool holds. *)
Definition rleaf_ok (r : rleaf) : Prop :=
  let '(l, mk, cells) := r in
  has (leaf l) cells /\ has_cells pl (leaf l) cells /\ cells_ok cells /\ ln_parent l = 0 /\ leaf_is l cells /\
  is_max (Some mk) (ckeys cells).
Definition rleaf_id (r : rleaf) : Z := leaf r.1.1.

Lemma no_keys_empty cells : cells_ok cells -> ckeys cells = [] -> cells = empty_cells.
Proof.
  intros (Hlen & _) Hk. unfold empty_cells. symmetry. apply replicate_as_elem_of. split; [done|].
  intros [[k v]|] Hin; [|done]. exfalso. assert (k ∈ ckeys cells) by (apply elem_of_ckeys; eauto).
  rewrite Hk in *. by apply (elem_of_nil k).
Qed.

Lemma recover_leaves_spec fuel a ids fresh : chain (leaves pl) a ids -> (length ids <= fuel)%nat ->
  (forall i, i ∈ ids -> exists cells, has i cells /\ has_cells pl i cells /\ cells_ok cells) ->
  exists ents pa fresh', recover_leaves fuel pl a fresh = Ok (ents.*1, pa, fresh') /\ fresh <= fresh' /\
    (rleaf_id <$> ents) ++ pa ≡ₚ ids /\ Forall rleaf_ok ents /\
    Forall (fun i => has i empty_cells /\ has_cells pl i empty_cells) pa.
Proof.
  revert a ids fresh. induction fuel as [|fuel IH]; intros a [|i ids] fresh Hch Hf Hhas; cbn in Hf; try lia.
  1,2: cbn in Hch; subst a; exists [], [], fresh; split_and!; try done; lia.
  destruct Hch as (-> & Hi & L & HL & Hch). cbn [recover_leaves].
  destruct (i =? 0) eqn:E; [lia|]. rewrite HL.
  destruct (Hhas i) as (cells & Hh & Hhc & Hok); [set_solver|]. pose proof Hhc as (L' & HL' & HS). rewrite HL in HL'. injection HL' as <-.
  destruct (recover_slots_spec LEAF_KEYS L cells (new_leafnode fresh 0 i) None) as (l & mx & -> & (_ & Hpar & Hlf) & Hl & Hmx).
  - done.
  - apply Hok.
  - by rewrite (proj1 Hok).
  - rewrite drop_ge by (by rewrite (proj1 Hok)). rewrite app_nil_r. apply new_leafnode_is.
  - by rewrite drop_ge by (by rewrite (proj1 Hok)).
  - cbn [res_bind]. destruct (IH (leaf_next L) ids (fresh + 1)) as (ents & pa & fresh' & -> & Hfr & Hp & Hents & Hpa);
      [done|lia|intros; apply Hhas; set_solver|].
    cbn [res_bind]. cbn in Hpar, Hlf. destruct mx as [mk|].
    + exists ((l, mk, cells) :: ents), pa, fresh'. split_and!; [done|lia| |constructor; [|done]|done].
      * rewrite fmap_cons. unfold rleaf_id at 1. cbn. rewrite Hlf. by rewrite Hp.
      * cbn. rewrite Hlf. done.
    + exists ents, (i :: pa), fresh'. cbn in Hmx. split_and!; [done|lia| |done|].
      * rewrite <- Permutation_middle. by rewrite Hp.
      * constructor; [|done]. rewrite <- (no_keys_empty cells) by done. done.
Qed.
End Leaves.

(** ** The new tree *)

(** The leaves in order, with the highest key of each as the separator to
    the next. *)
Fixpoint mk_entries (lo : bound) (ents : list rleaf) : list entry :=
  match ents with
  | [] => []
  | (l, mk, cells) :: ents => (lo, strip l, cells) :: mk_entries (Some mk) ents
  end.

Lemma recover_inner_spec ents top prevnode mk fresh A lo prev : wf 0 top -> 0 < fresh ->
  flat top None = A ++ [(lo, prev)] -> ln_addr prev = prevnode ->
  Forall (fun r : rleaf => sep_ok r.1.2) ents -> sep_ok mk ->
  sorted_los (A ++ (lo, prev) :: (mk_entries (Some mk) ents).*1) ->
  exists top' fresh', recover_inner top prevnode mk ents.*1 fresh = Ok (top', fresh') /\ wf 0 top' /\ fresh <= fresh' /\
    flat top' None = A ++ (lo, prev) :: (mk_entries (Some mk) ents).*1.
Proof.
  revert top prevnode mk fresh A lo prev. induction ents as [|[[l mk'] cells] ents IH];
    intros top prevnode mk fresh A lo prev Hwf Hfr Hfl Ha Hsep Hmk Hs.
  { exists top, fresh. split_and!; try done. }
  cbn [recover_inner fmap list_fmap fst].
  destruct (rightmost_spec top 0 None [] Hwf) as (path & l0 & A' & lo' & -> & Hr & Hp & Hctx). cbn [res_bind].
  rewrite <- Hr, (flat_rebuild _ _ _ _ _ _ _ _ Hp Hctx), flat_leaf, app_nil_r in Hfl. apply app_inj_2 in Hfl as [-> Hl]; [|done].
  injection Hl as -> Hl0. assert (Haddr : ln_addr l0 = prevnode) by (by rewrite <- Ha, <- Hl0).
  rewrite Haddr, Z.eqb_refl, app_nil_r. rewrite c_str_id by apply Hmk.
  apply Forall_cons in Hsep as [Hmk' Hsep].
  edestruct (InnerUpdate_spec path (NLeaf l0) (set_parent (ln_parent l0) (NLeaf l)) mk fresh A lo [])
    as (top' & fresh' & -> & Hwf' & Hfr' & Hfl'); try done.
  - constructor.
  - cbn. apply (wf_leaf (LeafNode _ (ln_parent l0) _ _ _)).
  - rewrite flat_set_parent, !flat_leaf, Hl0. cbn [mk_entries fmap list_fmap fst] in Hs.
    change (A ++ (lo, prev) :: (Some mk, strip l) :: ?r) with (A ++ [(lo, prev); (Some mk, strip l)] ++ r) in Hs.
    rewrite app_assoc in Hs.
    by apply sorted_los_app in Hs as (? & _).
  - cbn [res_bind]. rewrite flat_set_parent, !flat_leaf, Hl0, app_nil_r, app_assoc in Hfl'.
    edestruct (IH top' (ln_addr l) mk' fresh' (A ++ [(lo, prev)]) (Some mk) (strip l))
      as (top'' & fresh'' & -> & Hwf'' & Hfr'' & Hfl''); try done; [lia| |].
    + by rewrite <- app_assoc.
    + exists top'', fresh''. split_and!; try done; [lia|]. by rewrite Hfl'', <- app_assoc.
Qed.

(** The keys of a leaf are above the highest key of another. *)
Definition separated (r1 r2 : rleaf) : Prop := forall k, k ∈ ckeys r2.2 -> klt r1.1.2 k.

Lemma mk_entries_lo mk ents e : e ∈ mk_entries (Some mk) ents ->
  exists b, e_lo e = Some b /\ (b = mk \/ exists r, r ∈ ents /\ b = r.1.2).
Proof.
  revert mk. induction ents as [|[[l mk'] cells] ents IH]; intros mk He; [by apply elem_of_nil in He|].
  cbn [mk_entries] in He. apply elem_of_cons in He as [->|He]; [by exists mk; split; [|left]|].
  destruct (IH _ He) as (b & Hb & [->|(r & Hr & ->)]); eexists; (split; [exact Hb|]); right.
  - exists (l, mk', cells). set_solver.
  - exists r. set_solver.
Qed.

Lemma mk_entries_ok pl has lo ents : Forall (rleaf_ok pl has) ents -> StronglySorted separated ents ->
  Forall (fun r : rleaf => Forall (blt lo) (ckeys r.2)) ents ->
  Forall (entry_ok pl) (mk_entries lo ents) /\ StronglySorted entry_lt (mk_entries lo ents).
Proof.
  intros Hok Hs. revert lo Hok. induction Hs as [|[[l mk] cells] ents Hs IH Hsep]; intros lo Hok Hlo; [split; constructor|].
  apply Forall_cons in Hok as [(_ & Hc & Hcok & Hpar & Hl & Hmk & Hle) Hok]. apply Forall_cons in Hlo as [Hlo0 Hlo].
  cbn in Hlo0. cbn [mk_entries]. destruct (IH (Some mk) Hok) as [IH1 IH2].
  { eapply Forall_impl; [exact Hsep|]. intros r Hr. apply Forall_forall. intros k Hk. exact (Hr k Hk). }
  split; constructor; try done.
  assert (Hlomk : blt lo mk) by (rewrite Forall_forall in Hlo0; by apply Hlo0).
  apply Forall_forall. intros e He. destruct (mk_entries_lo _ _ _ He) as (b & Hb & Hcase).
  assert (Hmb : kle mk b).
  { destruct Hcase as [->|(r & Hr & ->)]; [apply kle_refl|]. apply klt_kle.
    rewrite Forall_forall in Hsep. apply (Hsep _ Hr). rewrite Forall_forall in Hok. specialize (Hok _ Hr).
    destruct r as [[? ?] ?]. by destruct Hok as (_ & _ & _ & _ & _ & ? & _). }
  unfold entry_lt. rewrite Hb. split.
  - unfold e_lo. cbn. destruct lo as [lo|]; [|done]. cbn in *. eauto with kv.
  - apply Forall_forall. intros k Hk. cbn in *. eauto with kv.
Qed.

Lemma mk_entries_fmap {B} (f : entry -> B) (g : rleaf -> B) lo ents :
  (forall lo r, f (lo, strip r.1.1, r.2) = g r) -> f <$> mk_entries lo ents = g <$> ents.
Proof.
  intros Hf. revert lo. induction ents as [|[[l mk] cells] ents IH]; intros lo; cbn [mk_entries]; [done|].
  rewrite !fmap_cons, IH. f_equal. exact (Hf lo (l, mk, cells)).
Qed.

Lemma StronglySorted_upgrade {A B} (R S : A -> A -> Prop) (f : A -> B) l : StronglySorted R l -> NoDup (f <$> l) ->
  (forall x y, x ∈ l -> y ∈ l -> R x y -> f x <> f y -> S x y) -> StronglySorted S l.
Proof.
  induction 1 as [|x l Hs IH Hx]; intros Hnd HS; constructor.
  - apply IH; [by apply NoDup_cons in Hnd as [_ ?]|]. intros; apply HS; set_solver.
  - apply Forall_forall. intros y Hy. rewrite Forall_forall in Hx. apply NoDup_cons in Hnd as [Hn _].
    apply HS; [set_solver..|by apply Hx|]. intros Heq. apply Hn. rewrite Heq. by apply list_elem_of_fmap_2.
Qed.

(** ** The contents *)

Section Contents.
Context (t0 : kvtree) (es : list entry) (Hrep : rep t0 es).

Definition leaf_has (i : Z) (cells : list cell) : Prop :=
  (exists e, e ∈ es /\ e_leaf e = i /\ e.2 = cells) \/ (i ∈ leaves_prealloc t0 /\ cells = empty_cells).

Lemma es_unique e e' : e ∈ es -> e' ∈ es -> e_leaf e = e_leaf e' -> e = e'.
Proof.
  intros He He' Heq. pose proof (pool_ok_NoDup _ _ _ (rep_pool _ _ Hrep)) as Hnd.
  apply list_elem_of_lookup in He as [i Hi], He' as [j Hj].
  assert (i = j) as ->.
  { eapply (NoDup_lookup (e_leaf <$> es)); [done|by rewrite list_lookup_fmap, Hi|by rewrite list_lookup_fmap, Hj, Heq]. }
  congruence.
Qed.

Lemma leaf_has_entry e cells : e ∈ es -> leaf_has (e_leaf e) cells -> cells = e.2.
Proof.
  intros He [(e' & He' & Heq & <-)|[Hpa _]]; [by rewrite (es_unique _ _ He' He Heq)|].
  exfalso. eapply pool_ok_disjoint; [exact (rep_pool _ _ Hrep)| |exact Hpa]. by apply list_elem_of_fmap_2.
Qed.

(** The keys of two leaves do not overlap. *)
Lemma leaf_has_disjoint i j ci cj : leaf_has i ci -> leaf_has j cj -> i <> j ->
  (forall ki kj, ki ∈ ckeys ci -> kj ∈ ckeys cj -> klt ki kj) \/ (forall ki kj, ki ∈ ckeys ci -> kj ∈ ckeys cj -> klt kj ki).
Proof.
  assert (Hempty : forall k, k ∉ ckeys empty_cells).
  { intros k [v Hin]%elem_of_ckeys. apply list_elem_of_lookup in Hin as [n Hn]. by apply lookup_replicate in Hn as [? _]. }
  intros [(e & He & <- & <-)|[_ ->]] [(e' & He' & <- & <-)|[_ ->]] Hne; try (left; intros; exfalso; by eapply Hempty).
  pose proof (rep_leaves _ _ Hrep) as Hl. rewrite Forall_forall in Hl.
  assert (Hlt : forall e1 e2, e1 ∈ es -> e2 ∈ es -> entry_lt e1 e2 ->
                forall k1 k2, k1 ∈ ckeys e1.2 -> k2 ∈ ckeys e2.2 -> klt k1 k2).
  { intros e1 e2 _ H2 [_ Hk] k1 k2 Hk1 Hk2. rewrite Forall_forall in Hk. specialize (Hk _ Hk1).
    destruct (Hl _ H2) as (_ & _ & _ & Hb). rewrite Forall_forall in Hb. specialize (Hb _ Hk2).
    destruct (e_lo e2); [|done]. cbn in *. eauto with kv. }
  pose proof He as [a Ha]%list_elem_of_lookup. pose proof He' as [b Hb]%list_elem_of_lookup.
  destruct (decide (a < b)%nat) as [|Hge].
  - left. apply Hlt; [done..|]. exact (StronglySorted_lookup _ _ _ _ _ _ (rep_sorted _ _ Hrep) Ha Hb ltac:(done)).
  - right. intros ki kj Hki Hkj. eapply (Hlt e' e); try done.
    eapply (StronglySorted_lookup _ _ b a _ _ (rep_sorted _ _ Hrep) Hb Ha).
    assert (a <> b) by (intros ->; congruence). lia.
Qed.

(** The leaves in the order [Recover] puts them. *)
Lemma sorted_leaves ents : Forall (rleaf_ok (pmpool t0) leaf_has) ents -> NoDup (rleaf_id <$> ents) ->
  exists ents', sort_by (fun lhs rhs : leafnode * list Z => is_lt (strcmp (snd lhs) (snd rhs))) ents.*1 = ents'.*1 /\
    ents' ≡ₚ ents /\ StronglySorted separated ents'.
Proof.
  intros Hok Hnd.
  assert (Hnf : Forall (fun a : leafnode * list Z => nul_free (snd a)) ents.*1).
  { apply Forall_fmap. eapply Forall_impl; [exact Hok|]. intros [[l mk] cells] (_ & _ & (_ & Hc & _) & _ & _ & Hm & _).
    cbn. pose proof (ckeys_nul_free _ Hc) as Hf. rewrite Forall_forall in Hf. by apply Hf. }
  destruct (Permutation_map_inv fst _ (sort_by_perm (fun lhs rhs : leafnode * list Z => is_lt (strcmp (snd lhs) (snd rhs))) ents.*1))
    as (ents' & Heq & Hp).
  exists ents'. split; [exact Heq|]. split; [done|].
  assert (Hs : StronglySorted (fun a b : leafnode * list Z => kle (snd a) (snd b)) ents'.*1)
    by (change ents'.*1 with (map fst ents'); rewrite <- Heq; exact (sort_by_sorted snd _ Hnf)).
  assert (Hs' : StronglySorted (fun r1 r2 : rleaf => kle r1.1.2 r2.1.2) ents').
  { clear -Hs. induction ents' as [|r ents' IH]; [constructor|]. rewrite fmap_cons in Hs. apply StronglySorted_inv in Hs as [Hs Hr].
    constructor; [by apply IH|]. rewrite Forall_fmap in Hr. exact Hr. }
  rewrite Hp in Hok, Hnd. eapply (StronglySorted_upgrade _ _ rleaf_id); [exact Hs'|exact Hnd|].
  rewrite Forall_forall in Hok. intros [[l1 m1] c1] [[l2 m2] c2] H1%Hok H2%Hok Hle Hne k Hk. cbn in *.
  destruct H1 as (Hh1 & _ & _ & _ & _ & Hm1 & _), H2 as (Hh2 & _ & _ & _ & _ & Hm2 & _).
  destruct (leaf_has_disjoint _ _ _ _ Hh1 Hh2 Hne) as [Hd|Hd]; [by apply Hd|].
  exfalso. apply nlt_kle in Hle. by apply Hle, Hd.
Qed.

Lemma chain_bound lv a ids : chain lv a ids -> NoDup ids -> (length ids <= size lv)%nat.
Proof.
  intros Hc Hnd. rewrite <- size_dom. rewrite <- (size_list_to_set (C := gset Z) ids) by done.
  apply subseteq_size. clear Hnd. revert a Hc. induction ids as [|i ids IH]; intros a Hc; [set_solver|].
  destruct Hc as (-> & _ & L & HL & Hc). apply IH in Hc. cbn. apply union_subseteq. split; [|done].
  intros j ->%elem_of_singleton. apply elem_of_dom. eauto.
Qed.

(** A tree over all leaves of the pool with keys holds what the old one
    held. *)
Lemma recovered_store t ids ents pa m : models es m -> chain (leaves (pmpool t0)) (head (pmpool t0)) ids ->
  ids ≡ₚ (e_leaf <$> es) ++ leaves_prealloc t0 -> (rleaf_id <$> ents) ++ pa ≡ₚ ids -> NoDup ids ->
  Forall (fun i => 0 < i < next_leaf (pmpool t0)) ids -> 0 < next_leaf (pmpool t0) ->
  Forall (rleaf_ok (pmpool t0) leaf_has) ents -> StronglySorted separated ents ->
  Forall (fun i => leaf_has i empty_cells /\ has_cells (pmpool t0) i empty_cells) pa ->
  pmpool t = pmpool t0 -> leaves_prealloc t = pa -> 0 < next_addr t ->
  match tree_top t with
  | None => mk_entries None ents = []
  | Some n => wf 0 n /\ flat n None = (mk_entries None ents).*1
  end -> store_is t m.
Proof.
  intros Hm Hch Hperm Hp Hnd Hb Hpos Hents Hsep Hpa Hpl Hpre Hfr Htop. exists (mk_entries None ents). split.
  - destruct (mk_entries_ok (pmpool t0) leaf_has None ents) as [Hok Hs]; try done.
    { apply Forall_forall. intros r _. by apply Forall_forall. }
    split; rewrite ?Hpl; try done. exists ids. rewrite Hpre.
    rewrite (mk_entries_fmap e_leaf rleaf_id) by done. split_and!; try done.
    eapply Forall_impl; [exact Hpa|]. by intros i [_ ?].
  - intros k v. rewrite (Hm k v).
    assert (Hin : forall e, e ∈ (snd <$> mk_entries None ents) <-> e ∈ (snd <$> ents)).
    { intros e. by rewrite (mk_entries_fmap snd snd). }
    transitivity (exists cells, cells ∈ (snd <$> ents) /\ Some (k, v) ∈ cells).
    + rewrite Forall_forall in Hents. split.
      * intros (e & He & Hk). assert (Hid : e_leaf e ∈ (rleaf_id <$> ents) ++ pa).
        { rewrite Hp, Hperm. apply elem_of_app. left. by apply list_elem_of_fmap_2. }
        apply elem_of_app in Hid as [(r & Hr & Hrin)%list_elem_of_fmap|Hid].
        -- exists r.2. split; [by apply list_elem_of_fmap_2|]. pose proof (Hents _ Hrin) as Hrok.
           destruct r as [[l mk] cells]. destruct Hrok as (Hh & _). change (rleaf_id (l, mk, cells)) with (leaf l) in Hr.
           rewrite <- Hr in Hh. by rewrite (leaf_has_entry _ _ He Hh).
        -- rewrite Forall_forall in Hpa. destruct (Hpa _ Hid) as [Hh _]. rewrite <- (leaf_has_entry _ _ He Hh) in Hk.
           apply list_elem_of_lookup in Hk as [n Hn]. by apply lookup_replicate in Hn as [? _].
      * intros (cells & (r & -> & Hr)%list_elem_of_fmap & Hk). pose proof (Hents _ Hr) as Hrok.
        destruct r as [[l mk] cells]. destruct Hrok as ([(e & He & _ & <-)|[_ ->]] & _); [by exists e|].
        apply list_elem_of_lookup in Hk as [n Hn]. by apply lookup_replicate in Hn as [? _].
    + setoid_rewrite <- Hin. unfold holds. split.
      * intros (cells & (e & -> & He)%list_elem_of_fmap & Hk). eauto.
      * intros (e & He & Hk). exists e.2. split; [by apply list_elem_of_fmap_2|done].
Qed.

Lemma rleaf_sep_ok r : rleaf_ok (pmpool t0) leaf_has r -> sep_ok r.1.2.
Proof.
  destruct r as [[l mk] cells]. intros (_ & _ & (_ & Hc & _) & _ & _ & [v Hm]%elem_of_ckeys & _). cbn.
  rewrite Forall_forall in Hc. destruct (Hc _ Hm) as [Hk _]. split; [apply Hk|auto with kv].
Qed.

Lemma Recover_spec t m : models es m -> leaves_prealloc t = [] -> pmpool t = pmpool t0 -> 0 < next_addr t ->
  exists t', Recover t = Ok t' /\ store_is t' m /\ pmpool t' = pmpool t0 /\ pmpath t' = pmpath t /\ pmsize t' = pmsize t.
Proof.
  intros Hm Hpa0 Hpl Hfr. destruct (rep_pool _ _ Hrep) as (ids & Hch & Hperm & Hnd & Hb & Hpos & Hpre).
  unfold Recover. rewrite Hpl, Hpa0. cbn [app].
  destruct (recover_leaves_spec (pmpool t0) leaf_has (S (size (leaves (pmpool t0)))) (head (pmpool t0)) ids (next_addr t))
    as (ents & pa & fresh & -> & Hfr' & Hp & Hents & Hpa); [done|..].
  { apply chain_bound in Hch; [lia|done]. }
  { intros i Hi. rewrite Hperm in Hi. apply elem_of_app in Hi as [(e & -> & He)%list_elem_of_fmap|Hi].
    - pose proof (rep_leaves _ _ Hrep) as Hl. rewrite Forall_forall in Hl. destruct (Hl _ He) as (_ & ? & ? & _).
      exists e.2. split; [left; eauto|done].
    - exists empty_cells. rewrite Forall_forall in Hpre. split; [by right|]. split; [by apply Hpre|apply empty_cells_ok]. }
  cbn [res_bind]. assert (Hnd' : NoDup (rleaf_id <$> ents)) by (rewrite <- Hp in Hnd; by apply NoDup_app in Hnd as (? & _)).
  destruct (sorted_leaves ents Hents Hnd') as (ents' & -> & Hp' & Hsep). rewrite <- Hp' in Hents, Hp.
  destruct ents' as [|[[l mk] cells] ents']; cbn [fmap list_fmap fst].
  - eexists. split; [done|]. split_and!; try done. eapply (recovered_store _ ids []); try done. cbn. lia.
  - assert (Hseps : Forall (fun r : rleaf => sep_ok r.1.2) ((l, mk, cells) :: ents'))
      by (eapply Forall_impl; [exact Hents|apply rleaf_sep_ok]).
    apply Forall_cons in Hseps as [Hmk Hseps].
    assert (Hpar : ln_parent l = 0) by (apply Forall_cons in Hents as [(_ & _ & _ & ? & _) _]; done).
    destruct (mk_entries_ok _ _ None _ Hents Hsep) as [_ Hs]; [apply Forall_forall; intros; by apply Forall_forall|].
    destruct (recover_inner_spec ents' (NLeaf l) (ln_addr l) mk fresh [] None (strip l)) as (top & fresh' & -> & Hwf & Hfr2 & Hfl);
      try done;
      [rewrite <- Hpar; apply wf_leaf|lia| |].
    { eapply (StronglySorted_fmap _ entry_lt fst (mk_entries None ((l, mk, cells) :: ents'))), Hs. by intros x y [? _]. }
    cbn [res_bind]. eexists. split; [done|]. split_and!; try done.
    eapply (recovered_store _ ids ((l, mk, cells) :: ents')); try done. cbn. lia.
Qed.
End Contents.
