(* ===== verification/KvEngine.v ===== *)
(** * The interface of the key-value store and the throughput experiment

    Opening and closing a store (kvtree2.cc, pmemkv.cc), the C interface with
    its buffers, and the driver pmemkv_throughput.cc.  A file holds the pool
    of a store that is closed; a store that is open has taken it out, which
    is the lock of libpmemobj.  The main theorem composes the operations:
    any sequence of them on a new store, with the store closed and opened
    again between them, answers as a finite map does. *)

From stdpp Require Import base numbers list gmap sorting.
From S2P Require Import Prelude Containers KvTree KvOrder KvShape KvLeaf KvRefine KvOps KvRecover.

(** "/dev/dax" and "kvtree2" *)
Definition dax_prefix : list Z := [47; 100; 101; 118; 47; 100; 97; 120].
Definition ENGINE : list Z := [107; 118; 116; 114; 101; 101; 50].
Definition is_dax (path : list Z) : bool := bool_decide (dax_prefix = take 8 path).

Record file := File { f_pool : option pool; f_size : Z }.
Abbreviation fs := (gmap (list Z) file).

(** A new pool: the root object is zeroed. *)
Definition empty_pool : pool := Pool ∅ 0 1.

Section Api.
Variable can_alloc : pool -> Z -> bool.
(** Whether [pool<KVRoot>::create] and [pool<KVRoot>::open] succeed on a path,
    beyond what the model of the files decides. *)
Variable can_create : list Z -> Z -> bool.
Variable can_open : list Z -> bool.

(** [None]: [pool_error] is thrown. *)
Definition pool_open (path : list Z) (f : fs) : option (pool * fs) :=
  match f !! path with
  | Some (File (Some p) sz) => if can_open path then Some (p, <[path := File None sz]> f) else None
  | _ => None
  end.
Definition pool_create (path : list Z) (size : Z) (f : fs) : option (pool * fs) :=
  if can_create path size then Some (empty_pool, <[path := File None size]> f) else None.

(** The constructor of [KVTree]; [None]: it throws. *)
Definition KVTree_new (path : list Z) (size : Z) (f : fs) : res (option (kvtree * fs)) :=
  let r :=
    if is_dax path then
      match pool_open path f with Some (p, f) => Some (p, f, 0) | None => None end
    else
      match f !! path with
      | None => match pool_create path size f with Some (p, f) => Some (p, f, size) | None => None end
      | Some fl => match pool_open path f with Some (p, f) => Some (p, f, f_size fl) | None => None end
      end in
  match r with
  | None => Ok None
  | Some (p, f, pmsize) => let* t := Recover (KVTree None [] p path pmsize 1) in Ok (Some (t, f))
  end.

Definition KVEngine_Open (engine path : list Z) (size : Z) (f : fs) : res (option kvtree * fs) :=
  if bool_decide (engine = ENGINE) then
    let* r := KVTree_new path size f in
    match r with
    | Some (t, f) => Ok (Some t, f)
    | None => Ok (None, f)
    end
  else Ok (None, f).

(** [delete] closes the pool. *)
Definition KVEngine_Close (kv : option kvtree) (f : fs) : res fs :=
  match kv with
  | None => Segfault
  | Some t => Ok (alter (fun fl => File (Some (pmpool t)) (f_size fl)) (pmpath t) f)
  end.

(** ** The C interface *)

Definition status_code (s : KVStatus) : Z := match s with FAILED => -1 | NOT_FOUND => 0 | OK => 1 end.

(** [string(p, n)] of the memory behind [p]; a length that is negative
    throws, which no caller catches. *)
Definition c_string (mem : list Z) (n : Z) : res (list Z) :=
  if n <? 0 then AssertFail else if Zlength mem <? n then Segfault else Ok (take (Z.to_nat n) mem).

Definition kvengine_open (engine path : list Z) (size : Z) (f : fs) : res (option kvtree * fs) :=
  KVEngine_Open (c_str engine) (c_str path) size f.
Definition kvengine_close (kv : option kvtree) (f : fs) : res fs := KVEngine_Close kv f.

Definition kvengine_put (t : kvtree) (keybytes valuebytes : Z) (key value : list Z) : res (Z * kvtree) :=
  let* k := c_string key keybytes in
  let* v := c_string value valuebytes in
  let* (s, t) := Put can_alloc t k v in
  Ok (status_code s, t).

Definition kvengine_remove (t : kvtree) (keybytes : Z) (key : list Z) : res (Z * kvtree) :=
  let* k := c_string key keybytes in
  let* (s, t) := Remove t k in
  Ok (status_code s, t).

(** [memcpy(value, kv.val(), vs)] into a buffer, at an offset, if there is a
    value. *)
Definition copy_out (s : KVStatus) (mem : list Z) (off : nat) (v : list Z) : res (list Z) :=
  match s with
  | OK => if (off + length v <=? length mem)%nat then Ok (put_bytes off v mem) else Segfault
  | _ => Ok mem
  end.

Definition kvengine_get (t : kvtree) (limit keybytes : Z) (key value : list Z) : res (Z * list Z) :=
  let* (s, v) := Get_buffer t limit keybytes key in
  let* value := copy_out s value 0 v in
  Ok (status_code s, value).

Record FFIBuffer := FFI { ffi_limit : Z; ffi_keybytes : Z; ffi_valuebytes : Z; ffi_data : list Z }.

Definition kvengine_get_ffi (t : kvtree) (buf : FFIBuffer) : res (Z * FFIBuffer) :=
  let* (s, v) := Get_buffer t (ffi_limit buf) (ffi_keybytes buf) (ffi_data buf) in
  let* data := copy_out s (ffi_data buf) (Z.to_nat (ffi_keybytes buf)) v in
  let valuebytes := match s with OK => Zlength v | _ => ffi_valuebytes buf end in
  Ok (status_code s, FFI (ffi_limit buf) (ffi_keybytes buf) valuebytes data).

Definition kvengine_put_ffi (t : kvtree) (buf : FFIBuffer) : res (Z * kvtree) :=
  let* k := c_string (ffi_data buf) (ffi_keybytes buf) in
  let* v := c_string (drop (Z.to_nat (ffi_keybytes buf)) (ffi_data buf)) (ffi_valuebytes buf) in
  let* (s, t) := Put can_alloc t k v in
  Ok (status_code s, t).

Definition kvengine_remove_ffi (t : kvtree) (buf : FFIBuffer) : res (Z * kvtree) :=
  let* k := c_string (ffi_data buf) (ffi_keybytes buf) in
  let* (s, t) := Remove t k in
  Ok (status_code s, t).

(** ** The experiment *)

Definition MAX_KEY_SIZE : nat := 128.

(** [trace.getline(buffer, MAX_KEY_SIZE)] with [room] characters left: the
    line and what follows it, or a stream that has failed. *)
Fixpoint getline (room : nat) (line s : list Z) {struct s} : option (list Z * list Z) :=
  match s with
  | [] => if (length line =? 0)%nat then None else Some (line, [])
  | c :: s => if c =? 10 then Some (line, s)
              else match room with O => None | S room => getline room (line ++ [c]) s end
  end.

(** The loop that fills [keys]. *)
Fixpoint load_keys (fuel : nat) (s : list Z) : list (list Z) :=
  match fuel with
  | O => []
  | S fuel => match getline (MAX_KEY_SIZE - 1) [] s with
              | Some (line, s) => c_str line :: load_keys fuel s
              | None => []
              end
  end.

(** The loop of [worker]. *)
Fixpoint put_keys (t : kvtree) (keys : list (list Z)) (value : list Z) : res kvtree :=
  match keys with
  | [] => Ok t
  | key :: keys =>
      let* (s, t) := Put can_alloc t key value in
      assert! (match s with OK => true | _ => false end) in
      put_keys t keys value
  end.

(** [worker] with the value it has made and its path; [kv] is not closed. *)
Definition worker (path : list Z) (dbSize : Z) (value : list Z) (keys : list (list Z)) (f : fs)
  : res (option kvtree * fs) :=
  let* (kv, f) := KVEngine_Open ENGINE path dbSize f in
  match kv, keys with
  | None, [] => Ok (None, f)
  | None, _ :: _ => Segfault
  | Some t, _ => let* t := put_keys t keys value in Ok (Some t, f)
  end.

(** ** Sequences of operations *)

Inductive op :=
| OPut (key value : list Z)
| OGet (key : list Z)
| OGetBuffer (limit : Z) (key value : list Z)
| ORemove (key : list Z)
| OReopen.

(** One operation on an open store; no store is left when [Put] or [Open]
    fails, where a client gives up.  [OGetBuffer] comes with the buffer
    [value] of the caller and answers with its contents afterwards; a copy
    that leaves the buffer is an error. *)
Definition step (o : op) (t : kvtree) (f : fs) : res (KVStatus * list Z * option (kvtree * fs)) :=
  match o with
  | OPut key value =>
      let* (s, t) := Put can_alloc t key value in
      Ok (s, [], match s with OK => Some (t, f) | _ => None end)
  | OGet key => let* (s, v) := Get t key in Ok (s, v, Some (t, f))
  | OGetBuffer limit key value =>
      let* (s, v) := Get_buffer t limit (Zlength key) key in
      let* value := copy_out s value 0 v in
      Ok (s, value, Some (t, f))
  | ORemove key => let* (s, t) := Remove t key in Ok (s, [], Some (t, f))
  | OReopen =>
      let* f := KVEngine_Close (Some t) f in
      let* (kv, f) := KVEngine_Open ENGINE (pmpath t) (pmsize t) f in
      match kv with
      | Some t => Ok (OK, [], Some (t, f))
      | None => Ok (FAILED, [], None)
      end
  end.

Fixpoint run (ops : list op) (t : kvtree) (f : fs) : res (list (KVStatus * list Z) * option (kvtree * fs)) :=
  match ops with
  | [] => Ok ([], Some (t, f))
  | o :: ops =>
      let* (r, st) := step o t f in
      match st with
      | Some (t, f) => let* (rs, st) := run ops t f in Ok (r :: rs, st)
      | None => Ok ([r], None)
      end
  end.

(** The specification: a finite map.  A value goes to the front of the
    caller's buffer if it leaves more than 64 bytes of [limit] behind the key;
    otherwise the buffer keeps its contents. *)
Definition spec_step (o : op) (m : kvmap) : KVStatus * list Z * kvmap :=
  match o with
  | OPut key value => (OK, [], <[key := value]> m)
  | OGet key => (get_result m key, m)
  | OGetBuffer limit key value =>
      (match m !! key with
       | Some v => if Zlength v <? limit - Zlength key - 64 then (OK, v ++ drop (length v) value) else (FAILED, value)
       | None => (NOT_FOUND, value)
       end, m)
  | ORemove key => (OK, [], delete key m)
  | OReopen => (OK, [], m)
  end.
Fixpoint spec_run (ops : list op) (m : kvmap) : list (KVStatus * list Z) * kvmap :=
  match ops with
  | [] => ([], m)
  | o :: ops =>
      let '(r, m) := spec_step o m in
      let '(rs, m) := spec_run ops m in
      (r :: rs, m)
  end.

(** Keys are ASCII strings, not empty and without NUL; values have no NUL;
    the buffer of a [Get] is as long as [limit] promises beyond the key and
    64 bytes. *)
Definition op_ok (o : op) : Prop :=
  match o with
  | OPut key value => key_ok key /\ value_ok value
  | OGet key | ORemove key => key_ok key
  | OGetBuffer limit key value =>
      key_ok key /\ Zlength key + 64 <= limit < 2 ^ 31 /\ limit - Zlength key - 64 <= Zlength value
  | OReopen => True
  end.

(** No resource runs out. *)
Definition no_failures : Prop := (forall pl n, can_alloc pl n = true) /\ (forall path, can_open path = true).

(** An open store in the file system. *)
Definition opened (t : kvtree) (f : fs) (m : kvmap) : Prop :=
  store_is t m /\ exists sz, f !! pmpath t = Some (File None sz).

Lemma open_file t0 m path size f sz : store_is t0 m -> f !! path = Some (File (Some (pmpool t0)) sz) ->
  exists kv f', KVEngine_Open ENGINE path size f = Ok (kv, f') /\
    match kv with
    | Some t => opened t f' m /\ pmpath t = path
    | None => can_open path = false
    end.
Proof.
  intros (es & Hrep & Hm) Hf. unfold KVEngine_Open, KVTree_new, pool_open. rewrite bool_decide_eq_true_2 by done. rewrite Hf.
  destruct (can_open path) eqn:Eo.
  - destruct (Recover_spec t0 es Hrep (KVTree None [] (pmpool t0) path (if is_dax path then 0 else sz) 1) m)
      as (t & HR & Hst & _ & Hpath & _); try done.
    destruct (is_dax path); cbn [f_size]; rewrite HR; cbn [res_bind]; eexists _, _; (split; [done|]);
      (split; [|done]); (split; [done|]); exists sz; rewrite Hpath; cbn [pmpath]; apply lookup_insert_eq.
  - destruct (is_dax path); eexists _, _; done.
Qed.

(** The path of a store does not change. *)
Lemma split_path t path l h key value ok t' : LeafSplitFull can_alloc t path l h key value = Ok (ok, t') -> pmpath t' = pmpath t.
Proof.
  unfold LeafSplitFull. cbv zeta. intros H. destruct (take_leaf can_alloc _ _) as [[[lf pa] pl]|]; [|by simplify_eq].
  res_inv H. destruct r as [[? ?] ?]. res_inv H. destruct r as [[[] ?] ?]; [|by simplify_eq].
  res_inv H. destruct r as [? ?]. by simplify_eq.
Qed.
Lemma Put_path t key value st t' : Put can_alloc t key value = Ok (st, t') -> pmpath t' = pmpath t.
Proof.
  unfold Put. intros H. do 2 res_inv H. destruct r0 as [[path l]|].
  - res_inv H. destruct r0 as [[[ok l'] pl]|]; [by simplify_eq|]. res_inv H. destruct r0 as [ok t'']. simplify_eq.
    by eapply split_path.
  - cbv zeta in H. destruct (take_leaf can_alloc _ _) as [[[lf pa] pl]|]; [|by simplify_eq].
    res_inv H. destruct r0 as [[ok l] pl']. by simplify_eq.
Qed.
Lemma Remove_path t key st t' : Remove t key = Ok (st, t') -> pmpath t' = pmpath t.
Proof.
  unfold Remove. intros H. res_inv H. destruct r as [[path l]|]; [|by simplify_eq]. res_inv H.
  destruct (find_slot _ _ _ _); [|by simplify_eq]. do 2 res_inv H. by simplify_eq.
Qed.

Lemma buffer_wraps limit k : 0 <= limit < 2 ^ 31 -> 0 <= k < 2 ^ 31 ->
  u32 (limit - k - 64) = if k + 64 <=? limit then limit - k - 64 else 2 ^ 32 + (limit - k - 64).
Proof.
  intros Hl Hk. unfold u32. destruct (k + 64 <=? limit) eqn:E.
  - apply Z.mod_small. lia.
  - rewrite <- (Z.mod_add _ 1) by lia. rewrite Z.mod_small; lia.
Qed.

(** [Get] into a buffer that is as long as [limit] promises. *)
Lemma get_buffer_step t es m limit key value : rep t es -> models es m -> key_ok key ->
  Zlength key + 64 <= limit < 2 ^ 31 -> limit - Zlength key - 64 <= Zlength value ->
  (let* (s, v) := Get_buffer t limit (Zlength key) key in let* value := copy_out s value 0 v in Ok (s, value))
  = Ok (spec_step (OGetBuffer limit key value) m).1.
Proof.
  intros Hrep Hm Hk Hlim Hroom. pose proof (Zlength_nonneg key).
  assert (HG : Get_buffer t limit (Zlength key) key = Ok (buffer_result m limit key)).
  { rewrite <- (app_nil_r key) at 2. eapply Get_buffer_spec; [done..|]. rewrite app_nil_r. by apply c_str_key. }
  rewrite HG. unfold buffer_result. rewrite buffer_wraps by lia. destruct (Z.leb_spec (Zlength key + 64) limit); [|lia].
  cbn [spec_step fst]. destruct (m !! key) as [v|]; [|done]. destruct (Z.ltb_spec (Zlength v) (limit - Zlength key - 64)); [|done].
  cbn [res_bind copy_out]. destruct (Nat.leb_spec (0 + length v) (length value)); [done|]. unfold Zlength in *. lia.
Qed.

Lemma step_spec o t f m : opened t f m -> op_ok o ->
  exists r st, step o t f = Ok (r, st) /\
    match st with
    | Some (t', f') => r = (spec_step o m).1 /\ opened t' f' (spec_step o m).2
    | None => ~ no_failures
    end.
Proof.
  intros [Hst [sz Hf]] Ho. destruct o as [key value|key|limit key value|key|]; cbn [step op_ok spec_step fst snd] in *.
  - destruct Ho as [Hk Hv]. destruct (Put_spec can_alloc t m key value Hst Hk Hv) as (st & t' & HP & Hnf & Hcase). rewrite HP.
    cbn [res_bind]. eexists _, _. split; [done|]. destruct Hcase as [[-> Hst']| ->].
    + split; [done|]. split; [done|]. exists sz. by rewrite (Put_path _ _ _ _ _ HP).
    + intros [Ha _]. by specialize (Hnf Ha).
  - pose proof Hst as (es & Hrep & Hm). rewrite (Get_spec _ _ _ _ Hrep Hm Ho). destruct (get_result m key) as [s v].
    eexists _, _. split; [done|]. split; [done|]. by split; [|exists sz].
  - pose proof Hst as (es & Hrep & Hm). destruct Ho as (Hk & Hlim & Hroom).
    pose proof (get_buffer_step t es m limit key value Hrep Hm Hk Hlim Hroom) as HG. apply res_bind_Ok in HG as ([s v] & -> & HG).
    apply res_bind_Ok in HG as (value' & Ec & HG). cbn [res_bind]. rewrite Ec. cbn [res_bind]. apply Ok_inj in HG.
    eexists _, _. split; [done|]. split; [exact HG|]. by split; [|exists sz].
  - destruct (Remove_spec t m key Hst Ho) as (t' & HR & Hst'). rewrite HR. eexists _, _. split; [done|]. split; [done|].
    split; [done|]. exists sz. by rewrite (Remove_path _ _ _ _ HR).
  - cbn [KVEngine_Close res_bind].
    destruct (open_file t m (pmpath t) (pmsize t) (alter (fun fl => File (Some (pmpool t)) (f_size fl)) (pmpath t) f) sz)
      as (kv & f' & -> & Hkv); [done|by rewrite lookup_alter_eq, Hf|].
    cbn [res_bind]. destruct kv as [t'|]; eexists _, _; (split; [done|]).
    + destruct Hkv. done.
    + intros [_ Hop]. by rewrite Hop in Hkv.
Qed.

Lemma run_spec ops t f m : opened t f m -> Forall op_ok ops ->
  exists rs st, run ops t f = Ok (rs, st) /\
    match st with
    | Some (t', f') => rs = (spec_run ops m).1 /\ opened t' f' (spec_run ops m).2
    | None => ~ no_failures /\ removelast rs `prefix_of` (spec_run ops m).1
    end.
Proof.
  intros Hop Hok. revert t f m Hop. induction Hok as [|o ops Ho Hok IH]; intros t f m Hop; cbn [run spec_run].
  { eexists _, _. split; [done|]. done. }
  destruct (step_spec o t f m Hop Ho) as (r & st & -> & Hst). cbn [res_bind].
  destruct (spec_step o m) as [r' m'] eqn:Es. destruct st as [[t' f']|].
  - destruct Hst as [-> Hst]. cbn [fst snd] in *. destruct (IH t' f' m' Hst) as (rs & st & -> & Hst'). cbn [res_bind].
    destruct (spec_run ops m') as [rs' m'']. eexists _, _. split; [done|]. cbn [fst snd] in *.
    destruct st as [[t'' f'']|]; [by destruct Hst' as [-> ?]|]. destruct Hst' as [Hnf Hpre]. split; [done|].
    destruct rs as [|r0 rs]; [apply prefix_nil|]. by apply prefix_cons.
  - destruct (spec_run ops m') as [rs' m'']. eexists _, _. split; [done|]. split; [done|]. apply prefix_nil.
Qed.

Lemma open_new path size f : f !! path = None -> is_dax path = false -> can_create path size = true ->
  exists t f', KVEngine_Open ENGINE path size f = Ok (Some t, f') /\ opened t f' ∅.
Proof.
  intros Hf Hd Hc. unfold KVEngine_Open, KVTree_new, pool_create. rewrite bool_decide_eq_true_2 by done.
  rewrite Hd, Hf, Hc. eexists _, _. split; [done|]. split; [|exists size; apply lookup_insert_eq].
  exists []. split.
  - split; cbn; try done; [constructor|]. exists []. split_and!; try done; constructor.
  - intros k v. rewrite lookup_empty. split; [done|]. intros (e & He & _). by apply elem_of_nil in He.
Qed.
End Api.

(** ** Properties *)

(** [C34] The key-value store refines a finite map.  Take a store opened on a
    path that does not exist, and any sequence of [Put], both [Get]s,
    [Remove] and closing followed by opening, with keys that are ASCII
    strings, not empty and without NUL, values without NUL, and for the [Get]
    with a buffer a [limit] of at least the length of the key and 64 and a
    buffer of at least the rest of [limit].  It runs without a failed
    assertion or an access outside an object or the caller's buffer and
    answers every call as a finite map from keys to values does; if [Put] or
    [Open] fails, which only happens when an allocation or the opening of a
    pool fails, the answers before that are right and the run ends there. *)
Theorem kvtree2_refines_map can_alloc can_create can_open ops path size f :
  f !! path = None -> is_dax path = false -> can_create path size = true -> Forall op_ok ops ->
  exists t f1 rs st,
    KVEngine_Open can_create can_open ENGINE path size f = Ok (Some t, f1) /\
    run can_alloc can_create can_open ops t f1 = Ok (rs, st) /\
    match st with
    | Some (t', f') => rs = (spec_run ops ∅).1 /\ opened t' f' (spec_run ops ∅).2
    | None => ~ no_failures can_alloc can_open /\ removelast rs `prefix_of` (spec_run ops ∅).1
    end.
Proof.
  intros Hf Hd Hc Hok. destruct (open_new can_create can_open path size f Hf Hd Hc) as (t & f1 & -> & Hop).
  destruct (run_spec can_alloc can_create can_open ops t f1 ∅ Hop Hok) as (rs & st & Hrun & Hst).
  exists t, f1, rs, st. done.
Qed.

Definition demo_ops : list op :=
  [OPut [107; 49] [97]; OGet [107; 49]; OReopen; OGet [107; 49]; OPut [107; 49] [98; 99]; OGetBuffer 80 [107; 49] (replicate 14 0);
   OGet [107; 50]; ORemove [107; 49]; OGet [107; 49]].

Lemma demo_ops_ok : Forall op_ok demo_ops.
Proof. repeat (apply Forall_cons; split; [by (repeat constructor)|]). constructor. Qed.

Lemma kvtree2_refines_map_witness :
  exists t f1 rs st,
    KVEngine_Open (fun _ _ => true) (fun _ => true) ENGINE [47; 116] 4096 ∅ = Ok (Some t, f1) /\
    run (fun _ _ => true) (fun _ _ => true) (fun _ => true) demo_ops t f1 = Ok (rs, st) /\
    match st with
    | Some (t', f') => rs = (spec_run demo_ops ∅).1 /\ opened t' f' (spec_run demo_ops ∅).2
    | None => ~ no_failures (fun _ _ => true) (fun _ => true) /\ removelast rs `prefix_of` (spec_run demo_ops ∅).1
    end.
Proof.
  apply (kvtree2_refines_map (fun _ _ => true) (fun _ _ => true) (fun _ => true) demo_ops [47; 116] 4096 ∅);
    [reflexivity|reflexivity|reflexivity|exact demo_ops_ok].
Defined.

(** *** The buffers of the C interface *)

Lemma c_str_key_rest key rest : key_ok key -> c_str (key ++ 0 :: rest) = key.
Proof. intros. apply c_str_app_0. auto with kv. Qed.

Lemma length_put_bytes o bs p : (o + length bs <= length p)%nat -> length (put_bytes o bs p) = length p.
Proof. intros. unfold put_bytes. rewrite !length_app, length_take, length_drop. lia. Qed.

(** [C35] What [kvengine_get_ffi] does to the caller's buffer, which has the
    key and a NUL in front and is as long as its [limit] says.  If [limit]
    leaves room for the key and 64 bytes more, the call never writes outside
    the buffer: it copies a value that fits behind the key and reports its
    length, and reports a failure otherwise.  If [limit] is smaller, the
    difference wraps around in the comparison of unsigned numbers: a stored
    value is copied whatever its length, outside the buffer when it does not
    fit. *)
Theorem kvengine_get_ffi_bounds t m key rest limit vb : store_is t m -> key_ok key ->
  0 <= limit < 2 ^ 31 -> Zlength (key ++ 0 :: rest) = limit ->
  let buf := FFI limit (Zlength key) vb (key ++ 0 :: rest) in
  (Zlength key + 64 <= limit ->
   exists code buf', kvengine_get_ffi t buf = Ok (code, buf') /\ Zlength (ffi_data buf') = limit /\
     match m !! key with
     | Some v => if Zlength v <? limit - Zlength key - 64
                 then code = 1 /\ ffi_valuebytes buf' = Zlength v /\ exists rest', ffi_data buf' = key ++ v ++ rest'
                 else code = -1 /\ buf' = buf
     | None => code = 0 /\ buf' = buf
     end) /\
  (limit < Zlength key + 64 -> forall v, m !! key = Some v -> Zlength v < 2 ^ 31 ->
   limit < Zlength key + Zlength v -> kvengine_get_ffi t buf = Segfault).
Proof.
  intros (es & Hrep & Hm) Hk Hlim Hlen buf. pose proof (Zlength_nonneg key) as Hk0. pose proof (Zlength_nonneg rest).
  rewrite Zlength_app, Zlength_cons in Hlen. unfold kvengine_get_ffi. cbn [ffi_limit ffi_keybytes ffi_valuebytes ffi_data buf].
  rewrite (Get_buffer_spec _ _ _ _ _ _ Hrep Hm Hk (c_str_key_rest key rest Hk)). unfold buffer_result.
  rewrite buffer_wraps by lia. split.
  - intros Hroom. destruct (Zlength key + 64 <=? limit) eqn:E; [|lia]. destruct (m !! key) as [v|].
    + destruct (Zlength v <? limit - Zlength key - 64) eqn:Ev; cbn [res_bind copy_out].
      * rewrite length_app. destruct (Nat.leb_spec (Z.to_nat (Zlength key) + length v) (length key + length (0 :: rest))).
        2:{ unfold Zlength in *. cbn in *. lia. }
        cbn [res_bind]. eexists _, _. split; [done|]. cbn [ffi_data ffi_valuebytes]. split; [|split; [done|split; [done|]]].
        { unfold Zlength in *. rewrite length_put_bytes by (rewrite length_app; done). rewrite length_app. cbn. lia. }
        unfold put_bytes, Zlength. rewrite Nat2Z.id, take_app_length. eauto.
      * eexists _, _. split; [done|]. cbn [ffi_data]. split; [rewrite Zlength_app, Zlength_cons; lia|done].
    + eexists _, _. split; [done|]. cbn [ffi_data]. split; [rewrite Zlength_app, Zlength_cons; lia|done].
  - intros Hroom v -> Hv Hover. destruct (Zlength key + 64 <=? limit) eqn:E; [lia|].
    destruct (Zlength v <? 2 ^ 32 + (limit - Zlength key - 64)) eqn:Ev; [|lia]. cbn [res_bind copy_out].
    rewrite length_app. destruct (Nat.leb_spec (Z.to_nat (Zlength key) + length v) (length key + length (0 :: rest))); [|done].
    unfold Zlength in *. cbn in *. lia.
Qed.

Definition empty_store : kvtree := KVTree None [] empty_pool [] 0 1.
(** A store with one pair, "k1" and "abc". *)
Definition demo_store : kvtree :=
  match Put (fun _ _ => true) empty_store [107; 49] [97; 98; 99] with Ok (_, t) => t | _ => empty_store end.

Lemma empty_store_is : store_is empty_store ∅.
Proof.
  exists []. split.
  - split; cbn; try done; [constructor|]. exists []. split_and!; try done; constructor.
  - intros k v. rewrite lookup_empty. split; [done|]. intros (e & He & _). by apply elem_of_nil in He.
Qed.
Lemma demo_key_ok : key_ok [107; 49].
Proof. split; [done|]. split; [repeat constructor|done]. Qed.
Lemma demo_store_is : store_is demo_store {[ [107; 49] := [97; 98; 99] ]}.
Proof.
  destruct (Put_spec (fun _ _ => true) empty_store ∅ [107; 49] [97; 98; 99] empty_store_is demo_key_ok) as (st & t & HP & Hnf & Hc).
  { split; [repeat constructor|done]. }
  unfold demo_store. rewrite HP. destruct Hc as [[_ Hst]| ->]; [exact Hst|]. by specialize (Hnf ltac:(done)).
Qed.

Lemma kvengine_get_ffi_bounds_witness :
  (exists code buf', kvengine_get_ffi demo_store (FFI 80 2 0 ([107; 49] ++ 0 :: replicate 77 0)) = Ok (code, buf')) /\
  kvengine_get_ffi demo_store (FFI 4 2 0 ([107; 49] ++ 0 :: [0])) = Segfault.
Proof.
  split.
  - destruct (proj1 (kvengine_get_ffi_bounds demo_store {[ [107; 49] := [97; 98; 99] ]} [107; 49] (replicate 77 0) 80 0
                       demo_store_is demo_key_ok ltac:(lia) eq_refl)) as (code & buf' & H & _); [done|].
    exists code, buf'. exact H.
  - apply (proj2 (kvengine_get_ffi_bounds demo_store {[ [107; 49] := [97; 98; 99] ]} [107; 49] [0] 4 0
                    demo_store_is demo_key_ok ltac:(lia) eq_refl) eq_refl [97; 98; 99]); [apply lookup_singleton_eq|done|done].
Defined.

(** *** A failed [Put] *)

(** [C40] An overwriting [Put] that fails loses the old value and leaves a
    dangling pointer: the buffer is freed before the new one is allocated, so
    that for a key the store has, with a pool that has no room, [Put] reports
    a failure and the next [Get] of the key reads freed memory. *)
Theorem failed_overwrite_dangles can_alloc t m key value v : store_is t m -> key_ok key -> value_ok value ->
  m !! key = Some v -> (forall pl n, can_alloc pl n = false) ->
  exists t', Put can_alloc t key value = Ok (FAILED, t') /\ Get t key = Ok (OK, v) /\ Get t' key = Segfault.
Proof.
  intros (es & Hrep & Hm) Hk Hv Hkey Hna.
  pose proof (Get_spec _ _ _ _ Hrep Hm Hk) as HG. unfold get_result in HG. rewrite Hkey in HG.
  pose proof (LeafSearch_spec t es key Hrep (key_ok_nz _ Hk)) as Hs.
  destruct (tree_top t) as [n|] eqn:Et. 2:{ destruct Hs as [_ ->]. by rewrite (models_empty _ Hm), lookup_empty in Hkey. }
  destruct Hs as (path & l & esA & lo & cells & esB & Hls & Hr).
  destruct (routed_entry _ _ _ _ _ _ _ _ _ Hrep Hr) as (Hl & (Hlen & Hok & Hnd) & Hp).
  pose proof (scan_slots_spec l cells key Hl Hok Hk LEAF_KEYS None ltac:(lia)) as Hscan.
  unfold Put. rewrite (ph_hash _ Hk), Hls. cbn [res_bind]. unfold LeafFillSlotForKey.
  destruct (scan_slots LEAF_KEYS l (ph key) key None) as [e [i|]]; cbv beta iota in Hscan.
  2:{ exfalso. destruct Hscan as [Hno _]. apply Hm, (holds_routed _ _ _ _ _ _ _ _ _ _ Hrep Hr) in Hkey.
      apply list_elem_of_lookup in Hkey as [j Hj]. apply (Hno j v); [|done]. apply lookup_lt_Some in Hj. lia. }
  destruct Hscan as (_ & v' & Hi). unfold LeafFillSpecificSlot, slot_set.
  rewrite (leaf_hash _ _ Hl _ _ Hi), (cell_hash_0 _ Hok _ _ Hi). cbn [bool_decide decide_rel].
  rewrite (pool_slot_cells _ _ _ _ _ Hp Hi). cbn [res_bind cell_kv slot_empty deref]. cbv zeta. rewrite Hna. cbn [res_bind status].
  eexists. split; [done|]. split; [done|]. unfold Get.
  rewrite bool_decide_eq_false_2 by done.
  assert (Hls' : LeafSearch (with_top (with_pool t (leaves_prealloc t) (set_pool_slot (pmpool t) (leaf l) i Freed))
                   (Some (rebuild path (NLeaf l))) (next_addr t)) key = LeafSearch t key).
  { unfold LeafSearch. cbn [tree_top with_top]. by rewrite (rt_top _ _ _ _ _ _ _ _ _ Hr). }
  rewrite Hls', Hls. cbn [res_bind]. rewrite (ph_hash _ Hk). cbn [res_bind].
  pose proof (find_slot_spec l cells key Hl Hok Hk LEAF_KEYS ltac:(lia)) as Hf.
  destruct (find_slot LEAF_KEYS l (ph key) key) as [j|].
  2:{ exfalso. apply (Hf i v'); [|done]. apply lookup_lt_Some in Hi. lia. }
  destruct Hf as (_ & v'' & Hj). rewrite ckeys_NoDup in Hnd. rewrite (Hnd _ _ _ _ _ Hj Hi).
  unfold pool_slot. destruct Hp as (L & HL & HS). cbn [pmpool with_top with_pool set_pool_slot leaves].
  rewrite lookup_alter_eq, HL. cbn [fmap option_fmap option_map slots].
  rewrite list_lookup_insert_eq; [done|]. rewrite HS, length_fmap. by eapply lookup_lt_Some.
Qed.

Lemma failed_overwrite_dangles_witness :
  exists t', Put (fun _ _ => false) demo_store [107; 49] [100] = Ok (FAILED, t') /\ Get t' [107; 49] = Segfault.
Proof.
  destruct (failed_overwrite_dangles (fun _ _ => false) demo_store {[ [107; 49] := [97; 98; 99] ]} [107; 49] [100] [97; 98; 99]
              demo_store_is demo_key_ok) as (t' & H1 & _ & H2);
    [split; [repeat constructor|done]|apply lookup_singleton_eq|done|].
  exists t'. split; [exact H1|exact H2].
Defined.

(** *** The experiment *)

(** A line of a trace that [getline] takes whole. *)
Definition line_ok (line : list Z) : Prop := Forall (fun b => b <> 10) line /\ (length line < MAX_KEY_SIZE)%nat.
(** A trace file with the lines. *)
Definition trace_of (lines : list (list Z)) : list Z := concat ((fun l => l ++ [10]) <$> lines).

Lemma getline_line room acc line rest : Forall (fun b => b <> 10) line -> (length line <= room)%nat ->
  getline room acc (line ++ 10 :: rest) = Some (acc ++ line, rest).
Proof.
  intros Hl. revert room acc. induction Hl as [|c line Hc Hl IH]; intros room acc Hr; cbn [app getline].
  - by rewrite app_nil_r.
  - destruct (c =? 10) eqn:E; [lia|]. destruct room as [|room]; cbn in Hr; [lia|]. rewrite IH by lia. by rewrite <- app_assoc.
Qed.

Lemma load_keys_lines fuel lines : Forall line_ok lines -> Forall nul_free lines -> (length lines <= fuel)%nat ->
  load_keys (S fuel) (trace_of lines) = lines.
Proof.
  intros Hl Hn. revert fuel. induction Hl as [|line lines [Hnl Hlen] Hl IH]; intros fuel Hf; [done|].
  apply Forall_cons in Hn as [Hn0 Hn]. cbn in Hf. destruct fuel as [|fuel]; [lia|].
  unfold trace_of. rewrite fmap_cons. cbn [concat]. rewrite <- app_assoc. change ([10] ++ ?r) with (10 :: r).
  fold (trace_of lines). remember (S fuel) as fuel' eqn:Ef. cbn [load_keys].
  rewrite getline_line by (done || (unfold MAX_KEY_SIZE in *; lia)). cbn [app]. rewrite c_str_id by done.
  f_equal. subst fuel'. apply IH; [done|lia].
Qed.

Lemma put_keys_spec can_alloc t m keys value : (forall pl n, can_alloc pl n = true) -> store_is t m ->
  Forall key_ok keys -> value_ok value ->
  exists t', put_keys can_alloc t keys value = Ok t' /\ store_is t' (foldl (fun m key => <[key := value]> m) m keys).
Proof.
  intros Ha Hst Hk Hv. revert t m Hst. induction Hk as [|key keys Hk Hks IH]; intros t m Hst; cbn [put_keys foldl]; [eauto|].
  destruct (Put_spec can_alloc t m key value Hst Hk Hv) as (st & t' & -> & Hnf & Hc). cbn [res_bind].
  rewrite (Hnf Ha) in *. destruct Hc as [[_ Hst']|?]; [|done]. by apply IH.
Qed.

Lemma stored_keys (keys : list (list Z)) (value : list Z) (m : kvmap) (key : list Z) :
  foldl (fun m key => <[key := value]> m) m keys !! key = if decide (key ∈ keys) then Some value else m !! key.
Proof.
  revert m. induction keys as [|k keys IH]; intros m; cbn [foldl].
  - rewrite decide_False; [done|]. apply not_elem_of_nil.
  - rewrite IH. destruct (decide (key ∈ keys)).
    + by rewrite decide_True by set_solver.
    + destruct (decide (k = key)) as [->|]; [rewrite lookup_insert_eq, decide_True by set_solver; done|].
      rewrite lookup_insert_ne, decide_False by set_solver. done.
Qed.

(** A worker of the throughput experiment, with enough memory, puts
    every key of its trace: from a trace file with ASCII lines of at most 127
    characters, none empty, [load_keys] makes the list of the lines, no
    [assert] of the worker fails, and the store it leaves has the value for
    every line of the trace and nothing else. *)
Theorem worker_stores_trace can_alloc can_create can_open path size value lines f :
  (forall pl n, can_alloc pl n = true) -> f !! path = None -> is_dax path = false -> can_create path size = true ->
  Forall line_ok lines -> Forall key_ok lines -> value_ok value ->
  let trace := trace_of lines in
  exists t f', worker can_alloc can_create can_open path size value (load_keys (S (length trace)) trace) f = Ok (Some t, f') /\
    forall key, key_ok key -> Get t key = Ok (if decide (key ∈ lines) then (OK, value) else (NOT_FOUND, [])).
Proof.
  intros Ha Hf Hd Hc Hl Hk Hv trace. unfold trace.
  assert (Hlen : (length lines <= length (trace_of lines))%nat).
  { clear. unfold trace_of. induction lines as [|l lines IH]; [done|]. rewrite fmap_cons. cbn [concat length].
    rewrite !length_app. cbn. lia. }
  rewrite load_keys_lines; [|done|eapply Forall_impl; [exact Hk|apply key_ok_nz]|done].
  unfold worker. destruct (open_new can_create can_open path size f Hf Hd Hc) as (t & f1 & -> & [Hst _]). cbn [res_bind].
  destruct (put_keys_spec can_alloc t ∅ lines value Ha Hst Hk Hv) as (t' & -> & es & Hrep & Hm).
  exists t', f1. split; [done|]. intros key Hkey. rewrite (Get_spec _ _ _ _ Hrep Hm Hkey). unfold get_result.
  rewrite stored_keys, lookup_empty. by destruct (decide (key ∈ lines)).
Qed.

Lemma demo_lines_ok : Forall line_ok [[107; 49]; [107; 50]] /\ Forall key_ok [[107; 49]; [107; 50]].
Proof.
  assert (Hl : forall b, b = 49 \/ b = 50 -> line_ok [107; b] /\ key_ok [107; b]).
  { intros b Hb. split; [split; [repeat constructor; lia|cbn; unfold MAX_KEY_SIZE; lia]|].
    split; [done|]. split; [repeat constructor; lia|done]. }
  split; (constructor; [|constructor; [|constructor]]); apply Hl; auto.
Qed.

Lemma worker_stores_trace_witness :
  exists t f', worker (fun _ _ => true) (fun _ _ => true) (fun _ => true) [47; 116] 4096 [97]
                 (load_keys 7 (trace_of [[107; 49]; [107; 50]])) ∅ = Ok (Some t, f') /\
    Get t [107; 49] = Ok (OK, [97]).
Proof.
  destruct (worker_stores_trace (fun _ _ => true) (fun _ _ => true) (fun _ => true) [47; 116] 4096 [97] [[107; 49]; [107; 50]] ∅)
    as (t & f' & HW & HG); try done.
  - exact (proj1 demo_lines_ok).
  - exact (proj2 demo_lines_ok).
  - split; [repeat constructor|done].
  - exists t, f'. split; [exact HW|]. rewrite HG; [reflexivity|exact demo_key_ok].
Defined.

(** *** Cases outside the theorems *)

(** A buffer used twice: the value behind the key becomes part of the key. *)
Example get_ffi_twice :
  (let* (c1, buf) := kvengine_get_ffi demo_store (FFI 80 2 0 ([107; 49] ++ replicate 78 0)) in
   let* (c2, _) := kvengine_get_ffi demo_store buf in Ok (c1, c2)) = Ok (1, 0).
Proof. vm_compute. reflexivity. Qed.

(** A key with a byte of 128 or more: the index into the table is negative. *)
Example hash_high_byte : PearsonHash [195; 164] = Segfault.
Proof. vm_compute. reflexivity. Qed.

(** After a failed overwrite the pool cannot be opened again. *)
Example failed_overwrite_reopen :
  (let* (s, t) := Put (fun _ _ => false) demo_store [107; 49] [100] in
   let* t := Recover (KVTree None [] (pmpool t) [] 0 1) in Ok s) = Segfault.
Proof. vm_compute. reflexivity. Qed.

(** Every leaf counts as empty in the analysis. *)
Example analyze_all_empty : Analyze demo_store = Ok (Analysis 1 0 1 [] 0).
Proof. vm_compute. reflexivity. Qed.

(** A pool of a given size. *)
Definition kv_size (kv : kvptr) : Z := match kv with Buf b => Zlength b | _ => 0 end.
Definition pool_used (pl : pool) : Z :=
  map_fold (fun _ L n => n + sizeof_KVLeaf + foldr (fun kv n => n + kv_size kv) 0 (slots L)) 0 (leaves pl).
Definition pool_of_size (cap : Z) (pl : pool) (n : Z) : bool := pool_used pl + n <=? cap.

Fixpoint put_range (cap : Z) (n : nat) (t : kvtree) : res (KVStatus * kvtree) :=
  match n with
  | O => Ok (OK, t)
  | S n => let* (s, t) := put_range cap n t in
           match s with OK => Put (pool_of_size cap) t [1 + Z.of_nat n] [97] | _ => Ok (s, t) end
  end.

(** A split that cannot allocate the buffer of the new pair: the keys that
    were moved to the new leaf are not found any more, though [Put] only
    reports that the new key could not be stored. *)
Example failed_split_loses_keys :
  (let* (s48, t) := put_range 2200 48 empty_store in
   let* (s49, t') := Put (pool_of_size 2200) t [49] [97] in
   let* (g, _) := Get t [40] in
   let* (g', _) := Get t' [40] in
   Ok (s48, g, s49, g')) = Ok (OK, OK, FAILED, NOT_FOUND).
Proof. vm_compute. reflexivity. Qed.
